(* ===== verification/_CoqProject ===== *)
-Q . S2P
Prelude.v
GoLib.v
Json.v
Types.v
MemStore.v
Dsl.v
Engine.v
Lifecycle.v
LifecycleInv.v
Worlds.v
Contract.v
Reconcile.v
EngineSpec.v
EngineOps.v
RunCreate.v
System.v
Liveness.v
MemSpec.v
Demo.v
Guarantees.v
Behaviour.v
Operations.v
Termination.v
Findings.v
Scheduler.v
Grpc.v
Services.v
Http.v
ApiSpec.v
Serving.v
Floats.v
LoadTest.v
LoadTestSpec.v
RelaySpec.v
Worker.v
WorkerSpec.v
Fleet.v
MemQueue.v
Lock.v
Config.v
Processes.v
Postgres.v
PostgresSpec.v
Columns.v
Jsonb.v
PostgresLaws.v
Faults.v
Production.v
Concurrency.v
Migrations.v
Streams.v
Membership.v
Loops.v
