(* ===== verification/Prelude.v ===== *)
(** Verification of the workflow orchestrator.

    * The program

    A server keeps workflow definitions (DAGs of steps) and runs of them in a database.
    The engine (internal/engine) decides which steps may start, records a task attempt and
    an outbox row for each, and settles steps and runs when results, timers, signals and
    cancellations come in.  Background loops publish the outbox to a queue, fire timers,
    expire leases and re-evaluate unfinished runs.  Workers take messages from the queue,
    claim the attempt over gRPC, run a handler and report.  Several servers may share the
    database; a leader, elected with a Redis lock, assigns shards by consistent hashing.

    * What models what

    - Prelude: Go errors, the state-and-error monad [GoM], its weakest preconditions [wp],
      the [go] hints and the [wp_step]/[wp_use] tactics.
    - GoLib, Json: what the sources use of Go's strings, integers, floating point, hashes
      and encoding/json.
    - Types: internal/store/types.go and store.go.  Rows are records, [Tables] the database,
      [Queries] and [Store] the interfaces as type classes.  [World] adds a counter of calls
      to the outside; [Env] holds what answers them (clock, uuids, random numbers, the order
      of map iteration), so theorems hold for every such behaviour.
    - MemStore: internal/store/memory, an instance of [Store].
    - Postgres: internal/store/postgres/queries.go and [WithTx], another instance of [Store]:
      each method is its SQL statements over the tables, with the constraints of the schema,
      and a transaction that fails is rolled back.  Columns: the columns the statements list
      and the scan functions.  Migrations: [New] and [runMigrations] of postgres.go.
    - Dsl: internal/workflowdsl (validation, cycle search, conversion to steps and JSON).
    - Engine: internal/engine/engine.go and reconcile.go, every operation, against [Store].
    - Scheduler: internal/scheduler (ring.go; shard map and leadership of scheduler.go).
    - Membership: the heartbeats and live members of internal/scheduler and the worker
      registry of internal/workers, on Redis sorted sets.
    - Lock: internal/lock/redislock.  Streams: internal/queue/redisstream, one iteration of
      each loop and the channel between them and the worker.
    - Grpc, Http: internal/grpcapi and internal/httpapi, all handlers and both API-key checks;
      Http also holds [Parse] of internal/workflowdsl.
    - Services: one iteration of internal/outbox, internal/timers, internal/leases and of the
      recovery sweep of cmd/server.  Loops: the [Run] loops around them and the three loops
      of internal/scheduler.
    - Worker: internal/worker ([Run], the processing loops and all calls) and the client
      interceptor of cmd/worker, over a network that may lose requests and replies.
      MemQueue: internal/queue/memory, with its goroutines as steps.
    - Config: internal/config.  Processes: the main functions of cmd/server and cmd/worker,
      the health check and the demo handlers.
    - LoadTest: loadtest/main.go against the HTTP server.

    * The specification and the theorems

    Lifecycle states what the engine is meant to do: an abstract state machine of moves over
    the tables with an invariant; LifecycleInv proves that the moves keep it and that rows
    only evolve forward.  Contract states what the engine needs of a store ([StoreLaws]: how
    every method answers, which rows it writes, and that a transaction that fails is undone);
    Reconcile, EngineSpec, EngineOps and RunCreate prove the engine against it, with the
    rules of Worlds.  MemSpec proves the laws for the memory store, PostgresLaws for the
    PostgreSQL store, and Faults for a store behind a connection that fails at any statement,
    BEGIN or COMMIT or loses the answer to a COMMIT.  System lets any number of clients, workers and
    loops interleave ([sys_step]; [reachable] is the closure from the empty store).  Its states
    also hold the attempts that a reaper has expired and whose steps it has not told: it
    holds them until it has handled them, and they are stranded for good when the transaction
    fails, which [ReapExpiredLeases] only logs, or the process stops.  And
    Serving proves that every request, RPC and loop iteration is a sequence of such steps,
    so a statement about reachable states is one about the running server.  These theorems
    hold for every store that obeys the laws, unless they name the memory store.

    - Production: the deployed server, over PostgreSQL and whatever fails, has sound tables
      after any sequence of events, and what is settled stays settled.
    - Guarantees: the refinement itself, and what holds in every reachable state (no early
      start, retry budget, one open attempt per busy step, justified results, an outbox row
      per attempt, right verdicts, and an unfinished run is driven unless it has a
      [signal_wait] step or a stranded attempt) and what never changes again.
    - Termination: along every execution a run changes a bounded number of times, and from
      every reachable state in which it has no [signal_wait] step and no stranded attempt it
      can be driven to its end, unless the store refuses a call on the way.
    - Behaviour, Operations: what each operation does on every branch, at-most-once claims
      and results, completeness and termination of DAG evaluation, classification of errors.
    - ApiSpec: authentication, HTTP status codes, the claim RPC.
    - RelaySpec, Loops, WorkerSpec, Fleet: order and at-least-once sending, the relay empties
      the outbox, a leader that shuts down gives up its lock; a task runs at most
      once, over all workers and the whole life of the system, and a delivered one is carried
      through; a worker listens on the streams of its task types.
    - Scheduler, Membership, Lock, Config: ring lookup and minimal disruption, shard
      partition, exactness of the member list and of the registry, mutual exclusion of the
      leader lock (but not of publications, [stalled_leader_publishes] in Loops),
      well-formedness of every configuration.
    - Streams: no published message is lost, and those of a crashed consumer are sent to another.
    - PostgresSpec: the SQL store and the memory store agree call by call where the schema
      accepts the call; over PostgreSQL a failed request leaves no trace; recovery without
      shards finds nothing.  Jsonb: a definition survives a JSONB column.  Columns: a stored
      row is the row read back.  Migrations:
      interrupted migrations converge.
    - Processes: no deployment is open.  LoadTestSpec, Floats: the report of the load test
      adds up and is true, its percentiles stay in range.
    - Dsl: validation accepts exactly the well-formed definitions, the cycle search decides
      acyclicity, the stored JSON decodes to the definition.
    - Findings, Concurrency, and [registers_only_once], [shutdown_can_panic] and
      [memory_queue]: defects of the code, as theorems.
    - Demo: an example workflow whose states the witnesses use.

    * Bounds and fuel

    [findCycle] recurses with fuel one more than the number of step names that are declared
    or depended on, which a path without repetition cannot exceed; [propagateSkips] makes at most one pass more than there are
    steps, and each pass but the last skips one; [search_loop] halves an interval of length
    at most its fuel; [pow_loop] visits the at most 64 bits of an exponent.  The theorems
    show the results, not only that a result, if any, is right.  Integers are kept in Z;
    64-bit and 32-bit wrap-around is written out where the code can reach it.

    * Assumptions

    [uuid_unique]: github.com/google/uuid never repeats an identifier.  The laws of [Redis]
    (Lock), [RedisStream] (Streams) and [RedisKeys] (Membership), what PostgreSQL does with
    values ([Pg], Postgres; [jsonb_documented], PostgresLaws), how its driver scans them ([Pgx],
    Columns) and the decoders of [Codec]
    (Http) stand for libraries; each has a concrete instance.  A critical section of the
    in-memory store is atomic, and so is a transaction of PostgreSQL (but for Concurrency);
    [CreateRun] reads an immutable definition before its transaction and is treated as one
    step with it.  Strings are valid UTF-8, as those that [Parse] and the decoders produce are
    (encoding/json replaces other bytes).

    * Not modelled

    Interleavings of PostgreSQL transactions in general, the refusal of further statements
    after an error inside one (the model also lets them succeed), the loss of the answer
    to a statement outside a transaction, and failures of the BEGIN and the COMMIT of the relay
    (its transaction spans the store and the queue; its statements fail and roll back); the
    connection pool.  How often tickers fire, goroutine
    start-up, signal handling, graceful shutdown and logging; chi, net/http and grpc routing; the
    generated gRPC code; the frontend. *)

From stdpp Require Import gmap strings list relations.

#[export] Set Warnings "-clear-no-such-hyp".

(** * Go errors *)

(** A Go [error] value.  [ErrNotFound] and [ErrConflict] are the sentinels of
    internal/store/types.go; [Errorf] is [fmt.Errorf] (or any other library
    error) without a wrapped cause, [Wrapf] is [fmt.Errorf("...: %w", err)]. *)
Inductive error :=
| ErrNotFound
| ErrConflict
| Errorf (msg : string)
| Wrapf (msg : string) (cause : error).

#[export] Instance error_eq_dec : EqDecision error.
Proof. solve_decision. Defined.

(** [errors.Is(err, target)] for a sentinel target: walks the %w chain. *)
Fixpoint errors_Is (e target : error) : bool :=
  bool_decide (e = target) ||
  match e with Wrapf _ e' => errors_Is e' target | _ => false end.

(** * The effect monad: state passing with Go's [(value, error)] results *)

Inductive outcome (A : Type) :=
| Ok (a : A)
| Err (e : error).
Arguments Ok {A} a.
Arguments Err {A} e.

Definition GoM (S A : Type) : Type := S → outcome A * S.

#[export] Instance GoM_ret S : MRet (GoM S) := λ A a s, (Ok a, s).

#[export] Instance GoM_bind S : MBind (GoM S) := λ A B f m s,
  match m s with
  | (Ok a, s') => f a s'
  | (Err e, s') => (Err e, s')
  end.

(** [return nil, err] *)
Definition fail {S A} (e : error) : GoM S A := λ s, (Err e, s).

Definition gets {S A} (f : S → A) : GoM S A := λ s, (Ok (f s), s).

Definition modify {S} (f : S → S) : GoM S unit := λ s, (Ok tt, f s).

(** Runs [m] and hands its error to the caller as a value: [x, err := m()]
    followed by code that inspects or drops [err]. *)
Definition catch {S A} (m : GoM S A) : GoM S (outcome A) :=
  λ s, let '(r, s') := m s in (Ok r, s').

(** A [for] loop over a list that threads an accumulator and returns at the
    first error. *)
Fixpoint foldM {S A B} (f : B → A → GoM S B) (b : B) (l : list A) : GoM S B :=
  match l with
  | [] => mret b
  | x :: l' => b' ← f b x; foldM f b' l'
  end.

(** * A weakest-precondition calculus for [GoM] *)

Definition wp {S A} (m : GoM S A) (Q : outcome A → S → Prop) (s : S) : Prop :=
  Q (m s).1 (m s).2.

(** Post-condition from a normal and an error part. *)
Definition post {S A} (Q : A → S → Prop) (E : error → S → Prop)
    (r : outcome A) (s : S) : Prop :=
  match r with Ok a => Q a s | Err e => E e s end.

Section wp_rules.
Context {S : Type}.
Implicit Types s : S.

Lemma wp_and {W A} (m : GoM W A) P Q w :
  wp m P w → wp m Q w → wp m (λ r w', P r w' ∧ Q r w') w.
Proof. unfold wp. by destruct (m w). Qed.

Lemma wp_mono {A} (m : GoM S A) (P Q : outcome A → S → Prop) s :
  wp m P s → (∀ r s', P r s' → Q r s') → wp m Q s.
Proof. unfold wp. eauto. Qed.

Lemma wp_ret {A} (a : A) Q s : Q (Ok a) s → wp (mret a) Q s.
Proof. done. Qed.

Lemma wp_fail {A} e (Q : outcome A → S → Prop) s : Q (Err e) s → wp (fail e) Q s.
Proof. done. Qed.

Lemma wp_gets {A} (f : S → A) Q s : Q (Ok (f s)) s → wp (gets f) Q s.
Proof. done. Qed.

Lemma wp_modify f (Q : outcome unit → S → Prop) s :
  Q (Ok tt) (f s) → wp (modify f) Q s.
Proof. done. Qed.

Lemma wp_catch {A} (m : GoM S A) Q s :
  wp m (λ r, Q (Ok r)) s → wp (catch m) Q s.
Proof. unfold wp, catch. by destruct (m s). Qed.

Lemma wp_bind {A B} (m : GoM S A) (f : A → GoM S B) Q s :
  wp m (post (λ a, wp (f a) Q) (λ e, Q (Err e))) s → wp (m ≫= f) Q s.
Proof.
  unfold wp. unfold mbind, GoM_bind.
  destruct (m s) as [[a|e] s']; done.
Qed.

Lemma wp_run {A} (m : GoM S A) Q s r s' : wp m Q s → m s = (r, s') → Q r s'.
Proof. unfold wp. intros H E. by rewrite E in H. Qed.

(** Loop rule: [I done acc s] holds after the elements [done] were processed. *)
Lemma wp_foldM_prefix {A B} (I : list A → B → S → Prop) (E : error → S → Prop)
    (f : B → A → GoM S B) b pre l s :
  I pre b s →
  (∀ done x rest b s, pre ++ l = done ++ x :: rest → I done b s →
     wp (f b x) (post (I (done ++ [x])) E) s) →
  wp (foldM f b l) (post (I (pre ++ l)) E) s.
Proof.
  revert pre b s. induction l as [|x l IH]; intros pre b s HI Hstep; simpl.
  - apply wp_ret. by rewrite app_nil_r.
  - apply wp_bind. eapply wp_mono; [by eapply (Hstep pre x l)|].
    intros [b'|e] s'; simpl; [|done]. intros HI'.
    replace (pre ++ x :: l) with ((pre ++ [x]) ++ l) by by rewrite <-(assoc_L (++)).
    apply IH; [done|]. intros done y rest b0 s0 Heq. apply (Hstep done y rest).
    by rewrite <-Heq, <-(assoc_L (++)).
Qed.

Lemma wp_foldM {A B} (I : B → S → Prop) (E : error → S → Prop)
    (f : B → A → GoM S B) b l s :
  I b s →
  (∀ b x s, x ∈ l → I b s → wp (f b x) (post I E) s) →
  wp (foldM f b l) (post I E) s.
Proof.
  intros HI Hstep. apply (wp_foldM_prefix (λ _, I) E f b [] l); [done|].
  intros done x rest b0 s0 Heq HI0. apply Hstep; [|done]. simpl in Heq.
  rewrite Heq. set_solver.
Qed.
End wp_rules.

Create HintDb go.
#[export] Hint Resolve wp_ret wp_fail wp_gets wp_modify : go.

(** Steps through the monadic structure of a program. *)
Ltac wp_step :=
  match goal with
  | |- wp (_ ≫= _) _ _ => apply wp_bind
  | |- wp (mret _) _ _ => apply wp_ret; cbn [post]
  | |- wp (fail _) _ _ => apply wp_fail; cbn [post]
  | |- wp (gets _) _ _ => apply wp_gets; cbn [post]
  | |- wp (modify _) _ _ => apply wp_modify; cbn [post]
  | |- wp (catch _) _ _ => apply wp_catch
  | |- post _ _ (Ok _) _ => cbn [post]
  | |- post _ _ (Err _) _ => cbn [post]
  end.
Ltac wp_steps := repeat wp_step.

(** Uses a specification [H : wp m Q s] for the goal [wp m Q' s]. *)
Tactic Notation "wp_use" uconstr(H) := eapply wp_mono; [eapply H|].

(** * Generic lemmas *)

Lemma tc_mono {A} (R R' : relation A) x y :
  (∀ a b, R a b → R' a b) → tc R x y → tc R' x y.
Proof. intros H. induction 1; [by apply tc_once; auto|by eapply tc_l; eauto]. Qed.

Lemma forallb_false {A} (p : A → bool) l :
  forallb p l = false → ∃ x, x ∈ l ∧ p x = false.
Proof.
  induction l as [|x l IH]; simpl; [done|]. destruct (p x) eqn:E; simpl.
  - intros (y & ? & ?)%IH. exists y. by split; [constructor|].
  - intros _. exists x. by split; [constructor|].
Qed.
