(* ===== verification/GoLib.v ===== *)
(** What the sources use of the Go language and its standard library:
    byte strings ([strings], [strconv], [%q]), machine integers, IEEE-754
    doubles ([math]), the FNV-1a and CRC-32 hashes, and JSON documents
    ([encoding/json]).  Everything is executable. *)

From stdpp Require Import gmap strings list pretty.
From Stdlib Require Import SpecFloat Ascii String.
From S2P Require Import Prelude.
Open Scope Z_scope.

(** * Bytes and strings *)

Definition byte_of (c : ascii) : Z := Z.of_N (N_of_ascii c).
Definition bytes_of (s : string) : list Z := byte_of <$> String.list_ascii_of_string s.
Definition string_of_bytes (l : list Z) : string :=
  String.string_of_list_ascii ((λ z, ascii_of_N (Z.to_N z)) <$> l).

Module Strings.

(** [unicode.IsSpace] on the UTF-8 encodings of one, two and three bytes. *)
Definition ws1 (a : Z) : bool := ((9 <=? a) && (a <=? 13)) || (a =? 32).
Definition ws2 (a b : Z) : bool := (a =? 194) && ((b =? 133) || (b =? 160)).
Definition ws3 (a b c : Z) : bool :=
  ((a =? 225) && (b =? 154) && (c =? 128)) ||
  ((a =? 226) && (b =? 128) &&
    (((128 <=? c) && (c <=? 138)) || (c =? 168) || (c =? 169) || (c =? 175))) ||
  ((a =? 226) && (b =? 129) && (c =? 159)) ||
  ((a =? 227) && (b =? 128) && (c =? 128)).

(** Drops white-space runes at the front; with the bytes reversed, at the back. *)
Fixpoint trim_left (w2 : Z → Z → bool) (w3 : Z → Z → Z → bool) (s : list Z) : list Z :=
  match s with
  | [] => []
  | a :: s1 =>
      if ws1 a then trim_left w2 w3 s1
      else match s1 with
           | [] => s
           | b :: s2 =>
               if w2 a b then trim_left w2 w3 s2
               else match s2 with
                    | [] => s
                    | c :: s3 => if w3 a b c then trim_left w2 w3 s3 else s
                    end
           end
  end.

(** [strings.TrimSpace] *)
Definition TrimSpace (s : string) : string :=
  let l := trim_left ws2 ws3 (bytes_of s) in
  string_of_bytes (rev (trim_left (λ b a, ws2 a b) (λ c b a, ws3 a b c) (rev l))).

(** [strings.HasPrefix], [strings.TrimPrefix] *)
Definition HasPrefix (s p : string) : bool := String.prefix p s.
Definition TrimPrefix (s p : string) : string :=
  if String.prefix p s
  then String.substring (String.length p) (String.length s - String.length p) s else s.

(** [strconv.Itoa] *)
Definition Itoa (z : Z) : string := pretty z.

(** [%q] for the ASCII range: quotes, backslashes and control characters are
    escaped; other bytes are copied. *)
Definition hex_digit (z : Z) : string :=
  string_of_bytes [if z <? 10 then 48 + z else 87 + z].
Definition quote_byte (a : Z) : string :=
  (if a =? 34 then string_of_bytes [92; 34]
   else if a =? 92 then "\\"
   else if a =? 7 then "\a" else if a =? 8 then "\b" else if a =? 12 then "\f"
   else if a =? 10 then "\n" else if a =? 13 then "\r" else if a =? 9 then "\t"
   else if a =? 11 then "\v"
   else if (a <? 32) || (a =? 127) then "\x" +:+ hex_digit (a / 16) +:+ hex_digit (a mod 16)
   else string_of_bytes [a]).
Definition dquote : string := string_of_bytes [34].
Definition Quote (s : string) : string :=
  (dquote +:+ String.concat EmptyString (quote_byte <$> bytes_of s) +:+ dquote).

Example TrimSpace_ex : TrimSpace " a b  "%string = "a b"%string.
Proof. reflexivity. Qed.
Example Quote_ex : Quote "a\b"%string = string_of_bytes [34; 97; 92; 92; 98; 34].
Proof. reflexivity. Qed.

End Strings.

(** * Machine integers *)

Definition min_int64 : Z := - 2 ^ 63.
Definition max_int64 : Z := 2 ^ 63 - 1.
Definition in_int64 (z : Z) : bool := (min_int64 <=? z) && (z <=? max_int64).
Definition wrap64 (z : Z) : Z := (z + 2 ^ 63) mod 2 ^ 64 - 2 ^ 63.
Definition wrap_u32 (z : Z) : Z := z mod 2 ^ 32.

(** * IEEE-754 doubles *)

Abbreviation float64 := spec_float.

Module F64.

Definition mul (a b : float64) : float64 := SFmul 53 1024 a b.
Definition add (a b : float64) : float64 := SFadd 53 1024 a b.
Definition div (a b : float64) : float64 := SFdiv 53 1024 a b.
Definition of_Z (z : Z) : float64 := binary_normalize 53 1024 z 0 false.
Definition ltb (a b : float64) : bool := SFltb a b.
Definition leb (a b : float64) : bool := SFleb a b.
Definition zero : float64 := S754_zero false.
Definition one : float64 := of_Z 1.
Definition two : float64 := of_Z 2.
Definition half : float64 := binary_normalize 53 1024 1 (-1) false.
(** The doubles nearest to 0.8 and 0.4. *)
Definition c0_8 : float64 := S754_finite false 7205759403792794 (-53).
Definition c0_4 : float64 := S754_finite false 7205759403792794 (-54).

(** The integer part, towards zero. *)
Definition trunc (f : float64) : option Z :=
  match f with
  | S754_zero _ => Some 0
  | S754_infinity _ | S754_nan => None
  | S754_finite s m e =>
      let v := if 0 <=? e then Z.pos m * 2 ^ e else Z.pos m / 2 ^ (- e) in
      Some (if s then - v else v)
  end.

(** [int64(f)]; out of range the conversion is implementation-defined, here
    the value produced on amd64. *)
Definition to_int64 (f : float64) : Z :=
  match trunc f with
  | Some z => if in_int64 z then z else min_int64
  | None => min_int64
  end.

(** [math.Pow(x, float64(n))] for an integral exponent [n]: the loop of Go's
    implementation on the mantissa and exponent given by [math.Frexp], one
    iteration per bit of [n]. *)
Fixpoint pow_loop (fuel : nat) (i : Z) (x1 : float64) (xe : Z) (a1 : float64) (ae : Z)
    : float64 * Z :=
  match fuel with
  | O => (a1, ae)
  | S fuel =>
      if i =? 0 then (a1, ae)
      else if (xe <? - 2 ^ 12) || (2 ^ 12 <? xe) then (a1, ae + xe)
      else
        let '(a1, ae) := if Z.odd i then (mul a1 x1, ae + xe) else (a1, ae) in
        let x2 := mul x1 x1 in
        let xe2 := 2 * xe in
        if ltb x2 half then pow_loop fuel (Z.div2 i) (add x2 x2) (xe2 - 1) a1 ae
        else pow_loop fuel (Z.div2 i) x2 xe2 a1 ae
  end.

Definition is_zero (f : float64) : bool := match f with S754_zero _ => true | _ => false end.

Definition Pow (x : float64) (n : Z) : float64 :=
  if (n =? 0) || SFeqb x one then one
  else if n =? 1 then x
  else match x with
  | S754_nan => S754_nan
  | S754_zero s =>
      if n <? 0 then S754_infinity (s && Z.odd n) else S754_zero (s && Z.odd n)
  | S754_infinity s =>
      if n <? 0 then S754_zero (s && Z.odd n) else S754_infinity (s && Z.odd n)
  | S754_finite _ _ _ =>
      let '(x1, xe) := SFfrexp 53 1024 x in
      let '(a1, ae) := pow_loop 64 (Z.abs n) x1 xe one 0 in
      if n <? 0 then SFldexp 53 1024 (div one a1) (- ae) else SFldexp 53 1024 a1 ae
  end.

Example Pow_ex1 : Pow two 10 = of_Z 1024.
Proof. reflexivity. Qed.
Example Pow_ex2 : Pow (of_Z 3) 5 = of_Z 243.
Proof. reflexivity. Qed.
Example Pow_ex3 : Pow two 5000 = S754_infinity false.
Proof. vm_compute. reflexivity. Qed.

End F64.

(** * Hashes *)

(** [hash/fnv] 32-bit FNV-1a *)
Definition fnv32a (bs : list Z) : Z :=
  foldl (λ h b, wrap_u32 (Z.lxor h b * 16777619)) 2166136261 bs.

(** [crc32.ChecksumIEEE]: the reflected polynomial 0xEDB88320, bit by bit. *)
Fixpoint crc_bits (n : nat) (c : Z) : Z :=
  match n with
  | O => c
  | S n => crc_bits n (if Z.odd c then Z.lxor (Z.shiftr c 1) 3988292384 else Z.shiftr c 1)
  end.
Definition crc32_update (c b : Z) : Z :=
  Z.lxor (crc_bits 8 (Z.land (Z.lxor c b) 255)) (Z.shiftr c 8).
Definition ChecksumIEEE (s : string) : Z :=
  Z.lxor (foldl crc32_update 4294967295 (bytes_of s)) 4294967295.

Example crc_check : ChecksumIEEE "123456789"%string = 3421780262 (* 0xCBF43926 *).
Proof. vm_compute. reflexivity. Qed.
Example fnv_check : fnv32a (bytes_of "foobar"%string) = 3214735720 (* 0xBF9CF968 *).
Proof. vm_compute. reflexivity. Qed.
