(* ===== verification/Json.v ===== *)
(** JSON documents and the parts of [encoding/json] the sources rely on.

    A byte slice holding a valid JSON text is represented by the document it
    denotes ([Text]); any other byte slice is [Malformed].  [json.RawMessage]
    and [[]byte] values can be nil, hence the [option]. *)

From stdpp Require Import gmap strings list sorting.
From Stdlib Require Import SpecFloat String.
From S2P Require Import Prelude GoLib.
Open Scope Z_scope.

#[warnings="-register-all"]
Inductive json :=
| JNull
| JBool (b : bool)
| JInt (z : Z)            (* a number literal without fraction or exponent *)
| JFloat (f : float64)    (* any other number literal, as its nearest double *)
| JStr (s : string)
| JArr (l : list json)
| JObj (kvs : list (string * json)).

Inductive bytes :=
| Text (j : json)
| Malformed (s : string).

Abbreviation RawMessage := (option bytes).

Definition empty_object : RawMessage := Some (Text (JObj [])).

(** [len(r) == 0] *)
Definition raw_empty (r : RawMessage) : bool :=
  match r with
  | None => true
  | Some (Malformed s) => bool_decide (s = EmptyString)
  | Some (Text _) => false
  end.

(** * Marshalling *)

(** [RawMessage.MarshalJSON]: nil encodes as null, anything else must be valid. *)
Definition marshal_raw (r : RawMessage) : option json :=
  match r with
  | None => Some JNull
  | Some (Text j) => Some j
  | Some (Malformed _) => None
  end.

(** A Go map is encoded with its keys in byte order. *)
Definition key_le (a b : string * json) : Prop := String.leb a.1 b.1 = true.
#[export] Instance key_le_dec a b : Decision (key_le a b).
Proof. unfold key_le. apply _. Defined.
Definition marshal_map (kvs : list (string * json)) : json := JObj (merge_sort key_le kvs).

(** [mustJSON(map[string]any{...})] over values that always encode. *)
Definition mustJSON (kvs : list (string * json)) : RawMessage := Some (Text (marshal_map kvs)).

(** [json.Marshal] of a finite double; NaN and infinities are not encodable. *)
Definition marshal_float (f : float64) : option json :=
  match f with
  | S754_zero _ | S754_finite _ _ _ => Some (JFloat f)
  | S754_infinity _ | S754_nan => None
  end.

(** * Unmarshalling

    A decoder updates the current value and reports whether a type error was
    recorded; as in [encoding/json], decoding goes on after a type error and
    the caller sees the error at the end. *)

(** Case folding of object keys (ASCII, plus the two non-ASCII runes that fold
    to an ASCII letter). *)
Fixpoint fold_bytes (s : list Z) : list Z :=
  match s with
  | 197 :: ((191 :: s2) as s1) => 115 :: fold_bytes s2
  | 226 :: ((132 :: ((170 :: s3) as s2)) as s1) => 107 :: fold_bytes s3
  | a :: s1 => (if (65 <=? a) && (a <=? 90) then a + 32 else a) :: fold_bytes s1
  | [] => []
  end.
Definition key_matches (field key : string) : bool :=
  bool_decide (field = key) || bool_decide (fold_bytes (bytes_of key) = fold_bytes (bytes_of field)).

Definition dec_string (cur : string) (j : json) : string * bool :=
  match j with JStr s => (s, false) | JNull => (cur, false) | _ => (cur, true) end.

Definition dec_int (cur : Z) (j : json) : Z * bool :=
  match j with
  | JInt z => if in_int64 z then (z, false) else (cur, true)
  | JNull => (cur, false)
  | _ => (cur, true)
  end.

Definition dec_float (cur : float64) (j : json) : float64 * bool :=
  match j with
  | JFloat f => (f, false)
  | JInt z => match F64.of_Z z with
              | S754_infinity _ => (cur, true)
              | f => (f, false)
              end
  | JNull => (cur, false)
  | _ => (cur, true)
  end.

Definition dec_raw (_ : RawMessage) (j : json) : RawMessage * bool := (Some (Text j), false).

(** Slices: null gives nil, an array is decoded element by element from the
    zero value. *)
Definition dec_slice {A} (zero : A) (dec : A → json → A * bool)
    (cur : option (list A)) (j : json) : option (list A) * bool :=
  match j with
  | JNull => (None, false)
  | JArr l =>
      let rs := dec zero <$> l in
      (Some rs.*1, existsb snd rs)
  | _ => (cur, true)
  end.

(** Structs: the members are decoded in document order by [field]; unknown
    keys are ignored; null leaves the struct unchanged. *)
Definition dec_struct {A} (field : string → json → A → A * bool) (cur : A) (j : json) : A * bool :=
  match j with
  | JNull => (cur, false)
  | JObj kvs =>
      foldl (λ acc kv, let '(a, e) := field kv.1 kv.2 acc.1 in (a, acc.2 || e)) (cur, false) kvs
  | _ => (cur, true)
  end.
