(* ===== verification/Types.v ===== *)
(** internal/store/types.go and internal/store/store.go: the statuses, the row
    types, the [Queries]/[Store] interfaces; and the run-time world the
    operations act on (tables, clock, uuid and iteration-order sources). *)

From stdpp Require Import gmap strings list.
From S2P Require Import Prelude GoLib Json.
Open Scope Z_scope.

(** * Statuses *)

Inductive RunStatus := RunPending | RunRunning | RunCompleted | RunFailed | RunCancelled.

Inductive StepStatus :=
| StepPending | StepReady | StepQueued | StepRunning | StepRetryBackoff
| StepCompleted | StepFailed | StepSkipped | StepCancelled | StepWaiting.

Inductive AttemptStatus :=
| AttemptQueued | AttemptLeased | AttemptSucceeded | AttemptFailed
| AttemptExpired | AttemptAbandoned.

Inductive TimerKind := TimerRetryBackoff | TimerStepTimeout | TimerUser.
Inductive TimerStatus := TimerPending | TimerFired | TimerCancelled.
Inductive OutboxStatus := OutboxPending | OutboxPublished.
Inductive ClaimResult := ClaimOK | ClaimAlreadyClaimed | ClaimNotFound.

#[export] Instance RunStatus_eq_dec : EqDecision RunStatus.
Proof. solve_decision. Defined.
#[export] Instance StepStatus_eq_dec : EqDecision StepStatus.
Proof. solve_decision. Defined.
#[export] Instance AttemptStatus_eq_dec : EqDecision AttemptStatus.
Proof. solve_decision. Defined.
#[export] Instance TimerKind_eq_dec : EqDecision TimerKind.
Proof. solve_decision. Defined.
#[export] Instance TimerStatus_eq_dec : EqDecision TimerStatus.
Proof. solve_decision. Defined.
#[export] Instance OutboxStatus_eq_dec : EqDecision OutboxStatus.
Proof. solve_decision. Defined.
#[export] Instance ClaimResult_eq_dec : EqDecision ClaimResult.
Proof. solve_decision. Defined.

Definition StepTerminal (s : StepStatus) : bool :=
  match s with
  | StepCompleted | StepFailed | StepSkipped | StepCancelled => true
  | _ => false
  end.

Definition RunTerminal (s : RunStatus) : bool :=
  match s with
  | RunCompleted | RunFailed | RunCancelled => true
  | _ => false
  end.

(** * Rows *)

(** [uuid.UUID]: the 16 bytes read as a big-endian number. *)
Abbreviation uuid := N.
(** [time.Time]: nanoseconds since a fixed origin; [time.Duration] likewise. *)
Abbreviation time := Z.

Module WorkflowDefinition.
Record t := mk {
  ID : uuid; Name : string; Version : Z; DAG : RawMessage; CreatedAt : time
}.
End WorkflowDefinition.

Module WorkflowRun.
Record t := mk {
  ID : uuid; DefinitionID : uuid; Name : string; Version : Z; Status : RunStatus;
  ShardID : Z; Input : RawMessage; Output : RawMessage; Context : RawMessage;
  Error : option string; HistorySeq : Z; CreatedAt : time;
  StartedAt : option time; CompletedAt : option time
}.
End WorkflowRun.

Module Step.
Record t := mk {
  ID : uuid; WorkflowRunID : uuid; StepName : string; TaskType : string;
  DependsOn : list string; Status : StepStatus; AttemptCount : Z; MaxAttempts : Z;
  Input : RawMessage; Output : RawMessage; Error : option string;
  InitialBackoffMS : Z; BackoffMultiplier : float64; MaxBackoffMS : Z;
  TimeoutSeconds : Z; CreatedAt : time; StartedAt : option time; CompletedAt : option time
}.
End Step.

Module NewStep.
Record t := mk {
  StepName : string; TaskType : string; DependsOn : list string; Input : RawMessage;
  MaxAttempts : Z; InitialBackoffMS : Z; BackoffMultiplier : float64;
  MaxBackoffMS : Z; TimeoutSeconds : Z
}.
End NewStep.

Module TaskAttempt.
Record t := mk {
  ID : uuid; StepID : uuid; WorkflowRunID : uuid; AttemptNumber : Z;
  IdempotencyKey : uuid; Status : AttemptStatus; QueueName : string;
  LeaseOwner : option string; LeaseExpiresAt : option time; Result : RawMessage;
  Error : option string; QueuedAt : time; StartedAt : option time; CompletedAt : option time
}.
End TaskAttempt.

(** [TaskPayload]: what is marshalled into the outbox row. *)
Module TaskPayload.
Record t := mk {
  TaskAttemptID : uuid; StepID : uuid; WorkflowRunID : uuid; StepName : string;
  TaskType : string; Input : json; AttemptNumber : Z; IdempotencyKey : uuid;
  TimeoutSeconds : Z
}.
End TaskPayload.

(** The payload column holds the marshalled [TaskPayload]; it is kept as the
    record it encodes. *)
Module NewOutboxMessage.
Record t := mk {
  AggregateType : string; AggregateID : uuid; ShardID : Z; StreamName : string;
  Payload : TaskPayload.t
}.
End NewOutboxMessage.

Module OutboxMessage.
Record t := mk {
  ID : Z; AggregateType : string; AggregateID : uuid; ShardID : Z; StreamName : string;
  Payload : TaskPayload.t; Status : OutboxStatus; PublishAttempts : Z;
  CreatedAt : time; PublishedAt : option time
}.
End OutboxMessage.

Module Timer.
Record t := mk {
  ID : uuid; WorkflowRunID : uuid; StepID : option uuid; ShardID : Z; Kind : TimerKind;
  Status : TimerStatus; Payload : RawMessage; FireAt : time; CreatedAt : time;
  FiredAt : option time
}.
End Timer.

Module NewTimer.
Record t := mk {
  WorkflowRunID : uuid; StepID : option uuid; ShardID : Z; Kind : TimerKind;
  Payload : RawMessage; FireAt : time
}.
End NewTimer.

Module Signal.
Record t := mk {
  ID : uuid; WorkflowRunID : uuid; SignalName : string; Payload : RawMessage;
  Processed : bool; ReceivedAt : time
}.
End Signal.

Module HistoryEvent.
Record t := mk {
  ID : Z; WorkflowRunID : uuid; Seq : Z; EventType : string; Payload : RawMessage;
  CreatedAt : time
}.
End HistoryEvent.

Module RunFilter.
Record t := mk { Status : option RunStatus; Name : option string; Limit : Z; Offset : Z }.
End RunFilter.

(** * The run-time world *)

(** The tables.  The fields are those of [memory.Store] (internal/store/memory);
    a Postgres database with the schema of migrations/0001_init.sql has the
    same tables. *)
Record Tables := mkTables {
  definitions : gmap uuid WorkflowDefinition.t;
  runs : gmap uuid WorkflowRun.t;
  steps : gmap uuid Step.t;
  attempts : gmap uuid TaskAttempt.t;
  outbox : gmap Z OutboxMessage.t;
  timers : gmap uuid Timer.t;
  signals : gmap uuid Signal.t;
  history : gmap uuid (list HistoryEvent.t);
  nextOutboxID : Z
}.

Definition set_definitions f (d : Tables) := mkTables (f (definitions d)) (runs d) (steps d)
  (attempts d) (outbox d) (timers d) (signals d) (history d) (nextOutboxID d).
Definition set_runs f (d : Tables) := mkTables (definitions d) (f (runs d)) (steps d)
  (attempts d) (outbox d) (timers d) (signals d) (history d) (nextOutboxID d).
Definition set_steps f (d : Tables) := mkTables (definitions d) (runs d) (f (steps d))
  (attempts d) (outbox d) (timers d) (signals d) (history d) (nextOutboxID d).
Definition set_attempts f (d : Tables) := mkTables (definitions d) (runs d) (steps d)
  (f (attempts d)) (outbox d) (timers d) (signals d) (history d) (nextOutboxID d).
Definition set_outbox f n (d : Tables) := mkTables (definitions d) (runs d) (steps d)
  (attempts d) (f (outbox d)) (timers d) (signals d) (history d) n.
Definition set_timers f (d : Tables) := mkTables (definitions d) (runs d) (steps d)
  (attempts d) (outbox d) (f (timers d)) (signals d) (history d) (nextOutboxID d).
Definition set_signals f (d : Tables) := mkTables (definitions d) (runs d) (steps d)
  (attempts d) (outbox d) (timers d) (f (signals d)) (history d) (nextOutboxID d).
Definition set_history f (d : Tables) := mkTables (definitions d) (runs d) (steps d)
  (attempts d) (outbox d) (timers d) (signals d) (f (history d)) (nextOutboxID d).

(** The environment: every call that is not a function of the tables.  [n] is
    the number of such calls made before.
    - [uuid_New], [uuid_String], [uuid_Parse]: github.com/google/uuid;
    - [time_Now], [rand_Float64]: the clock and math/rand;
    - [range_order]: the order in which one [range] statement visits a map,
      which Go leaves unspecified: each entry exactly once, in any order. *)
Class Env := {
  uuid_New : nat → uuid;
  uuid_String : uuid → string;
  uuid_Parse : string → option uuid;
  time_Now : nat → time;
  rand_Float64 : nat → float64;
  range_order : ∀ {A : Type}, nat → list A → list A;
  range_order_perm : ∀ {A : Type} n (l : list A), range_order n l ≡ₚ l
}.

Record World := mkWorld { db : Tables; tick : nat }.

Section runtime.
Context `{Env}.

Definition tick_of {A} (f : nat → A) : GoM World A :=
  λ w, (Ok (f (tick w)), mkWorld (db w) (S (tick w))).

Definition now : GoM World time := tick_of time_Now.
Definition new_uuid : GoM World uuid := tick_of uuid_New.
Definition rand_float : GoM World float64 := tick_of rand_Float64.
(** [for k, v := range m] *)
Definition range_map {A} (entries : list A) : GoM World (list A) :=
  tick_of (λ n, range_order n entries).

Definition set_db (f : Tables → Tables) : GoM World unit :=
  modify (λ w, mkWorld (f (db w)) (tick w)).
End runtime.

(** * The persistence interface (store.go) *)

Class Queries := {
  CreateWorkflowDefinition (name : string) (version : Z) (dag : RawMessage)
    : GoM World WorkflowDefinition.t;
  GetWorkflowDefinition (name : string) (version : Z) : GoM World WorkflowDefinition.t;
  GetLatestWorkflowDefinition (name : string) : GoM World WorkflowDefinition.t;
  ListWorkflowDefinitions : GoM World (list WorkflowDefinition.t);

  CreateWorkflowRun (id definitionID : uuid) (name : string) (version shardID : Z)
    (input : RawMessage) : GoM World WorkflowRun.t;
  GetWorkflowRun (id : uuid) : GoM World WorkflowRun.t;
  ListWorkflowRuns (f : RunFilter.t) : GoM World (list WorkflowRun.t);
  ListRunningRunsForShards (shardIDs : option (list Z)) : GoM World (list WorkflowRun.t);
  UpdateWorkflowRunStatus (id : uuid) (expected : list RunStatus) (next : RunStatus)
    (output : RawMessage) (errMsg : option string) : GoM World bool;

  CreateSteps (runID : uuid) (steps : list NewStep.t) : GoM World (list Step.t);
  GetSteps (runID : uuid) : GoM World (list Step.t);
  GetStep (id : uuid) : GoM World Step.t;
  UpdateStepStatus (id : uuid) (expected : list StepStatus) (next : StepStatus)
    (output : RawMessage) (errMsg : option string) (bumpAttempt : bool) : GoM World bool;

  CreateTaskAttempt (stepID runID : uuid) (attemptNumber : Z) (queueName : string)
    : GoM World TaskAttempt.t;
  ClaimTaskAttempt (attemptID idempotencyKey : uuid) (workerID : string) (leaseFor : Z)
    : GoM World (option TaskAttempt.t * ClaimResult);
  HeartbeatTaskAttempt (attemptID : uuid) (workerID : string) (leaseFor : Z)
    : GoM World (option time * bool);
  CompleteTaskAttempt (attemptID : uuid) (workerID : string) (success : bool)
    (result : RawMessage) (errMsg : option string) : GoM World (option TaskAttempt.t * bool);
  ReapExpiredAttempts (limit : Z) : GoM World (list TaskAttempt.t);
  GetTaskAttempt (id : uuid) : GoM World TaskAttempt.t;
  ListTaskAttemptsForStep (stepID : uuid) : GoM World (list TaskAttempt.t);

  InsertOutboxMessage (msg : NewOutboxMessage.t) : GoM World Z;
  FetchAndLockPendingOutbox (shardIDs : option (list Z)) (limit : Z)
    : GoM World (list OutboxMessage.t);
  MarkOutboxPublished (id : Z) : GoM World unit;

  InsertTimer (t : NewTimer.t) : GoM World Timer.t;
  ListDueTimers (shardIDs : option (list Z)) (limit : Z) : GoM World (list Timer.t);
  FireTimerCAS (timerID : uuid) : GoM World (option Timer.t * bool);
  CancelTimersForRun (runID : uuid) : GoM World unit;

  InsertSignal (runID : uuid) (name : string) (payload : RawMessage) : GoM World Signal.t;
  ListUnprocessedSignals (runID : uuid) : GoM World (list Signal.t);
  MarkSignalProcessed (id : uuid) : GoM World bool;

  AppendHistory (runID : uuid) (eventType : string) (payload : RawMessage)
    : GoM World HistoryEvent.t;
  ListHistory (runID : uuid) : GoM World (list HistoryEvent.t)
}.

(** [Store]: [Queries] plus transactions. *)
Class Store := {
  store_queries :: Queries;
  WithTx {A : Type} (fn : GoM World A) : GoM World A
}.
