(* ===== verification/MemStore.v ===== *)
(** internal/store/memory: the in-process implementation of [store.Store].

    Every method of [txQueries] is one definition; [memory_queries] and
    [memory_store] bundle them as instances of the interfaces.  The pool-level
    [Store] methods of the source take the mutex and call the [txQueries]
    method of the same name, so they are the same functions; one application of
    a definition is one critical section.  Rows are stored by pointer and
    updated in place, which is an [insert] at the row's key. *)

From stdpp Require Import gmap strings list sorting.
From S2P Require Import Prelude GoLib Json Types.
Open Scope Z_scope.

Module Memory.
Section memory.
Context `{Env}.

(** * Helpers *)

Definition New : Tables := mkTables ∅ ∅ ∅ ∅ ∅ ∅ ∅ ∅ 0.

Fixpoint statusIn (s : RunStatus) (list : list RunStatus) : bool :=
  match list with
  | [] => false
  | x :: list' => if decide (x = s) then true else statusIn s list'
  end.

Fixpoint stepStatusIn (s : StepStatus) (list : list StepStatus) : bool :=
  match list with
  | [] => false
  | x :: list' => if decide (x = s) then true else stepStatusIn s list'
  end.

(** [append(json.RawMessage{}, b...)]: a fresh non-nil slice. *)
Definition copy_bytes (b : RawMessage) : RawMessage :=
  match b with None => Some (Malformed "") | Some _ => b end.

(** [shardIDs != nil && !set[shard]] negated. *)
Definition shard_selected (shardIDs : option (list Z)) (shard : Z) : bool :=
  match shardIDs with
  | None => true
  | Some l => bool_decide (shard ∈ l)
  end.

(** The bounded collection loops: stop once [limit] rows were appended. *)
Fixpoint collect {A} (limit : Z) (keep : A → bool) (l out : list A) : list A :=
  match l with
  | [] => out
  | x :: l' =>
      if limit <=? Z.of_nat (length out) then out
      else collect limit keep l' (if keep x then out ++ [x] else out)
  end.

Definition by_time {A} (f : A → time) (a b : A) : Prop := f a ≤ f b.
#[export] Instance by_time_dec {A} (f : A → time) a b : Decision (by_time f a b).
Proof. unfold by_time. apply _. Defined.

Definition range_values {K V} `{Countable K} (m : Tables → gmap K V) : GoM World (list V) :=
  d ← gets db;
  range_map (map_to_list (m d)).*2.

(** * Definitions *)

Definition CreateWorkflowDefinition (name : string) (version : Z) (dag : RawMessage)
    : GoM World WorkflowDefinition.t :=
  existing ← range_values definitions;
  if existsb (λ d, bool_decide (WorkflowDefinition.Name d = name) &&
                   (WorkflowDefinition.Version d =? version)) existing
  then fail ErrConflict
  else
    id ← new_uuid;
    t ← now;
    let d := WorkflowDefinition.mk id name version (copy_bytes dag) t in
    _ ← set_db (set_definitions (insert id d));
    mret d.

Definition GetWorkflowDefinition (name : string) (version : Z) : GoM World WorkflowDefinition.t :=
  ds ← range_values definitions;
  match find (λ d, bool_decide (WorkflowDefinition.Name d = name) &&
                   (WorkflowDefinition.Version d =? version)) ds with
  | Some d => mret d
  | None => fail ErrNotFound
  end.

Definition latest (name : string) (best : option WorkflowDefinition.t)
    (d : WorkflowDefinition.t) : option WorkflowDefinition.t :=
  if bool_decide (WorkflowDefinition.Name d = name) &&
     match best with
     | None => true
     | Some b => WorkflowDefinition.Version b <? WorkflowDefinition.Version d
     end
  then Some d else best.

Definition GetLatestWorkflowDefinition (name : string) : GoM World WorkflowDefinition.t :=
  ds ← range_values definitions;
  match foldl (latest name) None ds with
  | None => fail ErrNotFound
  | Some best => mret best
  end.

Definition ListWorkflowDefinitions : GoM World (list WorkflowDefinition.t) :=
  ds ← range_values definitions;
  mret (merge_sort (by_time WorkflowDefinition.CreatedAt) ds).

(** * Runs *)

Definition CreateWorkflowRun (id definitionID : uuid) (name : string) (version shardID : Z)
    (input : RawMessage) : GoM World WorkflowRun.t :=
  t ← now;
  let r := WorkflowRun.mk id definitionID name version RunPending shardID (copy_bytes input)
             None empty_object None 0 t None None in
  _ ← set_db (set_runs (insert id r));
  mret r.

Definition GetWorkflowRun (id : uuid) : GoM World WorkflowRun.t :=
  d ← gets db;
  match runs d !! id with
  | None => fail ErrNotFound
  | Some r => mret r
  end.

Definition run_matches (f : RunFilter.t) (r : WorkflowRun.t) : bool :=
  match RunFilter.Status f with
  | Some s => bool_decide (WorkflowRun.Status r = s) | None => true
  end &&
  match RunFilter.Name f with
  | Some n => bool_decide (WorkflowRun.Name r = n) | None => true
  end.

Definition ListWorkflowRuns (f : RunFilter.t) : GoM World (list WorkflowRun.t) :=
  rs ← range_values runs;
  let out := merge_sort (by_time (λ r, - WorkflowRun.CreatedAt r))
               (List.filter (run_matches f) rs) in
  let off := RunFilter.Offset f in
  if (0 <? off) && (Z.of_nat (length out) <=? off) then mret []
  else
    let out := if 0 <? off then drop (Z.to_nat off) out else out in
    mret (if (0 <? RunFilter.Limit f) && (RunFilter.Limit f <? Z.of_nat (length out))
          then take (Z.to_nat (RunFilter.Limit f)) out else out).

Definition ListRunningRunsForShards (shardIDs : option (list Z))
    : GoM World (list WorkflowRun.t) :=
  rs ← range_values runs;
  mret (List.filter (λ r,
    (bool_decide (WorkflowRun.Status r = RunPending) ||
     bool_decide (WorkflowRun.Status r = RunRunning)) &&
    shard_selected shardIDs (WorkflowRun.ShardID r)) rs).

(** The row after a successful [UpdateWorkflowRunStatus] at time [n]. *)
Definition run_updated (r : WorkflowRun.t) (next : RunStatus) (output : RawMessage)
    (errMsg : option string) (n : time) : WorkflowRun.t :=
  WorkflowRun.mk (WorkflowRun.ID r) (WorkflowRun.DefinitionID r) (WorkflowRun.Name r)
    (WorkflowRun.Version r) next (WorkflowRun.ShardID r) (WorkflowRun.Input r)
    (match output with Some _ => output | None => WorkflowRun.Output r end)
    (WorkflowRun.Context r)
    (match errMsg with Some _ => errMsg | None => WorkflowRun.Error r end)
    (WorkflowRun.HistorySeq r) (WorkflowRun.CreatedAt r)
    (if decide (next = RunRunning)
     then match WorkflowRun.StartedAt r with None => Some n | Some x => Some x end
     else WorkflowRun.StartedAt r)
    (if RunTerminal next then Some n else WorkflowRun.CompletedAt r).

Definition UpdateWorkflowRunStatus (id : uuid) (expected : list RunStatus) (next : RunStatus)
    (output : RawMessage) (errMsg : option string) : GoM World bool :=
  d ← gets db;
  match runs d !! id with
  | None => mret false
  | Some r =>
      if statusIn (WorkflowRun.Status r) expected then
        n ← now;
        _ ← set_db (set_runs (insert id (run_updated r next output errMsg n)));
        mret true
      else mret false
  end.

(** * Steps *)

Definition CreateStep (runID : uuid) (out : list Step.t) (ns : NewStep.t)
    : GoM World (list Step.t) :=
  let input := match NewStep.Input ns with None => empty_object | i => i end in
  id ← new_uuid;
  t ← now;
  let st := Step.mk id runID (NewStep.StepName ns) (NewStep.TaskType ns)
    (NewStep.DependsOn ns) StepPending 0 (NewStep.MaxAttempts ns) (copy_bytes input)
    None None (NewStep.InitialBackoffMS ns) (NewStep.BackoffMultiplier ns)
    (NewStep.MaxBackoffMS ns) (NewStep.TimeoutSeconds ns) t None None in
  _ ← set_db (set_steps (insert id st));
  mret (out ++ [st]).

Definition CreateSteps (runID : uuid) (nss : list NewStep.t) : GoM World (list Step.t) :=
  foldM (CreateStep runID) [] nss.

Definition GetSteps (runID : uuid) : GoM World (list Step.t) :=
  l ← range_values steps;
  mret (merge_sort (by_time Step.CreatedAt)
    (List.filter (λ st, Step.WorkflowRunID st =? runID)%N l)).

Definition GetStep (id : uuid) : GoM World Step.t :=
  d ← gets db;
  match steps d !! id with
  | None => fail ErrNotFound
  | Some st => mret st
  end.

(** The row after a successful [UpdateStepStatus] at time [n]. *)
Definition step_updated (st : Step.t) (next : StepStatus) (output : RawMessage)
    (errMsg : option string) (bumpAttempt : bool) (n : time) : Step.t :=
  Step.mk (Step.ID st) (Step.WorkflowRunID st) (Step.StepName st) (Step.TaskType st)
    (Step.DependsOn st) next
    (if bumpAttempt then Step.AttemptCount st + 1 else Step.AttemptCount st)
    (Step.MaxAttempts st) (Step.Input st)
    (match output with Some _ => output | None => Step.Output st end)
    (match errMsg with Some _ => errMsg | None => Step.Error st end)
    (Step.InitialBackoffMS st) (Step.BackoffMultiplier st) (Step.MaxBackoffMS st)
    (Step.TimeoutSeconds st) (Step.CreatedAt st)
    (if decide (next = StepQueued ∨ next = StepRunning)
     then match Step.StartedAt st with None => Some n | Some x => Some x end
     else Step.StartedAt st)
    (if StepTerminal next then Some n else Step.CompletedAt st).

Definition UpdateStepStatus (id : uuid) (expected : list StepStatus) (next : StepStatus)
    (output : RawMessage) (errMsg : option string) (bumpAttempt : bool) : GoM World bool :=
  d ← gets db;
  match steps d !! id with
  | None => mret false
  | Some st =>
      if stepStatusIn (Step.Status st) expected then
        n ← now;
        _ ← set_db (set_steps (insert id (step_updated st next output errMsg bumpAttempt n)));
        mret true
      else mret false
  end.

(** * Task attempts *)

Definition CreateTaskAttempt (stepID runID : uuid) (attemptNumber : Z) (queueName : string)
    : GoM World TaskAttempt.t :=
  id ← new_uuid;
  key ← new_uuid;
  t ← now;
  let a := TaskAttempt.mk id stepID runID attemptNumber key AttemptQueued queueName
             None None None None t None None in
  _ ← set_db (set_attempts (insert id a));
  mret a.

Definition attempt_leased (a : TaskAttempt.t) (workerID : string) (expires started : time)
    : TaskAttempt.t :=
  TaskAttempt.mk (TaskAttempt.ID a) (TaskAttempt.StepID a) (TaskAttempt.WorkflowRunID a)
    (TaskAttempt.AttemptNumber a) (TaskAttempt.IdempotencyKey a) AttemptLeased
    (TaskAttempt.QueueName a) (Some workerID) (Some expires) (TaskAttempt.Result a)
    (TaskAttempt.Error a) (TaskAttempt.QueuedAt a) (Some started) (TaskAttempt.CompletedAt a).

Definition ClaimTaskAttempt (attemptID idempotencyKey : uuid) (workerID : string)
    (leaseFor : Z) : GoM World (option TaskAttempt.t * ClaimResult) :=
  d ← gets db;
  match attempts d !! attemptID with
  | None => mret (None, ClaimNotFound)
  | Some a =>
      if negb (bool_decide (TaskAttempt.Status a = AttemptQueued)) ||
         negb (TaskAttempt.IdempotencyKey a =? idempotencyKey)%N
      then mret (Some a, ClaimAlreadyClaimed)
      else
        n1 ← now;
        n2 ← now;
        let a' := attempt_leased a workerID (n1 + leaseFor) n2 in
        _ ← set_db (set_attempts (insert attemptID a'));
        mret (Some a', ClaimOK)
  end.

(** [a.Status == AttemptLeased && a.LeaseOwner != nil && *a.LeaseOwner == workerID] *)
Definition leased_by (a : TaskAttempt.t) (workerID : string) : bool :=
  bool_decide (TaskAttempt.Status a = AttemptLeased) &&
  match TaskAttempt.LeaseOwner a with
  | None => false
  | Some o => bool_decide (o = workerID)
  end.

Definition attempt_extended (a : TaskAttempt.t) (expires : time) : TaskAttempt.t :=
  TaskAttempt.mk (TaskAttempt.ID a) (TaskAttempt.StepID a) (TaskAttempt.WorkflowRunID a)
    (TaskAttempt.AttemptNumber a) (TaskAttempt.IdempotencyKey a) (TaskAttempt.Status a)
    (TaskAttempt.QueueName a) (TaskAttempt.LeaseOwner a) (Some expires) (TaskAttempt.Result a)
    (TaskAttempt.Error a) (TaskAttempt.QueuedAt a) (TaskAttempt.StartedAt a)
    (TaskAttempt.CompletedAt a).

Definition HeartbeatTaskAttempt (attemptID : uuid) (workerID : string) (leaseFor : Z)
    : GoM World (option time * bool) :=
  d ← gets db;
  match attempts d !! attemptID with
  | None => mret (None, false)
  | Some a =>
      if leased_by a workerID then
        n ← now;
        let exp := n + leaseFor in
        _ ← set_db (set_attempts (insert attemptID (attempt_extended a exp)));
        mret (Some exp, true)
      else mret (None, false)
  end.

Definition attempt_completed (a : TaskAttempt.t) (s : AttemptStatus) (result : RawMessage)
    (errMsg : option string) (n : time) : TaskAttempt.t :=
  TaskAttempt.mk (TaskAttempt.ID a) (TaskAttempt.StepID a) (TaskAttempt.WorkflowRunID a)
    (TaskAttempt.AttemptNumber a) (TaskAttempt.IdempotencyKey a) s
    (TaskAttempt.QueueName a) (TaskAttempt.LeaseOwner a) (TaskAttempt.LeaseExpiresAt a)
    (match result with Some _ => result | None => TaskAttempt.Result a end)
    errMsg (TaskAttempt.QueuedAt a) (TaskAttempt.StartedAt a) (Some n).

Definition CompleteTaskAttempt (attemptID : uuid) (workerID : string) (success : bool)
    (result : RawMessage) (errMsg : option string)
    : GoM World (option TaskAttempt.t * bool) :=
  d ← gets db;
  match attempts d !! attemptID with
  | None => mret (None, false)
  | Some a =>
      if leased_by a workerID then
        n ← now;
        let a' := attempt_completed a (if success then AttemptSucceeded else AttemptFailed)
                    result errMsg n in
        _ ← set_db (set_attempts (insert attemptID a'));
        mret (Some a', true)
      else mret (Some a, false)
  end.

(** [a.Status == AttemptLeased && a.LeaseExpiresAt != nil && a.LeaseExpiresAt.Before(now)] *)
Definition lease_expired (a : TaskAttempt.t) (n : time) : bool :=
  bool_decide (TaskAttempt.Status a = AttemptLeased) &&
  match TaskAttempt.LeaseExpiresAt a with None => false | Some e => e <? n end.

Fixpoint reap_loop (limit : Z) (n : time) (l : list (uuid * TaskAttempt.t))
    (m : gmap uuid TaskAttempt.t) (out : list TaskAttempt.t)
    : gmap uuid TaskAttempt.t * list TaskAttempt.t :=
  match l with
  | [] => (m, out)
  | (id, a) :: l' =>
      if limit <=? Z.of_nat (length out) then (m, out)
      else if lease_expired a n then
        let a' := attempt_completed a AttemptExpired None (Some "lease expired") n in
        reap_loop limit n l' (<[id := a']> m) (out ++ [a'])
      else reap_loop limit n l' m out
  end.

Definition ReapExpiredAttempts (limit : Z) : GoM World (list TaskAttempt.t) :=
  n ← now;
  d ← gets db;
  l ← range_map (map_to_list (attempts d));
  let '(m, out) := reap_loop limit n l (attempts d) [] in
  _ ← set_db (set_attempts (λ _, m));
  mret out.

Definition GetTaskAttempt (id : uuid) : GoM World TaskAttempt.t :=
  d ← gets db;
  match attempts d !! id with
  | None => fail ErrNotFound
  | Some a => mret a
  end.

Definition ListTaskAttemptsForStep (stepID : uuid) : GoM World (list TaskAttempt.t) :=
  l ← range_values attempts;
  mret (merge_sort (by_time TaskAttempt.AttemptNumber)
    (List.filter (λ a, TaskAttempt.StepID a =? stepID)%N l)).

(** * Outbox *)

Definition InsertOutboxMessage (msg : NewOutboxMessage.t) : GoM World Z :=
  d ← gets db;
  let id := nextOutboxID d + 1 in
  t ← now;
  let m := OutboxMessage.mk id (NewOutboxMessage.AggregateType msg)
    (NewOutboxMessage.AggregateID msg) (NewOutboxMessage.ShardID msg)
    (NewOutboxMessage.StreamName msg) (NewOutboxMessage.Payload msg) OutboxPending 0 t None in
  _ ← set_db (set_outbox (insert id m) id);
  mret id.

Definition FetchAndLockPendingOutbox (shardIDs : option (list Z)) (limit : Z)
    : GoM World (list OutboxMessage.t) :=
  d ← gets db;
  ids ← range_map (map_to_list (outbox d)).*1;
  mret (collect limit
    (λ m, bool_decide (OutboxMessage.Status m = OutboxPending) &&
          shard_selected shardIDs (OutboxMessage.ShardID m))
    (omap (λ id, outbox d !! id) (merge_sort Z.le ids)) []).

Definition outbox_published (m : OutboxMessage.t) (n : time) : OutboxMessage.t :=
  OutboxMessage.mk (OutboxMessage.ID m) (OutboxMessage.AggregateType m)
    (OutboxMessage.AggregateID m) (OutboxMessage.ShardID m) (OutboxMessage.StreamName m)
    (OutboxMessage.Payload m) OutboxPublished (OutboxMessage.PublishAttempts m)
    (OutboxMessage.CreatedAt m) (Some n).

Definition MarkOutboxPublished (id : Z) : GoM World unit :=
  d ← gets db;
  match outbox d !! id with
  | None => mret tt
  | Some m =>
      n ← now;
      set_db (λ d, set_outbox (insert id (outbox_published m n)) (nextOutboxID d) d)
  end.

(** * Timers *)

Definition InsertTimer (nt : NewTimer.t) : GoM World Timer.t :=
  let payload := match NewTimer.Payload nt with None => empty_object | p => p end in
  id ← new_uuid;
  t ← now;
  let tm := Timer.mk id (NewTimer.WorkflowRunID nt) (NewTimer.StepID nt) (NewTimer.ShardID nt)
    (NewTimer.Kind nt) TimerPending (copy_bytes payload) (NewTimer.FireAt nt) t None in
  _ ← set_db (set_timers (insert id tm));
  mret tm.

Definition ListDueTimers (shardIDs : option (list Z)) (limit : Z) : GoM World (list Timer.t) :=
  n ← now;
  l ← range_values timers;
  mret (collect limit
    (λ tm, bool_decide (Timer.Status tm = TimerPending) && (Timer.FireAt tm <=? n) &&
           shard_selected shardIDs (Timer.ShardID tm)) l []).

Definition timer_with (tm : Timer.t) (s : TimerStatus) (fired : option time) : Timer.t :=
  Timer.mk (Timer.ID tm) (Timer.WorkflowRunID tm) (Timer.StepID tm) (Timer.ShardID tm)
    (Timer.Kind tm) s (Timer.Payload tm) (Timer.FireAt tm) (Timer.CreatedAt tm) fired.

Definition FireTimerCAS (timerID : uuid) : GoM World (option Timer.t * bool) :=
  d ← gets db;
  match timers d !! timerID with
  | None => mret (None, false)
  | Some tm =>
      if bool_decide (Timer.Status tm = TimerPending) then
        n ← now;
        let tm' := timer_with tm TimerFired (Some n) in
        _ ← set_db (set_timers (insert timerID tm'));
        mret (Some tm', true)
      else mret (None, false)
  end.

Definition cancel_timer (runID : uuid) (tm : Timer.t) : Timer.t :=
  if (Timer.WorkflowRunID tm =? runID)%N && bool_decide (Timer.Status tm = TimerPending)
  then timer_with tm TimerCancelled (Timer.FiredAt tm) else tm.

Definition CancelTimersForRun (runID : uuid) : GoM World unit :=
  set_db (set_timers (fmap (cancel_timer runID))).

(** * Signals *)

Definition InsertSignal (runID : uuid) (name : string) (payload : RawMessage)
    : GoM World Signal.t :=
  let payload := match payload with None => empty_object | p => p end in
  id ← new_uuid;
  t ← now;
  let sig := Signal.mk id runID name (copy_bytes payload) false t in
  _ ← set_db (set_signals (insert id sig));
  mret sig.

Definition ListUnprocessedSignals (runID : uuid) : GoM World (list Signal.t) :=
  l ← range_values signals;
  mret (merge_sort (by_time Signal.ReceivedAt)
    (List.filter (λ sig, (Signal.WorkflowRunID sig =? runID)%N &&
                         negb (Signal.Processed sig)) l)).

Definition signal_processed (sig : Signal.t) : Signal.t :=
  Signal.mk (Signal.ID sig) (Signal.WorkflowRunID sig) (Signal.SignalName sig)
    (Signal.Payload sig) true (Signal.ReceivedAt sig).

Definition MarkSignalProcessed (id : uuid) : GoM World bool :=
  d ← gets db;
  match signals d !! id with
  | None => mret false
  | Some sig =>
      if Signal.Processed sig then mret false
      else
        _ ← set_db (set_signals (insert id (signal_processed sig)));
        mret true
  end.

(** * History *)

Definition run_bump_seq (r : WorkflowRun.t) : WorkflowRun.t :=
  WorkflowRun.mk (WorkflowRun.ID r) (WorkflowRun.DefinitionID r) (WorkflowRun.Name r)
    (WorkflowRun.Version r) (WorkflowRun.Status r) (WorkflowRun.ShardID r)
    (WorkflowRun.Input r) (WorkflowRun.Output r) (WorkflowRun.Context r)
    (WorkflowRun.Error r) (WorkflowRun.HistorySeq r + 1) (WorkflowRun.CreatedAt r)
    (WorkflowRun.StartedAt r) (WorkflowRun.CompletedAt r).

Definition AppendHistory (runID : uuid) (eventType : string) (payload : RawMessage)
    : GoM World HistoryEvent.t :=
  let payload := match payload with None => empty_object | p => p end in
  d ← gets db;
  match runs d !! runID with
  | None => fail ErrNotFound
  | Some r =>
      let seq := WorkflowRun.HistorySeq r + 1 in
      t ← now;
      let h := HistoryEvent.mk seq runID seq eventType (copy_bytes payload) t in
      _ ← set_db (set_runs (insert runID (run_bump_seq r)));
      _ ← set_db (set_history (λ m, <[runID := default [] (m !! runID) ++ [h]]> m));
      mret h
  end.

Definition ListHistory (runID : uuid) : GoM World (list HistoryEvent.t) :=
  d ← gets db;
  mret (default [] (history d !! runID)).

(** * The interface instances (declared as instances where they are used) *)

Definition memory_queries : Queries := {|
  Types.CreateWorkflowDefinition := CreateWorkflowDefinition;
  Types.GetWorkflowDefinition := GetWorkflowDefinition;
  Types.GetLatestWorkflowDefinition := GetLatestWorkflowDefinition;
  Types.ListWorkflowDefinitions := ListWorkflowDefinitions;
  Types.CreateWorkflowRun := CreateWorkflowRun;
  Types.GetWorkflowRun := GetWorkflowRun;
  Types.ListWorkflowRuns := ListWorkflowRuns;
  Types.ListRunningRunsForShards := ListRunningRunsForShards;
  Types.UpdateWorkflowRunStatus := UpdateWorkflowRunStatus;
  Types.CreateSteps := CreateSteps;
  Types.GetSteps := GetSteps;
  Types.GetStep := GetStep;
  Types.UpdateStepStatus := UpdateStepStatus;
  Types.CreateTaskAttempt := CreateTaskAttempt;
  Types.ClaimTaskAttempt := ClaimTaskAttempt;
  Types.HeartbeatTaskAttempt := HeartbeatTaskAttempt;
  Types.CompleteTaskAttempt := CompleteTaskAttempt;
  Types.ReapExpiredAttempts := ReapExpiredAttempts;
  Types.GetTaskAttempt := GetTaskAttempt;
  Types.ListTaskAttemptsForStep := ListTaskAttemptsForStep;
  Types.InsertOutboxMessage := InsertOutboxMessage;
  Types.FetchAndLockPendingOutbox := FetchAndLockPendingOutbox;
  Types.MarkOutboxPublished := MarkOutboxPublished;
  Types.InsertTimer := InsertTimer;
  Types.ListDueTimers := ListDueTimers;
  Types.FireTimerCAS := FireTimerCAS;
  Types.CancelTimersForRun := CancelTimersForRun;
  Types.InsertSignal := InsertSignal;
  Types.ListUnprocessedSignals := ListUnprocessedSignals;
  Types.MarkSignalProcessed := MarkSignalProcessed;
  Types.AppendHistory := AppendHistory;
  Types.ListHistory := ListHistory
|}.

(** [WithTx] holds the mutex while [fn] runs; on an error nothing is undone. *)
Definition WithTx {A} (fn : GoM World A) : GoM World A := fn.

Definition memory_store : Store := {|
  store_queries := memory_queries;
  Types.WithTx := @WithTx
|}.
End memory.
End Memory.
