(* ===== verification/Dsl.v ===== *)
(** internal/workflowdsl: workflow definitions, their validation (defaults,
    unique names, resolvable dependencies, cycle detection), the conversion to
    step rows, and the JSON form kept in [workflow_definitions.dag].

    Proved here: the depth-first search of [findCycle] always terminates within
    its bound, reports only steps that lie on a cycle and reports nothing exactly
    for acyclic graphs; [Validate] accepts exactly the well-formed definitions
    and is idempotent; the JSON form round-trips. *)

From stdpp Require Import gmap strings list relations.
From Stdlib Require Import SpecFloat.
From S2P Require Import Prelude GoLib Json Types.
Open Scope Z_scope.

(** * Data *)

Module StepSpec.
Record t := mk {
  Name : string; Type_ : string; DependsOn : option (list string); Input : RawMessage;
  MaxAttempts : Z; InitialBackoffMS : Z; BackoffMultiplier : float64;
  MaxBackoffMS : Z; TimeoutSeconds : Z
}.
End StepSpec.

(** [workflowdsl.Definition]; nil and empty slices are distinct. *)
Module Definition_.
Record t := mk { Name : string; Version : Z; Steps : option (list StepSpec.t) }.
End Definition_.

Module Workflowdsl.
Import Strings.

(** The elements of a possibly nil slice. *)
Definition elems {A} (l : option (list A)) : list A := default [] l.

Definition deps_of (s : StepSpec.t) : list string := elems (StepSpec.DependsOn s).
Definition steps_of (d : Definition_.t) : list StepSpec.t := elems (Definition_.Steps d).

Definition blank (s : string) : bool := bool_decide (TrimSpace s = "").

(** * Cycle detection *)

Inductive Color := Gray | Black.   (* a name absent from the map is white *)

#[export] Instance Color_eq_dec : EqDecision Color.
Proof. solve_decision. Defined.

Definition byName (steps : list StepSpec.t) : gmap string StepSpec.t :=
  foldl (λ m s, <[StepSpec.Name s := s]> m) ∅ steps.

(** [byName[name].DependsOn]; a missing entry is the zero [StepSpec]. *)
Definition edges (steps : list StepSpec.t) (name : string) : list string :=
  match byName steps !! name with Some s => deps_of s | None => [] end.

(** [visit]: [None] stands for running out of fuel. *)
Fixpoint visit (fuel : nat) (succs : string → list string) (color : gmap string Color)
    (name : string) {struct fuel} : option (gmap string Color * string) :=
  match fuel with
  | O => None
  | S fuel =>
      (fix loop (color : gmap string Color) (deps : list string) :=
         match deps with
         | [] => Some (<[name := Black]> color, "")
         | dep :: deps' =>
             match color !! dep with
             | None =>
                 match visit fuel succs color dep with
                 | None => None
                 | Some (color', r) =>
                     if decide (r = "") then loop color' deps' else Some (color', r)
                 end
             | Some Gray => Some (color, dep)
             | Some Black => loop color deps'
             end
         end) (<[name := Gray]> color) (succs name)
  end.

Fixpoint visit_all (fuel : nat) (succs : string → list string) (color : gmap string Color)
    (names : list string) : option string :=
  match names with
  | [] => Some ""
  | name :: names' =>
      match color !! name with
      | None =>
          match visit fuel succs color name with
          | None => None
          | Some (color', r) =>
              if decide (r = "") then visit_all fuel succs color' names' else Some r
          end
      | Some _ => visit_all fuel succs color names'
      end
  end.

Definition names (steps : list StepSpec.t) : list string := StepSpec.Name <$> steps.

(** Every name the search can meet. *)
Definition universe (steps : list StepSpec.t) : gset string :=
  list_to_set (names steps ++ concat (deps_of <$> steps)).

Definition findCycle (steps : list StepSpec.t) : option string :=
  visit_all (S (size (universe steps))) (edges steps) ∅ (names steps).

(** * Validation *)

Definition default_int (z d : Z) : Z := if z <=? 0 then d else z.

Definition defaulted (s : StepSpec.t) : StepSpec.t :=
  StepSpec.mk (StepSpec.Name s) (StepSpec.Type_ s) (StepSpec.DependsOn s)
    (if raw_empty (StepSpec.Input s) then empty_object else StepSpec.Input s)
    (default_int (StepSpec.MaxAttempts s) 1)
    (default_int (StepSpec.InitialBackoffMS s) 1000)
    (if F64.leb (StepSpec.BackoffMultiplier s) F64.zero then F64.two
     else StepSpec.BackoffMultiplier s)
    (default_int (StepSpec.MaxBackoffMS s) 60000)
    (default_int (StepSpec.TimeoutSeconds s) 30).

Definition err (msg : string) : error := Errorf ("workflowdsl: " +:+ msg).

(** The first loop of [Validate]: it rewrites the steps in place until the
    first error; [seen] collects the names. *)
Fixpoint check_specs (i : Z) (seen : gset string) (ss : list StepSpec.t)
    : list StepSpec.t * (gset string + error) :=
  match ss with
  | [] => ([], inl seen)
  | s :: rest =>
      if blank (StepSpec.Name s) then
        (ss, inr (err ("step " +:+ Itoa i +:+ " has no name")))
      else if decide (StepSpec.Name s ∈ seen) then
        (ss, inr (err ("duplicate step name " +:+ Quote (StepSpec.Name s))))
      else if blank (StepSpec.Type_ s) then
        (ss, inr (err ("step " +:+ Quote (StepSpec.Name s) +:+ " has no type")))
      else
        let '(rest', r) := check_specs (i + 1) ({[StepSpec.Name s]} ∪ seen) rest in
        (defaulted s :: rest', r)
  end.

Fixpoint check_deps (seen : gset string) (name : string) (deps : list string) : option error :=
  match deps with
  | [] => None
  | dep :: deps' =>
      if decide (dep ∈ seen) then
        if decide (dep = name) then
          Some (err ("step " +:+ Quote name +:+ " depends on itself"))
        else check_deps seen name deps'
      else Some (err ("step " +:+ Quote name +:+ " depends on unknown step " +:+ Quote dep))
  end.

(** The second loop: dependencies resolve; returns [hasRoot]. *)
Fixpoint check_steps (seen : gset string) (hasRoot : bool) (ss : list StepSpec.t)
    : bool + error :=
  match ss with
  | [] => inl hasRoot
  | s :: rest =>
      match check_deps seen (StepSpec.Name s) (deps_of s) with
      | Some e => inr e
      | None =>
          check_steps seen (match deps_of s with [] => true | _ => hasRoot end) rest
      end
  end.

(** [Validate] updates the definition in place and returns an error or nil. *)
Definition Validate (d : Definition_.t) : Definition_.t * option error :=
  if blank (Definition_.Name d) then (d, Some (err "workflow name is required"))
  else
    let name := Definition_.Name d in
    let version := default_int (Definition_.Version d) 1 in
    let d1 := Definition_.mk name version (Definition_.Steps d) in
    match steps_of d with
    | [] => (d1, Some (err ("workflow " +:+ Quote name +:+ " has no steps")))
    | _ =>
        let '(ss, r) := check_specs 0 ∅ (steps_of d) in
        let d2 := Definition_.mk name version (Some ss) in
        match r with
        | inr e => (d2, Some e)
        | inl seen =>
            match check_steps seen false ss with
            | inr e => (d2, Some e)
            | inl false => (d2, Some (err ("workflow " +:+ Quote name +:+ 
              " has no root step (a step with no depends_on) — every DAG must have an entry point")))
            | inl true =>
                match findCycle ss with
                | Some "" | None => (d2, None)
                | Some cyc =>
                    (d2, Some (err ("dependency cycle detected involving step " +:+ Quote cyc)))
                end
            end
        end
    end.

(** * Conversions *)

Definition ToNewStep (s : StepSpec.t) : NewStep.t :=
  NewStep.mk (StepSpec.Name s) (StepSpec.Type_ s) (deps_of s) (StepSpec.Input s)
    (StepSpec.MaxAttempts s) (StepSpec.InitialBackoffMS s) (StepSpec.BackoffMultiplier s)
    (StepSpec.MaxBackoffMS s) (StepSpec.TimeoutSeconds s).

Definition ToNewSteps (d : Definition_.t) : list NewStep.t := ToNewStep <$> steps_of d.

(** [json.Marshal] of a slice: nil is null. *)
Definition marshal_strings (l : option (list string)) : json :=
  match l with None => JNull | Some l => JArr (JStr <$> l) end.

Definition marshal_step (s : StepSpec.t) : option json :=
  input ← marshal_raw (StepSpec.Input s);
  mult ← marshal_float (StepSpec.BackoffMultiplier s);
  Some (JObj [("name", JStr (StepSpec.Name s)); ("type", JStr (StepSpec.Type_ s));
    ("depends_on", marshal_strings (StepSpec.DependsOn s)); ("input", input);
    ("max_attempts", JInt (StepSpec.MaxAttempts s));
    ("initial_backoff_ms", JInt (StepSpec.InitialBackoffMS s));
    ("backoff_multiplier", mult); ("max_backoff_ms", JInt (StepSpec.MaxBackoffMS s));
    ("timeout_seconds", JInt (StepSpec.TimeoutSeconds s))]).

Definition ToJSON (d : Definition_.t) : option json :=
  steps ← match Definition_.Steps d with
          | None => Some JNull
          | Some l => JArr <$> mapM marshal_step l
          end;
  Some (JObj [("name", JStr (Definition_.Name d)); ("version", JInt (Definition_.Version d));
    ("steps", steps)]).

(** * Decoding: [json.Unmarshal(def.DAG, &parsed)] *)

Definition zero_StepSpec : StepSpec.t :=
  StepSpec.mk "" "" None None 0 0 F64.zero 0 0.
Definition zero_Definition : Definition_.t := Definition_.mk "" 0 None.

Definition step_field (key : string) (v : json) (s : StepSpec.t) : StepSpec.t * bool :=
  let 'StepSpec.mk name type deps input attempts init mult maxb timeout := s in
  if key_matches "name" key then
    let '(x, e) := dec_string name v in
    (StepSpec.mk x type deps input attempts init mult maxb timeout, e)
  else if key_matches "type" key then
    let '(x, e) := dec_string type v in
    (StepSpec.mk name x deps input attempts init mult maxb timeout, e)
  else if key_matches "depends_on" key then
    let '(x, e) := dec_slice "" dec_string deps v in
    (StepSpec.mk name type x input attempts init mult maxb timeout, e)
  else if key_matches "input" key then
    let '(x, e) := dec_raw input v in
    (StepSpec.mk name type deps x attempts init mult maxb timeout, e)
  else if key_matches "max_attempts" key then
    let '(x, e) := dec_int attempts v in
    (StepSpec.mk name type deps input x init mult maxb timeout, e)
  else if key_matches "initial_backoff_ms" key then
    let '(x, e) := dec_int init v in
    (StepSpec.mk name type deps input attempts x mult maxb timeout, e)
  else if key_matches "backoff_multiplier" key then
    let '(x, e) := dec_float mult v in
    (StepSpec.mk name type deps input attempts init x maxb timeout, e)
  else if key_matches "max_backoff_ms" key then
    let '(x, e) := dec_int maxb v in
    (StepSpec.mk name type deps input attempts init mult x timeout, e)
  else if key_matches "timeout_seconds" key then
    let '(x, e) := dec_int timeout v in
    (StepSpec.mk name type deps input attempts init mult maxb x, e)
  else (s, false).

Definition definition_field (key : string) (v : json) (d : Definition_.t)
    : Definition_.t * bool :=
  let 'Definition_.mk name version steps := d in
  if key_matches "name" key then
    let '(x, e) := dec_string name v in (Definition_.mk x version steps, e)
  else if key_matches "version" key then
    let '(x, e) := dec_int version v in (Definition_.mk name x steps, e)
  else if key_matches "steps" key then
    let '(x, e) := dec_slice zero_StepSpec (dec_struct step_field) steps v in
    (Definition_.mk name version x, e)
  else (d, false).

(** [None] when a type error was recorded. *)
Definition unmarshal_Definition (b : RawMessage) : option Definition_.t :=
  match b with
  | Some (Text j) =>
      let '(d, e) := dec_struct definition_field zero_Definition j in
      if e then None else Some d
  | _ => None
  end.

(** * The dependency graph *)

Section graph.
Context (succs : string → list string).

Definition edge (a b : string) : Prop := b ∈ succs a.

(** [safe n]: every dependency chain from [n] is finite. *)
Definition safe (n : string) : Prop := Acc (flip edge) n.

Lemma safe_no_cycle n : safe n → ¬ tc edge n n.
Proof.
  intros Hn. induction Hn as [n _ IH]. intros Hc.
  assert (∃ m, edge n m ∧ tc edge m m) as (m & Hm & Hmm); [|by apply (IH m)].
  inversion Hc as [? Hone|? m ? Hfst Hrest]; subst; [by exists n|].
  exists m. split; [done|]. eapply tc_r; [|exact Hfst]. done.
Qed.

(** What a colouring means while [stack] is the chain of open calls: gray
    names reach [top], black names are safe and have only black dependencies. *)
Definition black_safe (c : gmap string Color) : Prop :=
  ∀ n, c !! n = Some Black → safe n.

Definition gray_reach (c : gmap string Color) (top : string) : Prop :=
  ∀ n, c !! n = Some Gray → rtc edge n top.

(** [c'] extends [c]: same gray names, black names kept. *)
Definition extends (c c' : gmap string Color) : Prop :=
  (∀ n, c' !! n = Some Gray ↔ c !! n = Some Gray) ∧
  (∀ n, c !! n = Some Black → c' !! n = Some Black).

Lemma extends_refl c : extends c c.
Proof. by split. Qed.

Lemma extends_trans c1 c2 c3 : extends c1 c2 → extends c2 c3 → extends c1 c3.
Proof. intros [H1 H2] [H3 H4]. split; intros n; [by rewrite H3|auto]. Qed.

(** The loop over the dependencies, named for the proofs. *)
Definition deps_loop (fuel : nat) (name : string) :=
  fix loop (color : gmap string Color) (deps : list string) :=
    match deps with
    | [] => Some (<[name := Black]> color, "")
    | dep :: deps' =>
        match color !! dep with
        | None =>
            match visit fuel succs color dep with
            | None => None
            | Some (color', r) =>
                if decide (r = "") then loop color' deps' else Some (color', r)
            end
        | Some Gray => Some (color, dep)
        | Some Black => loop color deps'
        end
    end.

Lemma visit_S fuel color name :
  visit (S fuel) succs color name = deps_loop fuel name (<[name := Gray]> color) (succs name).
Proof. done. Qed.

(** The outcome of a search from [name]: nothing found and [name] is black, or
    the name of a step on a cycle. *)
Definition visit_post (c : gmap string Color) (name : string)
    (c' : gmap string Color) (r : string) : Prop :=
  (r = "" → extends c c' ∧ c' !! name = Some Black ∧ black_safe c') ∧
  (r ≠ "" → tc edge r r).

Section correctness.
Hypothesis named : ∀ a b, edge a b → b ≠ "".

Lemma extends_close c c' name :
  c !! name = None → extends (<[name := Gray]> c) c' → extends c (<[name := Black]> c').
Proof.
  intros Hw [Hg Hb]. split; intros n.
  - destruct (decide (n = name)) as [->|Hne].
    + rewrite lookup_insert_eq, Hw. by split.
    + rewrite lookup_insert_ne by done. rewrite Hg. by rewrite lookup_insert_ne.
  - destruct (decide (n = name)) as [->|Hne]; [by rewrite Hw|].
    rewrite lookup_insert_ne by done. intros H. apply Hb. by rewrite lookup_insert_ne.
Qed.

(** The search is correct for every white start within [fuel]. *)
Definition visit_ok (fuel : nat) : Prop := ∀ c name c' r,
  visit fuel succs c name = Some (c', r) →
  c !! name = None → gray_reach c name → black_safe c → visit_post c name c' r.

(** Opening [name]: the colouring the loop starts from. *)
Lemma black_safe_gray c name : black_safe c → black_safe (<[name := Gray]> c).
Proof.
  intros Hbs n. destruct (decide (n = name)) as [->|Hne].
  - by rewrite lookup_insert_eq.
  - rewrite lookup_insert_ne by done. apply Hbs.
Qed.

(** A gray name of the loop reaches [name]. *)
Lemma gray_reach_open c c1 name n :
  gray_reach c name → extends (<[name := Gray]> c) c1 → c1 !! n = Some Gray →
  rtc edge n name.
Proof.
  intros Hgr [Hext _] Hn. apply Hext in Hn.
  destruct (decide (n = name)) as [->|Hne]; [done|].
  rewrite lookup_insert_ne in Hn by done. by apply Hgr.
Qed.

(** Closing [name] once all its dependencies are black. *)
Lemma close_post c c1 name :
  c !! name = None → extends (<[name := Gray]> c) c1 → black_safe c1 →
  (∀ d, edge name d → c1 !! d = Some Black) →
  visit_post c name (<[name := Black]> c1) "".
Proof.
  intros Hw Hext Hb Hdone. split; [|done]. intros _.
  split_and!; [by apply extends_close|by rewrite lookup_insert_eq|].
  intros n. destruct (decide (n = name)) as [->|Hne].
  - intros _. constructor. intros d Hd. by apply Hb, Hdone.
  - rewrite lookup_insert_ne by done. apply Hb.
Qed.

Lemma deps_loop_spec fuel c name c' r :
  visit_ok fuel → c !! name = None → gray_reach c name →
  ∀ deps c1, deps_loop fuel name c1 deps = Some (c', r) →
  extends (<[name := Gray]> c) c1 → black_safe c1 → (∀ d, d ∈ deps → edge name d) →
  (∀ d, edge name d → d ∉ deps → c1 !! d = Some Black) →
  visit_post c name c' r.
Proof.
  intros IH Hw Hgr.
  induction deps as [|dep deps IHdeps]; intros c1 Hl Hext Hb Hin Hdone; simpl in Hl.
  { simplify_eq. apply close_post; auto. intros d Hd. apply Hdone; [done|set_solver]. }
  assert (∀ c2, c2 !! dep = Some Black → extends c1 c2 →
    ∀ d, edge name d → d ∉ deps → c2 !! d = Some Black) as Hnext.
  { intros c2 H2 [_ Hk] d Hd Hnd. destruct (decide (d = dep)) as [->|]; [done|].
    apply Hk, Hdone; [done|]. by apply not_elem_of_cons. }
  assert (edge name dep) as Hdep by (apply Hin; by constructor).
  assert (∀ d, d ∈ deps → edge name d) as Hin'.
  { intros d Hd. apply Hin. by constructor. }
  destruct (c1 !! dep) as [[]|] eqn:Hc1.
  - simplify_eq. split; [intros ->; by apply named in Hdep|]. intros _.
    eapply tc_rtc_l; [by eapply gray_reach_open|by apply tc_once].
  - eapply (IHdeps c1); auto. apply Hnext; [done|apply extends_refl].
  - destruct (visit fuel succs c1 dep) as [[c2 r2]|] eqn:Hv2; [|done].
    destruct (IH _ _ _ _ Hv2 Hc1) as [Hok Hbad]; [|done|].
    { intros n Hn. eapply rtc_r; [by eapply gray_reach_open|done]. }
    case_decide as Hr2.
    + destruct (Hok Hr2) as (Hext2 & Hblk & Hb2).
      eapply (IHdeps c2); eauto using extends_trans.
    + simplify_eq. split; [done|]. intros _. by apply Hbad.
Qed.

Lemma visit_spec fuel : visit_ok fuel.
Proof.
  induction fuel as [|fuel IH]; intros c name c' r; [done|].
  rewrite visit_S. intros Hv Hw Hgr Hbs.
  eapply deps_loop_spec; eauto using extends_refl, black_safe_gray.
  intros d Hd Hnd. by destruct Hnd.
Qed.

End correctness.

(** ** Fuel *)

Context (U : gset string).
Hypothesis U_closed : ∀ a b, a ∈ U → edge a b → b ∈ U.

(** [visit] only adds colours, and its depth is bounded by the white names. *)
Lemma visit_total fuel : ∀ c name,
  name ∈ U → c !! name = None → (size (U ∖ dom c) ≤ fuel)%nat →
  ∃ c' r, visit fuel succs c name = Some (c', r) ∧ dom c ⊆ dom c'.
Proof.
  induction fuel as [|fuel IH]; intros c name HU Hw Hsz.
  { exfalso. assert (size (U ∖ dom c) = 0%nat) as Hz%size_empty_inv by lia.
    apply not_elem_of_dom in Hw. set_solver. }
  rewrite visit_S.
  assert (∀ deps c1, (∀ d, d ∈ deps → d ∈ U) → {[name]} ∪ dom c ⊆ dom c1 →
    ∃ c' r, deps_loop fuel name c1 deps = Some (c', r) ∧ dom c ⊆ dom c') as Hloop.
  { induction deps as [|dep deps IHdeps]; intros c1 Hin Hsub; simpl.
    - eexists _, _. split; [done|]. rewrite dom_insert_L. set_solver.
    - destruct (c1 !! dep) as [[]|] eqn:Hc1.
      + eexists _, _. split; [done|set_solver].
      + apply IHdeps; [set_solver|done].
      + destruct (IH c1 dep) as (c2 & r & -> & Hsub2); [set_solver|done| |].
        { apply not_elem_of_dom in Hw.
          assert (size (U ∖ dom c1) < size (U ∖ dom c))%nat; [|lia].
          apply subset_size. set_solver. }
        case_decide; [apply IHdeps; set_solver|]. eexists _, _. split; [done|set_solver]. }
  apply Hloop; [intros d Hd; by eapply U_closed|]. rewrite dom_insert_L. set_solver.
Qed.
End graph.

Lemma visit_all_spec succs (named : ∀ a b, edge succs a b → b ≠ "") fuel ns : ∀ c r,
  visit_all fuel succs c ns = Some r →
  (∀ n, c !! n ≠ Some Gray) → black_safe succs c →
  (r = "" → ∀ n, n ∈ ns → safe succs n) ∧ (r ≠ "" → tc (edge succs) r r).
Proof.
  induction ns as [|name ns IH]; intros c r Hv Hg Hb; simpl in Hv.
  { simplify_eq. split; [|done]. set_solver. }
  destruct (c !! name) as [col|] eqn:Hc.
  { destruct (IH _ _ Hv Hg Hb) as [Hok Hbad]. split; [|done].
    intros Hr n [->|Hn]%elem_of_cons; [|by apply Hok].
    apply Hb. destruct col; [by apply Hg in Hc|done]. }
  destruct (visit fuel succs c name) as [[c' r']|] eqn:Hv'; [|done].
  destruct (visit_spec succs named fuel _ _ _ _ Hv') as [Hok' Hbad'];
    [done|intros n Hn; by apply Hg in Hn|done|].
  case_decide as Hr'; [|simplify_eq; split; [done|by intros; apply Hbad']].
  destruct (Hok' Hr') as ([Hext _] & Hblk & Hb').
  destruct (IH _ _ Hv) as [Hok Hbad]; [intros n Hn%Hext; by apply Hg in Hn|done|].
  split; [|done]. intros Hr n [->|Hn]%elem_of_cons; [by apply Hb'|by apply Hok].
Qed.

Lemma visit_all_total succs (U : gset string) fuel ns :
  (∀ a b, a ∈ U → edge succs a b → b ∈ U) → (size U ≤ fuel)%nat → (∀ n, n ∈ ns → n ∈ U) →
  ∀ c, ∃ r, visit_all fuel succs c ns = Some r.
Proof.
  intros HU Hsz. induction ns as [|name ns IH]; intros Hin c; simpl; [by eexists|].
  assert (∀ n, n ∈ ns → n ∈ U) as Hin' by (intros n Hn; apply Hin; by constructor).
  destruct (c !! name) eqn:Hc; [by apply IH|].
  destruct (visit_total succs U HU fuel c name) as (c' & r & -> & _);
    [apply Hin; by constructor|done| |].
  { assert (size (U ∖ dom c) ≤ size U)%nat by (apply subseteq_size; set_solver). lia. }
  case_decide; [by apply IH|by eexists].
Qed.

(** ** The graph of a list of steps *)

(** Step [a] names [b] in its [depends_on]. *)
Definition depends (ss : list StepSpec.t) (a b : string) : Prop :=
  ∃ s, s ∈ ss ∧ StepSpec.Name s = a ∧ b ∈ deps_of s.

Definition acyclic (ss : list StepSpec.t) : Prop := ∀ n, ¬ tc (depends ss) n n.

Lemma byName_notin ss (m : gmap string StepSpec.t) n :
  n ∉ names ss → foldl (λ m s, <[StepSpec.Name s := s]> m) m ss !! n = m !! n.
Proof.
  revert m. induction ss as [|s ss IH]; intros m Hn; simpl; [done|].
  unfold names in *. rewrite fmap_cons in Hn. apply not_elem_of_cons in Hn as [Hne Hn].
  rewrite IH by done. by rewrite lookup_insert_ne.
Qed.

Lemma byName_in ss (m : gmap string StepSpec.t) s :
  NoDup (names ss) → s ∈ ss →
  foldl (λ m s, <[StepSpec.Name s := s]> m) m ss !! StepSpec.Name s = Some s.
Proof.
  revert m. induction ss as [|s' ss IH]; intros m Hnd Hs; simpl; [set_solver|].
  unfold names in Hnd. rewrite fmap_cons in Hnd. apply NoDup_cons in Hnd as [Hni Hnd].
  apply elem_of_cons in Hs as [->|Hs]; [|by apply IH].
  rewrite byName_notin by done. apply lookup_insert_eq.
Qed.

Lemma byName_Some ss n s : byName ss !! n = Some s → s ∈ ss ∧ StepSpec.Name s = n.
Proof.
  unfold byName.
  assert (∀ m : gmap string StepSpec.t, (∀ n s, m !! n = Some s → StepSpec.Name s = n) →
    foldl (λ m s, <[StepSpec.Name s := s]> m) m ss !! n = Some s →
    (m !! n = Some s ∨ s ∈ ss) ∧ StepSpec.Name s = n) as H.
  { induction ss as [|s' ss IH]; intros m Hm; simpl; [by eauto|].
    intros Hl. destruct (IH (<[StepSpec.Name s' := s']> m)) as [[Hins|Hin] Hname]; [|done| |].
    - intros n' s0. rewrite lookup_insert. case_decide; [naive_solver|apply Hm].
    - split; [|done]. rewrite lookup_insert in Hins. case_decide; simplify_eq.
      + right. by constructor.
      + by left.
    - split; [|done]. right. by constructor. }
  intros Hl. destruct (H ∅) as [[?|?] ?]; [by intros ??|done|done|done].
Qed.

Lemma edge_depends ss a b : edge (edges ss) a b → depends ss a b.
Proof.
  unfold edge, edges. destruct (byName ss !! a) as [s|] eqn:Hs; [|set_solver].
  apply byName_Some in Hs as [Hs Hn]. intros Hb. by exists s.
Qed.

Lemma depends_edge ss a b : NoDup (names ss) → depends ss a b → edge (edges ss) a b.
Proof.
  intros Hnd (s & Hs & <- & Hb). unfold edge, edges, byName. by rewrite byName_in.
Qed.

Lemma universe_closed ss a b : edge (edges ss) a b → b ∈ universe ss.
Proof.
  intros (s & Hs & _ & Hb)%edge_depends. unfold universe.
  rewrite elem_of_list_to_set, elem_of_app. right.
  apply list_elem_of_In, in_concat. exists (deps_of s). split; [|by apply list_elem_of_In].
  apply list_elem_of_In, list_elem_of_fmap. eauto.
Qed.

Lemma findCycle_total ss : ∃ r, findCycle ss = Some r.
Proof.
  apply (visit_all_total _ (universe ss)); [intros a b _; apply universe_closed|lia|].
  intros n Hn. unfold universe. rewrite elem_of_list_to_set, elem_of_app. by left.
Qed.

(** The search decides acyclicity. *)
Lemma findCycle_correct ss :
  NoDup (names ss) → (∀ a b, depends ss a b → b ≠ "") →
  ∃ r, findCycle ss = Some r ∧ (r = "" ↔ acyclic ss) ∧
       (r ≠ "" → tc (depends ss) r r).
Proof.
  intros Hnd Hne. destruct (findCycle_total ss) as [r Hr]. exists r. split; [done|].
  destruct (visit_all_spec (edges ss)
    (λ a b Hab, Hne a b (edge_depends _ _ _ Hab)) _ _ ∅ r Hr) as [Hok Hbad];
    [by intros n|by intros n|].
  assert (r ≠ "" → tc (depends ss) r r) as Hbad'.
  { intros H. apply Hbad in H. revert H. apply tc_mono; intros a b. apply edge_depends. }
  split; [|done]. split; [|intros Hac; destruct (decide (r = "")); [done|exfalso];
    by apply (Hac r), Hbad'].
  intros Hr0 n Hn. apply (safe_no_cycle (edges ss) n).
  - destruct (decide (n ∈ names ss)) as [Hin|Hni]; [by apply Hok|].
    constructor. intros m (s & Hs & Hnm & _)%edge_depends. destruct Hni. subst n.
    apply list_elem_of_fmap. eauto.
  - revert Hn. apply tc_mono; intros a b. by apply depends_edge.
Qed.

(** * What [Validate] promises *)

Record WellFormed (d : Definition_.t) : Prop := {
  wf_name : blank (Definition_.Name d) = false;
  wf_nonempty : steps_of d ≠ [];
  wf_named : Forall (λ s, blank (StepSpec.Name s) = false) (steps_of d);
  wf_typed : Forall (λ s, blank (StepSpec.Type_ s) = false) (steps_of d);
  wf_unique : NoDup (names (steps_of d));
  wf_deps : ∀ s dep, s ∈ steps_of d → dep ∈ deps_of s →
    dep ∈ names (steps_of d) ∧ dep ≠ StepSpec.Name s;
  wf_root : ∃ s, s ∈ steps_of d ∧ deps_of s = [];
  wf_acyclic : acyclic (steps_of d)
}.

(** ** The first loop *)

Definition specs_ok (seen : gset string) (ss : list StepSpec.t) : Prop :=
  Forall (λ s, blank (StepSpec.Name s) = false) ss ∧
  Forall (λ s, blank (StepSpec.Type_ s) = false) ss ∧
  NoDup (names ss) ∧ (∀ n, n ∈ names ss → n ∉ seen).

Lemma specs_ok_cons seen s ss :
  specs_ok seen (s :: ss) ↔
  blank (StepSpec.Name s) = false ∧ (StepSpec.Name s ∉ seen) ∧
  blank (StepSpec.Type_ s) = false ∧ specs_ok ({[StepSpec.Name s]} ∪ seen) ss.
Proof.
  unfold specs_ok, names. rewrite fmap_cons, !Forall_cons, NoDup_cons.
  setoid_rewrite elem_of_cons. set_solver.
Qed.

Lemma check_specs_ok ss : ∀ i seen,
  specs_ok seen ss →
  check_specs i seen ss = (defaulted <$> ss, inl (list_to_set (names ss) ∪ seen)).
Proof.
  induction ss as [|s ss IH]; intros i seen Hok; simpl.
  { f_equal. f_equal. set_solver. }
  apply specs_ok_cons in Hok as (-> & Hseen & -> & Hok).
  rewrite decide_False by done. rewrite (IH _ _ Hok). simpl. do 2 f_equal. set_solver.
Qed.

Lemma check_specs_inl ss : ∀ i seen seen',
  (check_specs i seen ss).2 = inl seen' → specs_ok seen ss.
Proof.
  induction ss as [|s ss IH]; intros i seen seen'; simpl.
  { intros _. repeat split; try constructor. set_solver. }
  rewrite specs_ok_cons. destruct (blank (StepSpec.Name s)); [done|].
  case_decide as Hs; [done|]. destruct (blank (StepSpec.Type_ s)); [done|].
  destruct (check_specs (i + 1) _ ss) as [rest r] eqn:E; simpl. intros ->.
  split_and!; [done..|]. eapply (IH (i + 1) _ seen'). by rewrite E.
Qed.

(** ** The second loop *)

Lemma check_deps_None seen name deps :
  check_deps seen name deps = None ↔ ∀ dep, dep ∈ deps → dep ∈ seen ∧ dep ≠ name.
Proof.
  induction deps as [|dep deps IH]; simpl; [set_solver|].
  setoid_rewrite elem_of_cons. repeat case_decide; naive_solver.
Qed.

Definition is_root (s : StepSpec.t) : bool :=
  match deps_of s with [] => true | _ => false end.

Lemma check_steps_inl seen ss : ∀ hasRoot b,
  check_steps seen hasRoot ss = inl b ↔
  (∀ s dep, s ∈ ss → dep ∈ deps_of s → dep ∈ seen ∧ dep ≠ StepSpec.Name s) ∧
  b = hasRoot || existsb is_root ss.
Proof.
  induction ss as [|s ss IH]; intros hasRoot b; simpl.
  { rewrite orb_false_r. split; [intros [= ->]; set_solver|by intros [_ ->]]. }
  destruct (check_deps seen (StepSpec.Name s) (deps_of s)) as [e|] eqn:E.
  { split; [done|]. intros [Hall _]. exfalso.
    assert (check_deps seen (StepSpec.Name s) (deps_of s) = None); [|congruence].
    apply check_deps_None. intros dep. apply Hall. by constructor. }
  rewrite check_deps_None in E. rewrite IH.
  assert ((match deps_of s with [] => true | _ => hasRoot end) || existsb is_root ss =
    hasRoot || (is_root s || existsb is_root ss)) as ->.
  { unfold is_root at 2. by destruct (deps_of s), hasRoot. }
  split; intros [Hall ->]; (split; [|done]).
  - intros s' dep [->|Hs']%elem_of_cons; eauto.
  - intros s' dep Hs'. apply Hall. by constructor.
Qed.

(** Defaulting keeps names and dependencies. *)
Lemma names_defaulted ss : names (defaulted <$> ss) = names ss.
Proof. unfold names. by rewrite <-list_fmap_compose. Qed.

Lemma depends_defaulted ss a b : depends (defaulted <$> ss) a b ↔ depends ss a b.
Proof.
  unfold depends. split.
  - intros (s & (s0 & -> & Hs0)%list_elem_of_fmap & ? & ?). by exists s0.
  - intros (s & Hs & ? & ?). exists (defaulted s). split; [|done].
    apply list_elem_of_fmap. eauto.
Qed.

Lemma acyclic_defaulted ss : acyclic (defaulted <$> ss) ↔ acyclic ss.
Proof.
  split; intros Hac n Hn; apply (Hac n); revert Hn; apply tc_mono; intros a b;
    apply depends_defaulted.
Qed.

Lemma is_root_defaulted ss : existsb is_root (defaulted <$> ss) = existsb is_root ss.
Proof. induction ss; simpl; f_equal; done. Qed.

Lemma existsb_root ss : existsb is_root ss = true ↔ ∃ s, s ∈ ss ∧ deps_of s = [].
Proof.
  rewrite existsb_exists. setoid_rewrite list_elem_of_In. unfold is_root.
  split; intros (s & Hs & H); exists s; (split; [done|]); by destruct (deps_of s).
Qed.

Lemma blank_empty : blank "" = true.
Proof. done. Qed.

(** Under the checks before it, [findCycle] returns the empty string exactly
    when the graph is acyclic. *)
Lemma findCycle_checked ss :
  specs_ok ∅ ss → (∀ s dep, s ∈ ss → dep ∈ deps_of s → dep ∈ names ss) →
  ∃ r, findCycle (defaulted <$> ss) = Some r ∧ (r = "" ↔ acyclic ss).
Proof.
  intros (Hn & _ & Hnd & _) Hdeps.
  destruct (findCycle_correct (defaulted <$> ss)) as (r & Hr & Hiff & _).
  - by rewrite names_defaulted.
  - intros a b (s & Hs & _ & Hb)%(proj1 (depends_defaulted _ _ _)) ->.
    apply (Hdeps _ _ Hs), list_elem_of_fmap in Hb as (s' & Hs' & Hin).
    rewrite Forall_forall in Hn. apply Hn in Hin. by rewrite <-Hs' in Hin.
  - exists r. by rewrite <-acyclic_defaulted.
Qed.

Definition validated (d : Definition_.t) : Definition_.t :=
  Definition_.mk (Definition_.Name d) (default_int (Definition_.Version d) 1)
    (Some (defaulted <$> steps_of d)).

Lemma Validate_complete d : WellFormed d → Validate d = (validated d, None).
Proof.
  intros [Hname Hne Hn Ht Hnd Hdeps Hroot Hac]. unfold Validate. rewrite Hname.
  destruct (steps_of d) as [|s0 ss0] eqn:Ess; [done|]. rewrite <-Ess in *.
  assert (specs_ok ∅ (steps_of d)) as Hok by (repeat split; [done..|set_solver]).
  rewrite (check_specs_ok _ _ _ Hok).
  assert (check_steps (list_to_set (names (steps_of d)) ∪ ∅) false
    (defaulted <$> steps_of d) = inl true) as ->.
  { apply check_steps_inl. split.
    - intros s dep (s1 & -> & Hs1)%list_elem_of_fmap Hdep.
      destruct (Hdeps s1 dep Hs1 Hdep). set_solver.
    - rewrite is_root_defaulted. symmetry. by apply existsb_root. }
  destruct (findCycle_checked (steps_of d) Hok) as (r & -> & Hr).
  { intros s dep Hs Hd. by apply (Hdeps s dep). }
  unfold validated. by rewrite (proj2 Hr Hac).
Qed.

Lemma Validate_sound d : (Validate d).2 = None → WellFormed d.
Proof.
  unfold Validate. destruct (blank (Definition_.Name d)) eqn:Hname; [done|].
  destruct (steps_of d) as [|s0 ss0] eqn:Ess; [done|]. rewrite <-Ess.
  destruct (check_specs 0 ∅ (steps_of d)) as [ss r] eqn:E.
  destruct r as [seen|e]; [|done].
  assert (specs_ok ∅ (steps_of d)) as Hok by (eapply (check_specs_inl _ 0); by rewrite E).
  rewrite (check_specs_ok _ _ _ Hok) in E. simplify_eq.
  destruct (check_steps _ false _) as [[]|] eqn:Ec; [|done..].
  apply check_steps_inl in Ec as [Hdeps Hroot]. simpl in Hroot.
  rewrite is_root_defaulted in Hroot.
  assert (∀ s dep, s ∈ steps_of d → dep ∈ deps_of s →
    dep ∈ names (steps_of d) ∧ dep ≠ StepSpec.Name s) as Hdeps'.
  { intros s dep Hs Hd. destruct (Hdeps (defaulted s) dep); [|done|set_solver].
    apply list_elem_of_fmap. eauto. }
  destruct (findCycle_checked (steps_of d) Hok) as (r & Hr & Hiff).
  { intros s dep Hs Hd. by apply (Hdeps' s dep). }
  rewrite Hr. intros Hnone. destruct Hok as (Hn & Ht & Hnd & _).
  split; [done|by rewrite Ess|done|done|done|done|by apply existsb_root|].
  apply Hiff. by destruct r.
Qed.

(** * Properties of validation *)

Lemma default_int_pos z d : 0 < d → 0 < default_int z d.
Proof. unfold default_int. intros. destruct (Z.leb_spec z 0); lia. Qed.

Lemma default_int_idemp z d : 0 < d → default_int (default_int z d) d = default_int z d.
Proof.
  intros Hd. pose proof (default_int_pos z d Hd). unfold default_int at 1.
  destruct (Z.leb_spec (default_int z d) 0); lia.
Qed.

Lemma defaulted_idemp s : defaulted (defaulted s) = defaulted s.
Proof.
  unfold defaulted at 1. simpl. rewrite !default_int_idemp by lia.
  assert (raw_empty (StepSpec.Input (defaulted s)) = false) as Hi.
  { simpl. by destruct (raw_empty (StepSpec.Input s)) eqn:E. }
  assert (F64.leb (StepSpec.BackoffMultiplier (defaulted s)) F64.zero = false) as Hm.
  { simpl. by destruct (F64.leb (StepSpec.BackoffMultiplier s) F64.zero) eqn:E. }
  simpl in Hi, Hm. by rewrite Hi, Hm.
Qed.

Lemma steps_of_validated d : steps_of (validated d) = defaulted <$> steps_of d.
Proof. done. Qed.

Lemma validated_idemp d : validated (validated d) = validated d.
Proof.
  unfold validated at 1. rewrite steps_of_validated. cbn [validated Definition_.Name
    Definition_.Version]. rewrite default_int_idemp by lia. unfold validated. do 2 f_equal.
  rewrite <-list_fmap_compose. apply list_fmap_ext. intros i s _. apply defaulted_idemp.
Qed.

Lemma WellFormed_validated d : WellFormed d → WellFormed (validated d).
Proof.
  intros [Hname Hne Hn Ht Hnd Hdeps (s & Hs & Hroot) Hac].
  split; rewrite ?steps_of_validated; rewrite ?names_defaulted; try done.
  - by destruct (steps_of d).
  - by apply Forall_fmap.
  - by apply Forall_fmap.
  - intros s' dep (s1 & -> & Hs1)%list_elem_of_fmap. by apply (Hdeps s1).
  - exists (defaulted s). split; [|done]. apply list_elem_of_fmap. eauto.
  - by apply acyclic_defaulted.
Qed.

(** What the engine may assume of a step taken from a validated definition. *)
Definition step_sane (s : StepSpec.t) : Prop :=
  1 ≤ StepSpec.MaxAttempts s ∧ 1 ≤ StepSpec.InitialBackoffMS s ∧
  1 ≤ StepSpec.MaxBackoffMS s ∧ 1 ≤ StepSpec.TimeoutSeconds s ∧
  F64.leb (StepSpec.BackoffMultiplier s) F64.zero = false ∧
  raw_empty (StepSpec.Input s) = false.

Lemma defaulted_sane s : step_sane (defaulted s).
Proof.
  unfold step_sane, defaulted. simpl.
  pose proof (default_int_pos (StepSpec.MaxAttempts s) 1).
  pose proof (default_int_pos (StepSpec.InitialBackoffMS s) 1000).
  pose proof (default_int_pos (StepSpec.MaxBackoffMS s) 60000).
  pose proof (default_int_pos (StepSpec.TimeoutSeconds s) 30).
  split_and!; [lia..| |].
  - by destruct (F64.leb (StepSpec.BackoffMultiplier s) F64.zero) eqn:E.
  - by destruct (raw_empty (StepSpec.Input s)) eqn:E.
Qed.

(** In an acyclic graph every chain of dependencies is finite. *)
Lemma acyclic_safe ss : NoDup (names ss) → (∀ a b, depends ss a b → b ≠ "") →
  acyclic ss → ∀ n, n ∈ names ss → safe (edges ss) n.
Proof.
  intros Hnd Hne Hac n Hn. destruct (findCycle_correct ss Hnd Hne) as (r & Hr & Hiff & _).
  destruct (visit_all_spec (edges ss)
    (λ a b Hab, Hne a b (edge_depends _ _ _ Hab)) _ _ ∅ r Hr) as [Hok _];
    [by intros m|by intros m|]. apply Hok; [by apply Hiff|done].
Qed.

(** * JSON round trip *)

Definition ints_ok (s : StepSpec.t) : Prop :=
  in_int64 (StepSpec.MaxAttempts s) = true ∧ in_int64 (StepSpec.InitialBackoffMS s) = true ∧
  in_int64 (StepSpec.MaxBackoffMS s) = true ∧ in_int64 (StepSpec.TimeoutSeconds s) = true.

Lemma dec_strings_marshal cur l :
  dec_slice "" dec_string cur (marshal_strings l) = (l, false).
Proof.
  destruct l as [l|]; [|done]. simpl. f_equal.
  - f_equal. induction l as [|x l IH]; [done|]. simpl. by f_equal.
  - induction l as [|x l IH]; done.
Qed.

(** One member of an object: the field it sets. *)
Section fields.
Context (n t : string) (ds : option (list string)) (i : RawMessage) (m f b o : Z) (x : float64).
Let s := StepSpec.mk n t ds i m f x b o.

Lemma field_name v : step_field "name" (JStr v) s = (StepSpec.mk v t ds i m f x b o, false).
Proof. done. Qed.
Lemma field_type v : step_field "type" (JStr v) s = (StepSpec.mk n v ds i m f x b o, false).
Proof. done. Qed.
Lemma field_deps l :
  step_field "depends_on" (marshal_strings l) s = (StepSpec.mk n t l i m f x b o, false).
Proof. unfold step_field, s. by rewrite dec_strings_marshal. Qed.
Lemma field_input j :
  step_field "input" j s = (StepSpec.mk n t ds (Some (Text j)) m f x b o, false).
Proof. done. Qed.
Lemma field_mult v :
  step_field "backoff_multiplier" (JFloat v) s = (StepSpec.mk n t ds i m f v b o, false).
Proof. done. Qed.

Context (z : Z) (Hz : in_int64 z = true).
Lemma field_max :
  step_field "max_attempts" (JInt z) s = (StepSpec.mk n t ds i z f x b o, false).
Proof. unfold step_field, dec_int. by rewrite Hz. Qed.
Lemma field_init :
  step_field "initial_backoff_ms" (JInt z) s = (StepSpec.mk n t ds i m z x b o, false).
Proof. unfold step_field, dec_int. by rewrite Hz. Qed.
Lemma field_maxb :
  step_field "max_backoff_ms" (JInt z) s = (StepSpec.mk n t ds i m f x z o, false).
Proof. unfold step_field, dec_int. by rewrite Hz. Qed.
Lemma field_timeout :
  step_field "timeout_seconds" (JInt z) s = (StepSpec.mk n t ds i m f x b z, false).
Proof. unfold step_field, dec_int. by rewrite Hz. Qed.
End fields.

Create Rewrite HintDb jsondec.
#[local] Hint Rewrite field_name field_type field_deps field_input field_mult : jsondec.
#[local] Hint Rewrite field_max field_init field_maxb field_timeout using done : jsondec.

Lemma dec_step_marshal s j :
  ints_ok s → StepSpec.Input s ≠ None → marshal_step s = Some j →
  dec_struct step_field zero_StepSpec j = (s, false).
Proof.
  destruct s as [name type deps input att init mult maxb tmo].
  intros (Ha & Hi & Hm & Ht) Hin Hj. unfold marshal_step in Hj. simpl in *.
  destruct input as [[inp|]|]; [|done..]. simpl in Hj.
  destruct (marshal_float mult) as [jm|] eqn:Hmult; [|done]. simpl in Hj.
  assert (jm = JFloat mult) as -> by (by destruct mult; simplify_eq/=). simplify_eq.
  unfold dec_struct, zero_StepSpec.
  do 9 (cbn [foldl fst snd orb]; autorewrite with jsondec). done.
Qed.

Lemma dec_steps_marshal cur l js :
  Forall ints_ok l → Forall (λ s, StepSpec.Input s ≠ None) l →
  mapM marshal_step l = Some js →
  dec_slice zero_StepSpec (dec_struct step_field) cur (JArr js) = (Some l, false).
Proof.
  intros Hi Hn Hm%mapM_Some. cbn [dec_slice].
  assert (dec_struct step_field zero_StepSpec <$> js = (λ s, (s, false)) <$> l) as ->.
  { revert Hi Hn. induction Hm as [|s j l js Hj _ IH]; intros Hi Hn; [done|].
    apply Forall_cons in Hi as [? ?]. apply Forall_cons in Hn as [? ?].
    rewrite !fmap_cons. f_equal; [by apply dec_step_marshal|by apply IH]. }
  clear. f_equal.
  - f_equal. induction l; simpl; f_equal; done.
  - induction l; done.
Qed.

(** Decoding the stored document gives the definition back. *)
Lemma unmarshal_ToJSON d j :
  in_int64 (Definition_.Version d) = true → Forall ints_ok (steps_of d) →
  Forall (λ s, StepSpec.Input s ≠ None) (steps_of d) →
  ToJSON d = Some j → unmarshal_Definition (Some (Text j)) = Some d.
Proof.
  destruct d as [name version ss]. intros Hv Hi Hn Hj. unfold ToJSON in Hj. simpl in *.
  assert (∃ js, j = JObj [("name", JStr name); ("version", JInt version); ("steps", js)] ∧
    dec_slice zero_StepSpec (dec_struct step_field) None js = (ss, false))
    as (js & -> & Hdec).
  { destruct ss as [l|]; simpl in Hj; [|simplify_eq; eexists; done].
    destruct (mapM marshal_step l) as [js|] eqn:Hm; [|done]. simplify_eq/=.
    eexists. split; [done|]. by apply dec_steps_marshal. }
  unfold unmarshal_Definition, dec_struct, zero_Definition. cbn [foldl fst snd orb].
  change (definition_field "name" (JStr name) (Definition_.mk "" 0 None))
    with (Definition_.mk name 0 None, false). cbn [fst snd orb].
  assert (definition_field "version" (JInt version) (Definition_.mk name 0 None) =
    (Definition_.mk name version None, false)) as ->.
  { unfold definition_field, dec_int. by rewrite Hv. }
  cbn [fst snd orb]. unfold definition_field. by rewrite Hdec.
Qed.

Lemma validated_inputs d : Forall (λ s, StepSpec.Input s ≠ None) (steps_of (validated d)).
Proof.
  rewrite steps_of_validated, Forall_fmap. apply Forall_forall. intros s _. simpl.
  destruct (raw_empty (StepSpec.Input s)) eqn:E; [done|]. by destruct (StepSpec.Input s).
Qed.

(** * Statements *)

(** C18.  [Validate] accepts exactly the well-formed definitions (non-blank
    workflow and step names and types, unique step names, resolvable
    dependencies, a root, no dependency cycle), and the definition it leaves
    behind is then the input with the version and every step defaulted. *)
Theorem Validate_correct d :
  ((Validate d).2 = None ↔ WellFormed d) ∧
  (WellFormed d → (Validate d).1 = validated d ∧ WellFormed (validated d)).
Proof.
  split; [split|].
  - apply Validate_sound.
  - intros Hd. by rewrite (Validate_complete d Hd).
  - intros Hd. rewrite (Validate_complete d Hd). split; [done|].
    by apply WellFormed_validated.
Qed.

(** C19.  The depth-first search of [findCycle] terminates on every list of
    steps; with unique names and non-empty dependency names it returns the
    empty string exactly when the dependency graph is acyclic, and any other
    answer is the name of a step that transitively depends on itself. *)
Theorem findCycle_decides ss :
  NoDup (names ss) → (∀ a b, depends ss a b → b ≠ "") →
  ∃ r, findCycle ss = Some r ∧ (r = "" ↔ acyclic ss) ∧ (r ≠ "" → tc (depends ss) r r).
Proof. apply findCycle_correct. Qed.

Definition mk_step (name : string) (deps : list string) : StepSpec.t :=
  StepSpec.mk name "noop" (Some deps) None 0 0 F64.zero 0 0.
Definition diamond : list StepSpec.t :=
  [mk_step "a" []; mk_step "b" ["a"]; mk_step "c" ["a"]; mk_step "d" ["b"; "c"]].

Lemma diamond_deps a b : depends diamond a b → b ≠ "".
Proof.
  intros (s & Hs & _ & Hb) ->. unfold diamond in Hs.
  repeat (apply elem_of_cons in Hs as [->|Hs]; [unfold mk_step, deps_of in Hb; simpl in Hb; set_solver|]).
  by apply elem_of_nil in Hs.
Defined.

Lemma diamond_NoDup : NoDup (names diamond).
Proof. apply (bool_decide_unpack _). vm_compute. exact I. Defined.

Lemma diamond_acyclic : acyclic diamond.
Proof.
  destruct (findCycle_correct diamond diamond_NoDup diamond_deps) as (r & Hr & Hiff & _).
  apply Hiff. assert (findCycle diamond = Some "") by (vm_compute; reflexivity). congruence.
Defined.

Lemma findCycle_decides_witness :
  findCycle diamond = Some "" ∧
  ∃ r, findCycle diamond = Some r ∧ (r = "" ↔ acyclic diamond) ∧
       (r ≠ "" → tc (depends diamond) r r).
Proof.
  split; [vm_compute; reflexivity|].
  apply (findCycle_decides diamond); [exact diamond_NoDup|exact diamond_deps].
Defined.

(** Validation is idempotent and establishes the bounds the engine relies
    on: after an accepted [Validate] every step has at least one attempt,
    positive back-off bounds and timeout, a back-off multiplier that is not
    [<= 0], a non-empty input, and validating again changes nothing. *)
Theorem Validate_establishes d :
  (Validate d).2 = None →
  Forall step_sane (steps_of (Validate d).1) ∧ 1 ≤ Definition_.Version (Validate d).1 ∧
  Validate (Validate d).1 = ((Validate d).1, None).
Proof.
  intros Hd%Validate_sound. rewrite (Validate_complete d Hd).
  change ((validated d, None).1) with (validated d). split_and!.
  - rewrite steps_of_validated, Forall_fmap. apply Forall_forall. intros s _.
    apply defaulted_sane.
  - pose proof (default_int_pos (Definition_.Version d) 1). simpl. lia.
  - by rewrite (Validate_complete _ (WellFormed_validated d Hd)), validated_idemp.
Qed.

Definition diamond_def : Definition_.t := Definition_.mk "fanout-wf" 0 (Some diamond).

Lemma Validate_establishes_witness :
  (Validate diamond_def).2 = None ∧
  Forall step_sane (steps_of (Validate diamond_def).1) ∧
  1 ≤ Definition_.Version (Validate diamond_def).1 ∧
  Validate (Validate diamond_def).1 = ((Validate diamond_def).1, None).
Proof.
  assert ((Validate diamond_def).2 = None) as H by (vm_compute; reflexivity).
  split; [exact H|]. apply (Validate_establishes diamond_def). exact H.
Defined.

(** C23.  The stored document loses nothing: the JSON kept in
    [workflow_definitions.dag] for an accepted definition decodes, in
    [CreateRun], to that definition (integers in the 64-bit range). *)
Theorem dag_roundtrip d j :
  (Validate d).2 = None → in_int64 (Definition_.Version (Validate d).1) = true →
  Forall ints_ok (steps_of (Validate d).1) → ToJSON (Validate d).1 = Some j →
  unmarshal_Definition (Some (Text j)) = Some (Validate d).1.
Proof.
  intros Hd%Validate_sound. rewrite (Validate_complete d Hd). intros Hv Hi Hj.
  apply unmarshal_ToJSON; [done|done|apply validated_inputs|done].
Qed.

Lemma dag_roundtrip_witness :
  ∃ j, ToJSON (Validate diamond_def).1 = Some j ∧
       unmarshal_Definition (Some (Text j)) = Some (Validate diamond_def).1.
Proof.
  eexists. split; [vm_compute; reflexivity|].
  apply (dag_roundtrip diamond_def).
  - vm_compute; reflexivity.
  - vm_compute; reflexivity.
  - assert (steps_of (Validate diamond_def).1 = defaulted <$> diamond) as ->
      by (vm_compute; reflexivity).
    repeat constructor.
  - vm_compute; reflexivity.
Defined.

(** The separate "no root step" check of [Validate] never rejects a
    graph that the other checks would accept: if every dependency resolves and
    there is no cycle, a non-empty list of uniquely named steps has a root. *)
Theorem acyclic_has_root ss :
  ss ≠ [] → NoDup (names ss) → (∀ a b, depends ss a b → b ∈ names ss ∧ b ≠ "") →
  acyclic ss → ∃ s, s ∈ ss ∧ deps_of s = [].
Proof.
  intros Hne Hnd Hdeps Hac.
  assert (∀ n, safe (edges ss) n → n ∈ names ss → ∃ s, s ∈ ss ∧ deps_of s = []) as Hsafe.
  { intros n Hn. induction Hn as [n _ IH]. intros (s & -> & Hs)%list_elem_of_fmap.
    destruct (deps_of s) as [|dep deps] eqn:Hd; [by exists s|].
    assert (depends ss (StepSpec.Name s) dep) as Hdep.
    { exists s. split_and!; [done..|]. rewrite Hd. by constructor. }
    apply (IH dep); [exact (depends_edge ss _ _ Hnd Hdep)|]. by apply (Hdeps _ _ Hdep). }
  destruct ss as [|s ss]; [done|].
  assert (StepSpec.Name s ∈ names (s :: ss)) as Hin by (apply list_elem_of_fmap; eexists; split; [done|by constructor]).
  apply (Hsafe (StepSpec.Name s)); [|done].
  apply acyclic_safe; [done| |done|done]. intros a b Hab. apply (Hdeps a b Hab).
Qed.

Lemma acyclic_has_root_witness : ∃ s, s ∈ diamond ∧ deps_of s = [].
Proof.
  apply (acyclic_has_root diamond).
  - discriminate.
  - exact diamond_NoDup.
  - intros a b Hab. split; [|exact (diamond_deps a b Hab)].
    destruct Hab as (s & Hs & _ & Hb). unfold diamond in Hs.
    repeat (apply elem_of_cons in Hs as [->|Hs];
      [unfold mk_step, deps_of in Hb; simpl in Hb; set_solver|]).
    by apply elem_of_nil in Hs.
  - exact diamond_acyclic.
Defined.
End Workflowdsl.
