(* ===== verification/Engine.v ===== *)
(** internal/engine: run creation, DAG evaluation ([reconcileTx] and its three
    phases), task results, retry timers, signals, cancellation, lease reaping
    and recovery.  Every function is written against the [Queries]/[Store]
    interface of Types.v, as in the source.

    Pointers: a [*store.Step] held by the run state or returned by a getter is
    a private copy of the row; functions that update such a copy return the
    updated value. *)

From stdpp Require Import gmap strings list.
From S2P Require Import Prelude GoLib Json Types Dsl.
Open Scope Z_scope.

Module Engine.
Import Strings.

(** * engine.go: constants and sharding *)

Definition NumShards : Z := 256.
Definition DefaultLeaseDuration : Z := 30 * 1000000000.

Definition uuid_bytes (id : uuid) : list Z :=
  (λ i, Z.of_N id / 256 ^ (15 - Z.of_nat i) mod 256) <$> seq 0 16.

Definition ShardFor (id : uuid) : Z := fnv32a (uuid_bytes id) mod NumShards.

(** * Local copies *)

Definition set_Status (s : Step.t) (st : StepStatus) : Step.t :=
  Step.mk (Step.ID s) (Step.WorkflowRunID s) (Step.StepName s) (Step.TaskType s)
    (Step.DependsOn s) st (Step.AttemptCount s) (Step.MaxAttempts s) (Step.Input s)
    (Step.Output s) (Step.Error s) (Step.InitialBackoffMS s) (Step.BackoffMultiplier s)
    (Step.MaxBackoffMS s) (Step.TimeoutSeconds s) (Step.CreatedAt s) (Step.StartedAt s)
    (Step.CompletedAt s).
Definition set_Output (s : Step.t) (o : RawMessage) : Step.t :=
  Step.mk (Step.ID s) (Step.WorkflowRunID s) (Step.StepName s) (Step.TaskType s)
    (Step.DependsOn s) (Step.Status s) (Step.AttemptCount s) (Step.MaxAttempts s) (Step.Input s)
    o (Step.Error s) (Step.InitialBackoffMS s) (Step.BackoffMultiplier s)
    (Step.MaxBackoffMS s) (Step.TimeoutSeconds s) (Step.CreatedAt s) (Step.StartedAt s)
    (Step.CompletedAt s).
Definition set_AttemptCount (s : Step.t) (n : Z) : Step.t :=
  Step.mk (Step.ID s) (Step.WorkflowRunID s) (Step.StepName s) (Step.TaskType s)
    (Step.DependsOn s) (Step.Status s) n (Step.MaxAttempts s) (Step.Input s)
    (Step.Output s) (Step.Error s) (Step.InitialBackoffMS s) (Step.BackoffMultiplier s)
    (Step.MaxBackoffMS s) (Step.TimeoutSeconds s) (Step.CreatedAt s) (Step.StartedAt s)
    (Step.CompletedAt s).

(** * The run state of one reconcile pass

    [runState.byName]; the second map of the source, [byID], is filled and
    never read. *)
Abbreviation runState := (gmap string Step.t).

Definition newRunState (steps : list Step.t) : runState :=
  foldl (λ m s, <[Step.StepName s := s]> m) ∅ steps.

Definition values (rs : runState) : list Step.t := (map_to_list rs).*2.
Definition keys (rs : runState) : list string := (map_to_list rs).*1.

Definition allTerminal (rs : runState) : bool :=
  forallb (λ s, StepTerminal (Step.Status s)) (values rs).

Definition anyDispatchedOrRunning (rs : runState) : bool :=
  existsb (λ s, match Step.Status s with
                | StepQueued | StepRunning | StepRetryBackoff | StepWaiting | StepCompleted => true
                | _ => false
                end) (values rs).

(** [s.Status == StepPending || s.Status == StepReady] *)
Definition undispatched (s : Step.t) : bool :=
  match Step.Status s with StepPending | StepReady => true | _ => false end.

(** Some dependency has failed, been skipped or been cancelled. *)
Definition blocked (rs : runState) (s : Step.t) : bool :=
  existsb (λ dep, match rs !! dep with
                  | None => false
                  | Some d => match Step.Status d with
                              | StepFailed | StepSkipped | StepCancelled => true
                              | _ => false
                              end
                  end) (Step.DependsOn s).

(** Every dependency is known and COMPLETED. *)
Definition ready (rs : runState) (s : Step.t) : bool :=
  forallb (λ dep, match rs !! dep with
                  | None => false
                  | Some d => bool_decide (Step.Status d = StepCompleted)
                  end) (Step.DependsOn s).

Definition signalWaitTaskType : string := "signal_wait".

(** [json.Unmarshal(s.Input, &cfg)] with the error dropped. *)
Definition signal_name_cfg (input : RawMessage) : string :=
  match input with
  | Some (Text j) =>
      (dec_struct (λ key v cur, if key_matches "signal_name" key then dec_string cur v
                                else (cur, false)) "" j).1
  | _ => ""
  end.

Definition wantName (s : Step.t) : string :=
  if raw_empty (Step.Input s) then Step.StepName s
  else
    let n := signal_name_cfg (Step.Input s) in
    if decide (n = "") then Step.StepName s else n.

Definition jstep (s : Step.t) : string * json := ("step", JStr (Step.StepName s)).

(** * Back-off *)

(** [computeBackoff(step, attemptsMade)], [r] being [rand.Float64()]. *)
Definition computeBackoff (s : Step.t) (attemptsMade : Z) (r : float64) : Z :=
  let base := F64.mul (F64.of_Z (Step.InitialBackoffMS s))
                (F64.Pow (Step.BackoffMultiplier s) (attemptsMade - 1)) in
  let cap := F64.of_Z (Step.MaxBackoffMS s) in
  let base := if F64.ltb cap base then cap else base in
  let jitter := F64.mul base (F64.add F64.c0_8 (F64.mul F64.c0_4 r)) in
  wrap64 (F64.to_int64 jitter * 1000000).

Definition Milliseconds (d : Z) : Z := Z.quot d 1000000.

Section engine.
Context `{Env} `{!Store}.

Definition wrap_err {A} (msg : string) (m : GoM World A) : GoM World A :=
  λ w, match m w with
       | (Err e, w') => (Err (Wrapf msg e), w')
       | r => r
       end.

(** * reconcile.go: the three phases *)

(** One iteration of the inner loop of [propagateSkips]. *)
Definition skip_one (run : WorkflowRun.t) (acc : runState * bool) (name : string)
    : GoM World (runState * bool) :=
  let '(rs, changed) := acc in
  match rs !! name with
  | None => mret acc
  | Some s =>
      if negb (undispatched s) then mret acc
      else if negb (blocked rs s) then mret acc
      else
        ok ← UpdateStepStatus (Step.ID s) [Step.Status s] StepSkipped None None false;
        if ok : bool then
          _ ← AppendHistory (WorkflowRun.ID run) "step_skipped" (mustJSON [jstep s]);
          mret (<[name := set_Status s StepSkipped]> rs, true)
        else mret acc
  end.

(** The passes: at most [fuel], stopping after one that changed nothing. *)
Fixpoint skip_passes (run : WorkflowRun.t) (fuel : nat) (rs : runState) : GoM World runState :=
  match fuel with
  | O => mret rs
  | S fuel =>
      order ← range_map (keys rs);
      '(rs', changed) ← foldM (skip_one run) (rs, false) order;
      if changed : bool then skip_passes run fuel rs' else mret rs'
  end.

Definition propagateSkips (run : WorkflowRun.t) (rs : runState) : GoM World runState :=
  skip_passes run (size rs + 1) rs.

(** The loop over the unprocessed signals in [tryResolveSignalWait]. *)
Fixpoint try_signals (run : WorkflowRun.t) (want : string) (s : Step.t) (sigs : list Signal.t)
    : GoM World (Step.t * bool) :=
  match sigs with
  | [] => mret (s, false)
  | sig :: sigs' =>
      if decide (Signal.SignalName sig = want) then
        applied ← MarkSignalProcessed (Signal.ID sig);
        if negb applied then try_signals run want s sigs'
        else
          ok ← UpdateStepStatus (Step.ID s) [Step.Status s] StepCompleted
                 (Signal.Payload sig) None false;
          if ok : bool then
            _ ← AppendHistory (WorkflowRun.ID run) "step_completed_by_signal"
                  (mustJSON [jstep s; ("signal", JStr (Signal.SignalName sig))]);
            mret (set_Output (set_Status s StepCompleted) (Signal.Payload sig), true)
          else mret (s, true)
      else try_signals run want s sigs'
  end.

Definition tryResolveSignalWait (run : WorkflowRun.t) (s : Step.t) : GoM World (Step.t * bool) :=
  sigs ← ListUnprocessedSignals (WorkflowRun.ID run);
  try_signals run (wantName s) s sigs.

Definition dispatchStep (run : WorkflowRun.t) (s : Step.t) (from : list StepStatus)
    : GoM World Step.t :=
  let attemptNumber := Step.AttemptCount s + 1 in
  let queueName := "wf:tasks:" +:+ Step.TaskType s in
  attempt ← wrap_err "engine: create task attempt"
              (CreateTaskAttempt (Step.ID s) (WorkflowRun.ID run) attemptNumber queueName);
  match marshal_raw (Step.Input s) with
  | None => fail (Errorf "json: error calling MarshalJSON for type json.RawMessage")
  | Some input =>
      let payload := TaskPayload.mk (TaskAttempt.ID attempt) (Step.ID s) (WorkflowRun.ID run)
        (Step.StepName s) (Step.TaskType s) input attemptNumber
        (TaskAttempt.IdempotencyKey attempt) (Step.TimeoutSeconds s) in
      _ ← wrap_err "engine: insert outbox"
            (InsertOutboxMessage (NewOutboxMessage.mk "task_attempt" (TaskAttempt.ID attempt)
               (WorkflowRun.ShardID run) queueName payload));
      ok ← UpdateStepStatus (Step.ID s) from StepQueued None None true;
      if negb ok then
        fail (Errorf ("engine: step " +:+ Step.StepName s +:+
                      " changed status concurrently during dispatch"))
      else
        let s' := set_AttemptCount (set_Status s StepQueued) attemptNumber in
        _ ← AppendHistory (WorkflowRun.ID run) "step_dispatched"
              (mustJSON [jstep s; ("attempt", JInt attemptNumber);
                         ("task_type", JStr (Step.TaskType s))]);
        mret s'
  end.

(** First loop of [dispatchReady]: steps parked in WAITING. *)
Definition resolve_one (run : WorkflowRun.t) (rs : runState) (name : string)
    : GoM World runState :=
  match rs !! name with
  | None => mret rs
  | Some s =>
      if decide (Step.Status s = StepWaiting) then
        '(s', _) ← tryResolveSignalWait run s;
        mret (<[name := s']> rs)
      else mret rs
  end.

(** Second loop of [dispatchReady]: PENDING/READY steps whose dependencies are
    all COMPLETED. *)
Definition dispatch_one (run : WorkflowRun.t) (rs : runState) (name : string)
    : GoM World runState :=
  match rs !! name with
  | None => mret rs
  | Some s =>
      if negb (undispatched s) then mret rs
      else if negb (ready rs s) then mret rs
      else if decide (Step.TaskType s = signalWaitTaskType) then
        '(s', resolved) ← tryResolveSignalWait run s;
        if resolved : bool then mret (<[name := s']> rs)
        else
          ok ← UpdateStepStatus (Step.ID s) [Step.Status s] StepWaiting None None false;
          if ok : bool then mret (<[name := set_Status s StepWaiting]> rs) else mret rs
      else
        s' ← dispatchStep run s [Step.Status s];
        mret (<[name := s']> rs)
  end.

Definition dispatchReady (run : WorkflowRun.t) (rs : runState) : GoM World runState :=
  order1 ← range_map (keys rs);
  rs1 ← foldM (resolve_one run) rs order1;
  order2 ← range_map (keys rs1);
  foldM (dispatch_one run) rs1 order2.

(** [json.Marshal(outputs)] with the error dropped: nil when some output is
    not valid JSON. *)
Definition marshal_outputs (outs : list (string * RawMessage)) : RawMessage :=
  match mapM (λ kv, (λ j, (kv.1, j)) <$> marshal_raw kv.2) outs with
  | Some kvs => Some (Text (marshal_map kvs))
  | None => None
  end.

Definition failure_message (s : Step.t) : string :=
  match Step.Error s with
  | None => "step " +:+ Quote (Step.StepName s) +:+ " failed"
  | Some e => "step " +:+ Quote (Step.StepName s) +:+ " failed: " +:+ e
  end.

Definition outputs_of (l : list Step.t) : list (string * RawMessage) :=
  (λ s, (Step.StepName s, Step.Output s)) <$>
    List.filter (λ s, bool_decide (Step.Status s = StepCompleted)) l.

Definition has_status (st : StepStatus) (s : Step.t) : bool := bool_decide (Step.Status s = st).

(** One terminal transition of [checkRunCompletion]; a failing history append
    is ignored. *)
Definition finish_run (run : WorkflowRun.t) (next : RunStatus) (output : RawMessage)
    (errMsg : option string) (event : string) (payload : RawMessage) : GoM World unit :=
  ok ← UpdateWorkflowRunStatus (WorkflowRun.ID run) [RunPending; RunRunning] next output errMsg;
  if ok : bool then
    _ ← catch (AppendHistory (WorkflowRun.ID run) event payload);
    mret tt
  else mret tt.

Definition checkRunCompletion (run : WorkflowRun.t) (rs : runState) : GoM World unit :=
  _ ← (if bool_decide (WorkflowRun.Status run = RunPending) && anyDispatchedOrRunning rs then
         ok ← UpdateWorkflowRunStatus (WorkflowRun.ID run) [RunPending] RunRunning None None;
         if ok : bool then
           _ ← AppendHistory (WorkflowRun.ID run) "run_started" None;
           mret tt
         else mret tt
       else mret tt);
  if negb (allTerminal rs) then mret tt
  else
    order ← range_map (values rs);
    let outputJSON := marshal_outputs (outputs_of order) in
    _ ← match find (has_status StepFailed) order with
        | Some f =>
            let errMsg := failure_message f in
            finish_run run RunFailed outputJSON (Some errMsg) "run_failed"
              (mustJSON [("error", JStr errMsg)])
        | None =>
            if existsb (has_status StepCancelled) order
            then finish_run run RunCancelled outputJSON None "run_cancelled" None
            else finish_run run RunCompleted outputJSON None "run_completed" None
        end;
    CancelTimersForRun (WorkflowRun.ID run).

Definition reconcileTx (run : WorkflowRun.t) (steps : list Step.t) : GoM World unit :=
  if RunTerminal (WorkflowRun.Status run) then mret tt
  else
    rs1 ← propagateSkips run (newRunState steps);
    rs2 ← dispatchReady run rs1;
    checkRunCompletion run rs2.

(** [GetSteps] of the run followed by [reconcileTx]: the common ending. *)
Definition reconcile_run (run : WorkflowRun.t) : GoM World unit :=
  steps ← GetSteps (WorkflowRun.ID run);
  reconcileTx run steps.

(** * Entry points *)

Definition Reconcile (runID : uuid) : GoM World unit :=
  WithTx (
    run ← GetWorkflowRun runID;
    steps ← GetSteps runID;
    reconcileTx run steps).

Definition handleAttemptOutcome (attempt : TaskAttempt.t) (success : bool) (output : RawMessage)
    (errMsg : option string) : GoM World unit :=
  step ← GetStep (TaskAttempt.StepID attempt);
  run ← GetWorkflowRun (TaskAttempt.WorkflowRunID attempt);
  let jattempt := ("attempt", JInt (TaskAttempt.AttemptNumber attempt)) in
  _ ← (if success then
         ok ← UpdateStepStatus (Step.ID step) [StepQueued; StepRunning] StepCompleted
                output None false;
         if ok : bool then
           _ ← AppendHistory (WorkflowRun.ID run) "step_completed"
                 (mustJSON [jstep step; jattempt]);
           mret tt
         else mret tt
       else if Step.AttemptCount step <? Step.MaxAttempts step then
         r ← rand_float;
         let backoff := computeBackoff step (Step.AttemptCount step) r in
         n ← now;
         _ ← InsertTimer (NewTimer.mk (WorkflowRun.ID run) (Some (Step.ID step))
               (WorkflowRun.ShardID run) TimerRetryBackoff
               (mustJSON [("step_id", JStr (uuid_String (Step.ID step)))]) (n + backoff));
         ok ← UpdateStepStatus (Step.ID step) [StepQueued; StepRunning] StepRetryBackoff
                None errMsg false;
         if ok : bool then
           _ ← AppendHistory (WorkflowRun.ID run) "step_retry_scheduled"
                 (mustJSON [jstep step; jattempt; ("backoff_ms", JInt (Milliseconds backoff))]);
           mret tt
         else mret tt
       else
         ok ← UpdateStepStatus (Step.ID step) [StepQueued; StepRunning] StepFailed
                None errMsg false;
         if ok : bool then
           _ ← AppendHistory (WorkflowRun.ID run) "step_failed"
                 (mustJSON [jstep step; jattempt]);
           mret tt
         else mret tt);
  reconcile_run run.

(** Returns [accepted]. *)
Definition HandleTaskResult (attemptID : uuid) (workerID : string) (success : bool)
    (output : RawMessage) (errMsg : option string) : GoM World bool :=
  WithTx (
    '(attempt, applied) ← CompleteTaskAttempt attemptID workerID success output errMsg;
    match applied, attempt with
    | true, Some a => _ ← handleAttemptOutcome a success output errMsg; mret true
    | _, _ => mret false
    end).

Definition handleRetryTimerFired (timer : Timer.t) : GoM World unit :=
  match Timer.StepID timer with
  | None => mret tt
  | Some stepID =>
      step ← GetStep stepID;
      run ← GetWorkflowRun (Timer.WorkflowRunID timer);
      if negb (bool_decide (Step.Status step = StepRetryBackoff)) ||
         RunTerminal (WorkflowRun.Status run)
      then mret tt
      else
        _ ← dispatchStep run step [StepRetryBackoff];
        reconcile_run run
  end.

Definition HandleFiredTimer (timerID : uuid) : GoM World unit :=
  WithTx (
    '(timer, applied) ← FireTimerCAS timerID;
    match applied, timer with
    | true, Some tm =>
        match Timer.Kind tm with
        | TimerRetryBackoff => handleRetryTimerFired tm
        | TimerStepTimeout | TimerUser =>
            run ← GetWorkflowRun (Timer.WorkflowRunID tm);
            reconcile_run run
        end
    | _, _ => mret tt
    end).

(** Returns the number reaped; a failing transaction is logged and skipped. *)
Definition ReapExpiredLeases (limit : Z) : GoM World Z :=
  expired ← ReapExpiredAttempts limit;
  _ ← foldM (λ _ attempt,
        _ ← catch (WithTx (handleAttemptOutcome attempt false None
               (Some "task lease expired (worker unresponsive)")));
        mret tt) tt expired;
  mret (Z.of_nat (length expired)).

Definition CancelRun (runID : uuid) : GoM World unit :=
  WithTx (
    run ← GetWorkflowRun runID;
    if RunTerminal (WorkflowRun.Status run) then mret tt
    else
      steps ← GetSteps runID;
      _ ← foldM (λ _ s,
            if StepTerminal (Step.Status s) then mret tt
            else _ ← UpdateStepStatus (Step.ID s) [Step.Status s] StepCancelled None None false;
                 mret tt) tt steps;
      _ ← CancelTimersForRun runID;
      _ ← UpdateWorkflowRunStatus runID [RunPending; RunRunning] RunCancelled None None;
      _ ← AppendHistory runID "run_cancelled" None;
      mret tt).

Definition ApplySignal (runID : uuid) (name : string) (payload : RawMessage) : GoM World unit :=
  if decide (name = "__cancel__") then CancelRun runID
  else WithTx (
    _ ← InsertSignal runID name payload;
    run ← GetWorkflowRun runID;
    _ ← AppendHistory runID "signal_received" (mustJSON [("name", JStr name)]);
    steps ← GetSteps runID;
    reconcileTx run steps).

(** Returns the number of runs; a failing reconcile is logged and skipped. *)
Definition RecoverShards (shardIDs : option (list Z)) : GoM World Z :=
  runs ← ListRunningRunsForShards shardIDs;
  _ ← foldM (λ _ r, _ ← catch (Reconcile (WorkflowRun.ID r)); mret tt) tt runs;
  mret (Z.of_nat (length runs)).

(** * engine.go: definitions and runs *)

(** The argument is updated in place by [Validate]. *)
Definition RegisterDefinition (def : Definition_.t) : GoM World WorkflowDefinition.t :=
  match Workflowdsl.Validate def with
  | (_, Some e) => fail e
  | (def', None) =>
      match Workflowdsl.ToJSON def' with
      | None => fail (Errorf "json: unsupported value")
      | Some dagJSON =>
          CreateWorkflowDefinition (Definition_.Name def') (Definition_.Version def')
            (Some (Text dagJSON))
      end
  end.

Definition lookup_definition (name : string) (version : Z) : GoM World WorkflowDefinition.t :=
  wrap_err ("engine: lookup definition " +:+ name)
    (if 0 <? version then GetWorkflowDefinition name version
     else GetLatestWorkflowDefinition name).

Definition CreateRun (name : string) (version : Z) (input : RawMessage)
    : GoM World WorkflowRun.t :=
  def ← lookup_definition name version;
  match Workflowdsl.unmarshal_Definition (WorkflowDefinition.DAG def) with
  | None => fail (Errorf "engine: decode stored dag")
  | Some parsed =>
      let input := match input with None => empty_object | i => i end in
      runID ← WithTx (
        id ← new_uuid;
        run ← CreateWorkflowRun id (WorkflowDefinition.ID def) name
                (WorkflowDefinition.Version def) (ShardFor id) input;
        steps ← CreateSteps (WorkflowRun.ID run) (Workflowdsl.ToNewSteps parsed);
        _ ← AppendHistory (WorkflowRun.ID run) "run_created"
              (mustJSON [("name", JStr name); ("version", JInt (WorkflowDefinition.Version def));
                         ("steps", JInt (Z.of_nat (length steps)))]);
        _ ← reconcileTx run steps;
        mret (WorkflowRun.ID run));
      GetWorkflowRun runID
  end.
End engine.
End Engine.
