(* ===== verification/Lifecycle.v ===== *)
(** The workflow life cycle as a state machine: the abstract specification the
    engine is proved to implement (Reconcile.v, EngineSpec.v, EngineOps.v, RunCreate.v).

    A configuration is the tables together with two pieces of bookkeeping that no
    table records: the set [owed] of task attempts that have ended (SUCCEEDED,
    FAILED, EXPIRED) while the step they belong to has not yet been told the
    outcome, and the step [fired] whose retry timer has fired but which has not
    been dispatched again.  [trans] lists the moves of the system; [Inv] is the
    invariant they preserve. *)

From stdpp Require Import gmap strings list relations.
From S2P Require Import Prelude GoLib Json Types MemStore Dsl.
Open Scope Z_scope.

Module Lifecycle.
Import Memory.

(** * Vocabulary *)

Record Cfg := mkCfg { tables : Tables; owed : gset uuid; fired : option uuid }.

Abbreviation steps_map := (gmap uuid Step.t).
Abbreviation attempts_map := (gmap uuid TaskAttempt.t).

Definition live (st : AttemptStatus) : bool :=
  match st with AttemptQueued | AttemptLeased => true | _ => false end.

(** An attempt ends from LEASED, with one of three results. *)
Definition ended (st : AttemptStatus) : bool :=
  match st with AttemptSucceeded | AttemptFailed | AttemptExpired => true | _ => false end.

(** Ended without success. *)
Definition lost (st : AttemptStatus) : bool :=
  match st with AttemptFailed | AttemptExpired => true | _ => false end.

(** PENDING or READY *)
Definition fresh_status (st : StepStatus) : bool :=
  match st with StepPending | StepReady => true | _ => false end.

(** QUEUED or RUNNING *)
Definition busy (st : StepStatus) : bool :=
  match st with StepQueued | StepRunning => true | _ => false end.

(** Statuses that presuppose completed dependencies. *)
Definition started (st : StepStatus) : bool :=
  match st with
  | StepWaiting | StepQueued | StepRunning | StepRetryBackoff | StepCompleted | StepFailed => true
  | _ => false
  end.

(** Statuses of a dependency that block its dependents. *)
Definition dead (st : StepStatus) : bool :=
  match st with StepFailed | StepSkipped | StepCancelled => true | _ => false end.

(** Run [rid] has a step called [name] whose status satisfies [P]. *)
Definition dep_in (ss : steps_map) (rid : uuid) (name : string) (P : StepStatus → bool) : Prop :=
  ∃ id s, ss !! id = Some s ∧ Step.WorkflowRunID s = rid ∧ Step.StepName s = name ∧
          P (Step.Status s) = true.

Definition is_completed (st : StepStatus) : bool := bool_decide (st = StepCompleted).

(** The fields of a step, attempt or run row that never change. *)
Record same_step (s' s : Step.t) : Prop := {
  st_ID : Step.ID s' = Step.ID s;
  st_run : Step.WorkflowRunID s' = Step.WorkflowRunID s;
  st_name : Step.StepName s' = Step.StepName s;
  st_type : Step.TaskType s' = Step.TaskType s;
  st_deps : Step.DependsOn s' = Step.DependsOn s;
  st_max : Step.MaxAttempts s' = Step.MaxAttempts s;
  st_input : Step.Input s' = Step.Input s
}.

Record same_attempt (a' a : TaskAttempt.t) : Prop := {
  at_ID : TaskAttempt.ID a' = TaskAttempt.ID a;
  at_step : TaskAttempt.StepID a' = TaskAttempt.StepID a;
  at_run : TaskAttempt.WorkflowRunID a' = TaskAttempt.WorkflowRunID a;
  at_number : TaskAttempt.AttemptNumber a' = TaskAttempt.AttemptNumber a;
  at_key : TaskAttempt.IdempotencyKey a' = TaskAttempt.IdempotencyKey a;
  at_queue : TaskAttempt.QueueName a' = TaskAttempt.QueueName a
}.

Record same_run (r' r : WorkflowRun.t) : Prop := {
  rn_ID : WorkflowRun.ID r' = WorkflowRun.ID r;
  rn_def : WorkflowRun.DefinitionID r' = WorkflowRun.DefinitionID r;
  rn_name : WorkflowRun.Name r' = WorkflowRun.Name r;
  rn_version : WorkflowRun.Version r' = WorkflowRun.Version r;
  rn_shard : WorkflowRun.ShardID r' = WorkflowRun.ShardID r;
  rn_input : WorkflowRun.Input r' = WorkflowRun.Input r
}.

(** [dep] is a direct dependency of the step called [name] of run [rid]. *)
Definition dep_edge (ss : steps_map) (rid : uuid) (dep name : string) : Prop :=
  ∃ id s, ss !! id = Some s ∧ Step.WorkflowRunID s = rid ∧ Step.StepName s = name ∧
          dep ∈ Step.DependsOn s.

Definition any_status (_ : StepStatus) : bool := true.

Definition deps_completed (ss : steps_map) (s : Step.t) : Prop :=
  ∀ dep, dep ∈ Step.DependsOn s → dep_in ss (Step.WorkflowRunID s) dep is_completed.

Definition dep_blocked (ss : steps_map) (s : Step.t) : Prop :=
  ∃ dep, dep ∈ Step.DependsOn s ∧ dep_in ss (Step.WorkflowRunID s) dep dead.

(** * The invariant *)

(** The attempt counter fits the status. *)
Definition count_ok (s : Step.t) : Prop :=
  match Step.Status s with
  | StepPending | StepReady | StepSkipped | StepWaiting => Step.AttemptCount s = 0
  | StepQueued | StepRunning => 1 ≤ Step.AttemptCount s ≤ Step.MaxAttempts s
  | StepRetryBackoff => 1 ≤ Step.AttemptCount s < Step.MaxAttempts s
  | StepFailed => Step.AttemptCount s = Step.MaxAttempts s
  | StepCompleted | StepCancelled => 0 ≤ Step.AttemptCount s ≤ Step.MaxAttempts s
  end.

(** A run with a skipped step has a failed or cancelled one. *)
Definition skip_justified (ss : steps_map) (s : Step.t) : Prop :=
  ∃ id t, ss !! id = Some t ∧ Step.WorkflowRunID t = Step.WorkflowRunID s ∧
          (Step.Status t = StepFailed ∨ Step.Status t = StepCancelled).

Definition awaits_signal (s : Step.t) : Prop := Step.TaskType s = "signal_wait".

Record steps_inv (ss : steps_map) : Prop := {
  si_key : ∀ id s, ss !! id = Some s → Step.ID s = id;
  si_name : ∀ i j s t, ss !! i = Some s → ss !! j = Some t →
    Step.WorkflowRunID s = Step.WorkflowRunID t → Step.StepName s = Step.StepName t → i = j;
  si_input : ∀ id s, ss !! id = Some s → marshal_raw (Step.Input s) ≠ None;
  si_closed : ∀ id s dep, ss !! id = Some s → dep ∈ Step.DependsOn s →
    dep_in ss (Step.WorkflowRunID s) dep any_status;
  si_acyclic : ∀ rid, well_founded (dep_edge ss rid);
  si_max : ∀ id s, ss !! id = Some s → 1 ≤ Step.MaxAttempts s;
  si_deps : ∀ id s, ss !! id = Some s → started (Step.Status s) = true → deps_completed ss s;
  si_count : ∀ id s, ss !! id = Some s → count_ok s;
  si_skip : ∀ id s, ss !! id = Some s → Step.Status s = StepSkipped → skip_justified ss s;
  si_wait : ∀ id s, ss !! id = Some s → Step.Status s = StepWaiting → awaits_signal s
}.

Record att_inv (ss : steps_map) (aa : attempts_map) (owed : gset uuid) : Prop := {
  ai_key : ∀ id a, aa !! id = Some a → TaskAttempt.ID a = id;
  ai_step : ∀ id a, aa !! id = Some a → ∃ s, ss !! TaskAttempt.StepID a = Some s ∧
    Step.WorkflowRunID s = TaskAttempt.WorkflowRunID a ∧
    1 ≤ TaskAttempt.AttemptNumber a ≤ Step.AttemptCount s;
  ai_uniq : ∀ i j a b, aa !! i = Some a → aa !! j = Some b →
    TaskAttempt.StepID a = TaskAttempt.StepID b →
    TaskAttempt.AttemptNumber a = TaskAttempt.AttemptNumber b → i = j;
  ai_all : ∀ sid s k, ss !! sid = Some s → 1 ≤ k ≤ Step.AttemptCount s →
    ∃ id a, aa !! id = Some a ∧ TaskAttempt.StepID a = sid ∧ TaskAttempt.AttemptNumber a = k;
  ai_current : ∀ id a s, aa !! id = Some a → live (TaskAttempt.Status a) = true ∨ id ∈ owed →
    ss !! TaskAttempt.StepID a = Some s →
    TaskAttempt.AttemptNumber a = Step.AttemptCount s ∧
    (busy (Step.Status s) = true ∨ Step.Status s = StepCancelled);
  ai_owed : ∀ id, id ∈ owed → ∃ a, aa !! id = Some a ∧ ended (TaskAttempt.Status a) = true;
  ai_busy : ∀ sid s, ss !! sid = Some s → busy (Step.Status s) = true →
    ∃ id a, aa !! id = Some a ∧ TaskAttempt.StepID a = sid ∧
      TaskAttempt.AttemptNumber a = Step.AttemptCount s ∧
      (live (TaskAttempt.Status a) = true ∨ id ∈ owed)
}.

(** The result of a step comes from its last attempt, or from a signal. *)
Definition result_ok (aa : attempts_map) (sid : uuid) (s : Step.t) : Prop :=
  match Step.Status s with
  | StepCompleted => awaits_signal s ∨ ∃ id a, aa !! id = Some a ∧ TaskAttempt.StepID a = sid ∧
      TaskAttempt.AttemptNumber a = Step.AttemptCount s ∧ TaskAttempt.Status a = AttemptSucceeded
  | StepFailed => ∃ id a, aa !! id = Some a ∧ TaskAttempt.StepID a = sid ∧
      TaskAttempt.AttemptNumber a = Step.AttemptCount s ∧ lost (TaskAttempt.Status a) = true
  | _ => True
  end.

Definition results_inv (ss : steps_map) (aa : attempts_map) : Prop :=
  map_Forall (result_ok aa) ss.

(** The outbox row that announces attempt [a]. *)
Definition announces (m : OutboxMessage.t) (a : TaskAttempt.t) : Prop :=
  let p := OutboxMessage.Payload m in
  OutboxMessage.AggregateID m = TaskAttempt.ID a ∧
  OutboxMessage.StreamName m = TaskAttempt.QueueName a ∧
  TaskPayload.TaskAttemptID p = TaskAttempt.ID a ∧
  TaskPayload.StepID p = TaskAttempt.StepID a ∧
  TaskPayload.WorkflowRunID p = TaskAttempt.WorkflowRunID a ∧
  TaskPayload.AttemptNumber p = TaskAttempt.AttemptNumber a ∧
  TaskPayload.IdempotencyKey p = TaskAttempt.IdempotencyKey a.

Record out_inv (aa : attempts_map) (ob : gmap Z OutboxMessage.t) (next : Z) : Prop := {
  oi_key : ∀ k m, ob !! k = Some m → OutboxMessage.ID m = k ∧ k ≤ next;
  oi_sound : ∀ k m, ob !! k = Some m →
    ∃ a, aa !! OutboxMessage.AggregateID m = Some a ∧ announces m a;
  oi_complete : ∀ id a, aa !! id = Some a →
    ∃ k m, ob !! k = Some m ∧ OutboxMessage.AggregateID m = id;
  oi_uniq : ∀ k l m n, ob !! k = Some m → ob !! l = Some n →
    OutboxMessage.AggregateID m = OutboxMessage.AggregateID n → k = l
}.

Definition steps_of_run (ss : steps_map) (rid : uuid) (P : Step.t → Prop) : Prop :=
  ∀ id s, ss !! id = Some s → Step.WorkflowRunID s = rid → P s.

(** What a terminal run status says about the steps of the run. *)
Definition verdict_ok (ss : steps_map) (rid : uuid) (st : RunStatus) : Prop :=
  match st with
  | RunPending | RunRunning => True
  | RunCompleted => steps_of_run ss rid (λ s, Step.Status s = StepCompleted)
  | RunFailed =>
      steps_of_run ss rid (λ s, StepTerminal (Step.Status s) = true) ∧
      ∃ id s, ss !! id = Some s ∧ Step.WorkflowRunID s = rid ∧ Step.Status s = StepFailed
  | RunCancelled => steps_of_run ss rid (λ s, StepTerminal (Step.Status s) = true)
  end.

Record runs_inv (rr : gmap uuid WorkflowRun.t) (ss : steps_map) : Prop := {
  ri_key : ∀ id r, rr !! id = Some r → WorkflowRun.ID r = id;
  ri_step : ∀ id s, ss !! id = Some s → is_Some (rr !! Step.WorkflowRunID s);
  ri_verdict : ∀ id r, rr !! id = Some r → verdict_ok ss id (WorkflowRun.Status r)
}.

(** The history of a run is numbered 1, 2, ... up to its [HistorySeq]. *)
Record hist_inv (rr : gmap uuid WorkflowRun.t) (hh : gmap uuid (list HistoryEvent.t)) : Prop := {
  hi_run : ∀ id, is_Some (hh !! id) → is_Some (rr !! id);
  hi_seq : ∀ id r, rr !! id = Some r →
    HistoryEvent.Seq <$> default [] (hh !! id) =
      (λ n, Z.of_nat n) <$> seq 1 (Z.to_nat (WorkflowRun.HistorySeq r)) ∧
    0 ≤ WorkflowRun.HistorySeq r
}.

(** [t] will re-dispatch step [sid] when it fires. *)
Definition retries (t : Timer.t) (sid : uuid) : bool :=
  bool_decide (Timer.Kind t = TimerRetryBackoff) && bool_decide (Timer.Status t = TimerPending) &&
  bool_decide (Timer.StepID t = Some sid).

Record timers_inv (tt : gmap uuid Timer.t) (rr : gmap uuid WorkflowRun.t) (ss : steps_map)
    (fired : option uuid) : Prop := {
  ti_key : ∀ id t, tt !! id = Some t → Timer.ID t = id;
  ti_run : ∀ id t, tt !! id = Some t → is_Some (rr !! Timer.WorkflowRunID t);
  ti_step : ∀ id t sid, tt !! id = Some t → Timer.StepID t = Some sid →
    ∃ s, ss !! sid = Some s ∧ Step.WorkflowRunID s = Timer.WorkflowRunID t;
  ti_retry : ∀ sid s, ss !! sid = Some s → Step.Status s = StepRetryBackoff →
    fired = Some sid ∨ ∃ id t, tt !! id = Some t ∧ retries t sid = true;
  ti_fired : ∀ sid, fired = Some sid → is_Some (ss !! sid)
}.

(** A stored definition decodes to a validated workflow. *)
Definition def_ok (def : WorkflowDefinition.t) : Prop := ∃ p,
  Workflowdsl.unmarshal_Definition (WorkflowDefinition.DAG def) = Some p ∧
  Workflowdsl.WellFormed p ∧ Forall Workflowdsl.step_sane (Workflowdsl.steps_of p) ∧
  Forall (λ s, marshal_raw (StepSpec.Input s) ≠ None) (Workflowdsl.steps_of p).

Definition defs_inv (defs : gmap uuid WorkflowDefinition.t) : Prop :=
  map_Forall (λ _, def_ok) defs.

Record Inv (c : Cfg) : Prop := {
  inv_steps : steps_inv (steps (tables c));
  inv_att : att_inv (steps (tables c)) (attempts (tables c)) (owed c);
  inv_out : out_inv (attempts (tables c)) (outbox (tables c)) (nextOutboxID (tables c));
  inv_runs : runs_inv (runs (tables c)) (steps (tables c));
  inv_hist : hist_inv (runs (tables c)) (history (tables c));
  inv_timers : timers_inv (timers (tables c)) (runs (tables c)) (steps (tables c)) (fired c);
  inv_defs : defs_inv (definitions (tables c));
  inv_results : results_inv (steps (tables c)) (attempts (tables c))
}.

(** * The moves *)

(** The dependencies of [s] let it start. *)
Definition may_start (ss : steps_map) (s : Step.t) : Prop :=
  fresh_status (Step.Status s) = true ∧ deps_completed ss s.

Inductive step_move (ss : steps_map) (s : Step.t) : StepStatus → Prop :=
| Move_skip : fresh_status (Step.Status s) = true → dep_blocked ss s →
    step_move ss s StepSkipped
| Move_wait : awaits_signal s → may_start ss s → step_move ss s StepWaiting
| Move_signal : awaits_signal s → may_start ss s ∨ Step.Status s = StepWaiting →
    step_move ss s StepCompleted
| Move_run : Step.Status s = StepQueued → step_move ss s StepRunning
| Move_cancel : StepTerminal (Step.Status s) = false → step_move ss s StepCancelled.

(** What the end of an attempt means for its step. *)
Definition outcome_status (st : AttemptStatus) (s : Step.t) : StepStatus :=
  if decide (st = AttemptSucceeded) then StepCompleted
  else if Step.AttemptCount s <? Step.MaxAttempts s then StepRetryBackoff
  else StepFailed.

(** The steps a new run starts with. *)
Record new_steps (rid : uuid) (ns : steps_map) : Prop := {
  ns_row : ∀ id s, ns !! id = Some s → Step.ID s = id ∧ Step.WorkflowRunID s = rid ∧
    Step.Status s = StepPending ∧ Step.AttemptCount s = 0 ∧ 1 ≤ Step.MaxAttempts s ∧
    marshal_raw (Step.Input s) ≠ None;
  ns_name : ∀ i j s t, ns !! i = Some s → ns !! j = Some t →
    Step.StepName s = Step.StepName t → i = j;
  ns_closed : ∀ id s dep, ns !! id = Some s → dep ∈ Step.DependsOn s →
    ∃ i t, ns !! i = Some t ∧ Step.StepName t = dep;
  ns_acyclic : well_founded (dep_edge ns rid)
}.

Inductive run_move (ss : steps_map) (r : WorkflowRun.t) : RunStatus → Prop :=
| Move_started : WorkflowRun.Status r = RunPending → run_move ss r RunRunning
| Move_finished st : RunTerminal (WorkflowRun.Status r) = false → RunTerminal st = true →
    verdict_ok ss (WorkflowRun.ID r) st → run_move ss r st.

Inductive trans : Cfg → Cfg → Prop :=
| T_data d o f defs sigs :
    defs_inv defs →
    trans (mkCfg d o f) (mkCfg (set_definitions (λ _, defs) (set_signals (λ _, sigs) d)) o f)
| T_publish d o f k m n :
    outbox d !! k = Some m →
    trans (mkCfg d o f)
      (mkCfg (set_outbox (insert k (outbox_published m n)) (nextOutboxID d) d) o f)
| T_history d o f rid r h :
    runs d !! rid = Some r → HistoryEvent.Seq h = WorkflowRun.HistorySeq r + 1 →
    trans (mkCfg d o f)
      (mkCfg (set_history (λ m, <[rid := default [] (m !! rid) ++ [h]]> m)
                (set_runs (insert rid (run_bump_seq r)) d)) o f)
| T_create d o f rid r ns :
    runs d !! rid = None → WorkflowRun.ID r = rid → WorkflowRun.Status r = RunPending →
    WorkflowRun.HistorySeq r = 0 → ns ##ₘ steps d → new_steps rid ns →
    trans (mkCfg d o f)
      (mkCfg (set_steps (λ m, ns ∪ m) (set_runs (insert rid r) d)) o f)
| T_step d o f id s s' :
    steps d !! id = Some s → same_step s' s → Step.AttemptCount s' = Step.AttemptCount s →
    step_move (steps d) s (Step.Status s') →
    trans (mkCfg d o f) (mkCfg (set_steps (insert id s') d) o f)
| T_dispatch d o f sid s s' aid a m :
    steps d !! sid = Some s → same_step s' s →
    may_start (steps d) s ∨ Step.Status s = StepRetryBackoff →
    Step.Status s' = StepQueued → Step.AttemptCount s' = Step.AttemptCount s + 1 →
    attempts d !! aid = None → TaskAttempt.ID a = aid → TaskAttempt.StepID a = sid →
    TaskAttempt.WorkflowRunID a = Step.WorkflowRunID s →
    TaskAttempt.AttemptNumber a = Step.AttemptCount s + 1 →
    TaskAttempt.Status a = AttemptQueued →
    announces m a → OutboxMessage.ID m = nextOutboxID d + 1 →
    trans (mkCfg d o f)
      (mkCfg (set_steps (insert sid s')
                (set_outbox (insert (nextOutboxID d + 1) m) (nextOutboxID d + 1)
                  (set_attempts (insert aid a) d))) o
             (if decide (f = Some sid) then None else f))
| T_lease d o f id a a' :
    attempts d !! id = Some a → same_attempt a' a →
    live (TaskAttempt.Status a) = true → TaskAttempt.Status a' = AttemptLeased →
    is_Some (TaskAttempt.LeaseOwner a') →
    trans (mkCfg d o f) (mkCfg (set_attempts (insert id a') d) o f)
| T_end d o f id a a' :
    attempts d !! id = Some a → same_attempt a' a →
    TaskAttempt.Status a = AttemptLeased → ended (TaskAttempt.Status a') = true →
    trans (mkCfg d o f) (mkCfg (set_attempts (insert id a') d) ({[id]} ∪ o) f)
| T_outcome d o f id a s s' :
    id ∈ o → attempts d !! id = Some a → steps d !! TaskAttempt.StepID a = Some s →
    busy (Step.Status s) = true → same_step s' s →
    Step.AttemptCount s' = Step.AttemptCount s →
    Step.Status s' = outcome_status (TaskAttempt.Status a) s →
    (Step.Status s' = StepRetryBackoff →
       ∃ tid t, timers d !! tid = Some t ∧ retries t (TaskAttempt.StepID a) = true) →
    trans (mkCfg d o f)
      (mkCfg (set_steps (insert (TaskAttempt.StepID a) s') d) (o ∖ {[id]}) f)
| T_drop d o f id a s :
    id ∈ o → attempts d !! id = Some a → steps d !! TaskAttempt.StepID a = Some s →
    busy (Step.Status s) = false →
    trans (mkCfg d o f) (mkCfg d (o ∖ {[id]}) f)
| T_run d o f id r r' :
    runs d !! id = Some r → same_run r' r →
    WorkflowRun.HistorySeq r' = WorkflowRun.HistorySeq r →
    run_move (steps d) r (WorkflowRun.Status r') →
    trans (mkCfg d o f) (mkCfg (set_runs (insert id r') d) o f)
| T_timer_new d o f tid t :
    timers d !! tid = None → Timer.ID t = tid →
    (∃ s sid, Timer.StepID t = Some sid ∧ steps d !! sid = Some s ∧
              Step.WorkflowRunID s = Timer.WorkflowRunID t) →
    trans (mkCfg d o f) (mkCfg (set_timers (insert tid t) d) o f)
| T_timer_fire d o tid t n sid :
    timers d !! tid = Some t → Timer.StepID t = Some sid → Timer.Status t = TimerPending →
    trans (mkCfg d o None)
      (mkCfg (set_timers (insert tid (timer_with t TimerFired (Some n))) d) o
         (if decide (Timer.Kind t = TimerRetryBackoff) then Some sid else None))
| T_timer_fire_other d o f tid t n :
    timers d !! tid = Some t → Timer.StepID t = None → Timer.Status t = TimerPending →
    trans (mkCfg d o f)
      (mkCfg (set_timers (insert tid (timer_with t TimerFired (Some n))) d) o f)
| T_fired_stale d o sid s :
    steps d !! sid = Some s → Step.Status s ≠ StepRetryBackoff →
    trans (mkCfg d o (Some sid)) (mkCfg d o None)
| T_timer_cancel d o f rid :
    steps_of_run (steps d) rid (λ s, StepTerminal (Step.Status s) = true) →
    trans (mkCfg d o f) (mkCfg (set_timers (fmap (cancel_timer rid)) d) o f)
| T_seq d o f n :
    nextOutboxID d ≤ n →
    trans (mkCfg d o f) (mkCfg (set_outbox (λ m, m) n d) o f).

End Lifecycle.
