(* ===== verification/LifecycleInv.v ===== *)
(** The invariant [Lifecycle.Inv] is preserved by every move of [Lifecycle.trans];
    terminal statuses, attempt numbers and history entries are stable along runs
    of the system. *)

From Stdlib Require Import Wellfounded.
From stdpp Require Import gmap strings list relations.
From S2P Require Import Prelude GoLib Json Types MemStore Lifecycle.
Open Scope Z_scope.

Module LifecycleInv.
Import Lifecycle Memory.

(** Splits every lookup in an updated map into the updated key and the rest. *)
Ltac split_lookup :=
  repeat match goal with
  | H : <[?i := ?x]> ?m !! ?j = Some ?y |- _ =>
      apply lookup_insert_Some in H; destruct H as [[??]|[??]]; simplify_eq
  end.

Lemma not_in_difference (o : gset uuid) i id : i ∈ o → i ∉ o ∖ {[id]} → i = id.
Proof. destruct (decide (i = id)); set_solver. Qed.

(** * One step row changes *)

Section step_update.
Context (ss : steps_map) (id : uuid) (s s' : Step.t).
Hypothesis (Hs : ss !! id = Some s) (Hst : same_step s' s).
Hypothesis Hnt : StepTerminal (Step.Status s) = false.

(** A property of terminal rows is not affected. *)
Lemma dep_in_update rid name (P : StepStatus → bool) :
  (∀ st, P st = true → StepTerminal st = true) →
  dep_in ss rid name P → dep_in (<[id := s']> ss) rid name P.
Proof.
  intros HP (i & t & Ht & Hr & Hn & Hp). exists i, t. split; [|done].
  rewrite lookup_insert_ne; [done|]. intros <-. simplify_eq. apply HP in Hp. congruence.
Qed.

Lemma deps_completed_update t :
  deps_completed ss t → deps_completed (<[id := s']> ss) t.
Proof.
  intros H dep Hd. apply dep_in_update; [|by apply H].
  intros st E. unfold is_completed in E. by apply bool_decide_eq_true in E as ->.
Qed.

Lemma skip_justified_update t :
  skip_justified ss t → skip_justified (<[id := s']> ss) t.
Proof.
  intros (i & u & Hu & Hr & Hd). exists i, u. split; [|done].
  rewrite lookup_insert_ne; [done|]. intros <-. simplify_eq. by destruct Hd as [E|E]; rewrite E in Hnt.
Qed.

Lemma dep_in_any_update rid name :
  dep_in ss rid name any_status → dep_in (<[id := s']> ss) rid name any_status.
Proof.
  intros (i & t & Ht & Hr & Hn & _). destruct (decide (i = id)) as [->|].
  - exists id, s'. simplify_eq. rewrite lookup_insert_eq, (st_run _ _ Hst), (st_name _ _ Hst). done.
  - exists i, t. by rewrite lookup_insert_ne.
Qed.

Lemma dep_edge_update rid a b : dep_edge (<[id := s']> ss) rid a b → dep_edge ss rid a b.
Proof.
  intros (i & t & Ht & Hr & Hn & Hd). split_lookup.
  - exists i, s. by rewrite <-(st_run _ _ Hst), <-(st_name _ _ Hst), <-(st_deps _ _ Hst).
  - by exists i, t.
Qed.

Lemma steps_inv_update :
  steps_inv ss → count_ok s' →
  (started (Step.Status s') = true → deps_completed ss s) →
  (Step.Status s' = StepSkipped → skip_justified ss s) →
  (Step.Status s' = StepWaiting → awaits_signal s) →
  steps_inv (<[id := s']> ss).
Proof.
  intros [Hk Hn Hi Hcl Hac Hm Hd Hc Hsk Hw] Hcount Hdeps Hskip Hwait. split.
  - intros i t Ht. split_lookup; [rewrite (st_ID _ _ Hst)|]; eauto.
  - intros i j t u Ht Hu Hr Hnm. split_lookup; eauto;
      eapply Hn; eauto; congruence || by rewrite ?(st_run _ _ Hst), ?(st_name _ _ Hst) in *.
  - intros i t Ht. split_lookup; [rewrite (st_input _ _ Hst)|]; eauto.
  - intros i t dep Ht Hdep. apply dep_in_any_update.
    split_lookup; [rewrite (st_run _ _ Hst); rewrite (st_deps _ _ Hst) in Hdep|]; eauto.
  - intros rid. eapply (wf_incl _ _ (dep_edge ss rid)); [|apply Hac].
    intros a b. apply dep_edge_update.
  - intros i t Ht. split_lookup; [rewrite (st_max _ _ Hst)|]; eauto.
  - intros i t Ht Hst'. apply deps_completed_update. split_lookup; [|eauto].
    intros dep. rewrite (st_deps _ _ Hst), (st_run _ _ Hst). by apply Hdeps.
  - intros i t Ht. split_lookup; eauto.
  - intros i t Ht Hst'. apply skip_justified_update. split_lookup; [|eauto].
    unfold skip_justified. rewrite (st_run _ _ Hst). by apply Hskip.
  - intros i t Ht. split_lookup; [|eauto]. unfold awaits_signal. rewrite (st_type _ _ Hst). done.
Qed.
End step_update.

(** * Attempts *)

Lemma ended_not_live st : ended st = true → live st = false.
Proof. by destruct st. Qed.

Section attempts.
Context (ss : steps_map) (aa : attempts_map) (o : gset uuid).
Hypothesis Hinv : att_inv ss aa o.

(** Attempt [i] is still expected to say something about its step. *)
Definition active (i : uuid) (a : TaskAttempt.t) : Prop :=
  live (TaskAttempt.Status a) = true ∨ i ∈ o.

Lemma no_active i a sid s :
  ss !! sid = Some s → busy (Step.Status s) = false → Step.Status s ≠ StepCancelled →
  aa !! i = Some a → TaskAttempt.StepID a = sid → ¬ active i a.
Proof.
  intros Hs Hb Hc Ha <- Hact. destruct (ai_current _ _ _ Hinv i a s Ha Hact Hs) as [_ [?|?]]; congruence.
Qed.

Lemma active_unique i j a b :
  aa !! i = Some a → aa !! j = Some b → TaskAttempt.StepID a = TaskAttempt.StepID b →
  active i a → active j b → i = j.
Proof.
  intros Ha Hb E Hi Hj. destruct (ai_step _ _ _ Hinv i a Ha) as (s & Hs & _).
  destruct (ai_current _ _ _ Hinv i a s Ha Hi Hs) as [Ei _].
  rewrite E in Hs. destruct (ai_current _ _ _ Hinv j b s Hb Hj Hs) as [Ej _].
  eapply (ai_uniq _ _ _ Hinv); eauto; congruence.
Qed.

Lemma att_inv_step sid s s' (o' : gset uuid) :
  ss !! sid = Some s → same_step s' s → Step.AttemptCount s' = Step.AttemptCount s →
  (busy (Step.Status s') = true → busy (Step.Status s) = true ∧ o' = o) →
  o' ⊆ o →
  (∀ i a, aa !! i = Some a → live (TaskAttempt.Status a) = true ∨ i ∈ o' →
     TaskAttempt.StepID a = sid →
     busy (Step.Status s') = true ∨ Step.Status s' = StepCancelled) →
  (∀ i a, aa !! i = Some a → i ∈ o → i ∉ o' → TaskAttempt.StepID a = sid) →
  att_inv (<[sid := s']> ss) aa o'.
Proof.
  intros Hs Hst Hc Hbusy Ho Hact Hgone. destruct Hinv as [Hk Hstep Hu Hall Hcur Hod Hbz].
  split; [done| |done| | | |].
  - intros i a Ha. destruct (Hstep i a Ha) as (t & Ht & Hr & Hn).
    destruct (decide (TaskAttempt.StepID a = sid)) as [E|].
    + exists s'. rewrite E, lookup_insert_eq. rewrite E in Ht. simplify_eq.
      rewrite (st_run _ _ Hst), Hc. done.
    + exists t. by rewrite lookup_insert_ne.
  - intros i t k Ht Hk'. split_lookup; eapply Hall; eauto. by rewrite <-Hc.
  - intros i a t Ha Ha' Ht. split_lookup; [|naive_solver].
    split; [|by eapply Hact; eauto]. rewrite Hc. eapply Hcur; eauto. naive_solver.
  - intros i Hi. apply Hod. set_solver.
  - intros i t Ht Hb. split_lookup.
    + destruct (Hbusy Hb) as [Hb' ->]. rewrite Hc. eauto.
    + destruct (Hbz i t) as (j & a & Ha & Hsid & Hnum & Hact'); [done..|].
      exists j, a. repeat (split; [done|]). destruct Hact' as [?|Hj]; [by left|right].
      destruct (decide (j ∈ o')); [done|]. exfalso. naive_solver.
Qed.

Lemma att_inv_attempt id a a' (o' : gset uuid) :
  aa !! id = Some a → same_attempt a' a → live (TaskAttempt.Status a) = true →
  (live (TaskAttempt.Status a') = true ∧ o' = o ∨
   ended (TaskAttempt.Status a') = true ∧ o' = {[id]} ∪ o) →
  att_inv ss (<[id := a']> aa) o'.
Proof.
  intros Ha Hst Hl Hcase. assert (id ∉ o) as Hno.
  { intros Hi. destruct (ai_owed _ _ _ Hinv id Hi) as (b & Hb & He%ended_not_live). congruence. }
  assert (active id a) as Hact by by left.
  destruct Hinv as [Hk Hstep Hu Hall Hcur Hod Hbz]. split.
  - intros i b Hb. split_lookup; [rewrite (at_ID _ _ Hst)|]; eauto.
  - intros i b Hb. split_lookup; [|eauto].
    rewrite (at_step _ _ Hst), (at_run _ _ Hst), (at_number _ _ Hst). eauto.
  - intros i j b c Hb Hc. split_lookup; [done| | |eauto];
      rewrite ?(at_step _ _ Hst), ?(at_number _ _ Hst); eauto.
  - intros sid s k Hs Hk'. destruct (Hall sid s k Hs Hk') as (i & b & Hb & Hsid & Hnum).
    destruct (decide (i = id)) as [->|]; [exists id, a'|exists i, b].
    + simplify_eq. rewrite lookup_insert_eq, (at_step _ _ Hst), (at_number _ _ Hst). done.
    + by rewrite lookup_insert_ne.
  - intros i b s Hb Hb' Hs. split_lookup.
    + rewrite (at_number _ _ Hst). eapply Hcur; eauto. by rewrite <-(at_step _ _ Hst).
    + eapply Hcur; eauto. set_solver.
  - intros i Hi. destruct (decide (i = id)) as [->|Hne].
    + exists a'. rewrite lookup_insert_eq. set_solver.
    + rewrite lookup_insert_ne by done. apply Hod. set_solver.
  - intros sid s Hs Hb. destruct (Hbz sid s Hs Hb) as (i & b & Hb' & Hsid & Hnum & Hact').
    destruct (decide (i = id)) as [->|]; [exists id, a'|exists i, b].
    + simplify_eq. rewrite lookup_insert_eq, (at_step _ _ Hst), (at_number _ _ Hst). set_solver.
    + rewrite lookup_insert_ne by done. set_solver.
Qed.

(** A new attempt for a step without active attempts. *)
Lemma att_inv_dispatch sid s s' aid a :
  ss !! sid = Some s → same_step s' s → 0 ≤ Step.AttemptCount s →
  Step.AttemptCount s' = Step.AttemptCount s + 1 →
  Step.Status s' = StepQueued →
  (∀ i b, aa !! i = Some b → TaskAttempt.StepID b = sid → ¬ active i b) →
  aa !! aid = None → TaskAttempt.ID a = aid → TaskAttempt.StepID a = sid →
  TaskAttempt.WorkflowRunID a = Step.WorkflowRunID s →
  TaskAttempt.AttemptNumber a = Step.AttemptCount s + 1 →
  live (TaskAttempt.Status a) = true →
  att_inv (<[sid := s']> ss) (<[aid := a]> aa) o.
Proof.
  intros Hs Hst Hpos Hcnt Hq Hidle Hnew Hid Hsid Hrun Hnum Hl.
  destruct Hinv as [Hk Hstep Hu Hall Hcur Hod Hbz].
  assert (∀ i b, aa !! i = Some b → TaskAttempt.StepID b = sid →
            1 ≤ TaskAttempt.AttemptNumber b ≤ Step.AttemptCount s) as Hle.
  { intros i b Hb Esid. destruct (Hstep i b Hb) as (t & Ht & _ & ?). rewrite Esid in Ht. by simplify_eq. }
  split.
  - intros i b Hb. split_lookup; eauto.
  - intros i b Hb. split_lookup.
    + exists s'. rewrite lookup_insert_eq, (st_run _ _ Hst). split_and!; [done|congruence|lia|lia].
    + destruct (Hstep i b) as (t & Ht & Hr & Hn); [done|].
      destruct (decide (TaskAttempt.StepID b = TaskAttempt.StepID a)) as [E|].
      * exists s'. rewrite E, lookup_insert_eq, (st_run _ _ Hst). rewrite E in Ht. simplify_eq.
        split_and!; [done|done|lia|lia].
      * exists t. by rewrite lookup_insert_ne.
  - assert (∀ i b, aa !! i = Some b → TaskAttempt.StepID b = sid →
              TaskAttempt.AttemptNumber b ≠ TaskAttempt.AttemptNumber a) as Hnew'.
    { intros i b Hb E. specialize (Hle i b Hb E). lia. }
    intros i j b c Hb Hc E1 E2. split_lookup; naive_solver.
  - intros i t k Ht Hk'. split_lookup.
    + destruct (decide (k = Step.AttemptCount s + 1)) as [->|].
      * exists (TaskAttempt.ID a), a. by rewrite lookup_insert_eq.
      * destruct (Hall _ s k Hs) as (j & b & Hb & ? & ?); [lia|].
        exists j, b. rewrite lookup_insert_ne by congruence. done.
    + destruct (Hall i t k) as (j & b & Hb & ? & ?); [done..|].
      exists j, b. rewrite lookup_insert_ne by congruence. done.
  - intros i b t Hb Hact Ht. split_lookup; try congruence; eauto.
    + rewrite Hq. split; [lia|by left].
    + exfalso. eapply Hidle; eauto.
  - intros i Hi. destruct (Hod i Hi) as (b & Hb & ?). exists b.
    rewrite lookup_insert_ne by congruence. done.
  - intros i t Ht Hb. split_lookup.
    + exists (TaskAttempt.ID a), a. rewrite lookup_insert_eq, Hnum, Hcnt. auto.
    + destruct (Hbz i t) as (j & b & Hb' & ? & ? & ?); [done..|].
      exists j, b. rewrite lookup_insert_ne by congruence. done.
Qed.
End attempts.

(** * Results *)

Lemma results_inv_step ss aa sid s' :
  results_inv ss aa → result_ok aa sid s' → results_inv (<[sid := s']> ss) aa.
Proof. intros Hres Hok. by apply map_Forall_insert_2. Qed.

(** Attempts that have ended stay. *)
Lemma results_inv_grow ss aa aa' :
  results_inv ss aa →
  (∀ i a, aa !! i = Some a → live (TaskAttempt.Status a) = false → aa' !! i = Some a) →
  results_inv ss aa'.
Proof.
  intros Hres Hgrow sid s Hs. specialize (Hres sid s Hs). unfold result_ok in *.
  destruct (Step.Status s); try done.
  - destruct Hres as [?|(i & a & Ha & ? & ? & E)]; [by left|right]. exists i, a.
    split_and!; [|done..]. apply Hgrow; [done|]. by rewrite E.
  - destruct Hres as (i & a & Ha & ? & ? & E). exists i, a. split_and!; [|done..].
    apply Hgrow; [done|]. by destruct (TaskAttempt.Status a).
Qed.

Lemma results_inv_attempt ss aa id a a' :
  results_inv ss aa → aa !! id = Some a → live (TaskAttempt.Status a) = true →
  results_inv ss (<[id := a']> aa).
Proof.
  intros Hres Ha Hl. eapply results_inv_grow; [done|]. intros i b Hb Hd.
  rewrite lookup_insert_ne; congruence.
Qed.

(** * Outbox *)

Section outbox.
Context (aa : attempts_map) (ob : gmap Z OutboxMessage.t) (n : Z).
Hypothesis Hinv : out_inv aa ob n.

Lemma announces_same m a a' : same_attempt a' a → announces m a → announces m a'.
Proof. intros [E1 E2 E3 E4 E5 E6]. unfold announces. by rewrite E1, E2, E3, E4, E5, E6. Qed.

Lemma out_inv_attempt id a a' :
  aa !! id = Some a → same_attempt a' a → out_inv (<[id := a']> aa) ob n.
Proof.
  intros Ha Hst. destruct Hinv as [Hk Hs Hc Hu]. split; [done| | |done].
  - intros k m Hm. destruct (Hs k m Hm) as (b & Hb & Han).
    destruct (decide (OutboxMessage.AggregateID m = id)) as [E|]; [exists a'|exists b].
    + rewrite E in *. rewrite lookup_insert_eq. simplify_eq. split; [done|by eapply announces_same].
    + by rewrite lookup_insert_ne.
  - intros i b Hb. split_lookup; eauto.
Qed.

Lemma out_inv_dispatch aid a m :
  aa !! aid = None → TaskAttempt.ID a = aid → announces m a → OutboxMessage.ID m = n + 1 →
  out_inv (<[aid := a]> aa) (<[n + 1 := m]> ob) (n + 1).
Proof.
  intros Hnew Hid Han Hm. destruct Hinv as [Hk Hs Hc Hu].
  assert (OutboxMessage.AggregateID m = aid) as Ea by (rewrite <-Hid; apply Han).
  assert (∀ k m', ob !! k = Some m' → OutboxMessage.AggregateID m' ≠ aid ∧ k ≠ n + 1) as Hold.
  { intros k m' Hm'. destruct (Hs k m' Hm') as (b & Hb & _). destruct (Hk k m' Hm') as [_ Hle].
    split; [congruence|lia]. }
  split.
  - intros k m' Hm'. split_lookup; [split; [done|lia]|]. destruct (Hk k m'); [done|]. split; [done|lia].
  - intros k m' Hm'. split_lookup; [exists a; by rewrite Ea, lookup_insert_eq|].
    destruct (Hs k m') as (b & Hb & ?); [done|]. exists b.
    rewrite lookup_insert_ne; [done|]. by apply not_eq_sym, (Hold k).
  - intros i b Hb. split_lookup; [exists (n + 1), m; by rewrite lookup_insert_eq|].
    destruct (Hc i b) as (k & m' & Hm' & ?); [done|]. exists k, m'.
    rewrite lookup_insert_ne; [done|]. by apply not_eq_sym, (Hold k m').
  - intros k l m' m'' H1 H2 E. apply lookup_insert_Some in H1 as [[<- <-]|[? H1]];
      apply lookup_insert_Some in H2 as [[<- <-]|[? H2]]; [done| | |by eauto].
    + destruct (Hold l m'' H2); congruence.
    + destruct (Hold k m' H1); congruence.
Qed.

Lemma out_inv_publish k m t : ob !! k = Some m → out_inv aa (<[k := outbox_published m t]> ob) n.
Proof.
  intros Hm. destruct Hinv as [Hk Hs Hc Hu]. split.
  - intros l m' Hm'. split_lookup; [|eauto]. apply (Hk l m Hm).
  - intros l m' Hm'. split_lookup; [|eauto]. apply (Hs l m Hm).
  - intros i a Ha. destruct (Hc i a Ha) as (l & m' & Hm' & E).
    destruct (decide (l = k)) as [->|]; [exists k, (outbox_published m t)|exists l, m'].
    + simplify_eq. by rewrite lookup_insert_eq.
    + by rewrite lookup_insert_ne.
  - intros i j m1 m2 H1 H2 E. split_lookup; [done| | |eauto]; eapply Hu; eauto.
Qed.
End outbox.

(** * Runs, history, timers *)

Section runs.
Context (rr : gmap uuid WorkflowRun.t) (ss : steps_map).
Hypothesis Hinv : runs_inv rr ss.

Lemma verdict_step id s s' rid st :
  ss !! id = Some s → same_step s' s → StepTerminal (Step.Status s) = false →
  verdict_ok ss rid st → verdict_ok (<[id := s']> ss) rid st.
Proof.
  intros Hs Hst Hnt. assert (∀ P, (∀ t, P t → StepTerminal (Step.Status t) = true) →
    steps_of_run ss rid P → steps_of_run (<[id := s']> ss) rid P) as Hall.
  { intros P HP H i t Ht Hr. apply lookup_insert_Some in Ht as [[<- <-]|[? Ht]]; [|eauto]. rewrite (st_run _ _ Hst) in Hr.
    specialize (HP s (H _ _ Hs Hr)). congruence. }
  destruct st; simpl; [done|done| | |]; [apply Hall; by intros t ->| |by apply Hall].
  intros [H (i & t & Ht & Hr & Hf)]. split; [by apply Hall|]. exists i, t.
  rewrite lookup_insert_ne; [done|]. intros <-. simplify_eq. by rewrite Hf in Hnt.
Qed.

Lemma runs_inv_step id s s' :
  ss !! id = Some s → same_step s' s → StepTerminal (Step.Status s) = false →
  runs_inv rr (<[id := s']> ss).
Proof.
  intros Hs Hst Hnt. destruct Hinv as [Hk Hstep Hv]. split; [done| |].
  - intros i t Ht. split_lookup; [rewrite (st_run _ _ Hst)|]; eauto.
  - intros i r Hr. eapply verdict_step; eauto.
Qed.

Lemma runs_inv_run id r r' :
  rr !! id = Some r → WorkflowRun.ID r' = WorkflowRun.ID r →
  verdict_ok ss id (WorkflowRun.Status r') → runs_inv (<[id := r']> rr) ss.
Proof.
  intros Hr Hid Hv. destruct Hinv as [Hk Hstep Hver]. split.
  - intros i t Ht. split_lookup; [rewrite Hid|]; eauto.
  - intros i s Hs. destruct (decide (Step.WorkflowRunID s = id)) as [->|];
      [rewrite lookup_insert_eq; eauto|rewrite lookup_insert_ne; eauto].
  - intros i t Ht. split_lookup; eauto.
Qed.
End runs.

Lemma hist_inv_run rr hh id r r' :
  hist_inv rr hh → rr !! id = Some r → WorkflowRun.HistorySeq r' = WorkflowRun.HistorySeq r →
  hist_inv (<[id := r']> rr) hh.
Proof.
  intros [Hrun Hseq] Hr E. split.
  - intros i Hi. destruct (decide (i = id)) as [->|];
      [rewrite lookup_insert_eq; eauto|rewrite lookup_insert_ne; eauto].
  - intros i t Ht. split_lookup; [rewrite E|]; eauto.
Qed.

Lemma hist_inv_append rr hh id r h :
  hist_inv rr hh → rr !! id = Some r → HistoryEvent.Seq h = WorkflowRun.HistorySeq r + 1 →
  hist_inv (<[id := run_bump_seq r]> rr) (<[id := default [] (hh !! id) ++ [h]]> hh).
Proof.
  intros [Hrun Hseq] Hr E. split.
  - intros i. destruct (decide (i = id)) as [->|]; [by rewrite !lookup_insert_eq|].
    rewrite !lookup_insert_ne by done. apply Hrun.
  - intros i t Ht. split_lookup.
    + rewrite lookup_insert_eq. simpl. destruct (Hseq i r Hr) as [Hl Hpos]. split; [|lia].
      clear Hseq Hrun.
      rewrite fmap_app, Hl, fmap_cons, E.
      replace (Z.to_nat (WorkflowRun.HistorySeq r + 1))
        with (Z.to_nat (WorkflowRun.HistorySeq r) + 1)%nat by lia.
      rewrite seq_app, fmap_app. simpl. do 2 f_equal. lia.
    + rewrite lookup_insert_ne by done. eauto.
Qed.

Lemma timers_inv_run tt rr ss f id r :
  timers_inv tt rr ss f → timers_inv tt (<[id := r]> rr) ss f.
Proof.
  intros [Hk Hr Hs Hy Hf]. split; [done| |done..].
  intros i t Ht. destruct (decide (Timer.WorkflowRunID t = id)) as [->|];
    [rewrite lookup_insert_eq; eauto|rewrite lookup_insert_ne; eauto].
Qed.

Lemma timers_inv_step tt rr ss f f' id s s' :
  timers_inv tt rr ss f → ss !! id = Some s → same_step s' s →
  (Step.Status s' = StepRetryBackoff →
     f' = Some id ∨ ∃ tid t, tt !! tid = Some t ∧ retries t id = true) →
  (f' = f ∨ f' = None ∧ f = Some id) →
  timers_inv tt rr (<[id := s']> ss) f'.
Proof.
  intros [Hk Hr Hs Hy Hf] Hid Hst Hretry Hff. split; [done|done| | |].
  - intros i t sid Ht E. destruct (Hs i t sid Ht E) as (u & Hu & Hrun).
    destruct (decide (sid = id)) as [->|]; [exists s'|exists u].
    + simplify_eq. by rewrite lookup_insert_eq, (st_run _ _ Hst).
    + by rewrite lookup_insert_ne.
  - intros sid u Hu E. split_lookup; [by apply Hretry|].
    destruct (Hy sid u) as [->|]; [done..| |by right]. left. naive_solver.
  - intros sid E. destruct (decide (sid = id)) as [->|];
      [rewrite lookup_insert_eq; eauto|rewrite lookup_insert_ne by done; naive_solver].
Qed.

(** * A run is created with its steps *)

Section create.
Context (rr : gmap uuid WorkflowRun.t) (ss ns : steps_map) (rid : uuid).
Hypothesis (Hruns : runs_inv rr ss) (Hrid : rr !! rid = None).
Hypothesis (Hdisj : ns ##ₘ ss) (Hnew : new_steps rid ns).

Lemma union_old id s : ss !! id = Some s → (ns ∪ ss) !! id = Some s.
Proof. intros H. rewrite lookup_union_Some by done. by right. Qed.

Lemma union_inv id s : (ns ∪ ss) !! id = Some s →
  ns !! id = Some s ∧ Step.WorkflowRunID s = rid ∨
  ss !! id = Some s ∧ Step.WorkflowRunID s ≠ rid.
Proof.
  intros [H|H]%lookup_union_Some; [left|right|done].
  - split; [done|]. by apply (ns_row _ _ Hnew id s).
  - split; [done|]. intros E. destruct (ri_step _ _ Hruns id s H) as [r Hr]. congruence.
Qed.

Lemma dep_in_union_old i name P : dep_in ss i name P → dep_in (ns ∪ ss) i name P.
Proof. intros (j & t & Ht & H). exists j, t. split; [by apply union_old|done]. Qed.

Lemma dep_edge_union i : well_founded (dep_edge ss i) → well_founded (dep_edge (ns ∪ ss) i).
Proof.
  intros Hwf. destruct (decide (i = rid)) as [->|Hne];
    [apply (wf_incl _ _ (dep_edge ns rid)); [|by apply ns_acyclic]
    |apply (wf_incl _ _ (dep_edge ss i)); [|done]];
    intros a b (j & t & Ht & Hr & Hn & Hd); exists j, t;
    destruct (union_inv _ _ Ht) as [[??]|[??]]; first [congruence | by split_and!].
Qed.

Lemma steps_inv_create : steps_inv ss → steps_inv (ns ∪ ss).
Proof.
  intros [Hk Hn Hi Hcl Hac Hm Hd Hc Hsk Hw]. split.
  - intros id s [[H _]|[H _]]%union_inv; [by apply (ns_row _ _ Hnew)|eauto].
  - intros i j s t [[H ?]|[H ?]]%union_inv [[H' ?]|[H' ?]]%union_inv ??; try congruence.
    + by eapply (ns_name _ _ Hnew).
    + by eapply Hn.
  - intros id s [[H _]|[H _]]%union_inv; [by apply (ns_row _ _ Hnew _ _ H)|eauto].
  - intros id s dep [[H ?]|[H ?]]%union_inv Hdep; [|eauto using dep_in_union_old].
    destruct (ns_closed _ _ Hnew id s dep H Hdep) as (i & t & Ht & E).
    exists i, t. rewrite lookup_union_Some by done.
    destruct (ns_row _ _ Hnew _ _ Ht) as (_ & -> & _). by split_and!; [left| | |].
  - intros i. by apply dep_edge_union.
  - intros id s [[H _]|[H _]]%union_inv; [by apply (ns_row _ _ Hnew _ _ H)|eauto].
  - intros id s [[H _]|[H _]]%union_inv Hst.
    + by destruct (ns_row _ _ Hnew _ _ H) as (_ & _ & E & _); rewrite E in Hst.
    + intros dep Hdep. apply dep_in_union_old. by eapply Hd.
  - intros id s [[H _]|[H _]]%union_inv; [|eauto].
    unfold count_ok. by destruct (ns_row _ _ Hnew _ _ H) as (_ & _ & -> & E & _).
  - intros id s [[H _]|[H _]]%union_inv Hst.
    + destruct (ns_row _ _ Hnew _ _ H) as (_ & _ & E & _); congruence.
    + destruct (Hsk id s H Hst) as (i & t & Ht & ?). exists i, t. auto using union_old.
  - intros id s [[H _]|[H _]]%union_inv Hst; [|eauto].
    destruct (ns_row _ _ Hnew _ _ H) as (_ & _ & E & _); congruence.
Qed.

Lemma results_inv_create aa : results_inv ss aa → results_inv (ns ∪ ss) aa.
Proof.
  intros Hres id s [[H _]|[H _]]%union_inv; [|by apply Hres].
  unfold result_ok. by destruct (ns_row _ _ Hnew _ _ H) as (_ & _ & -> & _).
Qed.

Lemma att_inv_create aa o : att_inv ss aa o → att_inv (ns ∪ ss) aa o.
Proof.
  intros [Hk Hstep Hu Hall Hcur Hod Hbz]. split; [done| |done| | |done|].
  - intros i a Ha. destruct (Hstep i a Ha) as (s & Hs & ?). exists s. auto using union_old.
  - intros i s k [[H _]|[H _]]%union_inv Hk'; [|eauto].
    destruct (ns_row _ _ Hnew _ _ H) as (_ & _ & _ & E & _); lia.
  - intros i a s Ha Hact Hs. destruct (Hstep i a Ha) as (s' & Hs' & _).
    rewrite (union_old _ _ Hs') in Hs. simplify_eq. eauto.
  - intros i s [[H _]|[H _]]%union_inv Hb; [|eauto].
    by destruct (ns_row _ _ Hnew _ _ H) as (_ & _ & E & _); rewrite E in Hb.
Qed.

Lemma runs_inv_create r :
  WorkflowRun.ID r = rid → WorkflowRun.Status r = RunPending →
  runs_inv (<[rid := r]> rr) (ns ∪ ss).
Proof.
  intros Hid Hst. destruct Hruns as [Hk Hstep Hv]. split.
  - intros i t Ht. split_lookup; eauto.
  - intros i s [[H ->]|[H Hne]]%union_inv; [by rewrite lookup_insert_eq; eauto|].
    rewrite lookup_insert_ne by done. eauto.
  - intros i t [[<- <-]|[Hne Ht]]%lookup_insert_Some; [by rewrite Hst|].
    specialize (Hv i t Ht). assert (∀ P, steps_of_run ss i P → steps_of_run (ns ∪ ss) i P) as Hall.
    { intros P HP j s [[H ?]|[H ?]]%union_inv ?; [congruence|eauto]. }
    destruct (WorkflowRun.Status t); simpl in *; eauto.
    destruct Hv as [H1 (j & s & Hs & ?)]. split; [auto|]. exists j, s. auto using union_old.
Qed.

Lemma timers_inv_create tt f r :
  timers_inv tt rr ss f → timers_inv tt (<[rid := r]> rr) (ns ∪ ss) f.
Proof.
  intros H. destruct (timers_inv_run tt rr ss f rid r H) as [Hk Hr Hs Hy Hf]. split; [done|done| | |].
  - intros i t sid Ht E. destruct (Hs i t sid Ht E) as (s & ? & ?). exists s. auto using union_old.
  - intros sid s [[Hn _]|[Ho _]]%union_inv E; [|eauto].
    destruct (ns_row _ _ Hnew _ _ Hn) as (_ & _ & E' & _); congruence.
  - intros sid E. destruct (Hf sid E) as [s Hs']. eauto using union_old.
Qed.

Lemma hist_inv_create hh r :
  hist_inv rr hh → WorkflowRun.HistorySeq r = 0 → hist_inv (<[rid := r]> rr) hh.
Proof.
  intros [Hrun Hseq] E. split.
  - intros i Hi. destruct (decide (i = rid)) as [->|];
      [rewrite lookup_insert_eq; eauto|rewrite lookup_insert_ne; eauto].
  - intros i t [[<- <-]|[Hne Ht]]%lookup_insert_Some; [|eauto].
    rewrite E. destruct (hh !! rid) eqn:Eh; [|done].
    destruct (Hrun rid) as [? ?]; [by rewrite Eh|congruence].
Qed.
End create.

(** * Every move preserves the invariant *)

Lemma blocked_justified ss s : steps_inv ss → dep_blocked ss s → skip_justified ss s.
Proof.
  intros Hinv (dep & Hd & i & t & Ht & Hr & Hn & Hdead).
  destruct (Step.Status t) eqn:E; try done;
    [exists i, t; by auto| |exists i, t; by auto].
  destruct (si_skip _ Hinv i t Ht E) as (j & u & Hu & Hru & ?). exists j, u.
  split_and!; [done|congruence|done].
Qed.

Lemma fresh_nonterminal st : fresh_status st = true → StepTerminal st = false.
Proof. by destruct st. Qed.
Lemma busy_nonterminal st : busy st = true → StepTerminal st = false.
Proof. by destruct st. Qed.

(** What a step move guarantees about the new row. *)
Record step_facts (ss : steps_map) (s s' : Step.t) : Prop := {
  sf_nonterminal : StepTerminal (Step.Status s) = false;
  sf_count : count_ok s';
  sf_deps : started (Step.Status s') = true → deps_completed ss s;
  sf_skip : Step.Status s' = StepSkipped → skip_justified ss s;
  sf_busy : busy (Step.Status s') = true → busy (Step.Status s) = true;
  sf_keep : busy (Step.Status s) = true →
    busy (Step.Status s') = true ∨ Step.Status s' = StepCancelled;
  sf_retry : Step.Status s' ≠ StepRetryBackoff;
  sf_wait : Step.Status s' = StepWaiting → awaits_signal s;
  sf_result : Step.Status s' ≠ StepFailed ∧ (Step.Status s' = StepCompleted → awaits_signal s)
}.

Lemma step_move_facts ss id s s' :
  steps_inv ss → ss !! id = Some s → same_step s' s →
  Step.AttemptCount s' = Step.AttemptCount s → step_move ss s (Step.Status s') →
  step_facts ss s s'.
Proof.
  intros Hinv Hs Hst Hc Hm. pose proof (si_count _ Hinv id s Hs) as Hok.
  pose proof (si_max _ Hinv id s Hs) as Hmax.
  pose proof (λ H, si_deps _ Hinv id s Hs H) as Hdeps.
  unfold count_ok in *. remember (Step.Status s') as st eqn:E.
  destruct Hm as [Hf Hb|Hsig [Hf Hd]|Hsig [[Hf Hd]|Hw]|Hq|Hnt].
  all: split; unfold count_ok; rewrite <-?E, ?Hc, ?(st_max _ _ Hst) in *; try done;
    try (by apply fresh_nonterminal); try (by destruct (Step.Status s)).
  all: try (by rewrite ?Hw, ?Hq in * ).
  all: try (by destruct (Step.Status s); simpl in *; lia).
  - intros _. by apply blocked_justified.
  - intros _. by right.
Qed.

Lemma Inv_step d o f id s s' :
  Inv (mkCfg d o f) → steps d !! id = Some s → same_step s' s →
  Step.AttemptCount s' = Step.AttemptCount s → step_move (steps d) s (Step.Status s') →
  Inv (mkCfg (set_steps (insert id s') d) o f).
Proof.
  intros [Hst Ha Ho Hr Hh Ht Hdf Hres] Hs Hsame Hc Hm. simpl in *.
  destruct (step_move_facts _ id s s' Hst Hs Hsame Hc Hm) as [Hnt Hcnt Hdep Hsk Hb Hk Hre Hw Hsr].
  split; simpl; [| |done| |done| |done|].
  - by eapply steps_inv_update.
  - apply (att_inv_step _ _ _ Ha id s); [done..|by auto|done| |naive_solver].
    intros i a Hi Hact E. destruct (busy (Step.Status s)) eqn:Ebusy; [by auto|].
    exfalso. destruct (ai_current _ _ _ Ha i a s Hi Hact) as [_ [?|E']]; [by rewrite E|congruence|].
    by rewrite E' in Hnt.
  - by eapply runs_inv_step.
  - eapply timers_inv_step; [done..| |by left]. intros ?. congruence.
  - eapply results_inv_step; [done|]. unfold result_ok, awaits_signal.
    rewrite (st_type _ _ Hsame). destruct Hsr as [Hnf Hsig]. destruct (Step.Status s'); try done. left. by apply Hsig.
Qed.

(** A step about to be dispatched has no active attempt and attempts left. *)
Lemma dispatchable ss id s :
  steps_inv ss → ss !! id = Some s → may_start ss s ∨ Step.Status s = StepRetryBackoff →
  busy (Step.Status s) = false ∧ Step.Status s ≠ StepCancelled ∧
  StepTerminal (Step.Status s) = false ∧ 0 ≤ Step.AttemptCount s < Step.MaxAttempts s ∧
  deps_completed ss s.
Proof.
  intros Hinv Hs Hcase. pose proof (si_count _ Hinv id s Hs) as Hok.
  pose proof (si_max _ Hinv id s Hs) as Hmax. unfold count_ok in Hok.
  destruct Hcase as [[Hf Hd]|E].
  - destruct (Step.Status s); try done; split_and!; try done; lia.
  - pose proof (si_deps _ Hinv id s Hs) as Hdeps. rewrite E in *.
    split_and!; try done; [lia..|by apply Hdeps].
Qed.

Lemma Inv_dispatch d o f sid s s' aid a m :
  Inv (mkCfg d o f) → steps d !! sid = Some s → same_step s' s →
  may_start (steps d) s ∨ Step.Status s = StepRetryBackoff →
  Step.Status s' = StepQueued → Step.AttemptCount s' = Step.AttemptCount s + 1 →
  attempts d !! aid = None → TaskAttempt.ID a = aid → TaskAttempt.StepID a = sid →
  TaskAttempt.WorkflowRunID a = Step.WorkflowRunID s →
  TaskAttempt.AttemptNumber a = Step.AttemptCount s + 1 →
  TaskAttempt.Status a = AttemptQueued →
  announces m a → OutboxMessage.ID m = nextOutboxID d + 1 →
  Inv (mkCfg (set_steps (insert sid s')
                (set_outbox (insert (nextOutboxID d + 1) m) (nextOutboxID d + 1)
                  (set_attempts (insert aid a) d))) o
             (if decide (f = Some sid) then None else f)).
Proof.
  intros [Hst Ha Ho Hr Hh Ht Hdf Hres] Hs Hsame Hcase Hq Hc Hnew Hid Hsid Hrun Hnum Hqd Han Hm. simpl in *.
  destruct (dispatchable _ _ _ Hst Hs Hcase) as (Hnb & Hnc & Hnt & Hrange & Hdeps).
  split; simpl; [| | | |done| |done|].
  - eapply steps_inv_update; eauto; [|by rewrite Hq..].
    unfold count_ok. rewrite Hq, Hc, (st_max _ _ Hsame). lia.
  - eapply att_inv_dispatch; eauto; [lia| |by rewrite Hqd].
    intros i b Hb E. by eapply no_active.
  - by apply out_inv_dispatch.
  - by eapply runs_inv_step.
  - eapply timers_inv_step; [done..| |]; [by rewrite Hq|]. case_decide; auto.
  - apply results_inv_step; [|unfold result_ok; by rewrite Hq]. eapply results_inv_grow; [done|].
    intros i b Hb _. rewrite lookup_insert_ne; congruence.
Qed.

Lemma outcome_count_ok ss id s s' st :
  steps_inv ss → ss !! id = Some s → busy (Step.Status s) = true → same_step s' s →
  Step.AttemptCount s' = Step.AttemptCount s → Step.Status s' = outcome_status st s →
  count_ok s'.
Proof.
  intros Hinv Hs Hb Hsame Hc E. pose proof (si_count _ Hinv id s Hs) as Hok.
  unfold count_ok in *. rewrite E, Hc, (st_max _ _ Hsame). unfold outcome_status.
  case_decide; [|destruct (Z.ltb_spec (Step.AttemptCount s) (Step.MaxAttempts s))];
    destruct (Step.Status s); try done; lia.
Qed.

Lemma outcome_cases st s :
  outcome_status st s = StepCompleted ∨ outcome_status st s = StepRetryBackoff ∨
  outcome_status st s = StepFailed.
Proof. unfold outcome_status. case_decide; [|case_match]; auto. Qed.

Lemma outcome_result aa sid id a s s' :
  aa !! id = Some a → TaskAttempt.StepID a = sid →
  TaskAttempt.AttemptNumber a = Step.AttemptCount s → Step.AttemptCount s' = Step.AttemptCount s →
  ended (TaskAttempt.Status a) = true → Step.Status s' = outcome_status (TaskAttempt.Status a) s →
  result_ok aa sid s'.
Proof.
  intros Ha Hsid Hnum Hc Hend E. unfold result_ok. rewrite E. unfold outcome_status.
  case_decide as Es; [right; exists id, a; by rewrite Hc|].
  destruct (_ <? _); [done|]. exists id, a. rewrite Hc. split_and!; [done..|].
  by destruct (TaskAttempt.Status a).
Qed.

Lemma Inv_outcome d o f id a s s' :
  Inv (mkCfg d o f) → id ∈ o → attempts d !! id = Some a →
  steps d !! TaskAttempt.StepID a = Some s → busy (Step.Status s) = true → same_step s' s →
  Step.AttemptCount s' = Step.AttemptCount s →
  Step.Status s' = outcome_status (TaskAttempt.Status a) s →
  (Step.Status s' = StepRetryBackoff →
     ∃ tid t, timers d !! tid = Some t ∧ retries t (TaskAttempt.StepID a) = true) →
  Inv (mkCfg (set_steps (insert (TaskAttempt.StepID a) s') d) (o ∖ {[id]}) f).
Proof.
  intros [Hst Ha Ho Hr Hh Ht Hdf Hres] Hin Hat Hs Hb Hsame Hc E Hretry. simpl in *.
  pose proof (busy_nonterminal _ Hb) as Hnt.
  assert (deps_completed (steps d) s) as Hdeps.
  { eapply si_deps; [done..|]. by destruct (Step.Status s). }
  pose proof (outcome_cases (TaskAttempt.Status a) s) as Hcases. rewrite <-E in Hcases.
  split; simpl; [| |done| |done| |done|].
  - eapply steps_inv_update; eauto; [by eapply outcome_count_ok|..];
      intros E'; destruct Hcases as [?|[?|?]]; congruence.
  - apply (att_inv_step _ _ _ Ha (TaskAttempt.StepID a) s); [done..| |set_solver| |].
    + intros Hb'. by destruct Hcases as [E'|[E'|E']]; rewrite E' in Hb'.
    + intros i b Hib Hact Esid. exfalso. assert (i = id) as ->.
      { eapply (active_unique _ _ _ Ha i id b a); eauto; [|by right].
        destruct Hact as [?|[? _]%elem_of_difference]; [by left|by right]. }
      simplify_eq. destruct Hact as [Hl|[_ []]%elem_of_difference]; [|by apply elem_of_singleton].
      destruct (ai_owed _ _ _ Ha id Hin) as (c & ? & He%ended_not_live). congruence.
    + intros i b Hib Hi Hni. assert (i = id) as -> by by eapply not_in_difference. congruence.
  - by eapply runs_inv_step.
  - eapply timers_inv_step; [done..| |by left]. intros E'. right. by apply Hretry.
  - apply results_inv_step; [done|]. eapply (outcome_result _ _ id a s s'); eauto.
    + destruct (ai_current _ _ _ Ha id a s) as [-> _]; eauto.
    + destruct (ai_owed _ _ _ Ha id Hin) as (b & Hb' & Hl). simplify_eq. exact Hl.
Qed.

Lemma Inv_drop d o f id a s :
  Inv (mkCfg d o f) → id ∈ o → attempts d !! id = Some a →
  steps d !! TaskAttempt.StepID a = Some s → busy (Step.Status s) = false →
  Inv (mkCfg d (o ∖ {[id]}) f).
Proof.
  intros [Hst Ha Ho Hr Hh Ht Hdf Hres] Hin Hat Hs Hb. split; simpl in *; try done.
  rewrite <-(insert_id (steps d) (TaskAttempt.StepID a) s Hs).
  apply (att_inv_step _ _ _ Ha (TaskAttempt.StepID a) s); [done|by split|done| |set_solver| |].
  - congruence.
  - intros i b Hib Hact Esid.
    eapply (ai_current _ _ _ Ha i b s Hib); [|congruence].
    destruct Hact as [?|[? _]%elem_of_difference]; auto.
  - intros i b Hib Hi Hni. assert (i = id) as -> by by eapply not_in_difference. congruence.
Qed.

Lemma Inv_run d o f id r r' :
  Inv (mkCfg d o f) → runs d !! id = Some r → same_run r' r →
  WorkflowRun.HistorySeq r' = WorkflowRun.HistorySeq r →
  run_move (steps d) r (WorkflowRun.Status r') →
  Inv (mkCfg (set_runs (insert id r') d) o f).
Proof.
  intros [Hst Ha Ho Hr Hh Ht Hdf Hres] Hid E1 E2 Hm. split; simpl in *; [done|done|done| | | |done|done].
  - eapply runs_inv_run; [done..|apply E1|]. rewrite <-(ri_key _ _ Hr id r Hid).
    destruct Hm; done.
  - by eapply hist_inv_run.
  - by apply timers_inv_run.
Qed.

Lemma retries_fired t sid n : retries (timer_with t TimerFired n) sid = false.
Proof. unfold retries. simpl. by rewrite andb_false_r. Qed.

(** A timer other than a pending retry of some step may change freely. *)
Lemma timers_inv_timer tt rr ss f f' tid t t' :
  timers_inv tt rr ss f → tt !! tid = Some t →
  Timer.ID t' = Timer.ID t →
  Timer.WorkflowRunID t' = Timer.WorkflowRunID t → Timer.StepID t' = Timer.StepID t →
  (∀ sid, retries t sid = true → f' = Some sid) →
  (∀ sid, f = Some sid → f' = Some sid) → (∀ sid, f' = Some sid → is_Some (ss !! sid)) →
  timers_inv (<[tid := t']> tt) rr ss f'.
Proof.
  intros [Hk Hr Hs Hy Hf] Ht E0 E1 E2 Hlost Hkeep Hf'. split.
  - intros i u Hu. split_lookup; [rewrite E0|]; eauto.
  - intros i u Hu. split_lookup; [rewrite E1|]; eauto.
  - intros i u sid Hu E. split_lookup; [rewrite E1; rewrite E2 in E|]; eauto.
  - intros sid s Hs' E. destruct (Hy sid s Hs' E) as [?|(i & u & Hu & Hre)]; [by auto|].
    destruct (decide (i = tid)) as [->|]; [simplify_eq; by auto|].
    right. exists i, u. by rewrite lookup_insert_ne.
  - done.
Qed.

Lemma timers_inv_new tt rr ss f tid t :
  timers_inv tt rr ss f → tt !! tid = None → Timer.ID t = tid → is_Some (rr !! Timer.WorkflowRunID t) →
  (∀ sid, Timer.StepID t = Some sid →
     ∃ s, ss !! sid = Some s ∧ Step.WorkflowRunID s = Timer.WorkflowRunID t) →
  timers_inv (<[tid := t]> tt) rr ss f.
Proof.
  intros [Hk Hr Hs Hy Hf] Hnew Hid Hrun Hstep. split; [| | | |done].
  - intros i u Hu. split_lookup; eauto.
  - intros i u Hu. split_lookup; eauto.
  - intros i u sid Hu E. split_lookup; eauto.
  - intros sid s Hs' E. destruct (Hy sid s Hs' E) as [?|(i & u & Hu & Hre)]; [by auto|].
    right. exists i, u. rewrite lookup_insert_ne by congruence. done.
Qed.

Lemma timers_inv_cancel tt rr ss f rid :
  timers_inv tt rr ss f → steps_of_run ss rid (λ s, StepTerminal (Step.Status s) = true) →
  timers_inv (cancel_timer rid <$> tt) rr ss f.
Proof.
  intros [Hk Hr Hs Hy Hf] Hterm.
  assert (∀ t, Timer.ID (cancel_timer rid t) = Timer.ID t ∧
               Timer.WorkflowRunID (cancel_timer rid t) = Timer.WorkflowRunID t ∧
               Timer.StepID (cancel_timer rid t) = Timer.StepID t) as Hsame.
  { intros t. unfold cancel_timer. by case_match. }
  split; [| | | |done].
  - intros i t. rewrite lookup_fmap. intros (u & Hu & ->)%fmap_Some.
    destruct (Hsame u) as [-> _]. eauto.
  - intros i t. rewrite lookup_fmap. intros (u & Hu & ->)%fmap_Some.
    destruct (Hsame u) as (_ & -> & _). eauto.
  - intros i t sid. rewrite lookup_fmap. intros (u & Hu & ->)%fmap_Some.
    destruct (Hsame u) as (_ & -> & ->). eauto.
  - intros sid s Hs' E. destruct (Hy sid s Hs' E) as [?|(i & t & Ht & Hre)]; [by auto|].
    right. exists i, t. rewrite lookup_fmap, Ht. simpl. split; [|done]. f_equal.
    unfold cancel_timer. destruct (decide (Timer.WorkflowRunID t = rid)) as [E'|];
      [|by rewrite (proj2 (N.eqb_neq _ _))].
    exfalso. unfold retries in Hre. apply andb_true_iff in Hre as [_ E2%bool_decide_eq_true].
    destruct (Hs i t sid Ht E2) as (s' & ? & ?). simplify_eq.
    assert (StepTerminal (Step.Status s) = true) as Hbad by (eapply Hterm; eauto).
    by rewrite E in Hbad.
Qed.

Lemma Inv_create d o f rid r ns :
  Inv (mkCfg d o f) → runs d !! rid = None → WorkflowRun.ID r = rid →
  WorkflowRun.Status r = RunPending → WorkflowRun.HistorySeq r = 0 →
  ns ##ₘ steps d → new_steps rid ns →
  Inv (mkCfg (set_steps (λ m, ns ∪ m) (set_runs (insert rid r) d)) o f).
Proof.
  intros [Hst Ha Ho Hr Hh Ht Hdf Hres] ??????; split; simpl in *; [| |done| | | |done|].
  - by eapply steps_inv_create.
  - by eapply att_inv_create.
  - by eapply runs_inv_create.
  - by eapply hist_inv_create.
  - by eapply timers_inv_create.
  - by eapply results_inv_create.
Qed.

Lemma Inv_history d o f rid r h :
  Inv (mkCfg d o f) → runs d !! rid = Some r →
  HistoryEvent.Seq h = WorkflowRun.HistorySeq r + 1 →
  Inv (mkCfg (set_history (λ m, <[rid := default [] (m !! rid) ++ [h]]> m)
                (set_runs (insert rid (run_bump_seq r)) d)) o f).
Proof.
  intros [Hst Ha Ho Hr Hh Ht Hdf Hres] Hrid E; split; simpl in *; [done|done|done| | | |done|done].
  - eapply runs_inv_run; eauto. exact (ri_verdict _ _ Hr rid r Hrid).
  - by eapply hist_inv_append.
  - by apply timers_inv_run.
Qed.

Lemma Inv_fire d o tid t n sid :
  Inv (mkCfg d o None) → timers d !! tid = Some t → Timer.StepID t = Some sid →
  Inv (mkCfg (set_timers (insert tid (timer_with t TimerFired (Some n))) d) o
         (if decide (Timer.Kind t = TimerRetryBackoff) then Some sid else None)).
Proof.
  intros [Hst Ha Ho Hr Hh Ht Hdf Hres] Htid E. split; simpl in *; try done.
  eapply timers_inv_timer; eauto.
  - intros sid'. unfold retries. rewrite E. intros [[Ek _]%andb_true_iff E'%bool_decide_eq_true]%andb_true_iff.
    apply bool_decide_eq_true in Ek. by rewrite decide_True by done.
  - done.
  - intros sid' E'. case_decide; simplify_eq.
    destruct (ti_step _ _ _ _ Ht tid t sid' Htid E) as (s & ? & _). eauto.
Qed.

Lemma Inv_fire_other d o f tid t n :
  Inv (mkCfg d o f) → timers d !! tid = Some t → Timer.StepID t = None →
  Inv (mkCfg (set_timers (insert tid (timer_with t TimerFired (Some n))) d) o f).
Proof.
  intros [Hst Ha Ho Hr Hh Ht Hdf Hres] Htid E. split; simpl in *; try done.
  eapply timers_inv_timer; eauto.
  - intros sid. unfold retries. rewrite E, (bool_decide_eq_false_2 (None = Some sid)) by done.
    by rewrite andb_false_r.
  - apply (ti_fired _ _ _ _ Ht).
Qed.

Lemma Inv_attempt d o o' f id a a' :
  Inv (mkCfg d o f) → attempts d !! id = Some a → same_attempt a' a →
  live (TaskAttempt.Status a) = true →
  (live (TaskAttempt.Status a') = true ∧ o' = o ∨
   ended (TaskAttempt.Status a') = true ∧ o' = {[id]} ∪ o) →
  Inv (mkCfg (set_attempts (insert id a') d) o' f).
Proof.
  intros [Hst Ha Ho Hr Hh Ht Hdf Hres] Hid Hsame Hl Hcase. split; simpl in *; try done.
  - by eapply att_inv_attempt.
  - by eapply out_inv_attempt.
  - by eapply results_inv_attempt.
Qed.

Lemma trans_Inv c c' : trans c c' → Inv c → Inv c'.
Proof.
  destruct 1; intros Hinv.
  - by destruct Hinv.
  - destruct Hinv; split; simpl in *; try done. by apply out_inv_publish.
  - by eapply Inv_history.
  - by eapply Inv_create.
  - by eapply Inv_step.
  - by eapply Inv_dispatch.
  - eapply Inv_attempt; eauto. left. by split; [destruct (TaskAttempt.Status a')|].
  - eapply Inv_attempt; eauto. by destruct (TaskAttempt.Status a).
  - by eapply Inv_outcome.
  - by eapply Inv_drop.
  - by eapply Inv_run.
  - destruct Hinv as [? ?? Hr ? Ht ? ?]; split; simpl in *; try done.
    match goal with H : ∃ _, _ |- _ => destruct H as (s & sid & E & Hs & Er) end.
    apply timers_inv_new; [done..| |naive_solver]. rewrite <-Er. by eapply ri_step.
  - by apply Inv_fire.
  - by apply Inv_fire_other.
  - destruct Hinv as [? ???? [Ht0 Ht1 Ht2 Ht3 Ht4] ? ?]; split; simpl in *; try done.
    split; try done. intros i u Hu E. destruct (Ht3 i u Hu E) as [E'|?]; [|by right].
    simplify_eq.
  - destruct Hinv; split; simpl in *; try done. by apply timers_inv_cancel.
  - destruct Hinv as [?? [Ho1 Ho2 Ho3 Ho4] ?????]; split; simpl in *; try done.
    split; [|done..]. intros k m Hm. destruct (Ho1 k m Hm). split; [done|lia].
Qed.

Lemma rtc_Inv c c' : rtc trans c c' → Inv c → Inv c'.
Proof. induction 1; eauto using trans_Inv. Qed.

(** The empty store satisfies the invariant. *)
Lemma Inv_empty : Inv (mkCfg New ∅ None).
Proof.
  assert (∀ rid, well_founded (dep_edge ∅ rid)) as Hwf.
  { intros rid n. constructor. intros m (i & s & Hs & _). by rewrite lookup_empty in Hs. }
  split; [split..|apply map_Forall_empty|apply map_Forall_empty]; simpl; intros;
    by rewrite ?lookup_empty in * || set_solver.
Qed.

(** * What never changes again *)

Record step_evolves (s s' : Step.t) : Prop := {
  se_same : same_step s' s;
  se_count : Step.AttemptCount s ≤ Step.AttemptCount s';
  se_final : StepTerminal (Step.Status s) = true → s' = s
}.

(** [r] with another last number of its history. *)
Definition run_with_seq (r : WorkflowRun.t) (n : Z) : WorkflowRun.t :=
  WorkflowRun.mk (WorkflowRun.ID r) (WorkflowRun.DefinitionID r) (WorkflowRun.Name r)
    (WorkflowRun.Version r) (WorkflowRun.Status r) (WorkflowRun.ShardID r) (WorkflowRun.Input r)
    (WorkflowRun.Output r) (WorkflowRun.Context r) (WorkflowRun.Error r) n (WorkflowRun.CreatedAt r)
    (WorkflowRun.StartedAt r) (WorkflowRun.CompletedAt r).

(** A finished run keeps its row, but for the number of its last history event. *)
Record run_evolves (r r' : WorkflowRun.t) : Prop := {
  re_same : same_run r' r;
  re_final : RunTerminal (WorkflowRun.Status r) = true →
    WorkflowRun.HistorySeq r ≤ WorkflowRun.HistorySeq r' ∧
    r' = run_with_seq r (WorkflowRun.HistorySeq r')
}.

Record attempt_evolves (a a' : TaskAttempt.t) : Prop := {
  ae_same : same_attempt a' a;
  ae_claimed : TaskAttempt.Status a ≠ AttemptQueued → TaskAttempt.Status a' ≠ AttemptQueued;
  ae_final : live (TaskAttempt.Status a) = false → a' = a
}.

(** An outbox row may be published, and published again: only its status and the time of its
    publication move. *)
Definition msg_evolves (m m' : OutboxMessage.t) : Prop :=
  m' = m ∨ ∃ n, m' = outbox_published m n.

(** A timer that fired or was cancelled stays as it is. *)
Definition timer_evolves (t t' : Timer.t) : Prop := Timer.Status t ≠ TimerPending → t' = t.


(** Every row of [m] is still in [m'], related by [R]. *)
Definition rows {K V} `{Countable K} (R : V → V → Prop) (m m' : gmap K V) : Prop :=
  ∀ k v, m !! k = Some v → ∃ v', m' !! k = Some v' ∧ R v v'.

Lemma rows_refl {K V} `{Countable K} (R : V → V → Prop) (m : gmap K V) :
  (∀ v, R v v) → rows R m m.
Proof. intros HR k v Hv. eauto. Qed.

Lemma rows_trans {K V} `{Countable K} (R : V → V → Prop) (m1 m2 m3 : gmap K V) :
  (∀ a b c, R a b → R b c → R a c) → rows R m1 m2 → rows R m2 m3 → rows R m1 m3.
Proof. intros HR H1 H2 k v Hv. destruct (H1 k v Hv) as (v' & Hv' & ?). destruct (H2 k v' Hv') as (v'' & ? & ?). eauto. Qed.

Lemma rows_insert {K V} `{Countable K} (R : V → V → Prop) (m : gmap K V) k v' :
  (∀ v, R v v) → (∀ v, m !! k = Some v → R v v') → rows R m (<[k := v']> m).
Proof.
  intros HR Hk i v Hv. destruct (decide (i = k)) as [->|]; [exists v'|exists v].
  - rewrite lookup_insert_eq. auto.
  - rewrite lookup_insert_ne by done. auto.
Qed.

Record evolves (d d' : Tables) : Prop := {
  ev_steps : rows step_evolves (steps d) (steps d');
  ev_runs : rows run_evolves (runs d) (runs d');
  ev_attempts : rows attempt_evolves (attempts d) (attempts d');
  ev_outbox : rows msg_evolves (outbox d) (outbox d');
  ev_history : rows prefix (history d) (history d');
  ev_timers : rows timer_evolves (timers d) (timers d')
}.

Lemma same_step_refl s : same_step s s.
Proof. done. Qed.
Lemma step_evolves_refl s : step_evolves s s.
Proof. by split. Qed.
Lemma run_evolves_refl r : run_evolves r r.
Proof. split; [done|]. intros _. split; [lia|by destruct r]. Qed.
Lemma attempt_evolves_refl a : attempt_evolves a a.
Proof. by split. Qed.
Lemma msg_evolves_refl m : msg_evolves m m.
Proof. by left. Qed.
Lemma timer_evolves_refl t : timer_evolves t t.
Proof. done. Qed.

Lemma same_step_trans a b c : same_step b a → same_step c b → same_step c a.
Proof. intros [] []. split; congruence. Qed.
Lemma same_attempt_trans a b c : same_attempt b a → same_attempt c b → same_attempt c a.
Proof. intros [] []. split; congruence. Qed.

Lemma same_run_trans a b c : same_run b a → same_run c b → same_run c a.
Proof. intros [] []. split; congruence. Qed.

Lemma step_evolves_trans a b c : step_evolves a b → step_evolves b c → step_evolves a c.
Proof.
  intros [S1 C1 F1] [S2 C2 F2]. split; [by eapply same_step_trans|lia|].
  intros Ht. rewrite (F1 Ht) in *. auto.
Qed.
Lemma run_evolves_trans a b c : run_evolves a b → run_evolves b c → run_evolves a c.
Proof.
  intros [I1 F1] [I2 F2]. split; [by eapply same_run_trans|]. intros Ht. destruct (F1 Ht) as [Hab Eb].
  destruct F2 as [Hbc Ec]; [by rewrite Eb|]. split; [lia|]. rewrite Ec, Eb. done.
Qed.
Lemma attempt_evolves_trans a b c : attempt_evolves a b → attempt_evolves b c → attempt_evolves a c.
Proof.
  intros [S1 C1 F1] [S2 C2 F2]. split; [by eapply same_attempt_trans|by auto|].
  intros Hl. rewrite (F1 Hl) in *. auto.
Qed.
Lemma msg_evolves_trans a b c : msg_evolves a b → msg_evolves b c → msg_evolves a c.
Proof. intros [->|[n ->]] [->|[n' ->]]; [by left|by right; exists n'|by right; exists n|by right; exists n']. Qed.

Lemma timer_evolves_trans a b c : timer_evolves a b → timer_evolves b c → timer_evolves a c.
Proof. unfold timer_evolves. intros H1 H2 Ha. rewrite (H1 Ha) in H2. auto. Qed.

#[export] Instance evolves_preorder : PreOrder evolves.
Proof.
  split.
  - intros d. split; apply rows_refl;
      auto using step_evolves_refl, run_evolves_refl, attempt_evolves_refl, msg_evolves_refl,
        timer_evolves_refl.
  - intros d1 d2 d3 [] []. split; (eapply rows_trans; [|done..]);
      eauto using step_evolves_trans, run_evolves_trans, attempt_evolves_trans, msg_evolves_trans,
        timer_evolves_trans.
    intros ???. apply transitivity.
Qed.

Ltac evolve_frame :=
  split; simpl; try (apply rows_refl;
    auto using step_evolves_refl, run_evolves_refl, attempt_evolves_refl, msg_evolves_refl,
        timer_evolves_refl;
    reflexivity).

Lemma move_nonterminal ss s st : step_move ss s st → StepTerminal (Step.Status s) = false.
Proof.
  destruct 1 as [?|_ [? _]|_ [[? _]|E]|E|?]; try done; try (by apply fresh_nonterminal); by rewrite E.
Qed.

Lemma rows_step d id s s' :
  steps d !! id = Some s → same_step s' s → Step.AttemptCount s ≤ Step.AttemptCount s' →
  StepTerminal (Step.Status s) = false →
  rows step_evolves (steps d) (<[id := s']> (steps d)).
Proof.
  intros Hs Hsame Hc Hnt. apply rows_insert; [apply step_evolves_refl|].
  intros v Hv. simplify_eq. split; [done..|]. congruence.
Qed.

Lemma rows_attempt d id a a' :
  attempts d !! id = Some a → same_attempt a' a → live (TaskAttempt.Status a) = true →
  TaskAttempt.Status a' ≠ AttemptQueued →
  rows attempt_evolves (attempts d) (<[id := a']> (attempts d)).
Proof.
  intros Ha Hsame Hl Hq. apply rows_insert; [apply attempt_evolves_refl|].
  intros v Hv. simplify_eq. split; [done|done|]. congruence.
Qed.

Lemma rows_timer d tid t t' :
  timers d !! tid = Some t → Timer.Status t = TimerPending →
  rows timer_evolves (timers d) (<[tid := t']> (timers d)).
Proof.
  intros Ht Hp. apply rows_insert; [apply timer_evolves_refl|]. intros v Hv. simplify_eq.
  intros Hn. congruence.
Qed.

Lemma trans_evolves c c' : trans c c' → Inv c → evolves (tables c) (tables c').
Proof.
  destruct 1; intros Hinv; evolve_frame.
  - apply rows_insert; [apply msg_evolves_refl|]. intros v Hv. simplify_eq. right. by eexists.
  - apply rows_insert; [apply run_evolves_refl|]. intros v Hv. simplify_eq. split; [done|].
    intros _. split; [simpl; lia|done].
  - apply rows_insert; [done|]. intros v Hv. rewrite Hv. simpl. by eexists.
  - intros k v Hv. exists v. split; [|apply step_evolves_refl].
    rewrite lookup_union_Some by done. by right.
  - apply rows_insert; [apply run_evolves_refl|]. congruence.
  - eapply rows_step; eauto; [lia|by eapply move_nonterminal].
  - eapply rows_step; eauto; [lia|].
    match goal with H : may_start _ _ ∨ _ |- _ => destruct H as [[? _]|E] end;
      [by apply fresh_nonterminal|by rewrite E].
  - apply rows_insert; [apply attempt_evolves_refl|]. congruence.
  - apply rows_insert; [apply msg_evolves_refl|]. intros v Hv.
    destruct (oi_key _ _ _ (inv_out _ Hinv) _ _ Hv) as [_ Hle]. simpl in Hle. lia.
  - eapply rows_attempt; eauto. congruence.
  - eapply rows_attempt; eauto; [by destruct (TaskAttempt.Status a)|].
    by destruct (TaskAttempt.Status a').
  - eapply rows_step; eauto; [lia|by apply busy_nonterminal].
  - apply rows_insert; [apply run_evolves_refl|]. intros v Hv. simplify_eq. split; [done|].
    match goal with H : run_move _ _ _ |- _ => destruct H as [E|] end; [by rewrite E|congruence].
  - apply rows_insert; [apply timer_evolves_refl|]. congruence.
  - by eapply rows_timer.
  - by eapply rows_timer.
  - intros k t Ht. rewrite lookup_fmap, Ht. simpl. eexists. split; [done|].
    intros Hp. unfold cancel_timer. by rewrite (bool_decide_eq_false_2 _ Hp), andb_false_r.
Qed.

Lemma rtc_evolves c c' : rtc trans c c' → Inv c → evolves (tables c) (tables c').
Proof.
  induction 1 as [|c1 c2 c3 H12 _ IH]; intros Hinv; [reflexivity|].
  etransitivity; [by apply trans_evolves|]. apply IH. by eapply trans_Inv.
Qed.

End LifecycleInv.
