(* ===== verification/Worlds.v ===== *)
(** Worlds reached by moves of the life cycle: the vocabulary for stating that a piece
    of engine code only makes such moves ([good]) and leaves other runs alone
    ([local_to]), whatever store it runs on. *)

From stdpp Require Import gmap strings list relations sorting.
From S2P Require Import Prelude GoLib Json Types MemStore Lifecycle LifecycleInv.
Open Scope Z_scope.

Module Worlds.
Import Lifecycle LifecycleInv.

(** * Running an operation whose result is known *)

Lemma wp_eq {S A} (m : GoM S A) Q (s s' : S) r : m s = (r, s') → Q r s' → wp m Q s.
Proof. intros E H. unfold wp. by rewrite E. Qed.

Lemma wp_result {S A} (m : GoM S A) Q (s : S) x : m s = x → Q x.1 x.2 → wp m Q s.
Proof. intros E H. unfold wp. by rewrite E. Qed.

Definition later (w : World) (f : Tables → Tables) : World := mkWorld (f (db w)) (S (tick w)).

Section lists.
Context `{Env}.

Lemma filter_elem {A} (p : A → bool) l x : x ∈ List.filter p l ↔ x ∈ l ∧ p x = true.
Proof. rewrite !list_elem_of_In. apply filter_In. Qed.

Lemma values_elem {K V} `{Countable K} (m : gmap K V) n v :
  v ∈ range_order n (map_to_list m).*2 ↔ ∃ k, m !! k = Some v.
Proof.
  rewrite (range_order_perm n). rewrite list_elem_of_fmap. split.
  - intros ([k v'] & -> & Hk%elem_of_map_to_list). eauto.
  - intros [k Hk%elem_of_map_to_list]. by exists (k, v).
Qed.

End lists.

(** * Row identifiers come from [uuid.New] *)

Section good.
Context `{Env}.

(** Some row has key [id]. *)
Definition has (d : Tables) (id : uuid) : Prop :=
  is_Some (runs d !! id) ∨ is_Some (steps d !! id) ∨ is_Some (attempts d !! id) ∨
  is_Some (timers d !! id).

(** [id] was drawn before. *)
Definition drawn (w : World) (id : uuid) : Prop := ∃ n, (n < tick w)%nat ∧ id = uuid_New n.

Definition bounded (w : World) : Prop := ∀ id, has (db w) id → drawn w id.

Lemma bounded_mono w d' n :
  bounded w → (tick w ≤ n)%nat →
  (∀ id, has d' id → has (db w) id ∨ drawn (mkWorld d' n) id) → bounded (mkWorld d' n).
Proof.
  intros Hb Hle Hd id [Hold|?]%Hd; [|done]. destruct (Hb id Hold) as (k & ? & ->).
  exists k. simpl. split; [lia|done].
Qed.

(** [uuid.New] never returns the same value twice. *)
Definition uuid_unique : Prop := ∀ m n, uuid_New m = uuid_New n → m = n.

Lemma fresh_id w n : uuid_unique → bounded w → (tick w ≤ n)%nat → ¬ has (db w) (uuid_New n).
Proof. intros Hu Hb Hle (k & ? & E)%Hb. apply Hu in E. lia. Qed.

Lemma insert_is_Some {V} (m : gmap uuid V) k v v' i :
  m !! k = Some v → is_Some (<[k := v']> m !! i) → is_Some (m !! i).
Proof.
  intros Hk. destruct (decide (i = k)) as [->|]; [by rewrite Hk|by rewrite lookup_insert_ne].
Qed.

(** * Good worlds

    The world [w], with bookkeeping [o] and [f], was reached from [c0] by moves of
    the life cycle and satisfies the invariant. *)
Record good (c0 : Cfg) (o : gset uuid) (f : option uuid) (w : World) : Prop := {
  g_path : rtc trans c0 (mkCfg (db w) o f);
  g_inv : Inv (mkCfg (db w) o f);
  g_bounded : bounded w
}.

Lemma good_trans c0 o f w d' o' f' n :
  good c0 o f w → trans (mkCfg (db w) o f) (mkCfg d' o' f') → (tick w ≤ n)%nat →
  (∀ id, has d' id → has (db w) id ∨ drawn (mkWorld d' n) id) →
  good c0 o' f' (mkWorld d' n).
Proof.
  intros [Hp Hi Hb] Ht Hle Hd. split; simpl.
  - by eapply rtc_r.
  - by eapply trans_Inv.
  - by eapply bounded_mono.
Qed.

Lemma good_tick c0 o f w n : good c0 o f w → (tick w ≤ n)%nat → good c0 o f (mkWorld (db w) n).
Proof. intros [Hp Hi Hb] Hle. split; [done..|]. eapply bounded_mono; eauto. Qed.

(** A state the engine may find: the invariant holds, possibly with attempts whose
    outcome is still to be handled. *)
Definition consistent (w : World) : Prop := ∃ o, Inv (mkCfg (db w) o None) ∧ bounded w.

Lemma consistent_good w : consistent w → ∃ o, good (mkCfg (db w) o None) o None w.
Proof. intros (o & Hi & Hb). by exists o. Qed.

Lemma good_consistent c0 o w : good c0 o None w → consistent w.
Proof. intros [_ Hi Hb]. by exists o. Qed.

(** * Rows of other runs are left alone *)

Record local_to (rid : uuid) (d d' : Tables) : Prop := {
  lt_steps : ∀ id s, Step.WorkflowRunID s ≠ rid →
    steps d !! id = Some s ↔ steps d' !! id = Some s;
  lt_runs : ∀ id, id ≠ rid → runs d' !! id = runs d !! id;
  lt_attempts : ∀ id a, TaskAttempt.WorkflowRunID a ≠ rid →
    attempts d !! id = Some a ↔ attempts d' !! id = Some a;
  lt_history : ∀ id, id ≠ rid → history d' !! id = history d !! id
}.

#[export] Instance local_to_preorder rid : PreOrder (local_to rid).
Proof.
  split.
  - intros d. by split.
  - intros d1 d2 d3 [S1 R1 A1 H1] [S2 R2 A2 H2]. split.
    + intros id s Hne. rewrite (S1 id s Hne). auto.
    + intros id Hne. rewrite (R2 id Hne). auto.
    + intros id a Hne. rewrite (A1 id a Hne). auto.
    + intros id Hne. rewrite (H2 id Hne). auto.
Qed.

Lemma insert_other {V} (m : gmap uuid V) k v v' (run : V → uuid) rid i x :
  m !! k = Some v → run v = rid → run v' = rid → run x ≠ rid →
  m !! i = Some x ↔ <[k := v']> m !! i = Some x.
Proof.
  intros Hk Hv Hv' Hx. destruct (decide (i = k)) as [->|].
  - rewrite lookup_insert_eq, Hk. split; intros; simplify_eq.
  - by rewrite lookup_insert_ne.
Qed.

Lemma insert_new_other {V} (m : gmap uuid V) k v' (run : V → uuid) rid i x :
  m !! k = None → run v' = rid → run x ≠ rid →
  m !! i = Some x ↔ <[k := v']> m !! i = Some x.
Proof.
  intros Hk Hv' Hx. destruct (decide (i = k)) as [->|].
  - rewrite lookup_insert_eq, Hk. split; intros; simplify_eq.
  - by rewrite lookup_insert_ne.
Qed.

(** * The moves, as updates of a good world *)

Lemma good_history c0 o f w w' rid r h :
  good c0 o f w → runs (db w) !! rid = Some r →
  HistoryEvent.Seq h = WorkflowRun.HistorySeq r + 1 →
  db w' = set_history (λ m, <[rid := default [] (m !! rid) ++ [h]]> m)
            (set_runs (insert rid (Memory.run_bump_seq r)) (db w)) →
  (tick w ≤ tick w')%nat →
  good c0 o f w' ∧ local_to rid (db w) (db w').
Proof.
  intros Hg Hr Hh Hdb Ht. destruct w' as [d' n']. simpl in *. subst d'. split.
  - eapply good_trans; [done|by eapply T_history|done|].
    intros id Hid. left. unfold has in *. simpl in *.
    destruct Hid as [Hid|?]; [left; by eapply insert_is_Some|by right].
  - split; simpl; [done| |done|]; intros id Hne; by rewrite lookup_insert_ne.
Qed.

Lemma good_step c0 o f w w' id s s' :
  good c0 o f w → steps (db w) !! id = Some s → same_step s' s →
  Step.AttemptCount s' = Step.AttemptCount s →
  step_move (steps (db w)) s (Step.Status s') →
  db w' = set_steps (insert id s') (db w) → (tick w ≤ tick w')%nat →
  good c0 o f w' ∧ local_to (Step.WorkflowRunID s) (db w) (db w').
Proof.
  intros Hg Hs Hsame Hc Hm Hdb Ht. destruct w' as [d' n']. simpl in *. subst d'. split.
  - eapply good_trans; [done|by eapply T_step|done|].
    intros i Hi. left. unfold has in *. simpl in *.
    destruct Hi as [?|[Hi|?]]; [by left|right; left; by eapply insert_is_Some|by right; right].
  - split; simpl; [|done..]. intros i t Hne. eapply insert_other; eauto. apply (st_run _ _ Hsame).
Qed.

Lemma good_run c0 o f w w' id r r' :
  good c0 o f w → runs (db w) !! id = Some r → same_run r' r →
  WorkflowRun.HistorySeq r' = WorkflowRun.HistorySeq r →
  run_move (steps (db w)) r (WorkflowRun.Status r') →
  db w' = set_runs (insert id r') (db w) → (tick w ≤ tick w')%nat →
  good c0 o f w' ∧ local_to id (db w) (db w').
Proof.
  intros Hg Hr E1 E2 Hm Hdb Ht. destruct w' as [d' n']. simpl in *. subst d'. split.
  - eapply good_trans; [done|by eapply T_run|done|].
    intros i Hi. left. unfold has in *. simpl in *.
    destruct Hi as [Hi|?]; [left; by eapply insert_is_Some|by right].
  - split; simpl; [done| |done..]. intros i Hne. by rewrite lookup_insert_ne.
Qed.

(** Signals and definitions are not constrained. *)
Lemma good_data c0 o f w w' defs sigs :
  good c0 o f w → defs_inv defs →
  db w' = set_definitions (λ _, defs) (set_signals (λ _, sigs) (db w)) → (tick w ≤ tick w')%nat →
  good c0 o f w'.
Proof. intros Hg Hd Hdb Ht. destruct w' as [d' n']. simpl in *. subst d'. eapply good_trans; [done|by apply T_data|done|]. by left. Qed.

Lemma good_cancel_timers c0 o f w w' rid :
  good c0 o f w → steps_of_run (steps (db w)) rid (λ s, StepTerminal (Step.Status s) = true) →
  db w' = set_timers (fmap (Memory.cancel_timer rid)) (db w) → (tick w ≤ tick w')%nat →
  good c0 o f w'.
Proof.
  intros Hg Hall Hdb Ht. destruct w' as [d' n']. simpl in *. subst d'. eapply good_trans; [done|by apply T_timer_cancel|done|].
  intros id Hid. left. unfold has in *. simpl in *.
  by rewrite lookup_fmap, fmap_is_Some in Hid.
Qed.
End good.

End Worlds.
