(* ===== verification/Contract.v ===== *)
(** What the engine relies on of a store: the laws of the [Queries] methods and of [WithTx].

    The engine is verified against these laws (Reconcile.v to Guarantees.v); the memory
    store, the PostgreSQL store and the PostgreSQL store behind a failing connection obey
    them (MemSpec.v, PostgresLaws.v, Faults.v).  A law says how a method answers and
    which rows it writes; identifiers, clock readings and the order of rows are left open.
    A store for which [may_fail] holds may refuse any statement, provided that a
    transaction that does not succeed is undone. *)

From stdpp Require Import gmap strings list relations.
From S2P Require Import Prelude GoLib Json Types MemStore Dsl Engine Lifecycle LifecycleInv.
From S2P Require Import Worlds.
Open Scope Z_scope.

Module Contract.
Import Lifecycle LifecycleInv Worlds.

(** * Vocabulary *)

(** Every row is stored under its identifier. *)
Record rows_keyed (d : Tables) : Prop := {
  rk_runs : ∀ k r, runs d !! k = Some r → WorkflowRun.ID r = k;
  rk_steps : ∀ k s, steps d !! k = Some s → Step.ID s = k;
  rk_attempts : ∀ k a, attempts d !! k = Some a → TaskAttempt.ID a = k;
  rk_outbox : ∀ k m, outbox d !! k = Some m → OutboxMessage.ID m = k;
  rk_timers : ∀ k t, timers d !! k = Some t → Timer.ID t = k
}.

Lemma Inv_keyed d o f : Inv (mkCfg d o f) → rows_keyed d.
Proof.
  intros [Hs Ha Ho Hr _ Ht _ _]. split; simpl in *.
  - apply Hr.
  - apply Hs.
  - apply Ha.
  - intros k m Hm. by apply (oi_key _ _ _ Ho).
  - apply Ht.
Qed.

(** A program under which neither the clock nor the sequence of outbox ids goes back. *)
Definition steady {A} (m : GoM World A) : Prop := ∀ w,
  (tick w ≤ tick (m w).2)%nat ∧ nextOutboxID (db w) ≤ nextOutboxID (db (m w).2).

(** The methods that only read. *)
Inductive is_read `{Queries} : ∀ {A}, GoM World A → Prop :=
| R_ListDefinitions : is_read ListWorkflowDefinitions
| R_GetRun i : is_read (GetWorkflowRun i)
| R_ListRuns f : is_read (ListWorkflowRuns f)
| R_ListRunning l : is_read (ListRunningRunsForShards l)
| R_GetSteps i : is_read (GetSteps i)
| R_GetStep i : is_read (GetStep i)
| R_GetAttempt i : is_read (GetTaskAttempt i)
| R_ListAttempts i : is_read (ListTaskAttemptsForStep i)
| R_Fetch l n : is_read (FetchAndLockPendingOutbox l n)
| R_ListDue l n : is_read (ListDueTimers l n)
| R_ListHistory r : is_read (ListHistory r).

(** The programs that are one call of a method. *)
Inductive is_query `{Queries} : ∀ {A}, GoM World A → Prop :=
| Q_CreateDefinition n v d : is_query (CreateWorkflowDefinition n v d)
| Q_GetDefinition n v : is_query (GetWorkflowDefinition n v)
| Q_GetLatest n : is_query (GetLatestWorkflowDefinition n)
| Q_CreateRun i d n v s b : is_query (CreateWorkflowRun i d n v s b)
| Q_UpdateRun i ex nx o e : is_query (UpdateWorkflowRunStatus i ex nx o e)
| Q_CreateSteps i l : is_query (CreateSteps i l)
| Q_UpdateStep i ex nx o e b : is_query (UpdateStepStatus i ex nx o e b)
| Q_CreateAttempt s r n q : is_query (CreateTaskAttempt s r n q)
| Q_Claim i k w l : is_query (ClaimTaskAttempt i k w l)
| Q_Heartbeat i w l : is_query (HeartbeatTaskAttempt i w l)
| Q_Complete i w s r e : is_query (CompleteTaskAttempt i w s r e)
| Q_Reap l : is_query (ReapExpiredAttempts l)
| Q_InsertOutbox m : is_query (InsertOutboxMessage m)
| Q_MarkOutbox k : is_query (MarkOutboxPublished k)
| Q_InsertTimer t : is_query (InsertTimer t)
| Q_FireTimer t : is_query (FireTimerCAS t)
| Q_CancelTimers r : is_query (CancelTimersForRun r)
| Q_InsertSignal r n p : is_query (InsertSignal r n p)
| Q_ListSignals r : is_query (ListUnprocessedSignals r)
| Q_MarkSignal i : is_query (MarkSignalProcessed i)
| Q_AppendHistory r e p : is_query (AppendHistory r e p)
| Q_Read {A} (m : GoM World A) : is_read m → is_query m.

(** The definition read back from the store may differ in the form of the inputs. *)
Definition with_input (s : StepSpec.t) (i : RawMessage) : StepSpec.t :=
  StepSpec.mk (StepSpec.Name s) (StepSpec.Type_ s) (StepSpec.DependsOn s) i
    (StepSpec.MaxAttempts s) (StepSpec.InitialBackoffMS s) (StepSpec.BackoffMultiplier s)
    (StepSpec.MaxBackoffMS s) (StepSpec.TimeoutSeconds s).

Definition resembles (p p' : Definition_.t) : Prop :=
  Definition_.Name p' = Definition_.Name p ∧ Definition_.Version p' = Definition_.Version p ∧
  Forall2 (λ s s', ∃ j, s' = with_input s (Some (Text j))) (Workflowdsl.steps_of p)
    (Workflowdsl.steps_of p').

(** The row of a new step, given what is kept of the input. *)
Record row_for (stored : RawMessage → RawMessage → Prop) (rid : uuid) (ns : NewStep.t)
    (s : Step.t) : Prop := {
  rf_run : Step.WorkflowRunID s = rid;
  rf_name : Step.StepName s = NewStep.StepName ns;
  rf_type : Step.TaskType s = NewStep.TaskType ns;
  rf_deps : Step.DependsOn s = NewStep.DependsOn ns;
  rf_status : Step.Status s = StepPending;
  rf_count : Step.AttemptCount s = 0;
  rf_max : Step.MaxAttempts s = NewStep.MaxAttempts ns;
  rf_timeout : Step.TimeoutSeconds s = NewStep.TimeoutSeconds ns;
  rf_input : stored (match NewStep.Input ns with None => empty_object | i => i end) (Step.Input s)
}.

Definition insert_rows (l : list Step.t) (m : steps_map) : steps_map :=
  foldl (λ m s, <[Step.ID s := s]> m) m l.
Definition insert_attempts (l : list TaskAttempt.t) (m : attempts_map) : attempts_map :=
  foldl (λ m a, <[TaskAttempt.ID a := a]> m) m l.

(** [def] is what a request for [name] and [version] denotes: that version, or the
    greatest one when the version is not positive. *)
Definition denotes (d : Tables) (name : string) (version : Z) (def : WorkflowDefinition.t) : Prop :=
  (∃ id, definitions d !! id = Some def) ∧ WorkflowDefinition.Name def = name ∧
  if 0 <? version then WorkflowDefinition.Version def = version
  else ∀ id def', definitions d !! id = Some def' → WorkflowDefinition.Name def' = name →
         WorkflowDefinition.Version def' ≤ WorkflowDefinition.Version def.

(** Some stored definition has this name and version. *)
Definition registered (d : Tables) (name : string) (version : Z) : Prop :=
  ∃ id def, definitions d !! id = Some def ∧ WorkflowDefinition.Name def = name ∧
            WorkflowDefinition.Version def = version.

(** [ClaimTaskAttempt]: succeeds only on a QUEUED attempt presented with its key. *)
Definition claimed_post (id key : uuid) (worker : string) (w w' : World)
    (res : option TaskAttempt.t * ClaimResult) : Prop :=
  match attempts (db w) !! id with
  | None => res = (None, ClaimNotFound) ∧ db w' = db w
  | Some a =>
      if bool_decide (TaskAttempt.Status a = AttemptQueued) && (TaskAttempt.IdempotencyKey a =? key)%N
      then ∃ a', res = (Some a', ClaimOK) ∧ same_attempt a' a ∧ Memory.leased_by a' worker = true ∧
             db w' = set_attempts (insert id a') (db w)
      else res = (Some a, ClaimAlreadyClaimed) ∧ db w' = db w
  end.

(** [worker] holds the lease of the attempt [id]. *)
Definition holds_lease (w : World) (id : uuid) (worker : string) : Prop :=
  ∃ a, attempts (db w) !! id = Some a ∧ Memory.leased_by a worker = true.

(** A transaction from [w] to [w1] that left the rows as they were. *)
Definition undone (w w1 w' : World) : Prop := ∃ n,
  (n = nextOutboxID (db w) ∨ n = nextOutboxID (db w1)) ∧
  (tick w ≤ tick w' ∨ tick w1 ≤ tick w')%nat ∧ db w' = set_outbox (λ m, m) n (db w).

(** * The laws *)

Class StoreLaws {E : Env} (S : Store) := {
  (** Whether statements may fail for reasons of the store's own. *)
  may_fail : Prop;
  (** What the store keeps of a JSON document. *)
  stored : RawMessage → RawMessage → Prop;
  (** An encodable document stays encodable, and the stored form of a definition decodes
      to it. *)
  law_marshal b b' : stored (Some b) b' → marshal_raw (Some b) ≠ None → marshal_raw b' ≠ None;
  law_decode d j b' :
    in_int64 (Definition_.Version d) = true → Forall Workflowdsl.ints_ok (Workflowdsl.steps_of d) →
    Forall (λ s, StepSpec.Input s ≠ None) (Workflowdsl.steps_of d) →
    Workflowdsl.ToJSON d = Some j → stored (Some (Text j)) b' →
    ∃ p, Workflowdsl.unmarshal_Definition b' = Some p ∧ resembles d p;

  law_steady {A} (m : GoM World A) : is_query m → steady m;
  law_read {A} (m : GoM World A) w : is_read m → db (m w).2 = db w;

  (** A transaction is its body; a store that may fail undoes a body that failed, may fail
      to begin or to commit, and may lose the answer to a commit that happened. *)
  law_WithTx {A} (fn : GoM World A) w :
    WithTx fn w = fn w ∧ (may_fail → ∃ a, (fn w).1 = Ok a) ∨
    may_fail ∧ (∃ e, (WithTx fn w).1 = Err e) ∧
      ((WithTx fn w).2 = (fn w).2 ∧ (∃ a, (fn w).1 = Ok a) ∨ undone w (fn w).2 (WithTx fn w).2);

  (** ** Definitions *)
  law_CreateWorkflowDefinition name version dag w :
    wp (CreateWorkflowDefinition name version dag)
      (post (λ def w', WorkflowDefinition.Name def = name ∧ WorkflowDefinition.Version def = version ∧
               stored dag (WorkflowDefinition.DAG def) ∧ ¬ registered (db w) name version ∧
               db w' = set_definitions (insert (WorkflowDefinition.ID def) def) (db w))
            (λ e w', db w' = db w ∧ (may_fail ∨ e = ErrConflict ∧ registered (db w) name version))) w;
  law_GetWorkflowDefinition name version w : 0 < version →
    wp (GetWorkflowDefinition name version)
      (post (λ def w', db w' = db w ∧ denotes (db w) name version def)
            (λ e w', db w' = db w ∧
               (may_fail ∨ e = ErrNotFound ∧ ¬ ∃ def, denotes (db w) name version def))) w;
  law_GetLatestWorkflowDefinition name version w : ¬ 0 < version →
    wp (GetLatestWorkflowDefinition name)
      (post (λ def w', db w' = db w ∧ denotes (db w) name version def)
            (λ e w', db w' = db w ∧
               (may_fail ∨ e = ErrNotFound ∧ ¬ ∃ def, denotes (db w) name version def))) w;

  (** ** Runs *)
  law_CreateWorkflowRun id def name version shard input w :
    wp (CreateWorkflowRun id def name version shard input)
      (post (λ r w', WorkflowRun.ID r = id ∧ WorkflowRun.DefinitionID r = def ∧
               WorkflowRun.Name r = name ∧ WorkflowRun.Version r = version ∧
               WorkflowRun.ShardID r = shard ∧ WorkflowRun.Status r = RunPending ∧
               WorkflowRun.HistorySeq r = 0 ∧ stored input (WorkflowRun.Input r) ∧
               db w' = set_runs (insert id r) (db w))
            (λ _ _, may_fail)) w;
  law_GetWorkflowRun id w : rows_keyed (db w) →
    wp (GetWorkflowRun id)
      (post (λ r w', runs (db w) !! id = Some r ∧ db w' = db w)
            (λ e w', db w' = db w ∧ (may_fail ∨ runs (db w) !! id = None ∧ e = ErrNotFound))) w;
  law_ListRunningRunsForShards shards w :
    wp (ListRunningRunsForShards shards)
      (post (λ _ w', db w' = db w) (λ _ w', may_fail ∧ db w' = db w)) w;
  law_UpdateWorkflowRunStatus id expected next out err w : rows_keyed (db w) →
    wp (UpdateWorkflowRunStatus id expected next out err)
      (post (λ ok w',
               if ok : bool then ∃ r r', runs (db w) !! id = Some r ∧ WorkflowRun.Status r ∈ expected ∧
                 same_run r' r ∧ WorkflowRun.HistorySeq r' = WorkflowRun.HistorySeq r ∧
                 WorkflowRun.Status r' = next ∧ db w' = set_runs (insert id r') (db w)
               else (∀ r, runs (db w) !! id = Some r → WorkflowRun.Status r ∉ expected) ∧
                    db w' = db w)
            (λ _ _, may_fail)) w;

  (** ** Steps *)
  law_CreateSteps rid nss w :
    wp (CreateSteps rid nss)
      (post (λ l w', Forall2 (row_for stored rid) nss l ∧
               (∃ ks, Step.ID <$> l = uuid_New <$> ks ∧ NoDup ks ∧
                      Forall (λ k, tick w ≤ k < tick w')%nat ks) ∧
               db w' = set_steps (insert_rows l) (db w))
            (λ _ _, may_fail)) w;
  law_GetSteps rid w :
    wp (GetSteps rid)
      (post (λ l w', db w' = db w ∧
               ∀ s, s ∈ l ↔ (∃ id, steps (db w) !! id = Some s) ∧ Step.WorkflowRunID s = rid)
            (λ _ _, may_fail)) w;
  law_GetStep id w : rows_keyed (db w) →
    wp (GetStep id)
      (post (λ s w', steps (db w) !! id = Some s ∧ db w' = db w)
            (λ e w', db w' = db w ∧ (may_fail ∨ steps (db w) !! id = None ∧ e = ErrNotFound))) w;
  law_UpdateStepStatus id expected next out err bump w : rows_keyed (db w) →
    wp (UpdateStepStatus id expected next out err bump)
      (post (λ ok w',
               if ok : bool then ∃ s s', steps (db w) !! id = Some s ∧ Step.Status s ∈ expected ∧
                 same_step s' s ∧ Step.Status s' = next ∧
                 Step.AttemptCount s' = Step.AttemptCount s + (if bump then 1 else 0) ∧
                 db w' = set_steps (insert id s') (db w)
               else (∀ s, steps (db w) !! id = Some s → Step.Status s ∉ expected) ∧
                    db w' = db w)
            (λ _ w', may_fail ∧ db w' = db w)) w;

  (** ** Task attempts *)
  law_CreateTaskAttempt sid rid number queue w :
    wp (CreateTaskAttempt sid rid number queue)
      (post (λ a w', (∃ k, (tick w ≤ k < tick w')%nat ∧ TaskAttempt.ID a = uuid_New k) ∧
               TaskAttempt.StepID a = sid ∧ TaskAttempt.WorkflowRunID a = rid ∧
               TaskAttempt.AttemptNumber a = number ∧ TaskAttempt.Status a = AttemptQueued ∧
               TaskAttempt.QueueName a = queue ∧
               db w' = set_attempts (insert (TaskAttempt.ID a) a) (db w))
            (λ _ _, may_fail)) w;
  law_ClaimTaskAttempt id key worker lease w : rows_keyed (db w) →
    wp (ClaimTaskAttempt id key worker lease)
      (post (λ res w', claimed_post id key worker w w' res) (λ _ w', may_fail ∧ db w' = db w)) w;
  law_HeartbeatTaskAttempt id worker lease w : rows_keyed (db w) →
    wp (HeartbeatTaskAttempt id worker lease)
      (post (λ res w',
               if res.2 : bool then ∃ a e, attempts (db w) !! id = Some a ∧
                 Memory.leased_by a worker = true ∧
                 db w' = set_attempts (insert id (Memory.attempt_extended a e)) (db w)
               else ¬ holds_lease w id worker ∧ db w' = db w)
            (λ _ w', may_fail ∧ db w' = db w)) w;
  law_CompleteTaskAttempt id worker success res err w : rows_keyed (db w) →
    wp (CompleteTaskAttempt id worker success res err)
      (post (λ r w',
               if r.2 : bool then ∃ a a', attempts (db w) !! id = Some a ∧
                 Memory.leased_by a worker = true ∧ r.1 = Some a' ∧ same_attempt a' a ∧
                 TaskAttempt.Status a' = (if success then AttemptSucceeded else AttemptFailed) ∧
                 db w' = set_attempts (insert id a') (db w)
               else ¬ holds_lease w id worker ∧ db w' = db w)
            (λ _ _, may_fail)) w;
  law_ReapExpiredAttempts limit w : rows_keyed (db w) →
    wp (ReapExpiredAttempts limit)
      (post (λ l w', NoDup (TaskAttempt.ID <$> l) ∧
               (∀ a', a' ∈ l → TaskAttempt.Status a' = AttemptExpired ∧
                  ∃ a, attempts (db w) !! TaskAttempt.ID a' = Some a ∧ same_attempt a' a ∧
                       TaskAttempt.Status a = AttemptLeased) ∧
               db w' = set_attempts (insert_attempts l) (db w))
            (λ _ w', may_fail ∧ db w' = db w)) w;

  (** ** Outbox *)
  law_InsertOutboxMessage msg w :
    wp (InsertOutboxMessage msg)
      (post (λ id w', id = nextOutboxID (db w) + 1 ∧ ∃ m i,
               OutboxMessage.ID m = id ∧
               OutboxMessage.AggregateID m = NewOutboxMessage.AggregateID msg ∧
               OutboxMessage.ShardID m = NewOutboxMessage.ShardID msg ∧
               OutboxMessage.StreamName m = NewOutboxMessage.StreamName msg ∧
               OutboxMessage.Status m = OutboxPending ∧
               (let p := NewOutboxMessage.Payload msg in
                OutboxMessage.Payload m = TaskPayload.mk (TaskPayload.TaskAttemptID p)
                  (TaskPayload.StepID p) (TaskPayload.WorkflowRunID p) (TaskPayload.StepName p)
                  (TaskPayload.TaskType p) i (TaskPayload.AttemptNumber p)
                  (TaskPayload.IdempotencyKey p) (TaskPayload.TimeoutSeconds p)) ∧
               db w' = set_outbox (insert id m) id (db w))
            (λ _ _, may_fail)) w;
  law_MarkOutboxPublished k w : rows_keyed (db w) →
    wp (MarkOutboxPublished k)
      (post (λ _ w', match outbox (db w) !! k with
                     | Some m => ∃ n, db w' = set_outbox (insert k (Memory.outbox_published m n))
                                                (nextOutboxID (db w)) (db w)
                     | None => db w' = db w
                     end)
            (λ _ w', may_fail ∧ db w' = db w)) w;

  (** ** Timers *)
  law_InsertTimer nt w :
    wp (InsertTimer nt)
      (post (λ t w', (∃ k, (tick w ≤ k < tick w')%nat ∧ Timer.ID t = uuid_New k) ∧
               Timer.WorkflowRunID t = NewTimer.WorkflowRunID nt ∧
               Timer.StepID t = NewTimer.StepID nt ∧ Timer.Kind t = NewTimer.Kind nt ∧
               Timer.Status t = TimerPending ∧
               db w' = set_timers (insert (Timer.ID t) t) (db w))
            (λ _ _, may_fail)) w;
  law_FireTimerCAS tid w : rows_keyed (db w) →
    wp (FireTimerCAS tid)
      (post (λ r w',
               if r.2 : bool then ∃ t n, timers (db w) !! tid = Some t ∧ Timer.Status t = TimerPending ∧
                 r.1 = Some (Memory.timer_with t TimerFired (Some n)) ∧
                 db w' = set_timers (insert tid (Memory.timer_with t TimerFired (Some n))) (db w)
               else (∀ t, timers (db w) !! tid = Some t → Timer.Status t ≠ TimerPending) ∧
                    db w' = db w)
            (λ _ _, may_fail)) w;
  law_CancelTimersForRun rid w :
    wp (CancelTimersForRun rid)
      (post (λ _ w', db w' = set_timers (fmap (Memory.cancel_timer rid)) (db w)) (λ _ _, may_fail)) w;

  (** ** Signals and history *)
  law_InsertSignal rid name payload w :
    wp (InsertSignal rid name payload)
      (post (λ sig w', Signal.SignalName sig = name ∧ Signal.WorkflowRunID sig = rid ∧
               Signal.Processed sig = false ∧
               db w' = set_signals (insert (Signal.ID sig) sig) (db w))
            (λ _ _, may_fail)) w;
  law_ListUnprocessedSignals rid w :
    wp (ListUnprocessedSignals rid) (post (λ _ w', db w' = db w) (λ _ _, may_fail)) w;
  law_MarkSignalProcessed id w :
    wp (MarkSignalProcessed id)
      (post (λ _ w', ∃ g, db w' = set_signals g (db w)) (λ _ _, may_fail)) w;
  law_AppendHistory rid ev p w r : rows_keyed (db w) → runs (db w) !! rid = Some r →
    wp (AppendHistory rid ev p)
      (post (λ h w', HistoryEvent.Seq h = WorkflowRun.HistorySeq r + 1 ∧
               db w' = set_history (λ m, <[rid := default [] (m !! rid) ++ [h]]> m)
                         (set_runs (insert rid (Memory.run_bump_seq r)) (db w)))
            (λ _ w', may_fail ∧ db w' = db w)) w
}.

(** * Steady programs *)

Lemma steady_bind {A B} (m : GoM World A) (f : A → GoM World B) :
  steady m → (∀ a, steady (f a)) → steady (m ≫= f).
Proof.
  intros Hm Hf w. unfold mbind, GoM_bind. specialize (Hm w). destruct (m w) as [[a|e] w1]; [|done].
  specialize (Hf a w1). simpl in *. lia.
Qed.
Lemma steady_ret {A} (a : A) : steady (mret a).
Proof. intros w. simpl. lia. Qed.
Lemma steady_fail {A} e : steady (fail (A:=A) e).
Proof. intros w. simpl. lia. Qed.
Lemma steady_gets {A} (f : World → A) : steady (gets f).
Proof. intros w. simpl. lia. Qed.
Lemma steady_tick_of {A} (f : nat → A) : steady (tick_of f).
Proof. intros w. simpl. lia. Qed.
Lemma steady_set_db f : (∀ d, nextOutboxID d ≤ nextOutboxID (f d)) → steady (set_db f).
Proof. intros Hf w. simpl. split; [lia|apply Hf]. Qed.
Lemma steady_catch {A} (m : GoM World A) : steady m → steady (catch m).
Proof. intros Hm w. unfold catch. specialize (Hm w). by destruct (m w) as [[a|e] w1]. Qed.
Lemma steady_wrap_err {A} msg (m : GoM World A) : steady m → steady (Engine.wrap_err msg m).
Proof. intros Hm w. unfold Engine.wrap_err. specialize (Hm w). by destruct (m w) as [[a|e] w1]. Qed.
Lemma steady_foldM {A B} (f : B → A → GoM World B) b l : (∀ b a, steady (f b a)) → steady (foldM f b l).
Proof.
  intros Hf. revert b. induction l as [|a l IH]; intros b; [apply steady_ret|].
  apply steady_bind; [apply Hf|apply IH].
Qed.

Create HintDb steady.
#[export] Hint Resolve steady_ret steady_fail steady_gets steady_tick_of steady_catch steady_wrap_err : steady.
#[export] Hint Extern 1 (steady (set_db _)) => apply steady_set_db; intros ?; simpl; lia : steady.
#[export] Hint Extern 1 (steady (range_map _)) => apply steady_tick_of : steady.
#[export] Hint Extern 1 (steady now) => apply steady_tick_of : steady.
#[export] Hint Extern 1 (steady new_uuid) => apply steady_tick_of : steady.
#[export] Hint Extern 1 (steady rand_float) => apply steady_tick_of : steady.

(** Follows the program: sequencing, loops and case distinctions. *)
Ltac steady_step :=
  match goal with
  | |- steady (_ ≫= _) => apply steady_bind; [|intros ?]
  | |- steady (foldM _ _ _) => apply steady_foldM; intros ? ?
  | |- steady (match ?x with _ => _ end) => destruct x
  | |- steady (let _ := _ in _) => cbv zeta
  | |- steady (catch _) => apply steady_catch
  | |- steady (Engine.wrap_err _ _) => apply steady_wrap_err
  | |- _ => solve [eauto 3 with steady]
  end.
Ltac steady := repeat steady_step.

Section laws.
Context {E : Env} {S : Store} {L : StoreLaws S}.

#[local] Hint Extern 2 (steady _) => apply law_steady; first [solve [constructor] | apply Q_Read; constructor] : steady.

Lemma steady_skips run fuel rs : steady (Engine.skip_passes run fuel rs).
Proof.
  revert rs. induction fuel as [|fuel IH]; intros rs; [apply steady_ret|]. cbn [Engine.skip_passes].
  unfold Engine.skip_one. steady.
Qed.

Lemma steady_signal_wait run s : steady (Engine.tryResolveSignalWait run s).
Proof.
  unfold Engine.tryResolveSignalWait. steady_step; [steady|].
  match goal with l : list Signal.t |- _ => induction l as [|sig l IH] end; [apply steady_ret|].
  cbn [Engine.try_signals]. steady.
Qed.

Lemma steady_dispatchStep run s from : steady (Engine.dispatchStep run s from).
Proof. unfold Engine.dispatchStep. steady. Qed.
#[local] Hint Resolve steady_skips steady_signal_wait steady_dispatchStep : steady.

Lemma steady_reconcileTx run ss : steady (Engine.reconcileTx run ss).
Proof.
  unfold Engine.reconcileTx, Engine.propagateSkips, Engine.dispatchReady, Engine.resolve_one,
    Engine.dispatch_one, Engine.checkRunCompletion, Engine.finish_run. steady.
Qed.
#[local] Hint Resolve steady_reconcileTx : steady.

Lemma steady_reconcile_run run : steady (Engine.reconcile_run run).
Proof. unfold Engine.reconcile_run. steady. Qed.
#[local] Hint Resolve steady_reconcile_run : steady.

Lemma steady_handleAttemptOutcome a success out err : steady (Engine.handleAttemptOutcome a success out err).
Proof. unfold Engine.handleAttemptOutcome. steady. Qed.

Lemma steady_handleRetryTimerFired t : steady (Engine.handleRetryTimerFired t).
Proof. unfold Engine.handleRetryTimerFired. steady. Qed.

(** * Calls and transactions in specifications *)

(** A call never turns the clock back. *)
Lemma wp_steady {A} (m : GoM World A) Q w :
  steady m → wp m Q w → wp m (λ r w', Q r w' ∧ (tick w ≤ tick w')%nat) w.
Proof. intros Hm Hwp. split; [exact Hwp|]. apply Hm. Qed.

(** The rows are those of [w]; only the sequence of outbox ids may have advanced. *)
Definition rolled (w w' : World) : Prop := ∃ n, nextOutboxID (db w) ≤ n ∧
  (tick w ≤ tick w')%nat ∧ db w' = set_outbox (λ m, m) n (db w).

(** A transaction meant to establish [P] was answered with an error of the store: its
    rows are back, or it was committed and only the answer lost. *)
Definition tx_failed {A} (P : A → World → Prop) (w w' : World) : Prop :=
  may_fail ∧ ((∃ a, P a w') ∨ rolled w w').

Lemma wp_WithTx {A} (fn : GoM World A) (P : A → World → Prop) (Qe : error → World → Prop) w :
  steady fn → wp fn (post P (λ e w', may_fail ∨ Qe e w')) w →
  wp (WithTx fn) (post P (λ e w', tx_failed P w w' ∨ Qe e w')) w.
Proof.
  intros Hst Hwp. unfold wp in *. destruct (Hst w) as [Htick Hseq].
  destruct (law_WithTx fn w) as [[-> Hok]|(Hm & [e He] & Hcase)].
  - destruct (fn w) as [[a|e] w1]; simpl in *; [exact Hwp|right].
    destruct Hwp as [[a Ha]%Hok|?]; done.
  - destruct (WithTx fn w) as [r w']. simpl in *. subst r. left. split; [done|].
    destruct Hcase as [[-> [a Ha]]|(n & Hn & Ht & Hdb)].
    + left. rewrite Ha in Hwp. by exists a.
    + right. exists n. split_and!; [|lia|done]. destruct Hn as [->| ->]; lia.
Qed.

(** The specification of a transaction: [P] if it succeeds, [Qe] for the errors of its
    body. *)
Definition tx_post {A} (P : A → World → Prop) (Qe : error → World → Prop) (w : World)
    : outcome A → World → Prop :=
  post P (λ e w', tx_failed P w w' ∨ Qe e w').

Definition no_error (_ : error) (_ : World) : Prop := False.

Lemma wp_tx {A} (fn : GoM World A) (P : A → World → Prop) w :
  steady fn → wp fn (post P (λ _ _, may_fail)) w → wp (WithTx fn) (tx_post P no_error w) w.
Proof.
  intros Hst Hwp. apply wp_WithTx; [done|]. eapply wp_mono; [exact Hwp|].
  intros [a|e] w'; simpl; auto.
Qed.

Lemma tx_post_mono {A} (P P' : A → World → Prop) (Qe Qe' : error → World → Prop) w r w' :
  tx_post P Qe w r w' → (∀ a, P a w' → P' a w') → (∀ e, Qe e w' → Qe' e w') → tx_post P' Qe' w r w'.
Proof. intros Hp HP HQ. destruct r; [by apply HP|]. destruct Hp as [[? [[a Ha]|?]]|?]; [left..|right]; auto.
  - split; [done|left]. eauto.
  - split; [done|by right].
Qed.

(** Every row is as before (numbers of the outbox sequence may have been used up). *)
Definition unchanged (w w' : World) : Prop := ∃ n, db w' = set_outbox (λ m, m) n (db w).

Lemma rolled_unchanged w w' : rolled w w' → unchanged w w'.
Proof. intros (n & _ & _ & Hdb). by exists n. Qed.

Lemma still_unchanged w w' : db w' = db w → unchanged w w'.
Proof. intros Hdb. exists (nextOutboxID (db w)). rewrite Hdb. by destruct (db w). Qed.

Lemma good_still c0 o f w w' :
  good c0 o f w → db w' = db w → (tick w ≤ tick w')%nat → good c0 o f w'.
Proof. intros Hg Hdb Ht. destruct w' as [d n]. simpl in *. subst d. by apply good_tick. Qed.

Lemma good_rolled c0 o f w w' : good c0 o f w → rolled w w' → good c0 o f w'.
Proof.
  intros Hg (n & Hn & Ht & Hdb). destruct w' as [d k]. simpl in *. subst d.
  eapply good_trans; [done|by apply T_seq|done|by left].
Qed.

Lemma good_tx_failed {A} (P : A → World → Prop) c0 o w w' :
  good c0 o None w → tx_failed P w w' → (∀ a, P a w' → good c0 o None w') → good c0 o None w'.
Proof. intros Hg [_ [[a Ha]|Hr]] HP; [by eapply HP|by eapply good_rolled]. Qed.

Lemma tx_post_good {A} (P : A → World → Prop) Qe c0 o w r w' :
  tx_post P Qe w r w' → good c0 o None w → (∀ a, P a w' → good c0 o None w') →
  (∀ e, Qe e w' → good c0 o None w') → good c0 o None w'.
Proof.
  intros Hp Hg HP HQ. destruct r as [a|e]; simpl in Hp; [by eapply HP|].
  destruct Hp as [Hf|Hq]; [by eapply good_tx_failed|by eapply HQ].
Qed.

(** Rows written under their identifiers. *)
Lemma keyed_attempt d a :
  rows_keyed d → rows_keyed (set_attempts (insert (TaskAttempt.ID a) a) d).
Proof.
  intros [H1 H2 H3 H4 H5]. split; simpl; [done..| |done|done].
  intros k b [[<- <-]|[_ ?]]%lookup_insert_Some; auto.
Qed.

Lemma keyed_outbox d k m n :
  rows_keyed d → OutboxMessage.ID m = k → rows_keyed (set_outbox (insert k m) n d).
Proof.
  intros [H1 H2 H3 H4 H5] Hm. split; simpl; [done..| |done].
  intros i b [[<- <-]|[_ ?]]%lookup_insert_Some; auto.
Qed.

Lemma wp_wrap_err {A} msg (m : GoM World A) (P : A → World → Prop) w :
  wp m (post P (λ _ _, may_fail)) w → wp (Engine.wrap_err msg m) (post P (λ _ _, may_fail)) w.
Proof. unfold wp, Engine.wrap_err. by destruct (m w) as [[a|e] w1]. Qed.

Lemma good_keyed c0 o f w : good c0 o f w → rows_keyed (db w).
Proof. intros Hg. by eapply Inv_keyed, g_inv. Qed.
End laws.

#[export] Hint Extern 2 (steady _) => apply law_steady; first [solve [constructor] | apply Q_Read; constructor] : steady.
#[export] Hint Resolve steady_skips steady_signal_wait steady_dispatchStep steady_reconcileTx
  steady_reconcile_run steady_handleAttemptOutcome steady_handleRetryTimerFired : steady.

(** Uses the law [H] of a call for the goal [wp m Q s]. *)
Tactic Notation "wp_law" uconstr(H) :=
  eapply wp_mono; [eapply wp_steady; [steady|eapply H]|].

End Contract.
