(* ===== verification/Reconcile.v ===== *)
(** DAG evaluation over any store that obeys the laws of Contract.v: [propagateSkips], [dispatchReady] and
    [checkRunCompletion] make only moves of the life cycle, never fail on a
    consistent store, and do what they are for. *)

From stdpp Require Import gmap strings list relations sorting.
From S2P Require Import Prelude GoLib Json Types MemStore Dsl Engine Lifecycle.
From S2P Require Import LifecycleInv Worlds Contract.
Open Scope Z_scope.

Module Reconcile.
Import Lifecycle LifecycleInv Worlds Contract.
Import Engine (runState, undispatched, blocked, ready, allTerminal, newRunState, set_Status,
  set_Output, set_AttemptCount, values, keys).

(** * The run state agrees with the step table *)

(** The local copy [s] and the row: same identity, status and attempt counter. *)
Record agrees (s row : Step.t) : Prop := {
  ag_same : same_step row s;
  ag_status : Step.Status row = Step.Status s;
  ag_count : Step.AttemptCount row = Step.AttemptCount s
}.

Record agree (rs : runState) (rid : uuid) (ss : steps_map) : Prop := {
  ar_row : ∀ name s, rs !! name = Some s →
    Step.WorkflowRunID s = rid ∧ Step.StepName s = name ∧
    ∃ row, ss !! Step.ID s = Some row ∧ agrees s row;
  ar_all : ∀ id row, ss !! id = Some row → Step.WorkflowRunID row = rid →
    ∃ s, rs !! Step.StepName row = Some s ∧ Step.ID s = id
}.

Lemma same_step_sym a b : same_step a b → same_step b a.
Proof. intros []. by split. Qed.

Lemma agree_update rs rid ss name s s' row' :
  agree rs rid ss → rs !! name = Some s → same_step s' s → agrees s' row' →
  agree (<[name := s']> rs) rid (<[Step.ID s := row']> ss).
Proof.
  intros [Hrow Hall] Hs Hsame [Hsr Est Ec].
  destruct (Hrow name s Hs) as (Hrun & Hname & row & Hr & Hag).
  assert (∀ n t, n ≠ name → rs !! n = Some t → Step.ID t ≠ Step.ID s) as Hinj.
  { intros n t Hne Ht E. destruct (Hrow n t Ht) as (_ & Hn & row2 & Hr2 & Hag2).
    rewrite E in Hr2. simplify_eq. destruct Hne.
    rewrite <-(st_name _ _ (ag_same _ _ Hag)). by rewrite <-(st_name _ _ (ag_same _ _ Hag2)). }
  split.
  - intros n t [[<- <-]|[Hne Ht]]%lookup_insert_Some.
    + rewrite (st_run _ _ Hsame), (st_name _ _ Hsame), (st_ID _ _ Hsame).
      split_and!; [done..|]. exists row'. by rewrite lookup_insert_eq.
    + destruct (Hrow n t Ht) as (? & ? & row2 & ? & ?). split_and!; [done..|].
      exists row2. rewrite lookup_insert_ne; [done|]. by apply not_eq_sym, (Hinj n).
  - intros id row2 [[<- <-]|[Hne Hr2]]%lookup_insert_Some Hrun2.
    + exists s'. rewrite (st_name _ _ Hsr), (st_name _ _ Hsame), Hname, lookup_insert_eq.
      split; [done|]. apply (st_ID _ _ Hsame).
    + destruct (Hall id row2 Hr2 Hrun2) as (t & Ht & Et). exists t.
      rewrite lookup_insert_ne; [done|]. intros E. rewrite <-E, Hs in Ht. simplify_eq.
Qed.

Section agree.
Context (rs : runState) (rid : uuid) (ss : steps_map).
Hypothesis Hag : agree rs rid ss.

Lemma agree_dep dep (P : StepStatus → bool) :
  (∀ i s, ss !! i = Some s → Step.ID s = i) →
  dep_in ss rid dep P ↔ ∃ d, rs !! dep = Some d ∧ P (Step.Status d) = true.
Proof.
  intros Hkey. split.
  - intros (i & row & Hrow & Hrun & Hname & HP).
    destruct (ar_all _ _ _ Hag i row Hrow Hrun) as (s & Hs & Ei). rewrite Hname in Hs.
    exists s. split; [done|]. destruct (ar_row _ _ _ Hag dep s Hs) as (_ & _ & row2 & Hr2 & Ha).
    rewrite Ei in Hr2. simplify_eq. by rewrite <-(ag_status _ _ Ha).
  - intros (s & Hs & HP). destruct (ar_row _ _ _ Hag dep s Hs) as (Hrun & Hname & row & Hr & Ha).
    exists (Step.ID s), row. rewrite (st_run _ _ (ag_same _ _ Ha)), (st_name _ _ (ag_same _ _ Ha)),
      (ag_status _ _ Ha). done.
Qed.

Lemma ready_deps s row :
  (∀ i s, ss !! i = Some s → Step.ID s = i) → agrees s row → Step.WorkflowRunID s = rid →
  ready rs s = true ↔ deps_completed ss row.
Proof.
  intros Hkey Ha Hrun. unfold ready, deps_completed. rewrite forallb_forall.
  rewrite (st_deps _ _ (ag_same _ _ Ha)), (st_run _ _ (ag_same _ _ Ha)), Hrun.
  split; intros Hall dep Hd.
  - apply agree_dep; [done|]. rewrite list_elem_of_In in Hd. specialize (Hall dep Hd).
    destruct (rs !! dep) as [d|]; [|done]. by exists d.
  - rewrite <-list_elem_of_In in Hd. apply Hall, agree_dep in Hd as (d & Hd & E); [|done].
    by rewrite Hd.
Qed.

Lemma blocked_dep s row :
  (∀ i s, ss !! i = Some s → Step.ID s = i) → agrees s row → Step.WorkflowRunID s = rid →
  blocked rs s = true ↔ dep_blocked ss row.
Proof.
  intros Hkey Ha Hrun. unfold blocked, dep_blocked. rewrite existsb_exists.
  rewrite (st_deps _ _ (ag_same _ _ Ha)), (st_run _ _ (ag_same _ _ Ha)), Hrun.
  split; intros (dep & Hd & H); exists dep; rewrite list_elem_of_In in *; (split; [done|]).
  - apply agree_dep; [done|]. destruct (rs !! dep) as [d|]; [|done]. exists d.
    split; [done|]. by destruct (Step.Status d).
  - apply agree_dep in H as (d & -> & E); [|done]. by destruct (Step.Status d).
Qed.
End agree.

(** [GetSteps] followed by [newRunState] gives an agreeing run state. *)
Lemma newRunState_Some l name s : newRunState l !! name = Some s → s ∈ l ∧ Step.StepName s = name.
Proof.
  unfold newRunState. induction l as [|x l IH] using rev_ind; [done|].
  rewrite foldl_snoc, lookup_insert_Some, elem_of_app, list_elem_of_singleton. naive_solver.
Qed.

Lemma newRunState_in l s : s ∈ l → ∃ t, newRunState l !! Step.StepName s = Some t.
Proof.
  unfold newRunState. induction l as [|x l IH] using rev_ind; [inversion 1|].
  rewrite elem_of_app, list_elem_of_singleton, foldl_snoc. intros [Hs| ->].
  - destruct (decide (Step.StepName x = Step.StepName s)) as [->|].
    + rewrite lookup_insert_eq. eauto.
    + rewrite lookup_insert_ne by done. auto.
  - rewrite lookup_insert_eq. eauto.
Qed.

Lemma agree_newRunState l rid ss :
  steps_inv ss →
  (∀ s, s ∈ l ↔ (∃ id, ss !! id = Some s) ∧ Step.WorkflowRunID s = rid) →
  agree (newRunState l) rid ss.
Proof.
  intros Hinv Hl. split.
  - intros name s [Hs Hn]%newRunState_Some. apply Hl in Hs as [[id Hs] Hr].
    split_and!; [done..|]. exists s. by rewrite (si_key _ Hinv id s Hs).
  - intros id row Hrow Hr. destruct (newRunState_in l row) as [t Ht]; [by apply Hl; eauto|].
    exists t. split; [done|]. apply newRunState_Some in Ht as [[[id' Ht] Hrt]%Hl Hn].
    rewrite (si_key _ Hinv id' t Ht). symmetry. by eapply (si_name _ Hinv); eauto; congruence.
Qed.

(** * Steps of a reconcile pass *)

Definition run_status (d : Tables) (rid : uuid) : option RunStatus :=
  WorkflowRun.Status <$> runs d !! rid.

Section pass.
Context {E : Env} {St : Store} {L : StoreLaws St}.
Context (c0 : Cfg) (o : gset uuid) (rid : uuid).

(** Nothing happened to the steps or to the status of the run. *)
Record quiet (f : option uuid) (w w' : World) : Prop := {
  qt_good : good c0 o f w';
  qt_local : local_to rid (db w) (db w');
  qt_steps : steps (db w') = steps (db w);
  qt_run : run_status (db w') rid = run_status (db w) rid
}.

(** The step [s] became [s'], in the table and in the local copy. *)
Record stepped (f' : option uuid) (s s' : Step.t) (w w' : World) : Prop := {
  sd_good : good c0 o f' w';
  sd_local : local_to rid (db w) (db w');
  sd_row : ∃ row', steps (db w') = <[Step.ID s := row']> (steps (db w)) ∧ agrees s' row';
  sd_same : same_step s' s;
  sd_run : run_status (db w') rid = run_status (db w) rid
}.

(** The state of a pass: the world is good, [rs] agrees with it, the run has status
    [st], and only rows of the run have changed since [d0]. *)
Record view (f : option uuid) (d0 : Tables) (st : RunStatus) (rs : runState) (w : World) : Prop := {
  v_good : good c0 o f w;
  v_agree : agree rs rid (steps (db w));
  v_run : run_status (db w) rid = Some st;
  v_local : local_to rid d0 (db w)
}.

Lemma view_stepped f f' d0 st rs w w' name s s' :
  view f d0 st rs w → rs !! name = Some s → stepped f' s s' w w' →
  view f' d0 st (<[name := s']> rs) w'.
Proof.
  intros [Hg Ha Hr Hl] Hs [Hg' Hl' (row' & Hrow & Hag) Hsame Hr']. split; [done| | |].
  - rewrite Hrow. by apply agree_update.
  - by rewrite Hr'.
  - by etransitivity.
Qed.

Lemma view_quiet f d0 st rs w w' : view f d0 st rs w → quiet f w w' → view f d0 st rs w'.
Proof.
  intros [Hg Ha Hr Hl] [Hg' Hl' Hs' Hr']. split; [done| | |].
  - by rewrite Hs'.
  - by rewrite Hr'.
  - by etransitivity.
Qed.

Lemma stepped_quiet f f' s s' w w1 w' :
  stepped f s s' w w1 → quiet f' w1 w' → stepped f' s s' w w'.
Proof.
  intros [Hg Hl (row' & Hrow & Hag) Hsame Hr] [Hg' Hl' Hs' Hr']. split; [done| | |done|].
  - by etransitivity.
  - exists row'. by rewrite Hs'.
  - by rewrite Hr'.
Qed.

Lemma quiet_stepped f f' s s' w w1 w' :
  quiet f w w1 → stepped f' s s' w1 w' → stepped f' s s' w w'.
Proof.
  intros [Hg' Hl' Hs' Hr'] [Hg Hl (row' & Hrow & Hag) Hsame Hr]. split; [done| | |done|].
  - by etransitivity.
  - exists row'. by rewrite Hrow, Hs'.
  - by rewrite Hr.
Qed.

Lemma quiet_trans f f' w w1 w' : quiet f w w1 → quiet f' w1 w' → quiet f' w w'.
Proof.
  intros [Hg Hl Hs Hr] [Hg' Hl' Hs' Hr']. split; [done|by etransitivity|congruence..].
Qed.

Lemma quiet_tick f w : good c0 o f w → quiet f w (later w id).
Proof. intros Hg. split; [apply good_tick; [done|simpl; lia]|reflexivity..]. Qed.

Lemma quiet_still f w w' : good c0 o f w → db w' = db w → (tick w ≤ tick w')%nat → quiet f w w'.
Proof. intros Hg Hdb Ht. split; [by eapply good_still|by rewrite Hdb..]. Qed.

Lemma quiet_refl f w : good c0 o f w → quiet f w w.
Proof. intros Hg. split; [done|reflexivity..]. Qed.

Lemma run_exists d st : run_status d rid = Some st → ∃ r, runs d !! rid = Some r ∧ WorkflowRun.Status r = st.
Proof. unfold run_status. intros (r & ? & ->)%fmap_Some. eauto. Qed.

(** Appending history to an existing run; a failing append changes nothing. *)
Lemma wp_append f w ev p st :
  good c0 o f w → run_status (db w) rid = Some st →
  wp (AppendHistory rid ev p)
    (post (λ _ w', quiet f w w') (λ _ w', may_fail ∧ quiet f w w')) w.
Proof.
  intros Hg (r & Hr & _)%run_exists. wp_law law_AppendHistory; [by eapply good_keyed|exact Hr|].
  intros [h|e] w' [H Ht]; simpl in *.
  - destruct H as [Hh Hdb]. destruct (good_history c0 o f w w' rid r h) as [Hg' Hl']; [done..|].
    split; [done..|by rewrite Hdb|]. unfold run_status. rewrite Hdb. simpl. by rewrite lookup_insert_eq, Hr.
  - destruct H. split; [done|by apply quiet_still].
Qed.

Lemma wp_history f w ev p st :
  good c0 o f w → run_status (db w) rid = Some st →
  wp (AppendHistory rid ev p) (post (λ _ w', quiet f w w') (λ _ _, may_fail)) w.
Proof. intros Hg Hst. wp_use wp_append; [done..|]. by intros [h|e] w'; simpl; [|intros [? _]]. Qed.

(** A compare-and-swap on a step that is where the local copy says it is. *)
Lemma wp_move f w s row next out err :
  good c0 o f w → steps (db w) !! Step.ID s = Some row → agrees s row →
  Step.WorkflowRunID s = rid → step_move (steps (db w)) row next →
  wp (UpdateStepStatus (Step.ID s) [Step.Status s] next out err false)
    (post (λ ok w', ok = true ∧
       ∀ s', same_step s' s → Step.Status s' = next → Step.AttemptCount s' = Step.AttemptCount s →
       stepped f s s' w w') (λ _ _, may_fail)) w.
Proof.
  intros Hg Hrow [Hsame Hst Hc] Hrun Hm. wp_law law_UpdateStepStatus; [by eapply good_keyed|].
  intros [[]|e] w' [H Ht]; simpl in *; [| |by destruct H].
  2: { destruct H as [Hno _]. destruct (Hno row Hrow). rewrite Hst. constructor. }
  destruct H as (row0 & row' & Hrow0 & _ & Hs' & Est' & Ec' & Hdb). simplify_eq.
  split; [done|]. intros s' Hs0 Est Ec.
  destruct (good_step c0 o f w w' (Step.ID s) row row') as [Hg' Hl']; [done..|lia|done|done|done|].
  rewrite (st_run _ _ Hsame), Hrun in Hl'.
  split; [done|done| |done|unfold run_status; by rewrite Hdb].
  exists row'. rewrite Hdb. split; [done|]. split; [|congruence|lia].
  eapply same_step_trans; [apply same_step_sym, Hs0|]. by eapply same_step_trans; [exact Hsame|].
Qed.

(** * [propagateSkips] *)

Context (run : WorkflowRun.t).
Hypothesis Hrun : WorkflowRun.ID run = rid.

Definition skippable (rs : runState) (s : Step.t) : bool := undispatched s && blocked rs s.

(** The effect of [skip_one] on the local state. *)
Definition skip_local (acc : runState * bool) (name : string) : runState * bool :=
  match acc.1 !! name with
  | Some s => if skippable acc.1 s then (<[name := set_Status s StepSkipped]> acc.1, true) else acc
  | None => acc
  end.

Lemma view_key f d0 st rs w : view f d0 st rs w →
  ∀ i s, steps (db w) !! i = Some s → Step.ID s = i.
Proof. intros Hv. exact (si_key _ (inv_steps _ (g_inv _ _ _ _ (v_good _ _ _ _ _ Hv)))). Qed.

Lemma undispatched_fresh s row : agrees s row → undispatched s = true →
  fresh_status (Step.Status row) = true.
Proof. intros Ha H. rewrite (ag_status _ _ Ha). unfold undispatched in H. by destruct (Step.Status s). Qed.

Lemma wp_skip_one f d0 st rs ch w name :
  view f d0 st rs w →
  wp (Engine.skip_one run (rs, ch) name)
    (post (λ acc w', view f d0 st acc.1 w' ∧ acc = skip_local (rs, ch) name) (λ _ _, may_fail)) w.
Proof.
  intros Hv. unfold Engine.skip_one, skip_local, skippable; simpl.
  destruct (rs !! name) as [s|] eqn:Es; [|by apply wp_ret].
  destruct (undispatched s) eqn:Eu; simpl; [|by apply wp_ret].
  destruct (blocked rs s) eqn:Eb; simpl; [|by apply wp_ret].
  destruct (ar_row _ _ _ (v_agree _ _ _ _ _ Hv) name s Es) as (Hr & Hn & row & Hrow & Ha).
  apply wp_bind. wp_use wp_move; [by apply Hv|done..| |].
  { apply Move_skip; [by eapply undispatched_fresh|].
    by eapply blocked_dep; [apply Hv|by eapply view_key|..]. }
  intros [ok|e] w1; simpl; [|done]. intros [-> Hstep].
  specialize (Hstep (set_Status s StepSkipped)).
  assert (stepped f s (set_Status s StepSkipped) w w1) as Hsd by by apply Hstep.
  apply wp_bind. rewrite Hrun. wp_use wp_history; [by apply Hsd|by rewrite (sd_run _ _ _ _ _ Hsd); apply Hv|].
  intros [h|e] w2; simpl; [|done]. intros Hq. apply wp_ret. split; [|done].
  eapply view_stepped; [done..|]. by eapply stepped_quiet.
Qed.

Lemma wp_skip_pass f d0 st rs ch order w :
  view f d0 st rs w →
  wp (foldM (Engine.skip_one run) (rs, ch) order)
    (post (λ acc w', view f d0 st acc.1 w' ∧ acc = foldl skip_local (rs, ch) order)
          (λ _ _, may_fail)) w.
Proof.
  intros Hv. apply (wp_foldM_prefix
    (λ done acc w, view f d0 st acc.1 w ∧ acc = foldl skip_local (rs, ch) done) _ _ _ [] order);
    [done|].
  intros done x rest [rs1 ch1] w1 _ [Hv1 Eacc]. wp_use wp_skip_one; [exact Hv1|].
  intros [acc|e] w2; simpl; [|tauto]. intros [Hv2 ->]. split; [done|].
  by rewrite foldl_snoc, <-Eacc.
Qed.

(** A step that depends on a dead step through steps that have not started. *)
Inductive doomed (rs : runState) : string → Prop :=
| Doomed_dead name s dep d :
    rs !! name = Some s → undispatched s = true → dep ∈ Step.DependsOn s →
    rs !! dep = Some d → dead (Step.Status d) = true → doomed rs name
| Doomed_dep name s dep :
    rs !! name = Some s → undispatched s = true → dep ∈ Step.DependsOn s →
    doomed rs dep → doomed rs name.

(** [rs'] is [rs] with some doomed steps marked SKIPPED. *)
Definition partly_skipped (rs rs' : runState) : Prop := ∀ name,
  rs' !! name = rs !! name ∨
  doomed rs name ∧ ∃ s, rs !! name = Some s ∧ rs' !! name = Some (set_Status s StepSkipped).

Lemma blocked_inv rs s : blocked rs s = true ↔
  ∃ dep d, dep ∈ Step.DependsOn s ∧ rs !! dep = Some d ∧ dead (Step.Status d) = true.
Proof.
  unfold blocked. rewrite existsb_exists. split.
  - intros (dep & Hd%list_elem_of_In & H). destruct (rs !! dep) as [d|] eqn:Ed; [|done].
    exists dep, d. split_and!; [done..|]. by destruct (Step.Status d).
  - intros (dep & d & Hd & Ed & H). exists dep. rewrite <-list_elem_of_In, Ed.
    split; [done|]. by destruct (Step.Status d).
Qed.

Lemma skip_local_partly rs acc name :
  partly_skipped rs acc.1 → partly_skipped rs (skip_local acc name).1.
Proof.
  intros Hp. unfold skip_local. destruct (acc.1 !! name) as [s|] eqn:Es; [|done].
  destruct (skippable acc.1 s) eqn:Ek; [|done]. simpl. intros n.
  destruct (decide (n = name)) as [->|]; [|by rewrite lookup_insert_ne].
  rewrite lookup_insert_eq. apply andb_true_iff in Ek as [Eu (dep & d & Hd & Ed & Hdead)%blocked_inv].
  assert (rs !! name = Some s) as Ers.
  { destruct (Hp name) as [<-|[_ (t & _ & Et)]]; [done|]. rewrite Es in Et. by simplify_eq. }
  right. split; [|by eauto]. destruct (Hp dep) as [E'|[? _]]; [|by eapply Doomed_dep].
  eapply Doomed_dead; eauto. by rewrite <-E'.
Qed.

Lemma skip_foldl_partly rs order : ∀ acc,
  partly_skipped rs acc.1 → partly_skipped rs (foldl skip_local acc order).1.
Proof. induction order as [|n order IH]; intros acc Hp; simpl; [done|]. by apply IH, skip_local_partly. Qed.

(** Number of steps that have not started. *)
Definition pending_count (rs : runState) : nat := size (filter (λ kv, undispatched kv.2 = true) rs).

Lemma skip_local_count acc name :
  skip_local acc name = acc ∧ (∀ s, acc.1 !! name = Some s → skippable acc.1 s = false) ∨
  (skip_local acc name).2 = true ∧
  (pending_count (skip_local acc name).1 < pending_count acc.1)%nat.
Proof.
  unfold skip_local. destruct (acc.1 !! name) as [s|] eqn:Es; [|by left].
  destruct (skippable acc.1 s) eqn:Ek; [right|left; by split; [|intros ? [= <-]]].
  split; [done|]. simpl. unfold pending_count. apply andb_true_iff in Ek as [Eu _].
  rewrite map_filter_insert_False by done.
  assert (filter (λ kv : string * Step.t, undispatched kv.2 = true) (delete name acc.1) =
          delete name (filter (λ kv : string * Step.t, undispatched kv.2 = true) acc.1)) as ->
    by apply map_filter_delete.
  rewrite map_size_delete. rewrite (map_lookup_filter_Some_2 _ _ _ s) by done. simpl.
  assert (size (filter (λ kv : string * Step.t, undispatched kv.2 = true) acc.1) ≠ 0%nat); [|lia].
  apply map_size_ne_0_lookup. exists name. by rewrite (map_lookup_filter_Some_2 _ _ _ s).
Qed.

Lemma skip_foldl_mono order : ∀ acc, acc.2 = true →
  (foldl skip_local acc order).2 = true ∧
  (pending_count (foldl skip_local acc order).1 ≤ pending_count acc.1)%nat.
Proof.
  induction order as [|n order IH]; intros acc Hacc; simpl; [done|].
  destruct (skip_local_count acc n) as [[-> _]|[H1 H2]]; [auto|].
  destruct (IH _ H1). split; [done|lia].
Qed.

Lemma skip_foldl_count order : ∀ acc, acc.2 = false →
  foldl skip_local acc order = acc ∧
    (∀ n s, n ∈ order → acc.1 !! n = Some s → skippable acc.1 s = false) ∨
  (foldl skip_local acc order).2 = true ∧
    (pending_count (foldl skip_local acc order).1 < pending_count acc.1)%nat.
Proof.
  induction order as [|n order IH]; intros acc Hacc; simpl; [left; split; [done|inversion 1]|].
  destruct (skip_local_count acc n) as [[-> Hn]|[H1 H2]].
  - destruct (IH acc Hacc) as [[Eq Hall]|?]; [left|by right].
    split; [done|]. intros m s [->|Hm]%elem_of_cons; eauto.
  - right. destruct (skip_foldl_mono order _ H1). split; [done|lia].
Qed.

(** Nothing is left to skip. *)
Definition skip_closed (rs : runState) : Prop :=
  ∀ name s, rs !! name = Some s → skippable rs s = false.

Lemma keys_elem rs n name : name ∈ range_order n (keys rs) ↔ is_Some (rs !! name).
Proof.
  rewrite (range_order_perm n). unfold keys. rewrite list_elem_of_fmap. split.
  - intros ([k v] & -> & Hk%elem_of_map_to_list). by eexists.
  - intros [v Hv]. exists (name, v). by rewrite elem_of_map_to_list.
Qed.

(** With more passes than unstarted steps, the last pass changes nothing. *)
Lemma wp_skip_passes f d0 st rs0 fuel : ∀ rs w,
  (pending_count rs < fuel)%nat → partly_skipped rs0 rs → view f d0 st rs w →
  wp (Engine.skip_passes run fuel rs)
    (post (λ rs' w', view f d0 st rs' w' ∧ partly_skipped rs0 rs' ∧ skip_closed rs')
          (λ _ _, may_fail)) w.
Proof.
  induction fuel as [|fuel IH]; intros rs w Hf Hp Hv; [lia|]. simpl.
  apply wp_bind, (wp_eq _ _ _ (later w id) (Ok (range_order (tick w) (keys rs)))); [done|]. simpl.
  pose proof (view_quiet _ _ _ _ _ _ Hv (quiet_tick f w (v_good _ _ _ _ _ Hv))) as Hv1.
  apply wp_bind. wp_use wp_skip_pass; [exact Hv1|].
  intros [[rs1 ch]|e] w2; simpl; [|done]. intros [Hv2 Eacc].
  pose proof (skip_foldl_partly rs0 (range_order (tick w) (keys rs)) (rs, false) Hp) as Hp1.
  destruct (skip_foldl_count (range_order (tick w) (keys rs)) (rs, false)) as [[Eq Hall]|[Hch Hlt]];
    [done|rewrite <-Eacc in *; simpl in *..].
  - injection Eq as -> ->. apply wp_ret. split_and!; [done..|].
    intros n s Hs. eapply Hall; [|done]. apply keys_elem. eauto.
  - subst ch. apply IH; [lia|done..].
Qed.

Lemma pending_le rs : (pending_count rs ≤ size rs)%nat.
Proof. apply map_size_filter. Qed.

(** [rs'] is [rs] with exactly the doomed steps marked SKIPPED. *)
Definition skipped_exactly (rs rs' : runState) : Prop := ∀ name,
  (doomed rs name → ∃ s, rs !! name = Some s ∧ rs' !! name = Some (set_Status s StepSkipped)) ∧
  (¬ doomed rs name → rs' !! name = rs !! name).

Lemma skip_closed_exactly rs rs' :
  partly_skipped rs rs' → skip_closed rs' → skipped_exactly rs rs'.
Proof.
  intros Hp Hc.
  assert (∀ n s, rs !! n = Some s → undispatched s = true → blocked rs' s = true →
     ∃ s, rs !! n = Some s ∧ rs' !! n = Some (set_Status s StepSkipped)) as Hkey.
  { intros n s Hs Hu Hb. destruct (Hp n) as [E'|[_ H']]; [|done].
    rewrite Hs in E'. specialize (Hc n s E'). unfold skippable in Hc.
    by rewrite Hu, Hb in Hc. }
  intros name. split.
  - induction 1 as [n s dep d Hs Hu Hd Ed Hdead|n s dep Hs Hu Hd _ (d & Hd1 & Hd2)];
      apply (Hkey n s Hs Hu), blocked_inv.
    + destruct (Hp dep) as [E'|[Hdoom (t & Et & Et')]]; [exists dep, d; by rewrite E'|].
      exists dep, (set_Status t StepSkipped). by rewrite Et'.
    + by exists dep, (set_Status d StepSkipped).
  - intros Hn. by destruct (Hp name) as [?|[? _]].
Qed.

Lemma wp_propagateSkips f d0 st rs w :
  view f d0 st rs w →
  wp (Engine.propagateSkips run rs)
    (post (λ rs' w', view f d0 st rs' w' ∧ skipped_exactly rs rs' ∧ skip_closed rs')
          (λ _ _, may_fail)) w.
Proof.
  intros Hv. unfold Engine.propagateSkips. pose proof (pending_le rs).
  wp_use (wp_skip_passes f d0 st rs); [lia|by left|exact Hv|].
  intros [rs'|e] w'; simpl; [|done]. intros (? & ? & ?). split_and!; auto using skip_closed_exactly.
Qed.
(** * Signals *)

Lemma quiet_signals f w w' g :
  good c0 o f w → db w' = set_signals g (db w) → (tick w ≤ tick w')%nat → quiet f w w'.
Proof.
  intros Hg Hdb Ht. split; [|rewrite Hdb; by split..|unfold run_status; by rewrite Hdb].
  eapply (good_data c0 o f w w' (definitions (db w)) (g (signals (db w)))); [done| |done|done].
  exact (inv_defs _ (g_inv _ _ _ _ Hg)).
Qed.

Lemma wp_MarkSignalProcessed f w id :
  good c0 o f w → wp (MarkSignalProcessed id) (post (λ _ w', quiet f w w') (λ _ _, may_fail)) w.
Proof.
  intros Hg. wp_law law_MarkSignalProcessed. intros [b|e] w' [H Ht]; simpl in *; [|done].
  destruct H as [g Hdb]. by eapply quiet_signals.
Qed.

(** The step may be resolved by a signal. *)
Definition awaits (ss : steps_map) (row : Step.t) : Prop :=
  awaits_signal row ∧ (may_start ss row ∨ Step.Status row = StepWaiting).

Definition resolved (f : option uuid) (s : Step.t) (w : World) (res : Step.t * bool) (w' : World) : Prop :=
  res.2 = true ∧ Step.Status res.1 = StepCompleted ∧ stepped f s res.1 w w' ∨
  res = (s, false) ∧ quiet f w w'.

Lemma resolved_quiet f s w w1 res w' :
  quiet f w w1 → resolved f s w1 res w' → resolved f s w res w'.
Proof.
  intros Hq [(? & ? & ?)|[? ?]]; [left; split_and!; [done..|by eapply quiet_stepped]|right].
  split; [done|by eapply quiet_trans].
Qed.

Lemma wp_try_signals f st want s row sigs : ∀ w,
  good c0 o f w → run_status (db w) rid = Some st → steps (db w) !! Step.ID s = Some row →
  agrees s row → Step.WorkflowRunID s = rid → awaits (steps (db w)) row →
  wp (Engine.try_signals run want s sigs) (post (resolved f s w) (λ _ _, may_fail)) w.
Proof.
  induction sigs as [|sig sigs IH]; intros w Hg Hst Hrow Hag Hr Haw; simpl.
  { apply wp_ret. right. split; [done|by apply quiet_refl]. }
  case_decide; [|by apply IH].
  apply wp_bind. wp_use wp_MarkSignalProcessed; [exact Hg|].
  intros [[]|e] w1; simpl; [| |done]; intros Hq;
    pose proof (qt_steps _ _ _ Hq) as Hss; pose proof (qt_run _ _ _ Hq) as Hrs.
  2: { wp_use IH; [by apply Hq|by rewrite Hrs|by rewrite Hss|done..|by rewrite Hss|].
    intros [res|e] w'; simpl; [by apply resolved_quiet|done]. }
  apply wp_bind. wp_use wp_move; [by apply Hq|by rewrite Hss|done..| |].
  { destruct Haw. apply Move_signal; [done|]. by rewrite Hss. }
  intros [ok|e] w2; simpl; [|done]. intros [-> Hstep].
  specialize (Hstep (set_Output (set_Status s StepCompleted) (Signal.Payload sig))).
  assert (stepped f s (set_Output (set_Status s StepCompleted) (Signal.Payload sig)) w1 w2) as Hsd
    by by apply Hstep.
  apply wp_bind. rewrite Hrun.
  wp_use wp_history; [by apply Hsd|by rewrite (sd_run _ _ _ _ _ Hsd), Hrs|].
  intros [h|e] w3; simpl; [|done]. intros Hq3. apply wp_ret. left. split_and!; [done..|].
  eapply quiet_stepped; [done|]. by eapply stepped_quiet.
Qed.

Lemma wp_tryResolveSignalWait f st s row w :
  good c0 o f w → run_status (db w) rid = Some st → steps (db w) !! Step.ID s = Some row →
  agrees s row → Step.WorkflowRunID s = rid → awaits (steps (db w)) row →
  wp (Engine.tryResolveSignalWait run s) (post (resolved f s w) (λ _ _, may_fail)) w.
Proof.
  intros Hg Hst Hrow Hag Hr Haw. unfold Engine.tryResolveSignalWait.
  apply wp_bind. wp_law law_ListUnprocessedSignals. intros [l|e] w1 [Hdb Ht]; simpl in *; [|done].
  pose proof (quiet_still f w w1 Hg Hdb Ht) as Hq.
  wp_use (wp_try_signals f st (Engine.wantName s) s row l w1); [by apply Hq|by rewrite Hdb..|done|done| |];
    [by rewrite Hdb|].
  intros [res|e] w'; simpl; [by apply resolved_quiet|done].
Qed.
(** * Dispatch *)

Hypothesis Hu : uuid_unique.

Definition queued (s : Step.t) : Step.t :=
  set_AttemptCount (set_Status s StepQueued) (Step.AttemptCount s + 1).

Definition clear_fired (f : option uuid) (sid : uuid) : option uuid :=
  if decide (f = Some sid) then None else f.

(** The tables after [CreateTaskAttempt], [InsertOutboxMessage] and the
    compare-and-swap of [dispatchStep]. *)
Definition dispatched (d : Tables) (sid : uuid) (row' : Step.t) (a : TaskAttempt.t)
    (m : OutboxMessage.t) : Tables :=
  let k := nextOutboxID d + 1 in
  set_steps (insert sid row') (set_outbox (insert k m) k (set_attempts (insert (TaskAttempt.ID a) a) d)).

Lemma good_dispatch f w w' s row row' a m k :
  good c0 o f w → steps (db w) !! Step.ID s = Some row → agrees s row →
  Step.WorkflowRunID s = rid → may_start (steps (db w)) row ∨ Step.Status row = StepRetryBackoff →
  same_step row' row → Step.Status row' = StepQueued →
  Step.AttemptCount row' = Step.AttemptCount row + 1 →
  TaskAttempt.ID a = uuid_New k → (tick w ≤ k < tick w')%nat → TaskAttempt.StepID a = Step.ID s →
  TaskAttempt.WorkflowRunID a = rid → TaskAttempt.AttemptNumber a = Step.AttemptCount s + 1 →
  TaskAttempt.Status a = AttemptQueued →
  announces m a → OutboxMessage.ID m = nextOutboxID (db w) + 1 →
  db w' = dispatched (db w) (Step.ID s) row' a m →
  stepped (clear_fired f (Step.ID s)) s (queued s) w w'.
Proof.
  intros Hg Hrow [Hsame Hst Hc] Hr Hcase Hs' Hq Hc' Hid Hk Hsid Hrid Hnum Hqd Han Hm Hdb.
  destruct w' as [d' n']. simpl in *. subst d'.
  assert (attempts (db w) !! TaskAttempt.ID a = None) as Hfresh.
  { rewrite Hid. destruct (attempts (db w) !! uuid_New k) eqn:Ea; [|done].
    destruct (fresh_id w k Hu (g_bounded _ _ _ _ Hg)); [lia|].
    right; right; left. by rewrite Ea. }
  split; [| | | |done].
  - eapply good_trans; [done| |lia|].
    + apply (T_dispatch _ _ _ (Step.ID s) row row'); try done; [|congruence].
      by rewrite (st_run _ _ Hsame), Hr.
    + intros i Hi. unfold has in *. simpl in *. destruct Hi as [?|[Hi|[Hi|?]]]; [by left; left| | |].
      * left. right; left. by eapply insert_is_Some.
      * destruct (decide (i = TaskAttempt.ID a)) as [->|];
          [right; rewrite Hid; exists k; simpl; split; [lia|done]|].
        rewrite lookup_insert_ne in Hi by done. left. by right; right; left.
      * left. by right; right; right.
  - split; simpl; [|done| |done].
    + intros i t Hne. apply (insert_other _ _ row _ Step.WorkflowRunID rid); [done| | |done];
        [by rewrite (st_run _ _ Hsame)|by rewrite (st_run _ _ Hs'), (st_run _ _ Hsame)].
    + intros i b Hne. by apply (insert_new_other _ _ _ TaskAttempt.WorkflowRunID rid).
  - exists row'. split; [done|]. split; simpl; [|done|congruence].
    by eapply same_step_trans; [|done]; [destruct Hsame].
  - by split.
Qed.

Lemma wp_dispatchStep f st s row from w :
  good c0 o f w → run_status (db w) rid = Some st → steps (db w) !! Step.ID s = Some row →
  agrees s row → Step.WorkflowRunID s = rid → Step.Status s ∈ from →
  may_start (steps (db w)) row ∨ Step.Status row = StepRetryBackoff →
  wp (Engine.dispatchStep run s from)
    (post (λ s' w', s' = queued s ∧ stepped (clear_fired f (Step.ID s)) s s' w w')
          (λ _ _, may_fail)) w.
Proof.
  intros Hg Hst Hrow Hag Hr Hfrom Hcase. unfold Engine.dispatchStep.
  pose proof (good_keyed _ _ _ _ Hg) as Hk0.
  assert (marshal_raw (Step.Input s) ≠ None) as Hin.
  { rewrite <-(st_input _ _ (ag_same _ _ Hag)). apply (si_input _ (inv_steps _ (g_inv _ _ _ _ Hg)) _ _ Hrow). }
  apply wp_bind. eapply wp_mono; [apply wp_steady, wp_wrap_err, law_CreateTaskAttempt; steady|].
  intros [a|e] w1; simpl; [|tauto].
  intros [((k & Hk & Hid) & Hsid & Hrid & Hnum & Hqd & Hqn & Hdb1) Ht1].
  destruct (marshal_raw (Step.Input s)) as [input|]; [|done].
  apply wp_bind. eapply wp_mono; [apply wp_steady, wp_wrap_err, law_InsertOutboxMessage; steady|].
  intros [mid|e] w2; simpl; [|tauto].
  intros [(-> & m & i & Hmid & Hagg & _ & Hstr & _ & Hpay & Hdb2) Ht2]. rewrite Hdb1 in Hdb2, Hmid; simpl in *.
  apply wp_bind. wp_law law_UpdateStepStatus.
  { rewrite Hdb2. by apply keyed_outbox; [apply keyed_attempt|]. }
  intros [[]|e] w3; simpl; [| |intros [[? _] _]; done]; rewrite Hdb2; intros [H Ht3]; simpl in *.
  2: { destruct H as [Hno _]. destruct (Hno row Hrow). by rewrite (ag_status _ _ Hag). }
  destruct H as (row0 & row' & Hrow0 & _ & Hs' & Est' & Ec' & Hdb3). simplify_eq/=.
  assert (stepped (clear_fired f (Step.ID s)) s (queued s) w w3) as Hsd.
  { eapply (good_dispatch f w w3 s row row' a m k); try done; [lia|by rewrite Hrid|].
    unfold announces. by rewrite Hpay, Hagg, Hstr, Hsid, Hrid, Hnum, Hqn. }
  apply wp_bind. rewrite Hrun. wp_use wp_history; [by apply Hsd|by rewrite (sd_run _ _ _ _ _ Hsd)|].
  intros [h|e] w4; simpl; [|done]. intros Hq. apply wp_ret. split; [done|].
  by eapply stepped_quiet.
Qed.

(** * [dispatchReady] *)

Definition waiting (s : Step.t) : bool := bool_decide (Step.Status s = StepWaiting).

(** A step satisfying [P] was moved on by [dispatchReady]. *)
Record advance (P : Step.t → bool) (s s' : Step.t) : Prop := {
  ad_from : P s = true;
  ad_same : same_step s' s;
  ad_to : Step.Status s' = StepQueued ∨ Step.Status s' = StepWaiting ∨
          Step.Status s' = StepCompleted ∧
            (Step.Status s = StepWaiting ∨ Step.TaskType s = Engine.signalWaitTaskType)
}.

(** Step by step, [rs'] is [rs] or has advanced. *)
Definition progressed (P : Step.t → bool) (rs rs' : runState) : Prop := ∀ name,
  match rs !! name, rs' !! name with
  | Some s, Some s' => s' = s ∨ advance P s s'
  | None, None => True
  | _, _ => False
  end.

Lemma progressed_refl P rs : progressed P rs rs.
Proof. intros n. destruct (rs !! n); auto. Qed.

Lemma progressed_insert P rs rs' name s s' :
  progressed P rs rs' → rs' !! name = Some s → rs !! name = Some s → advance P s s' →
  progressed P rs (<[name := s']> rs').
Proof.
  intros Hp Hs' Hs Ha n. destruct (decide (n = name)) as [->|].
  - rewrite Hs, lookup_insert_eq. auto.
  - rewrite lookup_insert_ne by done. apply Hp.
Qed.

(** A step that still satisfies [P] has not been touched. *)
Lemma progressed_untouched P rs rs' n s' :
  (∀ s, Step.Status s = StepQueued ∨ Step.Status s = StepCompleted → P s = false) →
  (∀ s, Step.Status s = StepWaiting → P s = false) →
  progressed P rs rs' → rs' !! n = Some s' → P s' = true → rs !! n = Some s'.
Proof.
  intros HP HW Hp Hs' HPs. specialize (Hp n). rewrite Hs' in Hp.
  destruct (rs !! n) as [s|]; [|done]. destruct Hp as [->|[_ _ [E'|[E'|[E' _]]]]]; [done|..];
    [rewrite HP in HPs|rewrite HW in HPs|rewrite HP in HPs]; auto; done.
Qed.

Lemma wp_resolve_one f d0 st rs w name :
  view f d0 st rs w →
  wp (Engine.resolve_one run rs name)
    (post (λ rs' w', view f d0 st rs' w' ∧
             (rs' = rs ∨ ∃ s s', rs !! name = Some s ∧ rs' = <[name := s']> rs ∧
                advance waiting s s' ∧ Step.Status s' = StepCompleted))
          (λ _ _, may_fail)) w.
Proof.
  intros Hv. unfold Engine.resolve_one.
  destruct (rs !! name) as [s|] eqn:Es; [|apply wp_ret; simpl; auto].
  case_decide as Ew; [|apply wp_ret; simpl; auto].
  destruct (ar_row _ _ _ (v_agree _ _ _ _ _ Hv) name s Es) as (Hr & Hn & row & Hrow & Ha).
  apply wp_bind. wp_use wp_tryResolveSignalWait; [by apply Hv..|done|done|done| |].
  { assert (Step.Status row = StepWaiting) as Hw by by rewrite (ag_status _ _ Ha).
    split; [|by right].
    eapply si_wait; [exact (inv_steps _ (g_inv _ _ _ _ (v_good _ _ _ _ _ Hv)))|done..]. }
  intros [[s' b]|e] w'; simpl; [|done].
  intros [(_ & Ec & Hsd)|[[= -> ->] Hq]]; apply wp_ret; split; simpl in *.
  - by eapply view_stepped.
  - right. exists s, s'. split_and!; [done..| |done]. split; [by apply bool_decide_eq_true| |by auto].
    apply (sd_same _ _ _ _ _ Hsd).
  - rewrite insert_id by done. by eapply view_quiet.
  - left. by rewrite insert_id.
Qed.

(** First loop: only WAITING steps change, to COMPLETED. *)
Lemma wp_resolve_all f d0 st rs order w :
  view f d0 st rs w → 
  wp (foldM (Engine.resolve_one run) rs order)
    (post (λ rs' w', view f d0 st rs' w' ∧ progressed waiting rs rs') (λ _ _, may_fail)) w.
Proof.
  intros Hv. apply (wp_foldM (λ rs' w', view f d0 st rs' w' ∧ progressed waiting rs rs'));
    [by auto using progressed_refl|].
  intros rs1 name w1 _ [Hv1 Hp]. wp_use wp_resolve_one; [exact Hv1|].
  intros [rs2|e] w2; simpl; [|done]. intros [Hv2 [->|(s & s' & Hs & -> & Ha & Ec)]]; [done|].
  split; [done|]. specialize (Hp name) as Hn. rewrite Hs in Hn.
  destruct (rs !! name) as [s0|] eqn:Es0; [|done]. destruct Hn as [->|Ha0].
  - by eapply progressed_insert.
  - intros n. destruct (decide (n = name)) as [->|]; [|rewrite lookup_insert_ne by done; apply Hp].
    rewrite Es0, lookup_insert_eq. right. destruct Ha0 as [Hf0 Hs0 _], Ha as [_ Hsame _].
    split; [done|by eapply same_step_trans|]. right; right. split; [done|].
    left. by apply bool_decide_eq_true in Hf0.
Qed.
Lemma wp_dispatch_one d0 st rs w name :
  view None d0 st rs w →
  wp (Engine.dispatch_one run rs name)
    (post (λ rs' w', view None d0 st rs' w' ∧
       (rs' = rs ∧ (∀ s, rs !! name = Some s → undispatched s = true → ready rs s = false) ∨
        ∃ s s', rs !! name = Some s ∧ rs' = <[name := s']> rs ∧ ready rs s = true ∧
                advance undispatched s s'))
          (λ _ _, may_fail)) w.
Proof.
  intros Hv. unfold Engine.dispatch_one.
  destruct (rs !! name) as [s|] eqn:Es; [|apply wp_ret; split; [done|left; by split]].
  destruct (undispatched s) eqn:Eu; simpl;
    [|apply wp_ret; split; [done|left; split; [done|intros ? [= <-]; congruence]]].
  destruct (ready rs s) eqn:Er; simpl;
    [|apply wp_ret; split; [done|left; split; [done|by intros ? [= <-]]]].
  destruct (ar_row _ _ _ (v_agree _ _ _ _ _ Hv) name s Es) as (Hr & Hn & row & Hrow & Ha).
  assert (may_start (steps (db w)) row) as Hms.
  { split; [by eapply undispatched_fresh|].
    by eapply ready_deps; [apply Hv|by eapply view_key|..]. }
  case_decide as Et; cycle 1; apply wp_bind.
  { wp_use wp_dispatchStep; [by apply Hv..|done|done|done|by constructor|by left|].
    intros [s'|e] w'; simpl; [|done]. intros [-> Hsd]. apply wp_ret.
    split; [by eapply view_stepped|]. right. exists s, (queued s). split_and!; [done..|].
    split; [done|apply Hsd|by left]. }
  assert (awaits_signal row) as Hsig by by unfold awaits_signal; rewrite (st_type _ _ (ag_same _ _ Ha)).
  wp_use wp_tryResolveSignalWait; [by apply Hv..|done|done|done|by split; [|left]|].
  intros [[s' b]|e] w'; simpl; [|done].
  intros [(Eb & Ec & Hsd)|[[= -> ->] Hq]]; simpl in *.
  { subst b. apply wp_ret. split; [by eapply view_stepped|]. right. exists s, s'. split_and!; [done..|].
    split; [done|apply Hsd|by auto]. }
  pose proof (view_quiet _ _ _ _ _ _ Hv Hq) as Hv'. rewrite <-(qt_steps _ _ _ Hq) in *.
  apply wp_bind. wp_use wp_move; [by apply Hv'|done..|by apply Move_wait|].
  intros [ok|e] w2; simpl; [|done]. intros [-> Hstep]. apply wp_ret.
  assert (stepped None s (set_Status s StepWaiting) w' w2) as Hsd by by apply Hstep.
  split; [by eapply view_stepped|]. right. exists s, (set_Status s StepWaiting).
  split_and!; [done..|]. split; [done|done|by auto].
Qed.

Lemma undispatched_false s :
  Step.Status s = StepQueued ∨ Step.Status s = StepWaiting ∨ Step.Status s = StepCompleted →
  undispatched s = false.
Proof. unfold undispatched. by intros [->|[->| ->]]. Qed.

Lemma undispatched_untouched rs rs' n s' :
  progressed undispatched rs rs' → rs' !! n = Some s' → undispatched s' = true → rs !! n = Some s'.
Proof. apply progressed_untouched; intros s Hs; apply undispatched_false; naive_solver. Qed.

(** COMPLETED dependencies stay COMPLETED. *)
Lemma ready_mono P rs rs' s :
  (∀ t, Step.Status t = StepCompleted → P t = false) →
  progressed P rs rs' → ready rs s = true → ready rs' s = true.
Proof.
  unfold ready. rewrite !forallb_forall. intros HP Hp Hr dep Hd. specialize (Hr dep Hd).
  specialize (Hp dep). destruct (rs !! dep) as [d|]; [|done].
  destruct (rs' !! dep) as [d'|]; [|done]. apply bool_decide_eq_true in Hr.
  destruct Hp as [->|[Hf _ _]]; [by apply bool_decide_eq_true|]. rewrite HP in Hf; done.
Qed.

Lemma ready_mono_undispatched rs rs' s :
  progressed undispatched rs rs' → ready rs s = true → ready rs' s = true.
Proof. apply ready_mono. intros t Et. apply undispatched_false. auto. Qed.

(** Second loop: every step that was ready when it began has been moved on. *)
Lemma wp_dispatch_all d0 st rs order w :
  view None d0 st rs w →
  wp (foldM (Engine.dispatch_one run) rs order)
    (post (λ rs' w', view None d0 st rs' w' ∧ progressed undispatched rs rs' ∧
             ∀ n s, n ∈ order → rs' !! n = Some s → undispatched s = true → ready rs s = false)
          (λ _ _, may_fail)) w.
Proof.
  intros Hv. apply (wp_foldM_prefix (λ done rs' w', view None d0 st rs' w' ∧
      progressed undispatched rs rs' ∧
      ∀ n s, n ∈ done → rs' !! n = Some s → undispatched s = true → ready rs s = false)
    _ _ _ [] order); [split_and!; [done|apply progressed_refl|inversion 1]|].
  intros done x rest rs1 w1 _ (Hv1 & Hp & Hd). wp_use wp_dispatch_one; [exact Hv1|].
  intros [rs2|e] w2; simpl; [|tauto].
  intros [Hv2 [[-> Hno]|(s & s' & Hs & -> & Hr & Ha)]]; (split; [done|]).
  - split; [done|]. intros n s [Hn| ->%list_elem_of_singleton]%elem_of_app Hs Hus; [by eapply Hd|].
    destruct (ready rs s) eqn:Er; [|done].
    specialize (Hno s Hs Hus). by rewrite (ready_mono_undispatched _ _ _ Hp Er) in Hno.
  - split.
    + eapply progressed_insert; [done..| |done]. eapply undispatched_untouched; [done..|apply Ha].
    + intros n t [Hn|Hn]%elem_of_app Ht Hut;
        apply lookup_insert_Some in Ht as [[<- <-]|[Hne Ht]]; try (by eapply Hd).
      * destruct Ha as [_ _ Hto]. rewrite undispatched_false in Hut; [done|naive_solver].
      * destruct Ha as [_ _ Hto]. rewrite undispatched_false in Hut; [done|naive_solver].
      * by apply list_elem_of_singleton in Hn.
Qed.
(** What [dispatchReady] did: WAITING steps resolved first ([rs1]), then every
    unstarted step whose dependencies were all COMPLETED in [rs1] moved on. *)
Definition dispatched_ready (rs rs' : runState) : Prop := ∃ rs1,
  progressed waiting rs rs1 ∧ progressed undispatched rs1 rs' ∧
  ∀ n s, rs' !! n = Some s → undispatched s = true → ready rs1 s = false.

Lemma wp_dispatchReady d0 st rs w :
  view None d0 st rs w →
  wp (Engine.dispatchReady run rs)
    (post (λ rs' w', view None d0 st rs' w' ∧ dispatched_ready rs rs') (λ _ _, may_fail)) w.
Proof.
  intros Hv. unfold Engine.dispatchReady.
  apply wp_bind, (wp_eq _ _ _ (later w id) (Ok (range_order (tick w) (keys rs)))); [done|]. simpl.
  pose proof (view_quiet _ _ _ _ _ _ Hv (quiet_tick None w (v_good _ _ _ _ _ Hv))) as Hv1.
  apply wp_bind. wp_use wp_resolve_all; [exact Hv1|].
  intros [rs1|e] w1; simpl; [|done]. intros [Hv2 Hp1].
  apply wp_bind, (wp_eq _ _ _ (later w1 id) (Ok (range_order (tick w1) (keys rs1)))); [done|]. simpl.
  pose proof (view_quiet _ _ _ _ _ _ Hv2 (quiet_tick None w1 (v_good _ _ _ _ _ Hv2))) as Hv3.
  wp_use wp_dispatch_all; [exact Hv3|].
  intros [rs2|e] w2; simpl; [|done]. intros (Hv4 & Hp2 & Hall). split; [done|].
  exists rs1. split_and!; [done..|]. intros n s Hs Hus. eapply Hall; [|done..].
  apply keys_elem. exists s. by eapply undispatched_untouched.
Qed.

(** * [checkRunCompletion] *)

Lemma values_elem' rs n s : s ∈ range_order n (values rs) ↔ ∃ name, rs !! name = Some s.
Proof. apply values_elem. Qed.

(** Some step of the run state has status [x]. *)
Definition some_status (rs : runState) (x : StepStatus) : bool :=
  existsb (Engine.has_status x) (values rs).

Lemma some_status_true rs x : some_status rs x = true ↔ ∃ name s, rs !! name = Some s ∧ Step.Status s = x.
Proof.
  unfold some_status, Engine.has_status, values. rewrite existsb_exists. split.
  - intros (s & Hs%list_elem_of_In & E'%bool_decide_eq_true).
    apply list_elem_of_fmap in Hs as ([n s'] & -> & Hn%elem_of_map_to_list). eauto.
  - intros (n & s & Hs & E'). exists s. rewrite <-list_elem_of_In. split; [|by apply bool_decide_eq_true].
    apply list_elem_of_fmap. exists (n, s). by rewrite elem_of_map_to_list.
Qed.

(** The verdict over a run whose steps are all terminal. *)
Definition verdict (rs : runState) : RunStatus :=
  if some_status rs StepFailed then RunFailed
  else if some_status rs StepCancelled then RunCancelled
  else RunCompleted.

Definition next_status (st : RunStatus) (rs : runState) : RunStatus :=
  if allTerminal rs then verdict rs
  else if bool_decide (st = RunPending) && Engine.anyDispatchedOrRunning rs then RunRunning
  else st.

Lemma allTerminal_true rs : allTerminal rs = true ↔
  ∀ name s, rs !! name = Some s → StepTerminal (Step.Status s) = true.
Proof.
  unfold allTerminal, values. rewrite forallb_forall. split.
  - intros Hall n s Hs. apply Hall, list_elem_of_In, list_elem_of_fmap.
    exists (n, s). by rewrite elem_of_map_to_list.
  - intros Hall s Hs%list_elem_of_In. apply list_elem_of_fmap in Hs as ([n s'] & -> & Hn).
    apply elem_of_map_to_list in Hn. by eapply Hall.
Qed.

Lemma agree_row_status rs ss id row :
  agree rs rid ss → ss !! id = Some row → Step.WorkflowRunID row = rid →
  ∃ name s, rs !! name = Some s ∧ Step.Status s = Step.Status row.
Proof using Type.
  clear run Hrun. intros Ha Hrow Hr. destruct (ar_all _ _ _ Ha id row Hrow Hr) as (s & Hs & Eid).
  destruct (ar_row _ _ _ Ha _ s Hs) as (_ & _ & row2 & Hrow2 & Hag). rewrite Eid in Hrow2.
  simplify_eq. exists (Step.StepName row), s. by rewrite (ag_status _ _ Hag).
Qed.

Lemma agree_local_status rs ss name s :
  agree rs rid ss → rs !! name = Some s →
  ∃ id row, ss !! id = Some row ∧ Step.WorkflowRunID row = rid ∧ Step.Status row = Step.Status s.
Proof.
  intros Ha Hs. destruct (ar_row _ _ _ Ha name s Hs) as (Hr & _ & row & Hrow & Hag).
  exists (Step.ID s), row. by rewrite (st_run _ _ (ag_same _ _ Hag)), (ag_status _ _ Hag).
Qed.

Lemma agree_terminal rs ss :
  agree rs rid ss → allTerminal rs = true →
  steps_of_run ss rid (λ s, StepTerminal (Step.Status s) = true).
Proof using Type.
  intros Ha Hall id row Hrow Hr. destruct (agree_row_status rs ss id row) as (n & s & Hs & <-); [done..|].
  by eapply allTerminal_true.
Qed.

Lemma verdict_sound rs ss :
  steps_inv ss → agree rs rid ss → allTerminal rs = true → verdict_ok ss rid (verdict rs).
Proof.
  intros Hinv Ha Hall. pose proof (agree_terminal rs ss Ha Hall) as Hterm. unfold verdict.
  destruct (some_status rs StepFailed) eqn:Ef.
  { apply some_status_true in Ef as (n & s & Hs & Es). split; [done|].
    destruct (agree_local_status rs ss n s) as (id & row & ? & ? & E'); [done..|].
    exists id, row. by rewrite E'. }
  destruct (some_status rs StepCancelled) eqn:Ec; [done|].
  assert (∀ x id row, ss !! id = Some row → Step.WorkflowRunID row = rid → Step.Status row = x →
            some_status rs x = true) as Hin.
  { intros x id row Hrow Hr <-. apply some_status_true. by eapply agree_row_status. }
  intros id row Hrow Hr. specialize (Hterm id row Hrow Hr). cbn beta in *.
  destruct (Step.Status row) eqn:Est; try done;
    [by rewrite (Hin _ _ _ Hrow Hr Est) in Ef| |by rewrite (Hin _ _ _ Hrow Hr Est) in Ec].
  destruct (si_skip _ Hinv id row Hrow Est) as (i & u & Hiu & Hru & [Eu|Eu]); rewrite Hr in Hru;
    [by rewrite (Hin _ _ _ Hiu Hru Eu) in Ef|by rewrite (Hin _ _ _ Hiu Hru Eu) in Ec].
Qed.
Lemma wp_run_move f d0 st rs w expected next out err :
  view f d0 st rs w → st ∈ expected →
  (∀ r, WorkflowRun.Status r = st → WorkflowRun.ID r = rid → run_move (steps (db w)) r next) →
  wp (UpdateWorkflowRunStatus rid expected next out err)
    (post (λ ok w', ok = true ∧ view f d0 next rs w') (λ _ _, may_fail)) w.
Proof.
  intros Hv Hin Hm. destruct (run_exists _ _ (v_run _ _ _ _ _ Hv)) as (r & Hr & Est).
  pose proof (ri_key _ _ (inv_runs _ (g_inv _ _ _ _ (v_good _ _ _ _ _ Hv))) _ _ Hr) as Hid.
  wp_law law_UpdateWorkflowRunStatus; [eapply good_keyed, v_good, Hv|].
  intros [[]|e] w' [H Ht]; simpl in *; [| |done].
  2: { destruct H as [Hno _]. destruct (Hno r Hr). by rewrite Est. }
  destruct H as (r0 & r' & Hr0 & _ & Hsame & Eseq & Est' & Hdb). simplify_eq.
  destruct (good_run c0 o f w w' rid r r') as [Hg Hl]; [apply Hv|done..|by apply Hm|done|done|].
  split; [done|]. split; [done|rewrite Hdb; apply Hv| |].
  - unfold run_status. rewrite Hdb. simpl. by rewrite lookup_insert_eq.
  - etransitivity; [apply Hv|done].
Qed.

Lemma wp_view_history f d0 st rs w ev p :
  view f d0 st rs w →
  wp (AppendHistory rid ev p) (post (λ _ w', view f d0 st rs w') (λ _ _, may_fail)) w.
Proof.
  intros Hv. wp_use wp_history; [apply Hv..|].
  intros [h|e] w'; simpl; [by apply view_quiet|done].
Qed.

Lemma nonterminal_cases st : RunTerminal st = false → st ∈ [RunPending; RunRunning].
Proof. by destruct st; intros; [constructor|constructor; constructor|..]. Qed.

Lemma wp_finish_run f d0 st rs w next out err ev p :
  view f d0 st rs w → RunTerminal st = false → RunTerminal next = true →
  verdict_ok (steps (db w)) rid next →
  wp (Engine.finish_run run next out err ev p)
    (post (λ _ w', view f d0 next rs w') (λ _ _, may_fail)) w.
Proof.
  intros Hv Hnt Ht Hok. unfold Engine.finish_run. rewrite Hrun. apply wp_bind.
  wp_use wp_run_move; [exact Hv|by apply nonterminal_cases| |].
  { intros r Est Eid. apply Move_finished; [by rewrite Est|done|by rewrite Eid]. }
  intros [ok|e] w1; simpl; [|done]. intros [-> Hv1]. apply wp_bind, wp_catch.
  wp_use wp_append; [apply Hv1..|]. intros [h|e] w2; simpl.
  - intros Hq. apply wp_ret. by eapply view_quiet.
  - intros [_ Hq]. apply wp_ret. by eapply view_quiet.
Qed.

Lemma wp_start_run f d0 st rs w :
  view f d0 st rs w → WorkflowRun.Status run = st →
  wp (if bool_decide (WorkflowRun.Status run = RunPending) && Engine.anyDispatchedOrRunning rs then
         ok ← UpdateWorkflowRunStatus (WorkflowRun.ID run) [RunPending] RunRunning None None;
         if ok : bool then
           _ ← AppendHistory (WorkflowRun.ID run) "run_started" None;
           mret tt
         else mret tt
       else mret tt)
    (post (λ _, view f d0
       (if bool_decide (st = RunPending) && Engine.anyDispatchedOrRunning rs
        then RunRunning else st) rs) (λ _ _, may_fail)) w.
Proof.
  intros Hv Est. rewrite Est. destruct (bool_decide (st = RunPending) && _) eqn:Ec; [|by apply wp_ret].
  apply andb_true_iff in Ec as [->%bool_decide_eq_true _]. rewrite Hrun. apply wp_bind.
  wp_use wp_run_move; [exact Hv|by constructor| |].
  { intros r Er _. by apply Move_started. }
  intros [ok|e] w1; simpl; [|done]. intros [-> Hv1]. apply wp_bind.
  wp_use wp_view_history; [exact Hv1|]. intros [h|e] w2; simpl; [|done]. intros Hv2.
  by apply wp_ret.
Qed.

Lemma find_failed rs n :
  match find (Engine.has_status StepFailed) (range_order n (values rs)) with
  | Some _ => some_status rs StepFailed = true
  | None => some_status rs StepFailed = false
  end.
Proof.
  destruct (find _ _) as [s|] eqn:Ef.
  - apply find_some in Ef as [Hs Es%bool_decide_eq_true].
    apply list_elem_of_In, values_elem' in Hs as [name Hs]. apply some_status_true. eauto.
  - apply not_true_is_false. intros (name & s & Hs & Es)%some_status_true.
    pose proof (find_none _ _ Ef s) as Hno. unfold Engine.has_status in Hno.
    rewrite bool_decide_eq_true_2 in Hno by done. discriminate Hno.
    apply list_elem_of_In, values_elem'. eauto.
Qed.

Lemma exists_cancelled rs n :
  existsb (Engine.has_status StepCancelled) (range_order n (values rs)) = some_status rs StepCancelled.
Proof.
  apply eq_true_iff_eq. rewrite some_status_true, existsb_exists. unfold Engine.has_status. split.
  - intros (s & Hs%list_elem_of_In & Es%bool_decide_eq_true).
    apply values_elem' in Hs as [name Hs]. eauto.
  - intros (name & s & Hs & Es). exists s. rewrite <-list_elem_of_In, values_elem'.
    split; [eauto|by apply bool_decide_eq_true].
Qed.

Lemma wp_checkRunCompletion f d0 st rs w :
  view f d0 st rs w → WorkflowRun.Status run = st → RunTerminal st = false →
  wp (Engine.checkRunCompletion run rs)
    (post (λ _, view f d0 (next_status st rs) rs) (λ _ _, may_fail)) w.
Proof.
  intros Hv Est Hnt. unfold Engine.checkRunCompletion, next_status.
  apply wp_bind. wp_use wp_start_run; [exact Hv|done|].
  intros [[]|e] w1; simpl; [|done].
  set (st1 := if bool_decide (st = RunPending) && _ then RunRunning else st). intros Hv1.
  assert (RunTerminal st1 = false) as Hnt1 by (subst st1; by destruct (_ && _)).
  destruct (allTerminal rs) eqn:Eall; simpl; [|by apply wp_ret].
  apply wp_bind, (wp_eq _ _ _ (later w1 id) (Ok (range_order (tick w1) (values rs)))); [done|].
  simpl. pose proof (view_quiet _ _ _ _ _ _ Hv1 (quiet_tick f w1 (v_good _ _ _ _ _ Hv1))) as Hv2.
  pose proof (verdict_sound rs _ (inv_steps _ (g_inv _ _ _ _ (v_good _ _ _ _ _ Hv2)))
                (v_agree _ _ _ _ _ Hv2) Eall) as Hok.
  apply wp_bind. eapply (wp_mono _ (post (λ _, view f d0 (verdict rs) rs) (λ _ _, may_fail))).
  { pose proof (find_failed rs (tick w1)) as Hff. unfold verdict in *.
    destruct (find _ _); rewrite Hff in *; [by eapply wp_finish_run|].
    rewrite exists_cancelled. destruct (some_status rs StepCancelled); by eapply wp_finish_run. }
  intros [[]|e] w2; simpl; [|done]. intros Hv3. rewrite Hrun. wp_law law_CancelTimersForRun.
  intros [[]|e] w3 [Hdb Ht]; simpl in *; [|done].
  split; [|rewrite Hdb; apply Hv3|unfold run_status; rewrite Hdb; apply Hv3|].
  - eapply good_cancel_timers; [apply Hv3| |done|done]. eapply agree_terminal; [apply Hv3|done].
  - etransitivity; [apply Hv3|]. rewrite Hdb. by split.
Qed.
(** * [reconcileTx] *)

(** The run state after a reconcile of [rs]. *)
Definition reconciled (rs rs' : runState) : Prop := ∃ rs1,
  skipped_exactly rs rs1 ∧ skip_closed rs1 ∧ dispatched_ready rs1 rs'.

Lemma wp_reconcile_view d0 st l w :
  view None d0 st (newRunState l) w → WorkflowRun.Status run = st → RunTerminal st = false →
  wp (Engine.reconcileTx run l)
    (post (λ _ w', ∃ rs', reconciled (newRunState l) rs' ∧
             view None d0 (next_status st rs') rs' w') (λ _ _, may_fail)) w.
Proof.
  intros Hv Est Hnt. unfold Engine.reconcileTx. rewrite Est, Hnt.
  apply wp_bind. wp_use wp_propagateSkips; [exact Hv|].
  intros [rs1|e] w1; simpl; [|done]. intros (Hv1 & Hsk & Hcl).
  apply wp_bind. wp_use wp_dispatchReady; [exact Hv1|].
  intros [rs2|e] w2; simpl; [|done]. intros [Hv2 Hd].
  wp_use wp_checkRunCompletion; [exact Hv2|done..|].
  intros [[]|e] w3; simpl; [|done]. intros Hv3. exists rs2. split; [by exists rs1|done].
Qed.
End pass.

End Reconcile.
