(* ===== verification/EngineSpec.v ===== *)
(** The entry points of the engine over a store that obeys its laws: each one is a
    sequence of moves of the life cycle, so it preserves the invariant, and each
    one has the effect it is for. *)

From stdpp Require Import gmap strings list relations sorting.
From S2P Require Import Prelude GoLib Json Types MemStore Dsl Engine Lifecycle.
From S2P Require Import LifecycleInv Worlds Contract Reconcile.
Open Scope Z_scope.

Module EngineSpec.
Import Lifecycle LifecycleInv Worlds Contract Reconcile.
Import Engine (runState, undispatched, blocked, ready, allTerminal, newRunState, set_Status,
  set_Output, set_AttemptCount, values, keys).

(** * What a reconcile leaves alone, and that it leaves nothing undone *)

Lemma progressed_keep P rs rs' n s :
  progressed P rs rs' → rs !! n = Some s → P s = false → rs' !! n = Some s.
Proof.
  intros Hp Hs HP. specialize (Hp n). rewrite Hs in Hp. destruct (rs' !! n) as [s'|]; [|done].
  destruct Hp as [->|[Hf _ _]]; [done|congruence].
Qed.

Lemma doomed_undispatched rs n : doomed rs n → ∃ s, rs !! n = Some s ∧ undispatched s = true.
Proof. destruct 1; eauto. Qed.

(** Steps that have started and are not WAITING are not touched. *)
Lemma reconciled_keep rs rs' n s :
  reconciled rs rs' → rs !! n = Some s → undispatched s = false → waiting s = false →
  rs' !! n = Some s.
Proof.
  intros (rs1 & Hsk & _ & rs2 & Hp1 & Hp2 & _) Hs Hund Hw.
  assert (rs1 !! n = Some s) as Hs1.
  { rewrite (proj2 (Hsk n)); [done|]. intros (t & Ht & Hut)%doomed_undispatched. congruence. }
  eapply progressed_keep; [exact Hp2| |done]. by eapply progressed_keep.
Qed.

(** A step that was unstarted and is COMPLETED now is a [signal_wait] step that
    found its signal during the pass. *)
Definition resolved_now (rs rs' : runState) (n : string) : Prop :=
  ∃ s s', rs !! n = Some s ∧ undispatched s = true ∧
          Step.TaskType s = Engine.signalWaitTaskType ∧ same_step s' s ∧
          rs' !! n = Some s' ∧ Step.Status s' = StepCompleted.

Definition has_resolved_dep (rs rs' : runState) (s : Step.t) : Prop :=
  ∃ dep, dep ∈ Step.DependsOn s ∧ resolved_now rs rs' dep.

Lemma progressed_dead P rs rs' n s' :
  progressed P rs rs' → rs' !! n = Some s' → dead (Step.Status s') = true → rs !! n = Some s'.
Proof.
  intros Hp Hs' Hd. specialize (Hp n). rewrite Hs' in Hp. destruct (rs !! n) as [s|]; [|done].
  destruct Hp as [->|[_ _ [E|[E|[E _]]]]]; [done|by rewrite E in Hd..].
Qed.

Lemma skipped_undispatched rs rs1 n s :
  skipped_exactly rs rs1 → rs1 !! n = Some s → undispatched s = true → rs !! n = Some s.
Proof.
  intros Hsk Hs Hund. destruct (Hsk n) as [H1 H2].
  rewrite <-Hs. symmetry. apply H2. intros Hd. destruct (H1 Hd) as (u & _ & Hu').
  rewrite Hs in Hu'. by simplify_eq.
Qed.

(** After a reconcile, no unstarted step is blocked by a dead dependency, and an
    unstarted step whose dependencies are all COMPLETED has one that was resolved
    by a signal during this very pass. *)
Lemma reconciled_complete rs rs' n s :
  reconciled rs rs' → rs' !! n = Some s → undispatched s = true →
  blocked rs' s = false ∧ (ready rs' s = true → has_resolved_dep rs rs' s).
Proof.
  intros (rs1 & Hsk & Hcl & rs2 & Hp1 & Hp2 & Hd) Hs Hund.
  pose proof (undispatched_untouched _ _ _ _ Hp2 Hs Hund) as Hs2.
  assert (rs1 !! n = Some s) as Hs1.
  { specialize (Hp1 n). rewrite Hs2 in Hp1. destruct (rs1 !! n) as [t|]; [|done].
    destruct Hp1 as [->|[_ _ Hto]]; [done|]. rewrite undispatched_false in Hund; naive_solver. }
  split.
  - apply not_true_is_false. intros (dep & d & Hdep & Ed & Hdead)%blocked_inv.
    specialize (Hcl n s Hs1). unfold skippable in Hcl. rewrite Hund in Hcl. simpl in Hcl.
    rewrite (proj2 (blocked_inv rs1 s)) in Hcl; [done|]. exists dep, d. split_and!; [done| |done].
    eapply progressed_dead; [exact Hp1| |done]. by eapply progressed_dead.
  - intros Hr. specialize (Hd n s Hs Hund).
    apply forallb_false in Hd as (dep & Hdep & Hno). exists dep. split; [done|].
    unfold ready in Hr. rewrite forallb_forall in Hr.
    specialize (Hr dep (proj1 (list_elem_of_In _ _) Hdep)).
    destruct (rs' !! dep) as [d'|] eqn:Ed'; [|done]. apply bool_decide_eq_true in Hr.
    specialize (Hp2 dep). rewrite Ed' in Hp2. destruct (rs2 !! dep) as [d|] eqn:Ed; [|done].
    apply bool_decide_eq_false in Hno. destruct Hp2 as [->|[Hf Hsame Hto]]; [done|].
    destruct Hto as [E|[E|[_ Htype]]]; [congruence..|].
    assert (Step.TaskType d = Engine.signalWaitTaskType) as Ht.
    { destruct Htype as [E|]; [|done]. unfold undispatched in Hf. by rewrite E in Hf. }
    exists d, d'. split_and!; [|done..]. eapply skipped_undispatched; [done| |done].
    specialize (Hp1 dep). rewrite Ed in Hp1. destruct (rs1 !! dep) as [t|]; [|done].
    destruct Hp1 as [->|[_ _ Hto]]; [done|]. rewrite undispatched_false in Hf; naive_solver.
Qed.

(** A status that means something outside the run is expected to happen. *)
Definition in_flight (st : StepStatus) : bool :=
  match st with StepQueued | StepRunning | StepRetryBackoff | StepWaiting => true | _ => false end.

(** Progress: when nothing is in flight after a reconcile, either every step is
    terminal, or an unstarted step was left behind by a signal resolved during
    the pass. *)
Lemma reconciled_progress rs rs' rid ss :
  steps_inv ss → agree rs' rid ss → reconciled rs rs' →
  (∀ n s, rs' !! n = Some s → in_flight (Step.Status s) = false) →
  allTerminal rs' = true ∨
  ∃ n s, rs' !! n = Some s ∧ undispatched s = true ∧ has_resolved_dep rs rs' s.
Proof.
  intros Hinv Ha Hrec Hidle. destruct (allTerminal rs') eqn:Et; [by left|right].
  apply forallb_false in Et as (s & Hs & Hnt).
  apply list_elem_of_fmap in Hs as ([n s0] & -> & Hs%elem_of_map_to_list). simpl in Hnt.
  revert s0 Hs Hnt. induction (si_acyclic _ Hinv rid n) as [n _ IH]. intros s Hs Hnt.
  assert (undispatched s = true) as Hund.
  { specialize (Hidle n s Hs). unfold undispatched. by destruct (Step.Status s). }
  destruct (reconciled_complete rs rs' n s Hrec Hs Hund) as [Hb Hr].
  destruct (ready rs' s) eqn:Er; [exists n, s; auto|].
  apply forallb_false in Er as (dep & Hdep & Hno).
  destruct (ar_row _ _ _ Ha n s Hs) as (Hrun & Hname & row & Hrow & Hag).
  assert (dep_in ss rid dep any_status) as Hin.
  { rewrite <-Hrun, <-(st_run _ _ (ag_same _ _ Hag)). eapply (si_closed _ Hinv); [done|].
    by rewrite (st_deps _ _ (ag_same _ _ Hag)). }
  apply (agree_dep _ _ _ Ha) in Hin as (d & Hd & _); [|apply Hinv].
  rewrite Hd in Hno. apply bool_decide_eq_false in Hno. apply (IH dep) with d; [|done|].
  - exists (Step.ID s), row. rewrite (st_run _ _ (ag_same _ _ Hag)), (st_name _ _ (ag_same _ _ Hag)),
      (st_deps _ _ (ag_same _ _ Hag)). done.
  - destruct (StepTerminal (Step.Status d)) eqn:Ed; [|done].
    rewrite (proj2 (blocked_inv rs' s)) in Hb; [done|]. exists dep, d. split_and!; [done..|].
    by destruct (Step.Status d).
Qed.

(** Some step of the run state is in flight. *)
Definition any_in_flight (rs : runState) : bool :=
  existsb (λ s, in_flight (Step.Status s)) (values rs).

Lemma any_in_flight_spec rs :
  if any_in_flight rs then ∃ n s, rs !! n = Some s ∧ in_flight (Step.Status s) = true
  else ∀ n s, rs !! n = Some s → in_flight (Step.Status s) = false.
Proof.
  destruct (any_in_flight rs) eqn:Ef; unfold any_in_flight in Ef.
  - apply existsb_exists in Ef as (s & Hs%list_elem_of_In & Ef).
    apply list_elem_of_fmap in Hs as ([n s'] & -> & Hn%elem_of_map_to_list). eauto.
  - intros n s Hs. destruct (in_flight (Step.Status s)) eqn:Es; [|done].
    assert (existsb (λ s, in_flight (Step.Status s)) (values rs) = true) as Hbad; [|congruence].
    apply existsb_exists. exists s. rewrite <-list_elem_of_In. split; [|done].
    apply list_elem_of_fmap. exists (n, s). by rewrite elem_of_map_to_list.
Qed.

Section ops.
Context {E : Env} {St : Store} {L : StoreLaws St}.
Hypothesis Hu : uuid_unique.

(** * A reconcile of one run *)

(** What [GetSteps] and [reconcileTx] do to a run of status [st]. *)
Definition reconcile_post (c0 : Cfg) (o : gset uuid) (rid : uuid) (st : RunStatus)
    (w w' : World) : Prop :=
  if RunTerminal st then quiet c0 o rid None w w'
  else ∃ rs rs', agree rs rid (steps (db w)) ∧ reconciled rs rs' ∧
         view c0 o rid None (db w) (next_status st rs') rs' w'.

Lemma wp_reconcile c0 o rid run st w :
  good c0 o None w → run_status (db w) rid = Some st → WorkflowRun.ID run = rid →
  WorkflowRun.Status run = st →
  wp (steps ← GetSteps rid; Engine.reconcileTx run steps)
    (post (λ _, reconcile_post c0 o rid st w) (λ _ _, may_fail)) w.
Proof.
  intros Hg Hst Hid Hs. apply wp_bind. wp_law law_GetSteps.
  intros [l|e] w1 [H Ht]; simpl in *; [|done]. destruct H as [Hdb Hl].
  pose proof (quiet_still c0 o rid None w w1 Hg Hdb Ht) as Hq. unfold reconcile_post.
  destruct (RunTerminal st) eqn:Et.
  { unfold Engine.reconcileTx. rewrite Hs, Et. by apply wp_ret. }
  assert (agree (newRunState l) rid (steps (db w))) as Ha.
  { apply agree_newRunState; [apply (inv_steps _ (g_inv _ _ _ _ Hg))|done]. }
  wp_use (wp_reconcile_view c0 o rid run Hid Hu (db w) st l); [|done..|].
  { split; [apply Hq|by rewrite Hdb|by rewrite Hdb|apply Hq]. }
  intros [[]|e] w'; simpl; [|done]. intros (rs' & Hrec & Hv). eauto 10.
Qed.

Lemma reconcile_post_good c0 o rid st w w' :
  reconcile_post c0 o rid st w w' → good c0 o None w'.
Proof. unfold reconcile_post. case_match; [apply qt_good|]. intros (? & ? & _ & _ & Hv). apply Hv. Qed.

Lemma reconcile_post_local c0 o rid st w w' :
  reconcile_post c0 o rid st w w' → local_to rid (db w) (db w').
Proof. unfold reconcile_post. case_match; [apply qt_local|]. intros (? & ? & _ & _ & Hv). apply Hv. Qed.

(** The row of a step that has started and is not WAITING keeps its status. *)
Lemma reconcile_keep_row c0 o rid st w w' i row :
  (∀ i s, steps (db w) !! i = Some s → Step.ID s = i) →
  reconcile_post c0 o rid st w w' → steps (db w) !! i = Some row → Step.WorkflowRunID row = rid →
  fresh_status (Step.Status row) = false → Step.Status row ≠ StepWaiting →
  ∃ row', steps (db w') !! i = Some row' ∧ same_step row' row ∧
    Step.Status row' = Step.Status row ∧ Step.AttemptCount row' = Step.AttemptCount row.
Proof.
  intros Hkey Hrec Hrow Hrun Hf Hw. unfold reconcile_post in Hrec. destruct (RunTerminal st).
  { exists row. by rewrite (qt_steps _ _ _ _ _ _ Hrec). }
  destruct Hrec as (rs & rs' & Ha & Hrec & Hv).
  destruct (ar_all _ _ _ Ha i row Hrow Hrun) as (s & Hs & Eid).
  destruct (ar_row _ _ _ Ha _ s Hs) as (_ & _ & row0 & Hrow0 & Hag).
  rewrite Eid in Hrow0. simplify_eq.
  assert (rs' !! Step.StepName row = Some s) as Hs'.
  { eapply reconciled_keep; [done..| |].
    - unfold undispatched. rewrite <-(ag_status _ _ Hag). by destruct (Step.Status row).
    - apply bool_decide_eq_false. by rewrite <-(ag_status _ _ Hag). }
  destruct (ar_row _ _ _ (v_agree _ _ _ _ _ _ _ _ Hv) _ s Hs') as (_ & _ & row' & Hrow' & Hag').
  exists row'. split; [done|]. rewrite (ag_status _ _ Hag'), (ag_count _ _ Hag').
  split_and!; [|symmetry; apply Hag..].
  eapply same_step_trans; [apply same_step_sym, Hag|apply Hag'].
Qed.

(** What is said of a world depends on its tables. *)
Lemma quiet_db c0 o rid f w w1 w' : db w1 = db w → quiet c0 o rid f w1 w' → quiet c0 o rid f w w'.
Proof. intros Hdb []. split; rewrite <-?Hdb; done. Qed.

Lemma stepped_db c0 o rid f s s' w w1 w' :
  db w1 = db w → stepped c0 o rid f s s' w1 w' → stepped c0 o rid f s s' w w'.
Proof. intros Hdb []. split; rewrite <-?Hdb; done. Qed.

Lemma reconcile_post_db c0 o rid st w w1 w' :
  db w1 = db w → reconcile_post c0 o rid st w1 w' → reconcile_post c0 o rid st w w'.
Proof.
  intros Hdb. unfold reconcile_post. destruct (RunTerminal st); [by apply quiet_db|]. by rewrite Hdb.
Qed.

(** [Reconcile]: fails exactly on an unknown run, without touching anything. *)
Definition reconciled_post (c0 : Cfg) (o : gset uuid) (rid : uuid) (w w' : World) : Prop :=
  ∃ st, run_status (db w) rid = Some st ∧ reconcile_post c0 o rid st w w'.

Definition unknown_run (rid : uuid) (w : World) (e : error) (w' : World) : Prop :=
  run_status (db w) rid = None ∧ e = ErrNotFound ∧ db w' = db w ∧ (tick w ≤ tick w')%nat.

(** Reading the row of a run. *)
Lemma wp_GetWorkflowRun c0 o f rid w :
  good c0 o f w →
  wp (GetWorkflowRun rid)
    (post (λ r w', runs (db w) !! rid = Some r ∧ WorkflowRun.ID r = rid ∧
             run_status (db w) rid = Some (WorkflowRun.Status r) ∧
             db w' = db w ∧ good c0 o f w')
          (λ e w', may_fail ∨ unknown_run rid w e w')) w.
Proof.
  intros Hg. wp_law law_GetWorkflowRun; [by eapply good_keyed|].
  intros [r|e] w' [H Ht]; simpl in *.
  - destruct H as [Hr Hdb]. split_and!; [done| |unfold run_status; by rewrite Hr|done|by eapply good_still].
    exact (ri_key _ _ (inv_runs _ (g_inv _ _ _ _ Hg)) _ _ Hr).
  - destruct H as [Hdb [?|[Hr ->]]]; [by left|right]. split_and!; [unfold run_status; by rewrite Hr|done..].
Qed.

Lemma wp_GetStep c0 o f sid s w :
  good c0 o f w → steps (db w) !! sid = Some s →
  wp (GetStep sid) (post (λ s' w', s' = s ∧ db w' = db w ∧ good c0 o f w') (λ _ _, may_fail)) w.
Proof.
  intros Hg Hs. wp_law law_GetStep; [by eapply good_keyed|]. intros [s'|e] w' [H Ht]; simpl in *.
  - destruct H as [Hs' Hdb]. simplify_eq. split_and!; [done..|by eapply good_still].
  - destruct H as [Hdb [?|[Hs' _]]]; [done|congruence].
Qed.

Lemma wp_Reconcile c0 o rid w :
  good c0 o None w →
  wp (Engine.Reconcile rid) (tx_post (λ _, reconciled_post c0 o rid w) (unknown_run rid w) w) w.
Proof.
  intros Hg. apply wp_WithTx; [steady|].
  apply wp_bind. wp_use wp_GetWorkflowRun; [exact Hg|].
  intros [r|e] w1; simpl; [|done]. intros (_ & Hid & Hst & Hdb & Hg1).
  wp_use wp_reconcile; [exact Hg1|by rewrite Hdb|done|done|].
  intros [[]|e] w'; simpl; [|by left]. intros Hrec. eexists. split; [done|]. by eapply reconcile_post_db.
Qed.

(** * [handleAttemptOutcome] *)

(** The status of the step after the outcome of its current attempt is known;
    only a cancelled step can be in that position without being busy. *)
Definition settled_status (a : TaskAttempt.t) (s : Step.t) : StepStatus :=
  if busy (Step.Status s) then outcome_status (TaskAttempt.Status a) s else Step.Status s.

(** The row of the step was settled, everything else is as before. *)
Definition settled (c0 : Cfg) (o : gset uuid) (a : TaskAttempt.t) (s : Step.t) (w w' : World) : Prop :=
  ∃ s', Step.Status s' = settled_status a s ∧ Step.AttemptCount s' = Step.AttemptCount s ∧
        stepped c0 (o ∖ {[TaskAttempt.ID a]}) (TaskAttempt.WorkflowRunID a) None s s' w w'.

Section outcome.
Context (c0 : Cfg) (o : gset uuid) (a : TaskAttempt.t) (s : Step.t) (w : World).
Hypothesis (Hg : good c0 o None w) (Ho : TaskAttempt.ID a ∈ o).
Hypothesis (Ha : attempts (db w) !! TaskAttempt.ID a = Some a).
Hypothesis (Hs : steps (db w) !! TaskAttempt.StepID a = Some s).

Lemma outcome_ids : Step.ID s = TaskAttempt.StepID a ∧
  Step.WorkflowRunID s = TaskAttempt.WorkflowRunID a ∧
  (busy (Step.Status s) = true ∨ Step.Status s = StepCancelled).
Proof.
  pose proof (g_inv _ _ _ _ Hg) as Hinv. split_and!.
  - by eapply (si_key _ (inv_steps _ Hinv)).
  - destruct (ai_step _ _ _ (inv_att _ Hinv) _ _ Ha) as (t & Ht & E1 & _). simpl in Ht. congruence.
  - by apply (ai_current _ _ _ (inv_att _ Hinv) _ _ s Ha); [right|].
Qed.

(** The compare-and-swap of [handleAttemptOutcome], in a world with the same
    steps and attempts (a retry timer may have been added). *)
Lemma wp_settle w1 next out err :
  good c0 o None w1 → local_to (TaskAttempt.WorkflowRunID a) (db w) (db w1) →
  steps (db w1) = steps (db w) → attempts (db w1) = attempts (db w) →
  run_status (db w1) (TaskAttempt.WorkflowRunID a) = run_status (db w) (TaskAttempt.WorkflowRunID a) →
  outcome_status (TaskAttempt.Status a) s = next →
  (next = StepRetryBackoff →
     ∃ tid t, timers (db w1) !! tid = Some t ∧ retries t (TaskAttempt.StepID a) = true) →
  wp (UpdateStepStatus (Step.ID s) [StepQueued; StepRunning] next out err false)
    (post (λ _, settled c0 o a s w) (λ _ _, may_fail)) w1.
Proof.
  intros Hg1 Hl1 Es1 Ea1 Er1 Hnext Htimer. destruct outcome_ids as (Eid & Erun & Hcase).
  wp_law law_UpdateStepStatus; [by eapply good_keyed|].
  intros [[]|e] w2 [H Ht]; simpl in *; [| |by destruct H].
  - destruct H as (s0 & s' & Hs0 & Hin & Hsame & Est & Ec & Hdb). rewrite Es1, Eid, Hs in Hs0.
    simplify_eq. assert (busy (Step.Status s0) = true) as Hb.
    { apply elem_of_cons in Hin as [->| ->%list_elem_of_singleton]; done. }
    exists s'. unfold settled_status. rewrite Hb. split_and!; [congruence|lia|].
    destruct w2 as [d2 n2]. simpl in *. subst d2. split; [| | |done|done].
    + rewrite Eid. eapply good_trans; [done| |done|].
      * eapply (T_outcome _ o None (TaskAttempt.ID a) a s0 s'); rewrite ?Es1, ?Ea1; try done; [lia|]. by rewrite Est.
      * intros i Hi. left. unfold has in *. simpl in *. destruct Hi as [?|[Hi|?]]; [by left| |by right; right].
        right; left. eapply insert_is_Some; [|done]. by rewrite Es1.
    + etransitivity; [done|]. split; simpl; [|done..]. intros i t Hne. rewrite Eid.
      eapply (insert_other _ _ s0 _ Step.WorkflowRunID (TaskAttempt.WorkflowRunID a));
        [by rewrite Es1|done|by rewrite (st_run _ _ Hsame)|done].
    + exists s'. simpl. by rewrite Es1.
  - destruct H as [Hno Hdb]. specialize (Hno s). rewrite Es1, Eid in Hno. specialize (Hno Hs).
    assert (busy (Step.Status s) = false) as Hb.
    { destruct (Step.Status s); try done; destruct Hno; repeat constructor. }
    exists s. unfold settled_status. rewrite Hb. split_and!; [done..|].
    destruct w2 as [d2 n2]. simpl in *. subst d2. split; [|done| |done|done].
    + eapply good_trans; [done| |done|by left].
      eapply (T_drop _ o None (TaskAttempt.ID a) a s); simpl; rewrite ?Es1, ?Ea1; done.
    + exists s. simpl. rewrite Es1, Eid. by rewrite insert_id.
Qed.

Lemma settled_quiet w1 w2 :
  settled c0 o a s w w1 →
  quiet c0 (o ∖ {[TaskAttempt.ID a]}) (TaskAttempt.WorkflowRunID a) None w1 w2 →
  settled c0 o a s w w2.
Proof. intros (s' & E1 & E2 & Hsd) Hq. exists s'. split_and!; [done..|by eapply stepped_quiet]. Qed.

(** The compare-and-swap and its history entry. *)
Lemma wp_settle_block w1 st next out err ev p :
  good c0 o None w1 → local_to (TaskAttempt.WorkflowRunID a) (db w) (db w1) →
  steps (db w1) = steps (db w) → attempts (db w1) = attempts (db w) →
  run_status (db w) (TaskAttempt.WorkflowRunID a) = Some st →
  run_status (db w1) (TaskAttempt.WorkflowRunID a) = Some st →
  outcome_status (TaskAttempt.Status a) s = next →
  (next = StepRetryBackoff →
     ∃ tid t, timers (db w1) !! tid = Some t ∧ retries t (TaskAttempt.StepID a) = true) →
  wp (ok ← UpdateStepStatus (Step.ID s) [StepQueued; StepRunning] next out err false;
      if ok : bool then
        _ ← AppendHistory (TaskAttempt.WorkflowRunID a) ev p;
        mret tt
      else mret tt)
    (post (λ _, settled c0 o a s w) (λ _ _, may_fail)) w1.
Proof.
  intros Hg1 Hl1 Es1 Ea1 Er Er1 Hnext Htimer. apply wp_bind.
  wp_use wp_settle; [done..|by rewrite Er|done|done|].
  intros [[]|e] w2; simpl; [|by intros; apply wp_ret|done]. intros Hsd. apply wp_bind.
  pose proof Hsd as (s' & _ & _ & Hsd').
  wp_use wp_history; [apply Hsd'|by rewrite (sd_run _ _ _ _ _ _ _ _ Hsd')|].
  intros [h|e] w3; simpl; [|done]. intros Hq. apply wp_ret. by eapply settled_quiet.
Qed.

(** [InsertTimer] for the retry of [s]. *)
Lemma wp_InsertTimer w1 nt :
  good c0 o None w1 → steps (db w1) = steps (db w) →
  NewTimer.StepID nt = Some (Step.ID s) → NewTimer.Kind nt = TimerRetryBackoff →
  NewTimer.WorkflowRunID nt = TaskAttempt.WorkflowRunID a →
  wp (InsertTimer nt)
    (post (λ _ w2, good c0 o None w2 ∧ (∃ g, db w2 = set_timers g (db w1)) ∧
             ∃ tid t, timers (db w2) !! tid = Some t ∧ retries t (TaskAttempt.StepID a) = true)
          (λ _ _, may_fail)) w1.
Proof.
  intros Hg1 Es1 E1 E2 E3. destruct outcome_ids as (Eid & Erun & _).
  wp_law law_InsertTimer. intros [t|e] w2 [H Ht]; simpl in *; [|done].
  destruct H as ((k & Hk & Hid) & F1 & F2 & F3 & F4 & Hdb).
  destruct w2 as [d2 n2]. simpl in *. subst d2. split_and!; [|by eexists|].
  - eapply good_trans; [done| |done|].
    + apply T_timer_new; [|done|].
      * destruct (timers (db w1) !! Timer.ID t) eqn:Et; [|done].
        destruct (fresh_id w1 k Hu (g_bounded _ _ _ _ Hg1)); [lia|].
        right; right; right. by rewrite <-Hid, Et.
      * exists s, (Step.ID s). split_and!; [by rewrite F2|by rewrite Es1, Eid|by rewrite F1, E3].
    + intros i Hi. unfold has in *. simpl in *.
      destruct (decide (i = Timer.ID t)) as [->|]; [right; exists k; simpl; split; [lia|done]|].
      rewrite lookup_insert_ne in Hi by done. auto.
  - exists (Timer.ID t), t. simpl. rewrite lookup_insert_eq. split; [done|]. unfold retries.
    by rewrite F2, F3, F4, E1, E2, Eid, !bool_decide_eq_true_2.
Qed.
End outcome.

Definition outcome_post (c0 : Cfg) (o : gset uuid) (a : TaskAttempt.t) (w w' : World) : Prop :=
  ∃ s st w1, steps (db w) !! TaskAttempt.StepID a = Some s ∧
    run_status (db w) (TaskAttempt.WorkflowRunID a) = Some st ∧ settled c0 o a s w w1 ∧
    reconcile_post c0 (o ∖ {[TaskAttempt.ID a]}) (TaskAttempt.WorkflowRunID a) st w1 w'.

Lemma outcome_post_db c0 o a w w1 w' :
  db w1 = db w → outcome_post c0 o a w1 w' → outcome_post c0 o a w w'.
Proof.
  intros Hdb (s & st & w2 & Hs & Hst & (s' & E1 & E2 & Hsd) & Hrec). rewrite Hdb in Hs, Hst.
  exists s, st, w2. split_and!; [done..| |done]. exists s'. split_and!; [done..|by eapply stepped_db].
Qed.

Lemma wp_handleAttemptOutcome c0 o a success out err w :
  good c0 o None w → TaskAttempt.ID a ∈ o → attempts (db w) !! TaskAttempt.ID a = Some a →
  success = bool_decide (TaskAttempt.Status a = AttemptSucceeded) →
  wp (Engine.handleAttemptOutcome a success out err)
    (post (λ _, outcome_post c0 o a w) (λ _ _, may_fail)) w.
Proof.
  intros Hg Ho Ha ->. pose proof (g_inv _ _ _ _ Hg) as Hinv.
  destruct (ai_step _ _ _ (inv_att _ Hinv) _ _ Ha) as (s & Hs & Er & _). simpl in Hs.
  destruct (ri_step _ _ (inv_runs _ Hinv) _ _ Hs) as [r Hr]. simpl in Hr. rewrite Er in Hr.
  pose proof (ri_key _ _ (inv_runs _ Hinv) _ _ Hr) as Hid.
  assert (run_status (db w) (TaskAttempt.WorkflowRunID a) = Some (WorkflowRun.Status r)) as Hst
    by (unfold run_status; by rewrite Hr).
  unfold Engine.handleAttemptOutcome.
  apply wp_bind. wp_use wp_GetStep; [exact Hg|exact Hs|]. intros [s1|e] w1; simpl; [|done].
  intros (-> & Hdb1 & Hg1).
  apply wp_bind. wp_use wp_GetWorkflowRun; [exact Hg1|]. rewrite Hdb1. intros [r1|e] w2; simpl.
  2: { intros [?|[Hno _]]; [done|]. rewrite Hdb1 in Hno. congruence. }
  intros (Hr1 & _ & _ & Hdb2 & Hg2). simplify_eq. rewrite Hid. apply (wp_mono _ (post
    (λ _, outcome_post c0 o a w2) (λ _ _, may_fail))).
  2: { intros [[]|e] w'; simpl; [|done]. apply outcome_post_db. congruence. }
  assert (db w2 = db w) as Hdb by congruence. rewrite <-Hdb in Hs, Ha, Hst.
  apply wp_bind. eapply (wp_mono _ (post (λ _, settled c0 o a s w2) (λ _ _, may_fail))).
  - case_bool_decide as Esucc; [|destruct (Step.AttemptCount s <? Step.MaxAttempts s) eqn:El].
    + eapply wp_settle_block; try done. unfold outcome_status. by rewrite decide_True.
    + apply wp_bind. eapply wp_eq; [reflexivity|]. simpl.
      apply wp_bind. eapply wp_eq; [reflexivity|]. simpl.
      apply wp_bind. wp_use (wp_InsertTimer c0 o a s w2);
        [done|done|done|done|apply good_tick; [done|simpl; lia]|done|done|done|done|].
      intros [tm|e] w3; simpl; [|done]. intros (Hg3 & [g Hdb3] & Htm).
      destruct w3 as [d3 n3]. simpl in *. subst d3. eapply wp_settle_block; try done.
      unfold outcome_status. by rewrite decide_False, El.
    + eapply wp_settle_block; try done. unfold outcome_status. by rewrite decide_False, El.
  - intros [[]|e] w3; simpl; [|done]. intros Hsd. pose proof Hsd as (s' & _ & _ & Hsd').
    unfold Engine.reconcile_run. rewrite Hid.
    wp_use wp_reconcile; [apply Hsd'|by rewrite (sd_run _ _ _ _ _ _ _ _ Hsd')|done..|].
    intros [[]|e] w4; simpl; [|done]. intros Hrec. by exists s, (WorkflowRun.Status r), w3.
Qed.
End ops.
End EngineSpec.
