(* ===== verification/EngineOps.v ===== *)
(** The entry points of the engine, continued: task results, fired timers, lease
    reaping, cancellation, signals, recovery, and the worker-facing store
    operations. *)

From stdpp Require Import gmap strings list relations sorting.
From S2P Require Import Prelude GoLib Json Types MemStore Dsl Engine Lifecycle.
From S2P Require Import LifecycleInv Worlds Contract Reconcile EngineSpec.
Open Scope Z_scope.

Module EngineOps.
Import Lifecycle LifecycleInv Worlds Contract Reconcile EngineSpec.
Import Engine (runState, undispatched, blocked, ready, allTerminal, newRunState, set_Status,
  set_Output, set_AttemptCount, values, keys).

Section ops.
Context {E : Env} {St : Store} {L : StoreLaws St}.
Hypothesis Hu : uuid_unique.

(** * Chaining *)

Lemma good_compose c0 o f w o' f' w' :
  good c0 o f w → good (mkCfg (db w) o f) o' f' w' → good c0 o' f' w'.
Proof. intros [Hp _ _] [Hp' Hi' Hb']. split; [by etransitivity|done..]. Qed.

Lemma good_restart c0 o f w : good c0 o f w → good (mkCfg (db w) o f) o f w.
Proof. intros [_ Hi Hb]. by split. Qed.

Lemma good_evolves c0 o f w : Inv c0 → good c0 o f w → evolves (tables c0) (db w).
Proof. intros Hi [Hp _ _]. exact (rtc_evolves _ _ Hp Hi). Qed.

Lemma restart_evolves c0 o f w o' f' w' :
  good c0 o f w → good (mkCfg (db w) o f) o' f' w' → evolves (db w) (db w').
Proof. intros Hg Hg'. exact (good_evolves _ _ _ _ (g_inv _ _ _ _ Hg) Hg'). Qed.

Lemma reconcile_post_compose c0 o f o1 f1 w rid st w1 w' :
  good c0 o f w → reconcile_post (mkCfg (db w) o f) o1 rid st w1 w' →
  good (mkCfg (db w) o f) o1 f1 w1 → reconcile_post c0 o1 rid st w1 w'.
Proof.
  intros Hg. unfold reconcile_post. destruct (RunTerminal st).
  - intros [Hg' Hl Hs Hr] _. split; [by eapply good_compose|done..].
  - intros (rs & rs' & Ha & Hrec & [Hg' Ha' Hr' Hl']) _. exists rs, rs'. split_and!; [done..|].
    split; [by eapply good_compose|done..].
Qed.

Lemma outcome_post_compose c0 o f o1 a w w1 w' :
  good c0 o f w → outcome_post (mkCfg (db w) o f) o1 a w1 w' → outcome_post c0 o1 a w1 w'.
Proof.
  intros Hg (s & st & w2 & Hs & Hst & (s' & E1 & E2 & [Hg2 Hl2 Hrow Hsame Hr2]) & Hrec).
  exists s, st, w2. split_and!; [done..| |by eapply reconcile_post_compose].
  exists s'. split_and!; [done..|]. split; [by eapply good_compose|done..].
Qed.

(** What the outcome of attempt [a] means for its step, after the reconcile. *)
Lemma outcome_effect c0 o a w w' :
  good c0 o None w → TaskAttempt.ID a ∈ o → attempts (db w) !! TaskAttempt.ID a = Some a →
  outcome_post c0 o a w w' →
  ∃ s s', steps (db w) !! TaskAttempt.StepID a = Some s ∧
    steps (db w') !! TaskAttempt.StepID a = Some s' ∧ same_step s' s ∧
    Step.Status s' = settled_status a s ∧ Step.AttemptCount s' = Step.AttemptCount s ∧
    local_to (TaskAttempt.WorkflowRunID a) (db w) (db w').
Proof.
  intros Hg Ho Ha (s & st & w1 & Hs & Hst & (s1 & E1 & E2 & Hsd) & Hrec). exists s.
  destruct (outcome_ids c0 o a s w Hg Ho Ha Hs) as (Eid & Erun & Hcase).
  destruct (sd_row _ _ _ _ _ _ _ _ Hsd) as (row & Hrow & Hag).
  pose proof (si_key _ (inv_steps _ (g_inv _ _ _ _ (sd_good _ _ _ _ _ _ _ _ Hsd)))) as Hkey.
  assert (steps (db w1) !! TaskAttempt.StepID a = Some row) as Hrow1
    by (by rewrite Hrow, Eid, lookup_insert_eq).
  assert (same_step row s) as Hsame.
  { eapply same_step_trans; [apply (sd_same _ _ _ _ _ _ _ _ Hsd)|apply Hag]. }
  assert (Step.Status row = settled_status a s) as Estat by (by rewrite (ag_status _ _ Hag)).
  destruct (reconcile_keep_row _ _ _ _ _ _ _ row Hkey Hrec Hrow1) as (row' & Hrow' & Hsame' & Es & Ec).
  - by rewrite (st_run _ _ Hsame).
  - rewrite Estat. unfold settled_status. destruct Hcase as [Hb|Hc]; [rewrite Hb|by rewrite Hc].
    destruct (outcome_cases (TaskAttempt.Status a) s) as [->|[->| ->]]; done.
  - rewrite Estat. unfold settled_status. destruct Hcase as [Hb|Hc]; [rewrite Hb|by rewrite Hc].
    destruct (outcome_cases (TaskAttempt.Status a) s) as [->|[->| ->]]; done.
  - exists row'. split_and!; [done|done|by eapply same_step_trans|congruence| |].
    + by rewrite Ec, (ag_count _ _ Hag).
    + etransitivity; [apply (sd_local _ _ _ _ _ _ _ _ Hsd)|]. by eapply reconcile_post_local.
Qed.

(** * Attempts *)

Lemma leased_by_status a worker :
  Memory.leased_by a worker = true → TaskAttempt.Status a = AttemptLeased.
Proof. unfold Memory.leased_by. by intros [?%bool_decide_eq_true _]%andb_true_iff. Qed.

Lemma leased_by_owner a worker : Memory.leased_by a worker = true → is_Some (TaskAttempt.LeaseOwner a).
Proof. unfold Memory.leased_by. destruct (TaskAttempt.LeaseOwner a); [done|by rewrite andb_false_r]. Qed.

(** An attempt row changes within its life cycle. *)
Lemma good_attempt c0 o f w w' id a a' o' :
  good c0 o f w → attempts (db w) !! id = Some a → same_attempt a' a →
  (live (TaskAttempt.Status a) = true ∧ (∃ worker, Memory.leased_by a' worker = true) ∧ o' = o ∨
   TaskAttempt.Status a = AttemptLeased ∧ ended (TaskAttempt.Status a') = true ∧
     o' = {[id]} ∪ o) →
  db w' = set_attempts (insert id a') (db w) → (tick w ≤ tick w')%nat →
  good c0 o' f w' ∧ local_to (TaskAttempt.WorkflowRunID a) (db w) (db w').
Proof.
  intros Hg Ha Hsame Hcase Hdb Ht. destruct w' as [d' n']. simpl in *. subst d'. split.
  - eapply good_trans; [done| |done|].
    + destruct Hcase as [(Hl & [worker Hw] & ->)|(Hl & Hst & ->)]; [|by eapply T_end].
      eapply T_lease; [done..|by eapply leased_by_status|by eapply leased_by_owner].
    + intros i Hi. left. unfold has in *. simpl in *.
      destruct Hi as [?|[?|[Hi|?]]]; [by left|by right; left| |by right; right; right].
      right; right; left. by eapply insert_is_Some.
  - split; simpl; [done|done| |done]. intros i b Hne.
    eapply (insert_other _ _ a _ TaskAttempt.WorkflowRunID); [done..| |done]. apply (at_run _ _ Hsame).
Qed.

Lemma owed_not_live c0 o f w id a :
  good c0 o f w → attempts (db w) !! id = Some a → live (TaskAttempt.Status a) = true → id ∉ o.
Proof.
  intros Hg Ha Hl Hi. destruct (ai_owed _ _ _ (inv_att _ (g_inv _ _ _ _ Hg)) id Hi) as (b & Hb & ?%ended_not_live).
  simpl in Hb. congruence.
Qed.

Lemma union_difference (o : gset uuid) id : id ∉ o → ({[id]} ∪ o) ∖ {[id]} = o.
Proof. set_solver. Qed.

(** * [HandleTaskResult] *)

(** The result was accepted: the attempt ended and its outcome was handled. *)
Definition accepted_post (c0 : Cfg) (o : gset uuid) (id : uuid) (success : bool)
    (w w' : World) : Prop :=
  ∃ a a' w1, attempts (db w) !! id = Some a ∧ same_attempt a' a ∧
    TaskAttempt.Status a' = (if success then AttemptSucceeded else AttemptFailed) ∧
    db w1 = set_attempts (insert id a') (db w) ∧ TaskAttempt.ID a' = id ∧
    good c0 ({[id]} ∪ o) None w1 ∧ attempts (db w') !! id = Some a' ∧
    outcome_post c0 ({[id]} ∪ o) a' w1 w'.

Lemma outcome_post_good c0 o a w w' :
  outcome_post c0 o a w w' → good c0 (o ∖ {[TaskAttempt.ID a]}) None w'.
Proof. intros (s & st & w1 & _ & _ & _ & Hr). by eapply reconcile_post_good. Qed.

(** What reporting a result does: it is accepted from the worker that holds the lease. *)
Definition result_post (c0 : Cfg) (o : gset uuid) (id : uuid) (worker : string) (success : bool)
    (w : World) (accepted : bool) (w' : World) : Prop :=
  good c0 o None w' ∧
  if accepted then holds_lease w id worker ∧ accepted_post c0 o id success w w'
  else ¬ holds_lease w id worker ∧ db w' = db w.

(** From the end of the attempt to its outcome. *)
Lemma wp_accept c0 o id worker (success : bool) out err a a' w w1 :
  good c0 o None w → attempts (db w) !! id = Some a → Memory.leased_by a worker = true →
  same_attempt a' a → TaskAttempt.Status a' = (if success then AttemptSucceeded else AttemptFailed) →
  db w1 = set_attempts (insert id a') (db w) → (tick w ≤ tick w1)%nat →
  wp (Engine.handleAttemptOutcome a' success out err)
    (post (λ _, result_post c0 o id worker success w true) (λ _ _, may_fail)) w1.
Proof.
  intros Hg Ea El Hsame Est' Hdb Ht. pose proof (leased_by_status _ _ El) as Est.
  pose proof (ai_key _ _ _ (inv_att _ (g_inv _ _ _ _ Hg)) _ _ Ea) as Hid.
  assert (TaskAttempt.ID a' = id) as Hid' by (by rewrite (at_ID _ _ Hsame)).
  destruct (good_attempt c0 o None w w1 id a a' ({[id]} ∪ o) Hg Ea) as [Hg1 Hl1];
    [done|right; split_and!; [done|rewrite Est'; by destruct success|done]|done|done|].
  pose proof (good_restart _ _ _ _ Hg1) as Hg1'.
  assert (attempts (db w1) !! id = Some a') as Ha1 by (rewrite Hdb; simpl; by rewrite lookup_insert_eq).
  wp_use (wp_handleAttemptOutcome Hu _ ({[id]} ∪ o) a' success out err w1 Hg1').
  - rewrite Hid'. set_solver.
  - by rewrite Hid'.
  - rewrite Est'. by destruct success.
  - intros [[]|e] w'; simpl; [|done]. intros Hout.
    pose proof (outcome_post_good _ _ _ _ _ Hout) as Hg2.
    destruct (ev_attempts _ _ (restart_evolves _ _ _ _ _ _ _ Hg1 Hg2) id a' Ha1) as (a2 & Ha2 & Hev).
    rewrite (ae_final _ _ Hev) in Ha2 by (rewrite Est'; by destruct success).
    pose proof (outcome_post_compose _ _ _ _ _ _ _ _ Hg1 Hout) as Hout0. split.
    + apply outcome_post_good in Hout0. rewrite Hid', union_difference in Hout0; [done|].
      eapply owed_not_live; [done..|]. by rewrite Est.
    + split; [by exists a|]. by exists a, a', w1.
Qed.

Lemma wp_HandleTaskResult c0 o id worker success out err w :
  good c0 o None w →
  wp (Engine.HandleTaskResult id worker success out err)
    (tx_post (result_post c0 o id worker success w) no_error w) w.
Proof.
  intros Hg. apply wp_tx; [steady|].
  apply wp_bind. wp_law law_CompleteTaskAttempt; [by eapply good_keyed|].
  intros [[ao applied]|e] w1 [H Ht]; simpl in *; [|done]. destruct applied.
  - destruct H as (a & a' & Ea & El & -> & Hsame & Est & Hdb).
    apply wp_bind. wp_use wp_accept; [done..|]. intros [[]|e] w'; simpl; [|done]. by intros; apply wp_ret.
  - destruct H as [Hno Hdb]. assert (result_post c0 o id worker success w false w1) as Hp.
    { split; [by eapply good_still|done]. }
    by destruct ao; apply wp_ret.
Qed.

(** * [HandleFiredTimer] *)

Lemma has_timer d tid t t' id :
  timers d !! tid = Some t → has (set_timers (insert tid t') d) id → has d id.
Proof.
  intros Ht. unfold has. simpl. intros [?|[?|[?|Hi]]]; [by left|by right; left|by right; right; left|].
  right; right; right. by eapply insert_is_Some.
Qed.

(** Nothing was due: the run or the step has moved on. *)
Lemma good_stale c0 o sid s w :
  good c0 o (Some sid) w → steps (db w) !! sid = Some s → Step.Status s ≠ StepRetryBackoff →
  good c0 o None w.
Proof.
  intros Hg Hs Hst. destruct w as [d n]. eapply good_trans; [done| |simpl; lia|by left].
  by eapply T_fired_stale.
Qed.

(** A step of a finished run is not waiting for a retry. *)
Lemma terminal_run_steps c0 o f w rid r sid s :
  good c0 o f w → runs (db w) !! rid = Some r → RunTerminal (WorkflowRun.Status r) = true →
  steps (db w) !! sid = Some s → Step.WorkflowRunID s = rid →
  StepTerminal (Step.Status s) = true.
Proof.
  intros Hg Hr Ht Hs Hrun.
  pose proof (ri_verdict _ _ (inv_runs _ (g_inv _ _ _ _ Hg)) _ _ Hr) as Hv. simpl in Hv.
  destruct (WorkflowRun.Status r); try done; simpl in Hv.
  - by rewrite (Hv sid s Hs Hrun).
  - by apply (proj1 Hv sid s).
  - by apply (Hv sid s).
Qed.

(** The step [sid] was dispatched again and its run reconciled. *)
Definition retried (c0 : Cfg) (o : gset uuid) (rid sid : uuid) (w w' : World) : Prop :=
  ∃ s r w1, steps (db w) !! sid = Some s ∧ Step.Status s = StepRetryBackoff ∧
    runs (db w) !! rid = Some r ∧
    stepped c0 o rid None s (queued s) w w1 ∧ reconcile_post c0 o rid (WorkflowRun.Status r) w1 w'.

(** The step is no longer waiting for this retry, or its run is over. *)
Definition no_retry (d : Tables) (rid sid : uuid) : Prop :=
  ∃ s r, steps d !! sid = Some s ∧ runs d !! rid = Some r ∧
    (Step.Status s ≠ StepRetryBackoff ∨ RunTerminal (WorkflowRun.Status r) = true).

Lemma wp_handleRetryTimerFired c0 o sid tm w :
  good c0 o (Some sid) w → Timer.StepID tm = Some sid →
  (∃ s, steps (db w) !! sid = Some s ∧ Step.WorkflowRunID s = Timer.WorkflowRunID tm) →
  wp (Engine.handleRetryTimerFired tm)
    (post (λ _ w', good c0 o None w' ∧
             (retried c0 o (Timer.WorkflowRunID tm) sid w w' ∨
              db w' = db w ∧ no_retry (db w) (Timer.WorkflowRunID tm) sid)) (λ _ _, may_fail)) w.
Proof.
  intros Hg Htm (s & Hs & Hrun). pose proof (g_inv _ _ _ _ Hg) as Hinv.
  unfold Engine.handleRetryTimerFired. rewrite Htm.
  destruct (ri_step _ _ (inv_runs _ Hinv) _ _ Hs) as [r Hr]. simpl in Hr. rewrite Hrun in Hr.
  pose proof (ri_key _ _ (inv_runs _ Hinv) _ _ Hr) as Hid.
  pose proof (si_key _ (inv_steps _ Hinv) _ _ Hs) as Hsid. simpl in Hsid.
  apply wp_bind. wp_use wp_GetStep; [exact Hg|exact Hs|]. intros [s1|e] w1; simpl; [|done].
  intros (-> & Hdb1 & Hg1).
  apply wp_bind. wp_use wp_GetWorkflowRun; [exact Hg1|]. rewrite Hdb1. intros [r1|e] w2; simpl.
  2: { intros [?|[Hno _]]; [done|]. rewrite Hdb1 in Hno. unfold run_status in Hno. by rewrite Hr in Hno. }
  intros (Hr1 & _ & Hrs & Hdb2 & Hg2). rewrite Hr in Hr1. injection Hr1 as <-.
  assert (db w2 = db w) as Hdb by congruence.
  case_bool_decide as Est; cycle 1; simpl.
  { apply wp_ret. split; [eapply good_stale; [exact Hg2|by rewrite Hdb|done]|].
    right. split; [done|]. exists s, r. auto. }
  destruct (RunTerminal (WorkflowRun.Status r)) eqn:Ert.
  { pose proof (terminal_run_steps _ _ _ _ _ _ _ _ Hg Hr Ert Hs Hrun) as Hbad. by rewrite Est in Hbad. }
  apply wp_bind.
  wp_use (wp_dispatchStep c0 o (Timer.WorkflowRunID tm) r Hid Hu (Some sid) (WorkflowRun.Status r) s s);
    [exact Hg2|by rewrite Hdb|by rewrite Hsid, Hdb|by split|done|by rewrite Est; constructor|by right|].
  intros [s'|e] w3; simpl; [|done]. intros [-> Hsd].
  unfold clear_fired in Hsd. rewrite Hsid, decide_True in Hsd by done.
  unfold Engine.reconcile_run. rewrite Hid.
  wp_use wp_reconcile; [done|apply Hsd|by rewrite (sd_run _ _ _ _ _ _ _ _ Hsd), Hdb|done..|].
  intros [[]|e] w4; simpl; [|done]. intros Hrec. split; [by eapply reconcile_post_good|].
  left. exists s, r, w3. split_and!; [done..|by eapply stepped_db|done].
Qed.

(** What handling the fired timer [t] does. *)
Definition handled_post (c0 : Cfg) (o : gset uuid) (t : Timer.t) (w w' : World) : Prop :=
  match Timer.Kind t, Timer.StepID t with
  | TimerRetryBackoff, Some sid =>
      retried c0 o (Timer.WorkflowRunID t) sid w w' ∨
      db w' = db w ∧ no_retry (db w) (Timer.WorkflowRunID t) sid
  | TimerRetryBackoff, None => db w' = db w
  | _, _ => ∃ st, run_status (db w) (Timer.WorkflowRunID t) = Some st ∧
                  reconcile_post c0 o (Timer.WorkflowRunID t) st w w'
  end.

(** What firing timer [tid] does: nothing unless it is PENDING. *)
Definition fired_post (c0 : Cfg) (o : gset uuid) (tid : uuid) (w w' : World) : Prop :=
  match timers (db w) !! tid with
  | Some t =>
      if bool_decide (Timer.Status t = TimerPending) then
        ∃ w1, (∃ n, db w1 = set_timers (insert tid (Memory.timer_with t TimerFired (Some n))) (db w)) ∧
          handled_post c0 o t w1 w' ∧ evolves (db w1) (db w')
      else db w' = db w
  | None => db w' = db w
  end.

Lemma wp_reconcile_timer c0 o w rid :
  good c0 o None w → is_Some (runs (db w) !! rid) →
  wp (run ← GetWorkflowRun rid; Engine.reconcile_run run)
    (post (λ _ w', good c0 o None w' ∧
             ∃ st, run_status (db w) rid = Some st ∧ reconcile_post c0 o rid st w w')
          (λ _ _, may_fail)) w.
Proof.
  intros Hg [r Hr]. apply wp_bind. wp_use wp_GetWorkflowRun; [exact Hg|]. intros [r1|e] w1; simpl.
  2: { intros [?|[Hno _]]; [done|]. unfold run_status in Hno. by rewrite Hr in Hno. }
  intros (_ & Hid & Hrs & Hdb & Hg1).
  unfold Engine.reconcile_run. rewrite Hid. wp_use wp_reconcile; [done|exact Hg1|by rewrite Hdb|done|done|].
  intros [[]|e] w'; simpl; [|done]. intros Hrec. split; [by eapply reconcile_post_good|].
  eexists. split; [done|]. by eapply reconcile_post_db.
Qed.

(** The step whose retry is pending once timer [t] has fired. *)
Definition due (t : Timer.t) : option uuid :=
  match Timer.StepID t with
  | Some sid => if decide (Timer.Kind t = TimerRetryBackoff) then Some sid else None
  | None => None
  end.

Lemma good_fired c0 o tid t n w w' :
  good c0 o None w → timers (db w) !! tid = Some t → Timer.Status t = TimerPending →
  db w' = set_timers (insert tid (Memory.timer_with t TimerFired (Some n))) (db w) →
  (tick w ≤ tick w')%nat → good c0 o (due t) w'.
Proof.
  intros Hg Ht Hp Hdb Hk. destruct w' as [d' k]. simpl in *. subst d'. unfold due.
  assert (∀ id, has (set_timers (insert tid (Memory.timer_with t TimerFired (Some n))) (db w)) id →
     has (db w) id ∨ drawn (mkWorld (set_timers (insert tid (Memory.timer_with t TimerFired (Some n))) (db w)) k) id)
    as Hhas by (intros id Hid; left; by eapply has_timer).
  destruct (Timer.StepID t) eqn:Esid; eapply good_trans; try done;
    [by eapply T_timer_fire|by eapply T_timer_fire_other].
Qed.

Lemma wp_handle_timer c0 o t w :
  good c0 o (due t) w → is_Some (runs (db w) !! Timer.WorkflowRunID t) →
  (∀ sid, Timer.StepID t = Some sid →
     ∃ s, steps (db w) !! sid = Some s ∧ Step.WorkflowRunID s = Timer.WorkflowRunID t) →
  wp (match Timer.Kind t with
      | TimerRetryBackoff => Engine.handleRetryTimerFired t
      | _ => run ← GetWorkflowRun (Timer.WorkflowRunID t); Engine.reconcile_run run
      end)
    (post (λ _ w', good c0 o None w' ∧ handled_post c0 o t w w') (λ _ _, may_fail)) w.
Proof.
  intros Hg Hrun Hstep. unfold handled_post, due in *.
  destruct (Timer.Kind t) eqn:Ek, (Timer.StepID t) as [sid|] eqn:Esid; simpl in Hg;
    try (by apply wp_reconcile_timer).
  - apply wp_handleRetryTimerFired; [exact Hg|exact Esid|by apply Hstep].
  - unfold Engine.handleRetryTimerFired. rewrite Esid. by apply wp_ret.
Qed.

Lemma wp_HandleFiredTimer c0 o tid w :
  good c0 o None w →
  wp (Engine.HandleFiredTimer tid)
    (tx_post (λ _ w', good c0 o None w' ∧ fired_post c0 o tid w w') no_error w) w.
Proof.
  intros Hg. apply wp_tx; [steady|]. unfold fired_post.
  apply wp_bind. wp_law law_FireTimerCAS; [by eapply good_keyed|].
  intros [[to applied]|e] w1 [H Ht]; simpl in *; [|done]. destruct applied.
  2: { destruct H as [Hno Hdb]. pose proof (good_still _ _ _ _ _ Hg Hdb Ht) as Hg1.
    destruct (timers (db w) !! tid) as [t|]; [|by destruct to; apply wp_ret].
    rewrite bool_decide_eq_false_2 by auto. by destruct to; apply wp_ret. }
  destruct H as (t & n & Et & Ep & -> & Hdb). rewrite Et, (bool_decide_eq_true_2 _ Ep).
  pose proof (inv_timers _ (g_inv _ _ _ _ Hg)) as Hti. simpl in Hti.
  pose proof (good_fired c0 o tid t n w w1 Hg Et Ep Hdb Ht) as Hg1.
  set (t' := Memory.timer_with t TimerFired _).
  assert (is_Some (runs (db w1) !! Timer.WorkflowRunID t')) as Hrun.
  { rewrite Hdb. exact (ti_run _ _ _ _ Hti _ _ Et). }
  assert (∀ sid, Timer.StepID t' = Some sid → ∃ s, steps (db w1) !! sid = Some s ∧
            Step.WorkflowRunID s = Timer.WorkflowRunID t') as Hstep.
  { rewrite Hdb. intros sid Hsid. exact (ti_step _ _ _ _ Hti tid t sid Et Hsid). }
  eapply wp_mono; [apply (wp_and _ _ _ w1 (wp_handle_timer c0 o t' w1 Hg1 Hrun Hstep)
    (wp_handle_timer _ o t' w1 (good_restart _ _ _ _ Hg1) Hrun Hstep))|].
  intros [[]|e] w'; simpl; [|tauto]. intros [[Hg' Hh] [Hg'' _]]. split; [done|].
  exists w1. split_and!; [by eexists|exact Hh|]. by eapply restart_evolves.
Qed.

(** * Lease reaping *)

Definition ids (l : list TaskAttempt.t) : gset uuid := list_to_set (TaskAttempt.ID <$> l).

(** The attempts of [out] have just expired; [o] are those owed before. *)
Record expired (o : gset uuid) (out : list TaskAttempt.t) (m : attempts_map) : Prop := {
  ex_row : ∀ a, a ∈ out → m !! TaskAttempt.ID a = Some a ∧ TaskAttempt.Status a = AttemptExpired;
  ex_nodup : NoDup (TaskAttempt.ID <$> out);
  ex_new : ∀ a, a ∈ out → TaskAttempt.ID a ∉ o
}.

Lemma ids_snoc out a o : ids (out ++ [a]) ∪ o = {[TaskAttempt.ID a]} ∪ (ids out ∪ o).
Proof. unfold ids. rewrite fmap_app, list_to_set_app_L. set_solver. Qed.

Lemma expired_snoc o out m a :
  expired o out m → TaskAttempt.ID a ∉ ids out ∪ o → TaskAttempt.Status a = AttemptExpired →
  expired o (out ++ [a]) (<[TaskAttempt.ID a := a]> m).
Proof.
  intros [Hr Hn Hw] Hnew Hst.
  assert (∀ b, b ∈ out → TaskAttempt.ID b ≠ TaskAttempt.ID a) as Hne.
  { intros b Hb E1. apply Hnew, elem_of_union_l, elem_of_list_to_set, list_elem_of_fmap.
    exists b. by split. }
  split.
  - intros b [Hb| ->%list_elem_of_singleton]%elem_of_app; [|by rewrite lookup_insert_eq].
    rewrite lookup_insert_ne by (by apply not_eq_sym, Hne). by apply Hr.
  - rewrite fmap_app. apply NoDup_app. split_and!; [done| |apply NoDup_singleton].
    intros i (b & -> & Hb)%list_elem_of_fmap Hi%list_elem_of_singleton. by apply (Hne b).
  - intros b [Hb| ->%list_elem_of_singleton]%elem_of_app; [by apply Hw|]. set_solver.
Qed.

Lemma insert_attempts_ne l k : ∀ m, k ∉ TaskAttempt.ID <$> l → insert_attempts l m !! k = m !! k.
Proof.
  induction l as [|a l IH]; intros m Hk; simpl; [done|].
  apply not_elem_of_cons in Hk as [Hne Hk]. rewrite IH by done. by rewrite lookup_insert_ne.
Qed.

(** The attempts [l] expire, one after the other. *)
Lemma good_expire c0 o w n l :
  good c0 o None w → (tick w ≤ n)%nat → NoDup (TaskAttempt.ID <$> l) →
  (∀ a', a' ∈ l → TaskAttempt.Status a' = AttemptExpired ∧
     ∃ a, attempts (db w) !! TaskAttempt.ID a' = Some a ∧ same_attempt a' a ∧
          TaskAttempt.Status a = AttemptLeased) →
  good c0 (ids l ∪ o) None (mkWorld (set_attempts (insert_attempts l) (db w)) n) ∧
  expired o l (insert_attempts l (attempts (db w))).
Proof.
  intros Hg Hn. induction l as [|a l IH] using rev_ind; intros Hnd Hl.
  { split; [|by split; [inversion 1|constructor|inversion 1]].
    unfold ids. simpl. rewrite (left_id_L ∅ (∪)). destruct w as [[] k]. by apply (good_tick c0 o None _ n Hg). }
  rewrite fmap_app in Hnd. apply NoDup_app in Hnd as (Hnd & Hdis & _).
  destruct IH as [Hg1 Hex]; [done|intros b Hb; apply Hl; set_solver|].
  destruct (Hl a) as (Est & a0 & Ha0 & Hsame & Hle); [set_solver|].
  assert (TaskAttempt.ID a ∉ TaskAttempt.ID <$> l) as Hnew by (intros Hin; apply (Hdis _ Hin); set_solver).
  assert (insert_attempts l (attempts (db w)) !! TaskAttempt.ID a = Some a0) as Ha by (by rewrite insert_attempts_ne).
  assert (∀ m, insert_attempts (l ++ [a]) m = <[TaskAttempt.ID a := a]> (insert_attempts l m)) as Esnoc
    by (intros m; unfold insert_attempts; by rewrite foldl_snoc).
  destruct (good_attempt c0 _ None _ (mkWorld (set_attempts (insert_attempts (l ++ [a])) (db w)) n)
    (TaskAttempt.ID a) a0 a ({[TaskAttempt.ID a]} ∪ (ids l ∪ o)) Hg1 Ha) as [Hg2 _];
    [done|right; by rewrite Est|simpl; unfold set_attempts; simpl; by rewrite Esnoc|done|].
  rewrite ids_snoc, Esnoc. split; [exact Hg2|]. apply expired_snoc; [done| |done].
  eapply owed_not_live; [exact Hg1|exact Ha|by rewrite Hle].
Qed.

Lemma wp_ReapExpiredAttempts c0 o limit w :
  good c0 o None w →
  wp (ReapExpiredAttempts limit)
    (post (λ out w', good c0 (ids out ∪ o) None w' ∧ expired o out (attempts (db w')) ∧
                     steps (db w') = steps (db w) ∧ runs (db w') = runs (db w))
          (λ _ w', may_fail ∧ db w' = db w ∧ good c0 o None w')) w.
Proof.
  intros Hg. wp_law law_ReapExpiredAttempts; [by eapply good_keyed|].
  intros [out|e] w' [H Ht]; simpl in *.
  - destruct H as (Hnd & Hout & Hdb). destruct (good_expire c0 o w (tick w') out Hg Ht Hnd Hout) as [Hg' Hex].
    destruct w' as [d' n']. simpl in *. subst d'. done.
  - destruct H. split_and!; [done..|by eapply good_still].
Qed.

Lemma ids_cons a rest o :
  TaskAttempt.ID a ∉ ids rest ∪ o → (ids (a :: rest) ∪ o) ∖ {[TaskAttempt.ID a]} = ids rest ∪ o.
Proof. unfold ids. simpl. set_solver. Qed.

Lemma expired_tail o a rest m : expired o (a :: rest) m →
  TaskAttempt.ID a ∉ ids rest ∪ o ∧ expired o rest m.
Proof.
  intros [Hr Hn Hw]. simpl in Hn. apply NoDup_cons in Hn as [Hna Hn]. split.
  - rewrite not_elem_of_union. split; [|by apply Hw; constructor].
    unfold ids. by rewrite elem_of_list_to_set.
  - split; [|done|]; intros b Hb; [apply Hr|apply Hw]; by constructor.
Qed.

(** Handling one expired attempt, the others still owed. *)
Definition expire_post (c0 : Cfg) (o : gset uuid) (rest : list TaskAttempt.t) (w' : World) : Prop :=
  good c0 (ids rest ∪ o) None w' ∧ expired o rest (attempts (db w')).

Lemma wp_expire_body c0 o a rest msg w :
  expire_post c0 o (a :: rest) w →
  wp (Engine.handleAttemptOutcome a false None msg)
    (post (λ _, expire_post c0 o rest) (λ _ _, may_fail)) w.
Proof.
  intros [Hg Hex]. pose proof (expired_tail _ _ _ _ Hex) as [Hnew Hex'].
  destruct (ex_row _ _ _ Hex a) as [Ha Est]; [by constructor|].
  wp_use (wp_handleAttemptOutcome Hu (mkCfg (db w) (ids (a :: rest) ∪ o) None) (ids (a :: rest) ∪ o) a);
    [by eapply good_restart|unfold ids; simpl; set_solver|done|by rewrite Est|].
  intros [[]|e] w'; simpl; [|done]. intros Hout. apply outcome_post_good in Hout.
  rewrite ids_cons in Hout by done. split; [by eapply good_compose|].
  destruct Hex' as [Hr Hn Hw]. split; [|done..]. intros b Hb. destruct (Hr b Hb) as [Hb' Hbs].
  split; [|done]. destruct (ev_attempts _ _ (restart_evolves _ _ _ _ _ _ _ Hg Hout) _ _ Hb') as (b' & Hb1 & Hev).
  rewrite Hb1. f_equal. apply (ae_final _ _ Hev). by rewrite Hbs.
Qed.

Lemma wp_expire_one c0 o a rest msg w :
  expire_post c0 o (a :: rest) w →
  wp (WithTx (Engine.handleAttemptOutcome a false None msg))
    (tx_post (λ _, expire_post c0 o rest) no_error w) w.
Proof. intros Hex. apply wp_tx; [steady|by apply wp_expire_body]. Qed.

Lemma expire_rolled c0 o rest w w' : rolled w w' → expire_post c0 o rest w → expire_post c0 o rest w'.
Proof.
  intros Hr [Hg Hex]. split; [by eapply good_rolled|]. destruct Hr as (n & _ & _ & Hdb). by rewrite Hdb.
Qed.

Lemma ids_perm l1 l2 : l1 ≡ₚ l2 → ids l1 = ids l2.
Proof. intros Hp. unfold ids. by rewrite Hp. Qed.

Lemma expired_perm o l1 l2 m : l1 ≡ₚ l2 → expired o l1 m → expired o l2 m.
Proof.
  intros Hp [Hr Hn Hw]. split; [|by rewrite <-Hp|]; intros a Ha; rewrite <-Hp in Ha; auto.
Qed.

Lemma expire_perm c0 o l1 l2 w : l1 ≡ₚ l2 → expire_post c0 o l1 w → expire_post c0 o l2 w.
Proof. intros Hp [Hg Hex]. split; [by rewrite <-(ids_perm _ _ Hp)|by eapply expired_perm]. Qed.

(** A whole reaping pass: the expired attempts are handled, except those whose
    transaction failed. *)
Lemma wp_ReapExpiredLeases c0 o limit w :
  good c0 o None w →
  wp (Engine.ReapExpiredLeases limit)
    (post (λ _ w', ∃ rest, expire_post c0 o rest w' ∧ (rest = [] ∨ may_fail))
          (λ _ w', may_fail ∧ good c0 o None w')) w.
Proof.
  intros Hg. unfold Engine.ReapExpiredLeases. apply wp_bind.
  wp_use wp_ReapExpiredAttempts; [exact Hg|]. intros [out|e] w1; simpl; [|tauto].
  intros (Hg1 & Hex & _). apply wp_bind.
  eapply (wp_mono _ (post (λ _ w', ∃ rest, expire_post c0 o rest w' ∧ (rest = [] ∨ may_fail))
    (λ _ _, False))); [|intros [[]|e] w2; simpl; [intros; by apply wp_ret|done]].
  eapply wp_mono; [apply (wp_foldM_prefix (λ done _ w', ∀ rest, out = done ++ rest → ∃ lost,
      expire_post c0 o (rest ++ lost) w' ∧ (lost = [] ∨ may_fail)) (λ _ _, False) _ tt [] out)|].
  - intros rest ->. exists []. rewrite app_nil_r. split; [by split|by left].
  - intros done a rest _ w2 Hout HI. simpl in Hout. destruct (HI _ Hout) as (lost & Hp & Hlost).
    apply wp_bind, wp_catch. wp_use (wp_expire_one c0 o a (rest ++ lost)); [exact Hp|].
    intros r w3 Hpost. apply wp_ret. intros rest'.
    rewrite Hout, <-(assoc_L (++)). intros [= <-]%(app_inv_head done).
    destruct r as [[]|e]; simpl in Hpost; [by exists lost|].
    destruct Hpost as [[Hm [[_ ?]|Hr]]|[]]; [by exists lost|].
    exists (a :: lost). split; [|by right]. eapply expire_perm; [|by eapply expire_rolled].
    by rewrite <-Permutation_middle.
  - intros [[]|e] w3; simpl; [|done]. intros HI. destruct (HI []) as (lost & Hp & Hl); [by rewrite app_nil_r|].
    by exists lost.
Qed.

(** * [CancelRun] *)

(** The state inside the loop of [CancelRun]: the steps of [done] are terminal. *)
Record cancelling (c0 : Cfg) (o : gset uuid) (rid : uuid) (st : RunStatus) (d0 : Tables)
    (done : list Step.t) (w : World) : Prop := {
  cn_good : good c0 o None w;
  cn_local : local_to rid d0 (db w);
  cn_run : run_status (db w) rid = Some st;
  cn_rows : ∀ id s, steps d0 !! id = Some s →
    steps (db w) !! id = Some s ∨
    ∃ s', steps (db w) !! id = Some s' ∧ same_step s' s ∧ StepTerminal (Step.Status s) = false ∧
          Step.Status s' = StepCancelled;
  cn_dom : ∀ id, is_Some (steps (db w) !! id) → is_Some (steps d0 !! id);
  cn_done : ∀ s, s ∈ done → ∃ s', steps (db w) !! Step.ID s = Some s' ∧
    StepTerminal (Step.Status s') = true
}.

Lemma wp_cancel_one c0 o rid st d0 done s w :
  (∀ id s, steps d0 !! id = Some s → Step.ID s = id) →
  cancelling c0 o rid st d0 done w → steps d0 !! Step.ID s = Some s → Step.WorkflowRunID s = rid →
  wp (if StepTerminal (Step.Status s) then mret tt
      else _ ← UpdateStepStatus (Step.ID s) [Step.Status s] StepCancelled None None false; mret tt)
    (post (λ _, cancelling c0 o rid st d0 (done ++ [s])) (λ _ _, may_fail)) w.
Proof.
  intros Hkey [Hg Hl Hr Hrows Hdom Hdone] Hs Hrun.
  destruct (Hrows _ _ Hs) as [Hcur|(s' & Hs' & Hsame & Hnt & Hc)].
  - destruct (StepTerminal (Step.Status s)) eqn:Et.
    { apply wp_ret. split; [done..|]. intros t [Ht| ->%list_elem_of_singleton]%elem_of_app; eauto. }
    apply wp_bind. wp_use (wp_move c0 o rid None w s s); [done..|by split|done|by apply Move_cancel|].
    intros [ok|e] w1; simpl; [|done]. intros [-> Hstep]. apply wp_ret.
    destruct (Hstep (set_Status s StepCancelled)) as [Hg1 Hl1 (row & Hrow & Hag) Hsame1 Hr1]; [by split|done..|].
    assert (steps (db w1) !! Step.ID s = Some row) as Hnew by by rewrite Hrow, lookup_insert_eq.
    split; [done|by etransitivity|by rewrite Hr1| | |].
    + intros id t Ht. destruct (decide (id = Step.ID s)) as [->|Hne].
      * simplify_eq. right. exists row. split_and!; [done| |done|apply (ag_status _ _ Hag)].
        eapply same_step_trans; [exact Hsame1|apply Hag].
      * rewrite Hrow, lookup_insert_ne by done. auto.
    + intros id. rewrite Hrow. destruct (decide (id = Step.ID s)) as [->|]; [by rewrite Hs|].
      rewrite lookup_insert_ne by done. auto.
    + intros t [Ht| ->%list_elem_of_singleton]%elem_of_app.
      * destruct (decide (Step.ID t = Step.ID s)) as [Eid|]; [rewrite Eid; exists row|].
        -- by rewrite (ag_status _ _ Hag).
        -- rewrite Hrow, lookup_insert_ne by done. auto.
      * exists row. by rewrite (ag_status _ _ Hag).
  - rewrite Hnt. apply wp_bind. wp_law law_UpdateStepStatus; [by eapply good_keyed|].
    intros [[]|e] w1 [H Ht]; simpl in *; [| |by destruct H].
    { destruct H as (t & t' & Ht' & Hbad%list_elem_of_singleton & _). simplify_eq. by rewrite <-Hbad, Hc in Hnt. }
    destruct H as [_ Hdb]. apply wp_ret. split; rewrite ?Hdb; [by eapply good_still|done..|].
    intros t [Ht'| ->%list_elem_of_singleton]%elem_of_app; [eauto|]. exists s'. by rewrite Hc.
Qed.

Lemma wp_cancel_all c0 o rid st l w :
  good c0 o None w → run_status (db w) rid = Some st →
  (∀ s, s ∈ l ↔ (∃ id, steps (db w) !! id = Some s) ∧ Step.WorkflowRunID s = rid) →
  wp (foldM (λ _ s, if StepTerminal (Step.Status s) then mret tt
        else _ ← UpdateStepStatus (Step.ID s) [Step.Status s] StepCancelled None None false;
             mret tt) tt l)
    (post (λ _, cancelling c0 o rid st (db w) l) (λ _ _, may_fail)) w.
Proof.
  intros Hg Hr Hl. pose proof (si_key _ (inv_steps _ (g_inv _ _ _ _ Hg))) as Hkey. simpl in Hkey.
  apply (wp_foldM_prefix (λ done _ w', cancelling c0 o rid st (db w) done w') _ _ tt [] l).
  - split; [done|reflexivity|done|by left|done|inversion 1].
  - intros done s rest _ w1 Heq HI. simpl in Heq.
    destruct (proj1 (Hl s)) as [[id Hs] Hrun]; [rewrite Heq; apply elem_of_app; right; constructor|].
    apply wp_cancel_one; [done..| |done]. by rewrite (Hkey id s Hs).
Qed.

(** The effect of cancelling a live run: it is CANCELLED, each of its steps that had
    not finished is CANCELLED, the others are as they were. *)
Definition cancelled_post (rid : uuid) (d d' : Tables) : Prop :=
  run_status d' rid = Some RunCancelled ∧ local_to rid d d' ∧
  ∀ id s, steps d !! id = Some s → Step.WorkflowRunID s = rid →
    ∃ s', steps d' !! id = Some s' ∧ same_step s' s ∧
      Step.Status s' = if StepTerminal (Step.Status s) then Step.Status s else StepCancelled.

Lemma cancelling_all c0 o rid st d0 l w id s' :
  cancelling c0 o rid st d0 l w → (∀ id s, steps d0 !! id = Some s → Step.ID s = id) →
  (∀ s, s ∈ l ↔ (∃ id, steps d0 !! id = Some s) ∧ Step.WorkflowRunID s = rid) →
  steps (db w) !! id = Some s' → Step.WorkflowRunID s' = rid →
  StepTerminal (Step.Status s') = true.
Proof.
  intros [Hg Hl Hr Hrows Hdom Hdone] Hkey Hin Hs' Hrun.
  destruct (Hdom id) as [s Hs]; [eauto|].
  destruct (Hrows id s Hs) as [Hcur|(t & Ht & Hsame & _ & Hc)]; [|simplify_eq; by rewrite Hc].
  rewrite Hs' in Hcur. injection Hcur as ->.
  destruct (Hdone s) as (t & Ht & Hterm); [apply Hin; eauto|].
  rewrite (Hkey id s Hs), Hs' in Ht. by injection Ht as ->.
Qed.

Lemma cancelling_post c0 o rid st d0 l w id s :
  cancelling c0 o rid st d0 l w → (∀ id s, steps d0 !! id = Some s → Step.ID s = id) →
  (∀ s, s ∈ l ↔ (∃ id, steps d0 !! id = Some s) ∧ Step.WorkflowRunID s = rid) →
  steps d0 !! id = Some s → Step.WorkflowRunID s = rid →
  ∃ s', steps (db w) !! id = Some s' ∧ same_step s' s ∧
    Step.Status s' = if StepTerminal (Step.Status s) then Step.Status s else StepCancelled.
Proof.
  intros Hc Hkey Hin Hs Hrun.
  destruct (cn_rows _ _ _ _ _ _ _ Hc id s Hs) as [Hcur|(t & Ht & Hsame & Hnt & Hst)].
  - exists s. split_and!; [done..|].
    by rewrite (cancelling_all _ _ _ _ _ _ _ _ _ Hc Hkey Hin Hcur Hrun).
  - exists t. by rewrite Hnt.
Qed.

Definition cancel_post (c0 : Cfg) (o : gset uuid) (rid : uuid) (w w' : World) : Prop :=
  good c0 o None w' ∧ ∃ st, run_status (db w) rid = Some st ∧
    if RunTerminal st then db w' = db w else cancelled_post rid (db w) (db w').

(** The last writes of [CancelRun], once every step is terminal. *)
Lemma wp_cancel_run c0 o rid st d0 l w :
  (∀ id s, steps d0 !! id = Some s → Step.ID s = id) →
  (∀ s, s ∈ l ↔ (∃ id, steps d0 !! id = Some s) ∧ Step.WorkflowRunID s = rid) →
  RunTerminal st = false → cancelling c0 o rid st d0 l w →
  wp (_ ← CancelTimersForRun rid;
      _ ← UpdateWorkflowRunStatus rid [RunPending; RunRunning] RunCancelled None None;
      _ ← AppendHistory rid "run_cancelled" None;
      mret tt)
    (post (λ _ w', good c0 o None w' ∧ cancelled_post rid d0 (db w')) (λ _ _, may_fail)) w.
Proof.
  intros Hkey Hl Hnt Hc. apply wp_bind. wp_law law_CancelTimersForRun.
  intros [[]|e] w2 [Hdb2 Ht2]; simpl in *; [|done].
  assert (good c0 o None w2) as Hg2.
  { eapply good_cancel_timers; [apply Hc| |done|done]. intros id s Hs Hrun.
    by eapply (cancelling_all _ _ _ _ d0). }
  destruct (run_exists rid _ _ (cn_run _ _ _ _ _ _ _ Hc)) as (r2 & Hr2 & Er2).
  assert (runs (db w2) !! rid = Some r2) as Hr2' by (by rewrite Hdb2).
  pose proof (ri_key _ _ (inv_runs _ (g_inv _ _ _ _ Hg2)) _ _ Hr2') as Hid2.
  apply wp_bind. wp_law law_UpdateWorkflowRunStatus; [by eapply good_keyed|].
  intros [[]|e] w3 [H Ht3]; simpl in *; [| |done].
  2: { destruct H as [Hno _]. destruct (Hno r2 Hr2'). rewrite Er2. by apply nonterminal_cases. }
  destruct H as (r & r3 & Hr & _ & Hsame & Eseq & Est & Hdb3). rewrite Hr2' in Hr. injection Hr as <-.
  destruct (good_run c0 o None w2 w3 rid r2 r3) as [Hg3 Hl3]; [done..| |done|done|].
  { rewrite Est. apply Move_finished; [by rewrite Er2|done|]. rewrite Hdb2, Hid2. intros id s Hs Hrun.
    by eapply (cancelling_all _ _ _ _ d0). }
  apply wp_bind. wp_use (wp_history c0 o rid None _ _ _ RunCancelled); [exact Hg3| |].
  { unfold run_status. rewrite Hdb3. simpl. by rewrite lookup_insert_eq, <-Est. }
  intros [h|e] w4; simpl; [|done]. intros Hq. apply wp_ret. split; [apply Hq|]. split_and!.
  - rewrite (qt_run _ _ _ _ _ _ Hq). unfold run_status. rewrite Hdb3. simpl.
    by rewrite lookup_insert_eq, <-Est.
  - transitivity (db w); [apply (cn_local _ _ _ _ _ _ _ Hc)|].
    transitivity (db w2); [rewrite Hdb2; by split|]. etransitivity; [exact Hl3|apply Hq].
  - intros id s Hs Hrun. rewrite (qt_steps _ _ _ _ _ _ Hq), Hdb3, Hdb2.
    exact (cancelling_post _ _ _ _ _ _ _ _ _ Hc Hkey Hl Hs Hrun).
Qed.

Lemma wp_CancelRun c0 o rid w :
  good c0 o None w →
  wp (Engine.CancelRun rid) (tx_post (λ _, cancel_post c0 o rid w) (unknown_run rid w) w) w.
Proof.
  intros Hg. apply wp_WithTx; [steady|]. pose proof (si_key _ (inv_steps _ (g_inv _ _ _ _ Hg))) as Hkey.
  simpl in Hkey. apply wp_bind. wp_use wp_GetWorkflowRun; [exact Hg|]. intros [r|e] w1; simpl; [|done].
  intros (_ & Hid & Hrs & Hdb1 & Hg1).
  destruct (RunTerminal (WorkflowRun.Status r)) eqn:Et.
  { apply wp_ret. split; [done|]. exists (WorkflowRun.Status r). by rewrite Et. }
  apply wp_bind. wp_law law_GetSteps. intros [l|e] w2 [H Ht]; simpl in *; [|by left].
  destruct H as [Hdb2 Hl]. rewrite Hdb1 in Hdb2, Hl. assert (good c0 o None w2) as Hg2.
  { eapply good_still; [exact Hg1|congruence|done]. }
  apply wp_bind. wp_use (wp_cancel_all c0 o rid (WorkflowRun.Status r) l w2);
    [exact Hg2|by rewrite Hdb2|by rewrite Hdb2|].
  intros [[]|e] w3; simpl; [|by left]. rewrite Hdb2. intros Hc.
  wp_use wp_cancel_run; [done|exact Hl|exact Et|exact Hc|].
  intros [[]|e] w4; simpl; [|by left]. intros [Hg4 Hpost]. split; [done|].
  exists (WorkflowRun.Status r). by rewrite Et.
Qed.

(** * [ApplySignal] *)

(** [InsertSignal] records the signal and nothing else. *)
Lemma wp_InsertSignal c0 o rid name payload w :
  good c0 o None w →
  wp (InsertSignal rid name payload)
    (post (λ sig w', quiet c0 o rid None w w' ∧ runs (db w') = runs (db w) ∧
             signals (db w') = <[Signal.ID sig := sig]> (signals (db w)) ∧
             Signal.SignalName sig = name ∧ Signal.WorkflowRunID sig = rid ∧
             Signal.Processed sig = false) (λ _ _, may_fail)) w.
Proof.
  intros Hg. wp_law law_InsertSignal. intros [sig|e] w' [H Ht]; simpl in *; [|done].
  destruct H as (E1 & E2 & E3 & Hdb). split; [by eapply quiet_signals|]. by rewrite Hdb.
Qed.

Definition signalled_post (c0 : Cfg) (o : gset uuid) (rid : uuid) (w w' : World) : Prop :=
  good c0 o None w' ∧ ∃ st w1, run_status (db w) rid = Some st ∧
    quiet c0 o rid None w w1 ∧ reconcile_post c0 o rid st w1 w'.

(** A signal for an unknown run, on a store without rollback: it is recorded. *)
Definition unknown_signalled (c0 : Cfg) (o : gset uuid) (rid : uuid) (w : World) (e : error)
    (w' : World) : Prop :=
  good c0 o None w' ∧ run_status (db w) rid = None ∧ e = ErrNotFound ∧
  runs (db w') = runs (db w) ∧ steps (db w') = steps (db w).

(** Any name but the reserved one: the signal is stored and the run reconciled;
    for an unknown run the call fails. *)
Lemma wp_ApplySignal c0 o rid name payload w :
  good c0 o None w → name ≠ "__cancel__" →
  wp (Engine.ApplySignal rid name payload)
    (tx_post (λ _, signalled_post c0 o rid w) (unknown_signalled c0 o rid w) w) w.
Proof.
  intros Hg Hname. unfold Engine.ApplySignal. rewrite decide_False by done.
  apply wp_WithTx; [steady|]. apply wp_bind.
  wp_use wp_InsertSignal; [exact Hg|]. intros [sig|e] w1; simpl; [|by left]. intros (Hq & Hruns & _).
  apply wp_bind. wp_use wp_GetWorkflowRun; [apply Hq|]. intros [r|e] w2; simpl.
  2: { intros [?|(Hno & -> & Hdb & Ht)]; [by left|right]. rewrite (qt_run _ _ _ _ _ _ Hq) in Hno.
    unfold unknown_signalled. rewrite Hdb. split_and!; [|done..|apply Hq]. eapply good_still; [apply Hq|done|done]. }
  intros (_ & Hid & Hrs & Hdb2 & Hg2).
  assert (quiet c0 o rid None w w2) as Hqw.
  { destruct Hq. split; [done|by rewrite Hdb2..]. }
  apply wp_bind. wp_use wp_history; [exact Hg2|by rewrite Hdb2|]. intros [h|e] w3; simpl; [|by left]. intros Hq3.
  wp_use wp_reconcile; [done|apply Hq3|by rewrite (qt_run _ _ _ _ _ _ Hq3), Hdb2|done|done|].
  intros [[]|e] w4; simpl; [|by left]. intros Hrec. split; [by eapply reconcile_post_good|].
  exists (WorkflowRun.Status r), w3. split_and!; [by rewrite <-(qt_run _ _ _ _ _ _ Hq)|by eapply quiet_trans|done].
Qed.

(** * [RecoverShards] *)

Lemma Reconcile_good c0 o rid w r w' :
  good c0 o None w → tx_post (λ _ : unit, reconciled_post c0 o rid w) (unknown_run rid w) w r w' →
  good c0 o None w'.
Proof.
  intros Hg Hp. eapply tx_post_good; [exact Hp|done|..].
  - intros _ (st & _ & Hrec). by eapply reconcile_post_good.
  - intros e (_ & _ & Hdb & Ht). by eapply good_still.
Qed.

Lemma wp_RecoverShards c0 o shards w :
  good c0 o None w →
  wp (Engine.RecoverShards shards)
    (post (λ _ w', good c0 o None w') (λ _ w', may_fail ∧ good c0 o None w')) w.
Proof.
  intros Hg. unfold Engine.RecoverShards. apply wp_bind. wp_law law_ListRunningRunsForShards.
  intros [l|e] w1 [H Ht]; simpl in *; [|destruct H; split; [done|by eapply good_still]].
  apply wp_bind. eapply (wp_mono _ (post (λ _, good c0 o None) (λ _ _, False))).
  - apply wp_foldM; [by eapply good_still|]. intros [] r w2 _ Hg2.
    apply wp_bind, wp_catch. wp_use wp_Reconcile; [done|exact Hg2|].
    intros res w3 Hp. apply wp_ret. by eapply Reconcile_good.
  - intros [[]|e] w2; simpl; [|done]. intros Hg2. by apply wp_ret.
Qed.

(** * Leases *)

Lemma wp_ClaimTaskAttempt c0 o id key worker lease w :
  good c0 o None w →
  wp (ClaimTaskAttempt id key worker lease)
    (post (λ res w', good c0 o None w' ∧ claimed_post id key worker w w' res)
          (λ _ w', may_fail ∧ db w' = db w ∧ good c0 o None w')) w.
Proof.
  intros Hg. wp_law law_ClaimTaskAttempt; [by eapply good_keyed|].
  intros [res|e] w' [H Ht]; simpl in *; [|destruct H; split_and!; [done..|by eapply good_still]].
  split; [|done]. unfold claimed_post in H.
  destruct (attempts (db w) !! id) as [a|] eqn:Ea; [|destruct H; by eapply good_still].
  case_bool_decide as Eq; simpl in H; [|destruct H; by eapply good_still].
  destruct (TaskAttempt.IdempotencyKey a =? key)%N; [|destruct H; by eapply good_still].
  destruct H as (a' & _ & Hsame & El & Hdb).
  destruct (good_attempt c0 o None w w' id a a' o Hg Ea) as [Hg' _]; [done| |done|done|done].
  left. rewrite Eq. split_and!; [done|by eexists|done].
Qed.

Lemma wp_HeartbeatTaskAttempt c0 o id worker lease w :
  good c0 o None w →
  wp (HeartbeatTaskAttempt id worker lease)
    (post (λ (res : option time * bool) w', good c0 o None w' ∧
             runs (db w') = runs (db w) ∧ steps (db w') = steps (db w) ∧
             if res.2 then holds_lease w id worker ∧ holds_lease w' id worker
             else ¬ holds_lease w id worker ∧ db w' = db w)
          (λ _ w', may_fail ∧ db w' = db w ∧ good c0 o None w')) w.
Proof.
  intros Hg. wp_law law_HeartbeatTaskAttempt; [by eapply good_keyed|].
  intros [[e ok]|e] w' [H Ht]; simpl in *; [|destruct H; split_and!; [done..|by eapply good_still]].
  destruct ok; [|destruct H as [? Hdb]; rewrite Hdb; split_and!; [by eapply good_still|done..]].
  destruct H as (a & exp & Ea & El & Hdb). pose proof (leased_by_status _ _ El) as Est.
  destruct (good_attempt c0 o None w w' id a (Memory.attempt_extended a exp) o Hg Ea) as [Hg' _];
    [done|left; rewrite Est; split_and!; [done|by exists worker|done]|done|done|].
  split_and!; [done|by rewrite Hdb..|by exists a|]. eexists. rewrite Hdb. simpl. rewrite lookup_insert_eq.
  split; [done|]. exact El.
Qed.

(** * Outbox *)

Lemma wp_MarkOutboxPublished c0 o k w :
  good c0 o None w →
  wp (MarkOutboxPublished k)
    (post (λ _ w', good c0 o None w' ∧ runs (db w') = runs (db w) ∧ steps (db w') = steps (db w) ∧
             ∀ m, outbox (db w) !! k = Some m →
               ∃ n, outbox (db w') = <[k := Memory.outbox_published m n]> (outbox (db w)))
          (λ _ w', may_fail ∧ db w' = db w ∧ good c0 o None w')) w.
Proof.
  intros Hg. wp_law law_MarkOutboxPublished; [by eapply good_keyed|].
  intros [[]|e] w' [H Ht]; simpl in *; [|destruct H; split_and!; [done..|by eapply good_still]].
  destruct (outbox (db w) !! k) as [m|] eqn:Em.
  - destruct H as [n Hdb]. destruct w' as [d' n']. simpl in *. subst d'. split_and!; [|done..|].
    + eapply good_trans; [done|by eapply T_publish|done|by left].
    + intros m' [= <-]. by eexists.
  - split_and!; [by eapply good_still|by rewrite H..|done].
Qed.
End ops.
End EngineOps.
