(* ===== verification/RunCreate.v ===== *)
(** Registering definitions and creating runs: what is stored decodes to a
    validated workflow, and a new run starts with exactly the steps of its
    definition, its root steps dispatched. *)

From Stdlib Require Import Wellfounded.
From stdpp Require Import gmap strings list relations sorting.
From S2P Require Import Prelude GoLib Json Types MemStore Dsl Engine Lifecycle.
From S2P Require Import LifecycleInv Worlds Contract Reconcile EngineSpec EngineOps.
Open Scope Z_scope.

Module RunCreate.
Import Lifecycle LifecycleInv Worlds Contract Reconcile EngineSpec EngineOps.

(** * Definitions *)

(** The integers of a definition are Go [int]s. *)
Definition go_ints (d : Definition_.t) : Prop :=
  in_int64 (Definition_.Version d) = true ∧ Forall Workflowdsl.ints_ok (Workflowdsl.steps_of d).

Lemma default_int64 z d : in_int64 z = true → in_int64 d = true →
  in_int64 (Workflowdsl.default_int z d) = true.
Proof. unfold Workflowdsl.default_int. by case_match. Qed.

Lemma go_ints_validated d : go_ints d → go_ints (Workflowdsl.validated d).
Proof.
  intros [Hv Hs]. split; [by apply default_int64|].
  rewrite Workflowdsl.steps_of_validated, Forall_fmap. eapply Forall_impl; [exact Hs|].
  intros s (H1 & H2 & H3 & H4). unfold Workflowdsl.ints_ok. simpl.
  split_and!; by apply default_int64.
Qed.

Lemma ToJSON_inputs d j : Workflowdsl.ToJSON d = Some j →
  Forall (λ s, marshal_raw (StepSpec.Input s) ≠ None) (Workflowdsl.steps_of d).
Proof.
  unfold Workflowdsl.ToJSON, Workflowdsl.steps_of.
  destruct (Definition_.Steps d) as [l|]; simpl; [|constructor].
  destruct (mapM Workflowdsl.marshal_step l) as [js|] eqn:Em; [|done]. intros _.
  apply mapM_Some in Em. induction Em as [|s js' l' js'' Hs _ IH]; constructor; [|done].
  unfold Workflowdsl.marshal_step in Hs. by destruct (marshal_raw (StepSpec.Input s)).
Qed.

(** Validation errors are plain messages, never a store sentinel. *)
Definition plain (e : error) : Prop := ∃ m, e = Errorf m.

Lemma plain_err m : plain (Workflowdsl.err m).
Proof. by eexists. Qed.

Lemma check_specs_plain ss : ∀ i seen ss' e,
  Workflowdsl.check_specs i seen ss = (ss', inr e) → plain e.
Proof.
  induction ss as [|s ss IH]; intros i seen ss' e; simpl; [done|].
  repeat case_match; intros; simplify_eq; try apply plain_err. by eapply IH.
Qed.

Lemma check_deps_plain seen name deps e :
  Workflowdsl.check_deps seen name deps = Some e → plain e.
Proof.
  induction deps as [|dep deps IH]; simpl; [done|].
  repeat case_match; intros; simplify_eq; try apply plain_err. by apply IH.
Qed.

Lemma check_steps_plain seen ss : ∀ b e, Workflowdsl.check_steps seen b ss = inr e → plain e.
Proof.
  induction ss as [|s ss IH]; intros b e; simpl; [done|].
  repeat case_match; intros; simplify_eq; eauto using check_deps_plain.
Qed.

Lemma Validate_plain d e : (Workflowdsl.Validate d).2 = Some e → plain e.
Proof.
  unfold Workflowdsl.Validate. destruct (Workflowdsl.blank _); [intros [= <-]; apply plain_err|].
  destruct (Workflowdsl.steps_of d) as [|s ss] eqn:Es; [intros [= <-]; apply plain_err|].
  rewrite <-Es. destruct (Workflowdsl.check_specs _ _ _) as [ss' [seen|e']] eqn:E1.
  - destruct (Workflowdsl.check_steps seen false ss') as [[]|e''] eqn:E2; simpl.
    + repeat case_match; intros [= <-]; apply plain_err.
    + intros [= <-]; apply plain_err.
    + intros [= <-]. by eapply check_steps_plain.
  - simpl. intros [= <-]. by eapply check_specs_plain.
Qed.

(** A definition that only differs in the form of its inputs is as usable. *)
Lemma resembles_fmap {A} (f : StepSpec.t → A) p p' :
  (∀ s i, f (with_input s i) = f s) → resembles p p' →
  f <$> Workflowdsl.steps_of p' = f <$> Workflowdsl.steps_of p.
Proof.
  intros Hf (_ & _ & Hs). induction Hs as [|s s' l l' [j ->] _ IH]; simpl; [done|].
  rewrite Hf. f_equal. exact IH.
Qed.

Lemma resembles_step p p' s' : resembles p p' → s' ∈ Workflowdsl.steps_of p' →
  ∃ s j, s ∈ Workflowdsl.steps_of p ∧ s' = with_input s (Some (Text j)).
Proof.
  intros (_ & _ & Hs) Hin. apply list_elem_of_lookup in Hin as [i Hi].
  destruct (Forall2_lookup_r _ _ _ _ _ Hs Hi) as (s & Hsi & j & ->).
  exists s, j. split; [by eapply list_elem_of_lookup_2|done].
Qed.

Lemma resembles_back p p' s : resembles p p' → s ∈ Workflowdsl.steps_of p →
  ∃ j, with_input s (Some (Text j)) ∈ Workflowdsl.steps_of p'.
Proof.
  intros (_ & _ & Hs) Hin. apply list_elem_of_lookup in Hin as [i Hi].
  destruct (Forall2_lookup_l _ _ _ _ _ Hs Hi) as (s' & Hsi & j & ->).
  exists j. by eapply list_elem_of_lookup_2.
Qed.

Lemma resembles_depends p p' a b : resembles p p' →
  Workflowdsl.depends (Workflowdsl.steps_of p') a b → Workflowdsl.depends (Workflowdsl.steps_of p) a b.
Proof.
  intros Hr (s' & Hs' & Ha & Hb). destruct (resembles_step _ _ _ Hr Hs') as (s & j & Hs & ->).
  by exists s.
Qed.

Lemma resembles_WellFormed p p' :
  resembles p p' → Workflowdsl.WellFormed p → Workflowdsl.WellFormed p'.
Proof.
  intros Hr [W1 W2 W3 W4 W5 W6 W7 W8].
  assert (Workflowdsl.names (Workflowdsl.steps_of p') = Workflowdsl.names (Workflowdsl.steps_of p)) as En
    by (by apply resembles_fmap).
  rewrite Forall_forall in W3. rewrite Forall_forall in W4. split.
  - destruct Hr as (-> & _). done.
  - intros E0. pose proof (resembles_fmap StepSpec.Name _ _ (λ _ _, eq_refl) Hr) as El.
    rewrite E0 in El. by destruct (Workflowdsl.steps_of p).
  - apply Forall_forall. intros s' (s & j & Hs & ->)%(resembles_step _ _ _ Hr). exact (W3 s Hs).
  - apply Forall_forall. intros s' (s & j & Hs & ->)%(resembles_step _ _ _ Hr). exact (W4 s Hs).
  - by rewrite En.
  - intros s' dep (s & j & Hs & ->)%(resembles_step _ _ _ Hr) Hd. rewrite En. exact (W6 s dep Hs Hd).
  - destruct W7 as (s & Hs & Hd). destruct (resembles_back _ _ _ Hr Hs) as [j Hj]. eexists. by split.
  - intros n Hn. apply (W8 n). eapply tc_mono; [|exact Hn]. intros a b. by apply resembles_depends.
Qed.

Lemma resembles_def_ok p p' :
  resembles p p' → Workflowdsl.WellFormed p → Forall Workflowdsl.step_sane (Workflowdsl.steps_of p) →
  Workflowdsl.WellFormed p' ∧ Forall Workflowdsl.step_sane (Workflowdsl.steps_of p') ∧
  Forall (λ s, marshal_raw (StepSpec.Input s) ≠ None) (Workflowdsl.steps_of p').
Proof.
  intros Hr Hwf Hsane. rewrite !Forall_forall in *. split; [by eapply resembles_WellFormed|].
  split; intros s' (s & j & Hs & ->)%(resembles_step _ _ _ Hr); [|done].
  destruct (Hsane s Hs) as (? & ? & ? & ? & ? & _). done.
Qed.

Section ops.
Context {E : Env} {St : Store} {L : StoreLaws St}.

Lemma validated_sane d :
  Forall Workflowdsl.step_sane (Workflowdsl.steps_of (Workflowdsl.validated d)).
Proof.
  rewrite Workflowdsl.steps_of_validated, Forall_fmap. apply Forall_forall. intros s _.
  apply Workflowdsl.defaulted_sane.
Qed.

(** What [RegisterDefinition] stores decodes to the validated definition, up to the form of
    the inputs, and is a usable definition. *)
Lemma registered_decodes d j b :
  go_ints d → Workflowdsl.ToJSON (Workflowdsl.validated d) = Some j → stored (Some (Text j)) b →
  ∃ p, Workflowdsl.unmarshal_Definition b = Some p ∧ resembles (Workflowdsl.validated d) p.
Proof.
  intros [Hv Hi]%go_ints_validated Hj Hst.
  by eapply law_decode; [|done|apply Workflowdsl.validated_inputs|..].
Qed.

Lemma registered_def_ok d j def :
  Workflowdsl.WellFormed d → go_ints d → Workflowdsl.ToJSON (Workflowdsl.validated d) = Some j →
  stored (Some (Text j)) (WorkflowDefinition.DAG def) → def_ok def.
Proof.
  intros Hwf Hi Hj Hst. destruct (registered_decodes d j _ Hi Hj Hst) as (p & Hp & Hr).
  exists p. split; [done|]. eapply resembles_def_ok; [done| |apply validated_sane].
  by apply Workflowdsl.WellFormed_validated.
Qed.

(** [RegisterDefinition]: rejected definitions and duplicates change nothing; an
    accepted one is stored under its name and (defaulted) version. *)
Lemma wp_RegisterDefinition c0 o d w :
  good c0 o None w → go_ints d →
  wp (Engine.RegisterDefinition d)
    (post (λ def w', good c0 o None w' ∧ Workflowdsl.WellFormed d ∧
             WorkflowDefinition.Name def = Definition_.Name d ∧
             WorkflowDefinition.Version def = Workflowdsl.default_int (Definition_.Version d) 1 ∧
             ¬ registered (db w) (Definition_.Name d)
                 (Workflowdsl.default_int (Definition_.Version d) 1) ∧
             (∃ j, Workflowdsl.ToJSON (Workflowdsl.validated d) = Some j ∧
                   stored (Some (Text j)) (WorkflowDefinition.DAG def)) ∧
             db w' = set_definitions (insert (WorkflowDefinition.ID def) def) (db w))
          (λ e w', good c0 o None w' ∧ db w' = db w ∧
             (may_fail ∨ (e = ErrConflict ↔ Workflowdsl.WellFormed d ∧
                (∃ j, Workflowdsl.ToJSON (Workflowdsl.validated d) = Some j) ∧
                registered (db w) (Definition_.Name d)
                  (Workflowdsl.default_int (Definition_.Version d) 1))))) w.
Proof.
  intros Hg Hi. unfold Engine.RegisterDefinition.
  destruct (Workflowdsl.Validate d) as [d' r] eqn:Ev. destruct r as [e|].
  { apply wp_fail. simpl. split_and!; [done..|]. right.
    destruct (Validate_plain d e) as [m ->]; [by rewrite Ev|]. split; [done|].
    intros (Hwf & _). by rewrite (Workflowdsl.Validate_complete d Hwf) in Ev. }
  assert (Workflowdsl.WellFormed d) as Hwf by (apply Workflowdsl.Validate_sound; by rewrite Ev).
  rewrite (Workflowdsl.Validate_complete d Hwf) in Ev. injection Ev as <-.
  destruct (Workflowdsl.ToJSON (Workflowdsl.validated d)) as [j|] eqn:Ej.
  2: { apply wp_fail. simpl. split_and!; [done..|]. right. split; [done|]. by intros (_ & [? ?] & _). }
  wp_law law_CreateWorkflowDefinition. intros [def|e] w' [H Ht]; simpl in *.
  - destruct H as (En & Evs & Hst & Hno & Hdb). split_and!; [|done..|by exists j|done].
    eapply (good_data c0 o None w w' (<[WorkflowDefinition.ID def := def]> (definitions (db w)))
      (signals (db w))); [done| |done|done].
    apply map_Forall_insert_2; [|exact (inv_defs _ (g_inv _ _ _ _ Hg))].
    by eapply registered_def_ok.
  - destruct H as [Hdb H]. split_and!; [by eapply good_still|done|].
    destruct H as [?|[-> Hreg]]; [by left|right]. split; [|done]. intros _. split_and!; eauto.
Qed.

(** * The rows of a new run *)

(** The rows of the steps of [p] for run [rid]. *)
Definition new_rows (p : Definition_.t) (rid : uuid) (l : list Step.t) : Prop :=
  Forall2 (row_for stored rid) (Workflowdsl.ToNewSteps p) l.

Hypothesis Hu : uuid_unique.

Definition rows_map (l : list Step.t) : steps_map := list_to_map ((λ s, (Step.ID s, s)) <$> l).

Lemma rows_map_lookup l id s : NoDup (Step.ID <$> l) →
  rows_map l !! id = Some s ↔ s ∈ l ∧ Step.ID s = id.
Proof.
  intros Hnd. unfold rows_map. rewrite <-elem_of_list_to_map.
  - rewrite list_elem_of_fmap. split; [intros (t & [= -> ->] & Ht)|intros [Hs <-]]; eauto.
  - rewrite <-list_fmap_compose. exact Hnd.
Qed.

Lemma insert_rows_union l : ∀ m, NoDup (Step.ID <$> l) → insert_rows l m = rows_map l ∪ m.
Proof.
  induction l as [|s l IH]; intros m; simpl.
  { intros _. unfold rows_map. simpl. by rewrite (left_id_L ∅ (∪)). }
  intros [Hs Hnd]%NoDup_cons. rewrite IH by done. unfold rows_map. simpl.
  rewrite <-insert_union_r, <-insert_union_l; [done|].
  apply not_elem_of_list_to_map. rewrite <-list_fmap_compose. exact Hs.
Qed.

(** The rows of a validated definition are a proper set of new steps. *)
Section rows.
Context (p : Definition_.t) (rid : uuid) (run_rows : list Step.t).
Hypothesis (Hwf : Workflowdsl.WellFormed p).
Hypothesis (Hsane : Forall Workflowdsl.step_sane (Workflowdsl.steps_of p)).
Hypothesis (Hin : Forall (λ s, marshal_raw (StepSpec.Input s) ≠ None) (Workflowdsl.steps_of p)).
Hypothesis (Hrows : new_rows p rid run_rows).
Hypothesis (run_rows_nodup : NoDup (Step.ID <$> run_rows)).

(** A row comes from a step of the definition. *)
Lemma run_rows_spec s : s ∈ run_rows → ∃ spec, spec ∈ Workflowdsl.steps_of p ∧
  Step.WorkflowRunID s = rid ∧ Step.StepName s = StepSpec.Name spec ∧
  Step.DependsOn s = Workflowdsl.deps_of spec ∧ Step.Status s = StepPending ∧
  Step.AttemptCount s = 0 ∧ Step.MaxAttempts s = StepSpec.MaxAttempts spec ∧
  stored (StepSpec.Input spec) (Step.Input s) ∧ Step.TaskType s = StepSpec.Type_ spec ∧
  Step.TimeoutSeconds s = StepSpec.TimeoutSeconds spec.
Proof.
  intros Hs. apply list_elem_of_lookup in Hs as [i Hi].
  destruct (Forall2_lookup_r _ _ _ _ _ Hrows Hi) as (ns & Hns & Hrow).
  apply list_elem_of_lookup_2, list_elem_of_fmap in Hns as (spec & -> & Hspec).
  exists spec. destruct Hrow as [R1 R2 R3 R4 R5 R6 R7 R8 R9]. simpl in *. split_and!; try done.
  pose proof (proj1 (Forall_forall _ _) Hsane spec Hspec) as (_ & _ & _ & _ & _ & He).
  destruct (StepSpec.Input spec); [done|]. by simpl in He.
Qed.

Lemma run_rows_name spec : spec ∈ Workflowdsl.steps_of p →
  ∃ s, s ∈ run_rows ∧ Step.StepName s = StepSpec.Name spec.
Proof.
  intros [i Hi]%list_elem_of_lookup.
  destruct (Forall2_lookup_l _ _ _ i (Workflowdsl.ToNewStep spec) Hrows) as (s & Hs & Hrow).
  { unfold Workflowdsl.ToNewSteps. by rewrite list_lookup_fmap, Hi. }
  exists s. split; [by eapply list_elem_of_lookup_2|]. apply (rf_name _ _ _ _ Hrow).
Qed.

Lemma run_rows_names : Step.StepName <$> run_rows = Workflowdsl.names (Workflowdsl.steps_of p).
Proof.
  unfold new_rows, Workflowdsl.ToNewSteps in Hrows. revert Hrows. clear.
  generalize (Workflowdsl.steps_of p) as l. intros l. revert run_rows.
  induction l as [|s l IH]; intros rows H; inversion H as [|ns row nss rows' Hrow Hr]; subst; simpl; [done|].
  f_equal; [apply (rf_name _ _ _ _ Hrow)|exact (IH _ Hr)].
Qed.

Lemma names_NoDup_inj (l : list Step.t) s t :
  NoDup (Step.StepName <$> l) → s ∈ l → t ∈ l → Step.StepName s = Step.StepName t → s = t.
Proof.
  induction l as [|x l IH]; simpl; [by intros _ ?%elem_of_nil|].
  intros [Hx Hnd]%NoDup_cons [->|Hs]%elem_of_cons [->|Ht]%elem_of_cons E1; auto;
    exfalso; apply Hx, list_elem_of_fmap; eauto.
Qed.

Lemma run_rows_acyclic : well_founded (dep_edge (rows_map run_rows) rid).
Proof.
  set (ss := Workflowdsl.steps_of p).
  assert (∀ a b, dep_edge (rows_map run_rows) rid a b → Workflowdsl.depends ss b a) as Hdep.
  { intros a b (i & s & Hs & _ & Hname & Hd). apply rows_map_lookup in Hs as [Hs _]; [|done].
    destruct (run_rows_spec s Hs) as (spec & Hspec & _ & En & Ed & _).
    exists spec. by rewrite <-Ed, <-En. }
  assert (∀ a b, Workflowdsl.depends ss a b → b ≠ "") as Hne.
  { intros a b (spec & Hs & _ & Hd) ->. destruct (Workflowdsl.wf_deps _ Hwf spec "" Hs Hd) as [Hb _].
    apply list_elem_of_fmap in Hb as (spec' & Eb & Hs').
    pose proof (proj1 (Forall_forall _ _) (Workflowdsl.wf_named _ Hwf) spec' Hs') as Hbl.
    cbn beta in Hbl. by rewrite <-Eb, Workflowdsl.blank_empty in Hbl. }
  intros n. destruct (decide (n ∈ Workflowdsl.names ss)) as [Hn|Hn].
  - pose proof (Workflowdsl.acyclic_safe ss (Workflowdsl.wf_unique _ Hwf) Hne (Workflowdsl.wf_acyclic _ Hwf) n Hn)
      as Hsafe. eapply Acc_incl; [|exact Hsafe]. intros a b Hab.
    apply Workflowdsl.depends_edge; [apply (Workflowdsl.wf_unique _ Hwf)|by apply Hdep].
  - constructor. intros m (spec & Hs & <- & _)%Hdep. destruct Hn. apply list_elem_of_fmap. eauto.
Qed.

Lemma run_rows_new : new_steps rid (rows_map run_rows).
Proof.
  split.
  - intros id s [Hs <-]%rows_map_lookup; [|done].
    destruct (run_rows_spec s Hs) as (spec & Hspec & -> & _ & _ & -> & -> & -> & Hst & _).
    pose proof (proj1 (Forall_forall _ _) Hin spec Hspec) as Hm.
    pose proof (proj1 (Forall_forall _ _) Hsane spec Hspec) as (Hmax & _ & _ & _ & _ & He).
    split_and!; try done. cbn beta in Hm. destruct (StepSpec.Input spec); [|by simpl in He].
    by eapply law_marshal.
  - intros i j s t [Hs <-]%rows_map_lookup [Ht <-]%rows_map_lookup; [|done..]. intros En.
    f_equal. eapply (names_NoDup_inj run_rows); [|done..].
    rewrite run_rows_names. exact (Workflowdsl.wf_unique _ Hwf).
  - intros id s dep [Hs <-]%rows_map_lookup Hd; [|done].
    destruct (run_rows_spec s Hs) as (spec & Hspec & _ & _ & Ed & _). rewrite Ed in Hd.
    destruct (Workflowdsl.wf_deps _ Hwf spec dep Hspec Hd) as [Hb _].
    apply list_elem_of_fmap in Hb as (spec' & -> & Hs').
    destruct (run_rows_name spec' Hs') as (t & Ht & En).
    exists (Step.ID t), t. by rewrite rows_map_lookup.
  - apply run_rows_acyclic.
Qed.
End rows.

(** * Looking a definition up *)

Lemma wp_lookup_definition name version w :
  wp (Engine.lookup_definition name version)
    (post (λ def w', db w' = db w ∧ denotes (db w) name version def)
          (λ e w', db w' = db w ∧ (may_fail ∨ errors_Is e ErrNotFound = true ∧
             ¬ ∃ def, denotes (db w) name version def))) w.
Proof.
  assert (wp (if 0 <? version then GetWorkflowDefinition name version
              else GetLatestWorkflowDefinition name)
    (post (λ def w', db w' = db w ∧ denotes (db w) name version def)
          (λ e w', db w' = db w ∧
             (may_fail ∨ e = ErrNotFound ∧ ¬ ∃ def, denotes (db w) name version def))) w) as Hwp.
  { destruct (Z.ltb_spec 0 version);
      [by apply law_GetWorkflowDefinition|apply law_GetLatestWorkflowDefinition; lia]. }
  unfold Engine.lookup_definition, Engine.wrap_err, wp in *.
  set (m := if 0 <? version then _ else _) in *. destruct (m w) as [[def|e] w1]; simpl in *; [done|].
  destruct Hwp as [Hdb [?|[-> Hno]]]; auto.
Qed.

(** * [CreateRun] *)

(** The identifiers of the new rows are new. *)
Lemma create_fresh w k l ks n :
  bounded w → (tick w ≤ k)%nat → Step.ID <$> l = uuid_New <$> ks →
  Forall (λ j, S k ≤ j < n)%nat ks → NoDup ks →
  runs (db w) !! uuid_New k = None ∧ NoDup (Step.ID <$> l) ∧ rows_map l ##ₘ steps (db w).
Proof.
  intros Hb Hk Hids Hks Hnd.
  assert (∀ j, (tick w ≤ j)%nat → ¬ has (db w) (uuid_New j)) as Hfresh
    by (intros j Hj; by eapply fresh_id).
  assert (NoDup (Step.ID <$> l)) as Hl.
  { rewrite Hids. apply NoDup_fmap_2; [|done]. intros i j Hij. by apply Hu. }
  split_and!; [|done|].
  - destruct (runs (db w) !! uuid_New k) eqn:Er; [|done].
    destruct (Hfresh k); [lia|left; by rewrite Er].
  - apply map_disjoint_spec. intros i s t Hs Ht.
    apply rows_map_lookup in Hs as [Hs <-]; [|done].
    assert (Step.ID s ∈ uuid_New <$> ks) as (j & Ej & Hj)%list_elem_of_fmap
      by (rewrite <-Hids; apply list_elem_of_fmap; eauto).
    rewrite Forall_forall in Hks. specialize (Hks j Hj). cbn beta in Hks.
    destruct (Hfresh j); [lia|]. right; left. rewrite <-Ej. by rewrite Ht.
Qed.

Lemma good_create c0 o w w' p k r l ks :
  good c0 o None w → Workflowdsl.WellFormed p →
  Forall Workflowdsl.step_sane (Workflowdsl.steps_of p) →
  Forall (λ s, marshal_raw (StepSpec.Input s) ≠ None) (Workflowdsl.steps_of p) →
  let rid := uuid_New k in
  (tick w ≤ k)%nat → (S k ≤ tick w')%nat → WorkflowRun.ID r = rid →
  WorkflowRun.Status r = RunPending → WorkflowRun.HistorySeq r = 0 → new_rows p rid l →
  Step.ID <$> l = uuid_New <$> ks → NoDup ks → Forall (λ j, S k ≤ j < tick w')%nat ks →
  db w' = set_steps (insert_rows l) (set_runs (insert rid r) (db w)) →
  good c0 o None w' ∧ local_to rid (db w) (db w') ∧ run_status (db w') rid = Some RunPending ∧
  runs (db w) !! rid = None ∧
  (∀ s, s ∈ l ↔ (∃ i, steps (db w') !! i = Some s) ∧ Step.WorkflowRunID s = rid).
Proof.
  intros Hg Hwf Hsane Hin rid Hk Hk' Hid Hst Hseq Hrows Hids Hks Hall Hdb.
  pose proof (inv_runs _ (g_inv _ _ _ _ Hg)) as Hri. simpl in Hri.
  destruct (create_fresh w k l ks (tick w') (g_bounded _ _ _ _ Hg) Hk Hids Hall Hks) as (Hrid & Hnd & Hdisj).
  fold rid in Hrid. pose proof (run_rows_new p rid l Hwf Hsane Hin Hrows Hnd) as Hnew.
  assert (set_steps (insert_rows l) (set_runs (insert rid r) (db w)) =
          set_steps (λ m, rows_map l ∪ m) (set_runs (insert rid r) (db w))) as Etab.
  { unfold set_steps. simpl. by rewrite insert_rows_union. }
  destruct w' as [d' n']. simpl in *. subst d'. rewrite Etab. split_and!.
  - eapply good_trans; [done|by apply T_create|simpl; lia|].
    intros i Hi. unfold has in *. simpl in *. destruct Hi as [Hi|[Hi|Hi]]; [| |by left; right; right].
    + destruct (decide (i = rid)) as [->|]; [right; exists k; simpl; split; [lia|done]|].
      rewrite lookup_insert_ne in Hi by done. by left; left.
    + destruct Hi as [s [Hs|Hs]%lookup_union_Some]; [| |done]; [right|left; right; left; eauto].
      apply rows_map_lookup in Hs as [Hs <-]; [|done].
      assert (Step.ID s ∈ uuid_New <$> ks) as (j & Ej & Hj)%list_elem_of_fmap
        by (rewrite <-Hids; apply list_elem_of_fmap; eauto).
      rewrite Forall_forall in Hall. specialize (Hall j Hj). cbn beta in Hall.
      exists j. simpl. split; [lia|done].
  - split; simpl; [|intros i Hne; by rewrite lookup_insert_ne|done..].
    intros i s Hne. split; [intros Hs; rewrite lookup_union_Some by done; by right|].
    intros [[_ ?]|[? _]]%(union_inv (runs (db w)) _ _ rid); done.
  - unfold run_status. simpl. by rewrite lookup_insert_eq, <-Hst.
  - done.
  - intros s. simpl. split.
    + intros Hs. split; [|by destruct (run_rows_spec p rid l Hsane Hrows s Hs) as (? & _ & ? & _)].
      exists (Step.ID s). apply lookup_union_Some; [done|]. left. by apply rows_map_lookup.
    + intros [[i [[Hs _]|[_ ?]]%(union_inv (runs (db w)) _ _ rid)] Hrun]; [|done..].
      by apply rows_map_lookup in Hs as [? _].
Qed.

(** A new run: its rows are those of the definition it denotes, all PENDING, and
    then the run has been reconciled once. *)
Definition started_post (c0 : Cfg) (o : gset uuid) (def : WorkflowDefinition.t) (p : Definition_.t)
    (w : World) (rid : uuid) (w' : World) : Prop :=
  ∃ r l w1 rs', runs (db w) !! rid = None ∧ runs (db w') !! rid = Some r ∧ WorkflowRun.ID r = rid ∧
    WorkflowRun.DefinitionID r = WorkflowDefinition.ID def ∧
    new_rows p rid l ∧ local_to rid (db w) (db w1) ∧
    reconciled (Engine.newRunState l) rs' ∧
    view c0 o rid None (db w1) (next_status RunPending rs') rs' w'.

Definition created_post (c0 : Cfg) (o : gset uuid) (name : string) (version : Z)
    (w : World) (run : WorkflowRun.t) (w' : World) : Prop :=
  good c0 o None w' ∧ ∃ def p, denotes (db w) name version def ∧
    Workflowdsl.unmarshal_Definition (WorkflowDefinition.DAG def) = Some p ∧
    Forall Workflowdsl.step_sane (Workflowdsl.steps_of p) ∧
    runs (db w') !! WorkflowRun.ID run = Some run ∧
    started_post c0 o def p w (WorkflowRun.ID run) w'.

Lemma wp_create_tx c0 o p def name input w :
  good c0 o None w → Workflowdsl.WellFormed p →
  Forall Workflowdsl.step_sane (Workflowdsl.steps_of p) →
  Forall (λ s, marshal_raw (StepSpec.Input s) ≠ None) (Workflowdsl.steps_of p) →
  wp (WithTx (
        id ← new_uuid;
        run ← CreateWorkflowRun id (WorkflowDefinition.ID def) name
                (WorkflowDefinition.Version def) (Engine.ShardFor id) input;
        steps ← CreateSteps (WorkflowRun.ID run) (Workflowdsl.ToNewSteps p);
        _ ← AppendHistory (WorkflowRun.ID run) "run_created"
              (mustJSON [("name", JStr name); ("version", JInt (WorkflowDefinition.Version def));
                         ("steps", JInt (Z.of_nat (length steps)))]);
        _ ← Engine.reconcileTx run steps;
        mret (WorkflowRun.ID run)))
    (tx_post (started_post c0 o def p w) no_error w) w.
Proof.
  intros Hg Hwf Hsane Hin. apply wp_tx; [steady|].
  apply wp_bind. eapply wp_eq; [reflexivity|]. simpl. set (rid := uuid_New (tick w)).
  apply wp_bind. wp_law law_CreateWorkflowRun. intros [run|e] wa [Ha Hta]; simpl in *; [|done].
  destruct Ha as (Hid & Hdef & _ & _ & _ & Hst & Hseq & _ & Hdba). rewrite Hid.
  apply wp_bind. wp_law law_CreateSteps. intros [l|e] w1 [Hb Htb]; simpl in *; [|done].
  destruct Hb as (Hrows & (ks & Hids & Hks & Hall) & Hdbb). rewrite Hdba in Hdbb.
  destruct (good_create c0 o w w1 p (tick w) run l ks) as (Hg1 & Hl1 & Hrs1 & Hnone & Hmem); try done; [lia| |].
  { eapply Forall_impl; [exact Hall|]. intros j Hj. cbn beta in *. lia. }
  set (c1 := mkCfg (db w1) o None). assert (good c1 o None w1) as Hg1' by by eapply good_restart.
  apply wp_bind. wp_use (wp_history c1 o rid None w1 _ _ RunPending Hg1' Hrs1).
  intros [h|e] w2; simpl; [|done]. intros Hq. apply wp_bind.
  wp_use (wp_reconcile_view c1 o rid run Hid Hu (db w1) RunPending l w2); [|done|done|].
  - split; [apply Hq| |by rewrite (qt_run _ _ _ _ _ _ Hq)|apply Hq].
    rewrite (qt_steps _ _ _ _ _ _ Hq). apply agree_newRunState; [|exact Hmem].
    exact (inv_steps _ (g_inv _ _ _ _ Hg1)).
  - intros [[]|e] w3; simpl; [|done]. intros (rs' & Hrec & Hv). apply wp_ret.
    pose proof (v_good _ _ _ _ _ _ _ _ Hv) as Hg3.
    destruct (ev_runs _ _ (restart_evolves _ _ _ _ _ _ _ Hg1 Hg3) rid run) as (r3 & Hr3 & Hev).
    { rewrite Hdbb. simpl. by rewrite lookup_insert_eq. }
    exists r3, l, w1, rs'. rewrite (rn_def _ _ (re_same _ _ Hev)), (rn_ID _ _ (re_same _ _ Hev)).
    split_and!; [exact Hnone|exact Hr3|exact Hid|exact Hdef|exact Hrows|exact Hl1|exact Hrec|].
    destruct Hv as [_ Hag Hr Hl]. split; [eapply good_compose; [exact Hg1|exact Hg3]|exact Hag|exact Hr|exact Hl].
Qed.

Definition no_definition (name : string) (version : Z) (w : World) (e : error) (w' : World) : Prop :=
  db w' = db w ∧ (tick w ≤ tick w')%nat ∧ errors_Is e ErrNotFound = true ∧
  ¬ ∃ def, denotes (db w) name version def.

Lemma rolled_still w w1 w' : db w1 = db w → (tick w ≤ tick w1)%nat → rolled w1 w' → rolled w w'.
Proof. intros Hdb Ht (n & Hn & Ht' & Hd). exists n. rewrite <-Hdb. split_and!; [done|lia|done]. Qed.

Lemma still_rolled w w' : db w' = db w → (tick w ≤ tick w')%nat → rolled w w'.
Proof.
  intros Hdb Ht. exists (nextOutboxID (db w)). split_and!; [done|done|]. rewrite Hdb. by destruct (db w).
Qed.

Lemma created_post_still c0 o name version w run w1 w2 :
  created_post c0 o name version w run w1 → db w2 = db w1 → (tick w1 ≤ tick w2)%nat →
  created_post c0 o name version w run w2.
Proof.
  intros (Hg & def & p & Hd & Hp & Hsane & Hr & r & l & w3 & rs' & H1 & H2 & H3 & H4 & H5 & H6 & H7 & Hv) Hdb Ht.
  split; [by eapply good_still|]. exists def, p. rewrite Hdb. split_and!; [done..|].
  exists r, l, w3, rs'. rewrite Hdb. split_and!; [done..|].
  eapply view_quiet; [exact Hv|]. eapply quiet_still; [apply Hv|done|done].
Qed.

(** [CreateRun]: succeeds exactly when the request denotes a definition. *)
Lemma wp_CreateRun c0 o name version input w :
  good c0 o None w →
  wp (Engine.CreateRun name version input)
    (tx_post (created_post c0 o name version w) (no_definition name version w) w) w.
Proof.
  intros Hg. unfold Engine.CreateRun. apply wp_bind.
  eapply wp_mono; [apply wp_steady, wp_lookup_definition|].
  { unfold Engine.lookup_definition. steady. }
  intros [def|e] w1 [H Ht]; simpl in *; destruct H as [Hdb H].
  2: { destruct H as [Hm|[He Hno]]; [left|by right]. split; [done|right]. by apply still_rolled. }
  pose proof (good_still _ _ _ _ _ Hg Hdb Ht) as Hg1. pose proof H as [[did Hdef] _].
  destruct (inv_defs _ (g_inv _ _ _ _ Hg) did def Hdef) as (p & Hp & Hwf & Hsane & Hin).
  rewrite Hp. apply wp_bind. wp_use (wp_create_tx c0 o p def name); [exact Hg1|done..|].
  assert (∀ rid w', started_post c0 o def p w1 rid w' →
            ∃ run, WorkflowRun.ID run = rid ∧ created_post c0 o name version w run w') as Hcr.
  { intros rid w' (r & l & w2 & rs' & Hn & Hr & Hid & Hrest). rewrite Hdb in Hn. exists r.
    split; [done|]. destruct Hrest as (? & ? & Hl & ? & Hv). rewrite Hdb in Hl. split; [apply Hv|].
    exists def, p. rewrite Hid. split_and!; [done..|]. exists r, l, w2, rs'. split_and!; done. }
  intros [rid|e] w2; simpl.
  - intros Hs. destruct (Hcr _ _ Hs) as (run & Hid & Hpost). pose proof Hpost as (Hg2 & _ & _ & _ & _ & _ & Hrow & _).
    rewrite Hid in Hrow. wp_law law_GetWorkflowRun; [by eapply good_keyed|].
    intros [r|e] w3 [H3 Ht3]; simpl in *.
    + destruct H3 as [Hr Hdb3]. rewrite Hrow in Hr. injection Hr as <-. by eapply created_post_still.
    + destruct H3 as [Hdb3 [Hm|[Hno _]]]; [left|congruence]. split; [done|left]. exists run.
      by eapply created_post_still.
  - intros [[Hm Hcase]|[]]. left. split; [done|]. destruct Hcase as [[rid Hs]|Hr].
    + destruct (Hcr _ _ Hs) as (run & _ & Hpost). left. by exists run.
    + right. by eapply rolled_still.
Qed.
End ops.
End RunCreate.
