(* ===== verification/System.v ===== *)
(** The running system: any number of clients, workers and background loops acting
    on one store.

    A step of the system is one critical section: a request of the HTTP or gRPC
    surface, one iteration of a background loop, or one of the two halves of
    [ReapExpiredLeases] (which expires leases in one critical section and then
    handles the expired attempts one by one, each in its own).  The second
    component of a state holds the attempts some reaper has expired and whose steps have
    not been told: those it has yet to handle, and those it never will, because their
    transaction failed or the process stopped in between.  One whose handling was
    committed is gone even if the answer of the store was lost.  Any interleaving of these
    sections is a run of the system.  The store is any that obeys the laws of
    Contract.v. *)

From stdpp Require Import gmap strings list relations sorting.
From S2P Require Import Prelude GoLib Json Types MemStore Dsl Engine Lifecycle.
From S2P Require Import LifecycleInv Worlds Contract Reconcile EngineSpec EngineOps RunCreate.
Open Scope Z_scope.

Module System.
Import Lifecycle LifecycleInv Worlds Contract Reconcile EngineSpec EngineOps RunCreate.

Inductive request :=
| Register (d : Definition_.t)
| Create (name : string) (version : Z) (input : RawMessage)
| Claim (attempt key : uuid) (worker : string) (lease : Z)
| MarkRunning (step : uuid)
| Heartbeat (attempt : uuid) (worker : string) (lease : Z)
| Report (attempt : uuid) (worker : string) (success : bool) (out : RawMessage)
    (err : option string)
| FireTimer (timer : uuid)
| Cancel (run : uuid)
| SendSignal (run : uuid) (name : string) (payload : RawMessage)
| ReconcileRun (run : uuid)
| Publish (msg : Z)
| Observe (n : nat).

(** Requests come from Go code: their integers are machine integers. *)
Definition valid (q : request) : Prop :=
  match q with Register d => go_ints d | _ => True end.

(** An attempt that a reaper has expired and whose step has not been told: [Held] while the
    reaper has yet to handle it, [Stranded] when it never will, because its transaction
    failed (which [ReapExpiredLeases] logs and passes over) or the process stopped. *)
Inductive custody := Held | Stranded.

#[export] Instance custody_eq_dec : EqDecision custody.
Proof. solve_decision. Defined.

(** A state of the system: the store, and the attempts expired and not handled. *)
Abbreviation sys := (World * list (TaskAttempt.t * custody))%type.

(** No expired attempt of the run was given up by its reaper. *)
Definition none_stranded (fl : list (TaskAttempt.t * custody)) (rid : uuid) : Prop :=
  ∀ a, (a, Stranded) ∈ fl → TaskAttempt.WorkflowRunID a ≠ rid.

Section system.
Context {E : Env} {St : Store}.

Definition drop {A} (m : GoM World A) : GoM World unit := _ ← m; mret tt.

(** One request.  [Observe] is any read: it uses up answers of the clock and of map
    iteration and leaves the tables alone. *)
Definition exec (q : request) : GoM World unit :=
  match q with
  | Register d => drop (Engine.RegisterDefinition d)
  | Create name version input => drop (Engine.CreateRun name version input)
  | Claim a key worker lease => drop (ClaimTaskAttempt a key worker lease)
  | MarkRunning s => drop (UpdateStepStatus s [StepQueued] StepRunning None None false)
  | Heartbeat a worker lease => drop (HeartbeatTaskAttempt a worker lease)
  | Report a worker success out err => drop (Engine.HandleTaskResult a worker success out err)
  | FireTimer t => Engine.HandleFiredTimer t
  | Cancel r => Engine.CancelRun r
  | SendSignal r name payload => Engine.ApplySignal r name payload
  | ReconcileRun r => Engine.Reconcile r
  | Publish k => MarkOutboxPublished k
  | Observe n => modify (λ w, mkWorld (db w) (tick w + n))
  end.

Definition lease_lost : option string := Some "task lease expired (worker unresponsive)".

(** One iteration of the second half of [ReapExpiredLeases]. *)
Definition expire (a : TaskAttempt.t) : GoM World unit :=
  WithTx (Engine.handleAttemptOutcome a false None lease_lost).

Inductive sys_step : sys → sys → Prop :=
| Sys_request q w fl :
    valid q → sys_step (w, fl) ((exec q w).2, fl)
| Sys_reap limit w fl out w' :
    ReapExpiredAttempts limit w = (Ok out, w') →
    sys_step (w, fl) (w', ((λ a, (a, Held)) <$> out) ++ fl)
| Sys_reap_failed limit w fl e w' :
    ReapExpiredAttempts limit w = (Err e, w') → sys_step (w, fl) (w', fl)
| Sys_expire a fl1 fl2 w w' :
    expire a w = (Ok tt, w') → sys_step (w, fl1 ++ (a, Held) :: fl2) (w', fl1 ++ fl2)
| Sys_expire_undone a fl1 fl2 w e w' :
    expire a w = (Err e, w') → rolled w w' →
    sys_step (w, fl1 ++ (a, Held) :: fl2) (w', fl1 ++ (a, Stranded) :: fl2)
| Sys_expire_unanswered a fl1 fl2 w e w' :
    expire a w = (Err e, w') →
    Engine.handleAttemptOutcome a false None lease_lost w = (Ok tt, w') →
    sys_step (w, fl1 ++ (a, Held) :: fl2) (w', fl1 ++ fl2)
(** The process of the reaper stops. *)
| Sys_crash a fl1 fl2 w :
    sys_step (w, fl1 ++ (a, Held) :: fl2) (w, fl1 ++ (a, Stranded) :: fl2).

Definition init : sys := (mkWorld Memory.New 0, []).

Definition reachable (s : sys) : Prop := rtc sys_step init s.

Lemma reachable_trans s s' : reachable s → rtc sys_step s s' → reachable s'.
Proof. apply rtc_trans. Qed.

(** * The invariant of the system *)

Context {L : StoreLaws St}.
Hypothesis Hu : uuid_unique.

(** The attempts whose steps wait for an outcome. *)
Definition owing (fl : list (TaskAttempt.t * custody)) : gset uuid := ids fl.*1.

Record sys_inv (c0 : Cfg) (s : sys) : Prop := {
  sy_good : good c0 (owing s.2) None s.1;
  sy_expired : expired ∅ s.2.*1 (attempts (db s.1))
}.

Lemma wp_drop {A} (m : GoM World A) (P : outcome A → World → Prop) (Q : outcome unit → World → Prop) w :
  wp m P w → (∀ r w', P r w' → Q (match r with Ok _ => Ok tt | Err e => Err e end) w') →
  wp (drop m) Q w.
Proof.
  intros Hm HQ. unfold drop. apply wp_bind. eapply wp_mono; [exact Hm|].
  intros [a|e] w' HP; simpl; [apply wp_ret; exact (HQ _ _ HP)|exact (HQ _ _ HP)].
Qed.

(** The claim RPC marks the step RUNNING; the answer of the store is ignored. *)
Lemma wp_MarkRunning c0 o sid w :
  good c0 o None w →
  wp (UpdateStepStatus sid [StepQueued] StepRunning None None false)
    (post (λ ok w', good c0 o None w' ∧ runs (db w') = runs (db w) ∧
             if ok : bool then ∃ s s', steps (db w) !! sid = Some s ∧ Step.Status s = StepQueued ∧
               same_step s' s ∧ Step.Status s' = StepRunning ∧
               steps (db w') = <[sid := s']> (steps (db w))
             else db w' = db w)
          (λ _ w', may_fail ∧ db w' = db w ∧ good c0 o None w')) w.
Proof.
  intros Hg. wp_law law_UpdateStepStatus; [by eapply good_keyed|].
  intros [[]|e] w' [H Ht]; simpl in *.
  - destruct H as (s & s' & Hs & Hin%list_elem_of_singleton & Hsame & Est & Ec & Hdb).
    destruct (good_step c0 o None w w' sid s s') as [Hg' _]; [done..|lia| |done|done|].
    { rewrite Est. by apply Move_run. }
    split_and!; [done|by rewrite Hdb|]. exists s, s'. by rewrite Hdb.
  - destruct H as [_ Hdb]. split_and!; [by eapply good_still|by rewrite Hdb|done].
  - destruct H. split_and!; [done..|by eapply good_still].
Qed.

Lemma good_later c0 o f w n : good c0 o f w → good c0 o f (mkWorld (db w) (tick w + n)).
Proof. intros [Hp Hi Hb]. split; [done..|]. eapply bounded_mono; [exact Hb|simpl; lia|auto]. Qed.

Lemma cancel_good c0 o rid w r w' :
  good c0 o None w → tx_post (λ _ : unit, cancel_post c0 o rid w) (unknown_run rid w) w r w' →
  good c0 o None w'.
Proof.
  intros Hg Hp. eapply tx_post_good; [exact Hp|done|by intros _ [? _]|].
  intros e (_ & _ & Hdb & Ht). by eapply good_still.
Qed.

(** Every request keeps the world good. *)
Lemma exec_good c0 o q w : valid q → good c0 o None w → good c0 o None (exec q w).2.
Proof.
  intros Hv Hg. change (wp (exec q) (λ _ w', good c0 o None w') w).
  destruct q as [d|name version input|a key worker lease|s|a worker lease|a worker success out err|t
                |r|r name payload|r|k|n]; simpl.
  - eapply wp_drop; [by apply (wp_RegisterDefinition c0 o)|]. intros [] w'; simpl; naive_solver.
  - eapply wp_drop; [by apply (wp_CreateRun Hu c0 o)|]. intros res w' Hp.
    eapply tx_post_good; [exact Hp|done|by intros run [? _]|].
    intros e (Hdb & Ht & _). by eapply good_still.
  - eapply wp_drop; [by apply (wp_ClaimTaskAttempt c0 o)|]. intros [] w'; simpl; naive_solver.
  - eapply wp_drop; [by apply (wp_MarkRunning c0 o)|]. intros [] w'; simpl; naive_solver.
  - eapply wp_drop; [by apply (wp_HeartbeatTaskAttempt c0 o)|]. intros [] w'; simpl; naive_solver.
  - eapply wp_drop; [by apply (wp_HandleTaskResult Hu c0 o)|]. intros res w' Hp.
    eapply tx_post_good; [exact Hp|done|by intros acc [? _]|done].
  - wp_use wp_HandleFiredTimer; [done..|]. intros res w' Hp.
    eapply tx_post_good; [exact Hp|done|by intros _ [? _]|done].
  - wp_use wp_CancelRun; [done..|]. intros res w' Hp. by eapply cancel_good.
  - destruct (decide (name = "__cancel__")) as [->|Hne].
    + unfold Engine.ApplySignal. rewrite decide_True by done.
      wp_use wp_CancelRun; [done..|]. intros res w' Hp. by eapply cancel_good.
    + wp_use wp_ApplySignal; [done..|]. intros res w' Hp.
      eapply tx_post_good; [exact Hp|done|by intros _ [? _]|by intros e [? _]].
  - wp_use wp_Reconcile; [done..|]. intros res w' Hp. by eapply Reconcile_good.
  - wp_use wp_MarkOutboxPublished; [done..|]. intros [] w'; simpl; naive_solver.
  - apply wp_modify. by apply good_later.
Qed.

Lemma expired_evolves o fl d d' :
  evolves d d' → expired o fl (attempts d) → expired o fl (attempts d').
Proof.
  intros Hev [Hr Hn Hw]. split; [|done..]. intros a Ha. destruct (Hr a Ha) as [Hrow Hst].
  split; [|done]. destruct (ev_attempts _ _ Hev _ _ Hrow) as (a' & Ha' & Hev').
  rewrite Ha'. f_equal. apply (ae_final _ _ Hev'). by rewrite Hst.
Qed.

Lemma expired_app fl out m :
  expired (ids fl) out m → expired ∅ fl m → expired ∅ (out ++ fl) m.
Proof.
  intros [Hr1 Hn1 Hw1] [Hr2 Hn2 _]. split.
  - intros a [Ha|Ha]%elem_of_app; auto.
  - rewrite fmap_app. apply NoDup_app. split_and!; [done| |done].
    intros i (a & -> & Ha)%list_elem_of_fmap Hi. apply (Hw1 a Ha).
    unfold ids. by rewrite elem_of_list_to_set.
  - set_solver.
Qed.

Lemma ids_app l1 l2 : ids (l1 ++ l2) = ids l1 ∪ ids l2.
Proof. unfold ids. by rewrite fmap_app, list_to_set_app_L. Qed.

Lemma sys_inv_restart c0 s : sys_inv c0 s → sys_inv (mkCfg (db s.1) (owing s.2) None) s.
Proof. intros [Hg He]. split; [by eapply good_restart|done]. Qed.

Lemma sys_inv_expire c0 w fl : sys_inv c0 (w, fl) ↔ expire_post c0 ∅ fl.*1 w.
Proof. unfold expire_post. rewrite (right_id_L ∅ (∪)). split; intros []; by split. Qed.

Lemma reaped_attempts out (fl : list (TaskAttempt.t * custody)) :
  (((λ a, (a, Held)) <$> out) ++ fl).*1 = out ++ fl.*1.
Proof. rewrite fmap_app. f_equal. induction out as [|a l IH]; [done|]. by rewrite !fmap_cons, IH. Qed.

(** One attempt singled out, in whoever's custody. *)
Lemma sys_inv_one c0 w fl1 a x fl2 :
  sys_inv c0 (w, fl1 ++ (a, x) :: fl2) ↔ expire_post c0 ∅ (a :: (fl1 ++ fl2).*1) w.
Proof.
  rewrite sys_inv_expire, !fmap_app. simpl. split; apply expire_perm; by rewrite Permutation_middle.
Qed.

Lemma sys_step_inv c0 s s' : sys_step s s' → sys_inv c0 s → sys_inv c0 s'.
Proof.
  intros Hstep Hsys.
  destruct Hstep as [q w fl Hv|limit w fl out w' Hrun|limit w fl e w' Hrun|a fl1 fl2 w w' Hrun
                    |a fl1 fl2 w e w' Hrun Hr|a fl1 fl2 w e w' Hrun Hr|a fl1 fl2 w].
  - destruct Hsys as [Hg He]. split; simpl in *; [by apply exec_good|].
    eapply expired_evolves; [|exact He]. eapply restart_evolves; [exact Hg|].
    apply exec_good; [done|]. by eapply good_restart.
  - destruct Hsys as [Hg He]. simpl in *.
    pose proof (wp_run _ _ _ _ _ (wp_ReapExpiredAttempts Hu c0 (owing fl) limit w Hg) Hrun) as (Hg' & Hex & _).
    pose proof (wp_run _ _ _ _ _ (wp_ReapExpiredAttempts Hu _ (owing fl) limit w
      (good_restart _ _ _ _ Hg)) Hrun) as (Hg2 & _ & _).
    split; simpl; [unfold owing|]; rewrite reaped_attempts; [by rewrite ids_app|]. apply expired_app; [done|].
    eapply expired_evolves; [|exact He]. by eapply restart_evolves.
  - destruct Hsys as [Hg He]. simpl in *.
    pose proof (wp_run _ _ _ _ _ (wp_ReapExpiredAttempts Hu c0 (owing fl) limit w Hg) Hrun) as (_ & Hdb & Hg').
    split; simpl; [done|by rewrite Hdb].
  - apply sys_inv_expire. apply sys_inv_one in Hsys.
    exact (wp_run _ _ _ _ _ (wp_expire_one Hu c0 ∅ a _ lease_lost w Hsys) Hrun).
  - apply sys_inv_one. apply sys_inv_one in Hsys. by eapply expire_rolled.
  - apply sys_inv_expire. apply sys_inv_one in Hsys.
    exact (wp_run _ _ _ _ _ (wp_expire_body Hu c0 ∅ a _ lease_lost w Hsys) Hr).
  - apply sys_inv_one. by apply sys_inv_one in Hsys.
Qed.

Definition init_cfg : Cfg := mkCfg Memory.New ∅ None.

Lemma sys_inv_init : sys_inv init_cfg init.
Proof.
  split; [split; [done|apply Inv_empty|]|split; [inversion 1|constructor|inversion 1]].
  intros id. unfold has. simpl. rewrite !lookup_empty. intros [H|[H|[H|H]]]; by destruct H.
Qed.

Lemma steps_sys_inv c0 s s' : rtc sys_step s s' → sys_inv c0 s → sys_inv c0 s'.
Proof. induction 1; eauto using sys_step_inv. Qed.

Lemma reachable_inv s : reachable s → sys_inv init_cfg s.
Proof. intros Hr. eapply steps_sys_inv; [exact Hr|apply sys_inv_init]. Qed.

Lemma reachable_Inv s : reachable s → Inv (mkCfg (db s.1) (owing s.2) None).
Proof. intros Hr. apply (sy_good _ _ (reachable_inv s Hr)). Qed.

Lemma reachable_good s : reachable s → good (mkCfg (db s.1) (owing s.2) None) (owing s.2) None s.1.
Proof. intros Hr. eapply good_restart. apply (sy_good _ _ (reachable_inv s Hr)). Qed.

Lemma steps_evolve s s' : reachable s → rtc sys_step s s' → evolves (db s.1) (db s'.1).
Proof.
  intros Hr Hs. pose proof (sys_inv_restart _ _ (reachable_inv s Hr)) as Hi.
  pose proof (steps_sys_inv _ _ _ Hs Hi) as [Hg _].
  exact (good_evolves _ _ _ _ (g_inv _ _ _ _ (sy_good _ _ Hi)) Hg).
Qed.

(** The attempts owed an outcome are those expired and not handled. *)
Lemma owed_is_listed w fl id a :
  reachable (w, fl) → attempts (db w) !! id = Some a → id ∈ owing fl → ∃ x, (a, x) ∈ fl.
Proof.
  intros Hr Ha Hid. destruct (sy_expired _ _ (reachable_inv _ Hr)) as [Hrow _ _]. simpl in Hrow.
  unfold owing, ids in Hid. rewrite elem_of_list_to_set in Hid.
  apply list_elem_of_fmap in Hid as (b & -> & Hb). destruct (Hrow b Hb) as [Hb' _]. simplify_eq.
  apply list_elem_of_fmap in Hb as ([c x] & -> & Hb). by exists x.
Qed.

(** They were expired by the reaper. *)
Lemma listed_expired w fl a x :
  reachable (w, fl) → (a, x) ∈ fl →
  attempts (db w) !! TaskAttempt.ID a = Some a ∧ TaskAttempt.Status a = AttemptExpired ∧
  TaskAttempt.ID a ∈ owing fl.
Proof.
  intros Hr Ha. destruct (sy_expired _ _ (reachable_inv _ Hr)) as [Hrow _ _]. simpl in Hrow.
  apply (list_elem_of_fmap_2 fst) in Ha. simpl in Ha. destruct (Hrow a Ha) as [Hrow' Hst].
  split_and!; [done..|]. unfold owing, ids. rewrite elem_of_list_to_set. by apply list_elem_of_fmap_2.
Qed.
End system.
End System.
