(* ===== verification/Liveness.v ===== *)
(** Unfinished runs always have work in flight.

    [handleAttemptOutcome], [HandleFiredTimer], [ApplySignal], [CreateRun] and
    [Reconcile] all end with a reconcile of the run they touched.  Here it is shown
    that this is enough: between any two critical sections, every unfinished run
    without [signal_wait] steps has a step that is QUEUED, RUNNING or in
    RETRY_BACKOFF. *)

From stdpp Require Import gmap strings list relations.
From S2P Require Import Prelude GoLib Json Types MemStore Dsl Engine Lifecycle.
From S2P Require Import LifecycleInv Worlds Contract Reconcile EngineSpec EngineOps RunCreate.
From S2P Require Import System.
Open Scope Z_scope.

Module Liveness.
Import Lifecycle LifecycleInv Worlds Contract Reconcile EngineSpec EngineOps RunCreate System.

(** The steps of a run whose status satisfies [P]. *)
Definition some_step (d : Tables) (rid : uuid) (P : Step.t → Prop) : Prop :=
  ∃ id s, steps d !! id = Some s ∧ Step.WorkflowRunID s = rid ∧ P s.

Definition every_step (d : Tables) (rid : uuid) (P : Step.t → Prop) : Prop :=
  ∀ id s, steps d !! id = Some s → Step.WorkflowRunID s = rid → P s.

(** Run [rid], if it is unfinished and waits for no signal, has work in flight. *)
Definition lively_run (d : Tables) (rid : uuid) : Prop := ∀ run,
  runs d !! rid = Some run → RunTerminal (WorkflowRun.Status run) = false →
  every_step d rid (λ s, Step.TaskType s ≠ "signal_wait") →
  some_step d rid (λ s, in_flight (Step.Status s) = true).

Definition lively (d : Tables) : Prop := ∀ rid, lively_run d rid.

Section liveness.
Context {E : Env} {St : Store} {L : StoreLaws St}.

(** A run is finished exactly when its steps are. *)
Lemma view_terminal c0 o rid d0 st rs rs' w :
  RunTerminal st = false → reconciled rs rs' → view c0 o rid None d0 (next_status st rs') rs' w →
  ∃ run, runs (db w) !! rid = Some run ∧
    RunTerminal (WorkflowRun.Status run) = Engine.allTerminal rs'.
Proof.
  intros Hst _ Hv. destruct (run_exists rid _ _ (v_run _ _ _ _ _ _ _ _ Hv)) as (run & Hrun & Est).
  exists run. split; [done|]. rewrite Est. unfold next_status, verdict.
  destruct (Engine.allTerminal rs'); [by repeat case_match|by destruct (_ && _)].
Qed.

Lemma view_lively c0 o rid d0 st rs rs' w :
  RunTerminal st = false → reconciled rs rs' → view c0 o rid None d0 (next_status st rs') rs' w →
  lively_run (db w) rid.
Proof.
  intros Hst Hrec Hv run Hrun Hnt Hnosig.
  pose proof (v_agree _ _ _ _ _ _ _ _ Hv) as Ha'.
  pose proof (inv_steps _ (g_inv _ _ _ _ (v_good _ _ _ _ _ _ _ _ Hv))) as Hinv. simpl in Hinv.
  destruct (view_terminal _ _ _ _ _ _ _ _ Hst Hrec Hv) as (run' & Hrun' & Eterm).
  simplify_eq. rewrite Hnt in Eterm. symmetry in Eterm.
  pose proof (any_in_flight_spec rs') as Hfl. destruct (any_in_flight rs').
  - destruct Hfl as (n & s & Hs & Hif).
    destruct (agree_local_status rid rs' _ n s Ha' Hs) as (i & row & Hrow & Hrr & Ers).
    exists i, row. by rewrite Ers.
  - destruct (EngineSpec.reconciled_progress rs rs' rid _ Hinv Ha' Hrec Hfl)
      as [?|(n & s & Hs & _ & dep & _ & d & d' & _ & _ & Hdt & Hsame & Hd & _)]; [congruence|].
    exfalso. destruct (ar_row _ _ _ Ha' dep d' Hd) as (Hdr & _ & row & Hrow & Hagd).
    apply (Hnosig _ row Hrow); [by rewrite (st_run _ _ (ag_same _ _ Hagd))|].
    by rewrite (st_type _ _ (ag_same _ _ Hagd)), (st_type _ _ Hsame).
Qed.

Lemma reconcile_lively c0 o rid st w w' :
  run_status (db w) rid = Some st → reconcile_post c0 o rid st w w' → lively_run (db w') rid.
Proof.
  intros Hst Hrec. unfold reconcile_post in Hrec. destruct (RunTerminal st) eqn:Et.
  - intros run Hrun Hnt. pose proof (qt_run _ _ _ _ _ _ Hrec) as Hq.
    unfold run_status in *. rewrite Hrun, Hst in Hq. simpl in Hq. simplify_eq. congruence.
  - destruct Hrec as (rs & rs' & _ & Hr & Hv). by eapply view_lively.
Qed.

Lemma lively_local rid d d' : local_to rid d d' → lively d → lively_run d' rid → lively d'.
Proof.
  intros [Hs Hr _ _] Hd Hrid rid'. destruct (decide (rid' = rid)) as [->|Hne]; [done|].
  intros run. rewrite Hr by done. intros Hrun Hnt Hall.
  destruct (Hd rid' run Hrun Hnt) as (i & s & Hi & <- & Hif).
  - intros i s Hi <-. apply (Hall i s); [by apply Hs|done].
  - exists i, s. split_and!; [by apply Hs|done..].
Qed.

Lemma lively_same d d' : runs d' = runs d → steps d' = steps d → lively d → lively d'.
Proof.
  intros Hr Hs Hd rid run. unfold every_step, some_step. rewrite Hr, Hs. apply Hd.
Qed.

Lemma lively_reconcile c0 o rid st w w' :
  run_status (db w) rid = Some st → reconcile_post c0 o rid st w w' → lively (db w) → lively (db w').
Proof.
  intros Hst Hrec Hd. eapply lively_local; [by eapply reconcile_post_local|done|].
  by eapply reconcile_lively.
Qed.

Lemma lively_after c0 o rid st w w1 w' :
  run_status (db w1) rid = Some st → local_to rid (db w) (db w1) →
  reconcile_post c0 o rid st w1 w' → lively (db w) → lively (db w').
Proof.
  intros Hst Hl Hrec Hd. eapply lively_local; [|done|by eapply reconcile_lively].
  etransitivity; [exact Hl|by eapply reconcile_post_local].
Qed.

Lemma lively_outcome c0 o a w w' : outcome_post c0 o a w w' → lively (db w) → lively (db w').
Proof.
  intros (s & st & w1 & _ & Hst & (s' & _ & _ & Hsd) & Hrec) Hd.
  eapply lively_after; [|apply (sd_local _ _ _ _ _ _ _ _ Hsd)|exact Hrec|done].
  by rewrite (sd_run _ _ _ _ _ _ _ _ Hsd).
Qed.

Lemma lively_cancelled rid d d' : cancelled_post rid d d' → lively d → lively d'.
Proof.
  intros (Hst & Hl & _) Hd. eapply lively_local; [done..|]. intros run Hrun Hnt.
  unfold run_status in Hst. rewrite Hrun in Hst. simpl in Hst. injection Hst as Hst. by rewrite Hst in Hnt.
Qed.

Lemma lively_fired c0 o tid w w' : fired_post c0 o tid w w' → lively (db w) → lively (db w').
Proof.
  unfold fired_post. destruct (timers (db w) !! tid) as [t|]; [|by intros ->].
  case_bool_decide; [|by intros ->]. intros (w1 & [n Hdb] & Hcase & _) Hd. unfold handled_post in Hcase.
  assert (lively (db w1)) as Hd1 by (eapply lively_same; [| |exact Hd]; by rewrite Hdb).
  destruct (Timer.Kind t), (Timer.StepID t) as [sid|]; try (destruct Hcase as (st & Hst & Hrec);
    by eapply lively_reconcile).
  - destruct Hcase as [(s & r & w2 & _ & _ & Hr & Hsd & Hrec)|[-> _]]; [|done].
    eapply lively_after; [|apply (sd_local _ _ _ _ _ _ _ _ Hsd)|exact Hrec|done].
    rewrite (sd_run _ _ _ _ _ _ _ _ Hsd). unfold run_status. by rewrite Hr.
  - by rewrite Hcase.
Qed.

Lemma lively_mark sid s s' d d' :
  steps d !! sid = Some s → same_step s' s → in_flight (Step.Status s') = true →
  runs d' = runs d → steps d' = <[sid := s']> (steps d) → lively d → lively d'.
Proof.
  intros Es Hsame Hf Hr Hs Hd rid run. unfold every_step, some_step. rewrite Hr, Hs. intros Hrun Hnt Hall.
  destruct (Hd rid run Hrun Hnt) as (i & t & Hi & Hir & Hif).
  - intros i t Hi Hir. destruct (decide (i = sid)) as [->|].
    + simplify_eq. rewrite <-(st_type _ _ Hsame). apply (Hall sid s'); [by rewrite lookup_insert_eq|].
      apply (st_run _ _ Hsame).
    + apply (Hall i t); [by rewrite lookup_insert_ne|done].
  - destruct (decide (i = sid)) as [->|].
    + simplify_eq. exists sid, s'. rewrite lookup_insert_eq, (st_run _ _ Hsame). done.
    + exists i, t. by rewrite lookup_insert_ne.
Qed.

Lemma lively_rolled w w' : rolled w w' → lively (db w) → lively (db w').
Proof. intros (n & _ & _ & ->). by apply lively_same. Qed.

(** A transaction keeps runs lively if its successes and its own errors do. *)
Lemma lively_tx {A} (P : A → World → Prop) Qe w r w' :
  tx_post P Qe w r w' → (∀ a, P a w' → lively (db w')) → (∀ e, Qe e w' → lively (db w')) →
  lively (db w) → lively (db w').
Proof.
  intros Hp HP HQ Hd. destruct r as [a|e]; simpl in Hp; [by eapply HP|].
  destruct Hp as [[_ [[a Ha]|Hr]]|Hq]; [by eapply HP|by eapply lively_rolled|by eapply HQ].
Qed.

Hypothesis Hu : uuid_unique.

Lemma cancel_lively c0 o rid w :
  good c0 o None w → lively (db w) → wp (Engine.CancelRun rid) (λ _ w', lively (db w')) w.
Proof.
  intros Hg Hd. wp_use wp_CancelRun; [done..|]. intros r w' Hp. eapply lively_tx; [exact Hp|..|done].
  - intros _ [_ (st & _ & Hc)]. destruct (RunTerminal st); [by rewrite Hc|by eapply lively_cancelled].
  - by intros e (_ & _ & -> & _).
Qed.

Lemma signal_lively c0 o rid name payload w :
  good c0 o None w → lively (db w) →
  wp (Engine.ApplySignal rid name payload) (λ _ w', lively (db w')) w.
Proof.
  intros Hg Hd. destruct (decide (name = "__cancel__")) as [->|Hne]; [by eapply cancel_lively|].
  wp_use wp_ApplySignal; [done..|]. intros r w' Hp. eapply lively_tx; [exact Hp|..|done].
  - intros _ [_ (st & w1 & Hst & Hq & Hrec)].
    eapply lively_after; [by rewrite (qt_run _ _ _ _ _ _ Hq)|apply Hq|exact Hrec|done].
  - intros e (_ & _ & _ & Hr & Hs). by eapply lively_same.
Qed.

Lemma exec_lively c0 o q w : valid q → good c0 o None w → lively (db w) → lively (db (exec q w).2).
Proof.
  intros Hv Hg Hd. change (wp (exec q) (λ _ w', lively (db w')) w).
  destruct q as [d|name version input|a key worker lease|s|a worker lease|a worker success out err|t
                |r|r name payload|r|k|n]; simpl.
  - eapply wp_drop; [by apply (wp_RegisterDefinition c0 o)|]. intros [def|e] w'; simpl.
    + intros (_ & _ & _ & _ & _ & _ & ->). by eapply lively_same.
    + by intros (_ & -> & _).
  - eapply wp_drop; [by apply (wp_CreateRun Hu c0 o)|]. intros r w' Hp.
    eapply lively_tx; [exact Hp|..|done].
    + intros run (_ & def & p & _ & _ & _ & _ & _ & l & w1 & rs' & _ & _ & _ & _ & _ & Hl & Hrec & Hview).
      eapply lively_local; [|done|exact (view_lively _ _ _ _ RunPending _ _ _ eq_refl Hrec Hview)].
      etransitivity; [exact Hl|apply Hview].
    + by intros e (-> & _).
  - eapply wp_drop; [by apply (wp_ClaimTaskAttempt c0 o)|]. intros [res|e] w'; simpl; [|by intros (_ & -> & _)].
    intros [_ Hc]. unfold claimed_post in Hc. destruct (attempts (db w) !! a); [|by destruct Hc as [_ ->]].
    destruct (_ && _); [|by destruct Hc as [_ ->]]. destruct Hc as (a' & _ & _ & _ & ->). by eapply lively_same.
  - eapply wp_drop; [by apply (wp_MarkRunning c0 o)|].
    intros [[]|e] w'; simpl; [|by intros (_ & _ & ->)|by intros (_ & -> & _)].
    intros (_ & Hr & s0 & s' & Hs & _ & Hsame & Est & Hss). eapply lively_mark; [done|done| |done..]. by rewrite Est.
  - eapply wp_drop; [by apply (wp_HeartbeatTaskAttempt c0 o)|]. intros [res|e] w'; simpl; [|by intros (_ & -> & _)].
    intros (_ & Hr & Hs & _). by eapply lively_same.
  - eapply wp_drop; [by apply (wp_HandleTaskResult Hu c0 o)|]. intros r w' Hp.
    eapply lively_tx; [exact Hp|..|done]; [|done]. intros [] [_ H]; [|by destruct H as [_ ->]].
    destruct H as (_ & a0 & a' & w1 & _ & _ & _ & Hdb & _ & _ & _ & Hout).
    eapply lively_outcome; [exact Hout|]. eapply lively_same; [| |exact Hd]; by rewrite Hdb.
  - wp_use wp_HandleFiredTimer; [done..|]. intros r w' Hp. eapply lively_tx; [exact Hp|..|done]; [|done].
    intros _ [_ Hf]. by eapply lively_fired.
  - by eapply cancel_lively.
  - by eapply signal_lively.
  - wp_use wp_Reconcile; [done..|]. intros res w' Hp. eapply lively_tx; [exact Hp|..|done].
    + intros _ (st & Hst & Hrec). by eapply lively_reconcile.
    + by intros e (_ & _ & -> & _).
  - wp_use wp_MarkOutboxPublished; [done..|]. intros [[]|e] w'; simpl; [|by intros (_ & -> & _)].
    intros (_ & Hr & Hs & _). by eapply lively_same.
  - done.
Qed.

Lemma expire_lively c0 a x w fl1 fl2 :
  sys_inv c0 (w, fl1 ++ (a, x) :: fl2) → lively (db w) → wp (expire a) (λ _ w', lively (db w')) w.
Proof.
  intros Hsys Hd. apply sys_inv_one in Hsys as [Hg He].
  destruct (ex_row _ _ _ He a) as [Ha Est]; [by constructor|].
  eapply wp_mono; [apply (wp_tx _ (λ _, outcome_post c0 (ids (a :: (fl1 ++ fl2).*1) ∪ ∅) a w)); [steady|]|].
  - apply wp_handleAttemptOutcome; [done|done| |done|by rewrite Est].
    unfold ids. simpl. set_solver.
  - intros r w' Hp. eapply lively_tx; [exact Hp|..|done]; [|done]. intros ? Hout. eapply lively_outcome; [exact Hout|done].
Qed.

Lemma sys_step_lively c0 s s' :
  sys_step s s' → sys_inv c0 s → lively (db s.1) → lively (db s'.1).
Proof.
  intros Hstep Hsys Hd.
  destruct Hstep as [q w fl Hv|limit w fl out w' Hrun|limit w fl e w' Hrun|a fl1 fl2 w w' Hrun
                    |a fl1 fl2 w e w' Hrun Hr|a fl1 fl2 w e w' Hrun Hr|a fl1 fl2 w]; simpl in *;
    try exact (wp_run _ _ _ _ _ (expire_lively _ _ _ _ _ _ Hsys Hd) Hrun).
  - eapply exec_lively; [done|apply Hsys|done].
  - pose proof (wp_run _ _ _ _ _ (wp_ReapExpiredAttempts Hu c0 _ limit w (sy_good _ _ Hsys)) Hrun)
      as (_ & _ & Hs & Hr). by eapply lively_same.
  - pose proof (wp_run _ _ _ _ _ (wp_ReapExpiredAttempts Hu c0 _ limit w (sy_good _ _ Hsys)) Hrun)
      as (_ & -> & _). done.
  - done.
Qed.

Lemma steps_lively c0 s s' :
  rtc sys_step s s' → sys_inv c0 s → lively (db s.1) → lively (db s'.1).
Proof. induction 1; eauto using sys_step_lively, sys_step_inv. Qed.

Lemma reachable_lively s : reachable s → lively (db s.1).
Proof.
  intros Hr. eapply steps_lively; [exact Hr|apply sys_inv_init|].
  intros rid run Hrun. simpl in Hrun. by rewrite lookup_empty in Hrun.
Qed.
End liveness.
End Liveness.
