(* ===== verification/MemSpec.v ===== *)
(** What the operations of the in-memory store do, as equations on worlds, and that the
    store obeys the laws the engine relies on. *)

From stdpp Require Import gmap strings list relations sorting.
From S2P Require Import Prelude GoLib Json Types MemStore Dsl Engine Lifecycle LifecycleInv.
From S2P Require Import Worlds Contract RunCreate.
Open Scope Z_scope.

Module MemSpec.
Import Lifecycle LifecycleInv Worlds Contract.

Lemma statusIn_true s l : Memory.statusIn s l = true ↔ s ∈ l.
Proof.
  induction l as [|x l IH]; simpl; [by split; [|inversion 1]|].
  case_decide as E; [subst; split; [constructor|done]|].
  rewrite IH. split; [by constructor|]. inversion 1; by subst.
Qed.

Lemma stepStatusIn_true s l : Memory.stepStatusIn s l = true ↔ s ∈ l.
Proof.
  induction l as [|x l IH]; simpl; [by split; [|inversion 1]|].
  case_decide as E; [subst; split; [constructor|done]|].
  rewrite IH. split; [by constructor|]. inversion 1; by subst.
Qed.

Section ops.
Context `{Env}.

Lemma AppendHistory_run rid ev p w r :
  runs (db w) !! rid = Some r →
  ∃ h, HistoryEvent.Seq h = WorkflowRun.HistorySeq r + 1 ∧
    Memory.AppendHistory rid ev p w =
      (Ok h, later w (λ d, set_history (λ m, <[rid := default [] (m !! rid) ++ [h]]> m)
                       (set_runs (insert rid (Memory.run_bump_seq r)) d))).
Proof.
  intros Hr. eexists. split; [|unfold Memory.AppendHistory, mbind, GoM_bind, gets; rewrite Hr; reflexivity].
  done.
Qed.

Lemma GetWorkflowRun_run rid w :
  Memory.GetWorkflowRun rid w =
    (match runs (db w) !! rid with Some r => Ok r | None => Err ErrNotFound end, w).
Proof.
  unfold Memory.GetWorkflowRun, mbind, GoM_bind, gets. by destruct (runs (db w) !! rid).
Qed.

Lemma GetStep_run sid w :
  Memory.GetStep sid w =
    (match steps (db w) !! sid with Some s => Ok s | None => Err ErrNotFound end, w).
Proof. unfold Memory.GetStep, mbind, GoM_bind, gets. by destruct (steps (db w) !! sid). Qed.

(** The compare-and-swap on a step row. *)
Lemma UpdateStepStatus_ok id expected next out err b w s :
  steps (db w) !! id = Some s → Step.Status s ∈ expected →
  Memory.UpdateStepStatus id expected next out err b w =
    (Ok true, later w (set_steps (insert id
                (Memory.step_updated s next out err b (time_Now (tick w)))))).
Proof.
  intros Hs Hin. unfold Memory.UpdateStepStatus, mbind, GoM_bind, gets.
  rewrite Hs, (proj2 (stepStatusIn_true _ _) Hin). done.
Qed.

Lemma UpdateStepStatus_no id expected next out err b w :
  (∀ s, steps (db w) !! id = Some s → Step.Status s ∉ expected) →
  Memory.UpdateStepStatus id expected next out err b w = (Ok false, w).
Proof.
  intros Hno. unfold Memory.UpdateStepStatus, mbind, GoM_bind, gets.
  destruct (steps (db w) !! id) as [s|]; [|done].
  destruct (Memory.stepStatusIn (Step.Status s) expected) eqn:E; [|done].
  apply stepStatusIn_true in E. naive_solver.
Qed.

Lemma UpdateWorkflowRunStatus_ok id expected next out err w r :
  runs (db w) !! id = Some r → WorkflowRun.Status r ∈ expected →
  Memory.UpdateWorkflowRunStatus id expected next out err w =
    (Ok true, later w (set_runs (insert id
                (Memory.run_updated r next out err (time_Now (tick w)))))).
Proof.
  intros Hs Hin. unfold Memory.UpdateWorkflowRunStatus, mbind, GoM_bind, gets.
  rewrite Hs, (proj2 (statusIn_true _ _) Hin). done.
Qed.

Lemma UpdateWorkflowRunStatus_no id expected next out err w :
  (∀ r, runs (db w) !! id = Some r → WorkflowRun.Status r ∉ expected) →
  Memory.UpdateWorkflowRunStatus id expected next out err w = (Ok false, w).
Proof.
  intros Hno. unfold Memory.UpdateWorkflowRunStatus, mbind, GoM_bind, gets.
  destruct (runs (db w) !! id) as [s|]; [|done].
  destruct (Memory.statusIn (WorkflowRun.Status s) expected) eqn:E; [|done].
  apply statusIn_true in E. naive_solver.
Qed.

(** [GetSteps] returns the rows of the run, in some order. *)
Lemma GetSteps_run rid w :
  ∃ l, Memory.GetSteps rid w = (Ok l, later w id) ∧
    ∀ s, s ∈ l ↔ (∃ id, steps (db w) !! id = Some s) ∧ Step.WorkflowRunID s = rid.
Proof.
  eexists. split; [reflexivity|]. intros s.
  rewrite (merge_sort_Permutation (Memory.by_time Step.CreatedAt)), filter_elem, values_elem.
  by rewrite N.eqb_eq.
Qed.

(** The row [InsertTimer] writes. *)
Definition new_timer (nt : NewTimer.t) (w : World) : Timer.t :=
  Timer.mk (uuid_New (tick w)) (NewTimer.WorkflowRunID nt) (NewTimer.StepID nt)
    (NewTimer.ShardID nt) (NewTimer.Kind nt) TimerPending
    (Memory.copy_bytes (match NewTimer.Payload nt with None => empty_object | p => p end))
    (NewTimer.FireAt nt) (time_Now (S (tick w))) None.

Lemma InsertTimer_run nt w :
  Memory.InsertTimer nt w =
    (Ok (new_timer nt w),
     mkWorld (set_timers (insert (uuid_New (tick w)) (new_timer nt w)) (db w)) (2 + tick w)).
Proof. reflexivity. Qed.

Lemma ListUnprocessedSignals_run rid w :
  ∃ l, Memory.ListUnprocessedSignals rid w = (Ok l, later w id).
Proof. by eexists. Qed.

(** Ending an attempt and firing a timer. *)
Lemma CompleteTaskAttempt_run id worker success res err w :
  Memory.CompleteTaskAttempt id worker success res err w =
  match attempts (db w) !! id with
  | None => (Ok (None, false), w)
  | Some a =>
      if Memory.leased_by a worker then
        let a' := Memory.attempt_completed a (if success then AttemptSucceeded else AttemptFailed)
                    res err (time_Now (tick w)) in
        (Ok (Some a', true), later w (set_attempts (insert id a')))
      else (Ok (Some a, false), w)
  end.
Proof.
  unfold Memory.CompleteTaskAttempt, mbind, GoM_bind, gets.
  destruct (attempts (db w) !! id) as [a|]; [|done]. by destruct (Memory.leased_by a worker).
Qed.

Lemma FireTimerCAS_run tid w :
  Memory.FireTimerCAS tid w =
  match timers (db w) !! tid with
  | Some t =>
      if bool_decide (Timer.Status t = TimerPending) then
        let t' := Memory.timer_with t TimerFired (Some (time_Now (tick w))) in
        (Ok (Some t', true), later w (set_timers (insert tid t')))
      else (Ok (None, false), w)
  | None => (Ok (None, false), w)
  end.
Proof.
  unfold Memory.FireTimerCAS, mbind, GoM_bind, gets.
  destruct (timers (db w) !! tid) as [t|]; [|done]. by case_bool_decide.
Qed.

Lemma lease_expired_status a n :
  Memory.lease_expired a n = true → TaskAttempt.Status a = AttemptLeased.
Proof. unfold Memory.lease_expired. by intros [?%bool_decide_eq_true _]%andb_true_iff. Qed.

Lemma leased_by_leased a worker e n : Memory.leased_by (Memory.attempt_leased a worker e n) worker = true.
Proof. unfold Memory.leased_by. simpl. by rewrite bool_decide_eq_true_2. Qed.

(** The reaper's loop over the rows. *)
Lemma reap_loop_spec limit n l : ∀ m out,
  NoDup (TaskAttempt.ID <$> out) → NoDup l.*1 →
  (∀ id a, (id, a) ∈ l → m !! id = Some a ∧ TaskAttempt.ID a = id) →
  (∀ id a, (id, a) ∈ l → id ∉ TaskAttempt.ID <$> out) →
  ∃ more, Memory.reap_loop limit n l m out = (insert_attempts more m, out ++ more) ∧
    NoDup (TaskAttempt.ID <$> (out ++ more)) ∧
    ∀ a', a' ∈ more → TaskAttempt.Status a' = AttemptExpired ∧
      ∃ a, m !! TaskAttempt.ID a' = Some a ∧ same_attempt a' a ∧ TaskAttempt.Status a = AttemptLeased.
Proof.
  induction l as [|[id a] l IH]; intros m out Hnd Hl Hm Hout; simpl.
  { exists []. rewrite app_nil_r. split_and!; [done..|by intros ? ?%elem_of_nil]. }
  destruct (limit <=? Z.of_nat (length out)).
  { exists []. rewrite app_nil_r. split_and!; [done..|by intros ? ?%elem_of_nil]. }
  apply NoDup_cons in Hl as [Hid Hl]. destruct (Hm id a) as [Ha Eid]; [constructor|].
  assert (∀ i b, (i, b) ∈ l → i ≠ id) as Hne.
  { intros i b Hb ->. apply Hid, list_elem_of_fmap. exists (id, b). by split. }
  destruct (Memory.lease_expired a n) eqn:Ee; cycle 1.
  { apply IH; [done..| |]; intros i b Hb; [apply Hm|apply (Hout i b)]; by constructor. }
  set (a' := Memory.attempt_completed a _ _ _ _).
  assert (TaskAttempt.ID a' = id) as Eid' by done.
  destruct (IH (<[id := a']> m) (out ++ [a'])) as (more & Hrun & Hnd' & Hall).
  - rewrite fmap_app. apply NoDup_app. split_and!; [done| |apply NoDup_singleton].
    intros i Hi ->%list_elem_of_singleton. rewrite Eid' in Hi. by apply (Hout id a); [constructor|].
  - done.
  - intros i b Hb. rewrite lookup_insert_ne by (intros <-; by eapply Hne). apply Hm. by constructor.
  - intros i b Hb. rewrite fmap_app. intros [Hi|Hi%list_elem_of_singleton]%elem_of_app.
    + apply (Hout i b); [by constructor|done].
    + rewrite Eid' in Hi. by eapply Hne.
  - exists (a' :: more). rewrite <-(assoc_L (++)) in Hrun, Hnd'. split_and!; [|done|].
    + rewrite Hrun. unfold insert_attempts. cbn [foldl]. by rewrite Eid'.
    + intros b [->|Hb]%elem_of_cons.
      * split; [done|]. exists a. rewrite Eid'. split_and!; [done|by split|by eapply lease_expired_status].
      * destruct (Hall b Hb) as (Est & a0 & Hb0 & Hs & Hst). split; [done|]. exists a0.
        rewrite lookup_insert_ne in Hb0; [done|]. intros E1. rewrite E1 in Hb0.
        rewrite lookup_insert_eq in Hb0. injection Hb0 as <-. done.
Qed.

(** Definitions: registered ones, and the greatest version. *)
Lemma existsb_registered d n name version :
  existsb (λ d, bool_decide (WorkflowDefinition.Name d = name) &&
                (WorkflowDefinition.Version d =? version))
    (range_order n (map_to_list (definitions d)).*2) = true ↔ registered d name version.
Proof.
  rewrite existsb_exists. unfold registered. split.
  - intros (def & Hd%list_elem_of_In & [Hn%bool_decide_eq_true Hv%Z.eqb_eq]%andb_true_iff).
    apply values_elem in Hd as [id Hd]. eauto.
  - intros (id & def & Hd & Hn & Hv). exists def. rewrite <-list_elem_of_In, values_elem.
    split; [eauto|]. apply andb_true_iff. by rewrite bool_decide_eq_true, Z.eqb_eq.
Qed.

Definition latest_ok (name : string) (seen : list WorkflowDefinition.t)
    (best : option WorkflowDefinition.t) : Prop :=
  match best with
  | None => ∀ d, d ∈ seen → WorkflowDefinition.Name d ≠ name
  | Some b => b ∈ seen ∧ WorkflowDefinition.Name b = name ∧
      ∀ d, d ∈ seen → WorkflowDefinition.Name d = name →
        WorkflowDefinition.Version d ≤ WorkflowDefinition.Version b
  end.

Lemma latest_step name seen best d :
  latest_ok name seen best → latest_ok name (seen ++ [d]) (Memory.latest name best d).
Proof.
  intros Hok. unfold Memory.latest. case_bool_decide as En; simpl.
  - destruct best as [b|]; simpl in *.
    + destruct Hok as (Hb & Hn & Hmax).
      destruct (Z.ltb_spec (WorkflowDefinition.Version b) (WorkflowDefinition.Version d)); simpl;
        (split_and!; [set_solver|done|]); intros d' [Hd| ->%list_elem_of_singleton]%elem_of_app Hd';
        try (specialize (Hmax d' Hd Hd')); lia.
    + split_and!; [set_solver|done|].
      intros d' [Hd| ->%list_elem_of_singleton]%elem_of_app Hd'; [by destruct (Hok d')|lia].
  - destruct best as [b|]; simpl in *.
    + destruct Hok as (Hb & Hn & Hmax). split_and!; [set_solver|done|].
      intros d' [Hd| ->%list_elem_of_singleton]%elem_of_app Hd'; [auto|done].
    + intros d' [Hd| ->%list_elem_of_singleton]%elem_of_app; auto.
Qed.

Lemma latest_foldl name l : latest_ok name l (foldl (Memory.latest name) None l).
Proof.
  induction l as [|d l IH] using rev_ind; [by intros d ?%elem_of_nil|].
  rewrite foldl_snoc. by apply latest_step.
Qed.


(** The rows [CreateSteps] writes. *)
Definition new_row (rid : uuid) (ns : NewStep.t) (k : nat) : Step.t :=
  Step.mk (uuid_New k) rid (NewStep.StepName ns) (NewStep.TaskType ns) (NewStep.DependsOn ns)
    StepPending 0 (NewStep.MaxAttempts ns)
    (Memory.copy_bytes (match NewStep.Input ns with None => empty_object | i => i end))
    None None (NewStep.InitialBackoffMS ns) (NewStep.BackoffMultiplier ns)
    (NewStep.MaxBackoffMS ns) (NewStep.TimeoutSeconds ns) (time_Now (S k)) None None.

Fixpoint new_rows (rid : uuid) (nss : list NewStep.t) (k : nat) : list Step.t :=
  match nss with
  | [] => []
  | ns :: nss' => new_row rid ns k :: new_rows rid nss' (2 + k)
  end.

Lemma set_steps_id d : set_steps id d = d.
Proof. by destruct d. Qed.

Lemma CreateSteps_run rid nss : ∀ out w,
  foldM (Memory.CreateStep rid) out nss w =
    (Ok (out ++ new_rows rid nss (tick w)),
     mkWorld (set_steps (insert_rows (new_rows rid nss (tick w))) (db w))
       (2 * length nss + tick w)).
Proof.
  induction nss as [|ns nss IH]; intros out w; simpl.
  - rewrite app_nil_r. destruct w as [d n]. simpl. change (insert_rows []) with (@id steps_map).
    by rewrite set_steps_id.
  - unfold mbind, GoM_bind at 1. simpl. unfold Memory.CreateStep, mbind, GoM_bind; simpl.
    rewrite IH. simpl. rewrite <-(assoc_L (++)). do 2 f_equal. lia.
Qed.

Definition kept (b b' : RawMessage) : Prop := b' = Memory.copy_bytes b.

Lemma new_rows_for rid nss : ∀ k, Forall2 (row_for kept rid) nss (new_rows rid nss k).
Proof. induction nss as [|ns nss IH]; intros k; simpl; constructor; [by split|apply IH]. Qed.

Lemma new_rows_ids rid nss : ∀ k, ∃ ks,
  Step.ID <$> new_rows rid nss k = uuid_New <$> ks ∧ NoDup ks ∧
  Forall (λ i, k ≤ i < 2 * length nss + k)%nat ks.
Proof.
  induction nss as [|ns nss IH]; intros k; simpl.
  { exists []. split_and!; [done|constructor|constructor]. }
  destruct (IH (2 + k)%nat) as (ks & Hks & Hnd & Hr). exists (k :: ks).
  split_and!; [f_equal/=; exact Hks| |].
  - constructor; [|done]. intros Hk. rewrite Forall_forall in Hr. apply Hr in Hk. lia.
  - constructor; [lia|]. eapply Forall_impl; [exact Hr|]. simpl. lia.
Qed.
End ops.

(** * The memory store obeys the laws *)

Section laws.
Context `{Env}.
#[local] Existing Instance Memory.memory_store.

Lemma reap_run limit w : rows_keyed (db w) →
  ∃ l, Memory.ReapExpiredAttempts limit w =
      (Ok l, mkWorld (set_attempts (insert_attempts l) (db w)) (2 + tick w)) ∧
    NoDup (TaskAttempt.ID <$> l) ∧
    ∀ a', a' ∈ l → TaskAttempt.Status a' = AttemptExpired ∧
      ∃ a, attempts (db w) !! TaskAttempt.ID a' = Some a ∧ same_attempt a' a ∧
           TaskAttempt.Status a = AttemptLeased.
Proof.
  intros Hk. set (l := range_order (S (tick w)) (map_to_list (attempts (db w)))).
  assert (l ≡ₚ map_to_list (attempts (db w))) as Hperm by apply range_order_perm.
  destruct (reap_loop_spec limit (time_Now (tick w)) l (attempts (db w)) []) as (more & Hrun & Hnd & Hall).
  - constructor.
  - rewrite Hperm. apply NoDup_fst_map_to_list.
  - intros id a. rewrite Hperm, elem_of_map_to_list. intros Ha. split; [done|by eapply rk_attempts].
  - intros id a _ ?%elem_of_nil. done.
  - exists more. split_and!; [|done|done]. unfold Memory.ReapExpiredAttempts, mbind, GoM_bind; simpl.
    fold l. by rewrite Hrun.
Qed.

Lemma memory_read {A} (m : GoM World A) w : is_read m → db (m w).2 = db w.
Proof.
  destruct 1; try reflexivity; simpl; unfold Memory.ListWorkflowRuns, Memory.GetWorkflowRun,
    Memory.GetStep, Memory.GetTaskAttempt, mbind, GoM_bind, gets; simpl; by repeat case_match.
Qed.

Lemma memory_steady {A} (m : GoM World A) : is_query m → steady m.
Proof.
  destruct 1 as [| | | | | | | | | | | | | | | | | | | | |A m []]; simpl; unfold Memory.CreateWorkflowDefinition, Memory.GetWorkflowDefinition,
    Memory.GetLatestWorkflowDefinition, Memory.ListWorkflowDefinitions, Memory.ListWorkflowRuns,
    Memory.GetTaskAttempt, Memory.ListTaskAttemptsForStep, Memory.FetchAndLockPendingOutbox,
    Memory.ListDueTimers, Memory.ListHistory, Memory.CreateWorkflowRun, Memory.GetWorkflowRun,
    Memory.ListRunningRunsForShards, Memory.UpdateWorkflowRunStatus, Memory.CreateSteps,
    Memory.CreateStep, Memory.GetSteps, Memory.GetStep, Memory.UpdateStepStatus,
    Memory.CreateTaskAttempt, Memory.ClaimTaskAttempt, Memory.HeartbeatTaskAttempt,
    Memory.CompleteTaskAttempt, Memory.ReapExpiredAttempts, Memory.MarkOutboxPublished,
    Memory.InsertOutboxMessage, Memory.InsertTimer, Memory.FireTimerCAS, Memory.CancelTimersForRun,
    Memory.InsertSignal, Memory.ListUnprocessedSignals, Memory.MarkSignalProcessed,
    Memory.AppendHistory, Memory.range_values; try solve [steady].
  intros w. simpl. lia.
Qed.

Lemma memory_GetDefinition name version w : 0 < version →
  wp (GetWorkflowDefinition name version)
    (post (λ def w', db w' = db w ∧ denotes (db w) name version def)
          (λ e w', db w' = db w ∧ (False ∨ e = ErrNotFound ∧ ¬ ∃ def, denotes (db w) name version def))) w.
Proof.
  intros Hv. apply Z.ltb_lt in Hv. unfold wp, denotes. simpl. rewrite Hv.
  unfold Memory.GetWorkflowDefinition, Memory.range_values, mbind, GoM_bind. simpl.
  destruct (find _ _) as [def|] eqn:Ef; simpl; (split; [done|]).
  - apply find_some in Ef as [[id Hin]%list_elem_of_In%values_elem Hm].
    apply andb_true_iff in Hm as [Hn%bool_decide_eq_true Hvv%Z.eqb_eq]. split_and!; [by exists id|done..].
  - right. split; [done|]. intros (def & [id Hid] & Hn & Hvv).
    assert (In def (range_order (tick w) (map_to_list (definitions (db w))).*2)) as Hin.
    { apply list_elem_of_In, values_elem. by exists id. }
    pose proof (find_none _ _ Ef def Hin) as Hno. simpl in Hno.
    by rewrite bool_decide_eq_true_2, (proj2 (Z.eqb_eq _ _) Hvv) in Hno.
Qed.

Lemma memory_GetLatest name version w : ¬ 0 < version →
  wp (GetLatestWorkflowDefinition name)
    (post (λ def w', db w' = db w ∧ denotes (db w) name version def)
          (λ e w', db w' = db w ∧ (False ∨ e = ErrNotFound ∧ ¬ ∃ def, denotes (db w) name version def))) w.
Proof.
  intros Hv. apply Z.nlt_ge, Z.ltb_ge in Hv. unfold wp, denotes. simpl. rewrite Hv.
  unfold Memory.GetLatestWorkflowDefinition, Memory.range_values, mbind, GoM_bind. simpl.
  set (l := range_order _ _). pose proof (latest_foldl name l) as Hl.
  destruct (foldl _ _ _) as [def|]; simpl in *; (split; [done|]).
  - destruct Hl as ([id Hin]%values_elem & Hn & Hmax). split_and!; [by exists id|done|].
    intros i d Hd. apply Hmax, values_elem. by exists i.
  - right. split; [done|]. intros (def & [id Hid] & Hn & _). apply (Hl def); [|done].
    apply values_elem. by exists id.
Qed.

Lemma memory_decode d j b' :
  in_int64 (Definition_.Version d) = true → Forall Workflowdsl.ints_ok (Workflowdsl.steps_of d) →
  Forall (λ s, StepSpec.Input s ≠ None) (Workflowdsl.steps_of d) →
  Workflowdsl.ToJSON d = Some j → kept (Some (Text j)) b' →
  ∃ p, Workflowdsl.unmarshal_Definition b' = Some p ∧ resembles d p.
Proof.
  intros Hv Hi Hn Hj ->. exists d. split; [by apply Workflowdsl.unmarshal_ToJSON|].
  unfold resembles. split_and!; [done..|]. pose proof (RunCreate.ToJSON_inputs _ _ Hj) as Hin.
  apply Forall_Forall2_diag, Forall_forall. intros s Hs. rewrite Forall_forall in Hn, Hin.
  specialize (Hn s Hs). specialize (Hin s Hs). unfold with_input.
  destruct s as [? ? ? [[i|]|]]; simpl in *; [|done..]. by exists i.
Qed.

#[refine] Definition memory_laws : StoreLaws Memory.memory_store :=
  {| may_fail := False; stored := kept |}.
Proof.
  - by intros b b' ->.
  - apply memory_decode.
  - apply @memory_steady.
  - intros A m w. apply memory_read.
  - intros A fn w. by left.
  - intros name version dag w. unfold wp. simpl.
    unfold Memory.CreateWorkflowDefinition, Memory.range_values, mbind, GoM_bind. simpl.
    pose proof (existsb_registered (db w) (tick w) name version) as Hx.
    destruct (existsb _ _); simpl.
    + split; [done|]. right. split; [done|]. by apply Hx.
    + split_and!; [done..| |done]. intros Hr. apply Hx in Hr. done.
  - apply memory_GetDefinition.
  - apply memory_GetLatest.
  - by intros.
  - intros id w _. eapply wp_result; [apply GetWorkflowRun_run|]. simpl.
    destruct (runs (db w) !! id); simpl; auto.
  - by intros.
  - intros id expected next out err w _.
    destruct (runs (db w) !! id) as [r|] eqn:Er; [destruct (decide (WorkflowRun.Status r ∈ expected))|].
    + eapply wp_eq; [by apply UpdateWorkflowRunStatus_ok|].
      exists r, (Memory.run_updated r next out err (time_Now (tick w))). split_and!; [done|done|by split|done..].
    + eapply wp_eq; [apply UpdateWorkflowRunStatus_no; naive_solver|]. split; [naive_solver|done].
    + eapply wp_eq; [apply UpdateWorkflowRunStatus_no; naive_solver|]. split; [naive_solver|done].
  - intros rid nss w. eapply wp_eq; [apply CreateSteps_run|]. simpl.
    split_and!; [apply new_rows_for|apply new_rows_ids|done].
  - intros rid w. destruct (GetSteps_run rid w) as (l & Hrun & Hl). by eapply wp_eq.
  - intros id w _. eapply wp_result; [apply GetStep_run|]. simpl.
    destruct (steps (db w) !! id); simpl; auto.
  - intros id expected next out err b w _.
    destruct (steps (db w) !! id) as [r|] eqn:Er; [destruct (decide (Step.Status r ∈ expected))|].
    + eapply wp_eq; [by apply UpdateStepStatus_ok|].
      exists r, (Memory.step_updated r next out err b (time_Now (tick w))). split_and!; [done|done|by split|done| |done].
      simpl. destruct b; lia.
    + eapply wp_eq; [apply UpdateStepStatus_no; naive_solver|]. split; [naive_solver|done].
    + eapply wp_eq; [apply UpdateStepStatus_no; naive_solver|]. split; [naive_solver|done].
  - intros sid rid number queue w. split_and!; [|done..]. exists (tick w). simpl. split; [lia|done].
  - intros id key worker lease w _. unfold wp, claimed_post. simpl.
    unfold Memory.ClaimTaskAttempt, mbind, GoM_bind, gets; simpl.
    destruct (attempts (db w) !! id) as [a|]; [|done]. case_bool_decide; simpl; [|done].
    destruct (TaskAttempt.IdempotencyKey a =? key)%N; simpl; [|done].
    eexists. split_and!; [done|by split|apply leased_by_leased|done].
  - intros id worker lease w _. unfold wp, holds_lease. simpl.
    unfold Memory.HeartbeatTaskAttempt, mbind, GoM_bind, gets; simpl.
    destruct (attempts (db w) !! id) as [a|]; simpl; [|split; [by intros (? & ? & _)|done]].
    destruct (Memory.leased_by a worker) eqn:El; simpl; [by eexists _, _|].
    split; [|done]. intros (b & Hb & ?). congruence.
  - intros id worker success res err w _. eapply wp_result; [apply CompleteTaskAttempt_run|].
    unfold holds_lease. destruct (attempts (db w) !! id) as [a|]; simpl; [|split; [by intros (? & ? & _)|done]].
    destruct (Memory.leased_by a worker) eqn:El; simpl.
    + eexists a, _. split_and!; [done|done|done| |..]; done || by split.
    + split; [|done]. intros (b & Hb & ?). congruence.
  - intros limit w Hk. destruct (reap_run limit w Hk) as (l & Hrun & Hl). eapply wp_eq; [exact Hrun|].
    split_and!; [apply Hl..|done].
  - intros msg w. split; [done|].
    exists (OutboxMessage.mk (nextOutboxID (db w) + 1) (NewOutboxMessage.AggregateType msg)
      (NewOutboxMessage.AggregateID msg) (NewOutboxMessage.ShardID msg)
      (NewOutboxMessage.StreamName msg) (NewOutboxMessage.Payload msg) OutboxPending 0
      (time_Now (tick w)) None), (TaskPayload.Input (NewOutboxMessage.Payload msg)).
    split_and!; [done..| |done]. by destruct msg as [? ? ? ? []].
  - intros k w _. unfold wp. simpl. unfold Memory.MarkOutboxPublished, mbind, GoM_bind, gets; simpl.
    destruct (outbox (db w) !! k); simpl; [by eexists|done].
  - intros nt w. eapply wp_eq; [apply InsertTimer_run|]. simpl. split_and!; [|done..].
    exists (tick w). split; [lia|done].
  - intros tid w _. eapply wp_result; [apply FireTimerCAS_run|].
    destruct (timers (db w) !! tid) as [t|]; simpl; [|done].
    case_bool_decide; simpl; [by eexists _, _|]. split; [naive_solver|done].
  - by intros.
  - by intros.
  - intros rid w. destruct (ListUnprocessedSignals_run rid w) as (l & Hrun). by eapply wp_eq.
  - intros id w. unfold wp. simpl. unfold Memory.MarkSignalProcessed, mbind, GoM_bind, gets; simpl.
    destruct (signals (db w) !! id) as [sig|]; simpl; [destruct (Signal.Processed sig); simpl|].
    + exists (λ m, m). by destruct (db w).
    + by eexists.
    + exists (λ m, m). by destruct (db w).
  - intros rid ev p w r _ Hr. destruct (AppendHistory_run rid ev p w r Hr) as (h & Hs & Hrun).
    by eapply wp_eq.
Defined.

(** On the memory store, which never fails, a transaction is its body. *)
Lemma memory_tx {A} (P : A → World → Prop) (Qe : error → World → Prop) w r w' :
  tx_post (L := memory_laws) P Qe w r w' → post P Qe r w'.
Proof. destruct r as [a|e]; [done|]. by intros [[[] _]|He]. Qed.
End laws.

End MemSpec.
