(* ===== verification/Demo.v ===== *)
(** A concrete environment and a concrete execution of the system, used to show
    that the hypotheses of the theorems can hold. *)

From stdpp Require Import gmap strings list relations pretty.
From S2P Require Import Prelude GoLib Json Types MemStore Dsl Engine Lifecycle.
From S2P Require Import LifecycleInv Worlds Contract MemSpec Reconcile EngineSpec EngineOps RunCreate.
From S2P Require Import System.
Open Scope Z_scope.

Module Demo.
Import Lifecycle LifecycleInv Worlds Contract MemSpec EngineOps System RunCreate.

#[local] Existing Instances Memory.memory_store MemSpec.memory_laws.

(** Identifiers are written in decimal. *)
Definition demo_parse (s : string) : option uuid :=
  foldl (λ acc b, n ← acc; guard ((48 ≤ b ≤ 57)%Z);; Some (10 * n + Z.to_N (b - 48))%N)
    (Some 0%N) (bytes_of s).

(** Identifiers and clock readings are consecutive numbers; maps are visited in
    the order of their keys. *)
#[refine] Definition demo_env : Env := {|
  uuid_New n := N.of_nat (S n);
  uuid_String n := pretty n;
  uuid_Parse := demo_parse;
  time_Now n := Z.of_nat n;
  rand_Float64 _ := F64.zero;
  range_order A _ l := l
|}.
Proof. done. Defined.

#[export] Existing Instance demo_env.

Lemma demo_unique : Worlds.uuid_unique.
Proof. intros m n. simpl. lia. Defined.

(** Runs a list of requests. *)
Fixpoint run_all (qs : list request) (w : World) : World :=
  match qs with
  | [] => w
  | q :: qs' => run_all qs' (exec q w).2
  end.

Lemma run_all_reachable qs w fl :
  Forall valid qs → reachable (w, fl) → reachable (run_all qs w, fl).
Proof.
  revert w. induction qs as [|q qs IH]; intros w Hv Hr; [done|].
  apply Forall_cons in Hv as [Hq Hqs]. simpl. apply IH; [done|].
  eapply rtc_r; [exact Hr|]. by apply Sys_request.
Defined.

(** * An example workflow: [fetch] may be tried twice, [store] depends on it *)

Definition fetch_spec : StepSpec.t :=
  StepSpec.mk "fetch" "http" None None 2 1000 F64.two 60000 30.
Definition store_spec : StepSpec.t :=
  StepSpec.mk "store" "sql" (Some ["fetch"]) None 1 1000 F64.two 60000 30.
Definition etl : Definition_.t := Definition_.mk "etl" 1 (Some [fetch_spec; store_spec]).

Lemma etl_ints : go_ints etl.
Proof. split; [reflexivity|]. repeat constructor. Defined.

Lemma etl_valid qs : Forall valid qs → Forall valid (Register etl :: qs).
Proof. intros H. constructor; [exact etl_ints|exact H]. Defined.

(** Run 5 has the steps 7 ([fetch]) and 9 ([store]); the first attempt of [fetch]
    is 15, with key 16. *)
Definition created : list request := [Register etl; Create "etl" 0 None].
Definition claimed : list request := created ++ [Claim 15 16 "w1" 30; MarkRunning 7].
Definition retrying : list request := claimed ++ [Report 15 "w1" false None (Some "boom")].

Definition at_ (qs : list request) : World := run_all qs init.1.

Lemma created_reachable : reachable (at_ created, []).
Proof.
  apply run_all_reachable; [|apply rtc_refl]. apply etl_valid. repeat constructor.
Defined.

Lemma claimed_reachable : reachable (at_ claimed, []).
Proof.
  apply run_all_reachable; [|apply rtc_refl]. apply etl_valid. repeat constructor.
Defined.

Lemma retrying_reachable : reachable (at_ retrying, []).
Proof.
  apply run_all_reachable; [|apply rtc_refl]. apply etl_valid. repeat constructor.
Defined.

(** Both outcomes of the workflow. *)
Definition half_done : list request := claimed ++ [Report 15 "w1" true None None].
Definition completed : list request :=
  half_done ++ [Claim 33 34 "w1" 30; Report 33 "w1" true None None].
Definition retried : list request := retrying ++ [FireTimer 29].
Definition failed : list request :=
  retried ++ [Claim 38 39 "w2" 30; Report 38 "w2" false None (Some "boom")].

Lemma half_done_reachable : reachable (at_ half_done, []).
Proof. apply run_all_reachable; [|apply rtc_refl]. apply etl_valid. repeat constructor. Defined.
Lemma completed_reachable : reachable (at_ completed, []).
Proof. apply run_all_reachable; [|apply rtc_refl]. apply etl_valid. repeat constructor. Defined.
Lemma retried_reachable : reachable (at_ retried, []).
Proof. apply run_all_reachable; [|apply rtc_refl]. apply etl_valid. repeat constructor. Defined.
Lemma failed_reachable : reachable (at_ failed, []).
Proof. apply run_all_reachable; [|apply rtc_refl]. apply etl_valid. repeat constructor. Defined.

Lemma run_all_steps qs w fl : Forall valid qs → rtc sys_step (w, fl) (run_all qs w, fl).
Proof.
  revert w. induction qs as [|q qs IH]; intros w Hv; [apply rtc_refl|].
  apply Forall_cons in Hv as [Hq Hqs]. eapply rtc_l; [by apply Sys_request|]. by apply IH.
Defined.

Lemma run_all_app qs1 qs2 w : run_all (qs1 ++ qs2) w = run_all qs2 (run_all qs1 w).
Proof. revert w. induction qs1 as [|q qs1 IH]; intros w; [reflexivity|apply IH]. Defined.

Lemma at_app qs1 qs2 fl : Forall valid qs2 → rtc sys_step (at_ qs1, fl) (at_ (qs1 ++ qs2), fl).
Proof. intros Hv. unfold at_. rewrite run_all_app. by apply run_all_steps. Defined.

(** * In the middle of a report

    The last attempt of [fetch] has failed and its step is FAILED; the transaction
    has not reconciled the run yet. *)

Definition last_try : list request := retried ++ [Claim 38 39 "w2" 30].

Definition failing (w : World) : World :=
  mkWorld
    (set_steps (alter (λ s, Engine.set_Status s StepFailed) 7%N)
       (set_attempts (alter (λ a, Memory.attempt_completed a AttemptFailed None None 0) 38%N) (db w)))
    (tick w).

Lemma last_try_reachable : reachable (at_ last_try, []).
Proof. apply run_all_reachable; [|apply rtc_refl]. apply etl_valid. repeat constructor. Defined.

(** The two rows the report is about. *)
Lemma last_try_rows : ∃ a s,
  attempts (db (at_ last_try)) !! 38%N = Some a ∧ steps (db (at_ last_try)) !! 7%N = Some s ∧
  TaskAttempt.Status a = AttemptLeased ∧ TaskAttempt.StepID a = 7%N ∧
  busy (Step.Status s) = true ∧ (Step.AttemptCount s <? Step.MaxAttempts s) = false.
Proof.
  destruct (attempts (db (at_ last_try)) !! 38%N) as [a|] eqn:Ha; [|vm_compute in Ha; discriminate].
  destruct (steps (db (at_ last_try)) !! 7%N) as [s|] eqn:Hs; [|vm_compute in Hs; discriminate].
  vm_compute in Ha. injection Ha as <-. vm_compute in Hs. injection Hs as <-.
  do 2 eexists. by split_and!.
Qed.

Lemma has_alter d f g k i :
  has (set_steps (alter f 7%N) (set_attempts (alter g k) d)) i → has d i.
Proof.
  unfold has. simpl. intros [?|[H|[H|?]]]; [by left| | |by do 3 right].
  - right; left. by apply lookup_alter_is_Some in H.
  - do 2 right; left. by apply lookup_alter_is_Some in H.
Qed.

Lemma consistent_failing w o a s :
  good (mkCfg (db w) o None) o None w →
  attempts (db w) !! 38%N = Some a → steps (db w) !! 7%N = Some s →
  TaskAttempt.Status a = AttemptLeased → TaskAttempt.StepID a = 7%N →
  busy (Step.Status s) = true → (Step.AttemptCount s <? Step.MaxAttempts s) = false →
  consistent (failing w).
Proof.
  intros [_ Hi Hbd] Ha Hs Ea Est Hb Hc. exists (({[38%N]} ∪ o) ∖ {[38%N]}). split.
  - set (a' := Memory.attempt_completed a AttemptFailed None None 0).
    pose proof (trans_Inv _ _ (T_end (db w) o None 38%N a a' Ha ltac:(done) Ea eq_refl) Hi) as Hi1.
    assert (Step.Status (Engine.set_Status s StepFailed) =
            outcome_status (TaskAttempt.Status a') s) as Eout.
    { unfold outcome_status. simpl. by rewrite Hc. }
    pose proof (trans_Inv _ _ (T_outcome (set_attempts <[38%N:=a']> (db w)) ({[38%N]} ∪ o) None 38%N a' s (Engine.set_Status s StepFailed)
      ltac:(set_solver) ltac:(simpl; by rewrite lookup_insert_eq) ltac:(simpl; by rewrite Est)
      Hb ltac:(done) ltac:(done) Eout ltac:(done)) Hi1) as Hi2.
    unfold failing, set_attempts, set_steps in *. cbn -[alter insert] in *. rewrite Est in Hi2.
    by rewrite (alter_alt_Some _ (attempts _) _ _ Ha), (alter_alt_Some _ (steps _) _ _ Hs).
  - intros i Hid. apply has_alter in Hid. exact (Hbd i Hid).
Qed.

Lemma failing_consistent : consistent (failing (at_ last_try)).
Proof.
  destruct last_try_rows as (a & s & Ha & Hs & Ea & Est & Hb & Hc).
  exact (consistent_failing _ _ a s (reachable_good demo_unique _ last_try_reachable) Ha Hs Ea Est Hb Hc).
Qed.

End Demo.
