(* ===== verification/Guarantees.v ===== *)
(** What holds in every state the system can reach, whatever the interleaving of
    clients, workers and background loops (System.v), and what never changes
    again once it holds. *)

From stdpp Require Import gmap strings list relations.
From S2P Require Import Prelude GoLib Json Types MemStore Dsl Engine Lifecycle.
From S2P Require Import LifecycleInv Worlds Contract MemSpec Reconcile EngineSpec EngineOps RunCreate.
From S2P Require Import System Liveness Demo.
Open Scope Z_scope.

Module Guarantees.
Import Lifecycle LifecycleInv Worlds Contract MemSpec Reconcile EngineSpec EngineOps RunCreate System Liveness Demo.

#[local] Existing Instances Memory.memory_store MemSpec.memory_laws.

(** * The engine implements the life cycle *)

(** What a state of the system means for the life cycle: its tables, and the expired attempts
    whose steps have not been told. *)
Definition abstraction (s : sys) : Cfg := mkCfg (db s.1) (owing s.2) None.

(** C3.  The code refines the life cycle of Lifecycle.v: the empty store is its initial
    configuration, and every step of the running system from a reachable state (a whole
    request with all its writes, a reaping pass, the handling of one expired attempt) is
    matched by a sequence of moves of the life cycle between the configurations the two
    states stand for, which keeps the invariant. *)
Theorem refines_lifecycle {E : Env} {St : Store} {L : StoreLaws St} (Hu : uuid_unique) s s' :
  reachable s → sys_step s s' →
  abstraction init = mkCfg Memory.New ∅ None ∧
  rtc trans (abstraction s) (abstraction s') ∧ Inv (abstraction s').
Proof.
  intros Hr Hstep. split; [done|].
  pose proof (sys_step_inv Hu _ _ _ Hstep (sys_inv_restart _ _ (reachable_inv Hu s Hr))) as [Hg _].
  split; [exact (g_path _ _ _ _ Hg)|exact (g_inv _ _ _ _ Hg)].
Qed.

Lemma refines_lifecycle_witness :
  rtc trans (abstraction (at_ created, [])) (abstraction ((exec (Claim 15 16 "w1" 30) (at_ created)).2, [])).
Proof.
  destruct (refines_lifecycle demo_unique (at_ created, [])
    ((exec (Claim 15 16 "w1" 30) (at_ created)).2, []) created_reachable) as (_ & H & _).
  - apply Sys_request. exact I.
  - exact H.
Defined.

(** * Steps *)

(** C2.  A step never starts early: in every reachable state, a step that is
    WAITING, QUEUED, RUNNING, RETRY_BACKOFF, COMPLETED or FAILED has, for each name
    in its [depends_on], a step of that name in the same run that is COMPLETED. *)
Theorem deps_before_start {E : Env} {St : Store} {L : StoreLaws St} (Hu : uuid_unique) w fl id s dep :
  reachable (w, fl) → steps (db w) !! id = Some s → started (Step.Status s) = true →
  dep ∈ Step.DependsOn s →
  ∃ id' d, steps (db w) !! id' = Some d ∧ Step.WorkflowRunID d = Step.WorkflowRunID s ∧
    Step.StepName d = dep ∧ Step.Status d = StepCompleted.
Proof.
  intros Hr Hs Hst Hd. pose proof (inv_steps _ (reachable_Inv Hu _ Hr)) as Hinv.
  destruct (si_deps _ Hinv id s Hs Hst dep Hd) as (i & d & Hdi & Hrun & Hn & Hc).
  exists i, d. by apply bool_decide_eq_true in Hc.
Qed.

Lemma deps_before_start_witness :
  ∃ s id' d, steps (db (at_ half_done)) !! 9%N = Some s ∧ Step.Status s = StepQueued ∧
    steps (db (at_ half_done)) !! id' = Some d ∧ Step.WorkflowRunID d = Step.WorkflowRunID s ∧
    Step.StepName d = "fetch" ∧ Step.Status d = StepCompleted.
Proof.
  destruct (steps (db (at_ half_done)) !! 9%N) as [s|] eqn:Hs; [|vm_compute in Hs; discriminate].
  assert (Step.Status s = StepQueued ∧ Step.DependsOn s = ["fetch"]) as [Est Ed]
    by (vm_compute in Hs; injection Hs as <-; split; reflexivity).
  exists s. destruct (deps_before_start demo_unique (at_ half_done) [] 9%N s "fetch")
    as (id' & d & ? & ? & ? & ?); [exact half_done_reachable|exact Hs|rewrite Est; reflexivity| |].
  - rewrite Ed. constructor.
  - exists id', d. split_and!; assumption || reflexivity.
Defined.

(** C6.  The retry budget: in every reachable state the attempt counter of a step
    lies between 0 and its [max_attempts]; it is 0 before the first dispatch (PENDING,
    READY, WAITING, SKIPPED), at least 1 while QUEUED or RUNNING, strictly below the
    maximum in RETRY_BACKOFF, and a step is FAILED only with its budget used up. *)
Theorem retry_budget {E : Env} {St : Store} {L : StoreLaws St} (Hu : uuid_unique) w fl id s :
  reachable (w, fl) → steps (db w) !! id = Some s →
  0 ≤ Step.AttemptCount s ≤ Step.MaxAttempts s ∧
  match Step.Status s with
  | StepPending | StepReady | StepWaiting | StepSkipped => Step.AttemptCount s = 0
  | StepQueued | StepRunning => 1 ≤ Step.AttemptCount s
  | StepRetryBackoff => 1 ≤ Step.AttemptCount s < Step.MaxAttempts s
  | StepFailed => Step.AttemptCount s = Step.MaxAttempts s ∧ 1 ≤ Step.MaxAttempts s
  | StepCompleted | StepCancelled => True
  end.
Proof.
  intros Hr Hs. pose proof (inv_steps _ (reachable_Inv Hu _ Hr)) as Hinv. simpl in Hinv.
  pose proof (si_count _ Hinv id s Hs) as Hc. pose proof (si_max _ Hinv id s Hs) as Hm.
  unfold count_ok in Hc. destruct (Step.Status s); split_and?; try lia; done.
Qed.

Lemma retry_budget_witness :
  ∃ s, steps (db (at_ failed)) !! 7%N = Some s ∧ Step.Status s = StepFailed ∧
       Step.AttemptCount s = Step.MaxAttempts s.
Proof.
  destruct (steps (db (at_ failed)) !! 7%N) as [s|] eqn:Hs; [|vm_compute in Hs; discriminate].
  assert (Step.Status s = StepFailed) as Est by (vm_compute in Hs; injection Hs as <-; reflexivity).
  exists s. pose proof (retry_budget demo_unique (at_ failed) [] 7%N s failed_reachable Hs) as [_ H].
  rewrite Est in H. split_and!; [reflexivity|exact Est|apply H].
Defined.

(** C11.  Results are real: in every reachable state a COMPLETED step has a SUCCEEDED
    last attempt, unless it is a [signal_wait] step, and a FAILED step has used all
    its attempts, the last of which FAILED or EXPIRED. *)
Theorem result_justified {E : Env} {St : Store} {L : StoreLaws St} (Hu : uuid_unique) w fl sid s :
  reachable (w, fl) → steps (db w) !! sid = Some s →
  let last_attempt st := ∃ id a, attempts (db w) !! id = Some a ∧ TaskAttempt.StepID a = sid ∧
    TaskAttempt.AttemptNumber a = Step.AttemptCount s ∧ TaskAttempt.Status a = st in
  (Step.Status s = StepCompleted →
     Step.TaskType s = "signal_wait" ∨ last_attempt AttemptSucceeded) ∧
  (Step.Status s = StepFailed → Step.AttemptCount s = Step.MaxAttempts s ∧
     (last_attempt AttemptFailed ∨ last_attempt AttemptExpired)).
Proof.
  intros Hr Hs last_attempt. pose proof (reachable_Inv Hu _ Hr) as Hinv.
  pose proof (inv_results _ Hinv sid s Hs) as Hres.
  pose proof (si_count _ (inv_steps _ Hinv) sid s Hs) as Hc. unfold result_ok, count_ok in *.
  split; intros Est; rewrite Est in *; [exact Hres|]. split; [done|].
  destruct Hres as (i & a & Ha & Hsid & Hn & Hl).
  destruct (TaskAttempt.Status a) eqn:Ea; try discriminate; [left|right]; by exists i, a.
Qed.

Lemma result_justified_witness :
  ∃ id a, attempts (db (at_ half_done)) !! id = Some a ∧ TaskAttempt.StepID a = 7%N ∧
    TaskAttempt.Status a = AttemptSucceeded.
Proof.
  destruct (steps (db (at_ half_done)) !! 7%N) as [s|] eqn:Hs; [|vm_compute in Hs; discriminate].
  assert (Step.Status s = StepCompleted ∧ Step.TaskType s = "http") as [Est Ety]
    by (vm_compute in Hs; injection Hs as <-; split; reflexivity).
  destruct (proj1 (result_justified demo_unique (at_ half_done) [] 7%N s half_done_reachable Hs) Est)
    as [H|(id & a & Ha & E1 & _ & E2)].
  - rewrite Ety in H. discriminate.
  - exists id, a. split_and!; assumption.
Defined.

(** * Attempts *)

(** Attempts are numbered without gaps or duplicates: in every reachable state
    the attempts of a step carry the numbers 1 to [attempt_count], each exactly
    once, and every attempt belongs to an existing step of its run. *)
Theorem attempts_numbered {E : Env} {St : Store} {L : StoreLaws St} (Hu : uuid_unique) w fl :
  reachable (w, fl) →
  (∀ sid s k, steps (db w) !! sid = Some s → 1 ≤ k ≤ Step.AttemptCount s →
     exists! aid, ∃ a, attempts (db w) !! aid = Some a ∧ TaskAttempt.StepID a = sid ∧
                  TaskAttempt.AttemptNumber a = k) ∧
  (∀ aid a, attempts (db w) !! aid = Some a → ∃ s,
     steps (db w) !! TaskAttempt.StepID a = Some s ∧
     Step.WorkflowRunID s = TaskAttempt.WorkflowRunID a ∧
     1 ≤ TaskAttempt.AttemptNumber a ≤ Step.AttemptCount s).
Proof.
  intros Hr. pose proof (inv_att _ (reachable_Inv Hu _ Hr)) as Hinv. simpl in Hinv. split.
  - intros sid s k Hs Hk. destruct (ai_all _ _ _ Hinv sid s k Hs Hk) as (aid & a & Ha & E1 & E2).
    exists aid. split; [eauto|]. intros aid' (a' & Ha' & E1' & E2').
    eapply (ai_uniq _ _ _ Hinv); eauto; congruence.
  - intros aid a Ha. exact (ai_step _ _ _ Hinv aid a Ha).
Qed.

Lemma attempts_numbered_witness :
  exists! aid, ∃ a, attempts (db (at_ retried)) !! aid = Some a ∧ TaskAttempt.StepID a = 7%N ∧
               TaskAttempt.AttemptNumber a = 2.
Proof.
  destruct (steps (db (at_ retried)) !! 7%N) as [s|] eqn:Hs; [|vm_compute in Hs; discriminate].
  assert (Step.AttemptCount s = 2) as Ec by (vm_compute in Hs; injection Hs as <-; reflexivity).
  apply (proj1 (attempts_numbered demo_unique (at_ retried) [] retried_reachable) 7%N s 2 Hs). lia.
Defined.

(** The attempts the life cycle calls active, read off the state of the system. *)
Lemma open_attempt {E : Env} {St : Store} {L : StoreLaws St} (Hu : uuid_unique) w fl aid a sid :
  reachable (w, fl) →
  (attempts (db w) !! aid = Some a ∧ TaskAttempt.StepID a = sid ∧
    (TaskAttempt.Status a = AttemptQueued ∨ TaskAttempt.Status a = AttemptLeased ∨
     TaskAttempt.Status a = AttemptExpired ∧ ∃ x, (a, x) ∈ fl)) ↔
  (attempts (db w) !! aid = Some a ∧ TaskAttempt.StepID a = sid ∧ active (owing fl) aid a).
Proof.
  intros Hr. pose proof (inv_att _ (reachable_Inv Hu _ Hr)) as Hinv. simpl in Hinv.
  split; intros (Ha & E1 & Hact); split_and!; try done.
  - destruct Hact as [Hq|[Hq|[_ [x Hx]]]]; [left; by rewrite Hq..|right].
    destruct (listed_expired Hu w fl a x Hr Hx) as (_ & _ & Hin).
    by rewrite <-(ai_key _ _ _ Hinv aid a Ha).
  - destruct Hact as [Hl|Hin]; [destruct (TaskAttempt.Status a); auto; done|right; right].
    destruct (owed_is_listed Hu w fl aid a Hr Ha Hin) as [x Hx].
    destruct (listed_expired Hu w fl a x Hr Hx) as (_ & Hst & _). eauto.
Qed.

(** C7.  At most one attempt is open on a step.  In every reachable state a QUEUED or
    RUNNING step has exactly one attempt that is QUEUED, LEASED, or EXPIRED by a reaper that has
    not told the step (it still holds the attempt, or stranded it: its transaction failed or its
    process stopped), and that attempt is the step's latest.  A step that is neither QUEUED,
    RUNNING nor CANCELLED has no such attempt; of a CANCELLED step nothing is said. *)
Theorem one_active_attempt {E : Env} {St : Store} {L : StoreLaws St} (Hu : uuid_unique) w fl sid s :
  reachable (w, fl) → steps (db w) !! sid = Some s → Step.Status s ≠ StepCancelled →
  let open aid a := attempts (db w) !! aid = Some a ∧ TaskAttempt.StepID a = sid ∧
    (TaskAttempt.Status a = AttemptQueued ∨ TaskAttempt.Status a = AttemptLeased ∨
     TaskAttempt.Status a = AttemptExpired ∧ ∃ x, (a, x) ∈ fl) in
  if busy (Step.Status s) then
    ∃ aid a, open aid a ∧ TaskAttempt.AttemptNumber a = Step.AttemptCount s ∧
      ∀ aid' a', open aid' a' → aid' = aid
  else ∀ aid a, ¬ open aid a.
Proof.
  intros Hr Hs Hnc open. pose proof (inv_att _ (reachable_Inv Hu _ Hr)) as Hinv. simpl in Hinv.
  assert (∀ aid a, open aid a ↔ attempts (db w) !! aid = Some a ∧ TaskAttempt.StepID a = sid ∧
            active (owing fl) aid a) as Hopen by (intros aid a; exact (open_attempt Hu w fl aid a sid Hr)).
  destruct (busy (Step.Status s)) eqn:Eb.
  - destruct (ai_busy _ _ _ Hinv sid s Hs Eb) as (aid & a & Ha & E1 & E2 & Hact). exists aid, a.
    split_and!; [by apply Hopen|done|]. intros aid' a' (Ha' & E1' & Hact')%Hopen.
    eapply (active_unique _ _ _ Hinv aid' aid); eauto. congruence.
  - intros aid a (Ha & E1 & Hact)%Hopen. by eapply (no_active _ _ _ Hinv aid a).
Qed.

Lemma one_active_attempt_witness :
  ∃ aid a, attempts (db (at_ retried)) !! aid = Some a ∧ TaskAttempt.StepID a = 7%N ∧
    TaskAttempt.AttemptNumber a = 2.
Proof.
  destruct (steps (db (at_ retried)) !! 7%N) as [s|] eqn:Hs; [|vm_compute in Hs; discriminate].
  assert (Step.Status s = StepQueued ∧ Step.AttemptCount s = 2) as [Est Ec]
    by (vm_compute in Hs; injection Hs as <-; split; reflexivity).
  pose proof (one_active_attempt demo_unique (at_ retried) [] 7%N s retried_reachable Hs) as H.
  rewrite Est, Ec in H. destruct (H ltac:(discriminate)) as (aid & a & (H1 & H2 & _) & H3 & _).
  exists aid, a. split_and!; assumption.
Defined.

(** * Outbox, runs, history, timers *)

(** C12.  No task is lost or announced twice: in every reachable state each attempt
    has exactly one outbox row, that row names its queue and its payload carries the
    attempt's identifiers, number and idempotency key; and every outbox row
    announces an existing attempt. *)
Theorem outbox_exact {E : Env} {St : Store} {L : StoreLaws St} (Hu : uuid_unique) w fl :
  reachable (w, fl) →
  (∀ aid a, attempts (db w) !! aid = Some a →
     exists! k, ∃ m, outbox (db w) !! k = Some m ∧ announces m a) ∧
  (∀ k m, outbox (db w) !! k = Some m →
     ∃ a, attempts (db w) !! OutboxMessage.AggregateID m = Some a ∧ announces m a).
Proof.
  intros Hr. pose proof (reachable_Inv Hu _ Hr) as Hi. pose proof (inv_out _ Hi) as Hinv.
  pose proof (inv_att _ Hi) as Hatt. simpl in *. split; [|by apply Hinv].
  intros aid a Ha. pose proof (ai_key _ _ _ Hatt aid a Ha) as Hid.
  destruct (oi_complete _ _ _ Hinv aid a Ha) as (k & m & Hm & Eagg).
  destruct (oi_sound _ _ _ Hinv k m Hm) as (b & Hb & Han). rewrite Eagg in Hb. simplify_eq.
  exists k. split; [eauto|]. intros k' (m' & Hm' & Han').
  eapply (oi_uniq _ _ _ Hinv); eauto. rewrite Eagg. symmetry. apply Han'.
Qed.

Lemma outbox_exact_witness :
  ∃ a, attempts (db (at_ retried)) !! 38%N = Some a ∧
    exists! k, ∃ m, outbox (db (at_ retried)) !! k = Some m ∧ announces m a.
Proof.
  destruct (attempts (db (at_ retried)) !! 38%N) as [a|] eqn:Ha; [|vm_compute in Ha; discriminate].
  exists a. split; [reflexivity|].
  exact (proj1 (outbox_exact demo_unique (at_ retried) [] retried_reachable) 38%N a Ha).
Defined.

(** C13.  The verdict on a run is right: in every reachable state a COMPLETED run has
    only COMPLETED steps, a FAILED run has only terminal steps and a FAILED one among
    them, and a CANCELLED run has only terminal steps. *)
Theorem run_verdict {E : Env} {St : Store} {L : StoreLaws St} (Hu : uuid_unique) w fl rid r :
  reachable (w, fl) → runs (db w) !! rid = Some r →
  let steps_all P := ∀ id s, steps (db w) !! id = Some s → Step.WorkflowRunID s = rid →
                       P (Step.Status s) in
  match WorkflowRun.Status r with
  | RunPending | RunRunning => True
  | RunCompleted => steps_all (λ st, st = StepCompleted)
  | RunFailed => steps_all (λ st, StepTerminal st = true) ∧
      ∃ id s, steps (db w) !! id = Some s ∧ Step.WorkflowRunID s = rid ∧
              Step.Status s = StepFailed
  | RunCancelled => steps_all (λ st, StepTerminal st = true)
  end.
Proof.
  intros Hr Hrun steps_all. pose proof (inv_runs _ (reachable_Inv Hu _ Hr)) as Hinv.
  pose proof (ri_verdict _ _ Hinv rid r Hrun) as Hv. simpl in Hv.
  destruct (WorkflowRun.Status r); simpl in Hv; done.
Qed.

Lemma run_verdict_witness :
  ∃ id s, steps (db (at_ failed)) !! id = Some s ∧ Step.WorkflowRunID s = 5%N ∧
          Step.Status s = StepFailed.
Proof.
  destruct (runs (db (at_ failed)) !! 5%N) as [r|] eqn:Hr; [|vm_compute in Hr; discriminate].
  assert (WorkflowRun.Status r = RunFailed) as Est by (vm_compute in Hr; injection Hr as <-; reflexivity).
  pose proof (run_verdict demo_unique (at_ failed) [] 5%N r failed_reachable Hr) as H.
  cbv zeta in H. rewrite Est in H. apply H.
Defined.

(** The history of a run is complete and in order: in every reachable state its
    entries are numbered 1, 2, ..., [history_seq]. *)
Theorem history_contiguous {E : Env} {St : Store} {L : StoreLaws St} (Hu : uuid_unique) w fl rid r :
  reachable (w, fl) → runs (db w) !! rid = Some r →
  HistoryEvent.Seq <$> default [] (history (db w) !! rid) =
    Z.of_nat <$> seq 1 (Z.to_nat (WorkflowRun.HistorySeq r)).
Proof.
  intros Hr Hrun. pose proof (inv_hist _ (reachable_Inv Hu _ Hr)) as Hinv.
  apply (hi_seq _ _ Hinv rid r Hrun).
Qed.

Lemma history_contiguous_witness :
  HistoryEvent.Seq <$> default [] (history (db (at_ created)) !! 5%N) = [1; 2; 3].
Proof.
  destruct (runs (db (at_ created)) !! 5%N) as [r|] eqn:Hr; [|vm_compute in Hr; discriminate].
  assert (WorkflowRun.HistorySeq r = 3) as Es by (vm_compute in Hr; injection Hr as <-; reflexivity).
  rewrite (history_contiguous demo_unique (at_ created) [] 5%N r created_reachable Hr), Es. reflexivity.
Defined.

(** A retry is never forgotten: in every reachable state a step in RETRY_BACKOFF
    has a PENDING retry timer of its own run, and that run is not finished. *)
Theorem retry_armed {E : Env} {St : Store} {L : StoreLaws St} (Hu : uuid_unique) w fl sid s :
  reachable (w, fl) → steps (db w) !! sid = Some s → Step.Status s = StepRetryBackoff →
  (∃ tid t, timers (db w) !! tid = Some t ∧ Timer.Kind t = TimerRetryBackoff ∧
     Timer.Status t = TimerPending ∧ Timer.StepID t = Some sid ∧
     Timer.WorkflowRunID t = Step.WorkflowRunID s) ∧
  ∃ r, runs (db w) !! Step.WorkflowRunID s = Some r ∧ RunTerminal (WorkflowRun.Status r) = false.
Proof.
  intros Hr Hs Est. pose proof (reachable_Inv Hu _ Hr) as Hi.
  pose proof (inv_timers _ Hi) as Hinv. simpl in Hinv. split.
  - destruct (ti_retry _ _ _ _ Hinv sid s Hs Est) as [?|(tid & t & Ht & Hre)]; [done|].
    unfold retries in Hre. apply andb_true_iff in Hre as [Hre E3%bool_decide_eq_true].
    apply andb_true_iff in Hre as [E1%bool_decide_eq_true E2%bool_decide_eq_true].
    destruct (ti_step _ _ _ _ Hinv tid t sid Ht E3) as (s' & Hs' & Erun).
    exists tid, t. simplify_eq. by split_and!.
  - destruct (ri_step _ _ (inv_runs _ Hi) sid s Hs) as [r Hrun]. exists r. split; [done|].
    destruct (RunTerminal (WorkflowRun.Status r)) eqn:Et; [|done].
    pose proof (terminal_run_steps _ _ _ _ _ _ _ _ (reachable_good Hu _ Hr) Hrun Et Hs eq_refl) as Hbad.
    by rewrite Est in Hbad.
Qed.

Lemma retry_armed_witness :
  ∃ tid t, timers (db (at_ retrying)) !! tid = Some t ∧ Timer.Kind t = TimerRetryBackoff ∧
    Timer.Status t = TimerPending ∧ Timer.StepID t = Some 7%N.
Proof.
  destruct (steps (db (at_ retrying)) !! 7%N) as [s|] eqn:Hs; [|vm_compute in Hs; discriminate].
  assert (Step.Status s = StepRetryBackoff) as Est by (vm_compute in Hs; injection Hs as <-; reflexivity).
  destruct (proj1 (retry_armed demo_unique (at_ retrying) [] 7%N s retrying_reachable Hs Est))
    as (tid & t & H1 & H2 & H3 & H4 & _). exists tid, t. split_and!; assumption.
Defined.

(** * What never changes again *)

(** C14.  Final means final: along every execution from a reachable state no row disappears
    and
    - a terminal step keeps its whole row;
    - a terminal run keeps its row but for the number of its last history event, which only
      grows (a signal that reaches a finished run is still recorded);
    - an ended attempt and a timer that is no longer PENDING keep their whole rows;
    - an outbox row changes only by being published, which sets its status and the time of
      publication: it keeps its payload and all else, and once PUBLISHED it stays so;
    - history is only appended to. *)
Theorem final_is_final {E : Env} {St : Store} {L : StoreLaws St} (Hu : uuid_unique) s s' :
  reachable s → rtc sys_step s s' →
  (∀ id x, steps (db s.1) !! id = Some x → ∃ x', steps (db s'.1) !! id = Some x' ∧
     (StepTerminal (Step.Status x) = true → x' = x)) ∧
  (∀ id x, runs (db s.1) !! id = Some x → ∃ x', runs (db s'.1) !! id = Some x' ∧
     (RunTerminal (WorkflowRun.Status x) = true →
        WorkflowRun.HistorySeq x ≤ WorkflowRun.HistorySeq x' ∧
        x' = run_with_seq x (WorkflowRun.HistorySeq x'))) ∧
  (∀ id x, attempts (db s.1) !! id = Some x → ∃ x', attempts (db s'.1) !! id = Some x' ∧
     (live (TaskAttempt.Status x) = false → x' = x)) ∧
  (∀ id x, timers (db s.1) !! id = Some x → ∃ x', timers (db s'.1) !! id = Some x' ∧
     (Timer.Status x ≠ TimerPending → x' = x)) ∧
  (∀ k m, outbox (db s.1) !! k = Some m → ∃ m', outbox (db s'.1) !! k = Some m' ∧
     (m' = m ∨ ∃ n, m' = Memory.outbox_published m n)) ∧
  (∀ id l, history (db s.1) !! id = Some l → ∃ l', history (db s'.1) !! id = Some l' ∧
     l `prefix_of` l').
Proof.
  intros Hr Hs. destruct (steps_evolve Hu s s' Hr Hs) as [H1 H2 H3 H4 H5 H6]. split_and!.
  - intros id x Hx. destruct (H1 id x Hx) as (x' & ? & Hev). exists x'. split; [done|apply Hev].
  - intros id x Hx. destruct (H2 id x Hx) as (x' & ? & Hev). exists x'. split; [done|apply Hev].
  - intros id x Hx. destruct (H3 id x Hx) as (x' & ? & Hev). exists x'. split; [done|apply Hev].
  - exact H6.
  - exact H4.
  - exact H5.
Qed.

Lemma final_is_final_witness :
  ∃ x, steps (db (at_ half_done)) !! 7%N = Some x ∧ Step.Status x = StepCompleted ∧
       steps (db (at_ completed)) !! 7%N = Some x.
Proof.
  destruct (steps (db (at_ half_done)) !! 7%N) as [x|] eqn:Hx; [|vm_compute in Hx; discriminate].
  assert (Step.Status x = StepCompleted) as Est by (vm_compute in Hx; injection Hx as <-; reflexivity).
  assert (rtc sys_step (at_ half_done, []) (at_ completed, [])) as Hsteps.
  { unfold completed. apply at_app. repeat constructor. }
  destruct (proj1 (final_is_final demo_unique _ _ half_done_reachable Hsteps) 7%N x Hx)
    as (x' & Hx' & Hfin).
  exists x. split_and!; [reflexivity|exact Est|].
  rewrite (Hfin ltac:(rewrite Est; reflexivity)) in Hx'. exact Hx'.
Defined.

(** * Progress *)

(** C8.  An unfinished run is driven: in every reachable state, if the run has no
    [signal_wait] step and none of its expired attempts is stranded (given up by its reaper,
    whose transaction failed or whose process stopped, see Findings.v), then the run
    has a task attempt that is QUEUED, one that is LEASED, one that is EXPIRED and in the hands
    of a reaper, or a PENDING timer that retries one of its RETRY_BACKOFF steps. *)
Theorem never_stuck {E : Env} {St : Store} {L : StoreLaws St} (Hu : uuid_unique) w fl rid run :
  reachable (w, fl) → runs (db w) !! rid = Some run →
  RunTerminal (WorkflowRun.Status run) = false →
  every_step (db w) rid (λ s, Step.TaskType s ≠ "signal_wait") →
  none_stranded fl rid →
  (∃ id a, attempts (db w) !! id = Some a ∧ TaskAttempt.WorkflowRunID a = rid ∧
     (TaskAttempt.Status a = AttemptQueued ∨ TaskAttempt.Status a = AttemptLeased ∨
      TaskAttempt.Status a = AttemptExpired ∧ (a, Held) ∈ fl)) ∨
  (∃ id t sid s, timers (db w) !! id = Some t ∧ Timer.Kind t = TimerRetryBackoff ∧
     Timer.Status t = TimerPending ∧ Timer.StepID t = Some sid ∧
     steps (db w) !! sid = Some s ∧ Step.WorkflowRunID s = rid ∧
     Step.Status s = StepRetryBackoff).
Proof.
  intros Hr Hrun Hnt Hnosig Hns. pose proof (reachable_Inv Hu _ Hr) as Hinv. simpl in Hinv.
  destruct (reachable_lively Hu _ Hr rid run Hrun Hnt Hnosig) as (sid & s & Hs & Hsr & Hif).
  destruct (busy (Step.Status s)) eqn:Hb; [left|right].
  - destruct (ai_busy _ _ _ (inv_att _ Hinv) sid s Hs Hb) as (id & a & Ha & Hsid & _ & Hl).
    destruct (ai_step _ _ _ (inv_att _ Hinv) id a Ha) as (s' & Hs' & Er & _). simpl in *.
    rewrite Hsid, Hs in Hs'. injection Hs' as <-. rewrite Hsr in Er.
    exists id, a. split_and!; [done|done|].
    destruct (proj2 (open_attempt Hu w fl id a sid Hr)) as (_ & _ & [?|[?|[Hst [x Hx]]]]); [done|auto..|].
    destruct x; [by auto|]. by destruct (Hns a Hx).
  - assert (Step.Status s = StepRetryBackoff) as Est.
    { destruct (Step.Status s) eqn:Est; try done. exfalso. apply (Hnosig sid s Hs Hsr).
      exact (si_wait _ (inv_steps _ Hinv) sid s Hs Est). }
    destruct (ti_retry _ _ _ _ (inv_timers _ Hinv) sid s Hs Est) as [?|(id & t & Ht & Hre)]; [done|].
    unfold retries in Hre. apply andb_true_iff in Hre as [[Ek Ep]%andb_true_iff Esid].
    apply bool_decide_eq_true in Ek, Ep, Esid. by exists id, t, sid, s.
Qed.

Lemma never_stuck_witness :
  ∃ id t sid s, timers (db (at_ retrying)) !! id = Some t ∧ Timer.Status t = TimerPending ∧
    Timer.StepID t = Some sid ∧ steps (db (at_ retrying)) !! sid = Some s ∧
    Step.Status s = StepRetryBackoff.
Proof.
  destruct (runs (db (at_ retrying)) !! 5%N) as [run|] eqn:Hrun; [|vm_compute in Hrun; discriminate].
  destruct (never_stuck demo_unique (at_ retrying) [] 5%N run retrying_reachable Hrun)
    as [(id & a & Ha & _ & Hcase)|(id & t & sid & s & Ht & _ & Ep & Esid & Hs & _ & Est)].
  - vm_compute in Hrun. injection Hrun as <-. reflexivity.
  - intros id s Hs _. revert id s Hs.
    apply (bool_decide_eq_true_1 (map_Forall (λ _ s, Step.TaskType s ≠ "signal_wait") _)).
    vm_compute. reflexivity.
  - intros a Ha. inversion Ha.
  - assert (map_Forall (λ _ a, TaskAttempt.Status a = AttemptFailed) (attempts (db (at_ retrying)))) as Hall.
    { apply (bool_decide_eq_true_1 (map_Forall (λ _ a, TaskAttempt.Status a = AttemptFailed) _)). vm_compute. reflexivity. }
    specialize (Hall id a Ha). simpl in Hall. rewrite Hall in Hcase.
    destruct Hcase as [Hc|[Hc|[Hc _]]]; discriminate.
  - exists id, t, sid, s. split_and!; assumption.
Defined.
End Guarantees.
