(* ===== verification/Behaviour.v ===== *)
(** What each operation does, on every branch, in every reachable state, for every store
    that obeys the laws of Contract.v. *)

From stdpp Require Import gmap strings list relations.
From S2P Require Import Prelude GoLib Json Types MemStore Dsl Engine Lifecycle.
From S2P Require Import LifecycleInv Worlds Contract MemSpec Reconcile EngineSpec EngineOps RunCreate.
From S2P Require Import System Liveness Demo.
Open Scope Z_scope.

Module Behaviour.
Import Lifecycle LifecycleInv Worlds Contract MemSpec Reconcile EngineSpec EngineOps RunCreate System Liveness Demo.

#[local] Existing Instances Memory.memory_store MemSpec.memory_laws.

(** The specification of an operation, at a reachable state. *)
Lemma reachable_wp {E : Env} {St : Store} {L : StoreLaws St} (Hu : uuid_unique) {A} (m : GoM World A) (Q : Cfg → outcome A → World → Prop) w fl r w' :
  reachable (w, fl) →
  (∀ c0, good c0 (owing fl) None w → wp m (Q c0) w) → m w = (r, w') →
  Q (mkCfg (db w) (owing fl) None) r w'.
Proof.
  intros Hr Hwp Hrun. eapply wp_run; [|exact Hrun]. apply Hwp. exact (reachable_good Hu _ Hr).
Qed.

Lemma exec_drop {A} (m : GoM World A) w r w' : m w = (r, w') → (drop m w).2 = w'.
Proof.
  intros Hm. unfold drop, mbind, GoM_bind. rewrite Hm. by destruct r.
Qed.

(** * Claims and results *)

(** A task attempt is claimed at most once: after a claim succeeded, any later
    claim of the same attempt, by any worker and with any key, is answered
    ALREADY_CLAIMED, or with an error of the store, and changes nothing, in every
    continuation of the execution. *)
Theorem claim_once {E : Env} {St : Store} {L : StoreLaws St} (Hu : uuid_unique) w fl id key worker
    lease a w1 w2 fl2 key' worker' lease' r w3 :
  reachable (w, fl) →
  ClaimTaskAttempt id key worker lease w = (Ok (Some a, ClaimOK), w1) →
  rtc sys_step (w1, fl) (w2, fl2) →
  ClaimTaskAttempt id key' worker' lease' w2 = (r, w3) →
  db w3 = db w2 ∧
  match r with Ok (_, res) => res = ClaimAlreadyClaimed | Err _ => may_fail end.
Proof.
  intros Hr Hc Hs Hc'.
  assert (reachable (w1, fl)) as Hr1.
  { eapply rtc_r; [exact Hr|]. rewrite <-(exec_drop _ _ _ _ Hc).
    by apply (Sys_request (Claim id key worker lease)). }
  destruct (reachable_wp Hu _ _ _ _ _ _ Hr (λ c0, wp_ClaimTaskAttempt c0 _ _ _ _ _ _) Hc) as [_ Hp].
  unfold claimed_post in Hp.
  destruct (attempts (db w) !! id) as [a0|]; [|by destruct Hp]. case_match; [|by destruct Hp].
  destruct Hp as (a1 & [= <-] & _ & Hl & Hdb).
  destruct (ev_attempts _ _ (steps_evolve Hu _ _ Hr1 Hs) id a) as (a2 & Ha2 & Hev).
  { simpl. rewrite Hdb. simpl. by rewrite lookup_insert_eq. }
  assert (TaskAttempt.Status a2 ≠ AttemptQueued) as Hnq.
  { apply (ae_claimed _ _ Hev). by rewrite (leased_by_status _ _ Hl). }
  pose proof (reachable_wp Hu _ _ _ _ _ _ (rtc_trans _ _ _ Hr1 Hs)
    (λ c0, wp_ClaimTaskAttempt c0 _ _ _ _ _ _) Hc') as Hp2.
  destruct r as [[ao res]|e]; simpl in Hp2; [|by destruct Hp2 as (? & ? & _)].
  destruct Hp2 as [_ Hp2]. unfold claimed_post in Hp2. simpl in Ha2. rewrite Ha2 in Hp2.
  rewrite bool_decide_eq_false_2 in Hp2 by done. destruct Hp2 as [[= _ ->] ?]. done.
Qed.

Lemma claim_once_witness :
  ∃ a', (ClaimTaskAttempt 15 16 "w2" 30 (at_ claimed)).1 = Ok (a', ClaimAlreadyClaimed) ∧
        db (ClaimTaskAttempt 15 16 "w2" 30 (at_ claimed)).2 = db (at_ claimed).
Proof.
  destruct (ClaimTaskAttempt 15%N 16%N "w1" 30 (at_ created)) as [r w1] eqn:Hc.
  assert (∃ a, r = Ok (Some a, ClaimOK)) as [a Er].
  { assert (r = (ClaimTaskAttempt 15%N 16%N "w1" 30 (at_ created)).1) as -> by (rewrite Hc; reflexivity).
    eexists. vm_compute. reflexivity. }
  rewrite Er in Hc. destruct (ClaimTaskAttempt 15%N 16%N "w2" 30 (at_ claimed)) as [r3 w3] eqn:Hc3.
  destruct (claim_once demo_unique (at_ created) [] 15%N 16%N "w1" 30 a w1 (at_ claimed) []
    16%N "w2" 30 r3 w3 created_reachable Hc) as [Hdb Hres]; [|exact Hc3|].
  - eapply rtc_l; [apply (Sys_request (MarkRunning 7)); exact I|].
    assert ((exec (MarkRunning 7) w1).2 = at_ claimed) as ->; [|apply rtc_refl].
    unfold at_, claimed. rewrite run_all_app. change (run_all created init.1) with (at_ created).
    cbn [run_all exec]. rewrite (exec_drop _ _ _ _ Hc). reflexivity.
  - destruct r3 as [[a' res]|e]; [|destruct Hres]. exists a'. rewrite Hres. split; [reflexivity|exact Hdb].
Defined.

(** A result is accepted at most once: after a report was accepted, no later
    report for the same attempt is accepted in any continuation of the execution;
    it is rejected, or answered with an error of the store, and changes no row. *)
Theorem report_once {E : Env} {St : Store} {L : StoreLaws St} (Hu : uuid_unique) w fl id worker
    success out err w1 w2 fl2 worker' success' out' err' r w3 :
  reachable (w, fl) →
  Engine.HandleTaskResult id worker success out err w = (Ok true, w1) →
  rtc sys_step (w1, fl) (w2, fl2) →
  Engine.HandleTaskResult id worker' success' out' err' w2 = (r, w3) →
  unchanged w2 w3 ∧
  match r with Ok accepted => accepted = false ∧ db w3 = db w2 | Err _ => may_fail end.
Proof.
  intros Hr Hc Hs Hc'.
  assert (reachable (w1, fl)) as Hr1.
  { eapply rtc_r; [exact Hr|]. rewrite <-(exec_drop _ _ _ _ Hc).
    by apply (Sys_request (Report id worker success out err)). }
  destruct (reachable_wp Hu _ _ _ _ _ _ Hr (λ c0, wp_HandleTaskResult Hu c0 _ _ _ _ _ _ _) Hc)
    as [_ [_ (a & a' & _ & _ & _ & Est & _ & _ & _ & Ha' & _)]].
  destruct (ev_attempts _ _ (steps_evolve Hu _ _ Hr1 Hs) id a' Ha') as (a2 & Ha2 & Hev).
  rewrite (ae_final _ _ Hev) in Ha2 by (rewrite Est; by destruct success). simpl in Ha2.
  assert (¬ holds_lease w2 id worker') as Hno.
  { intros (b & Hb & El%leased_by_status). rewrite Ha2 in Hb. injection Hb as <-.
    rewrite Est in El. by destruct success. }
  pose proof (reachable_wp Hu _ _ _ _ _ _ (rtc_trans _ _ _ Hr1 Hs)
    (λ c0, wp_HandleTaskResult Hu c0 _ _ _ _ _ _ _) Hc') as Hp.
  assert (∀ acc, result_post (mkCfg (db w2) (owing fl2) None) (owing fl2) id worker' success' w2 acc w3 →
    acc = false ∧ db w3 = db w2) as Hrej by (intros [] [_ [? ?]]; done).
  destruct r as [acc|e]; simpl in Hp; [apply Hrej in Hp as [-> Hdb]; auto using still_unchanged|].
  destruct Hp as [[Hm [[acc Hp]|Hroll]]|[]]; (split; [|exact Hm]).
  - by apply still_unchanged, (Hrej acc).
  - by apply rolled_unchanged.
Qed.

Lemma report_once_witness :
  ∃ w1 w2, Engine.HandleTaskResult 15 "w1" true None None (at_ claimed) = (Ok true, w1) ∧
        Engine.HandleTaskResult 15 "w1" true None None w1 = (Ok false, w2) ∧ db w2 = db w1.
Proof.
  destruct (Engine.HandleTaskResult 15%N "w1" true None None (at_ claimed)) as [r w1] eqn:Hc.
  assert (r = Ok true) as Er.
  { assert (r = (Engine.HandleTaskResult 15%N "w1" true None None (at_ claimed)).1) as ->
      by (rewrite Hc; reflexivity). vm_compute. reflexivity. }
  rewrite Er in Hc |- *. destruct (Engine.HandleTaskResult 15%N "w1" true None None w1) as [r2 w2] eqn:Hc2.
  exists w1, w2. split; [reflexivity|].
  destruct (report_once demo_unique (at_ claimed) [] 15%N "w1" true None None w1 w1 []
           "w1" true None None r2 w2 claimed_reachable Hc (rtc_refl _ _) Hc2) as [_ Hres].
  destruct r2 as [acc|e]; [|destruct Hres]. destruct Hres as [-> Hdb]. split; [exact Hc2|exact Hdb].
Defined.

(** The status of a step after the result of its current attempt. *)
Definition after_result (success : bool) (s : Step.t) : StepStatus :=
  if success then StepCompleted
  else if Step.AttemptCount s <? Step.MaxAttempts s then StepRetryBackoff
  else StepFailed.

Lemma outcome_after_result success s :
  outcome_status (if success : bool then AttemptSucceeded else AttemptFailed) s = after_result success s.
Proof. by destruct success. Qed.

(** Accepting the result of attempt [id] from [w] to [w']. *)
Definition accepted (w : World) (id : uuid) (worker : string) (success : bool) (w' : World) : Prop :=
  holds_lease w id worker ∧
  ∃ a s a' s', attempts (db w) !! id = Some a ∧ steps (db w) !! TaskAttempt.StepID a = Some s ∧
     attempts (db w') !! id = Some a' ∧
     TaskAttempt.Status a' = (if success then AttemptSucceeded else AttemptFailed) ∧
     steps (db w') !! TaskAttempt.StepID a = Some s' ∧
     Step.AttemptCount s' = Step.AttemptCount s ∧
     Step.Status s' = (if busy (Step.Status s) then after_result success s else Step.Status s) ∧
     local_to (TaskAttempt.WorkflowRunID a) (db w) (db w').

(** What reporting the result of attempt [id] does when it is answered [r]. *)
Definition reported {E : Env} {St : Store} {L : StoreLaws St} (w : World) (id : uuid)
    (worker : string) (success : bool) (r : outcome bool) (w' : World) : Prop :=
  match r with
  | Ok true => accepted w id worker success w'
  | Ok false => ¬ holds_lease w id worker ∧ db w' = db w
  | Err _ => may_fail ∧ (accepted w id worker success w' ∨ unchanged w w')
  end.

Lemma result_post_accepted {E : Env} c0 o w id worker success w' :
  result_post c0 o id worker success w true w' → accepted w id worker success w'.
Proof.
  intros [Hg [Hh (a & a' & wm & Ha & Hsame & Est & Hdb & Hid & Hgm & Ha' & Hout)]]. split; [done|].
  destruct (outcome_effect _ _ a' wm w' Hgm) as (s & s' & Hs & Hs' & _ & Es & Ec & Hl);
    [rewrite Hid; set_solver|by rewrite Hdb, Hid; simpl; rewrite lookup_insert_eq|done|].
  rewrite Hdb in Hs. simpl in Hs. rewrite (at_step _ _ Hsame), ?(at_run _ _ Hsame) in *.
  exists a, s, a', s'. split_and!; try done.
  - rewrite Es. unfold settled_status. by rewrite Est, outcome_after_result.
  - transitivity (db wm); [|done]. rewrite Hdb. split; simpl; [done|done| |done].
    intros i b Hne. apply (insert_other _ _ a _ TaskAttempt.WorkflowRunID (TaskAttempt.WorkflowRunID a));
      [done|done|apply (at_run _ _ Hsame)|done].
Qed.

Lemma HandleTaskResult_spec {E : Env} {St : Store} {L : StoreLaws St} (Hu : uuid_unique) w fl id
    worker success out err r w' :
  reachable (w, fl) → Engine.HandleTaskResult id worker success out err w = (r, w') →
  reported w id worker success r w'.
Proof.
  intros Hr Hc.
  pose proof (reachable_wp Hu _ _ _ _ _ _ Hr (λ c0, wp_HandleTaskResult Hu c0 _ _ _ _ _ _ _) Hc) as Hp.
  destruct r as [[]|e]; unfold tx_post, post in Hp; [exact (result_post_accepted _ _ _ _ _ _ _ Hp)|apply Hp|].
  destruct Hp as [[Hm [[acc Hp]|Hroll]]|[]]; [destruct acc|]; (split; [exact Hm|]).
  - left. exact (result_post_accepted _ _ _ _ _ _ _ Hp).
  - right. destruct Hp as (_ & _ & Hdb). exact (still_unchanged _ _ Hdb).
  - right. exact (rolled_unchanged _ _ Hroll).
Qed.

(** C15.  Reporting a result is accepted exactly when the worker holds the lease, and is
    otherwise without any effect.  When accepted, the attempt becomes SUCCEEDED or
    FAILED, a busy step becomes COMPLETED, RETRY_BACKOFF while attempts remain, or
    FAILED, a cancelled step stays as it is, and only rows of that run change.  It is
    answered with an error only by a store that may fail, and then either all of this
    was done or no row has changed. *)
Theorem report_effect {E : Env} {St : Store} {L : StoreLaws St} (Hu : uuid_unique) w fl id worker
    success out err r w' :
  reachable (w, fl) → Engine.HandleTaskResult id worker success out err w = (r, w') →
  reported w id worker success r w'.
Proof. exact (HandleTaskResult_spec Hu w fl id worker success out err r w'). Qed.

Lemma report_effect_witness :
  ∃ w' a' s', Engine.HandleTaskResult 15 "w1" false None None (at_ claimed) = (Ok true, w') ∧
    attempts (db w') !! 15%N = Some a' ∧ TaskAttempt.Status a' = AttemptFailed ∧
    steps (db w') !! 7%N = Some s' ∧ Step.Status s' = StepRetryBackoff.
Proof.
  destruct (Engine.HandleTaskResult 15%N "w1" false None None (at_ claimed)) as [r w'] eqn:Hc.
  assert (r = Ok true) as Er.
  { assert (r = (Engine.HandleTaskResult 15%N "w1" false None None (at_ claimed)).1) as ->
      by (rewrite Hc; reflexivity). vm_compute. reflexivity. }
  pose proof (report_effect demo_unique (at_ claimed) [] 15%N "w1" false None None r w'
    claimed_reachable Hc) as H. rewrite Er in H.
  destruct H as (_ & a & s & a' & s' & Ha & Hs & Ha' & Ea & Hs' & _ & Es & _).
  vm_compute in Ha. injection Ha as <-. vm_compute in Hs. injection Hs as <-.
  exists w', a', s'. rewrite Er. split_and!; [reflexivity|exact Ha'|exact Ea|exact Hs'|].
  rewrite Es. reflexivity.
Defined.

(** * DAG evaluation *)

(** C17.  [propagateSkips] terminates within its pass bound and is exact: started on
    the steps of an unfinished run in any consistent state it returns (without error,
    if the store does not fail) the run state in which precisely the unstarted steps
    that depend, directly or through other unstarted steps, on a FAILED, SKIPPED or
    CANCELLED step are SKIPPED. *)
Theorem skips_exact {E : Env} {St : Store} {L : StoreLaws St} w rid run l w1 :
  consistent w → runs (db w) !! rid = Some run → GetSteps rid w = (Ok l, w1) →
  ∃ r w', Engine.propagateSkips run (Engine.newRunState l) w1 = (r, w') ∧
    match r with
    | Err _ => may_fail
    | Ok rs' => ∀ name,
        (doomed (Engine.newRunState l) name →
           ∃ s, Engine.newRunState l !! name = Some s ∧
                rs' !! name = Some (Engine.set_Status s StepSkipped)) ∧
        (¬ doomed (Engine.newRunState l) name →
           rs' !! name = Engine.newRunState l !! name)
    end.
Proof.
  intros (o & Hg)%consistent_good Hrun Hget.
  pose proof (wp_run _ _ _ _ _ (wp_steady _ _ _ (law_steady _ (Q_Read _ (R_GetSteps rid))) (law_GetSteps rid w)) Hget)
    as [[Hdb Hl] Ht].
  pose proof (ri_key _ _ (inv_runs _ (g_inv _ _ _ _ Hg)) _ _ Hrun) as Hid.
  assert (view (mkCfg (db w) o None) o rid None (db w) (WorkflowRun.Status run)
            (Engine.newRunState l) w1) as Hv.
  { split; [by eapply good_still| |unfold run_status; by rewrite Hdb, Hrun|by rewrite Hdb].
    rewrite Hdb. apply agree_newRunState; [apply (inv_steps _ (g_inv _ _ _ _ Hg))|done]. }
  pose proof (wp_propagateSkips _ _ rid run Hid _ _ _ _ _ Hv) as Hwp. unfold wp in Hwp.
  destruct (Engine.propagateSkips _ _ _) as [[rs'|e] w']; simpl in Hwp; eexists _, _; (split; [done|]);
    [|done]. apply Hwp.
Qed.

(** [store] is unstarted and depends on the failed step [fetch]. *)
Lemma skips_exact_witness :
  ∃ run l w1 rs' w' s, GetSteps 5 (failing (at_ last_try)) = (Ok l, w1) ∧
    Engine.propagateSkips run (Engine.newRunState l) w1 = (Ok rs', w') ∧
    Engine.newRunState l !! "store" = Some s ∧ Step.Status s = StepPending ∧
    rs' !! "store" = Some (Engine.set_Status s StepSkipped).
Proof.
  destruct (runs (db (failing (at_ last_try))) !! 5%N) as [run|] eqn:Hrun; [|vm_compute in Hrun; discriminate].
  destruct (GetSteps 5%N (failing (at_ last_try))) as [r w1] eqn:Hg.
  destruct r as [l|e]; [|exfalso; vm_compute in Hg; discriminate].
  destruct (skips_exact (failing (at_ last_try)) 5%N run l w1 failing_consistent Hrun Hg)
    as (r' & w' & Hp & Hspec).
  destruct r' as [rs'|e]; [|destruct Hspec].
  destruct (Hspec "store") as [Hd _].
  assert (l = match (GetSteps 5%N (failing (at_ last_try))).1 with Ok l => l | _ => [] end) as El
    by (rewrite Hg; reflexivity).
  vm_compute in El.
  assert (doomed (Engine.newRunState l) "store") as Hdoom.
  { rewrite El. eapply (Doomed_dead _ "store" _ "fetch");
      [vm_compute; reflexivity|reflexivity|constructor|vm_compute; reflexivity|reflexivity]. }
  destruct (Hd Hdoom) as (s & Hs & Hs').
  exists run, l, w1, rs', w', s. split_and!; [reflexivity|exact Hp|exact Hs| |exact Hs'].
  rewrite El in Hs. vm_compute in Hs. injection Hs as <-. reflexivity.
Defined.

(** The facts [Reconcile] leaves behind. *)
Lemma reconciled_view {E : Env} {St : Store} {L : StoreLaws St} (Hu : uuid_unique) w rid run r w' :
  consistent w → runs (db w) !! rid = Some run → RunTerminal (WorkflowRun.Status run) = false →
  Engine.Reconcile rid w = (r, w') →
  tx_post (λ _ w', ∃ o rs rs', agree rs rid (steps (db w)) ∧ reconciled rs rs' ∧
    view (mkCfg (db w) o None) o rid None (db w)
      (next_status (WorkflowRun.Status run) rs') rs' w') no_error w r w'.
Proof.
  intros (o & Hg)%consistent_good Hrun Hnt Hrec. eapply tx_post_mono.
  - exact (wp_run _ _ _ _ _ (wp_Reconcile Hu _ _ rid w Hg) Hrec).
  - intros _ (st & Hst & Hpost). unfold run_status in Hst. rewrite Hrun in Hst. injection Hst as <-.
    exists o. unfold reconcile_post in Hpost. rewrite Hnt in Hpost. naive_solver.
  - intros e [Hno _]. unfold run_status in Hno. by rewrite Hrun in Hno.
Qed.

(** The local copy of a row of the run. *)
Lemma agree_copy rs rid ss id row :
  agree rs rid ss → ss !! id = Some row → Step.WorkflowRunID row = rid →
  ∃ s, rs !! Step.StepName row = Some s ∧ Step.ID s = id ∧ agrees s row.
Proof.
  intros Ha Hrow Hr. destruct (ar_all _ _ _ Ha id row Hrow Hr) as (s & Hs & Eid).
  destruct (ar_row _ _ _ Ha _ s Hs) as (_ & _ & row0 & Hrow0 & Hag). rewrite Eid in Hrow0.
  simplify_eq. eauto.
Qed.

(** C16.  What [Reconcile] of an unfinished run, in any consistent state, leaves behind:
    afterwards no unstarted step of the run has a FAILED, SKIPPED or CANCELLED dependency,
    and the only unstarted steps with all dependencies COMPLETED are those that depend on a
    [signal_wait] step which was itself unstarted before the call (and which a signal that
    came early has completed within it; see Findings.v).  It is answered with an error only by a store that may fail, and then either this holds
    all the same or no row has changed. *)
Theorem reconcile_complete {E : Env} {St : Store} {L : StoreLaws St} (Hu : uuid_unique) w rid run r w' :
  consistent w → runs (db w) !! rid = Some run → RunTerminal (WorkflowRun.Status run) = false →
  Engine.Reconcile rid w = (r, w') →
  tx_post (λ _ w', every_step (db w') rid (λ s, fresh_status (Step.Status s) = true →
      ¬ dep_blocked (steps (db w')) s ∧
      (deps_completed (steps (db w')) s →
         some_step (db w) rid (λ d, Step.StepName d ∈ Step.DependsOn s ∧
           Step.TaskType d = "signal_wait" ∧ fresh_status (Step.Status d) = true)))) no_error w r w'.
Proof.
  intros Hr Hrun Hnt Hrec. eapply tx_post_mono; [by eapply reconciled_view|intros ?; cbn beta|done].
  intros (o & rs & rs' & Ha & Hrecd & Hv) id s Hs Hsr Hf.
  pose proof (v_agree _ _ _ _ _ _ _ _ Hv) as Ha'.
  pose proof (inv_steps _ (g_inv _ _ _ _ (v_good _ _ _ _ _ _ _ _ Hv))) as Hinv. simpl in Hinv.
  destruct (agree_copy _ _ _ _ _ Ha' Hs Hsr) as (c & Hc & Eid & Hag).
  destruct (ar_row _ _ _ Ha' _ c Hc) as (Hcr & _ & _).
  assert (Engine.undispatched c = true) as Hund.
  { unfold Engine.undispatched. rewrite <-(ag_status _ _ Hag). by destruct (Step.Status s). }
  destruct (reconciled_complete rs rs' _ c Hrecd Hc Hund) as [Hb Hready]. split.
  - intros Hbl. apply (blocked_dep _ _ _ Ha' c s (si_key _ Hinv) Hag Hcr) in Hbl. congruence.
  - intros Hd. apply (ready_deps _ _ _ Ha' c s (si_key _ Hinv) Hag Hcr) in Hd.
    destruct (Hready Hd) as (dep & Hdep & d & d' & Hd0 & Hdu & Hdt & _).
    destruct (ar_row _ _ _ Ha dep d Hd0) as (Hdr & Hdn & row & Hrow & Hagd).
    exists (Step.ID d), row. split; [done|].
    rewrite (st_run _ _ (ag_same _ _ Hagd)), (st_name _ _ (ag_same _ _ Hagd)),
      (st_type _ _ (ag_same _ _ Hagd)), Hdn, (st_deps _ _ (ag_same _ _ Hag)).
    split_and!; [done|done|exact Hdt|]. by eapply undispatched_fresh.
Qed.

Lemma reconcile_complete_witness :
  ∃ w' s, Engine.Reconcile 5 (at_ claimed) = (Ok tt, w') ∧
    steps (db w') !! 9%N = Some s ∧ Step.Status s = StepPending ∧ ¬ dep_blocked (steps (db w')) s.
Proof.
  destruct (runs (db (at_ claimed)) !! 5%N) as [run|] eqn:Hrun; [|vm_compute in Hrun; discriminate].
  destruct (Engine.Reconcile 5%N (at_ claimed)) as [r w'] eqn:Hc.
  pose proof (reconcile_complete demo_unique (at_ claimed) 5%N run r w'
    (good_consistent _ _ _ (reachable_good demo_unique _ claimed_reachable)) Hrun
    ltac:(vm_compute in Hrun; injection Hrun as <-; reflexivity) Hc) as Hall.
  assert (w' = (Engine.Reconcile 5%N (at_ claimed)).2) as Ew by (rewrite Hc; reflexivity).
  destruct r as [[]|e]; [|destruct Hall as [[[] _]|[]]].
  destruct (steps (db w') !! 9%N) as [s|] eqn:Hs; [|exfalso; rewrite Ew in Hs; vm_compute in Hs; discriminate].
  assert (Step.Status s = StepPending ∧ Step.WorkflowRunID s = 5%N) as [Est Erun].
  { rewrite Ew in Hs. vm_compute in Hs. injection Hs as <-. split; reflexivity. }
  exists w', s. split_and!; [reflexivity|exact Hs|exact Est|].
  apply (Hall 9%N s Hs Erun). rewrite Est. reflexivity.
Defined.

(** [Reconcile] of an unfinished run, in any consistent state, decides the run:
    afterwards it is finished exactly when all its steps are terminal (with the verdict
    of [run_verdict]), and when it has no [signal_wait] step and is not finished, some step is
    QUEUED, RUNNING, RETRY_BACKOFF or WAITING, so the run cannot be stuck.
    Errors are as for [reconcile_complete]. *)
Theorem reconcile_progress {E : Env} {St : Store} {L : StoreLaws St} (Hu : uuid_unique) w rid run r w' :
  consistent w → runs (db w) !! rid = Some run → RunTerminal (WorkflowRun.Status run) = false →
  Engine.Reconcile rid w = (r, w') →
  tx_post (λ _ w', ∃ run', runs (db w') !! rid = Some run' ∧
    (RunTerminal (WorkflowRun.Status run') = true ↔
       every_step (db w') rid (λ s, StepTerminal (Step.Status s) = true)) ∧
    (every_step (db w') rid (λ s, Step.TaskType s ≠ "signal_wait") →
     RunTerminal (WorkflowRun.Status run') = false →
     some_step (db w') rid (λ s, in_flight (Step.Status s) = true))) no_error w r w'.
Proof.
  intros Hr Hrun Hnt Hrec. eapply tx_post_mono; [by eapply reconciled_view|intros ?; cbn beta|done].
  intros (o & rs & rs' & Ha & Hrecd & Hv).
  pose proof (v_agree _ _ _ _ _ _ _ _ Hv) as Ha'.
  destruct (view_terminal _ _ _ _ _ _ _ _ Hnt Hrecd Hv) as (run' & Hrun' & Eterm).
  exists run'. rewrite Eterm. split_and!; [done| |].
  - split; [by apply agree_terminal|]. intros Hall. apply allTerminal_true. intros n s Hs.
    destruct (agree_local_status rid rs' _ n s Ha' Hs) as (i & row & Hrow & Hrr & <-). by eapply Hall.
  - intros Hnosig Hnall. rewrite <-Eterm in Hnall.
    exact (view_lively _ _ _ _ _ _ _ _ Hnt Hrecd Hv run' Hrun' Hnall Hnosig).
Qed.

Lemma reconcile_progress_witness :
  ∃ w' run', Engine.Reconcile 5 (failing (at_ last_try)) = (Ok tt, w') ∧
    runs (db w') !! 5%N = Some run' ∧ WorkflowRun.Status run' = RunFailed ∧
    every_step (db w') 5 (λ s, StepTerminal (Step.Status s) = true).
Proof.
  destruct (runs (db (failing (at_ last_try))) !! 5%N) as [run|] eqn:Hrun; [|vm_compute in Hrun; discriminate].
  destruct (Engine.Reconcile 5%N (failing (at_ last_try))) as [r w'] eqn:Hc.
  pose proof (reconcile_progress demo_unique (failing (at_ last_try)) 5%N run r w' failing_consistent Hrun
    ltac:(vm_compute in Hrun; injection Hrun as <-; reflexivity) Hc) as Hp.
  destruct r as [[]|e]; [|destruct Hp as [[[] _]|[]]].
  destruct Hp as (run' & Hrun' & Hiff & _).
  assert (WorkflowRun.Status run' = RunFailed) as Est.
  { assert (w' = (Engine.Reconcile 5%N (failing (at_ last_try))).2) as Ew by (rewrite Hc; reflexivity).
    rewrite Ew in Hrun'. vm_compute in Hrun'. injection Hrun' as <-. reflexivity. }
  exists w', run'. split_and!; [reflexivity|exact Hrun'|exact Est|].
  apply Hiff. rewrite Est. reflexivity.
Defined.
End Behaviour.
