(* ===== verification/Operations.v ===== *)
(** What the engine's entry points do to the state, on every branch: run creation
    and registration, cancellation, timers, lease reaping, and the errors that
    can occur. *)

From stdpp Require Import gmap strings list relations.
From S2P Require Import Prelude GoLib Json Types MemStore Dsl Engine Lifecycle.
From S2P Require Import LifecycleInv Worlds Contract MemSpec Reconcile EngineSpec EngineOps RunCreate.
From S2P Require Import System Liveness Demo.
Open Scope Z_scope.

Module Operations.
Import Lifecycle LifecycleInv Worlds Contract MemSpec Reconcile EngineSpec EngineOps RunCreate System Liveness Demo.

#[local] Existing Instances Memory.memory_store MemSpec.memory_laws.

(** * Creating a run *)

(** In a run state of PENDING steps nothing is doomed. *)
Lemma pending_not_doomed rs n :
  (∀ n s, rs !! n = Some s → Step.Status s = StepPending) → ¬ doomed rs n.
Proof.
  intros Hp. induction 1 as [name s dep d _ _ _ Hd Hdead|]; [|done].
  by rewrite (Hp dep d Hd) in Hdead.
Qed.

(** The first reconcile of a run: each step is as it was, QUEUED, WAITING, or a
    [signal_wait] step that is COMPLETED. *)
Lemma pending_reconciled rs rs' n s' :
  (∀ n s, rs !! n = Some s → Step.Status s = StepPending) → reconciled rs rs' →
  rs' !! n = Some s' →
  ∃ s, rs !! n = Some s ∧ same_step s' s ∧
    (s' = s ∨ Step.Status s' = StepQueued ∨ Step.Status s' = StepWaiting ∨
     Step.Status s' = StepCompleted ∧ Step.TaskType s = "signal_wait").
Proof.
  intros Hp (rs1 & Hsk & _ & rs2 & Hp1 & Hp2 & _) Hs'.
  specialize (Hp2 n). rewrite Hs' in Hp2. destruct (rs2 !! n) as [s2|] eqn:Es2; [|done].
  assert (rs !! n = Some s2) as Hs.
  { specialize (Hp1 n). rewrite Es2 in Hp1.
    rewrite (proj2 (Hsk n) (pending_not_doomed rs n Hp)) in Hp1.
    destruct (rs !! n) as [s|] eqn:Es; [|done]. destruct Hp1 as [->|[Hw _ _]]; [done|].
    unfold waiting in Hw. by rewrite (Hp n s Es) in Hw. }
  exists s2. split; [done|]. destruct Hp2 as [->|[_ Hsame Hto]]; [by auto using same_step_refl|].
  split; [done|]. destruct Hto as [?|[?|[? [E|?]]]]; auto. by rewrite (Hp n s2 Hs) in E.
Qed.

(** The steps of a new run, against the definition it was made from. *)
Definition instantiates {E : Env} {St : Store} {L : StoreLaws St} (s : Step.t) (spec : StepSpec.t)
    : Prop :=
  Step.StepName s = StepSpec.Name spec ∧ Step.TaskType s = StepSpec.Type_ spec ∧
  Step.DependsOn s = Workflowdsl.deps_of spec ∧ Step.MaxAttempts s = StepSpec.MaxAttempts spec ∧
  stored (StepSpec.Input spec) (Step.Input s).

Lemma instantiates_same {E : Env} {St : Store} {L : StoreLaws St} s' s spec : same_step s' s → instantiates s spec → instantiates s' spec.
Proof.
  unfold instantiates. intros [_ _ -> -> -> -> ->]. done.
Qed.

Section created.
Context {E : Env} {St : Store} {L : StoreLaws St}.
Context (c0 : Cfg) (o : gset uuid) (p : Definition_.t) (rid : uuid) (rows : list Step.t).
Context (d0 : Tables) (st : RunStatus) (rs' : gmap string Step.t) (w' : World).
Hypothesis (Hsane : Forall Workflowdsl.step_sane (Workflowdsl.steps_of p)).
Hypothesis (Hrows : new_rows p rid rows).
Hypothesis (Hrec : reconciled (Engine.newRunState rows) rs').
Hypothesis (Hv : view c0 o rid None d0 st rs' w').

#[local] Abbreviation rs := (Engine.newRunState rows).

Lemma created_row n s : rs !! n = Some s →
  ∃ spec, spec ∈ Workflowdsl.steps_of p ∧ instantiates s spec ∧ Step.Status s = StepPending.
Proof.
  intros [Hs _]%newRunState_Some. destruct (run_rows_spec p rid rows Hsane Hrows s Hs)
    as (spec & Hspec & _ & En & Ed & Est & _ & Em & Ei & Et & _). exists spec. by split_and!.
Qed.

Lemma created_pending n s : rs !! n = Some s → Step.Status s = StepPending.
Proof. intros Hs. by destruct (created_row n s Hs) as (? & _ & _ & ?). Qed.

(** Every row of the run, and what the reconcile made of it. *)
Lemma created_step id row :
  steps (db w') !! id = Some row → Step.WorkflowRunID row = rid →
  ∃ spec, spec ∈ Workflowdsl.steps_of p ∧ instantiates row spec ∧
    (fresh_status (Step.Status row) = true ∧ Step.DependsOn row ≠ [] ∨
     Step.Status row = StepQueued ∨ awaits_signal row).
Proof.
  intros Hrow Hrun. pose proof (v_agree _ _ _ _ _ _ _ _ Hv) as Ha.
  destruct (ar_all _ _ _ Ha id row Hrow Hrun) as (s' & Hs' & Eid).
  destruct (ar_row _ _ _ Ha _ s' Hs') as (_ & _ & row0 & Hrow0 & Hag). rewrite Eid in Hrow0.
  assert (row0 = row) as -> by congruence.
  destruct (pending_reconciled rs rs' _ s' created_pending Hrec Hs') as (s & Hs & Hsame & Hcase).
  destruct (created_row _ s Hs) as (spec & Hspec & Hinst & Est). exists spec.
  assert (same_step row s) as Hsame' by (eapply same_step_trans; [exact Hsame|apply Hag]).
  split_and!; [done|by eapply instantiates_same|]. rewrite (ag_status _ _ Hag).
  unfold awaits_signal. rewrite (st_type _ _ Hsame').
  destruct Hcase as [->|[?|[Ew|[_ ?]]]]; [left|by auto|right; right|by auto].
  - rewrite Est. split; [done|]. intros Hnil.
    assert (Engine.undispatched s = true) as Hund by (unfold Engine.undispatched; by rewrite Est).
    destruct (reconciled_complete rs rs' _ s Hrec Hs' Hund) as [_ Hready].
    rewrite (st_deps _ _ Hsame') in Hnil. destruct Hready as (dep & Hdep & _).
    + unfold Engine.ready. by rewrite Hnil.
    + rewrite Hnil in Hdep. by apply elem_of_nil in Hdep.
  - rewrite <-(st_type _ _ Hsame').
    apply (si_wait _ (inv_steps _ (g_inv _ _ _ _ (v_good _ _ _ _ _ _ _ _ Hv))) id); [done|].
    by rewrite (ag_status _ _ Hag).
Qed.

Lemma created_all spec : spec ∈ Workflowdsl.steps_of p →
  ∃ id row, steps (db w') !! id = Some row ∧ Step.WorkflowRunID row = rid ∧
            Step.StepName row = StepSpec.Name spec.
Proof.
  intros Hspec. destruct (run_rows_name p rid rows Hrows spec Hspec) as (s & Hs & <-).
  destruct (newRunState_in _ s Hs) as [t Ht].
  destruct Hrec as (rs1 & Hsk & _ & rs2 & Hp1 & Hp2 & _).
  rewrite <-(proj2 (Hsk _) (pending_not_doomed rs _ created_pending)) in Ht.
  specialize (Hp1 (Step.StepName s)). rewrite Ht in Hp1. destruct (rs2 !! _) as [t2|] eqn:E2; [|done].
  specialize (Hp2 (Step.StepName s)). rewrite E2 in Hp2. destruct (rs' !! _) as [t'|] eqn:E'; [|done].
  destruct (ar_row _ _ _ (v_agree _ _ _ _ _ _ _ _ Hv) _ t' E') as (Hr & Hn & row & Hrow & Hag).
  exists (Step.ID t'), row. rewrite (st_run _ _ (ag_same _ _ Hag)), (st_name _ _ (ag_same _ _ Hag)).
  done.
Qed.

(** Without [signal_wait] steps: the roots are QUEUED, the others unstarted. *)
Lemma created_status id row :
  (∀ spec, spec ∈ Workflowdsl.steps_of p → StepSpec.Type_ spec ≠ "signal_wait") →
  steps (db w') !! id = Some row → Step.WorkflowRunID row = rid →
  if decide (Step.DependsOn row = []) then Step.Status row = StepQueued
  else fresh_status (Step.Status row) = true.
Proof.
  intros Hno Hrow Hrun.
  assert (∀ i t, steps (db w') !! i = Some t → Step.WorkflowRunID t = rid → ¬ awaits_signal t) as Hnaw.
  { intros i t Ht Hr Haw. destruct (created_step i t Ht Hr) as (spec & Hspec & (_ & Et & _) & _).
    apply (Hno spec Hspec). by rewrite <-Et. }
  destruct (created_step id row Hrow Hrun) as (spec & _ & _ & [[Hf Hd]|[Hq|Haw]]).
  - by rewrite decide_False.
  - case_decide as Hd; [done|]. exfalso.
    destruct (Step.DependsOn row) as [|dep deps] eqn:Ed; [done|].
    pose proof (inv_steps _ (g_inv _ _ _ _ (v_good _ _ _ _ _ _ _ _ Hv))) as Hinv.
    destruct (si_deps _ Hinv id row Hrow) with dep as (i & t & Ht & Hr & _ & Hc);
      [by rewrite Hq|rewrite Ed; by constructor|]. rewrite Hrun in Hr. apply bool_decide_eq_true in Hc.
    destruct (created_step i t Ht Hr) as (_ & _ & _ & [[Hf _]|[Hq'|Haw]]);
      [by rewrite Hc in Hf|congruence|by eapply Hnaw].
  - by destruct (Hnaw id row Hrow Hrun).
Qed.
End created.

(** What creating [run] does, from [w] to [w']. *)
Definition created_from {E : Env} {St : Store} {L : StoreLaws St} (name : string) (version : Z)
    (w : World) (run : WorkflowRun.t) (w' : World) : Prop :=
  ∃ def p, denotes (db w) name version def ∧
    Workflowdsl.unmarshal_Definition (WorkflowDefinition.DAG def) = Some p ∧
    runs (db w) !! WorkflowRun.ID run = None ∧
    runs (db w') !! WorkflowRun.ID run = Some run ∧
    local_to (WorkflowRun.ID run) (db w) (db w') ∧
    (∀ spec, spec ∈ Workflowdsl.steps_of p →
       some_step (db w') (WorkflowRun.ID run) (λ s, Step.StepName s = StepSpec.Name spec)) ∧
    every_step (db w') (WorkflowRun.ID run) (λ s,
      (∃ spec, spec ∈ Workflowdsl.steps_of p ∧ instantiates s spec) ∧
      ((∀ spec, spec ∈ Workflowdsl.steps_of p → StepSpec.Type_ spec ≠ "signal_wait") →
       if decide (Step.DependsOn s = []) then Step.Status s = StepQueued
       else fresh_status (Step.Status s) = true)).

Lemma created_post_from {E : Env} {St : Store} {L : StoreLaws St} c0 o name version w run w' :
  created_post c0 o name version w run w' → created_from name version w run w'.
Proof.
  intros (_ & def & p & Hden & Hp & Hsane & Hrun' & r & rows & w1 & rs' & Hnew & _ & _ & _ & Hrows & Hl & Hrec & Hv).
  exists def, p. split_and!; try done.
  - etransitivity; [exact Hl|apply Hv].
  - intros spec Hspec. destruct (created_all _ _ p _ rows _ _ _ _ Hsane Hrows Hrec Hv spec Hspec)
      as (id & row & ? & ? & ?). by exists id, row.
  - intros id s Hs Hsr. split.
    + destruct (created_step _ _ p _ rows _ _ _ _ Hsane Hrows Hrec Hv id s Hs Hsr) as (spec & ? & ? & _). eauto.
    + intros Hno. by eapply (created_status _ _ p _ rows).
Qed.

(** C20.  Creating a run succeeds exactly when the name and version denote a registered
    definition, and otherwise fails with ErrNotFound and changes nothing.  On success
    the run is new, rows of other runs are untouched, its steps are exactly the steps
    of the definition, and, when none of them is a [signal_wait], the steps without
    dependencies are QUEUED and the others have not started.  A store that may fail may
    also answer with an error of its own; then the run was created all the same, or no
    row has changed. *)
Theorem create_effect {E : Env} {St : Store} {L : StoreLaws St} (Hu : uuid_unique) w fl name version
    input r w' :
  reachable (w, fl) → Engine.CreateRun name version input w = (r, w') →
  tx_post (created_from name version w)
    (λ e w', errors_Is e ErrNotFound = true ∧ (¬ ∃ def, denotes (db w) name version def) ∧
             db w' = db w) w r w'.
Proof.
  intros Hr Hrun. pose proof (reachable_good Hu _ Hr) as Hg. simpl in Hg.
  eapply tx_post_mono; [exact (wp_run _ _ _ _ _ (wp_CreateRun Hu _ _ name version input w Hg) Hrun)|..].
  - intros run. apply created_post_from.
  - intros e (Hdb & _ & He & Hno). done.
Qed.

(** The state after registering [etl]. *)
Definition registered_etl : list request := [Register etl].

Lemma registered_etl_reachable : reachable (at_ registered_etl, []).
Proof. apply run_all_reachable; [|apply rtc_refl]. apply etl_valid. constructor. Defined.

Lemma create_effect_witness :
  ∃ run w' s p spec, Engine.CreateRun "etl" 0 None (at_ registered_etl) = (Ok run, w') ∧
    runs (db w') !! WorkflowRun.ID run = Some run ∧
    steps (db w') !! 9%N = Some s ∧ spec ∈ Workflowdsl.steps_of p ∧ instantiates s spec.
Proof.
  destruct (Engine.CreateRun "etl" 0 None (at_ registered_etl)) as [r w'] eqn:Hc.
  pose proof (create_effect demo_unique (at_ registered_etl) [] "etl" 0 None r w'
    registered_etl_reachable Hc) as H.
  assert (r = (Engine.CreateRun "etl" 0 None (at_ registered_etl)).1 ∧
          w' = (Engine.CreateRun "etl" 0 None (at_ registered_etl)).2) as [Er Ew] by (rewrite Hc; split; reflexivity).
  destruct r as [run|e]; [|exfalso; vm_compute in Er; discriminate Er].
  destruct H as (def & p & _ & _ & _ & Hrun & _ & _ & Hall).
  destruct (steps (db w') !! 9%N) as [s|] eqn:Hs; [|exfalso; rewrite Ew in Hs; vm_compute in Hs; discriminate Hs].
  assert (Step.WorkflowRunID s = WorkflowRun.ID run) as Erun.
  { rewrite Ew in Hs. vm_compute in Hs. injection Hs as <-.
    vm_compute in Er. injection Er as ->. reflexivity. }
  destruct (proj1 (Hall 9%N s Hs Erun)) as (spec & Hspec & Hinst).
  exists run, w', s, p, spec. split_and!; [reflexivity|exact Hrun|exact Hs|exact Hspec|apply Hinst..].
Defined.

(** Registering a definition whose integers are machine integers succeeds exactly
    when it is well formed, has JSON-encodable inputs, and its name and (defaulted)
    version are not taken; then one definition is added that decodes to the validated
    definition (up to the form of the inputs), and nothing else changes.  A duplicate is
    reported as ErrConflict, and no failure changes anything. *)
Theorem register_effect {E : Env} {St : Store} {L : StoreLaws St} (Hu : uuid_unique) w fl d r w' :
  reachable (w, fl) → go_ints d → Engine.RegisterDefinition d w = (r, w') →
  match r with
  | Ok def =>
      Workflowdsl.WellFormed d ∧ WorkflowDefinition.Name def = Definition_.Name d ∧
      WorkflowDefinition.Version def = Workflowdsl.default_int (Definition_.Version d) 1 ∧
      ¬ registered (db w) (WorkflowDefinition.Name def) (WorkflowDefinition.Version def) ∧
      (∃ p, Workflowdsl.unmarshal_Definition (WorkflowDefinition.DAG def) = Some p ∧
            resembles (Workflowdsl.validated d) p) ∧
      db w' = set_definitions (insert (WorkflowDefinition.ID def) def) (db w)
  | Err e => db w' = db w ∧
      (may_fail ∨ (e = ErrConflict ↔ Workflowdsl.WellFormed d ∧
         (∃ j, Workflowdsl.ToJSON (Workflowdsl.validated d) = Some j) ∧
         registered (db w) (Definition_.Name d) (Workflowdsl.default_int (Definition_.Version d) 1)))
  end.
Proof.
  intros Hr Hi Hrun. pose proof (reachable_good Hu _ Hr) as Hg.
  pose proof (wp_run _ _ _ _ _ (wp_RegisterDefinition _ _ d w Hg Hi) Hrun) as Hpost.
  destruct r as [def|e]; simpl in Hpost; [|naive_solver].
  destruct Hpost as (_ & Hwf & En & Ev & Hno & (j & Hj & Hst) & Hdb). rewrite En, Ev.
  split_and!; [done..| |done]. by eapply registered_decodes.
Qed.

Lemma register_effect_witness :
  ∃ w', Engine.RegisterDefinition etl (at_ registered_etl) = (Err ErrConflict, w') ∧
        Workflowdsl.WellFormed etl ∧ db w' = db (at_ registered_etl).
Proof.
  destruct (Engine.RegisterDefinition etl (at_ registered_etl)) as [r w'] eqn:Hc.
  pose proof (register_effect demo_unique (at_ registered_etl) [] etl r w'
    registered_etl_reachable etl_ints Hc) as H.
  assert (r = (Engine.RegisterDefinition etl (at_ registered_etl)).1) as Er by (rewrite Hc; reflexivity).
  vm_compute in Er. rewrite Er in H |- *. exists w'. destruct H as [Hdb Hiff].
  destruct Hiff as [[]|Hiff]. split_and!; [reflexivity|apply Hiff; reflexivity|exact Hdb].
Defined.

(** * Cancelling a run *)

(** What cancelling the run [rid] does, from [w] to [w']. *)
Definition cancelled (rid : uuid) (w w' : World) : Prop :=
  ∃ run, runs (db w) !! rid = Some run ∧
    if RunTerminal (WorkflowRun.Status run) then db w' = db w
    else (∃ run', runs (db w') !! rid = Some run' ∧ WorkflowRun.Status run' = RunCancelled) ∧
         local_to rid (db w) (db w') ∧
         every_step (db w) rid (λ s, ∃ s', steps (db w') !! Step.ID s = Some s' ∧
           Step.Status s' = if StepTerminal (Step.Status s) then Step.Status s else StepCancelled).

(** C21.  Cancelling fails with ErrNotFound exactly on an unknown run and does nothing
    to a finished one; an unfinished run becomes CANCELLED, every step of it that was
    not terminal becomes CANCELLED, the other steps keep their status, and rows of
    other runs are untouched.  A store that may fail may also answer with an error of
    its own; then the run was cancelled all the same, or no row has changed. *)
Theorem cancel_effect {E : Env} {St : Store} {L : StoreLaws St} (Hu : uuid_unique) w fl rid r w' :
  reachable (w, fl) → Engine.CancelRun rid w = (r, w') →
  tx_post (λ _, cancelled rid w)
    (λ e w', runs (db w) !! rid = None ∧ e = ErrNotFound ∧ db w' = db w) w r w'.
Proof.
  intros Hr Hrun. pose proof (reachable_good Hu _ Hr) as Hg.
  eapply tx_post_mono; [exact (wp_run _ _ _ _ _ (wp_CancelRun _ _ rid w Hg) Hrun)|..].
  - intros _ [_ (st & Hst & Hc)]. unfold run_status in Hst.
    destruct (runs (db w) !! rid) as [run|] eqn:Er; [|done]. simpl in Hst. injection Hst as <-.
    exists run. split; [done|]. destruct (RunTerminal _); [done|].
    destruct Hc as (Hst & Hl & Hsteps). split_and!; [by apply run_exists|done|].
    intros id s Hs Hsr. rewrite (si_key _ (inv_steps _ (g_inv _ _ _ _ Hg)) id s Hs).
    destruct (Hsteps id s Hs Hsr) as (s' & Hs' & _ & Est). eauto.
  - intros e (Hn & He & Hdb & _). unfold run_status in Hn. by destruct (runs (db w) !! rid).
Qed.

Lemma cancel_effect_witness :
  ∃ w' s', Engine.CancelRun 5 (at_ half_done) = (Ok tt, w') ∧ steps (db w') !! 9%N = Some s' ∧
    Step.Status s' = StepCancelled.
Proof.
  destruct (Engine.CancelRun 5%N (at_ half_done)) as [r w'] eqn:Hc.
  pose proof (cancel_effect demo_unique (at_ half_done) [] 5%N r w' half_done_reachable Hc) as H.
  assert (r = (Engine.CancelRun 5%N (at_ half_done)).1) as Er by (rewrite Hc; reflexivity).
  vm_compute in Er. rewrite Er in H |- *. destruct H as (run & Hrun & H).
  assert (RunTerminal (WorkflowRun.Status run) = false) as Et
    by (vm_compute in Hrun; injection Hrun as <-; reflexivity).
  rewrite Et in H. destruct H as (_ & _ & Hall).
  destruct (steps (db (at_ half_done)) !! 9%N) as [s|] eqn:Hs; [|vm_compute in Hs; discriminate Hs].
  assert (Step.WorkflowRunID s = 5%N ∧ Step.ID s = 9%N ∧ StepTerminal (Step.Status s) = false)
    as (Erun & Eid & Est) by (vm_compute in Hs; injection Hs as <-; split_and!; reflexivity).
  destruct (Hall 9%N s Hs Erun) as (s' & Hs' & Est'). rewrite Eid in Hs'. rewrite Est in Est'.
  exists w', s'. split_and!; [reflexivity|exact Hs'|exact Est'].
Defined.
(** * Timers *)

(** After a successful [HandleFiredTimer] the timer is not PENDING. *)
Lemma fired_not_pending {E : Env} {St : Store} {L : StoreLaws St} c0 o tid t w w1 :
  timers (db w) !! tid = Some t → fired_post c0 o tid w w1 →
  ∃ t1, timers (db w1) !! tid = Some t1 ∧ Timer.Status t1 ≠ TimerPending.
Proof.
  intros Ht Hpost. unfold fired_post in Hpost. rewrite Ht in Hpost.
  case_bool_decide; [|rewrite Hpost; eauto]. destruct Hpost as (w2 & [n Hdb] & _ & Hev).
  destruct (ev_timers _ _ Hev tid (Memory.timer_with t TimerFired (Some n))) as (t1 & Ht1 & Hev1).
  { rewrite Hdb. simpl. by rewrite lookup_insert_eq. }
  exists t1. split; [done|]. by rewrite Hev1.
Qed.

(** A timer acts at most once: after [HandleFiredTimer] succeeded on it, every later
    call for the same timer succeeds, or fails with an error of the store, without any
    effect, in every continuation of the execution. *)
Theorem timer_once {E : Env} {St : Store} {L : StoreLaws St} (Hu : uuid_unique) w fl tid w1 w2 fl2 r w3 :
  reachable (w, fl) → Engine.HandleFiredTimer tid w = (Ok tt, w1) →
  is_Some (timers (db w) !! tid) → rtc sys_step (w1, fl) (w2, fl2) →
  Engine.HandleFiredTimer tid w2 = (r, w3) →
  unchanged w2 w3 ∧ match r with Ok _ => db w3 = db w2 | Err _ => may_fail end.
Proof.
  intros Hr Hrun [t Ht] Hs Hrun2.
  assert (reachable (w1, fl)) as Hr1.
  { eapply rtc_r; [exact Hr|]. assert (w1 = (exec (FireTimer tid) w).2) as ->
      by (change (w1 = (Engine.HandleFiredTimer tid w).2); by rewrite Hrun).
    by apply (Sys_request (FireTimer tid)). }
  pose proof (wp_run _ _ _ _ _ (wp_HandleFiredTimer Hu _ _ tid w (reachable_good Hu _ Hr)) Hrun) as [_ Hf].
  destruct (fired_not_pending _ _ _ _ _ _ Ht Hf) as (t1 & Ht1 & Hp1).
  destruct (ev_timers _ _ (steps_evolve Hu _ _ Hr1 Hs) tid t1 Ht1) as (t2 & Ht2 & Hev).
  simpl in Ht2. rewrite (Hev Hp1) in Ht2.
  assert (∀ c0 o, fired_post c0 o tid w2 w3 → db w3 = db w2) as Hsame.
  { intros c0 o Hp. unfold fired_post in Hp. by rewrite Ht2, bool_decide_eq_false_2 in Hp. }
  pose proof (wp_run _ _ _ _ _ (wp_HandleFiredTimer Hu _ _ tid w2
    (reachable_good Hu _ (rtc_trans _ _ _ Hr1 Hs))) Hrun2) as Hp.
  destruct r as [[]|e]; simpl in Hp.
  - destruct Hp as [_ Hp%Hsame]. auto using still_unchanged.
  - destruct Hp as [[Hm [[_ [_ Hp%Hsame]]|Hroll]]|[]]; auto using still_unchanged, rolled_unchanged.
Qed.

Lemma timer_once_witness :
  db (Engine.HandleFiredTimer 29 (at_ retried)).2 = db (at_ retried).
Proof.
  destruct (Engine.HandleFiredTimer 29%N (at_ retrying)) as [r w1] eqn:Hc.
  assert (r = (Engine.HandleFiredTimer 29%N (at_ retrying)).1) as Er by (rewrite Hc; reflexivity).
  vm_compute in Er. rewrite Er in Hc.
  destruct (Engine.HandleFiredTimer 29%N (at_ retried)) as [r3 w3] eqn:Hc3.
  destruct (timer_once demo_unique (at_ retrying) [] 29%N w1 (at_ retried) [] r3 w3 retrying_reachable Hc)
    as [_ Hdb]; [| |exact Hc3|].
  - destruct (timers (db (at_ retrying)) !! 29%N) as [t|] eqn:Ht; [exists t; reflexivity|].
    vm_compute in Ht. discriminate Ht.
  - assert (w1 = at_ retried) as ->; [|apply rtc_refl].
    unfold at_, Demo.retried. rewrite run_all_app. change (run_all retrying init.1) with (at_ retrying).
    cbn [run_all exec]. rewrite Hc. reflexivity.
  - destruct r3 as [[]|e]; [exact Hdb|destruct Hdb].
Defined.

(** A step dispatched again stays QUEUED through the reconcile that follows. *)
Lemma requeued {E : Env} c0 o rid st s w w1 w' :
  stepped c0 o rid None s (queued s) w w1 → reconcile_post c0 o rid st w1 w' →
  Step.WorkflowRunID s = rid →
  ∃ s', steps (db w') !! Step.ID s = Some s' ∧ Step.Status s' = StepQueued ∧
    Step.AttemptCount s' = Step.AttemptCount s + 1 ∧ local_to rid (db w) (db w').
Proof.
  intros Hsd Hrec Hr. destruct (sd_row _ _ _ _ _ _ _ _ Hsd) as (row & Hrow & Hag).
  pose proof (si_key _ (inv_steps _ (g_inv _ _ _ _ (sd_good _ _ _ _ _ _ _ _ Hsd)))) as Hkey.
  assert (steps (db w1) !! Step.ID s = Some row) as Hrow1 by (by rewrite Hrow, lookup_insert_eq).
  destruct (reconcile_keep_row _ _ _ _ _ _ _ row Hkey Hrec Hrow1) as (s' & Hs' & _ & Est & Ec).
  - by rewrite (st_run _ _ (ag_same _ _ Hag)).
  - by rewrite (ag_status _ _ Hag).
  - by rewrite (ag_status _ _ Hag).
  - exists s'. rewrite Est, Ec, (ag_status _ _ Hag), (ag_count _ _ Hag). split_and!; [done..|].
    etransitivity; [apply (sd_local _ _ _ _ _ _ _ _ Hsd)|by eapply reconcile_post_local].
Qed.

(** A step that was dispatched once more has a fresh live attempt. *)
Lemma new_attempt {E : Env} {St : Store} {L : StoreLaws St} (Hu : uuid_unique) w fl w' sid s s' :
  reachable (w, fl) → good (mkCfg (db w) (owing fl) None) (owing fl) None w' →
  steps (db w) !! sid = Some s → steps (db w') !! sid = Some s' →
  Step.Status s' = StepQueued → Step.AttemptCount s' = Step.AttemptCount s + 1 →
  ∃ aid a, attempts (db w) !! aid = None ∧ attempts (db w') !! aid = Some a ∧
    TaskAttempt.StepID a = sid ∧ TaskAttempt.AttemptNumber a = Step.AttemptCount s + 1 ∧
    live (TaskAttempt.Status a) = true.
Proof.
  intros Hr Hg' Hs Hs' Hq Hc. pose proof (reachable_good Hu _ Hr) as Hg. simpl in Hg.
  destruct (ai_busy _ _ _ (inv_att _ (g_inv _ _ _ _ Hg')) sid s' Hs') as (aid & a & Ha & Hsid & Hn & Hl);
    [by rewrite Hq|]. simpl in Ha, Hl.
  assert (attempts (db w) !! aid = None) as Hnew.
  { destruct (attempts (db w) !! aid) as [b|] eqn:Hb; [exfalso|done].
    destruct (ev_attempts _ _ (good_evolves _ _ _ _ (g_inv _ _ _ _ Hg) Hg') aid b Hb) as (a' & Ha' & Hev).
    rewrite Ha in Ha'. injection Ha' as <-. destruct (ae_same _ _ Hev) as [_ E1 _ E2 _ _].
    destruct (ai_step _ _ _ (inv_att _ (g_inv _ _ _ _ Hg)) aid b Hb) as (t & Ht & _ & Hle).
    simpl in Ht. rewrite <-E1, Hsid, Hs in Ht. injection Ht as <-. lia. }
  exists aid, a. split_and!; [done..|lia|]. destruct Hl as [?|Ho]; [done|exfalso].
  destruct (ai_owed _ _ _ (inv_att _ (g_inv _ _ _ _ Hg)) aid Ho) as (b & Hb & _). simpl in Hb. congruence.
Qed.

(** What firing the retry timer of the step [s] does, from [w] to [w']. *)
Definition retried_step (sid : uuid) (s : Step.t) (w w' : World) : Prop :=
  local_to (Step.WorkflowRunID s) (db w) (db w') ∧
  ∃ s', steps (db w') !! sid = Some s' ∧
    if decide (Step.Status s = StepRetryBackoff) then
      Step.Status s' = StepQueued ∧ Step.AttemptCount s' = Step.AttemptCount s + 1 ∧
      ∃ aid a, attempts (db w) !! aid = None ∧ attempts (db w') !! aid = Some a ∧
        TaskAttempt.StepID a = sid ∧ TaskAttempt.AttemptNumber a = Step.AttemptCount s + 1 ∧
        live (TaskAttempt.Status a) = true
    else s' = s.

(** A retry: when the retry timer of a step fires, a step still in RETRY_BACKOFF
    becomes QUEUED with its attempt counter one higher and a queued or leased attempt
    with that number, while a step that has moved on is left alone; only that run is
    touched, and only a store that may fail answers with an error, having done this or
    changed no row. *)
Theorem retry_effect {E : Env} {St : Store} {L : StoreLaws St} (Hu : uuid_unique) w fl tid t sid s r w' :
  reachable (w, fl) → timers (db w) !! tid = Some t → Timer.Kind t = TimerRetryBackoff →
  Timer.Status t = TimerPending → Timer.StepID t = Some sid → steps (db w) !! sid = Some s →
  Engine.HandleFiredTimer tid w = (r, w') → tx_post (λ _, retried_step sid s w) no_error w r w'.
Proof.
  intros Hr Ht Ek Ep Esid Hs Hrun. pose proof (reachable_good Hu _ Hr) as Hg. simpl in Hg.
  eapply tx_post_mono; [exact (wp_run _ _ _ _ _ (wp_HandleFiredTimer Hu _ _ tid w Hg) Hrun)| |done].
  intros _ [Hg' Hpost]. unfold fired_post in Hpost. rewrite Ht, bool_decide_eq_true_2 in Hpost by done.
  destruct Hpost as (w1 & [n Hdb] & Hcase & _). unfold handled_post in Hcase. rewrite Ek, Esid in Hcase.
  destruct (ti_step _ _ _ _ (inv_timers _ (g_inv _ _ _ _ Hg)) tid t sid Ht Esid) as (s0 & Hs0 & Er).
  simpl in Hs0. rewrite Hs in Hs0. injection Hs0 as <-. rewrite <-Er in Hcase.
  assert (steps (db w1) = steps (db w)) as Es1 by by rewrite Hdb.
  assert (local_to (Step.WorkflowRunID s) (db w) (db w1)) as Hl1 by (rewrite Hdb; by split).
  destruct Hcase as [Hret|[Hsame (s1 & r1 & Hs1 & Hr1 & Hno)]].
  - destruct Hret as (s1 & r1 & w2 & Hs1 & Est & _ & Hsd & Hrec).
    rewrite Es1, Hs in Hs1. injection Hs1 as <-.
    destruct (requeued _ _ _ _ s _ _ _ Hsd Hrec eq_refl) as (s' & Hs' & Es' & Ec' & Hl).
    rewrite (si_key _ (inv_steps _ (g_inv _ _ _ _ Hg)) sid s Hs) in Hs'.
    split; [by etransitivity|]. exists s'. rewrite decide_True by done. split_and!; [done..|].
    by apply (new_attempt Hu w fl w' sid s s').
  - split; [by rewrite Hsame|]. exists s. rewrite Hsame, Es1. split; [done|].
    rewrite Es1, Hs in Hs1. injection Hs1 as <-. case_decide as Est; [|done]. exfalso.
    destruct Hno as [?|Hterm]; [done|]. rewrite Hdb in Hr1. simpl in Hr1.
    pose proof (terminal_run_steps _ _ _ _ _ _ _ _ Hg Hr1 Hterm Hs eq_refl) as Hbad. by rewrite Est in Hbad.
Qed.

Lemma retry_effect_witness :
  ∃ w' s', Engine.HandleFiredTimer 29 (at_ retrying) = (Ok tt, w') ∧ steps (db w') !! 7%N = Some s' ∧
    Step.Status s' = StepQueued ∧ Step.AttemptCount s' = 2.
Proof.
  destruct (Engine.HandleFiredTimer 29%N (at_ retrying)) as [r w'] eqn:Hc.
  destruct (timers (db (at_ retrying)) !! 29%N) as [t|] eqn:Ht; [|vm_compute in Ht; discriminate Ht].
  destruct (steps (db (at_ retrying)) !! 7%N) as [s|] eqn:Hs; [|vm_compute in Hs; discriminate Hs].
  assert (Timer.Kind t = TimerRetryBackoff ∧ Timer.Status t = TimerPending ∧ Timer.StepID t = Some 7%N)
    as (E1 & E2 & E3) by (vm_compute in Ht; injection Ht as <-; split_and!; reflexivity).
  assert (Step.Status s = StepRetryBackoff ∧ Step.AttemptCount s = 1) as [Es Ec]
    by (vm_compute in Hs; injection Hs as <-; split; reflexivity).
  pose proof (retry_effect demo_unique (at_ retrying) [] 29%N t 7%N s r w' retrying_reachable Ht E1 E2 E3 Hs Hc)
    as Hp. destruct r as [[]|e]; [|destruct Hp as [[[] _]|[]]]. destruct Hp as (_ & s' & Hs' & H).
  destruct (decide (Step.Status s = StepRetryBackoff)) as [_|n]; [|destruct (n Es)].
  rewrite Ec in H. destruct H as (Eq & Ec' & _).
  exists w', s'. split_and!; [reflexivity|exact Hs'|exact Eq|exact Ec'].
Defined.

(** * Lease reaping *)

(** The row of an attempt whose lease ran out. *)
Definition expired_row (n : time) (a : TaskAttempt.t) : TaskAttempt.t :=
  Memory.attempt_completed a AttemptExpired None (Some "lease expired") n.

(** What one pass over the attempts does: [picked] are the entries it expires. *)
Record reaped (limit : Z) (n : time) (l : list (uuid * TaskAttempt.t)) (m m' : attempts_map)
    (out out' : list TaskAttempt.t) (picked : list (uuid * TaskAttempt.t)) : Prop := {
  rp_out : out' = out ++ (expired_row n <$> picked.*2);
  rp_sub : ∀ x, x ∈ picked → x ∈ l ∧ Memory.lease_expired x.2 n = true;
  rp_row : ∀ id a, (id, a) ∈ picked → m' !! id = Some (expired_row n a);
  rp_frame : ∀ id, id ∉ picked.*1 → m' !! id = m !! id;
  rp_limit : Z.of_nat (length out') ≤ Z.max (Z.of_nat (length out)) limit;
  rp_all : Z.of_nat (length out') < limit →
    ∀ x, x ∈ l → Memory.lease_expired x.2 n = true → x ∈ picked
}.

Lemma reap_loop_exact limit n l : ∀ m out, NoDup l.*1 →
  let '(m', out') := Memory.reap_loop limit n l m out in
  ∃ picked, reaped limit n l m m' out out' picked.
Proof.
  induction l as [|[id a] l IH]; intros m out Hnd; simpl.
  { exists []. split; simpl; [by rewrite app_nil_r|by intros ? ?%elem_of_nil|by intros ? ? ?%elem_of_nil|done|lia|].
    by intros _ ? ?%elem_of_nil. }
  apply NoDup_cons in Hnd as [Hid Hnd]. destruct (Z.leb_spec limit (Z.of_nat (length out))) as [Hlim|Hlim].
  { exists []. split; simpl; [by rewrite app_nil_r|by intros ? ?%elem_of_nil|by intros ? ? ?%elem_of_nil|done|lia|]. lia. }
  destruct (Memory.lease_expired a n) eqn:Ee.
  - set (a' := Memory.attempt_completed a _ _ _ _).
    specialize (IH (<[id := a']> m) (out ++ [a']) Hnd). destruct (Memory.reap_loop _ _ _ _ _) as [m' out'].
    destruct IH as (picked & [Ho Hs Hr Hf Hl Ha]). exists ((id, a) :: picked).
    assert (id ∉ picked.*1) as Hnew.
    { intros (x & -> & Hx)%list_elem_of_fmap. apply Hid, list_elem_of_fmap. exists x. by destruct (Hs x Hx). }
    split; simpl.
    + by rewrite Ho, <-(assoc_L (++)).
    + intros x [->|Hx]%elem_of_cons; [by split; [constructor|]|].
      destruct (Hs x Hx). split; [by constructor|done].
    + intros i b [[= -> ->]|Hb]%elem_of_cons; [|by apply Hr]. by rewrite (Hf id Hnew), lookup_insert_eq.
    + intros i [Hne Hi]%not_elem_of_cons. by rewrite (Hf i Hi), lookup_insert_ne.
    + rewrite length_app in Hl. simpl in Hl. lia.
    + intros Hlt x [->|Hx]%elem_of_cons He; constructor. by apply Ha.
  - specialize (IH m out Hnd). destruct (Memory.reap_loop _ _ _ _ _) as [m' out'].
    destruct IH as (picked & [Ho Hs Hr Hf Hl Ha]). exists picked. split; try done.
    + intros x Hx. destruct (Hs x Hx). split; [by constructor|done].
    + intros Hlt x [->|Hx]%elem_of_cons He; [simpl in He; congruence|by apply Ha].
Qed.

(** [ReapExpiredAttempts] never fails and is exact: it expires at most [limit]
    attempts, each of them LEASED with a lease that ended before now, returns exactly
    the rows it expired, leaves every other attempt and every other table alone, and
    when it returns fewer than [limit] no expired lease is left. *)
Theorem reap_exact {E : Env} limit w :
  let n := time_Now (tick w) in
  ∃ out w', ReapExpiredAttempts limit w = (Ok out, w') ∧
    Z.of_nat (length out) ≤ Z.max 0 limit ∧
    (∀ a', a' ∈ out → ∃ id a, attempts (db w) !! id = Some a ∧
       Memory.lease_expired a n = true ∧ a' = expired_row n a ∧ attempts (db w') !! id = Some a') ∧
    (∀ id, attempts (db w') !! id = attempts (db w) !! id ∨
       ∃ a, attempts (db w) !! id = Some a ∧ Memory.lease_expired a n = true ∧
            attempts (db w') !! id = Some (expired_row n a) ∧ expired_row n a ∈ out) ∧
    (Z.of_nat (length out) < limit → ∀ id a, attempts (db w) !! id = Some a →
       Memory.lease_expired a n = true → expired_row n a ∈ out) ∧
    db w' = set_attempts (λ _, attempts (db w')) (db w).
Proof.
  intros n. simpl. unfold Memory.ReapExpiredAttempts, mbind, GoM_bind, gets; simpl.
  set (l := range_order (S (tick w)) (map_to_list (attempts (db w)))).
  assert (l ≡ₚ map_to_list (attempts (db w))) as Hperm by apply range_order_perm.
  assert (∀ id a, (id, a) ∈ l ↔ attempts (db w) !! id = Some a) as Hl.
  { intros id a. by rewrite Hperm, elem_of_map_to_list. }
  pose proof (reap_loop_exact limit n l (attempts (db w)) []) as Hloop.
  fold n. destruct (Memory.reap_loop _ _ _ _ _) as [m out]. simpl.
  destruct Hloop as (picked & [Ho Hs Hr Hf Hlim Ha]); [rewrite Hperm; apply NoDup_fst_map_to_list|].
  simpl in Ho, Hlim. exists out. eexists. split_and!; [done|lia|..|]; simpl.
  - intros a' Ha'. rewrite Ho in Ha'. apply list_elem_of_fmap in Ha' as (a & -> & Ha').
    apply list_elem_of_fmap in Ha' as ([id b] & -> & Hx). destruct (Hs _ Hx) as [Hin%Hl He].
    exists id, b. split_and!; [done..|]. by apply Hr.
  - intros id. destruct (decide (id ∈ picked.*1)) as [Hin|Hout]; [right|left; by apply Hf].
    apply list_elem_of_fmap in Hin as ([i a] & -> & Hx). destruct (Hs _ Hx) as [Hin%Hl He].
    exists a. split_and!; [done..|by apply Hr|]. rewrite Ho.
    apply list_elem_of_fmap. exists a. split; [done|]. apply list_elem_of_fmap. by exists (i, a).
  - intros Hlt id a Hia He. rewrite Ho. apply list_elem_of_fmap. exists a. split; [done|].
    apply list_elem_of_fmap. exists (id, a). split; [done|]. apply Ha; [done|by apply Hl|done].
  - done.
Qed.

(** What handling the expired attempt [a] does, from [w] to [w']. *)
Definition expiry_handled (a : TaskAttempt.t) (w w' : World) : Prop :=
  local_to (TaskAttempt.WorkflowRunID a) (db w) (db w') ∧
  ∃ s s', steps (db w) !! TaskAttempt.StepID a = Some s ∧
    steps (db w') !! TaskAttempt.StepID a = Some s' ∧
    Step.AttemptCount s' = Step.AttemptCount s ∧
    Step.Status s' =
      if busy (Step.Status s) then
        if Step.AttemptCount s <? Step.MaxAttempts s then StepRetryBackoff else StepFailed
      else Step.Status s.

(** Handling an expired attempt, whenever the reaper gets to it: a step that is still
    busy with it goes to RETRY_BACKOFF while attempts remain and to FAILED otherwise, a
    cancelled step stays as it is, and only that run changes; only a store that may fail
    answers with an error, having done this or changed no row. *)
Theorem expiry_effect {E : Env} {St : Store} {L : StoreLaws St} (Hu : uuid_unique) w fl1 a fl2 r w' :
  reachable (w, fl1 ++ (a, Held) :: fl2) → expire a w = (r, w') →
  tx_post (λ _, expiry_handled a w) no_error w r w'.
Proof.
  intros Hr Hrun. pose proof (reachable_good Hu _ Hr) as Hg. simpl in Hg.
  destruct (listed_expired Hu w _ a Held Hr) as (Ha & Est & Hid);
    [apply elem_of_app; right; constructor|].
  assert (false = bool_decide (TaskAttempt.Status a = AttemptSucceeded)) as Ef by by rewrite Est.
  eapply tx_post_mono; [refine (wp_run _ _ _ _ _ (wp_tx _ _ w _
    (wp_handleAttemptOutcome Hu _ _ a false None lease_lost w Hg Hid Ha Ef)) Hrun); steady| |done].
  intros ? Hpost. cbn beta in Hpost.
  destruct (outcome_effect _ _ a w w' Hg Hid Ha Hpost) as (s & s' & Hs & Hs' & _ & Es & Ec & Hl).
  split; [done|]. exists s, s'. split_and!; [done..|].
  rewrite Es. unfold settled_status, outcome_status. by rewrite Est.
Qed.

(** The lease on the first attempt of [fetch] ends at once. *)
Definition expiring : list request := created ++ [Claim 15 16 "w1" 0; MarkRunning 7].

Lemma expiring_reachable : reachable (at_ expiring, []).
Proof. apply run_all_reachable; [|apply rtc_refl]. apply etl_valid. repeat constructor. Defined.

Lemma reaped_reachable : ∃ a w1, reachable (w1, [(a, Held)]) ∧ TaskAttempt.StepID a = 7%N ∧
  w1 = (ReapExpiredAttempts 10 (at_ expiring)).2.
Proof.
  destruct (ReapExpiredAttempts 10 (at_ expiring)) as [r w1] eqn:Hc.
  assert (r = (ReapExpiredAttempts 10 (at_ expiring)).1) as Er by (rewrite Hc; reflexivity).
  vm_compute in Er. match type of Er with _ = Ok [?a] => exists a end. exists w1.
  split_and!; [|reflexivity|reflexivity].
  apply (rtc_r _ _ _ expiring_reachable).
  match goal with |- sys_step _ (_, [(?a, _)]) =>
    refine (Sys_reap 10 (at_ expiring) [] [a] w1 _) end. rewrite Hc, Er. reflexivity.
Defined.

Lemma expiry_effect_witness :
  ∃ a w1 w' s', expire a w1 = (Ok tt, w') ∧
    steps (db w') !! 7%N = Some s' ∧ Step.Status s' = StepRetryBackoff.
Proof.
  destruct reaped_reachable as (a & w1 & Hr & Ea & Ew).
  destruct (expire a w1) as [r w'] eqn:Hc.
  pose proof (expiry_effect demo_unique w1 [] a [] r w' Hr Hc) as Hp.
  destruct r as [[]|e]; [|destruct Hp as [[[] _]|[]]]. destruct Hp as (_ & s & s' & Hs & Hs' & _ & Est).
  rewrite Ea in Hs, Hs'. rewrite Ew in Hs. vm_compute in Hs. injection Hs as <-.
  exists a, w1, w', s'. split_and!; [exact Hc|exact Hs'|exact Est].
Defined.

(** * Errors *)

Lemma drop_err {E : Env} {A} (m : GoM World A) w e : (drop m w).1 = Err e → ∃ w', m w = (Err e, w').
Proof.
  unfold drop, mbind, GoM_bind. destruct (m w) as [[a|e'] w']; simpl; [done|]. intros [= ->]. eauto.
Qed.

Lemma err_run {S A} (m : GoM S A) w e : (m w).1 = Err e → ∃ w', m w = (Err e, w').
Proof. destruct (m w) as [r w']. simpl. intros ->. eauto. Qed.

(** A well-formed, encodable definition is refused only as a duplicate. *)
Lemma register_conflict {E : Env} {St : Store} {L : StoreLaws St} d j w e w' :
  Workflowdsl.WellFormed d → Workflowdsl.ToJSON (Workflowdsl.validated d) = Some j →
  Engine.RegisterDefinition d w = (Err e, w') → may_fail ∨ e = ErrConflict.
Proof.
  intros Hwf Hj. unfold Engine.RegisterDefinition. rewrite (Workflowdsl.Validate_complete d Hwf), Hj.
  intros Hrun. pose proof (wp_run _ _ _ _ _ (law_CreateWorkflowDefinition _ _ _ w) Hrun) as [_ [?|[? _]]]; auto.
Qed.

(** C22.  No request fails for an internal reason over a store that does not fail, such as
    the in-memory one: in every reachable state the only errors are an invalid or duplicate
    definition, an unknown definition when creating a run, and an unknown run when cancelling,
    signalling or reconciling; claims, heartbeats, results, timers and publishing never
    fail, so in particular the concurrent-dispatch error of [dispatchStep] does not occur.
    Of the errors of a store that can fail, such as PostgreSQL, nothing is said. *)
Theorem errors_classified {E : Env} {St : Store} {L : StoreLaws St} (Hu : uuid_unique) w fl q e :
  ¬ may_fail → reachable (w, fl) → valid q → (exec q w).1 = Err e →
  match q with
  | Register d => e = ErrConflict ∨ ¬ Workflowdsl.WellFormed d ∨
                  Workflowdsl.ToJSON (Workflowdsl.validated d) = None
  | Create name version _ => errors_Is e ErrNotFound = true ∧
                             ¬ ∃ def, denotes (db w) name version def
  | Cancel rid | SendSignal rid _ _ | ReconcileRun rid =>
      e = ErrNotFound ∧ runs (db w) !! rid = None
  | _ => False
  end.
Proof.
  intros Hf Hr Hv He. pose proof (reachable_good Hu _ Hr) as Hg. simpl in Hg.
  assert (∀ rid, run_status (db w) rid = None → runs (db w) !! rid = None) as Hnone.
  { intros rid. unfold run_status. by destruct (runs (db w) !! rid). }
  destruct q as [d|name version input|a key worker lease|s|a worker lease|a worker success out err|t
                |r|r name payload|r|k|n]; cbn [exec] in He;
    try (apply drop_err in He as [w' He]); try (apply err_run in He as [w' He]).
  - destruct (Workflowdsl.ToJSON (Workflowdsl.validated d)) as [j|] eqn:Ej; [|by auto].
    destruct (decide (e = ErrConflict)) as [?|Hne]; [by auto|].
    destruct (Workflowdsl.Validate d).2 eqn:Ev.
    + right; left. intros Hwf. by rewrite (Workflowdsl.Validate_complete d Hwf) in Ev.
    + apply Workflowdsl.Validate_sound in Ev. destruct (register_conflict d j w e w' Ev Ej He); [done|auto].
  - pose proof (wp_run _ _ _ _ _ (wp_CreateRun Hu _ _ name version input w Hg) He) as [[? _]|Hn]; [done|].
    destruct Hn as (_ & _ & ? & ?). auto.
  - pose proof (wp_run _ _ _ _ _ (wp_ClaimTaskAttempt _ _ a key worker lease w Hg) He) as [? _]. done.
  - pose proof (wp_run _ _ _ _ _ (wp_MarkRunning _ _ s w Hg) He) as [? _]. done.
  - pose proof (wp_run _ _ _ _ _ (wp_HeartbeatTaskAttempt _ _ a worker lease w Hg) He) as [? _]. done.
  - pose proof (wp_run _ _ _ _ _ (wp_HandleTaskResult Hu _ _ a worker success out err w Hg) He) as [[? _]|[]]. done.
  - pose proof (wp_run _ _ _ _ _ (wp_HandleFiredTimer Hu _ _ t w Hg) He) as [[? _]|[]]. done.
  - pose proof (wp_run _ _ _ _ _ (wp_CancelRun _ _ r w Hg) He) as [[? _]|(Hn & ? & _)]; [done|auto].
  - destruct (decide (name = "__cancel__")) as [->|Hne].
    + pose proof (wp_run _ _ _ _ _ (wp_CancelRun _ _ r w Hg) He) as [[? _]|(Hn & ? & _)]; [done|auto].
    + pose proof (wp_run _ _ _ _ _ (wp_ApplySignal Hu _ _ r name payload w Hg Hne) He)
        as [[? _]|(_ & Hn & ? & _)]; [done|auto].
  - pose proof (wp_run _ _ _ _ _ (wp_Reconcile Hu _ _ r w Hg) He) as [[? _]|(Hn & ? & _)]; [done|auto].
  - pose proof (wp_run _ _ _ _ _ (wp_MarkOutboxPublished _ _ k w Hg) He) as [? _]. done.
  - discriminate He.
Qed.

Lemma errors_classified_witness :
  (exec (Cancel 6) (at_ created)).1 = Err ErrNotFound ∧ runs (db (at_ created)) !! 6%N = None.
Proof.
  assert ((exec (Cancel 6) (at_ created)).1 = Err ErrNotFound) as He by (vm_compute; reflexivity).
  split; [exact He|].
  destruct (errors_classified (L := memory_laws) demo_unique (at_ created) [] (Cancel 6) ErrNotFound
              (λ H, H) created_reachable I He) as [_ H]. exact H.
Defined.

End Operations.
