(* ===== verification/Termination.v ===== *)
(** Runs end.

    Every step of a run has a weight, which depends on its status and on the attempts it
    has left, and every move of the life cycle either leaves the status and the attempt
    counter of a step alone or makes it lighter.  So a run can only change a bounded
    number of times ([bounded_work]); and since an unfinished run always has something
    that can make it lighter (Liveness.v), it can always be brought to its end, whatever
    its tasks answer ([can_finish]). *)

From stdpp Require Import gmap strings list relations.
From S2P Require Import Prelude GoLib Json Types MemStore Dsl Engine Lifecycle.
From S2P Require Import LifecycleInv Worlds Contract MemSpec Reconcile EngineSpec EngineOps RunCreate.
From S2P Require Import System Liveness Demo Behaviour Operations.
Open Scope Z_scope.

Module Termination.
Import Lifecycle LifecycleInv Worlds Contract MemSpec Reconcile EngineSpec EngineOps RunCreate System.
Import Liveness Demo Behaviour Operations.

(** * The weight of a step *)

Definition attempts_left (s : Step.t) : nat := Z.to_nat (Step.MaxAttempts s - Step.AttemptCount s).

(** An upper bound on the changes of status a step can still make. *)
Definition weight (s : Step.t) : nat :=
  match Step.Status s with
  | StepPending => 3 * attempts_left s + 3
  | StepReady | StepQueued => 3 * attempts_left s + 2
  | StepWaiting | StepRunning => 3 * attempts_left s + 1
  | StepRetryBackoff => 3 * attempts_left s
  | StepCompleted | StepFailed | StepSkipped | StepCancelled => 0
  end.

(** What an observer of the step sees of its progress. *)
Definition phase (s : Step.t) : StepStatus * Z := (Step.Status s, Step.AttemptCount s).

(** A step row only ever gets lighter, unless it stays in its phase. *)
Record step_progress (s s' : Step.t) : Prop := {
  sp_same : same_step s' s;
  sp_weight : (weight s' < weight s)%nat ∨ phase s' = phase s
}.

Lemma same_phase_weight s s' : same_step s' s → phase s' = phase s → weight s' = weight s.
Proof.
  intros Hs [= E1 E2]. unfold weight, attempts_left. by rewrite E1, E2, (st_max _ _ Hs).
Qed.

#[export] Instance step_progress_preorder : PreOrder step_progress.
Proof.
  split; [intros s; split; [apply same_step_refl|by right]|].
  intros a b c [S1 W1] [S2 W2]. split; [by eapply same_step_trans|].
  destruct W1 as [W1|P1], W2 as [W2|P2].
  - left. lia.
  - left. by rewrite (same_phase_weight _ _ S2 P2).
  - left. by rewrite <-(same_phase_weight _ _ S1 P1).
  - right. congruence.
Qed.

Lemma step_progress_le s s' : step_progress s s' → (weight s' ≤ weight s)%nat.
Proof. intros [Hs [?|Hp]]; [lia|]. by rewrite (same_phase_weight _ _ Hs Hp). Qed.

(** ** Each kind of move makes the step lighter *)

Lemma terminal_weight s : StepTerminal (Step.Status s) = true → weight s = 0%nat.
Proof. unfold weight. by destruct (Step.Status s). Qed.

Lemma live_weight s : count_ok s → StepTerminal (Step.Status s) = false → (0 < weight s)%nat.
Proof. unfold count_ok, weight, attempts_left. destruct (Step.Status s); try done; lia. Qed.

Lemma move_lighter ss s s' :
  count_ok s → same_step s' s → Step.AttemptCount s' = Step.AttemptCount s →
  step_move ss s (Step.Status s') → (weight s' < weight s)%nat.
Proof.
  intros Hc Hs Ec Hm. pose proof (live_weight s Hc (move_nonterminal _ _ _ Hm)) as Hpos.
  destruct (StepTerminal (Step.Status s')) eqn:Ht; [by rewrite terminal_weight|].
  unfold weight, attempts_left. rewrite Ec, (st_max _ _ Hs).
  destruct Hm as [? ?|? [Hf _]|? ?|Eq|?]; try done.
  - destruct (Step.Status s); try done; lia.
  - rewrite Eq. lia.
Qed.

Lemma dispatch_lighter ss s s' :
  count_ok s → 1 ≤ Step.MaxAttempts s → same_step s' s →
  may_start ss s ∨ Step.Status s = StepRetryBackoff →
  Step.Status s' = StepQueued → Step.AttemptCount s' = Step.AttemptCount s + 1 →
  (weight s' < weight s)%nat.
Proof.
  intros Hc Hm Hs Hcase Eq Ec. unfold weight, attempts_left. rewrite Eq, Ec, (st_max _ _ Hs).
  unfold count_ok in Hc.
  destruct Hcase as [[Hf _]|Er]; [destruct (Step.Status s); try done; lia|rewrite Er in *; lia].
Qed.

Lemma outcome_lighter st s s' :
  count_ok s → busy (Step.Status s) = true → same_step s' s →
  Step.AttemptCount s' = Step.AttemptCount s → Step.Status s' = outcome_status st s →
  (weight s' < weight s)%nat.
Proof.
  intros Hc Hb Hs Ec Eo. pose proof (live_weight s Hc (busy_nonterminal _ Hb)) as Hpos.
  destruct (outcome_cases st s) as [E|[E|E]]; rewrite E in Eo;
    [by rewrite terminal_weight by by rewrite Eo| |by rewrite terminal_weight by by rewrite Eo].
  unfold weight, attempts_left. rewrite Eo, Ec, (st_max _ _ Hs). destruct (Step.Status s); try done; lia.
Qed.

(** * The tables *)

(** The steps of existing runs make progress, and get no company. *)
Record advances (d d' : Tables) : Prop := {
  ad_steps : rows step_progress (steps d) (steps d');
  ad_closed : ∀ id s', steps d' !! id = Some s' → is_Some (runs d !! Step.WorkflowRunID s') →
    is_Some (steps d !! id);
  ad_runs : ∀ rid, is_Some (runs d !! rid) → is_Some (runs d' !! rid)
}.

Lemma advances_same d d' :
  steps d' = steps d → (∀ rid, is_Some (runs d !! rid) → is_Some (runs d' !! rid)) → advances d d'.
Proof.
  intros Hs Hr. split; [rewrite Hs; by apply rows_refl| |done]. intros id s'. rewrite Hs. by eexists.
Qed.

#[export] Instance advances_preorder : PreOrder advances.
Proof.
  split; [intros d; by apply advances_same|]. intros d1 d2 d3 [S1 C1 R1] [S2 C2 R2]. split.
  - eapply rows_trans; [|done..]. intros ???. apply transitivity.
  - intros id s' Hs' Hr. destruct (C2 id s' Hs' (R1 _ Hr)) as [s2 Hs2].
    destruct (S2 id s2 Hs2) as (s3 & Hs3 & Hp). simplify_eq.
    apply (C1 id s2 Hs2). by rewrite <-(st_run _ _ (sp_same _ _ Hp)).
  - auto.
Qed.

Lemma advances_step d d' id s s' :
  steps d !! id = Some s → same_step s' s → (weight s' < weight s)%nat →
  steps d' = <[id := s']> (steps d) → runs d' = runs d → advances d d'.
Proof.
  intros Hs Hsame Hw Es Er. split; rewrite ?Es, ?Er; [| |done].
  - apply rows_insert; [reflexivity|]. intros v Hv. simplify_eq. split; [done|by left].
  - intros i t. destruct (decide (i = id)) as [->|]; [by eexists|]. rewrite lookup_insert_ne by done. by eexists.
Qed.

Lemma trans_advances c c' : trans c c' → Inv c → advances (tables c) (tables c').
Proof.
  intros Ht Hinv. pose proof (inv_steps _ Hinv) as Hsi.
  destruct Ht; simpl in *; try (apply advances_same; [done|]; simpl; intros ? ?;
    solve [done | apply lookup_insert_is_Some'; by right]).
  - split; simpl.
    + intros k v Hv. exists v. split; [|reflexivity]. rewrite lookup_union_Some by done. by right.
    + intros k v Hv Hrun. apply lookup_union_Some in Hv as [Hv|Hv]; [|by eexists|done].
      match goal with H : new_steps _ _ |- _ => destruct (ns_row _ _ H k v Hv) as (_ & E & _) end.
      rewrite E in Hrun. match goal with H : runs _ !! _ = None |- _ => rewrite H in Hrun; by destruct Hrun end.
    + intros ? ?. apply lookup_insert_is_Some'. by right.
  - eapply advances_step; [done|done| |done|done]. eapply move_lighter; [|done..]. by eapply si_count.
  - eapply advances_step; [done|done| |done|done].
    eapply dispatch_lighter; [by eapply si_count|by eapply si_max|done..].
  - eapply advances_step; [done|done| |done|done]. eapply outcome_lighter; [by eapply si_count|done..].
Qed.

Lemma rtc_advances c c' : rtc trans c c' → Inv c → advances (tables c) (tables c').
Proof.
  induction 1 as [|c1 c2 c3 H12 _ IH]; intros Hinv; [reflexivity|].
  etransitivity; [by apply trans_advances|]. apply IH. by eapply trans_Inv.
Qed.

(** * The weight of a run *)

Definition run_sum (f : Step.t → nat) (rid : uuid) (ss : steps_map) : nat :=
  map_fold (λ _ s n, if decide (Step.WorkflowRunID s = rid) then f s + n else n)%nat 0%nat ss.

Section sums.
Variable rid : uuid.

Lemma run_sum_delete f ss id s :
  ss !! id = Some s → run_sum f rid ss =
    ((if decide (Step.WorkflowRunID s = rid) then f s else 0) + run_sum f rid (delete id ss))%nat.
Proof.
  intros Hs. unfold run_sum. rewrite (map_fold_delete_L _ 0%nat id s ss); [by case_decide|..|done].
  intros. repeat case_decide; lia.
Qed.

(** The sum over the steps of the run is monotone. *)
Lemma run_sum_le f g ss ss' :
  (∀ id s', ss' !! id = Some s' → Step.WorkflowRunID s' = rid →
     ∃ s, ss !! id = Some s ∧ Step.WorkflowRunID s = rid ∧ (g s' ≤ f s)%nat) →
  (run_sum g rid ss' ≤ run_sum f rid ss)%nat.
Proof.
  revert ss. induction ss' as [|i x ss' Hi IH] using map_ind; intros ss Hle.
  { unfold run_sum. rewrite map_fold_empty. lia. }
  rewrite (run_sum_delete g _ i x), delete_insert_id by (by rewrite ?lookup_insert_eq || done).
  assert (∀ id s', ss' !! id = Some s' → id ≠ i) as Hne by congruence.
  case_decide as Er.
  - destruct (Hle i x) as (s & Hs & Es & Hw); [by rewrite lookup_insert_eq|done|].
    rewrite (run_sum_delete f ss i s Hs), decide_True by done.
    enough (run_sum g rid ss' ≤ run_sum f rid (delete i ss))%nat by lia. apply IH.
    intros id s' Hs' Hr. pose proof (Hne id s' Hs') as Hn. rewrite lookup_delete_ne by done.
    apply Hle; [by rewrite lookup_insert_ne|done].
  - apply IH. intros id s' Hs' Hr. pose proof (Hne id s' Hs'). apply Hle; [by rewrite lookup_insert_ne|done].
Qed.

Lemma run_sum_lt f g ss ss' id s s' :
  (∀ id s', ss' !! id = Some s' → Step.WorkflowRunID s' = rid →
     ∃ s, ss !! id = Some s ∧ Step.WorkflowRunID s = rid ∧ (g s' ≤ f s)%nat) →
  ss !! id = Some s → ss' !! id = Some s' → Step.WorkflowRunID s = rid → (g s' < f s)%nat →
  (run_sum g rid ss' < run_sum f rid ss)%nat.
Proof.
  intros Hle Hs Hs' Hr Hlt.
  rewrite (run_sum_delete g _ id s' Hs'), (run_sum_delete f _ id s Hs), (decide_True _ _ Hr).
  assert (run_sum g rid (delete id ss') ≤ run_sum f rid (delete id ss))%nat; [|case_decide; lia].
  apply run_sum_le. intros i t Ht Htr. apply lookup_delete_Some in Ht as [Hne Ht].
  destruct (Hle i t Ht Htr) as (t0 & ? & ? & ?). exists t0. by rewrite lookup_delete_ne.
Qed.
End sums.

(** What is left to do in run [rid], and the most that it can ever take. *)
Definition run_weight (d : Tables) (rid : uuid) : nat := run_sum weight rid (steps d).

Definition run_budget (d : Tables) (rid : uuid) : nat :=
  run_sum (λ s, 3 * Z.to_nat (Step.MaxAttempts s) + 3)%nat rid (steps d).

Lemma weight_budget s : count_ok s → (weight s ≤ 3 * Z.to_nat (Step.MaxAttempts s) + 3)%nat.
Proof. unfold count_ok, weight, attempts_left. destruct (Step.Status s); lia. Qed.

Lemma run_weight_budget d rid : steps_inv (steps d) → (run_weight d rid ≤ run_budget d rid)%nat.
Proof.
  intros Hi. apply run_sum_le. intros id s Hs Hr. exists s. split_and!; [done..|].
  apply weight_budget. by eapply si_count.
Qed.

(** The phases of the steps of run [rid]. *)
Definition run_phases (d : Tables) (rid : uuid) : gmap uuid (StepStatus * Z) :=
  phase <$> filter (λ p, Step.WorkflowRunID p.2 = rid) (steps d).

Section advancing.
Context (d d' : Tables) (rid : uuid).
Hypothesis Hrun : is_Some (runs d !! rid).
Hypothesis Hadv : advances d d'.

Lemma advancing_row id s' : steps d' !! id = Some s' → Step.WorkflowRunID s' = rid →
  ∃ s, steps d !! id = Some s ∧ Step.WorkflowRunID s = rid ∧ step_progress s s'.
Proof.
  intros Hs' Hr. rewrite <-Hr in Hrun. destruct (ad_closed _ _ Hadv id s' Hs' Hrun) as [s Hs].
  destruct (ad_steps _ _ Hadv id s Hs) as (s2 & Hs2 & Hp). simplify_eq.
  exists s. split_and!; [done| |done]. by rewrite (st_run _ _ (sp_same _ _ Hp)).
Qed.

Lemma advancing_le id s' : steps d' !! id = Some s' → Step.WorkflowRunID s' = rid →
  ∃ s, steps d !! id = Some s ∧ Step.WorkflowRunID s = rid ∧ (weight s' ≤ weight s)%nat.
Proof.
  intros Hs' Hr. destruct (advancing_row id s' Hs' Hr) as (s & ? & ? & ?). eauto using step_progress_le.
Qed.

Lemma run_weight_le : (run_weight d' rid ≤ run_weight d rid)%nat.
Proof. apply run_sum_le, advancing_le. Qed.

Lemma run_weight_lt id s s' :
  steps d !! id = Some s → steps d' !! id = Some s' → Step.WorkflowRunID s = rid →
  phase s' ≠ phase s → (run_weight d' rid < run_weight d rid)%nat.
Proof.
  intros Hs Hs' Hr Hne. eapply run_sum_lt; [apply advancing_le|done..|].
  destruct (ad_steps _ _ Hadv id s Hs) as (s2 & Hs2 & [_ Hp]). simplify_eq. by destruct Hp.
Qed.

Lemma run_phases_lt : run_phases d' rid ≠ run_phases d rid → (run_weight d' rid < run_weight d rid)%nat.
Proof.
  intros Hne. destruct (decide (run_weight d' rid < run_weight d rid)%nat) as [|Hge]; [done|exfalso].
  apply Hne, map_eq. intros id. unfold run_phases. rewrite !lookup_fmap.
  apply option_eq. intros p. rewrite !fmap_Some.
  assert (∀ s s', steps d !! id = Some s → steps d' !! id = Some s' → Step.WorkflowRunID s = rid →
    phase s' = phase s) as Hph.
  { intros s s' Hs Hs' Hr. destruct (decide (phase s' = phase s)); [done|].
    destruct Hge. by eapply run_weight_lt. }
  split; intros (s & [Hs Hr]%map_lookup_filter_Some & ->); simpl in *.
  - destruct (advancing_row id s Hs Hr) as (s0 & Hs0 & Hr0 & _). exists s0.
    rewrite map_lookup_filter_Some. auto.
  - destruct (ad_steps _ _ Hadv id s Hs) as (s1 & Hs1 & Hp). exists s1. rewrite map_lookup_filter_Some.
    split; [|symmetry; auto]. split; [done|]. simpl. by rewrite (st_run _ _ (sp_same _ _ Hp)).
Qed.
End advancing.

(** * Executions *)

Section executions.
Context {E : Env} {St : Store}.

(** [tr] lists the states of the system after [s], one system step after another. *)
Fixpoint execution (s : sys) (tr : list sys) : Prop :=
  match tr with
  | [] => True
  | s' :: tr' => sys_step s s' ∧ execution s' tr'
  end.

(** How often, along [tr], a step of run [rid] changes its status or starts an attempt. *)
Fixpoint changes (rid : uuid) (s : sys)
    (tr : list sys) : nat :=
  match tr with
  | [] => 0
  | s' :: tr' =>
      (if decide (run_phases (db s'.1) rid = run_phases (db s.1) rid) then 0 else 1) + changes rid s' tr'
  end.

Context {L : StoreLaws St}.
Hypothesis Hu : uuid_unique.

Lemma steps_advance s s' : reachable s → rtc sys_step s s' → advances (db s.1) (db s'.1).
Proof.
  intros Hr Hs. pose proof (sys_inv_restart _ _ (reachable_inv Hu s Hr)) as Hi.
  pose proof (steps_sys_inv Hu _ _ _ Hs Hi) as [Hg _].
  exact (rtc_advances _ _ (g_path _ _ _ _ Hg) (reachable_Inv Hu s Hr)).
Qed.

Lemma changes_weight rid s tr :
  reachable s → is_Some (runs (db s.1) !! rid) → execution s tr →
  (changes rid s tr ≤ run_weight (db s.1) rid)%nat.
Proof.
  revert s. induction tr as [|s' tr IH]; simpl; intros s Hr Hrun Hex; [lia|]. destruct Hex as [Hstep Hex].
  pose proof (steps_advance s s' Hr (rtc_once _ _ Hstep)) as Hadv.
  specialize (IH s' (rtc_r _ _ _ Hr Hstep) (ad_runs _ _ Hadv _ Hrun) Hex).
  case_decide as Hp.
  - pose proof (run_weight_le _ _ _ Hrun Hadv). lia.
  - pose proof (run_phases_lt _ _ _ Hrun Hadv Hp). lia.
Qed.
End executions.

#[local] Existing Instances Memory.memory_store MemSpec.memory_laws.

(** C10.  The work of a run is bounded: along every execution from a reachable state, of
    whatever length and whatever clients, workers and background loops do, the steps of a
    run change their status or start a new attempt in at most
    [3 * max_attempts + 3] steps of the system for each step of the run.  In particular no
    run is retried, skipped or dispatched for ever. *)
Theorem bounded_work {E : Env} {St : Store} {L : StoreLaws St} (Hu : uuid_unique) rid run s tr :
  reachable s → runs (db s.1) !! rid = Some run → execution s tr →
  (changes rid s tr ≤ run_budget (db s.1) rid)%nat.
Proof.
  intros Hr Hrun Hex. etransitivity; [by apply (changes_weight Hu); [|eexists|]|].
  apply run_weight_budget, (inv_steps _ (reachable_Inv Hu s Hr)).
Qed.

(** The states of a list of requests, one after another. *)
Fixpoint states {E : Env} {St : Store} (qs : list request) (w : World) : list sys :=
  match qs with
  | [] => []
  | q :: qs' => let w' := (exec q w).2 in (w', []) :: states qs' w'
  end.

Lemma states_execution {E : Env} {St : Store} qs w :
  Forall valid qs → execution (w, []) (states qs w).
Proof.
  revert w. induction qs as [|q qs IH]; intros w Hv; simpl; [done|]. inversion Hv; subst.
  split; [by apply (Sys_request q)|by apply IH].
Qed.

(** From the creation of the run on: [fetch] fails twice, [store] is skipped. *)
Definition run_to_failure : list request :=
  [Claim 15 16 "w1" 30; MarkRunning 7; Report 15 "w1" false None (Some "boom"); FireTimer 29;
   Claim 38 39 "w2" 30; Report 38 "w2" false None (Some "boom")].

Lemma bounded_work_witness :
  changes 5 (at_ created, []) (states run_to_failure (at_ created)) = 4%nat ∧
  (changes 5 (at_ created, []) (states run_to_failure (at_ created)) ≤ 15)%nat.
Proof.
  split; [vm_compute; reflexivity|].
  destruct (runs (db (at_ created)) !! 5%N) as [run|] eqn:Hrun; [|vm_compute in Hrun; discriminate].
  assert (run_budget (db (at_ created)) 5 = 15%nat) as <- by (vm_compute; reflexivity).
  apply (bounded_work demo_unique 5 run (at_ created, []) _ created_reachable Hrun).
  apply states_execution. repeat constructor.
Defined.

(** * Driving a run to its end *)

(** Every lease has a holder. *)
Definition leases_held (aa : attempts_map) : Prop :=
  map_Forall (λ _ a, TaskAttempt.Status a = AttemptLeased → is_Some (TaskAttempt.LeaseOwner a)) aa.

Lemma trans_leases c c' :
  trans c c' → leases_held (attempts (tables c)) → leases_held (attempts (tables c')).
Proof.
  destruct 1; simpl; try done; intros Hh; apply map_Forall_insert_2; try done; [congruence|].
  by destruct (TaskAttempt.Status a').
Qed.

Lemma rtc_leases c c' :
  rtc trans c c' → leases_held (attempts (tables c)) → leases_held (attempts (tables c')).
Proof. induction 1; eauto using trans_leases. Qed.

Section driving.
Context {E : Env} {St : Store}.

(** What moves an unfinished run on without anybody interfering with it: a worker claims
    a queued attempt, its holder reports [answers id] for attempt [id], a pending timer
    fires, a reaper handles an attempt it has expired and still holds. *)
Inductive driven (answers : uuid → bool) : sys → sys → Prop :=
| Driven_claim id a worker lease w fl :
    attempts (db w) !! id = Some a → TaskAttempt.Status a = AttemptQueued →
    driven answers (w, fl) ((exec (Claim id (TaskAttempt.IdempotencyKey a) worker lease) w).2, fl)
| Driven_report id worker out err w fl :
    holds_lease w id worker →
    driven answers (w, fl) ((exec (Report id worker (answers id) out err) w).2, fl)
| Driven_timer tid t w fl :
    timers (db w) !! tid = Some t → Timer.Status t = TimerPending →
    driven answers (w, fl) ((exec (FireTimer tid) w).2, fl)
| Driven_expiry a fl1 fl2 w w' :
    expire a w = (Ok tt, w') → driven answers (w, fl1 ++ (a, Held) :: fl2) (w', fl1 ++ fl2).

(** In state [s] the store answers one of these calls, made for the run [rid], with an error. *)
Inductive refused (answers : uuid → bool) (rid : uuid) : sys → Prop :=
| Refused_claim id a worker lease e w fl :
    attempts (db w) !! id = Some a → TaskAttempt.Status a = AttemptQueued →
    TaskAttempt.WorkflowRunID a = rid →
    (exec (Claim id (TaskAttempt.IdempotencyKey a) worker lease) w).1 = Err e →
    refused answers rid (w, fl)
| Refused_report id a worker out err e w fl :
    attempts (db w) !! id = Some a → TaskAttempt.WorkflowRunID a = rid →
    holds_lease w id worker → (exec (Report id worker (answers id) out err) w).1 = Err e →
    refused answers rid (w, fl)
| Refused_timer tid t e w fl :
    timers (db w) !! tid = Some t → Timer.Status t = TimerPending → Timer.WorkflowRunID t = rid →
    (exec (FireTimer tid) w).1 = Err e → refused answers rid (w, fl)
| Refused_expiry a fl e w :
    (a, Held) ∈ fl → TaskAttempt.WorkflowRunID a = rid → (expire a w).1 = Err e →
    refused answers rid (w, fl).

Lemma driven_sys answers s s' : driven answers s s' → sys_step s s'.
Proof. destruct 1; by constructor. Qed.

Lemma rtc_driven answers s s' : rtc (driven answers) s s' → rtc sys_step s s'.
Proof. induction 1; [apply rtc_refl|]. eapply rtc_l; [by eapply driven_sys|done]. Qed.

(** Driving a run strands nothing. *)
Lemma driven_held answers rid s s' :
  rtc (driven answers) s s' → none_stranded s.2 rid → none_stranded s'.2 rid.
Proof.
  induction 1 as [|s1 s2 s3 Hd _ IH]; [done|]. intros Hn. apply IH.
  destruct Hd as [| | |a fl1 fl2 w w' _]; [done..|]. intros b Hb. apply Hn. simpl in *.
  rewrite elem_of_app, elem_of_cons in *. tauto.
Qed.

Context {L : StoreLaws St}.
Hypothesis Hu : uuid_unique.

Lemma reachable_leases s : reachable s → leases_held (attempts (db s.1)).
Proof.
  intros Hr. pose proof (g_path _ _ _ _ (sy_good _ _ (reachable_inv Hu s Hr))) as Hp.
  exact (rtc_leases _ _ Hp (map_Forall_empty _)).
Qed.

Lemma drop_answer {A} (m : GoM World A) w e w' : m w = (Err e, w') → (drop m w).1 = Err e.
Proof. unfold drop, mbind, GoM_bind. by intros ->. Qed.

Lemma tx_ok {A} (P : A → World → Prop) w (r : outcome A) w' :
  tx_post P no_error w r w' → (∃ a, r = Ok a ∧ P a w') ∨ may_fail ∧ ∃ e, r = Err e.
Proof. destruct r as [a|e]; simpl; [by eauto|]. intros [[? _]|[]]. eauto. Qed.

(** The step [sid], now [x], changes its phase on some way from [s], or the store refuses a
    call on that way. *)
Definition moves (answers : uuid → bool) (rid sid : uuid) (x : Step.t) (s : sys) : Prop :=
  ∃ s', rtc (driven answers) s s' ∧
    ((∃ x', steps (db s'.1) !! sid = Some x' ∧ phase x' ≠ phase x) ∨
     may_fail ∧ refused answers rid s').

Lemma moves_once answers rid sid x s s' x' :
  driven answers s s' → steps (db s'.1) !! sid = Some x' → phase x' ≠ phase x →
  moves answers rid sid x s.
Proof. intros Hd Hx Hp. exists s'. split; [by apply rtc_once|]. left. by exists x'. Qed.

Lemma moves_refused answers rid sid x s :
  may_fail → refused answers rid s → moves answers rid sid x s.
Proof. intros Hf Hr. exists s. split; [apply rtc_refl|by right]. Qed.

Lemma moves_later answers rid sid x s s1 :
  driven answers s s1 → moves answers rid sid x s1 → moves answers rid sid x s.
Proof. intros Hd (s' & Hs & H). exists s'. split; [by eapply rtc_l|done]. Qed.

Lemma after_result_moves success s :
  busy (Step.Status s) = true → after_result success s ≠ Step.Status s.
Proof. unfold after_result. destruct (Step.Status s); try done; by repeat case_match. Qed.

(** A leased attempt of a busy step can be reported. *)
Lemma leased_moves answers w fl id a x :
  reachable (w, fl) → attempts (db w) !! id = Some a → TaskAttempt.Status a = AttemptLeased →
  steps (db w) !! TaskAttempt.StepID a = Some x → busy (Step.Status x) = true →
  moves answers (TaskAttempt.WorkflowRunID a) (TaskAttempt.StepID a) x (w, fl).
Proof.
  intros Hr Ha Hl Hx Hb. destruct (reachable_leases _ Hr id a Ha Hl) as [worker Ho].
  assert (holds_lease w id worker) as Hh.
  { exists a. split; [done|]. unfold Memory.leased_by. rewrite Hl, Ho. by rewrite !bool_decide_eq_true_2. }
  destruct (Engine.HandleTaskResult id worker (answers id) None None w) as [r w'] eqn:Hc.
  pose proof (HandleTaskResult_spec Hu w fl _ _ _ _ _ r w' Hr Hc) as Hrep.
  destruct r as [[]|e]; simpl in Hrep; [|by destruct Hrep|].
  - destruct Hrep as (_ & a0 & x0 & _ & x' & Ha0 & Hx0 & _ & _ & Hx' & _ & Est & _). simplify_eq.
    eapply (moves_once _ _ _ _ _ _ x'); [by apply (Driven_report answers id worker None None)|..]; simpl.
    + by rewrite (exec_drop _ _ _ _ Hc).
    + intros [= Ep _]. rewrite Hb in Est. by apply (after_result_moves (answers id) x Hb); congruence.
  - apply moves_refused; [apply Hrep|]. apply (Refused_report _ _ id a worker None None e); [done..|].
    exact (drop_answer _ _ _ _ Hc).
Qed.

(** A queued one can be claimed first. *)
Lemma queued_moves answers w fl id a x :
  reachable (w, fl) → attempts (db w) !! id = Some a → TaskAttempt.Status a = AttemptQueued →
  steps (db w) !! TaskAttempt.StepID a = Some x → busy (Step.Status x) = true →
  moves answers (TaskAttempt.WorkflowRunID a) (TaskAttempt.StepID a) x (w, fl).
Proof.
  intros Hr Ha Hq Hx Hb.
  destruct (ClaimTaskAttempt id (TaskAttempt.IdempotencyKey a) "w" 30 w) as [r w'] eqn:Hc.
  pose proof (reachable_wp Hu _ _ _ _ _ _ Hr (λ c0, wp_ClaimTaskAttempt c0 _ _ _ _ _ _) Hc) as Hp.
  destruct r as [res|e]; simpl in Hp.
  - destruct Hp as [_ Hp]. unfold claimed_post in Hp.
    rewrite Ha, (bool_decide_eq_true_2 _ Hq), N.eqb_refl in Hp. simpl in Hp.
    destruct Hp as (a' & _ & Hsame & Hl & Hdb).
    assert (driven answers (w, fl) (w', fl)) as Hd.
    { rewrite <-(exec_drop _ _ _ _ Hc). by apply (Driven_claim answers id a "w" 30). }
    apply (moves_later _ _ _ _ _ _ Hd). rewrite <-(at_step _ _ Hsame), <-(at_run _ _ Hsame).
    apply (leased_moves answers w' fl id a' x); [|..|done].
    + eapply rtc_r; [exact Hr|by eapply driven_sys].
    + by rewrite Hdb; simpl; rewrite lookup_insert_eq.
    + by eapply leased_by_status.
    + by rewrite Hdb, (at_step _ _ Hsame).
  - apply moves_refused; [apply Hp|]. apply (Refused_claim _ _ id a "w" 30 e); [done..|].
    exact (drop_answer _ _ _ _ Hc).
Qed.

(** So can an attempt that the reaper took away. *)
Lemma expired_moves answers w fl a x :
  reachable (w, fl) → (a, Held) ∈ fl → steps (db w) !! TaskAttempt.StepID a = Some x →
  busy (Step.Status x) = true →
  moves answers (TaskAttempt.WorkflowRunID a) (TaskAttempt.StepID a) x (w, fl).
Proof.
  intros Hr Hin Hx Hb. pose proof Hin as (fl1 & fl2 & ->)%list_elem_of_split.
  destruct (expire a w) as [r w'] eqn:Hc.
  destruct (tx_ok _ _ _ _ (expiry_effect Hu w fl1 a fl2 r w' Hr Hc))
    as [([] & -> & _ & x0 & x' & Hx0 & Hx' & _ & Est)|[Hf [e ->]]].
  - simplify_eq. eapply (moves_once _ _ _ _ _ _ x'); [by apply Driven_expiry|done|].
    rewrite Hb in Est. intros [= Ep _]. rewrite Ep in Est. destruct (Step.Status x); try done; by case_match.
  - apply moves_refused; [done|]. apply (Refused_expiry _ _ a _ e); [done..|]. by rewrite Hc.
Qed.

(** And a step that waits for its retry. *)
Lemma retry_moves answers w fl sid x :
  reachable (w, fl) → steps (db w) !! sid = Some x → Step.Status x = StepRetryBackoff →
  moves answers (Step.WorkflowRunID x) sid x (w, fl).
Proof.
  intros Hr Hx Est. pose proof (inv_timers _ (reachable_Inv Hu _ Hr)) as Hti.
  destruct (ti_retry _ _ _ _ Hti sid x Hx Est) as [?|(tid & t & Ht & Hre)]; [done|]. simpl in Ht.
  unfold retries in Hre. apply andb_true_iff in Hre as [[Ek Ep]%andb_true_iff Esid].
  apply bool_decide_eq_true in Ek, Ep, Esid.
  destruct (ti_step _ _ _ _ Hti tid t sid Ht Esid) as (x1 & Hx1 & Erun). simpl in Hx1. simplify_eq.
  destruct (Engine.HandleFiredTimer tid w) as [r w'] eqn:Hc.
  destruct (tx_ok _ _ _ _ (retry_effect Hu w fl tid t sid x r w' Hr Ht Ek Ep Esid Hx Hc))
    as [([] & -> & _ & x' & Hx' & Hcase)|[Hf [e ->]]].
  - rewrite decide_True in Hcase by done. destruct Hcase as (Eq & _).
    eapply (moves_once _ _ _ _ _ _ x'); [by apply (Driven_timer answers tid t)|..]; simpl;
      [by rewrite Hc|]. intros [= Ep' _]. congruence.
  - apply moves_refused; [done|]. apply (Refused_timer _ _ tid t e); [done..|]. simpl. by rewrite Hc.
Qed.

(** Some step of an unfinished run can be moved. *)
Lemma run_moves answers w fl rid run :
  reachable (w, fl) → runs (db w) !! rid = Some run → RunTerminal (WorkflowRun.Status run) = false →
  every_step (db w) rid (λ s, Step.TaskType s ≠ "signal_wait") → none_stranded fl rid →
  ∃ sid x, steps (db w) !! sid = Some x ∧ Step.WorkflowRunID x = rid ∧ moves answers rid sid x (w, fl).
Proof.
  intros Hr Hrun Hnt Hns Hheld. pose proof (reachable_Inv Hu _ Hr) as Hinv.
  destruct (reachable_lively Hu _ Hr rid run Hrun Hnt Hns) as (sid & x & Hx & Hxr & Hif).
  exists sid, x. split_and!; [done..|]. destruct (busy (Step.Status x)) eqn:Hb.
  - destruct (ai_busy _ _ _ (inv_att _ Hinv) sid x Hx Hb) as (id & a & Ha & <- & _ & Hl). simpl in *.
    destruct (ai_step _ _ _ (inv_att _ Hinv) id a Ha) as (x1 & Hx1 & Er & _). simpl in *. simplify_eq.
    rewrite Er in *. destruct Hl as [Hl|Ho].
    + destruct (TaskAttempt.Status a) eqn:Est; try done; [by eapply queued_moves|by eapply leased_moves].
    + destruct (owed_is_listed Hu w fl id a Hr Ha Ho) as [[] Hin]; [by apply expired_moves|].
      by destruct (Hheld a Hin).
  - rewrite <-Hxr. apply retry_moves; [done..|].
    destruct (Step.Status x) eqn:Est; try done. exfalso. apply (Hns sid x Hx Hxr).
    exact (si_wait _ (inv_steps _ Hinv) sid x Hx Est).
Qed.

Lemma every_step_advances d d' rid (P : Step.t → Prop) :
  (∀ s s', same_step s' s → P s → P s') → is_Some (runs d !! rid) → advances d d' →
  every_step d rid P → every_step d' rid P.
Proof.
  intros HP Hrun Hadv He id s' Hs' Hr.
  destruct (advancing_row d d' rid Hrun Hadv id s' Hs' Hr) as (s & Hs & Hsr & Hp).
  eapply HP; [apply Hp|]. by eapply He.
Qed.

Lemma drive answers rid n : ∀ s run,
  (run_weight (db s.1) rid < n)%nat → reachable s → runs (db s.1) !! rid = Some run →
  every_step (db s.1) rid (λ s, Step.TaskType s ≠ "signal_wait") → none_stranded s.2 rid →
  ∃ s', rtc (driven answers) s s' ∧
    ((∃ run', runs (db s'.1) !! rid = Some run' ∧ RunTerminal (WorkflowRun.Status run') = true) ∨
     may_fail ∧ refused answers rid s').
Proof.
  induction n as [|n IH]; intros [w fl] run Hw Hr Hrun Hns Hheld; [lia|]. simpl in *.
  destruct (RunTerminal (WorkflowRun.Status run)) eqn:Ht.
  { exists (w, fl). split; [apply rtc_refl|]. left. by exists run. }
  destruct (run_moves answers w fl rid run Hr Hrun Ht Hns Hheld) as (sid & x & Hx & Hxr & s1 & Hd & Hcase).
  destruct Hcase as [(x' & Hx' & Hph)|Hrefused]; [|exists s1; by split; [|right]].
  pose proof (steps_advance Hu _ _ Hr (rtc_driven _ _ _ Hd)) as Hadv. simpl in Hadv.
  pose proof (run_weight_lt _ _ rid ltac:(by eexists) Hadv sid x x' Hx Hx' Hxr Hph) as Hlt.
  destruct (ad_runs _ _ Hadv rid) as [run1 Hrun1]; [by eexists|].
  destruct (IH s1 run1) as (s2 & Hd2 & H2); [lia| |done| |exact (driven_held _ _ _ _ Hd Hheld)|].
  - exact (reachable_trans _ _ Hr (rtc_driven _ _ _ Hd)).
  - apply (every_step_advances (db w) (db s1.1)); [|by eexists|done..]. intros ? ? Hsame. by rewrite (st_type _ _ Hsame).
  - exists s2. split; [by etransitivity|done].
Qed.
End driving.

(** C9.  A run can be brought to its end: from every reachable state in which the run has no
    [signal_wait] step and none of its expired attempts is stranded (given up by its reaper),
    and whatever the tasks answer, there is a way on which workers claim queued attempts and
    report their results, retry timers fire and reapers handle the attempts they hold, at
    whose end the run is terminal (nobody having cancelled it), or the store, being one that
    can fail, answers a claim, report, timer or expiry of that run with an error.  Over the
    in-memory store, which never does, the run is terminal. *)
Theorem can_finish {E : Env} {St : Store} {L : StoreLaws St} (Hu : uuid_unique)
    (answers : uuid → bool) s rid run :
  reachable s → runs (db s.1) !! rid = Some run →
  every_step (db s.1) rid (λ s, Step.TaskType s ≠ "signal_wait") → none_stranded s.2 rid →
  ∃ s', rtc (driven answers) s s' ∧
    ((∃ run', runs (db s'.1) !! rid = Some run' ∧ RunTerminal (WorkflowRun.Status run') = true) ∨
     may_fail ∧ refused answers rid s').
Proof.
  intros Hr Hrun Hns Hheld.
  apply (drive Hu answers rid (S (run_weight (db s.1) rid)) s run); auto with lia.
Qed.

Lemma can_finish_witness :
  ∃ s' run', rtc (driven (λ _, false)) (at_ created, []) s' ∧ runs (db s'.1) !! 5%N = Some run' ∧
    RunTerminal (WorkflowRun.Status run') = true.
Proof.
  destruct (runs (db (at_ created)) !! 5%N) as [run|] eqn:Hrun; [|vm_compute in Hrun; discriminate].
  destruct (can_finish (L := memory_laws) demo_unique (λ _, false) (at_ created, []) 5%N run
    created_reachable Hrun) as (s' & Hd & [(run' & Hrun' & Ht)|[[] _]]).
  - intros id s Hs _. revert id s Hs.
    apply (bool_decide_eq_true_1 (map_Forall (λ _ s, Step.TaskType s ≠ "signal_wait") _)).
    vm_compute. reflexivity.
  - intros a Ha. inversion Ha.
  - exists s', run'. split_and!; assumption.
Defined.
End Termination.
