(* ===== verification/Findings.v ===== *)
(** Behaviours of the code that depart from what its comments promise, each shown
    by a concrete execution. *)

From stdpp Require Import gmap strings list relations.
From S2P Require Import Prelude GoLib Json Types MemStore Dsl Engine Lifecycle.
From S2P Require Import LifecycleInv Worlds Contract MemSpec Reconcile EngineSpec EngineOps RunCreate.
From S2P Require Import System Liveness Demo.
Open Scope Z_scope.

Module Findings.
Import Lifecycle System RunCreate Liveness Demo.

#[local] Existing Instances Memory.memory_store MemSpec.memory_laws.

(** No attempt is queued or leased, and no timer is pending. *)
Definition idle (d : Tables) : Prop :=
  map_Forall (λ _ a, live (TaskAttempt.Status a) = false) (attempts d) ∧
  map_Forall (λ _ t, Timer.Status t ≠ TimerPending) (timers d).

#[local] Instance idle_dec d : Decision (idle d).
Proof. unfold idle. apply _. Defined.

(** * A signal that arrives early *)

Definition plain_step (name type : string) (deps : option (list string)) : StepSpec.t :=
  StepSpec.mk name type deps None 1 1000 F64.two 60000 30.

(** [build], then the signal [approve], then [ship]. *)
Definition release : Definition_.t := Definition_.mk "release" 1
  (Some [plain_step "build" "docker" None; plain_step "approve" "signal_wait" (Some ["build"]);
         plain_step "ship" "deploy" (Some ["approve"])]).

Definition approved_early : list request :=
  [Register release; Create "release" 0 None; SendSignal 5 "approve" None;
   Claim 17 18 "w1" 30; Report 17 "w1" true None None].

Lemma approved_early_reachable : reachable (at_ approved_early, []).
Proof.
  apply run_all_reachable; [|apply rtc_refl]. constructor; [|repeat constructor].
  split; [reflexivity|]. repeat constructor.
Defined.

(** C39.  A run can stall on a signal that arrived early: [dispatchReady] visits the
    steps once, in map order, so when the signal of a PENDING [signal_wait] step is
    already there, a dependent visited before it stays PENDING although all its
    dependencies are COMPLETED.  In the reachable state shown, the run is unfinished,
    no attempt is queued or leased and no timer is pending; only another reconcile of
    the run dispatches the step.  (The condition of [never_stuck] is needed.) *)
Theorem early_signal_stalls : ∃ w run s,
  reachable (w, []) ∧ runs (db w) !! 5%N = Some run ∧
  RunTerminal (WorkflowRun.Status run) = false ∧ idle (db w) ∧
  steps (db w) !! 11%N = Some s ∧ Step.Status s = StepPending ∧
  deps_completed (steps (db w)) s ∧
  Step.Status <$> steps (db (Engine.Reconcile 5 w).2) !! 11%N = Some StepQueued.
Proof.
  destruct (runs (db (at_ approved_early)) !! 5%N) as [run|] eqn:Hr; [|vm_compute in Hr; discriminate Hr].
  destruct (steps (db (at_ approved_early)) !! 11%N) as [s|] eqn:Hs; [|vm_compute in Hs; discriminate Hs].
  destruct (steps (db (at_ approved_early)) !! 9%N) as [g|] eqn:Hg; [|vm_compute in Hg; discriminate Hg].
  assert (Step.Status s = StepPending ∧ Step.DependsOn s = ["approve"] ∧ Step.WorkflowRunID s = 5%N)
    as (E1 & E2 & E3) by (vm_compute in Hs; injection Hs as <-; split_and!; reflexivity).
  assert (Step.Status g = StepCompleted ∧ Step.StepName g = "approve" ∧ Step.WorkflowRunID g = 5%N)
    as (E4 & E5 & E6) by (vm_compute in Hg; injection Hg as <-; split_and!; reflexivity).
  exists (at_ approved_early), run, s. split_and!.
  - exact approved_early_reachable.
  - exact Hr.
  - vm_compute in Hr. injection Hr as <-. reflexivity.
  - apply (bool_decide_eq_true_1 (idle _)). vm_compute. reflexivity.
  - exact Hs.
  - exact E1.
  - intros dep. rewrite E2, list_elem_of_singleton, E3. intros ->. exists 9%N, g.
    split_and!; [exact Hg|exact E6|exact E5|rewrite E4; reflexivity].
  - vm_compute. reflexivity.
Qed.

(** * A crash in the middle of reaping *)

(** The lease of a RUNNING step's attempt has ended. *)
Definition lease_over : list request := created ++ [Claim 15 16 "w1" 0; MarkRunning 7].

(** The store when the process stops after the first half of the reaper's pass, and
    when a restarted server has swept and reaped once. *)
Definition after_crash : World := (ReapExpiredAttempts 100 (at_ lease_over)).2.
Definition after_restart : World :=
  (Engine.ReapExpiredLeases 100 (Engine.RecoverShards None after_crash).2).2.

(** A crash between the two halves of [ReapExpiredLeases] loses the step: the
    attempt is EXPIRED in a transaction of its own, and if the process stops before
    [handleAttemptOutcome] runs, the step stays RUNNING with no live attempt and no
    timer; neither the recovery sweep of the restarted server nor its reaper, which
    finds no expired lease, changes that. *)
Theorem reap_crash_strands :
  reachable (at_ lease_over, []) ∧
  (∃ a, (ReapExpiredAttempts 100 (at_ lease_over)).1 = Ok [a]) ∧
  (Engine.RecoverShards None after_crash).1 = Ok 1 ∧
  (Engine.ReapExpiredLeases 100 (Engine.RecoverShards None after_crash).2).1 = Ok 0 ∧
  Step.Status <$> steps (db after_restart) !! 7%N = Some StepRunning ∧
  WorkflowRun.Status <$> runs (db after_restart) !! 5%N = Some RunRunning ∧
  idle (db after_restart).
Proof.
  split; [apply run_all_reachable; [apply etl_valid; repeat constructor|apply rtc_refl]|].
  split; [eexists; vm_compute; reflexivity|].
  split; [vm_compute; reflexivity|]. split; [vm_compute; reflexivity|].
  split; [vm_compute; reflexivity|]. 
  split; [vm_compute; reflexivity|].
  apply (bool_decide_eq_true_1 (idle _)). vm_compute. reflexivity.
Qed.

(** * Transactions that are not rolled back *)

(** The in-memory store does not undo a failed transaction: signalling a run that
    does not exist fails with ErrNotFound and still leaves the signal behind. *)
Theorem failed_signal_persists : ∃ w,
  Engine.ApplySignal 7 "approve" None (mkWorld Memory.New 0) = (Err ErrNotFound, w) ∧
  size (signals (db w)) = 1%nat ∧ runs (db w) = ∅.
Proof. eexists. split_and!; [reflexivity|vm_compute; reflexivity|reflexivity]. Qed.
End Findings.
