(* ===== verification/Scheduler.v ===== *)
(** internal/scheduler: the consistent-hash ring over live server nodes, the shard
    map the leader publishes, and the shards a node derives from it.

    Redis is not part of the model: the functions take the replies of the Redis
    commands as arguments ([None] for an error) and return what is written back. *)

From stdpp Require Import gmap strings list sorting numbers.
From S2P Require Import Prelude GoLib Json Engine.
Open Scope Z_scope.

Module Scheduler.
Import Strings.

(** * [sort.Search] *)

(** The binary search of the standard library: [i] and [j] enclose the answer. *)
Fixpoint search_loop (fuel : nat) (f : nat → bool) (i j : nat) : nat :=
  match fuel with
  | O => i
  | S fuel =>
      if (j <=? i)%nat then i
      else
        let h := ((i + j) / 2)%nat in
        if f h then search_loop fuel f i h else search_loop fuel f (S h) j
  end.
Definition Search (n : nat) (f : nat → bool) : nat := search_loop n f 0 n.

(** * ring.go *)

Definition defaultVirtualReplicas : Z := 32.

Record Ring := mkRing {
  replicas : Z;
  sortedHashes : list Z;
  hashToNode : gmap Z string
}.

Definition hashKey (nodeID : string) (replica : Z) : Z :=
  ChecksumIEEE (nodeID +:+ "#" +:+ Itoa replica).

(** The two nested loops of [NewRing]. *)
Definition add_point (id : string) (acc : list Z * gmap Z string) (i : Z) : list Z * gmap Z string :=
  let h := hashKey id i in (acc.1 ++ [h], <[h := id]> acc.2).
Definition add_node (n : Z) (acc : list Z * gmap Z string) (id : string) : list Z * gmap Z string :=
  foldl (add_point id) acc (seqZ 0 n).

Definition NewRing (nodeIDs : list string) (n : Z) : Ring :=
  let n := if n <=? 0 then defaultVirtualReplicas else n in
  let '(hs, m) := foldl (add_node n) ([], ∅) nodeIDs in
  mkRing n (merge_sort Z.le hs) m.

Definition Get (r : Ring) (key : Z) : string :=
  let hs := sortedHashes r in
  match hs with
  | [] => ""
  | _ =>
      let idx := Search (length hs) (λ i, key <=? default 0 (hs !! i)) in
      let idx := if decide (idx = length hs) then O else idx in
      default "" (hashToNode r !! default 0 (hs !! idx))
  end.

Definition shard_key (i : Z) : Z := ChecksumIEEE ("shard#" +:+ Itoa i).

Definition AssignShards (nodeIDs : list string) (numShards : Z) : list string :=
  let ring := NewRing nodeIDs defaultVirtualReplicas in
  (λ i, Get ring (shard_key i)) <$> seqZ 0 numShards.

(** * scheduler.go *)

Record Scheduler := mkScheduler {
  nodeID : string;
  isLeader : bool;
  owned : option (list Z)
}.

Definition New (nodeID : string) : Scheduler := mkScheduler nodeID false None.

(** [None] is the nil slice: no filter. *)
Definition OwnedShards (s : Scheduler) : option (list Z) := owned s.

(** [members] is the reply of [liveMembers]; the result is the value written under
    the shard-map key, if any. *)
Definition publishShardMap (members : option (list string)) : option bytes :=
  match members with
  | None | Some [] => None
  | Some ms => Some (Text (JArr (JStr <$> AssignShards ms Engine.NumShards)))
  end.

(** [json.Unmarshal(raw, &assignment)] into a nil [[]string]. *)
Definition dec_assignment (raw : bytes) : option (list string) :=
  match raw with
  | Malformed _ => None
  | Text j =>
      match dec_slice "" dec_string None j with
      | (l, false) => Some (default [] l)
      | (_, true) => None
      end
  end.

Definition mine (node : string) (assignment : list string) : list Z :=
  (λ p, Z.of_nat p.1) <$> filter (λ p, p.2 = node) (imap pair assignment).

(** [reply] is the value stored under the shard-map key. *)
Definition refreshOwnedShards (reply : option bytes) (s : Scheduler) : Scheduler :=
  match reply with
  | None => s
  | Some raw =>
      match dec_assignment raw with
      | None => s
      | Some assignment => mkScheduler (nodeID s) (isLeader s) (Some (mine (nodeID s) assignment))
      end
  end.

(** [isLeader.Swap] after an election that was answered. *)
Definition swapLeader (ok : bool) (s : Scheduler) : Scheduler := mkScheduler (nodeID s) ok (owned s).

(** * The binary search finds the first index *)

Lemma search_loop_spec fuel f n : ∀ i j,
  (∀ a b, (a ≤ b < n)%nat → f a = true → f b = true) →
  (j - i ≤ fuel)%nat → (i ≤ j ≤ n)%nat →
  (∀ k, (k < i)%nat → f k = false) → (∀ k, (j ≤ k < n)%nat → f k = true) →
  let r := search_loop fuel f i j in
  (r ≤ n)%nat ∧ (∀ k, (k < r)%nat → f k = false) ∧ (∀ k, (r ≤ k < n)%nat → f k = true).
Proof.
  induction fuel as [|fuel IH]; intros i j Hmono Hfuel Hij Hlo Hhi; cbn [search_loop]; cbv zeta.
  { split_and!; [lia|done|]. intros k Hk. apply Hhi. lia. }
  destruct (Nat.leb_spec j i) as [Hle|Hlt].
  { split_and!; [lia|done|]. intros k Hk. apply Hhi. lia. }
  pose proof (Nat.div_mod_eq (i + j) 2) as Hdm. pose proof (Nat.mod_upper_bound (i + j) 2) as Hm.
  remember ((i + j) / 2)%nat as h eqn:Eh0. assert (i ≤ h < j)%nat as Hh by lia.
  destruct (f h) eqn:Eh.
  - apply IH; [done|lia|lia|done|]. intros k Hk. destruct (decide (k < j)%nat); [|apply Hhi; lia].
    apply (Hmono h k); [lia|done].
  - apply IH; [done|lia|lia| |done]. intros k Hk. destruct (f k) eqn:Ek; [|done].
    rewrite (Hmono k h) in Eh; [done|lia|done].
Qed.

Lemma Search_spec n f :
  (∀ a b, (a ≤ b < n)%nat → f a = true → f b = true) →
  (Search n f ≤ n)%nat ∧ (∀ k, (k < Search n f)%nat → f k = false) ∧
  (∀ k, (Search n f ≤ k < n)%nat → f k = true).
Proof. intros Hmono. apply search_loop_spec; [done|lia|lia|lia|lia]. Qed.

(** * The ring as a set of points *)

Definition node_points (n : Z) (id : string) : list Z := hashKey id <$> seqZ 0 n.
Definition points (n : Z) (ids : list string) : list Z := ids ≫= node_points n.

(** The node a point belongs to: the last one that hashes there. *)
Definition owner (n : Z) (ids : list string) (h : Z) : option string :=
  foldl (λ acc id, if decide (h ∈ node_points n id) then Some id else acc) None ids.

Lemma add_node_spec n id acc :
  add_node n acc id = (acc.1 ++ node_points n id,
    foldl (λ m h, <[h := id]> m) acc.2 (node_points n id)).
Proof.
  unfold add_node, node_points. generalize (seqZ 0 n). intros l. revert acc.
  induction l as [|i l IH]; intros [hs m]; simpl; [by rewrite app_nil_r|].
  rewrite IH. simpl. by rewrite <-(assoc_L (++)).
Qed.

Lemma foldl_insert_lookup (id : string) (l : list Z) (m : gmap Z string) h :
  foldl (λ m h, <[h := id]> m) m l !! h = if decide (h ∈ l) then Some id else m !! h.
Proof.
  revert m. induction l as [|x l IH]; intros m; cbn [foldl].
  { case_decide as Hin; [by apply elem_of_nil in Hin|done]. }
  rewrite IH. case_decide as Hl; case_decide as Hx; try done.
  - exfalso. apply Hx. by constructor.
  - apply elem_of_cons in Hx as [->|?]; [by rewrite lookup_insert_eq|done].
  - rewrite lookup_insert_ne; [done|]. intros ->. apply Hx. constructor.
Qed.

Lemma ring_fold n ids : ∃ m, foldl (add_node n) ([], ∅) ids = (points n ids, m) ∧
  ∀ h, m !! h = owner n ids h.
Proof.
  induction ids as [|id ids IH] using rev_ind; [by exists ∅|].
  destruct IH as (m & Hf & Hm). rewrite foldl_snoc, Hf, add_node_spec. simpl. eexists. split.
  - f_equal. unfold points. rewrite bind_app. simpl. by rewrite app_nil_r.
  - intros h. rewrite foldl_insert_lookup, Hm. unfold owner. by rewrite foldl_snoc.
Qed.

(** [n] replicas, or the default. *)
Definition count (n : Z) : Z := if n <=? 0 then defaultVirtualReplicas else n.

Lemma count_pos n : 0 < count n.
Proof. unfold count. destruct (Z.leb_spec n 0); [done|lia]. Qed.

Lemma NewRing_spec ids n :
  sortedHashes (NewRing ids n) = merge_sort Z.le (points (count n) ids) ∧
  ∀ h, hashToNode (NewRing ids n) !! h = owner (count n) ids h.
Proof.
  unfold NewRing. fold (count n). destruct (ring_fold (count n) ids) as (m & -> & Hm). done.
Qed.

Lemma points_owner n ids h : h ∈ points n ids ↔ ∃ id, owner n ids h = Some id.
Proof.
  induction ids as [|id ids IH] using rev_ind; simpl.
  { split; [by intros ?%elem_of_nil|by intros [? ?]]. }
  unfold points in *. rewrite bind_app, elem_of_app, IH. unfold owner. rewrite foldl_snoc. simpl.
  rewrite app_nil_r. case_decide; naive_solver.
Qed.

Lemma owner_in n ids h id : owner n ids h = Some id → id ∈ ids ∧ h ∈ node_points n id.
Proof.
  unfold owner. induction ids as [|x ids IH] using rev_ind; [done|].
  rewrite foldl_snoc, elem_of_app, list_elem_of_singleton. case_decide; naive_solver.
Qed.

Lemma points_nonempty n ids : 0 < n → ids ≠ [] → points n ids ≠ [].
Proof.
  intros Hn Hids. destruct ids as [|id ids]; [done|]. unfold points, node_points. simpl.
  intros [Hnil _]%app_nil. apply fmap_nil_inv in Hnil.
  apply (f_equal length) in Hnil. rewrite length_seqZ in Hnil. simpl in Hnil. lia.
Qed.

(** * Clockwise successors *)

(** [h] is the first point at or after [key], going round once. *)
Definition successor (hs : list Z) (key h : Z) : Prop :=
  h ∈ hs ∧ (key ≤ h ∧ (∀ h', h' ∈ hs → key ≤ h' → h ≤ h') ∨
            ∀ h', h' ∈ hs → h' < key ∧ h ≤ h').

Lemma successor_unique hs key h1 h2 : successor hs key h1 → successor hs key h2 → h1 = h2.
Proof.
  intros [H1 [[K1 M1]|A1]] [H2 [[K2 M2]|A2]].
  - specialize (M1 h2 H2 K2). specialize (M2 h1 H1 K1). lia.
  - destruct (A2 h1 H1). lia.
  - destruct (A1 h2 H2). lia.
  - destruct (A1 h2 H2), (A2 h1 H1). lia.
Qed.

Lemma successor_perm hs hs' key h : hs ≡ₚ hs' → successor hs key h → successor hs' key h.
Proof. unfold successor. intros Hp. by setoid_rewrite Hp. Qed.

Lemma sorted_lookup (l : list Z) i j x y :
  StronglySorted Z.le l → (i ≤ j)%nat → l !! i = Some x → l !! j = Some y → x ≤ y.
Proof.
  intros Hs. revert i j. induction Hs as [|z l _ IH Hz]; intros i j Hij Hi Hj; [done|].
  destruct i as [|i], j as [|j]; simpl in *; [simplify_eq; lia| |lia|].
  - simplify_eq. rewrite list.Forall_forall in Hz. apply Hz. by eapply list_elem_of_lookup_2.
  - apply (IH i j); [lia|done..].
Qed.

Section search.
Context (hs : list Z) (key : Z).
Hypothesis (Hsort : StronglySorted Z.le hs) (Hne : hs ≠ []).

Let at_least (i : nat) : bool := key <=? default 0 (hs !! i).
Let idx := Search (length hs) at_least.

(** The index [Get] computes holds the successor. *)
Lemma search_successor :
  ∃ h, hs !! (if decide (idx = length hs) then O else idx) = Some h ∧ successor hs key h.
Proof.
  destruct (Search_spec (length hs) at_least) as (Hle & Hlo & Hhi).
  { intros a b [Hab Hb]. unfold at_least.
    destruct (lookup_lt_is_Some_2 hs b Hb) as [y Hy].
    destruct (lookup_lt_is_Some_2 hs a) as [x Hx]; [lia|]. rewrite Hx, Hy. simpl.
    pose proof (sorted_lookup hs a b x y Hsort Hab Hx Hy). rewrite !Z.leb_le. lia. }
  fold idx in Hle, Hlo, Hhi. unfold at_least in Hlo, Hhi.
  assert (∀ k x, hs !! k = Some x → (k < idx)%nat → x < key) as Hbelow.
  { intros k x Hk Hlt. specialize (Hlo k Hlt). rewrite Hk in Hlo. simpl in Hlo. lia. }
  case_decide as Hend.
  - destruct hs as [|x l] eqn:Ehs; [done|]. exists x. split; [done|]. split; [constructor|right].
    intros h' [k Hk]%list_elem_of_lookup_1. pose proof (lookup_lt_Some _ _ _ Hk) as Hlt.
    split; [apply (Hbelow k); [done|lia]|].
    by apply (sorted_lookup (x :: l) 0 k x h' Hsort (Nat.le_0_l k)).
  - destruct (lookup_lt_is_Some_2 hs idx) as [x Hx]; [lia|]. exists x. split; [done|].
    split; [by eapply list_elem_of_lookup_2|left]. split.
    + specialize (Hhi idx). rewrite Hx in Hhi. simpl in Hhi. apply Z.leb_le, Hhi. lia.
    + intros h' [k Hk]%list_elem_of_lookup_1 Hkey.
      destruct (decide (k < idx)%nat) as [Hlt|]; [pose proof (Hbelow k h' Hk Hlt); lia|].
      apply (sorted_lookup hs idx k x h' Hsort); [lia|done..].
Qed.
End search.

(** [Get] finds the owner of the successor of the key. *)
Lemma Get_successor ids n key : ids ≠ [] →
  ∃ h id, successor (points (count n) ids) key h ∧ owner (count n) ids h = Some id ∧
          Get (NewRing ids n) key = id.
Proof.
  intros Hne. destruct (NewRing_spec ids n) as [Hs Hm].
  set (hs := sortedHashes (NewRing ids n)) in *.
  assert (hs ≡ₚ points (count n) ids) as Hperm by (rewrite Hs; apply merge_sort_Permutation).
  assert (hs ≠ []) as Hhs.
  { intros E. rewrite E in Hperm. apply Permutation_nil_l in Hperm.
    by apply (points_nonempty (count n) ids (count_pos n) Hne). }
  destruct (search_successor hs key) as (h & Hh & Hsucc);
    [rewrite Hs; apply (StronglySorted_merge_sort Z.le)|done|].
  apply (successor_perm _ _ _ _ Hperm) in Hsucc.
  destruct (proj1 (points_owner (count n) ids h)) as [id Hid]; [apply Hsucc|].
  exists h, id. split_and!; [done..|]. unfold Get. fold hs. destruct hs as [|x l]; [done|].
  rewrite Hh. simpl. by rewrite Hm, Hid.
Qed.

(** * Guarantees *)

Lemma ring_member ids n key : ids ≠ [] → Get (NewRing ids n) key ∈ ids ∧
  ∃ h, successor (points (count n) ids) key h ∧
       owner (count n) ids h = Some (Get (NewRing ids n) key).
Proof.
  intros Hne. destruct (Get_successor ids n key Hne) as (h & x & Hs & Ho & ->).
  split; [by apply (owner_in _ _ _ _ Ho)|eauto].
Qed.

(** C28.  Lookup in the ring is consistent hashing: the sort and binary search of
    [NewRing] and [Get] compute the node of the first point at or after the key,
    going round once; it is one of the nodes (the empty ring gives the empty name). *)
Theorem ring_lookup ids n key :
  match ids with
  | [] => Get (NewRing ids n) key = ""
  | _ => Get (NewRing ids n) key ∈ ids ∧
         ∃ h, successor (points (count n) ids) key h ∧
              owner (count n) ids h = Some (Get (NewRing ids n) key)
  end.
Proof.
  destruct ids as [|id ids]; [done|]. by apply ring_member.
Qed.

Lemma owner_app n ids1 ids2 h :
  owner n (ids1 ++ ids2) h =
    match owner n ids2 h with Some id => Some id | None => owner n ids1 h end.
Proof.
  unfold owner. rewrite foldl_app. generalize (foldl (λ acc id, if decide (h ∈ node_points n id)
    then Some id else acc) None ids1). intros a.
  induction ids2 as [|id ids2 IH] using rev_ind; [done|]. rewrite !foldl_snoc. by case_decide.
Qed.

Lemma owner_remove n ids1 id ids2 h x :
  owner n (ids1 ++ id :: ids2) h = Some x → x ≠ id → owner n (ids1 ++ ids2) h = Some x.
Proof.
  change (id :: ids2) with ([id] ++ ids2). rewrite (assoc_L (++)), !owner_app.
  destruct (owner n ids2 h); [done|]. unfold owner at 1. simpl. case_decide; [|done]. congruence.
Qed.

Lemma points_remove n ids1 id ids2 h :
  h ∈ points n (ids1 ++ ids2) → h ∈ points n (ids1 ++ id :: ids2).
Proof.
  unfold points. rewrite !bind_app. cbn [mbind list_bind]. rewrite !elem_of_app. naive_solver.
Qed.

(** Minimal disruption: when a node leaves (or joins), wherever it stands in the
    list of members, a key either belonged (belongs) to that node or keeps its owner. *)
Theorem ring_minimal_disruption ids1 id ids2 n key :
  Get (NewRing (ids1 ++ id :: ids2) n) key = id ∨
  Get (NewRing (ids1 ++ id :: ids2) n) key = Get (NewRing (ids1 ++ ids2) n) key.
Proof.
  destruct (Get_successor (ids1 ++ id :: ids2) n key) as (h & x & Hs & Ho & ->); [by destruct ids1|].
  destruct (decide (x = id)) as [->|Hne]; [by left|right].
  pose proof (owner_remove _ _ _ _ _ _ Ho Hne) as Ho'.
  assert (h ∈ points (count n) (ids1 ++ ids2)) as Hin by (apply points_owner; eauto).
  destruct (Get_successor (ids1 ++ ids2) n key) as (h' & x' & Hs' & Ho2 & ->).
  { intros E. by rewrite E in Hin; apply elem_of_nil in Hin. }
  assert (h = h') as <-; [|congruence].
  apply (successor_unique (points (count n) (ids1 ++ ids2)) key); [|done].
  destruct Hs as [_ Hcase]. split; [done|].
  destruct Hcase as [[Hk Hmin]|Hall]; [left; split; [done|]|right];
    intros y Hy; [intros Hky; apply Hmin; [|done]|apply Hall]; by apply points_remove.
Qed.

Lemma dec_published (l : list string) : dec_assignment (Text (JArr (JStr <$> l))) = Some l.
Proof.
  unfold dec_assignment, dec_slice. rewrite <-list_fmap_compose.
  assert (existsb snd ((dec_string "" ∘ JStr) <$> l) = false) as ->.
  { induction l; [done|]. simpl. done. }
  simpl. f_equal. rewrite <-list_fmap_compose. by rewrite list_fmap_id.
Qed.

Lemma elem_of_mine node l i : i ∈ mine node l ↔ ∃ k, i = Z.of_nat k ∧ l !! k = Some node.
Proof.
  unfold mine. rewrite list_elem_of_fmap. split.
  - intros ([k x] & -> & Hk). apply list_elem_of_filter in Hk as [Hx Hk]. simpl in *. subst.
    apply elem_of_lookup_imap in Hk as (j & y & [= -> ->] & Hj). eauto.
  - intros (k & -> & Hk). exists (k, node). split; [done|]. apply list_elem_of_filter. split; [done|].
    by apply (elem_of_lookup_imap_2 pair).
Qed.

(** Node [s] takes shard [i] from the map [raw]. *)
Definition takes (raw : bytes) (s : Scheduler) (i : Z) : Prop :=
  ∃ l, OwnedShards (refreshOwnedShards (Some raw) s) = Some l ∧ i ∈ l.

(** The published map, and who takes a shard from it. *)
Lemma takes_assigned l s i :
  takes (Text (JArr (JStr <$> l))) s i ↔ ∃ k, i = Z.of_nat k ∧ l !! k = Some (nodeID s).
Proof.
  unfold takes, refreshOwnedShards. rewrite dec_published. simpl. rewrite <-elem_of_mine. naive_solver.
Qed.

Lemma assigned_lookup ms k :
  AssignShards ms Engine.NumShards !! k =
    (λ i, Get (NewRing ms defaultVirtualReplicas) (shard_key i)) <$> seqZ 0 Engine.NumShards !! k.
Proof. unfold AssignShards. by rewrite list_lookup_fmap. Qed.

Lemma takes_member ms raw s i :
  publishShardMap (Some ms) = Some raw → takes raw s i → nodeID s ∈ ms.
Proof.
  destruct ms as [|m ms]; [done|]. unfold publishShardMap. intros <-%(inj Some) (k & -> & Hk)%takes_assigned.
  rewrite assigned_lookup in Hk. apply fmap_Some in Hk as (j & _ & ->). by apply ring_member.
Qed.

(** C29.  Shard ownership is a partition: once the leader has published a map for the
    live members, every node that has read it owns only shards below [NumShards],
    each shard is taken by the node of exactly one name, and that name is a member;
    with no members (or when listing them failed) nothing is published. *)
Theorem shard_partition members :
  match publishShardMap members with
  | None => members = None ∨ members = Some []
  | Some raw =>
      (∀ s i, takes raw s i → 0 ≤ i < Engine.NumShards) ∧
      ∀ i, 0 ≤ i < Engine.NumShards →
        ∃ node, (∃ ms, members = Some ms ∧ node ∈ ms) ∧ ∀ s, takes raw s i ↔ nodeID s = node
  end.
Proof.
  destruct members as [[|m ms]|]; [by right| |by left].
  unfold publishShardMap. set (l := AssignShards (m :: ms) Engine.NumShards).
  assert (∀ s i, takes (Text (JArr (JStr <$> l))) s i ↔
            ∃ k, i = Z.of_nat k ∧ l !! k = Some (nodeID s)) as Htakes by apply takes_assigned.
  pose proof (assigned_lookup (m :: ms)) as Hl. fold l in Hl.
  split.
  - intros s i (k & -> & Hk)%Htakes. rewrite Hl in Hk.
    apply fmap_Some in Hk as (j & [_ ?]%lookup_seqZ & _). lia.
  - intros i Hi. pose proof (lookup_seqZ_lt 0 Engine.NumShards (Z.to_nat i) ltac:(lia)) as Hseq.
    specialize (Hl (Z.to_nat i)). rewrite Hseq in Hl. simpl in Hl.
    set (node := Get _ _) in Hl. exists node. split; [exists (m :: ms); split; [done|]|].
    + by apply ring_member.
    + intros s. rewrite Htakes. split.
      * intros (k & -> & Hk). rewrite Nat2Z.id in Hl. rewrite Hk in Hl. by injection Hl.
      * intros E. exists (Z.to_nat i). split; [lia|]. by rewrite Hl, E.
Qed.
End Scheduler.
