(* ===== verification/Grpc.v ===== *)
(** internal/grpcapi: the worker-facing RPCs and the API-key check that guards them.

    The registry of workers (internal/workers) lives in Redis: the handlers take the
    outcome of its Redis pipeline as an argument ([None] for success).  A message
    field of type [string] that carries JSON is represented as the [bytes] it holds. *)

From stdpp Require Import gmap strings list.
From S2P Require Import Prelude GoLib Json Types Engine.
Open Scope Z_scope.

(** [err.Error()] *)
Fixpoint error_String (e : error) : string :=
  match e with
  | ErrNotFound => "store: not found"
  | ErrConflict => "store: conflict"
  | Errorf m => m
  | Wrapf m e' => m +:+ ": " +:+ error_String e'
  end.

Module Grpc.
Import Strings.

(** * auth.go *)

(** The end of both API-key checks: the header is ["Bearer " + expected].
    [subtle.ConstantTimeCompare] returns 1 exactly on equal byte strings. *)
Definition bearer_matches (header expected : string) : bool :=
  if negb (HasPrefix header "Bearer ") then false
  else bool_decide (TrimPrefix header "Bearer " = expected).

(** Incoming metadata: [None] when the context carries none; the values of a key in
    order of arrival. *)
Definition validAPIKey (md : option (string → list string)) (expected : string) : bool :=
  if bool_decide (expected = "") then false
  else match md with
       | None => false
       | Some get =>
           match get "authorization" with
           | [] => false
           | header :: _ => bearer_matches header expected
           end
       end.

Inductive code := InvalidArgument | Internal | Unauthenticated.

#[export] Instance code_eq_dec : EqDecision code.
Proof. solve_decision. Defined.

(** An RPC returns a response or a status error. *)
Inductive rpc (A : Type) :=
| Reply (a : A)
| Status (c : code) (msg : string).
Arguments Reply {A} a.
Arguments Status {A} c msg.

Definition AuthUnaryInterceptor {A} (apiKey : string) (md : option (string → list string))
    (handler : GoM World (rpc A)) : GoM World (rpc A) :=
  if validAPIKey md apiKey then handler
  else mret (Status Unauthenticated "missing or invalid API key").

(** * Messages *)

Module RegisterWorkerRequest.
Record t := mk { WorkerId : string; Queues : list string; Capacity : Z }.
End RegisterWorkerRequest.

Module HeartbeatRequest.
Record t := mk { WorkerId : string; TaskAttemptId : string }.
End HeartbeatRequest.

Module HeartbeatResponse.
Record t := mk { Ok_ : bool; LeaseExpiresAt : option time }.
End HeartbeatResponse.

Module ClaimTaskRequest.
Record t := mk { TaskAttemptId : string; IdempotencyKey : string; WorkerId : string }.
End ClaimTaskRequest.

Inductive ClaimStatus := CLAIM_STATUS_UNSPECIFIED | CLAIMED | ALREADY_CLAIMED | NOT_FOUND | CANCELLED.

#[export] Instance ClaimStatus_eq_dec : EqDecision ClaimStatus.
Proof. solve_decision. Defined.

Module ClaimTaskResponse.
Record t := mk { Status : ClaimStatus; StepName : string; TaskType : string;
  InputJson : RawMessage; AttemptNumber : Z; TimeoutSeconds : Z; LeaseExpiresAt : option time }.
End ClaimTaskResponse.

Module ReportResultRequest.
Record t := mk { TaskAttemptId : string; WorkerId : string; Success : bool; OutputJson : bytes;
  ErrorMessage : string }.
End ReportResultRequest.

Module ReportResultResponse.
Record t := mk { Ok_ : bool; Accepted : bool }.
End ReportResultResponse.

(** [int32(z)] *)
Definition wrap32 (z : Z) : Z := (z + 2 ^ 31) mod 2 ^ 32 - 2 ^ 31.

(** * server.go *)

Section server.
Context `{Env} `{!Store}.

(** [New]: a lease duration that is not positive means the default. *)
Definition lease_duration (leaseDuration : Z) : Z :=
  if leaseDuration <=? 0 then Engine.DefaultLeaseDuration else leaseDuration.

Variable LeaseDuration : Z.

Definition RegisterWorker (pipeline : option error) (req : RegisterWorkerRequest.t)
    : GoM World (rpc bool) :=
  if bool_decide (RegisterWorkerRequest.WorkerId req = "") then
    mret (Status InvalidArgument "worker_id is required")
  else match pipeline with
       | Some e => mret (Status Internal ("register: " +:+ error_String e))
       | None => mret (Reply true)
       end.

(** A failing registry heartbeat is only logged. *)
Definition Heartbeat (pipeline : option error) (req : HeartbeatRequest.t)
    : GoM World (rpc HeartbeatResponse.t) :=
  if bool_decide (HeartbeatRequest.WorkerId req = "") then
    mret (Status InvalidArgument "worker_id is required")
  else if bool_decide (HeartbeatRequest.TaskAttemptId req = "") then
    mret (Reply (HeartbeatResponse.mk true None))
  else match uuid_Parse (HeartbeatRequest.TaskAttemptId req) with
       | None => mret (Status InvalidArgument "invalid task_attempt_id")
       | Some attemptID =>
           r ← catch (HeartbeatTaskAttempt attemptID (HeartbeatRequest.WorkerId req) LeaseDuration);
           match r with
           | Err e => mret (Status Internal ("heartbeat: " +:+ error_String e))
           | Ok (exp, ok) =>
               mret (Reply (HeartbeatResponse.mk ok (if ok : bool then exp else None)))
           end
       end.

Definition claim_reply (st : ClaimStatus) : rpc ClaimTaskResponse.t :=
  Reply (ClaimTaskResponse.mk st "" "" None 0 0 None).

(** The part of [ClaimTask] after the attempt was leased. *)
Definition claimed_reply (attempt : TaskAttempt.t) : GoM World (rpc ClaimTaskResponse.t) :=
  rs ← catch (GetStep (TaskAttempt.StepID attempt));
  match rs with
  | Err e => mret (Status Internal ("load step: " +:+ error_String e))
  | Ok step =>
      rr ← catch (GetWorkflowRun (TaskAttempt.WorkflowRunID attempt));
      match rr with
      | Err e => mret (Status Internal ("load run: " +:+ error_String e))
      | Ok run =>
          if bool_decide (WorkflowRun.Status run = RunCancelled) then mret (claim_reply CANCELLED)
          else
            _ ← catch (UpdateStepStatus (Step.ID step) [StepQueued] StepRunning None None false);
            mret (Reply (ClaimTaskResponse.mk CLAIMED (Step.StepName step) (Step.TaskType step)
              (Step.Input step) (wrap32 (TaskAttempt.AttemptNumber attempt))
              (wrap32 (Step.TimeoutSeconds step)) (TaskAttempt.LeaseExpiresAt attempt)))
      end
  end.

Definition ClaimTask (req : ClaimTaskRequest.t) : GoM World (rpc ClaimTaskResponse.t) :=
  match uuid_Parse (ClaimTaskRequest.TaskAttemptId req) with
  | None => mret (Status InvalidArgument "invalid task_attempt_id")
  | Some attemptID =>
      match uuid_Parse (ClaimTaskRequest.IdempotencyKey req) with
      | None => mret (Status InvalidArgument "invalid idempotency_key")
      | Some idemKey =>
          if bool_decide (ClaimTaskRequest.WorkerId req = "") then
            mret (Status InvalidArgument "worker_id is required")
          else
            r ← catch (ClaimTaskAttempt attemptID idemKey (ClaimTaskRequest.WorkerId req) LeaseDuration);
            match r with
            | Err e => mret (Status Internal ("claim: " +:+ error_String e))
            | Ok (_, ClaimNotFound) => mret (claim_reply NOT_FOUND)
            | Ok (_, ClaimAlreadyClaimed) => mret (claim_reply ALREADY_CLAIMED)
            | Ok (None, ClaimOK) => fail (Errorf "runtime error: nil pointer dereference")
            | Ok (Some attempt, ClaimOK) => claimed_reply attempt
            end
      end
  end.

Definition ReportResult (req : ReportResultRequest.t) : GoM World (rpc ReportResultResponse.t) :=
  match uuid_Parse (ReportResultRequest.TaskAttemptId req) with
  | None => mret (Status InvalidArgument "invalid task_attempt_id")
  | Some attemptID =>
      let errMsg := if bool_decide (ReportResultRequest.ErrorMessage req = "") then None
                    else Some (ReportResultRequest.ErrorMessage req) in
      let output := if raw_empty (Some (ReportResultRequest.OutputJson req)) then None
                    else Some (ReportResultRequest.OutputJson req) in
      r ← catch (Engine.HandleTaskResult attemptID (ReportResultRequest.WorkerId req)
                   (ReportResultRequest.Success req) output errMsg);
      match r with
      | Err e => mret (Status Internal ("report result: " +:+ error_String e))
      | Ok accepted => mret (Reply (ReportResultResponse.mk true accepted))
      end
  end.
End server.
End Grpc.
