(* ===== verification/Services.v ===== *)
(** The background loops of the server: the outbox relay (internal/outbox), the timer
    poller (internal/timers), the lease reaper (internal/leases) and the recovery sweep
    of cmd/server.  A definition is one iteration of a loop; Loops.v has the loops.

    The relay works on two stores at once, the database and the queue, so its state is a
    pair.  [rollback] says which store it runs on: [WithTx] of internal/store/postgres
    undoes the database part of a failed iteration, [WithTx] of internal/store/memory
    does not; neither can undo what was sent to the queue. *)

From stdpp Require Import gmap strings list sorting.
From S2P Require Import Prelude GoLib Json Types MemStore Dsl Engine.
Open Scope Z_scope.

Module Services.

(** The defaults of the [New] functions. *)
Definition BatchSize : Z := 100.

(** [var shardIDs []int; if x.ShardIDs != nil { shardIDs = x.ShardIDs() }] *)
Definition current_shards (ShardIDs : option (option (list Z))) : option (list Z) :=
  match ShardIDs with None => None | Some shards => shards end.

Section services.
Context `{Env} `{!Store}.

(** * internal/outbox/relay.go *)

Section relay.
Context {Q : Type} (Publish : string → TaskPayload.t → GoM Q string) (rollback : bool).

Definition on_store {A} (m : GoM World A) : GoM (World * Q) A :=
  λ s, let '(r, w) := m s.1 in (r, (w, s.2)).
Definition on_queue {A} (m : GoM Q A) : GoM (World * Q) A :=
  λ s, let '(r, q) := m s.2 in (r, (s.1, q)).

(** The clock does not run backwards when a transaction is undone. *)
Definition tx {A} (m : GoM (World * Q) A) : GoM (World * Q) A :=
  λ s, match m s with
       | (Ok a, s') => (Ok a, s')
       | (Err e, (w', q')) => (Err e, (if rollback then mkWorld (db s.1) (tick w') else w', q'))
       end.

(** The body of the loop over the fetched rows. *)
Definition relay_row (published : Z) (row : OutboxMessage.t) : GoM (World * Q) Z :=
  _ ← on_queue (Publish (OutboxMessage.StreamName row) (OutboxMessage.Payload row));
  _ ← on_store (MarkOutboxPublished (OutboxMessage.ID row));
  mret (published + 1).

Definition relay_tick (ShardIDs : option (option (list Z))) (batch : Z) : GoM (World * Q) Z :=
  tx (rows ← on_store (FetchAndLockPendingOutbox (current_shards ShardIDs) batch);
      foldM relay_row 0 rows).
End relay.

(** * internal/timers/poller.go *)

(** A timer that could not be handled is logged and skipped. *)
Definition poller_tick (ShardIDs : option (option (list Z))) (batch : Z) : GoM World unit :=
  due ← ListDueTimers (current_shards ShardIDs) batch;
  foldM (λ _ t, _ ← catch (Engine.HandleFiredTimer (Timer.ID t)); mret tt) tt due.

(** * internal/leases/reaper.go *)

Definition reaper_tick (batch : Z) : GoM World unit :=
  _ ← catch (Engine.ReapExpiredLeases batch); mret tt.

(** * cmd/server/main.go *)

Definition sweep (shardIDsFunc : option (option (list Z))) : GoM World unit :=
  _ ← catch (Engine.RecoverShards (current_shards shardIDsFunc)); mret tt.
End services.
End Services.
