(* ===== verification/Http.v ===== *)
(** internal/httpapi: the REST handlers, with the CORS and API-key middleware.

    Routing and body reading belong to chi and net/http: a request arrives here as
    the route it matched, with its path and query parameters and the outcome of
    reading its body ([inl] with the error text when that failed).  The worker
    registry's reply and the scheduler's state are arguments. *)

From stdpp Require Import gmap strings list.
From S2P Require Import Prelude GoLib Json Types Dsl Engine Scheduler Grpc.
Open Scope Z_scope.

Module Http.
Import Strings.

(** [strconv.Atoi]: an optional sign, decimal digits, 64 bits. *)
Definition digits_value (l : list Z) : option Z :=
  match l with
  | [] => None
  | _ => foldl (λ acc b, a ← acc; guard ((48 ≤ b ∧ b ≤ 57)%Z);; Some (10 * a + (b - 48))) (Some 0) l
  end.
Definition Atoi (s : string) : option Z :=
  z ← match bytes_of s with
      | 45 :: l => Z.opp <$> digits_value l
      | 43 :: l => digits_value l
      | l => digits_value l
      end;
  if in_int64 z then Some z else None.

Example Atoi_ex1 : Atoi "-42" = Some (-42).
Proof. reflexivity. Qed.
Example Atoi_ex2 : Atoi "4x" = None.
Proof. reflexivity. Qed.
Example Atoi_ex3 : Atoi "9223372036854775808" = None.
Proof. reflexivity. Qed.

(** [store.RunStatus(v)]: a string that names no status matches no run. *)
Definition RunStatus_of (v : string) : option RunStatus :=
  if bool_decide (v = "PENDING") then Some RunPending
  else if bool_decide (v = "RUNNING") then Some RunRunning
  else if bool_decide (v = "COMPLETED") then Some RunCompleted
  else if bool_decide (v = "FAILED") then Some RunFailed
  else if bool_decide (v = "CANCELLED") then Some RunCancelled
  else None.

Definition maxListRunsLimit : Z := 500.

(** * Requests and responses *)

Module Info.
Record t := mk { WorkerID : string; Queues : list string; Capacity : Z; LastSeen : time }.
End Info.

Inductive body :=
| BError (msg : string)
| BStatus (status : string)
| BDefinition (d : WorkflowDefinition.t)
| BDefinitions (l : list WorkflowDefinition.t)
| BRun (r : WorkflowRun.t)
| BRuns (l : list WorkflowRun.t)
| BSteps (l : list (Step.t * list TaskAttempt.t))
| BHistory (l : list HistoryEvent.t)
| BWorkers (l : list Info.t)
| BCluster (c : option (string * bool * Z))
| BEmpty.

Inductive route :=
| Healthz
| PostDefinitions (data : string + bytes)
| GetDefinitions
| PostRuns (doc : string + json)
| GetRuns (status name limit offset : string)
| GetRun (id : string)
| GetRunSteps (id : string)
| GetRunHistory (id : string)
| PostSignal (id : string) (doc : string + json)
| PostCancel (id : string)
| GetWorkers
| GetCluster.

Module Request.
Record t := mk { Options : bool; Origin : string; Authorization : string; Route : route }.
End Request.

Module Response.
Record t := mk { Code : Z; Body : body; AllowOrigin : option string }.
End Response.

Abbreviation reply := (Z * body)%type.

Definition writeErr (status : Z) (msg : string) : GoM World reply := mret (status, BError msg).
Definition writeJSON (status : Z) (b : body) : GoM World reply := mret (status, b).

(** * Authentication *)

Definition validAPIKey (expected header : string) : bool :=
  if bool_decide (expected = "") then false else Grpc.bearer_matches header expected.

(** * Request bodies *)

Module createRunRequest.
Record t := mk { Name : string; Version : Z; Input : RawMessage }.
Definition field (key : string) (v : json) (cur : t) : t * bool :=
  if key_matches "name" key then
    let '(s, e) := dec_string (Name cur) v in (mk s (Version cur) (Input cur), e)
  else if key_matches "version" key then
    let '(z, e) := dec_int (Version cur) v in (mk (Name cur) z (Input cur), e)
  else if key_matches "input" key then
    let '(r, e) := dec_raw (Input cur) v in (mk (Name cur) (Version cur) r, e)
  else (cur, false).
End createRunRequest.

Module signalRequest.
Record t := mk { Name : string; Payload : RawMessage }.
Definition field (key : string) (v : json) (cur : t) : t * bool :=
  if key_matches "name" key then
    let '(s, e) := dec_string (Name cur) v in (mk s (Payload cur), e)
  else if key_matches "payload" key then
    let '(r, e) := dec_raw (Payload cur) v in (mk (Name cur) r, e)
  else (cur, false).
End signalRequest.

(** [yaml.Unmarshal] into a generic value and [json.Marshal] of that value, and the
    text of a JSON type error, are library code. *)
Class Codec := {
  any : Type;
  yaml_Unmarshal : bytes → outcome any;
  marshal_any : any → outcome json;
  type_error : string
}.

(** [json.NewDecoder(r.Body).Decode(&req)] *)
Definition Decode `{Codec} {A} (field : string → json → A → A * bool) (zero : A)
    (doc : string + json) : string + A :=
  match doc with
  | inl e => inl e
  | inr j => match dec_struct field zero j with
             | (a, false) => inr a
             | (_, true) => inl type_error
             end
  end.

(** dsl.go: JSON when the document starts with a brace, YAML otherwise. *)
Definition starts_with_brace (data : bytes) : bool :=
  match data with
  | Text (JObj _) => true
  | Text _ => false
  | Malformed s => HasPrefix (TrimSpace s) "{"
  end.

Definition parse_json `{Codec} (data : bytes) : outcome Definition_.t :=
  match data with
  | Malformed _ => Err (Wrapf "workflowdsl: parse json" (Errorf type_error))
  | Text j => match Workflowdsl.unmarshal_Definition (Some (Text j)) with
              | Some d => Ok d
              | None => Err (Wrapf "workflowdsl: parse json" (Errorf type_error))
              end
  end.

Definition Parse `{Codec} (data : bytes) : outcome Definition_.t :=
  if starts_with_brace data then parse_json data
  else match yaml_Unmarshal data with
       | Err e => Err (Wrapf "workflowdsl: parse yaml" e)
       | Ok generic =>
           match marshal_any generic with
           | Err e => Err (Wrapf "workflowdsl: normalize yaml to json" e)
           | Ok j => parse_json (Text j)
           end
       end.

(** * Reading a body *)

Definition maxRequestBodyBytes : Z := Z.shiftl 2 20.

(** [limitBodyMiddleware] puts an [http.MaxBytesReader] around the body: it reads at most
    that many bytes and fails on a longer body. *)
Definition MaxBytesReader (size : Z) (body : bytes) : string + bytes :=
  if maxRequestBodyBytes <? size then inl "http: request body too large" else inr body.

(** [readAll] of a body of [size] bytes behind the middleware; [broken] is the error of a
    connection that breaks. *)
Definition readAll (broken : option string) (size : Z) (body : bytes) : string + bytes :=
  match broken with
  | Some e => inl e
  | None => MaxBytesReader size body
  end.

(** * Handlers *)

Section server.
Context `{Env} `{!Store} `{Codec}.

Definition handleHealth : GoM World reply := writeJSON 200 (BStatus "ok").

(** [Registry.List]: [None] for a server without a registry. *)
Variable workers_List : option (outcome (list Info.t)).
(** The scheduler, if the server has one. *)
Variable scheduler : option Scheduler.Scheduler.

Definition already_registered (d : Definition_.t) : string :=
  "workflow " +:+ Quote (Definition_.Name d) +:+ " version " +:+ Itoa (Definition_.Version d)
    +:+ " already registered".

(** [RegisterDefinition] validates its argument in place, so the conflict message
    shows the defaulted version. *)
Definition handleCreateDefinition (data : string + bytes) : GoM World reply :=
  match data with
  | inl e => writeErr 400 e
  | inr b =>
      match Parse b with
      | Err e => writeErr 400 (error_String e)
      | Ok def =>
          saved ← catch (Engine.RegisterDefinition def);
          match saved with
          | Ok d => writeJSON 201 (BDefinition d)
          | Err e =>
              if errors_Is e ErrConflict
              then writeErr 409 (already_registered (Workflowdsl.Validate def).1)
              else writeErr 400 (error_String e)
          end
      end
  end.

Definition handleListDefinitions : GoM World reply :=
  defs ← catch ListWorkflowDefinitions;
  match defs with
  | Ok l => writeJSON 200 (BDefinitions l)
  | Err e => writeErr 500 (error_String e)
  end.

Definition handleCreateRun (doc : string + json) : GoM World reply :=
  match Decode createRunRequest.field (createRunRequest.mk "" 0 None) doc with
  | inl e => writeErr 400 ("invalid json body: " +:+ e)
  | inr req =>
      if bool_decide (createRunRequest.Name req = "") then writeErr 400 "name is required"
      else
        run ← catch (Engine.CreateRun (createRunRequest.Name req) (createRunRequest.Version req)
                       (createRunRequest.Input req));
        match run with
        | Ok r => writeJSON 201 (BRun r)
        | Err e => writeErr 400 (error_String e)
        end
  end.

(** The limit and offset of [handleListRuns]; the empty string is not a number. *)
Definition list_limit (v : string) : Z :=
  let n := default 50 (Atoi v) in
  if maxListRunsLimit <? n then maxListRunsLimit else n.
Definition list_offset (v : string) : Z :=
  match Atoi v with Some n => if 0 <? n then n else 0 | None => 0 end.
Definition optional (v : string) : option string := if bool_decide (v = "") then None else Some v.

(** A status text that names no [RunStatus] matches no run; the store is asked all the same,
    and its failure is answered. *)
Definition handleListRuns (status name limit offset : string) : GoM World reply :=
  let f st := RunFilter.mk st (optional name) (list_limit limit) (list_offset offset) in
  runs ← match optional status with
         | None => catch (ListWorkflowRuns (f None))
         | Some v => match RunStatus_of v with
                     | Some st => catch (ListWorkflowRuns (f (Some st)))
                     | None => all ← catch (ListWorkflowRuns (f None));
                               mret (match all with Ok _ => Ok [] | Err e => Err e end)
                     end
         end;
  match runs with
  | Ok l => writeJSON 200 (BRuns l)
  | Err e => writeErr 500 (error_String e)
  end.

(** [parseRunID] and the answer to an invalid id. *)
Definition with_run_id (id : string) (f : uuid → GoM World reply) : GoM World reply :=
  match uuid_Parse id with
  | None => writeErr 400 "invalid run id"
  | Some i => f i
  end.

Definition handleGetRun (id : string) : GoM World reply := with_run_id id (λ i,
  run ← catch (GetWorkflowRun i);
  match run with
  | Ok r => writeJSON 200 (BRun r)
  | Err e => if errors_Is e ErrNotFound then writeErr 404 "run not found"
             else writeErr 500 (error_String e)
  end).

(** The loop of [handleGetSteps]. *)
Fixpoint with_attempts (steps : list Step.t) : GoM World (list (Step.t * list TaskAttempt.t)) :=
  match steps with
  | [] => mret []
  | st :: steps' =>
      attempts ← ListTaskAttemptsForStep (Step.ID st);
      rest ← with_attempts steps';
      mret ((st, attempts) :: rest)
  end.

Definition handleGetSteps (id : string) : GoM World reply := with_run_id id (λ i,
  out ← catch (steps ← GetSteps i; with_attempts steps);
  match out with
  | Ok l => writeJSON 200 (BSteps l)
  | Err e => writeErr 500 (error_String e)
  end).

Definition handleGetHistory (id : string) : GoM World reply := with_run_id id (λ i,
  hist ← catch (ListHistory i);
  match hist with
  | Ok l => writeJSON 200 (BHistory l)
  | Err e => writeErr 500 (error_String e)
  end).

Definition handleSignal (id : string) (doc : string + json) : GoM World reply := with_run_id id (λ i,
  match Decode signalRequest.field (signalRequest.mk "" None) doc with
  | inl e => writeErr 400 ("invalid json body: " +:+ e)
  | inr req =>
      if bool_decide (signalRequest.Name req = "") then writeErr 400 "name is required"
      else
        r ← catch (Engine.ApplySignal i (signalRequest.Name req) (signalRequest.Payload req));
        match r with
        | Ok _ => writeJSON 200 (BStatus "ok")
        | Err e => writeErr 500 (error_String e)
        end
  end).

Definition handleCancel (id : string) : GoM World reply := with_run_id id (λ i,
  r ← catch (Engine.CancelRun i);
  match r with
  | Ok _ => writeJSON 200 (BStatus "cancelled")
  | Err e => writeErr 500 (error_String e)
  end).

Definition handleListWorkers : GoM World reply :=
  match workers_List with
  | None => writeJSON 200 (BWorkers [])
  | Some (Ok l) => writeJSON 200 (BWorkers l)
  | Some (Err e) => writeErr 500 (error_String e)
  end.

Definition handleClusterStatus : GoM World reply :=
  writeJSON 200 (BCluster (
    s ← scheduler;
    Some (Scheduler.nodeID s, Scheduler.isLeader s,
          Z.of_nat (length (default [] (Scheduler.OwnedShards s)))))).

(** * Routing and middleware *)

Definition handle (r : route) : GoM World reply :=
  match r with
  | Healthz => handleHealth
  | PostDefinitions data => handleCreateDefinition data
  | GetDefinitions => handleListDefinitions
  | PostRuns doc => handleCreateRun doc
  | GetRuns status name limit offset => handleListRuns status name limit offset
  | GetRun id => handleGetRun id
  | GetRunSteps id => handleGetSteps id
  | GetRunHistory id => handleGetHistory id
  | PostSignal id doc => handleSignal id doc
  | PostCancel id => handleCancel id
  | GetWorkers => handleListWorkers
  | GetCluster => handleClusterStatus
  end.

(** Everything but /healthz is under /api. *)
Definition authMiddleware (APIKey : string) (req : Request.t) (next : GoM World reply)
    : GoM World reply :=
  if validAPIKey APIKey (Request.Authorization req) then next
  else writeErr 401 "missing or invalid API key".

Definition routes (APIKey : string) (req : Request.t) : GoM World reply :=
  match Request.Route req with
  | Healthz => handle Healthz
  | r => authMiddleware APIKey req (handle r)
  end.

Definition cors_origin (allowed : list string) (origin : string) : option string :=
  if bool_decide (origin = "") then None
  else if bool_decide (origin ∈ allowed) then Some origin else None.

(** [corsMiddleware] wraps the router and answers OPTIONS itself. *)
Definition ServeHTTP (APIKey : string) (allowed : list string) (req : Request.t)
    : GoM World Response.t :=
  let origin := cors_origin allowed (Request.Origin req) in
  if Request.Options req then mret (Response.mk 204 BEmpty origin)
  else
    '(c, b) ← routes APIKey req;
    mret (Response.mk c b origin).
End server.
End Http.
