(* ===== verification/ApiSpec.v ===== *)
(** What the two API surfaces promise: no effect without the key, the status of
    every answer, and the claim RPC. *)

From stdpp Require Import gmap strings list relations.
From S2P Require Import Prelude GoLib Json Types MemStore Dsl Engine Lifecycle.
From S2P Require Import LifecycleInv Worlds Contract MemSpec Reconcile EngineSpec EngineOps RunCreate.
From S2P Require Import System Liveness Demo Scheduler Grpc Http.
Open Scope Z_scope.

Module ApiSpec.
Import Lifecycle LifecycleInv Worlds Contract MemSpec Reconcile EngineSpec EngineOps RunCreate System Demo.
Import Strings.

#[local] Existing Instances Memory.memory_store MemSpec.memory_laws.

(** * The API key *)

Lemma substring_all s : String.substring 0 (String.length s) s = s.
Proof. induction s as [|c s IH]; [done|]. simpl. by rewrite IH. Qed.

Lemma prefix_app p s : String.prefix p (p +:+ s) = true.
Proof. induction p as [|c p IH]; [by destruct s|]. simpl. by destruct (Ascii.ascii_dec c c). Qed.

Lemma prefix_split p s : String.prefix p s = true → s = p +:+ TrimPrefix s p.
Proof.
  unfold TrimPrefix. intros Hp. rewrite Hp. revert s Hp.
  induction p as [|c p IH]; intros s Hp; simpl.
  { by rewrite Nat.sub_0_r, substring_all. }
  destruct s as [|c' s]; [done|]. simpl in Hp |- *.
  destruct (Ascii.ascii_dec c c') as [->|]; [|done]. exact (f_equal (String c') (IH s Hp)).
Qed.

Lemma TrimPrefix_app p s : TrimPrefix (p +:+ s) p = s.
Proof.
  pose proof (prefix_split p (p +:+ s) (prefix_app p s)) as E. revert E.
  generalize (TrimPrefix (p +:+ s) p). intros t. induction p as [|c p IH]; simpl; [done|].
  intros [= E]. auto.
Qed.

Lemma bearer_matches_iff header expected :
  Grpc.bearer_matches header expected = true ↔ header = "Bearer " +:+ expected.
Proof.
  unfold Grpc.bearer_matches. split.
  - destruct (HasPrefix header "Bearer ") eqn:Hp; [|done]. simpl.
    intros E%bool_decide_eq_true. rewrite <-E. by apply prefix_split.
  - intros ->. unfold HasPrefix. rewrite prefix_app, TrimPrefix_app. by apply bool_decide_eq_true.
Qed.

Section auth.
Context `{Env} `{!Store} `{Http.Codec}.

(** The credentials an HTTP request and an RPC present. *)
Definition http_authorised (key : string) (req : Http.Request.t) : Prop :=
  key ≠ "" ∧ Http.Request.Authorization req = "Bearer " +:+ key.
Definition rpc_authorised (key : string) (md : option (string → list string)) : Prop :=
  key ≠ "" ∧ ∃ get rest, md = Some get ∧ get "authorization" = ("Bearer " +:+ key) :: rest.

Lemma http_key_iff key req :
  Http.validAPIKey key (Http.Request.Authorization req) = true ↔ http_authorised key req.
Proof.
  unfold Http.validAPIKey, http_authorised. case_bool_decide; [naive_solver|].
  rewrite bearer_matches_iff. naive_solver.
Qed.

Lemma rpc_key_iff key md : Grpc.validAPIKey md key = true ↔ rpc_authorised key md.
Proof.
  unfold Grpc.validAPIKey, rpc_authorised. case_bool_decide; [naive_solver|].
  destruct md as [get|]; [|naive_solver]. destruct (get "authorization") as [|h rest] eqn:Eg.
  - split; [done|]. intros (_ & g & rest & [= <-] & E). congruence.
  - rewrite bearer_matches_iff. split.
    + intros ->. split; [done|]. by exists get, rest.
    + intros (_ & g & rest' & [= <-] & E). congruence.
Qed.

(** Both surfaces fail closed: a request under /api, and any RPC, runs its handler
    exactly when the configured key is not empty and the request carries it as
    ["Bearer <key>"]; otherwise it is answered 401 (Unauthenticated) and changes
    nothing.  An OPTIONS request never reaches a handler. *)
Theorem key_required {A} key allowed workers sched req md (handler : GoM World (Grpc.rpc A)) w :
  (Http.Request.Route req ≠ Http.Healthz → Http.Request.Options req = false →
   (http_authorised key req →
      Http.routes workers sched key req = Http.handle workers sched (Http.Request.Route req)) ∧
   (¬ http_authorised key req →
      ∃ resp, Http.ServeHTTP workers sched key allowed req w = (Ok resp, w) ∧
              Http.Response.Code resp = 401)) ∧
  (Http.Request.Options req = true →
   ∃ resp, Http.ServeHTTP workers sched key allowed req w = (Ok resp, w) ∧
           Http.Response.Code resp = 204) ∧
  (rpc_authorised key md → Grpc.AuthUnaryInterceptor key md handler w = handler w) ∧
  (¬ rpc_authorised key md →
   ∃ msg, Grpc.AuthUnaryInterceptor key md handler w = (Ok (Grpc.Status Grpc.Unauthenticated msg), w)).
Proof.
  split_and!.
  - intros Hr Ho. unfold Http.ServeHTTP. rewrite Ho.
    assert (Http.routes workers sched key req =
            Http.authMiddleware key req (Http.handle workers sched (Http.Request.Route req))) as Er.
    { unfold Http.routes. by destruct (Http.Request.Route req). }
    rewrite Er. unfold Http.authMiddleware. rewrite <-http_key_iff.
    destruct (Http.validAPIKey _ _); split; [done|naive_solver|done|]. intros _. by eexists.
  - intros Ho. unfold Http.ServeHTTP. rewrite Ho. by eexists.
  - unfold Grpc.AuthUnaryInterceptor. rewrite <-rpc_key_iff. by intros ->.
  - unfold Grpc.AuthUnaryInterceptor. rewrite <-rpc_key_iff.
    destruct (Grpc.validAPIKey md key); [naive_solver|]. intros _. by eexists.
Qed.
End auth.

(** A codec that reads only JSON. *)
Definition demo_codec : Http.Codec := {|
  Http.any := json;
  Http.yaml_Unmarshal b := match b with Text j => Ok j | Malformed _ => Err (Errorf "yaml") end;
  Http.marshal_any := Ok;
  Http.type_error := "json"
|}.

Section demo_key.
#[local] Existing Instance demo_codec.

Lemma key_required_witness :
  ∃ resp, Http.ServeHTTP None None "" [] (Http.Request.mk false "" "Bearer " (Http.PostCancel "x"))
            (at_ created) = (Ok resp, at_ created) ∧ Http.Response.Code resp = 401.
Proof.
  apply (key_required (A := unit) "" [] None None
    (Http.Request.mk false "" "Bearer " (Http.PostCancel "x")) None (mret (Grpc.Reply tt)) (at_ created)).
  - discriminate.
  - reflexivity.
  - intros [H _]. exact (H eq_refl).
Defined.
End demo_key.

(** * Status codes *)

Lemma catch_run {A} (m : GoM World A) w : catch m w = (Ok (m w).1, (m w).2).
Proof. unfold catch. by destruct (m w). Qed.






Section codes.
Context {E : Env} {C : Http.Codec} (Hu : uuid_unique) (w : World) (fl : list (TaskAttempt.t * custody)).
Context (workers : option (outcome (list Http.Info.t))) (sched : option Scheduler.Scheduler).
Hypothesis (Hr : reachable (w, fl)).

Abbreviation handles r c b w' := (Http.handle workers sched r w = (Ok (c, b), w')).










End codes.

(** A definition of more than 2 MiB is refused without being parsed. *)
Lemma oversized_refused {E : Env} {C : Http.Codec} workers sched broken size body w :
  2097152 < size → ∃ msg,
  Http.handle workers sched (Http.PostDefinitions (Http.readAll broken size body)) w =
    (Ok (400, Http.BError msg), w).
Proof.
  intros Hs. unfold Http.readAll, Http.MaxBytesReader. destruct broken as [e|]; [by exists e|].
  change Http.maxRequestBodyBytes with 2097152. rewrite (proj2 (Z.ltb_lt _ _) Hs). by eexists.
Qed.

Section demo_codes.
#[local] Existing Instance demo_codec.

End demo_codes.

(** * The claim RPC *)

(** The answer to a claim, and what it did, when attempt [id] is there and queued. *)
Definition claimed_rpc {E : Env} (w : World) (a : TaskAttempt.t) (worker : string)
    (r : outcome (Grpc.rpc Grpc.ClaimTaskResponse.t)) (w' : World) : Prop :=
  holds_lease w' (TaskAttempt.ID a) worker ∧
  ∃ run s, runs (db w) !! TaskAttempt.WorkflowRunID a = Some run ∧
    steps (db w) !! TaskAttempt.StepID a = Some s ∧
    if bool_decide (WorkflowRun.Status run = RunCancelled) then
      r = Ok (Grpc.claim_reply Grpc.CANCELLED) ∧ steps (db w') = steps (db w)
    else
      (∃ exp, r = Ok (Grpc.Reply (Grpc.ClaimTaskResponse.mk Grpc.CLAIMED (Step.StepName s)
         (Step.TaskType s) (Step.Input s) (Grpc.wrap32 (TaskAttempt.AttemptNumber a))
         (Grpc.wrap32 (Step.TimeoutSeconds s)) exp))) ∧
      Step.Status <$> steps (db w') !! TaskAttempt.StepID a =
        Some (if bool_decide (Step.Status s = StepQueued) then StepRunning else Step.Status s).

(** The best-effort transition at the end of the handler. *)
Lemma mark_running {E : Env} w sid s :
  steps (db w) !! sid = Some s →
  let w' := (UpdateStepStatus sid [StepQueued] StepRunning None None false w).2 in
  attempts (db w') = attempts (db w) ∧
  Step.Status <$> steps (db w') !! sid =
    Some (if bool_decide (Step.Status s = StepQueued) then StepRunning else Step.Status s).
Proof.
  intros Hs. simpl. case_bool_decide as Eq.
  - erewrite UpdateStepStatus_ok; [|exact Hs|by rewrite Eq; constructor]. simpl.
    by rewrite lookup_insert_eq.
  - rewrite UpdateStepStatus_no; [cbn [snd]; by rewrite Hs|]. intros t Ht. simplify_eq.
    by rewrite list_elem_of_singleton.
Qed.

(** The answer of the claim RPC and its effect, on every branch. *)
Definition claim_answer {E : Env} (w : World) (req : Grpc.ClaimTaskRequest.t)
    (r : outcome (Grpc.rpc Grpc.ClaimTaskResponse.t)) (w' : World) : Prop :=
  let worker := Grpc.ClaimTaskRequest.WorkerId req in
  match uuid_Parse (Grpc.ClaimTaskRequest.TaskAttemptId req),
        uuid_Parse (Grpc.ClaimTaskRequest.IdempotencyKey req), bool_decide (worker = "") with
  | Some id, Some key, false =>
      match attempts (db w) !! id with
      | None => r = Ok (Grpc.claim_reply Grpc.NOT_FOUND) ∧ db w' = db w
      | Some a =>
          if bool_decide (TaskAttempt.Status a = AttemptQueued) &&
             (TaskAttempt.IdempotencyKey a =? key)%N
          then claimed_rpc w a worker r w'
          else r = Ok (Grpc.claim_reply Grpc.ALREADY_CLAIMED) ∧ db w' = db w
      end
  | _, _, _ => (∃ msg, r = Ok (Grpc.Status Grpc.InvalidArgument msg)) ∧ w' = w
  end.

Lemma ClaimTask_spec {E : Env} (Hu : uuid_unique) w fl lease req r w' :
  reachable (w, fl) → Grpc.ClaimTask lease req w = (r, w') → claim_answer w req r w'.
Proof.
  intros Hr Hrun. unfold claim_answer. set (worker := Grpc.ClaimTaskRequest.WorkerId req). cbv zeta. unfold Grpc.ClaimTask in Hrun.
  destruct (uuid_Parse (Grpc.ClaimTaskRequest.TaskAttemptId req)) as [id|];
    [|injection Hrun as <- <-; eauto].
  destruct (uuid_Parse (Grpc.ClaimTaskRequest.IdempotencyKey req)) as [key|];
    [|injection Hrun as <- <-; eauto]. fold worker in Hrun.
  destruct (bool_decide (worker = "")); [injection Hrun as <- <-; eauto|].
  pose proof (reachable_good Hu _ Hr) as Hg. simpl in Hg. unfold mbind, GoM_bind in Hrun.
  rewrite catch_run in Hrun. pose proof (wp_ClaimTaskAttempt _ _ id key worker lease w Hg) as Hwp.
  unfold wp in Hwp. destruct (ClaimTaskAttempt id key worker lease w) as [[res|e] w1]; simpl in *; [|by destruct Hwp].
  destruct Hwp as [Hg1 Hp]. unfold claimed_post in Hp.
  destruct (attempts (db w) !! id) as [a|] eqn:Ea; [|destruct Hp as [-> Hdb]; by injection Hrun as <- <-].
  destruct (_ && _); [|destruct Hp as [-> Hdb]; by injection Hrun as <- <-].
  destruct Hp as (a' & -> & Hsame & Hl & Hdb).
  pose proof (ai_key _ _ _ (inv_att _ (g_inv _ _ _ _ Hg)) id a Ea) as Eid.
  destruct (ai_step _ _ _ (inv_att _ (g_inv _ _ _ _ Hg)) id a Ea) as (s & Hs & Er & _). simpl in Hs.
  destruct (ri_step _ _ (inv_runs _ (g_inv _ _ _ _ Hg)) _ _ Hs) as [run Hrn]. simpl in Hrn. rewrite Er in Hrn.
  pose proof (si_key _ (inv_steps _ (g_inv _ _ _ _ Hg)) _ _ Hs) as Esid. simpl in Esid.
  assert (attempts (db w1) !! id = Some a') as Ha1 by (rewrite Hdb; simpl; by rewrite lookup_insert_eq).
  assert (steps (db w1) = steps (db w) ∧ runs (db w1) = runs (db w)) as [Es1 Er1] by by rewrite Hdb.
  unfold Grpc.claimed_reply, mbind, GoM_bind in Hrun. rewrite catch_run in Hrun. simpl in Hrun.
  rewrite GetStep_run, Es1, (at_step _ _ Hsame), Hs in Hrun. simpl in Hrun. rewrite catch_run in Hrun.
  simpl in Hrun. rewrite GetWorkflowRun_run, Er1, (at_run _ _ Hsame), Hrn in Hrun. simpl in Hrun.
  unfold claimed_rpc. rewrite Eid.
  destruct (bool_decide (WorkflowRun.Status run = RunCancelled)) eqn:Ec.
  - injection Hrun as <- <-. split; [by exists a'|]. exists run, s. rewrite Ec. by rewrite Es1.
  - rewrite catch_run in Hrun. injection Hrun as <- <-.
    destruct (mark_running w1 (Step.ID s) s) as [Hm1 Hm2]; [by rewrite Es1, Esid|]. simpl in Hm1, Hm2.
    split; [exists a'; by rewrite Hm1|]. exists run, s. rewrite Ec. split_and!; [done..| |].
    + rewrite (at_number _ _ Hsame). by eexists.
    + rewrite <-Esid at 1. exact Hm2.
Qed.

(** On any store, the claim RPC answers; it changes no row and does not answer CLAIMED, or
    it leases an attempt that was QUEUED. *)
Definition claim_outcome {E : Env} (w : World) (id : option uuid) (worker : string)
    (claimed : Prop) (w' : World) : Prop :=
  db w' = db w ∧ ¬ claimed ∨
  ∃ i a, id = Some i ∧ attempts (db w) !! i = Some a ∧ TaskAttempt.Status a = AttemptQueued ∧
    holds_lease w' i worker.

Definition answers_claimed (r : Grpc.rpc Grpc.ClaimTaskResponse.t) : Prop :=
  match r with
  | Grpc.Reply resp => Grpc.ClaimTaskResponse.Status resp = Grpc.CLAIMED
  | Grpc.Status _ _ => False
  end.

(** After the lease was taken only the step is written. *)
Lemma claimed_reply_attempts {E : Env} {St : Store} {L : StoreLaws St} a w :
  rows_keyed (db w) →
  wp (Grpc.claimed_reply a) (λ r w', (∃ ans, r = Ok ans) ∧ attempts (db w') = attempts (db w)) w.
Proof.
  intros Hk. unfold wp, Grpc.claimed_reply, mbind, GoM_bind. rewrite catch_run.
  pose proof (law_read _ w (R_GetStep (TaskAttempt.StepID a))) as Hd.
  destruct (GetStep _ w) as [[s|e] w1]; simpl in *; [|rewrite Hd; by eauto].
  rewrite catch_run. pose proof (law_read _ w1 (R_GetRun (TaskAttempt.WorkflowRunID a))) as Hd1.
  destruct (GetWorkflowRun _ w1) as [[run|e] w2]; simpl in *; [|rewrite Hd1, Hd; by eauto].
  rewrite Hd in Hd1. destruct (bool_decide _); simpl; [rewrite Hd1; by eauto|]. rewrite catch_run. simpl.
  split; [by eexists|]. rewrite <-Hd1 in Hk |- *.
  pose proof (law_UpdateStepStatus (Step.ID s) [StepQueued] StepRunning None None false w2 Hk) as Hwp.
  unfold wp in Hwp. destruct (UpdateStepStatus _ _ _ _ _ _ w2) as [[[]|e] w3]; simpl in *.
  - by destruct Hwp as (? & ? & _ & _ & _ & _ & _ & ->).
  - by destruct Hwp as [_ ->].
  - by destruct Hwp as [_ ->].
Qed.

Lemma ClaimTask_outcome {E : Env} {St : Store} {L : StoreLaws St} (Hu : uuid_unique) w fl lease req :
  reachable (w, fl) →
  wp (Grpc.ClaimTask lease req) (λ r w', ∃ ans, r = Ok ans ∧
    claim_outcome w (uuid_Parse (Grpc.ClaimTaskRequest.TaskAttemptId req))
      (Grpc.ClaimTaskRequest.WorkerId req) (answers_claimed ans) w') w.
Proof.
  intros Hr. pose proof (reachable_good Hu _ Hr) as Hg. simpl in Hg. unfold wp, Grpc.ClaimTask, claim_outcome.
  destruct (uuid_Parse (Grpc.ClaimTaskRequest.TaskAttemptId req)) as [id|]; [|by eauto 10].
  destruct (uuid_Parse (Grpc.ClaimTaskRequest.IdempotencyKey req)) as [key|]; [|by eauto 10].
  set (worker := Grpc.ClaimTaskRequest.WorkerId req).
  destruct (bool_decide (worker = "")); [by eauto 10|].
  unfold mbind, GoM_bind. rewrite catch_run.
  pose proof (wp_ClaimTaskAttempt _ _ id key worker lease w Hg) as Hwp. unfold wp in Hwp.
  destruct (ClaimTaskAttempt id key worker lease w) as [[res|e] w1]; simpl in *; cycle 1.
  { destruct Hwp as (_ & Hdb & _). eauto 10. }
  destruct Hwp as [Hg1 Hp]. unfold claimed_post in Hp.
  destruct (attempts (db w) !! id) as [a|] eqn:Ea; [|destruct Hp as [-> Hdb]; eexists; split; [done|left; by split]].
  destruct (bool_decide (TaskAttempt.Status a = AttemptQueued)) eqn:Eq; simpl in Hp;
    [|destruct Hp as [-> Hdb]; eexists; split; [done|left; by split]].
  apply bool_decide_eq_true in Eq.
  destruct (_ =? _)%N; [|destruct Hp as [-> Hdb]; eexists; split; [done|left; by split]].
  destruct Hp as (a' & -> & _ & Hl & Hdb).
  destruct (claimed_reply_attempts a' w1 (good_keyed _ _ _ _ Hg1)) as [[ans Ha] Hatt].
  destruct (Grpc.claimed_reply a' w1) as [r w2]. simpl in *. subst r. exists ans. split; [done|right].
  exists id, a. split_and!; [done..|]. exists a'. rewrite Hatt, Hdb. simpl. by rewrite lookup_insert_eq.
Qed.

(** The claim RPC in every reachable state: malformed arguments are refused without
    effect; an unknown attempt is NOT_FOUND and one that is not QUEUED, or is presented
    with another key, is ALREADY_CLAIMED, both without effect; otherwise the caller
    holds the lease afterwards, and the answer is CANCELLED for a cancelled run and
    CLAIMED with the data of the step (which becomes RUNNING) for any other.  The
    internal errors of the handler never occur. *)
Theorem claim_rpc {E : Env} (Hu : uuid_unique) w fl lease req r w' :
  reachable (w, fl) → Grpc.ClaimTask lease req w = (r, w') → claim_answer w req r w'.
Proof. exact (ClaimTask_spec Hu w fl lease req r w'). Qed.

Lemma claim_rpc_witness :
  holds_lease (Grpc.ClaimTask 30 (Grpc.ClaimTaskRequest.mk "15" "16" "w1") (at_ created)).2 15 "w1".
Proof.
  destruct (Grpc.ClaimTask 30 (Grpc.ClaimTaskRequest.mk "15" "16" "w1") (at_ created))
    as [r w'] eqn:Hc.
  pose proof (claim_rpc demo_unique _ [] 30 _ r w' created_reachable Hc) as H.
  unfold claim_answer in H. cbv zeta in H. clear Hc.
  assert (uuid_Parse "15" = Some 15%N) as E15 by (vm_compute; reflexivity).
  assert (uuid_Parse "16" = Some 16%N) as E16 by (vm_compute; reflexivity).
  cbn [Grpc.ClaimTaskRequest.TaskAttemptId Grpc.ClaimTaskRequest.IdempotencyKey
       Grpc.ClaimTaskRequest.WorkerId] in H. rewrite E15, E16 in H. cbn [bool_decide] in H.
  assert (∃ a, attempts (db (at_ created)) !! 15%N = Some a ∧ TaskAttempt.ID a = 15%N ∧
      bool_decide (TaskAttempt.Status a = AttemptQueued) && (TaskAttempt.IdempotencyKey a =? 16)%N = true)
    as (a & Ha & Ei & Eq).
  { eexists. split; [vm_compute; reflexivity|]. split; reflexivity. }
  rewrite Ha, Eq in H. destruct H as [H _]. rewrite Ei in H. exact H.
Defined.
End ApiSpec.
