(* ===== verification/Serving.v ===== *)
(** The server as a whole: every HTTP request, every RPC and every iteration of a
    background loop is a sequence of steps of the system of System.v, so what is proved
    of reachable states holds of the running server. *)

From stdpp Require Import gmap strings list relations sorting.
From S2P Require Import Prelude GoLib Json Types MemStore Dsl Engine Lifecycle.
From S2P Require Import LifecycleInv Worlds Contract MemSpec Reconcile EngineSpec EngineOps RunCreate.
From S2P Require Import System Liveness Demo Scheduler Grpc Services Http ApiSpec.
Open Scope Z_scope.

Module Serving.
Import Lifecycle LifecycleInv Worlds Contract MemSpec Reconcile EngineSpec EngineOps RunCreate System Demo Services.

Section simulation.
Context {E : Env} {St : Store} {L : StoreLaws St}.

(** [m], run by anyone in any state, is a sequence of steps of the system. *)
Definition simulated {A} (m : GoM World A) : Prop :=
  ∀ w fl, rtc sys_step (w, fl) ((m w).2, fl).

(** [m] changes no table. *)
Definition observes {A} (m : GoM World A) : Prop :=
  ∀ w, ∃ n, (m w).2 = mkWorld (db w) (tick w + n).

Lemma sim_observes {A} (m : GoM World A) : observes m → simulated m.
Proof.
  intros Hm w fl. destruct (Hm w) as [n ->]. apply rtc_once.
  by apply (Sys_request (Observe n)).
Qed.

Lemma sim_ret {A} (a : A) : simulated (mret a).
Proof. intros w fl. apply rtc_refl. Qed.

Lemma sim_fail {A} e : simulated (fail (A := A) e).
Proof. intros w fl. apply rtc_refl. Qed.

Lemma sim_bind {A B} (m : GoM World A) (f : A → GoM World B) :
  simulated m → (∀ a, simulated (f a)) → simulated (m ≫= f).
Proof.
  intros Hm Hf w fl. specialize (Hm w fl). unfold mbind, GoM_bind.
  destruct (m w) as [[a|e] w']; [|exact Hm]. etransitivity; [exact Hm|apply Hf].
Qed.

Lemma sim_catch {A} (m : GoM World A) : simulated m → simulated (catch m).
Proof. intros Hm w fl. specialize (Hm w fl). unfold catch. by destruct (m w). Qed.

Lemma sim_foldM {A B} (f : B → A → GoM World B) l : (∀ b x, simulated (f b x)) →
  ∀ b, simulated (foldM f b l).
Proof.
  intros Hf. induction l as [|x l IH]; intros b; simpl; [apply sim_ret|]. by apply sim_bind.
Qed.

Lemma sim_exec q : valid q → simulated (exec q).
Proof. intros Hv w fl. by apply rtc_once, Sys_request. Qed.

(** A request whose answer is used instead of dropped. *)
Lemma sim_drop {A} (m : GoM World A) : simulated (drop m) → simulated m.
Proof.
  intros Hm w fl. specialize (Hm w fl). unfold drop, mbind, GoM_bind in Hm. by destruct (m w) as [[] ?].
Qed.

Lemma sim_req {A} (m : GoM World A) q : valid q → exec q = drop m → simulated m.
Proof. intros Hv Hq. apply sim_drop. rewrite <-Hq. by apply sim_exec. Qed.

(** A read is an observation. *)
Lemma obs_read {A} (m : GoM World A) : is_read m → observes m.
Proof.
  intros Hm w. exists (tick (m w).2 - tick w)%nat.
  pose proof (law_read m w Hm) as Hdb. destruct (law_steady m (Q_Read m Hm) w) as [Ht _].
  destruct (m w) as [r [d n]]. simpl in *. subst d. f_equal. lia.
Qed.

Lemma sim_read {A} (m : GoM World A) : is_read m → simulated m.
Proof. intros Hm. by apply sim_observes, obs_read. Qed.

Lemma obs_gets {A} (f : World → A) : observes (gets f).
Proof. intros w. exists 0%nat. simpl. rewrite Nat.add_0_r. by destruct w. Qed.

Lemma obs_ret {A} (a : A) : observes (mret a).
Proof. apply (obs_gets (λ _, a)). Qed.

Lemma obs_fail {A} e : observes (fail (A := A) e).
Proof. intros w. exists 0%nat. simpl. rewrite Nat.add_0_r. by destruct w. Qed.

Lemma obs_tick {A} (f : nat → A) : observes (tick_of f).
Proof. intros w. exists 1%nat. simpl. f_equal. lia. Qed.

Lemma obs_bind {A B} (m : GoM World A) (f : A → GoM World B) :
  observes m → (∀ a, observes (f a)) → observes (m ≫= f).
Proof.
  intros Hm Hf w. destruct (Hm w) as [n Hn]. unfold mbind, GoM_bind.
  destruct (m w) as [[a|e] w']; simpl in Hn; subst w'; [|by exists n].
  destruct (Hf a (mkWorld (db w) (tick w + n))) as [k ->]. exists (n + k)%nat. simpl. f_equal. lia.
Qed.
End simulation.

Create HintDb sim.
#[export] Hint Resolve sim_ret sim_fail sim_bind sim_catch sim_foldM sim_observes : sim.
#[export] Hint Extern 1 (simulated _) => apply sim_read; constructor : sim.
#[export] Hint Resolve obs_gets obs_ret obs_fail obs_tick obs_bind : sim.

(** Follows the structure of a handler. *)
Ltac sim_step :=
  match goal with
  | |- simulated (_ ≫= _) => apply sim_bind; [|intros ?]
  | |- simulated (mret _) => apply sim_ret
  | |- simulated (fail _) => apply sim_fail
  | |- simulated (catch _) => apply sim_catch
  | |- observes (_ ≫= _) => apply obs_bind; [|intros ?]
  | |- observes (mret _) => apply obs_ret
  | |- observes (gets _) => apply obs_gets
  | |- observes (tick_of _) => apply obs_tick
  | |- observes (fail _) => apply obs_fail
  | |- context [match ?x with _ => _ end] => destruct x
  end.
Ltac sim_steps := repeat sim_step.

Section operations.
Context {E : Env} {St : Store} {L : StoreLaws St}.
Hypothesis Hu : uuid_unique.

(** * Store and engine operations *)

Lemma sim_Claim a key worker lease : simulated (ClaimTaskAttempt a key worker lease).
Proof. by apply (sim_req _ (Claim a key worker lease)). Qed.
Lemma sim_MarkRunning s : simulated (UpdateStepStatus s [StepQueued] StepRunning None None false).
Proof. by apply (sim_req _ (MarkRunning s)). Qed.
Lemma sim_Heartbeat a worker lease : simulated (HeartbeatTaskAttempt a worker lease).
Proof. by apply (sim_req _ (Heartbeat a worker lease)). Qed.
Lemma sim_Report a worker success out err : simulated (Engine.HandleTaskResult a worker success out err).
Proof. by apply (sim_req _ (Report a worker success out err)). Qed.
Lemma sim_FireTimer t : simulated (Engine.HandleFiredTimer t).
Proof. by apply (sim_exec (FireTimer t)). Qed.
Lemma sim_Cancel r : simulated (Engine.CancelRun r).
Proof. by apply (sim_exec (Cancel r)). Qed.
Lemma sim_Signal r name payload : simulated (Engine.ApplySignal r name payload).
Proof. by apply (sim_exec (SendSignal r name payload)). Qed.
Lemma sim_Reconcile r : simulated (Engine.Reconcile r).
Proof. by apply (sim_exec (ReconcileRun r)). Qed.
Lemma sim_Publish k : simulated (MarkOutboxPublished k).
Proof. by apply (sim_exec (Publish k)). Qed.
Lemma sim_Create name version input : simulated (Engine.CreateRun name version input).
Proof. by apply (sim_req _ (Create name version input)). Qed.
Lemma sim_Register d : go_ints d → simulated (Engine.RegisterDefinition d).
Proof. intros Hd. by apply (sim_req _ (Register d)). Qed.

(** * The background loops *)

(** Handling one expired attempt: it is done, or undone and the attempt stranded. *)
Lemma sim_expire_one a fl1 fl2 w :
  reachable (w, fl1 ++ (a, Held) :: fl2) →
  ∃ kept, sys_step (w, fl1 ++ (a, Held) :: fl2) ((expire a w).2, fl1 ++ kept ++ fl2) ∧ (kept = [] ∨ may_fail).
Proof.
  intros Hr. set (body := Engine.handleAttemptOutcome a false None lease_lost).
  assert (steady body) as Hst by (unfold body; steady). destruct (Hst w) as [Ht Hseq].
  destruct (law_WithTx body w) as [[Heq Hok]|(Hm & [e He] & [[Heq [[] Hb]]|Hun])].
  - exists []. split; [|by left]. unfold expire. fold body. rewrite Heq.
    pose proof (proj1 (sys_inv_one _ _ _ _ _ _) (reachable_inv Hu _ Hr)) as Hi.
    pose proof (wp_expire_body Hu _ _ a _ lease_lost w Hi) as Hp. unfold wp in Hp. fold body in Hp.
    destruct (body w) as [[[]|e] w1] eqn:Hb; simpl in Hp; [|by destruct (Hok Hp)].
    apply Sys_expire. unfold expire. fold body. by rewrite Heq.
  - exists []. split; [|by left]. apply (Sys_expire_unanswered a fl1 fl2 w e); fold body.
    + unfold expire. fold body. destruct (WithTx body w). simpl in *. by subst.
    + unfold expire. fold body. rewrite Heq. destruct (body w). simpl in *. by subst.
  - exists [(a, Stranded)]. split; [|by right]. apply (Sys_expire_undone a fl1 fl2 w e).
    + unfold expire. fold body. destruct (WithTx body w). simpl in *. by subst.
    + unfold expire. fold body. destruct Hun as (n & Hn & Ht' & Hdb). exists n.
      split_and!; [destruct Hn; lia|lia|done].
Qed.

(** The second half of [ReapExpiredLeases]: the expired attempts, one by one. *)
Lemma sim_expire out kept w fl :
  reachable (w, kept ++ ((λ a, (a, Held)) <$> out) ++ fl) →
  ∃ lost, rtc sys_step (w, kept ++ ((λ a, (a, Held)) <$> out) ++ fl)
    ((foldM (λ _ a, _ ← catch (WithTx (Engine.handleAttemptOutcome a false None lease_lost));
                    mret tt) tt out w).2, kept ++ lost ++ fl) ∧ (lost = [] ∨ may_fail).
Proof.
  revert kept w. induction out as [|a out IH]; intros kept w Hr; [exists []; by split; [apply rtc_refl|left]|].
  destruct (sim_expire_one a kept (fmap (M := list) (λ a, (a, Held)) out ++ fl) w Hr) as (k & Hs & Hk).
  destruct (IH (kept ++ k) (expire a w).2) as (lost & Hs2 & Hl).
  { rewrite <-(assoc_L (++)). by eapply rtc_r. }
  exists (k ++ lost). rewrite <-!(assoc_L (++)) in Hs2. split.
  - eapply rtc_l; [exact Hs|]. rewrite <-(assoc_L (++)). cbn [foldM].
    unfold mbind at 1, GoM_bind at 1, mbind at 1, GoM_bind at 1, catch. fold (expire a).
    destruct (expire a w) as [r w']. exact Hs2.
  - destruct Hk as [->|?]; [|by right]. done.
Qed.

(** A reaping pass; [lost] are the attempts it expired whose handling was undone. *)
Lemma sim_Reap limit w fl : reachable (w, fl) →
  ∃ lost, rtc sys_step (w, fl) ((Engine.ReapExpiredLeases limit w).2, lost ++ fl) ∧
          (lost = [] ∨ may_fail).
Proof.
  intros Hr. unfold Engine.ReapExpiredLeases. unfold mbind at 1, GoM_bind at 1.
  destruct (ReapExpiredAttempts limit w) as [[out|e] w'] eqn:Hrun.
  - assert (sys_step (w, fl) (w', [] ++ ((λ a, (a, Held)) <$> out) ++ fl)) as Hs by exact (Sys_reap limit w fl out w' Hrun).
    destruct (sim_expire out [] w' fl) as (lost & Hs2 & Hl); [by eapply rtc_r|].
    exists lost. split; [|done]. eapply rtc_l; [exact Hs|].
    unfold mbind at 1, GoM_bind at 1. by destruct (foldM _ _ _ _) as [[] ?].
  - exists []. split; [|by left]. apply rtc_once. by eapply Sys_reap_failed.
Qed.

Lemma sim_poller shards batch : simulated (poller_tick shards batch).
Proof.
  unfold poller_tick. apply sim_bind; [apply sim_read; constructor|]. intros l. apply sim_foldM.
  intros _ t. sim_steps. apply sim_FireTimer.
Qed.

Lemma sim_reaper batch w fl : reachable (w, fl) →
  ∃ lost, rtc sys_step (w, fl) ((reaper_tick batch w).2, lost ++ fl) ∧ (lost = [] ∨ may_fail).
Proof.
  intros Hr. destruct (sim_Reap batch w fl Hr) as (lost & Hs & Hl). exists lost. split; [|done].
  unfold reaper_tick, catch, mbind, GoM_bind. by destruct (Engine.ReapExpiredLeases batch w).
Qed.

Lemma sim_sweep shards : simulated (sweep shards).
Proof.
  unfold sweep. sim_steps. unfold Engine.RecoverShards. apply sim_bind; [apply sim_read; constructor|].
  intros l. sim_steps. apply sim_foldM. intros _ r. sim_steps. apply sim_Reconcile.
Qed.

Section relay.
Context {Q : Type} (Publish : string → TaskPayload.t → GoM Q string).

Lemma sim_relay_row n row w q fl :
  let w' := (relay_row Publish n row (w, q)).2.1 in
  rtc sys_step (w, fl) (w', fl) ∧ (tick w ≤ tick w')%nat.
Proof.
  unfold relay_row, on_queue, on_store, mbind, GoM_bind. cbn [fst snd].
  destruct (Publish _ _ q) as [[id|e] q']; [|by split]. cbn [fst snd].
  pose proof (rtc_once _ _ (Sys_request (System.Publish (OutboxMessage.ID row)) w fl I)) as Hs.
  destruct (law_steady _ (Q_MarkOutbox (OutboxMessage.ID row)) w) as [Ht _].
  cbn [exec] in Hs. by destruct (MarkOutboxPublished _ w) as [[[]|e] w'].
Qed.

Lemma sim_relay_rows rows n w q fl :
  let w' := (foldM (relay_row Publish) n rows (w, q)).2.1 in
  rtc sys_step (w, fl) (w', fl) ∧ (tick w ≤ tick w')%nat.
Proof.
  revert n w q. induction rows as [|row rows IH]; intros n w q; [by split|].
  cbn [foldM]. cbv zeta. unfold mbind, GoM_bind. destruct (sim_relay_row n row w q fl) as [Hs Ht].
  destruct (relay_row Publish n row (w, q)) as [[k|e] [w1 q1]]; simpl in Hs, Ht; [|by split].
  destruct (IH k w1 q1) as [Hs2 Ht2]. split; [by etransitivity|by etransitivity].
Qed.

Lemma sim_relay rollback shards batch w q fl :
  rtc sys_step (w, fl) ((relay_tick Publish rollback shards batch (w, q)).2.1, fl).
Proof.
  unfold relay_tick, tx, mbind, GoM_bind, on_store at 1. cbn [fst snd].
  assert (∀ w', (tick w ≤ tick w')%nat → rtc sys_step (w, fl) (mkWorld (db w) (tick w'), fl)) as Hback.
  { intros w' Hle. apply rtc_once. replace (tick w') with (tick w + (tick w' - tick w))%nat by lia.
    by apply (Sys_request (Observe (tick w' - tick w))). }
  destruct (obs_read _ (R_Fetch (current_shards shards) batch) w) as [k Hf].
  destruct (FetchAndLockPendingOutbox _ _ w) as [r w1]. simpl in Hf. subst w1.
  assert (rtc sys_step (w, fl) (mkWorld (db w) (tick w + k), fl)) as Hs.
  { apply rtc_once. by apply (Sys_request (Observe k)). }
  destruct r as [rows|e]; [|by destruct rollback].
  destruct (sim_relay_rows rows 0 (mkWorld (db w) (tick w + k)) q fl) as [Hr Hle].
  destruct (foldM _ 0 rows _) as [[n|e] [w2 q2]]; simpl in Hr, Hle |- *; [by etransitivity|].
  destruct rollback; [|by etransitivity]. apply Hback. lia.
Qed.
End relay.

(** * The API surfaces *)

(** What a decoder keeps for every member, it keeps for the whole object. *)
Lemma dec_struct_inv {A} (I : A → Prop) (field : string → json → A → A * bool) a j :
  (∀ key v a, I a → I (field key v a).1) → I a → I (dec_struct field a j).1.
Proof.
  intros Hf Ha. destruct j as [| | | | | |kvs]; try done. unfold dec_struct. cbn beta iota.
  assert (∀ acc : A * bool, I acc.1 →
    I (foldl (λ acc kv, let '(a, e) := field kv.1 kv.2 acc.1 in (a, acc.2 || e)) acc kvs).1) as H;
    [|by apply (H (a, false))].
  induction kvs as [|kv kvs IH]; intros acc Hacc; [done|]. simpl. apply IH.
  pose proof (Hf kv.1 kv.2 acc.1 Hacc) as Hk. destruct (field kv.1 kv.2 acc.1). exact Hk.
Qed.

Lemma dec_int_inv z v : in_int64 z = true → in_int64 (dec_int z v).1 = true.
Proof. intros Hz. destruct v; simpl; try done. by case_match. Qed.

Lemma step_field_ints key v s : Workflowdsl.ints_ok s → Workflowdsl.ints_ok (Workflowdsl.step_field key v s).1.
Proof.
  destruct s as [name type deps input att init mult maxb tmo]. intros (H1 & H2 & H3 & H4).
  simpl in *. apply (dec_int_inv _ v) in H1 as ?, H2 as ?, H3 as ?, H4 as ?.
  unfold Workflowdsl.step_field. repeat case_match;
    try match goal with He : dec_int _ _ = _ |- _ => rewrite He in * end; by split_and!.
Qed.

Lemma dec_steps_ints cur v :
  Forall Workflowdsl.ints_ok (Workflowdsl.elems cur) →
  Forall Workflowdsl.ints_ok
    (Workflowdsl.elems (dec_slice Workflowdsl.zero_StepSpec (dec_struct Workflowdsl.step_field) cur v).1).
Proof.
  intros Hc. destruct v as [| | | | |l|]; try done. simpl. apply list.Forall_forall.
  intros s ([s' b] & -> & Hp)%list_elem_of_fmap. apply list_elem_of_fmap in Hp as (j & -> & _).
  by apply (dec_struct_inv Workflowdsl.ints_ok); [apply step_field_ints|].
Qed.

Lemma definition_field_ints key v d : go_ints d → go_ints (Workflowdsl.definition_field key v d).1.
Proof.
  destruct d as [name version steps]. intros [H1 H2].
  apply (dec_int_inv _ v) in H1 as Hv. apply (dec_steps_ints _ v) in H2 as Hs.
  unfold Workflowdsl.definition_field. simpl in *. repeat case_match; try by split.
Qed.

Lemma unmarshal_ints b d : Workflowdsl.unmarshal_Definition b = Some d → go_ints d.
Proof.
  unfold Workflowdsl.unmarshal_Definition. destruct b as [[j|]|]; [|done..].
  pose proof (dec_struct_inv go_ints Workflowdsl.definition_field Workflowdsl.zero_Definition j
    definition_field_ints) as H.
  destruct (dec_struct _ _ j) as [d' []]; [done|]. intros [= <-]. apply H. by split; [|constructor].
Qed.

Lemma sim_ClaimTask lease req : simulated (Grpc.ClaimTask lease req).
Proof.
  unfold Grpc.ClaimTask, Grpc.claimed_reply.
  sim_steps; auto using sim_Claim, sim_MarkRunning with sim.
Qed.

Lemma sim_rpc_Heartbeat lease pipeline req : simulated (Grpc.Heartbeat lease pipeline req).
Proof. unfold Grpc.Heartbeat. sim_steps; apply sim_Heartbeat. Qed.

Lemma sim_ReportResult req : simulated (Grpc.ReportResult req).
Proof. unfold Grpc.ReportResult. cbv zeta. sim_steps; apply sim_Report. Qed.

Section http.
Context {C : Http.Codec}.

Lemma Parse_ints b d : Http.Parse b = Ok d → go_ints d.
Proof.
  assert (∀ data, Http.parse_json data = Ok d → go_ints d) as Hj.
  { intros [j|]; [|done]. unfold Http.parse_json.
    destruct (Workflowdsl.unmarshal_Definition (Some (Text j))) as [d'|] eqn:Hun; [|done].
    intros [= <-]. by eapply unmarshal_ints. }
  unfold Http.Parse. destruct (Http.starts_with_brace b); [apply Hj|].
  repeat case_match; try done. apply Hj.
Qed.

Lemma sim_with_attempts l : simulated (Http.with_attempts l).
Proof.
  induction l as [|s l IH]; simpl; [apply sim_ret|].
  sim_steps; [apply sim_read; constructor|exact IH].
Qed.

Lemma sim_define data : simulated (Http.handleCreateDefinition data).
Proof.
  unfold Http.handleCreateDefinition, Http.writeErr, Http.writeJSON.
  destruct data as [e|b]; [apply sim_ret|].
  destruct (Http.Parse b) as [d|e] eqn:Hp; [|apply sim_ret].
  sim_steps. by apply sim_Register, (Parse_ints b).
Qed.

#[local] Hint Resolve sim_define sim_Create sim_with_attempts sim_Signal sim_Cancel : sim.

Lemma sim_handle workers sched r : simulated (Http.handle workers sched r).
Proof.
  destruct r; simpl; auto with sim nocore;
    unfold Http.handleHealth, Http.handleListDefinitions, Http.handleCreateRun, Http.handleListRuns,
      Http.handleGetRun,
      Http.handleGetSteps, Http.handleGetHistory, Http.handleSignal, Http.handleCancel,
      Http.handleListWorkers, Http.handleClusterStatus, Http.with_run_id, Http.writeErr, Http.writeJSON;
    cbv zeta; sim_steps; auto with sim nocore.
Qed.

Lemma sim_ServeHTTP workers sched key allowed req :
  simulated (Http.ServeHTTP workers sched key allowed req).
Proof.
  unfold Http.ServeHTTP. cbv zeta. destruct (Http.Request.Options req); [apply sim_ret|].
  apply sim_bind; [|intros []; apply sim_ret].
  unfold Http.routes, Http.authMiddleware. destruct (Http.Request.Route req); [apply sim_handle|..];
    (destruct (Http.validAPIKey _ _); [apply sim_handle|apply sim_ret]).
Qed.

Lemma sim_Auth {A} key md (handler : GoM World (Grpc.rpc A)) :
  simulated handler → simulated (Grpc.AuthUnaryInterceptor key md handler).
Proof. intros Hh. unfold Grpc.AuthUnaryInterceptor. by destruct (Grpc.validAPIKey md key); [|apply sim_ret]. Qed.

(** What the server process does, one item at a time: it answers a request or an RPC, or
    a background loop makes an iteration.  [Q] and [Publish] are the queue of the relay. *)
Inductive event {Q : Type} :=
| ServeHTTP (workers : option (outcome (list Http.Info.t))) (sched : option Scheduler.Scheduler)
    (key : string) (allowed : list string) (req : Http.Request.t)
| RegisterWorker (key : string) (md : option (string → list string)) (pipeline : option error)
    (req : Grpc.RegisterWorkerRequest.t)
| WorkerHeartbeat (key : string) (md : option (string → list string)) (lease : Z)
    (pipeline : option error) (req : Grpc.HeartbeatRequest.t)
| ClaimTask (key : string) (md : option (string → list string)) (lease : Z)
    (req : Grpc.ClaimTaskRequest.t)
| ReportResult (key : string) (md : option (string → list string)) (req : Grpc.ReportResultRequest.t)
| RelayTick (rollback : bool) (shards : option (option (list Z))) (batch : Z) (q : Q)
| PollerTick (shards : option (option (list Z))) (batch : Z)
| ReaperTick (batch : Z)
| RecoverySweep (shards : option (option (list Z))).

Definition serve {Q} (Publish : string → TaskPayload.t → GoM Q string) (ev : @event Q) (w : World)
    : World :=
  match ev with
  | ServeHTTP workers sched key allowed req => (Http.ServeHTTP workers sched key allowed req w).2
  | RegisterWorker key md pipeline req =>
      (Grpc.AuthUnaryInterceptor key md (Grpc.RegisterWorker pipeline req) w).2
  | WorkerHeartbeat key md lease pipeline req =>
      (Grpc.AuthUnaryInterceptor key md (Grpc.Heartbeat lease pipeline req) w).2
  | ClaimTask key md lease req => (Grpc.AuthUnaryInterceptor key md (Grpc.ClaimTask lease req) w).2
  | ReportResult key md req => (Grpc.AuthUnaryInterceptor key md (Grpc.ReportResult req) w).2
  | RelayTick rollback shards batch q => (relay_tick Publish rollback shards batch (w, q)).2.1
  | PollerTick shards batch => (poller_tick shards batch w).2
  | ReaperTick batch => (reaper_tick batch w).2
  | RecoverySweep shards => (sweep shards w).2
  end.

Lemma serve_simulated {Q} (Publish : string → TaskPayload.t → GoM Q string) ev w fl :
  reachable (w, fl) → ∃ lost,
    rtc sys_step (w, fl) (serve Publish ev w, lost ++ fl) ∧ (lost = [] ∨ may_fail).
Proof.
  intros Hr. destruct ev as [| | | | | | |batch|]; [..|by apply sim_reaper|];
    exists []; (split; [|by left]); simpl.
  - apply sim_ServeHTTP.
  - apply sim_Auth. unfold Grpc.RegisterWorker. sim_steps.
  - apply sim_Auth, sim_rpc_Heartbeat.
  - apply sim_Auth, sim_ClaimTask.
  - apply sim_Auth, sim_ReportResult.
  - apply sim_relay.
  - apply sim_poller.
  - apply sim_sweep.
Qed.

(** The state of the server after a sequence of events. *)
Definition serve_all {Q} (Publish : string → TaskPayload.t → GoM Q string) (evs : list event)
    (w : World) : World := foldl (λ w ev, serve Publish ev w) w evs.

Lemma serve_all_simulated {Q} (Publish : string → TaskPayload.t → GoM Q string) evs w fl :
  reachable (w, fl) → ∃ lost,
    rtc sys_step (w, fl) (serve_all Publish evs w, lost ++ fl) ∧ (lost = [] ∨ may_fail).
Proof.
  intros Hr. induction evs as [|ev evs IH] using rev_ind.
  { exists []. split; [apply rtc_refl|by left]. }
  destruct IH as (lost & Hs & Hl). unfold serve_all in *. rewrite foldl_snoc.
  destruct (serve_simulated Publish ev _ (lost ++ fl) (reachable_trans _ _ Hr Hs)) as (lost' & Hs' & Hl').
  exists (lost' ++ lost). rewrite <-app_assoc. split; [by etrans|].
  destruct Hl as [->|?]; [|by right]. by rewrite app_nil_r.
Qed.

(** C5.  The server stays within the system of System.v: from a reachable state, every
    HTTP request (authorised or not, well formed or not), every RPC and every iteration of
    the outbox relay (over any queue, failing or not, with or without rollback), of the
    timer poller, of the lease reaper and of the recovery sweep is a sequence of system
    steps, whatever statements the store fails.  Hence every state the running server gets
    into is reachable, and the theorems about reachable states are theorems about the
    server; only a store that may fail leaves attempts with their expiry unhandled. *)
Theorem server_within_system {Q} (Publish : string → TaskPayload.t → GoM Q string) :
  (∀ ev w fl, reachable (w, fl) → ∃ lost,
     rtc sys_step (w, fl) (serve Publish ev w, lost ++ fl) ∧ (lost = [] ∨ may_fail)) ∧
  ∀ evs, ∃ fl, reachable (serve_all Publish evs init.1, fl) ∧ (fl = [] ∨ may_fail).
Proof.
  split; [intros; by apply serve_simulated|]. intros evs.
  destruct (serve_all_simulated Publish evs init.1 []) as (lost & Hs & Hl); [apply rtc_refl|].
  rewrite app_nil_r in Hs. by exists lost.
Qed.
End http.
End operations.

Section demo_server.
#[local] Existing Instances Memory.memory_store MemSpec.memory_laws ApiSpec.demo_codec.

(** A poller and a reaper at work after a run was created. *)
Lemma server_within_system_witness :
  ∃ lost, rtc sys_step (at_ created, [])
    (serve (Q := unit) (λ _ _, mret "0") (ReaperTick 100) (at_ created), lost ++ []) ∧ lost = [].
Proof.
  destruct (proj1 (server_within_system (Q := unit) demo_unique (λ _ _, mret "0")) (ReaperTick 100)
    (at_ created) [] created_reachable) as (lost & Hs & [Hl|[]]).
  exists lost. split; [exact Hs|exact Hl].
Defined.
End demo_server.
End Serving.
