(* ===== verification/Floats.v ===== *)
(** Rounding of IEEE-754 doubles, as far as the sources depend on it: the integer part of
    [q * float64(n)] for a fraction [q] below one is at most [n]. *)

From Stdlib Require Import SpecFloat.
From stdpp Require Import base numbers.
From S2P Require Import Prelude GoLib.
Open Scope Z_scope.

Module Floats.

Lemma digits_size p : digits2_pos p = Pos.size p.
Proof. induction p as [p IH|p IH|]; simpl; by rewrite ?IH. Qed.

Lemma digits_le m k : 0 ≤ k → 0 ≤ m < 2 ^ k → Zdigits2 m ≤ k.
Proof.
  intros Hk Hm. destruct m as [|p|p]; simpl; [done| |lia]. rewrite digits_size.
  pose proof (Pos.size_le p) as Hs. apply Pos2Z.pos_le_pos in Hs.
  rewrite Pos2Z.inj_pow in Hs. change (Z.pos p~0) with (2 * Z.pos p) in Hs.
  destruct (Z.le_gt_cases (Z.pos (Pos.size p)) k) as [|Hgt]; [done|].
  assert (2 ^ (k + 1) ≤ 2 ^ Z.pos (Pos.size p)) as Hp by (apply Z.pow_le_mono_r; lia).
  rewrite Z.pow_add_r in Hp by lia. lia.
Qed.

Lemma digits_lt p : Z.pos p < 2 ^ Z.pos (digits2_pos p).
Proof. rewrite digits_size, <-Pos2Z.inj_pow. apply Pos2Z.pos_lt_pos, Pos.size_gt. Qed.

(** ** Shifting right *)

Lemma shr_1_m mrs : 0 ≤ shr_m mrs → shr_m (shr_1 mrs) = shr_m mrs / 2.
Proof.
  destruct mrs as [m r s]. simpl. intros Hm. destruct m as [|[p|p|]|]; simpl; [done| | |done|lia].
  - rewrite Pos2Z.inj_xI. apply (Z.div_unique _ _ _ 1); lia.
  - rewrite Pos2Z.inj_xO. apply (Z.div_unique _ _ _ 0); lia.
Qed.

Lemma iter_pos_iter {A} (f : A → A) p x : SpecFloat.iter_pos f p x = Nat.iter (Pos.to_nat p) f x.
Proof.
  revert x. induction p as [p IH|p IH|]; intros x; cbn [SpecFloat.iter_pos]; [| |done].
  - rewrite !IH, <-Nat.iter_add, Pos2Nat.inj_xI, <-Nat.iter_succ_r. f_equal. lia.
  - rewrite !IH, <-Nat.iter_add, Pos2Nat.inj_xO. f_equal. lia.
Qed.

Lemma iter_shr_m n mrs : 0 ≤ shr_m mrs →
  shr_m (Nat.iter n shr_1 mrs) = shr_m mrs / 2 ^ Z.of_nat n.
Proof.
  intros Hm. induction n as [|n IH]; [simpl; by rewrite Z.div_1_r|]. rewrite Nat.iter_succ, shr_1_m, IH.
  - rewrite Z.div_div, Nat2Z.inj_succ, Z.pow_succ_r by lia. f_equal. lia.
  - rewrite IH. apply Z.div_pos; lia.
Qed.

(** The exponent after normalising an exact mantissa, and the mantissa. *)
Lemma shr_fexp_m m e mrs e' : 0 ≤ m → shr_fexp 53 1024 m e loc_Exact = (mrs, e') →
  e' = Z.max e (fexp 53 1024 (Zdigits2 m + e)) ∧ shr_m mrs = m / 2 ^ (e' - e) ∧
  (e' = e → mrs = Build_shr_record m false false).
Proof.
  unfold shr_fexp, shr. simpl. intros Hm.
  destruct (fexp 53 1024 (Zdigits2 m + e) - e) as [|p|p] eqn:Ed; intros [= <- <-].
  - split_and!; [lia| |done]. rewrite Z.sub_diag. simpl. by rewrite Z.div_1_r.
  - split_and!; [lia| |lia]. rewrite iter_pos_iter, iter_shr_m, positive_nat_Z by done. simpl. do 2 f_equal. lia.
  - split_and!; [lia| |done]. rewrite Z.sub_diag. simpl. by rewrite Z.div_1_r.
Qed.

(** Nothing happens to a mantissa that fits. *)
Lemma shr_fexp_fits m e : 0 ≤ m < 2 ^ 53 → -1074 ≤ e →
  shr_fexp 53 1024 m e loc_Exact = (Build_shr_record m false false, e).
Proof.
  intros Hm He. destruct (shr_fexp 53 1024 m e loc_Exact) as [mrs e'] eqn:Hs.
  apply shr_fexp_m in Hs as (He' & _ & Hsame); [|lia]. pose proof (digits_le m 53 ltac:(lia) Hm) as Hd.
  assert (e' = e) as -> by (unfold fexp, emin in He'; lia). by rewrite Hsame.
Qed.

Lemma round_fits p e : Z.pos p < 2 ^ 53 → -1074 ≤ e ≤ 971 →
  binary_round_aux 53 1024 false (Z.pos p) e loc_Exact = S754_finite false p e.
Proof.
  intros Hp He. unfold binary_round_aux. rewrite shr_fexp_fits by lia. simpl.
  rewrite shr_fexp_fits by lia. cbn [shr_m]. by rewrite (proj2 (Z.leb_le e (1024 - 53))) by lia.
Qed.

(** ** Integers *)

Lemma iter_xO p q : Z.pos (Pos.iter xO p q) = Z.pos p * 2 ^ Z.pos q.
Proof.
  induction q as [|q IH] using Pos.peano_ind; [simpl; lia|].
  rewrite Pos.iter_succ, Pos2Z.inj_xO, IH, Pos2Z.inj_succ, Z.pow_succ_r by lia. lia.
Qed.

(** An integer of at most 53 bits is represented exactly. *)
Lemma of_Z_exact n : 0 < n < 2 ^ 53 → ∃ m e, F64.of_Z n = S754_finite false m e ∧
  - 52 ≤ e ≤ 0 ∧ Z.pos m = n * 2 ^ (- e).
Proof.
  intros Hn. destruct n as [|p|p]; [lia| |lia]. unfold F64.of_Z, binary_normalize, binary_round.
  pose proof (digits_le (Z.pos p) 53 ltac:(lia) ltac:(lia)) as Hd. simpl in Hd.
  pose proof (digits_lt p) as Hlt. set (k := Z.pos (digits2_pos p)) in *.
  assert (fexp 53 1024 (k + 0) = k - 53) as -> by (unfold fexp, emin; lia).
  assert (∃ m, shl_align p 0 (k - 53) = (m, k - 53) ∧ Z.pos m = Z.pos p * 2 ^ (53 - k)) as (m & -> & Hm).
  { unfold shl_align. destruct (k - 53 - 0) as [|q|q] eqn:Eq; [|lia|].
    - exists p. split; [f_equal; lia|]. replace (53 - k) with 0 by lia. lia.
    - exists (Pos.iter xO p q). split; [done|]. rewrite iter_xO. do 2 f_equal. lia. }
  assert (2 ^ k * 2 ^ (53 - k) = 2 ^ 53) as Hpow by (rewrite <-Z.pow_add_r by lia; f_equal; lia).
  assert (Z.pos m < 2 ^ 53) as Hm53 by (rewrite Hm, <-Hpow; apply Z.mul_lt_mono_pos_r; lia).
  exists m, (k - 53). rewrite round_fits by lia. split_and!; [done|lia..|]. rewrite Hm. do 2 f_equal. lia.
Qed.

(** The integer part of an exact product below [n], after rounding. *)
Lemma trunc_round n p e : 0 < n < 2 ^ 53 → -1074 ≤ e ≤ 0 → Z.pos p < n * 2 ^ (- e) →
  ∃ t, F64.trunc (binary_round_aux 53 1024 false (Z.pos p) e loc_Exact) = Some t ∧ 0 ≤ t ≤ n.
Proof.
  intros Hn He Hp. unfold binary_round_aux.
  destruct (shr_fexp 53 1024 (Z.pos p) e loc_Exact) as [mrs e1] eqn:Hs.
  apply shr_fexp_m in Hs as (He1 & Hm1 & _); [|lia].
  assert (e ≤ e1 ≤ 0) as He1'.
  { assert (2 ^ 53 * 2 ^ (- e) = 2 ^ (53 - e)) as Hpow by (rewrite <-Z.pow_add_r by lia; f_equal; lia).
    pose proof (digits_le (Z.pos p) (53 - e) ltac:(lia)) as Hd. unfold fexp, emin in He1.
    assert (n * 2 ^ (- e) < 2 ^ 53 * 2 ^ (- e)) by (apply Z.mul_lt_mono_pos_r; lia). lia. }
  set (m1 := round_nearest_even _ _).
  assert (0 ≤ m1 ≤ n * 2 ^ (- e1)) as Hm.
  { assert (2 ^ (- e) = 2 ^ (- e1) * 2 ^ (e1 - e)) as Hpow by (rewrite <-Z.pow_add_r by lia; f_equal; lia).
    assert (0 ≤ shr_m mrs < n * 2 ^ (- e1)) as Hlt.
    { rewrite Hm1. split; [apply Z.div_pos; lia|]. apply Z.div_lt_upper_bound; lia. }
    unfold m1, round_nearest_even. repeat case_match; lia. }
  clearbody m1. destruct (shr_fexp 53 1024 m1 e1 loc_Exact) as [mrs2 e2] eqn:Hs2.
  apply shr_fexp_m in Hs2 as (He2 & Hm2 & _); [|lia].
  assert (e1 ≤ e2 ≤ 1) as He2'.
  { assert (2 ^ 53 * 2 ^ (- e1) = 2 ^ (53 - e1)) as Hpow by (rewrite <-Z.pow_add_r by lia; f_equal; lia).
    pose proof (digits_le m1 (53 - e1) ltac:(lia)) as Hd. unfold fexp, emin in He2.
    assert (n * 2 ^ (- e1) < 2 ^ 53 * 2 ^ (- e1)) by (apply Z.mul_lt_mono_pos_r; lia). lia. }
  destruct (shr_m mrs2) as [|m2|m2] eqn:Em2; [exists 0; split; [done|lia]| |].
  - rewrite (proj2 (Z.leb_le e2 (1024 - 53))) by lia. simpl. eexists. split; [done|].
    assert (Z.pos m2 * 2 ^ (e2 - e1) ≤ m1) as Hle.
    { rewrite Hm2, Z.mul_comm. apply Z.mul_div_le. lia. }
    split; [case_match; [lia|apply Z.div_pos; lia]|].
    apply (Z.mul_le_mono_pos_r _ _ (2 ^ (- e1))); [lia|]. etrans; [|apply Hm]. etrans; [|exact Hle].
    destruct (Z.leb_spec 0 e2) as [H2|H2].
    + rewrite <-Z.mul_assoc, <-Z.pow_add_r by lia. by apply Z.eq_le_incl; do 2 f_equal; lia.
    + replace (- e1) with (- e2 + (e2 - e1)) by lia. rewrite Z.pow_add_r, Z.mul_assoc by lia.
      apply Z.mul_le_mono_nonneg_r; [lia|]. rewrite Z.mul_comm. apply Z.mul_div_le. lia.
  - assert (0 ≤ m1 / 2 ^ (e2 - e1)) by (apply Z.div_pos; lia). lia.
Qed.

(** A fraction below one, with a full mantissa or not, times an integer. *)
Lemma fraction_index q n : 0 ≤ n < 2 ^ 53 → Z.pos q < 2 ^ 53 →
  0 ≤ F64.to_int64 (F64.mul (S754_finite false q (-53)) (F64.of_Z n)) ≤ n.
Proof.
  intros Hn Hq. destruct (decide (n = 0)) as [->|Hn0]; [done|].
  destruct (of_Z_exact n) as (m & e & -> & He & Hm); [lia|]. unfold F64.mul, SFmul. cbn [xorb].
  destruct (trunc_round n (q * m) (-53 + e)) as (t & Ht & Hb); [lia|lia| |].
  - rewrite Pos2Z.inj_mul, Hm. replace (- (-53 + e)) with (53 + - e) by lia. rewrite Z.pow_add_r by lia.
    assert (0 < n * 2 ^ (- e)) by (apply Z.mul_pos_pos; lia). nia.
  - unfold F64.to_int64. rewrite Ht. unfold in_int64, min_int64, max_int64. case_match; lia.
Qed.
End Floats.
