(* ===== verification/LoadTest.v ===== *)
(** loadtest/main.go: the load-test client, against the HTTP server of Http.v.

    An exchange has a fate: the request, the reply or only its body may be lost ([client.Do]
    gives up after ten seconds).  The clock of the client is its own: the readings a
    function makes are arguments.  Launches and polls run in goroutines, several at a time;
    the server answers each request in some state, so a poll is given with the state that
    answered it and a launch acts on the state it finds.  Whether net/url accepts an address is an
    argument.  Printing is the report it prints. *)

From Stdlib Require Import SpecFloat.
From stdpp Require Import gmap strings list sorting relations.
From S2P Require Import Prelude GoLib Json Types MemStore Dsl Engine Lifecycle LifecycleInv.
From S2P Require Import Worlds Contract MemSpec Reconcile EngineSpec EngineOps RunCreate System.
From S2P Require Import Demo Scheduler Grpc Services Http ApiSpec Serving.
Open Scope Z_scope.

Module LoadTest.
Import Strings.

(** * The workflow *)

Definition workflowDefYAML : string := "
name: loadtest-12step
version: 1
steps:
  - name: intake
    type: noop
  - name: validate
    type: noop
    depends_on: [intake]

  - name: branch_a_1
    type: noop
    depends_on: [validate]
  - name: branch_a_2
    type: noop
    depends_on: [branch_a_1]
  - name: branch_a_3
    type: noop
    depends_on: [branch_a_2]

  - name: branch_b_1
    type: noop
    depends_on: [validate]
  - name: branch_b_2
    type: noop
    depends_on: [branch_b_1]
  - name: branch_b_3
    type: noop
    depends_on: [branch_b_2]

  - name: branch_c_1
    type: noop
    depends_on: [validate]
  - name: branch_c_2
    type: noop
    depends_on: [branch_c_1]

  - name: merge
    type: noop
    depends_on: [branch_a_3, branch_b_3, branch_c_2]
  - name: finalize
    type: noop
    depends_on: [merge]
".

(** What the document says, as [json.Marshal] renders a generic value: members in the
    order of their keys. *)
Definition yaml_step (name : string) (deps : list string) : json :=
  JObj ((if decide (deps = []) then [] else [("depends_on", JArr (JStr <$> deps))]) ++
        [("name", JStr name); ("type", JStr "noop")]).

Definition workflowDef : json := JObj
  [("name", JStr "loadtest-12step");
   ("steps", JArr
     [yaml_step "intake" []; yaml_step "validate" ["intake"];
      yaml_step "branch_a_1" ["validate"]; yaml_step "branch_a_2" ["branch_a_1"];
      yaml_step "branch_a_3" ["branch_a_2"];
      yaml_step "branch_b_1" ["validate"]; yaml_step "branch_b_2" ["branch_b_1"];
      yaml_step "branch_b_3" ["branch_b_2"];
      yaml_step "branch_c_1" ["validate"]; yaml_step "branch_c_2" ["branch_c_1"];
      yaml_step "merge" ["branch_a_3"; "branch_b_3"; "branch_c_2"];
      yaml_step "finalize" ["merge"]]);
   ("version", JInt 1)].

(** * Results *)

Module runResult.
Record t := mk {
  id : string; launchedAt : time; launchErr : option error; launchDur : Z;
  completedAt : time; finalStatus : string; pollErr : option error
}.
Definition with_pollErr (r : t) (e : error) : t :=
  mk (id r) (launchedAt r) (launchErr r) (launchDur r) (completedAt r) (finalStatus r) (Some e).
Definition finished (r : t) (at_ : time) (status : string) : t :=
  mk (id r) (launchedAt r) (launchErr r) (launchDur r) at_ status (pollErr r).
End runResult.
Import runResult.

(** * Exchanges *)

Inductive fate := Delivered | RequestLost | ReplyLost | BodyLost.

(** [json.Unmarshal] of a reply into a struct with the one field ID, or Status: a run has
    both, an error message neither. *)
Definition unmarshal_ID `{Env} (b : option Http.body) : outcome string :=
  match b with
  | Some (Http.BRun r) => Ok (uuid_String (WorkflowRun.ID r))
  | Some (Http.BError _) => Ok ""
  | _ => Err (Errorf "json")
  end.

Definition RunStatus_String (s : RunStatus) : string :=
  match s with
  | RunPending => "PENDING"
  | RunRunning => "RUNNING"
  | RunCompleted => "COMPLETED"
  | RunFailed => "FAILED"
  | RunCancelled => "CANCELLED"
  end.

Definition unmarshal_Status (b : option Http.body) : outcome string :=
  match b with
  | Some (Http.BRun r) => Ok (RunStatus_String (WorkflowRun.Status r))
  | Some (Http.BError _) => Ok ""
  | _ => Err (Errorf "json")
  end.

Section client.
Context `{Env} `{!Store} `{Http.Codec}.
(** The server: its registry, its scheduler, its key and its origins. *)
Context (workers : option (outcome (list Http.Info.t))) (sched : option Scheduler.Scheduler)
  (serverKey : string) (allowed : list string).
(** The client: its key, the address of the server, and [http.NewRequest] of an address. *)
Context (apiKey httpAddr : string) (url_ok : string → bool).

Definition NewRequest {S} (url : string) : GoM S unit :=
  if url_ok url then mret tt else fail (Errorf "invalid URL").

(** [client.Do]: the status and, unless it is lost, the body. *)
Definition Do (f : fate) (r : Http.route) : GoM World (Z * option Http.body) :=
  let req := Http.Request.mk false "" ("Bearer " +:+ apiKey) r in
  match f with
  | RequestLost => fail (Errorf "connection refused")
  | ReplyLost => _ ← Http.ServeHTTP workers sched serverKey allowed req; fail (Errorf "timeout")
  | Delivered => resp ← Http.ServeHTTP workers sched serverKey allowed req;
                 mret (Http.Response.Code resp, Some (Http.Response.Body resp))
  | BodyLost => resp ← Http.ServeHTTP workers sched serverKey allowed req;
                mret (Http.Response.Code resp, None)
  end.

Definition registerDefinition (f : fate) : GoM World unit :=
  _ ← NewRequest (httpAddr +:+ "/api/definitions");
  '(status, body) ← Do f (Http.PostDefinitions (inr (Malformed workflowDefYAML)));
  if (300 <=? status) && negb (status =? 400)
  then fail (Errorf ("unexpected status " +:+ Itoa status))
  else mret tt.

(** [start] and [dur] are the readings of the clock. *)
Definition launchOne (start dur : Z) (f : fate) : GoM World runResult.t :=
  let failed e d := runResult.mk "" start (Some e) d 0 "" None in
  req ← catch (NewRequest (httpAddr +:+ "/api/runs"));
  match req with
  | Err e => mret (failed e 0)
  | Ok _ =>
      resp ← catch (Do f (Http.PostRuns (inr (JObj [("input", JObj []); ("name", JStr "loadtest-12step")]))));
      match resp with
      | Err e => mret (failed e dur)
      | Ok (status, body) =>
          if 300 <=? status then mret (failed (Errorf ("status " +:+ Itoa status)) dur)
          else match unmarshal_ID body with
               | Err e => mret (failed e dur)
               | Ok id => mret (runResult.mk id start None dur 0 "" None)
               end
      end
  end.

(** A launch: the reading of the clock in the loop condition, those of [launchOne], the fate
    of the exchange, and what the server does meanwhile. *)
Record launch := mkLaunch {
  l_now : time; l_start : time; l_dur : Z; l_fate : fate; l_meanwhile : World → World
}.

Definition interval (rate : float64) : Z := F64.to_int64 (F64.div (F64.of_Z 1000000000) rate).

(** The goroutines append their results in the order in which they finish, the order in
    which the launches are given. *)
Fixpoint launch_loop (deadline : time) (ls : list launch) : GoM World (list runResult.t) :=
  match ls with
  | [] => mret []
  | l :: ls =>
      if l_now l <? deadline then
        _ ← modify (l_meanwhile l);
        r ← launchOne (l_start l) (l_dur l) (l_fate l);
        rs ← launch_loop deadline ls;
        mret (r :: rs)
      else mret []
  end.

(** [time.NewTicker] panics unless the interval is positive. *)
Definition launchPhase (rate : float64) (begin duration : Z) (ls : list launch)
    : option (GoM World (list runResult.t)) :=
  if 0 <? interval rate then Some (launch_loop (begin + duration) ls) else None.

(** * Draining *)

(** An iteration of the polling loop: the clock in its condition, the fate of the exchange,
    the state that answers, and the clock when a terminal status has been read. *)
Record reading := mkReading { r_now : time; r_fate : fate; r_at : World; r_end : time }.

(** [inl] is an error of the poll, [inr] the status read. *)
Definition poll (r : runResult.t) (p : reading) : outcome string :=
  match NewRequest (httpAddr +:+ "/api/runs/" +:+ id r) (r_at p) with
  | (Err e, _) => Err e
  | (Ok _, w) =>
      match Do (r_fate p) (Http.GetRun (id r)) w with
      | (Err e, _) => Err e
      | (Ok (_, body), _) => unmarshal_Status body
      end
  end.

Definition terminal_text (s : string) : bool :=
  bool_decide (s = "COMPLETED") || bool_decide (s = "FAILED") || bool_decide (s = "CANCELLED").

(** [None]: still polling when the readings end. *)
Fixpoint pollUntilTerminal (deadline : time) (r : runResult.t) (ps : list reading)
    : option runResult.t :=
  match ps with
  | [] => None
  | p :: ps =>
      if r_now p <? deadline then
        match poll r p with
        | Err e => pollUntilTerminal deadline (with_pollErr r e) ps
        | Ok s => if terminal_text s then Some (finished r (r_end p) s)
                  else pollUntilTerminal deadline r ps
        end
      else Some (finished r (completedAt r) "TIMEOUT")
  end.

Definition launched (r : runResult.t) : bool := match launchErr r with None => true | Some _ => false end.

(** Every launched run is taken from the channel by one of the workers and polled to the
    end; without workers nobody takes it. *)
Definition drainPhase (concurrency : Z) (deadline : time) (results : list (runResult.t * list reading))
    : option (list runResult.t) :=
  mapM (λ rp, if launched rp.1 && (0 <? concurrency) then pollUntilTerminal deadline rp.1 rp.2
              else Some rp.1) results.
End client.

(** * The report *)

Definition countLaunchErrors (results : list runResult.t) : Z :=
  foldl (λ n r, if launched r then n else n + 1) 0 results.

(** [d.Seconds()] *)
Definition Seconds (d : Z) : float64 :=
  F64.add (F64.of_Z (Z.quot d 1000000000))
    (F64.div (F64.of_Z (Z.rem d 1000000000)) (F64.of_Z 1000000000)).

Definition pct (n total : Z) : float64 :=
  if total =? 0 then F64.zero
  else F64.div (F64.mul (F64.of_Z 100) (F64.of_Z n)) (F64.of_Z total).

(** The doubles nearest to 0.50, 0.90 and 0.99. *)
Definition q50 : float64 := F64.half.
Definition q90 : float64 := S754_finite false 8106479329266893 (-53).
Definition q99 : float64 := S754_finite false 8917127262193582 (-53).

Record stats := mkStats {
  s_n : Z; s_min : Z; s_p50 : Z; s_p90 : Z; s_p99 : Z; s_max : Z; s_mean : Z
}.

(** [durs[i]]; [None] is a panic. *)
Definition index (durs : list Z) (i : Z) : option Z :=
  if i <? 0 then None else durs !! Z.to_nat i.

Definition percentile (durs : list Z) (q : float64) : option Z :=
  index durs (F64.to_int64 (F64.mul q (F64.of_Z (Z.of_nat (length durs) - 1)))).

(** [None] is a panic, [Some None] the line for no samples. *)
Definition printLatencyStats (durs : list Z) : option (option stats) :=
  match durs with
  | [] => Some None
  | _ =>
      let durs := merge_sort Z.le durs in
      let sum := foldl (λ s d, wrap64 (s + d)) 0 durs in
      let n := Z.of_nat (length durs) in
      min ← index durs 0;
      p50 ← percentile durs q50;
      p90 ← percentile durs q90;
      p99 ← percentile durs q99;
      max ← index durs (n - 1);
      Some (Some (mkStats n min p50 p90 p99 max (Z.quot sum n)))
  end.

Record counts := mkCounts {
  completed : Z; failed : Z; cancelled : Z; timedOut : Z; pollErrors : Z;
  latencies : list Z; launchDurs : list Z
}.

Definition count_one (c : counts) (r : runResult.t) : counts :=
  if negb (launched r) then c
  else
    let durs := launchDurs c ++ [launchDur r] in
    let perr := pollErrors c + (match pollErr r with Some _ => 1 | None => 0 end) in
    let s := finalStatus r in
    if bool_decide (s = "COMPLETED") then
      mkCounts (completed c + 1) (failed c) (cancelled c) (timedOut c) perr
        (latencies c ++ [completedAt r - launchedAt r]) durs
    else if bool_decide (s = "FAILED") then
      mkCounts (completed c) (failed c + 1) (cancelled c) (timedOut c) perr (latencies c) durs
    else if bool_decide (s = "CANCELLED") then
      mkCounts (completed c) (failed c) (cancelled c + 1) (timedOut c) perr (latencies c) durs
    else if bool_decide (s = "TIMEOUT") then
      mkCounts (completed c) (failed c) (cancelled c) (timedOut c + 1) perr (latencies c) durs
    else mkCounts (completed c) (failed c) (cancelled c) (timedOut c) perr (latencies c) durs.

Record report := mkReport {
  total : Z; launchErrors : Z; achievedRate : float64; tally : counts;
  pctCompleted : float64; pctFailed : float64;
  launchStats : option stats; latencyStats : option stats
}.

Definition printReport (duration : Z) (results : list runResult.t) : option report :=
  let total := Z.of_nat (length results) in
  let launchErrors := countLaunchErrors results in
  let ok := total - launchErrors in
  let c := foldl count_one (mkCounts 0 0 0 0 0 [] []) results in
  ls ← printLatencyStats (launchDurs c);
  es ← printLatencyStats (latencies c);
  Some (mkReport total launchErrors (F64.div (F64.of_Z ok) (Seconds duration)) c
          (pct (completed c) ok) (pct (failed c) ok) ls es).

(** * The program *)

Section main.
Context `{Env} `{!Store} `{Http.Codec}.
Context (workers : option (outcome (list Http.Info.t))) (sched : option Scheduler.Scheduler)
  (serverKey : string) (allowed : list string) (apiKey httpAddr : string) (url_ok : string → bool).

(** The phases with the readings of [main]: the fate of the registration, the launches, and
    the readings made while draining.  [None]: a panic, or still draining. *)
Definition main (rate : float64) (begin duration drainConcurrency deadline : Z) (f : fate)
    (ls : list launch) (ps : nat → list reading) : GoM World (option report) :=
  _ ← registerDefinition workers sched serverKey allowed apiKey httpAddr url_ok f;
  match launchPhase workers sched serverKey allowed apiKey httpAddr url_ok rate begin duration ls with
  | None => mret None
  | Some phase =>
      results ← phase;
      mret (rs ← drainPhase workers sched serverKey allowed apiKey httpAddr url_ok drainConcurrency
                   deadline (imap (λ i r, (r, ps i)) results);
            printReport duration rs)
  end.
End main.

End LoadTest.
