(* ===== verification/LoadTestSpec.v ===== *)
(** What the load test reports is so: its counts add up, the statuses it counts are those
    of the runs in the server, and its percentiles never index out of range.  Its
    registration, though, is refused on every run but the first. *)

From Stdlib Require Import SpecFloat.
From stdpp Require Import gmap strings list sorting relations.
From S2P Require Import Prelude GoLib Floats Json Types MemStore Dsl Engine Lifecycle LifecycleInv.
From S2P Require Import Worlds Contract MemSpec Reconcile EngineSpec EngineOps RunCreate System.
From S2P Require Import Demo Operations Scheduler Grpc Services Http ApiSpec Serving LoadTest.
Open Scope Z_scope.

Module LoadTestSpec.
Import Lifecycle LifecycleInv Worlds Contract EngineOps RunCreate System Demo Operations LoadTest LoadTest.runResult.

(** * Latencies *)

Lemma index_in (l : list Z) i : 0 ≤ i < Z.of_nat (length l) → ∃ x, index l i = Some x ∧ x ∈ l.
Proof.
  intros Hi. unfold index. rewrite (proj2 (Z.ltb_ge i 0)) by lia.
  destruct (lookup_lt_is_Some_2 l (Z.to_nat i)) as [x Hx]; [lia|]. exists x. split; [done|].
  by eapply list_elem_of_lookup_2.
Qed.

Lemma percentile_in (l : list Z) q :
  l ≠ [] → Z.of_nat (length l) ≤ 2 ^ 53 → q ∈ [q50; q90; q99] → ∃ x, percentile l q = Some x ∧ x ∈ l.
Proof.
  intros Hne Hlen Hq. assert (0 < length l)%nat by (destruct l; simpl; [done|lia]).
  assert (∃ p, q = S754_finite false p (-53) ∧ Z.pos p < 2 ^ 53) as (p & -> & Hp).
  { rewrite !elem_of_cons, elem_of_nil in Hq. destruct Hq as [->|[->|[->|[]]]]; by eexists. }
  apply index_in. pose proof (Floats.fraction_index p (Z.of_nat (length l) - 1)). lia.
Qed.

(** The statistics of a list: every figure but the mean is one of the samples, between the
    least and the greatest. *)
Definition describes (durs : list Z) (s : stats) : Prop :=
  s_n s = Z.of_nat (length durs) ∧
  Forall (λ x, x ∈ durs ∧ s_min s ≤ x ≤ s_max s) [s_min s; s_p50 s; s_p90 s; s_p99 s; s_max s] ∧
  Forall (λ x, s_min s ≤ x ≤ s_max s) durs.

Lemma sorted_ends (l : list Z) a b : StronglySorted Z.le l → index l 0 = Some a →
  index l (Z.of_nat (length l) - 1) = Some b → Forall (λ x, a ≤ x ≤ b) l.
Proof.
  unfold index. intros Hs Ha Hb. simpl in Ha. case_match; [done|].
  destruct l as [|y l]; [done|]. simpl in Ha. injection Ha as <-.
  replace (Z.to_nat _) with (pred (length (y :: l))) in Hb by (simpl; lia). rewrite <-last_lookup in Hb.
  clear -Hs Hb. apply Forall_forall. intros x Hx. split.
  - inversion Hs as [|? ? _ Hall]; subst. rewrite Forall_forall in Hall.
    apply elem_of_cons in Hx as [->|Hx]; [lia|by apply Hall].
  - apply last_Some in Hb as [l' Hl']. rewrite Hl' in Hx, Hs. clear Hl'. induction l' as [|z l' IH]; simpl in *.
    + apply list_elem_of_singleton in Hx as ->. lia.
    + inversion Hs as [|? ? Hs' Hall]; subst. apply elem_of_cons in Hx as [->|Hx]; [|by apply IH].
      rewrite Forall_forall in Hall. apply Hall, elem_of_app. right. by apply list_elem_of_singleton.
Qed.

Lemma printLatencyStats_ok durs : Z.of_nat (length durs) ≤ 2 ^ 53 →
  ∃ s, printLatencyStats durs = Some s ∧ match s with None => durs = [] | Some s => describes durs s end.
Proof.
  intros Hlen. destruct durs as [|d durs]; [by exists None|]. unfold printLatencyStats.
  set (l := merge_sort Z.le (d :: durs)).
  assert (l ≡ₚ d :: durs) as Hp by apply merge_sort_Permutation.
  assert (length l = length (d :: durs)) as Hl by by rewrite Hp.
  assert (l ≠ []) as Hne by (intros ->; done).
  assert (StronglySorted Z.le l) as Hs by (apply StronglySorted_merge_sort; [intros a b c|intros a b]; lia).
  clearbody l. rewrite Hl in *.
  destruct (index_in l 0) as (a & Ha & Ia); [rewrite Hl; simpl; lia|].
  destruct (index_in l (Z.of_nat (length l) - 1)) as (b & Hb & Ib); [rewrite Hl; simpl; lia|].
  destruct (percentile_in l q50) as (x & Hx & Ix); [done|by rewrite Hl|by (constructor)|].
  destruct (percentile_in l q90) as (y & Hy & Iy); [done|by rewrite Hl|by (do 2 constructor)|].
  destruct (percentile_in l q99) as (z & Hz & Iz); [done|by rewrite Hl|by (do 3 constructor)|].
  pose proof (sorted_ends l a b Hs Ha Hb) as Hall. cbv zeta. rewrite Hl in Hb.
  rewrite Ha, Hx, Hy, Hz, Hb. simpl. eexists. split; [done|].
  rewrite Forall_forall in Hall. setoid_rewrite Hp in Hall. split_and!; [done| |by apply Forall_forall].
  rewrite Hp in Ia, Ib, Ix, Iy, Iz. cbn [s_min s_max s_p50 s_p90 s_p99].
  repeat (apply Forall_cons; split; [split; [done|by apply Hall]|]). by apply Forall_nil.
Qed.

(** * Counting *)

(** How many launched runs ended with this status. *)
Definition ended (s : string) (rs : list runResult.t) : Z :=
  Z.of_nat (length (List.filter (λ r, launched r && bool_decide (finalStatus r = s)) rs)).

Lemma ended_snoc s rs r :
  ended s (rs ++ [r]) = ended s rs + (if launched r && bool_decide (finalStatus r = s) then 1 else 0).
Proof.
  unfold ended. rewrite List.filter_app, length_app. simpl. destruct (_ && _); simpl; lia.
Qed.

Definition final_texts : list string := ["COMPLETED"; "FAILED"; "CANCELLED"; "TIMEOUT"].

Lemma countLaunchErrors_snoc rs r :
  countLaunchErrors (rs ++ [r]) = countLaunchErrors rs + (if launched r then 0 else 1).
Proof. unfold countLaunchErrors. rewrite foldl_snoc. destruct (launched r); lia. Qed.

Lemma countLaunchErrors_pos rs : 0 ≤ countLaunchErrors rs.
Proof.
  induction rs as [|r rs IH] using rev_ind; [done|]. rewrite countLaunchErrors_snoc. case_match; lia.
Qed.

(** The tally of [printReport]. *)
Lemma tally_exact rs :
  let c := foldl count_one (mkCounts 0 0 0 0 0 [] []) rs in
  completed c = ended "COMPLETED" rs ∧ failed c = ended "FAILED" rs ∧
  cancelled c = ended "CANCELLED" rs ∧ timedOut c = ended "TIMEOUT" rs ∧
  Z.of_nat (length (latencies c)) = completed c ∧
  Z.of_nat (length (launchDurs c)) = Z.of_nat (length rs) - countLaunchErrors rs ∧
  0 ≤ pollErrors c ≤ Z.of_nat (length rs) - countLaunchErrors rs.
Proof.
  induction rs as [|r rs IH] using rev_ind; [done|]. cbv zeta in *. rewrite foldl_snoc.
  rewrite !ended_snoc, countLaunchErrors_snoc, length_app. destruct IH as (I1 & I2 & I3 & I4 & I5 & I6 & I7).
  set (c := foldl _ _ rs) in *. clearbody c. unfold count_one. destruct (launched r); simpl; [|lia].
  repeat case_bool_decide; simplify_eq/=; try congruence; rewrite ?length_app; simpl;
    case_match; split_and!; lia.
Qed.

Lemma ended_total rs :
  Forall (λ r, launched r = true → finalStatus r ∈ final_texts) rs →
  countLaunchErrors rs + ended "COMPLETED" rs + ended "FAILED" rs + ended "CANCELLED" rs +
    ended "TIMEOUT" rs = Z.of_nat (length rs).
Proof.
  induction rs as [|r rs IH] using rev_ind; [done|]. rewrite Forall_app, Forall_singleton.
  intros [Hrs Hr]. rewrite !ended_snoc, countLaunchErrors_snoc, length_app. specialize (IH Hrs).
  destruct (launched r); simpl; [|lia]. specialize (Hr eq_refl). unfold final_texts in Hr.
  rewrite !elem_of_cons, elem_of_nil in Hr. destruct Hr as [->|[->|[->|[->|[]]]]]; simpl; lia.
Qed.

(** * Polling *)

Section polls.
Context {E : Env} {St : Store} {C : Http.Codec}.
Context (workers : option (outcome (list Http.Info.t))) (sched : option Scheduler.Scheduler)
  (serverKey : string) (allowed : list string) (apiKey httpAddr : string) (url_ok : string → bool).

Abbreviation poll := (poll workers sched serverKey allowed apiKey httpAddr url_ok).
Abbreviation pollUntilTerminal :=
  (pollUntilTerminal workers sched serverKey allowed apiKey httpAddr url_ok).
Abbreviation drainPhase := (drainPhase workers sched serverKey allowed apiKey httpAddr url_ok).

(** The loop ends with a status some poll has read, or with TIMEOUT; an error it met stays
    noted. *)
Lemma poll_result deadline ps r r' : pollUntilTerminal deadline r ps = Some r' →
  id r' = id r ∧ launchErr r' = launchErr r ∧
  (finalStatus r' = "TIMEOUT" ∨
   terminal_text (finalStatus r') = true ∧ ∃ p, p ∈ ps ∧ poll r p = Ok (finalStatus r')).
Proof.
  revert r. induction ps as [|p ps IH]; intros r; simpl; [done|].
  destruct (r_now p <? deadline); [|intros [= <-]; by auto].
  destruct (poll r p) as [s|e] eqn:Hp.
  - destruct (terminal_text s) eqn:Ht.
    + intros [= <-]. simpl. split_and!; [done..|]. right. split; [done|]. exists p. split; [constructor|done].
    + intros (? & ? & [?|(? & q & ? & ?)])%IH; split_and!; auto. right. split; [done|].
      exists q. split; [by constructor|done].
  - intros (? & ? & [?|(? & q & ? & ?)])%IH; split_and!; auto. right. split; [done|].
    exists q. split; [by constructor|done].
Qed.

(** Once the clock has passed the deadline no loop is left. *)
Lemma poll_ends deadline ps r p :
  p ∈ ps → deadline ≤ r_now p → is_Some (pollUntilTerminal deadline r ps).
Proof.
  intros Hp Hd. revert r. induction ps as [|q ps IH]; intros r; [by apply elem_of_nil in Hp|]. simpl.
  destruct (Z.ltb_spec (r_now q) deadline); [|by eexists].
  apply elem_of_cons in Hp as [<-|Hp]; [lia|]. destruct (poll r q); [destruct (terminal_text _); [by eexists|]|]; by apply IH.
Qed.

Lemma drain_results concurrency deadline results rs : 0 < concurrency →
  drainPhase concurrency deadline results = Some rs →
  Forall2 (λ rp r', if launched rp.1 then pollUntilTerminal deadline rp.1 rp.2 = Some r' else r' = rp.1)
    results rs.
Proof.
  intros Hc. unfold LoadTest.drainPhase. intros Hd. apply mapM_Some in Hd.
  eapply Forall2_impl; [exact Hd|]. intros [r ps] r'. rewrite (proj2 (Z.ltb_lt 0 concurrency)), andb_true_r by lia.
  simpl. destruct (launched r); [done|by intros [= <-]].
Qed.

Lemma drain_final concurrency deadline results rs : 0 < concurrency →
  drainPhase concurrency deadline results = Some rs →
  Forall (λ r, launched r = true → finalStatus r ∈ final_texts) rs.
Proof.
  intros Hc Hd. pose proof (drain_results _ _ _ _ Hc Hd) as Hall. clear Hd.
  induction Hall as [|[r ps] r' l l' Hr _ IH]; constructor; [|done]. simpl in Hr.
  destruct (launched r) eqn:El; [intros _|subst; congruence].
  destruct (poll_result _ _ _ _ Hr) as (_ & _ & [->|[Ht _]]); [by do 3 right; left|].
  unfold terminal_text in Ht. unfold final_texts. rewrite !elem_of_cons.
  destruct (bool_decide_reflect (finalStatus r' = "COMPLETED")); [by auto|].
  destruct (bool_decide_reflect (finalStatus r' = "FAILED")); [by auto|].
  destruct (bool_decide_reflect (finalStatus r' = "CANCELLED")); [by auto|done].
Qed.

(** C35.  The report of the load test adds up: when every reading of the clock includes one
    past the deadline and there is a worker to drain, the drain ends and the report is
    printed without an index out of range (for at most 2^53 launches); launch errors and the four
    verdicts add up to the launches, each count is the number of launched runs that ended
    that way, and the figures printed for the latencies are samples, between the least and
    the greatest. *)
Theorem report_adds_up concurrency deadline duration results :
  0 < concurrency → Z.of_nat (length results) ≤ 2 ^ 53 →
  Forall (λ rp : runResult.t * list reading, ∃ p, p ∈ rp.2 ∧ deadline ≤ r_now p) results →
  ∃ rs rep, drainPhase concurrency deadline results = Some rs ∧ printReport duration rs = Some rep ∧
    let c := tally rep in
    total rep = Z.of_nat (length results) ∧
    launchErrors rep + completed c + failed c + cancelled c + timedOut c = total rep ∧
    completed c = ended "COMPLETED" rs ∧ failed c = ended "FAILED" rs ∧
    cancelled c = ended "CANCELLED" rs ∧ timedOut c = ended "TIMEOUT" rs ∧
    match launchStats rep with
    | None => launchDurs c = [] | Some s => describes (launchDurs c) s
    end ∧
    match latencyStats rep with
    | None => latencies c = [] | Some s => describes (latencies c) s
    end.
Proof.
  intros Hc Hlen Hends.
  assert (is_Some (drainPhase concurrency deadline results)) as [rs Hd].
  { apply mapM_is_Some_2. eapply Forall_impl; [exact Hends|]. intros [r ps] (p & Hp & Hdl). simpl.
    destruct (_ && _); [by eapply poll_ends|by eexists]. }
  pose proof (drain_final _ _ _ _ Hc Hd) as Hfin. pose proof (Forall2_length _ _ _ (drain_results _ _ _ _ Hc Hd)) as Hl.
  pose proof (tally_exact rs) as Ht. cbv zeta in Ht. set (c := foldl _ _ rs) in Ht.
  destruct Ht as (T1 & T2 & T3 & T4 & T5 & T6 & T7). pose proof (ended_total rs Hfin) as Hsum.
  pose proof (countLaunchErrors_pos rs) as Hpos.
  destruct (printLatencyStats_ok (launchDurs c)) as (s1 & Hs1 & D1); [lia|].
  destruct (printLatencyStats_ok (latencies c)) as (s2 & Hs2 & D2); [unfold ended in *; lia|].
  exists rs. eexists. split; [done|]. unfold printReport. fold c. rewrite Hs1, Hs2. simpl. split; [done|]. simpl.
  split_and!; [lia|lia|done..].
Qed.

(** * The server's side *)

Context {L : StoreLaws St} (Hu : uuid_unique).

(** A terminal status is read only from the row of the run. *)
Lemma poll_true r p fl s : reachable (r_at p, fl) → poll r p = Ok s → terminal_text s = true →
  ∃ i run, uuid_Parse (id r) = Some i ∧ runs (db (r_at p)) !! i = Some run ∧
    RunStatus_String (WorkflowRun.Status run) = s ∧ RunTerminal (WorkflowRun.Status run) = true.
Proof.
  intros Hr Hp Ht. pose proof (Inv_keyed _ _ _ (reachable_Inv Hu _ Hr)) as Hk.
  unfold LoadTest.poll, NewRequest, Do, Http.ServeHTTP, Http.routes, Http.authMiddleware in Hp. simpl in Hp.
  destruct (url_ok _); simpl in Hp; [|done].
  destruct (Http.validAPIKey _ _); [|destruct (r_fate p); simplify_eq/=].
  unfold Http.handleGetRun, Http.with_run_id in Hp.
  destruct (uuid_Parse (id r)) as [i|]; [|destruct (r_fate p); simplify_eq/=].
  pose proof (law_GetWorkflowRun i (r_at p) Hk) as Hg. unfold wp in Hg.
  unfold catch, mbind, GoM_bind in Hp.
  destruct (r_fate p); simpl in Hp; destruct (GetWorkflowRun i (r_at p)) as [[run|e] w1]; simpl in *;
    try (destruct (errors_Is e ErrNotFound)); simplify_eq/=.
  destruct Hg as [Hrun _]. exists i, run. split_and!; [done..|]. by destruct (WorkflowRun.Status run).
Qed.

(** The load test reports what happened: if every poll was answered by the server in
    some state on the way to the present one, then a launched run that the report counts as
    COMPLETED, FAILED or CANCELLED is a run of the server and has that status now. *)
Theorem report_truthful concurrency deadline results rs w fl :
  0 < concurrency → drainPhase concurrency deadline results = Some rs →
  (∀ r ps p, (r, ps) ∈ results → p ∈ ps → ∃ fl0,
     reachable (r_at p, fl0) ∧ rtc sys_step (r_at p, fl0) (w, fl)) →
  Forall (λ r, launched r = true → finalStatus r ≠ "TIMEOUT" → ∃ i run,
    uuid_Parse (id r) = Some i ∧ runs (db w) !! i = Some run ∧
    RunStatus_String (WorkflowRun.Status run) = finalStatus r) rs.
Proof.
  intros Hc Hd Hat. pose proof (drain_results _ _ _ _ Hc Hd) as Hall. clear Hd.
  induction Hall as [|[r ps] r' l l' Hr _ IH]; constructor.
  2: { apply IH. intros r0 ps0 p Hin. apply (Hat r0 ps0). by constructor. }
  intros Hl Hnt. simpl in Hr. destruct (launched r) eqn:El; [|congruence].
  destruct (poll_result _ _ _ _ Hr) as (Hid & _ & [?|(Ht & p & Hp & Hok)]); [done|].
  destruct (Hat r ps p) as (fl0 & Hre & Hs); [constructor|done|].
  destruct (poll_true _ _ _ _ Hre Hok Ht) as (i & run & Hi & Hrun & Hst & Hterm).
  destruct (ev_runs _ _ (steps_evolve Hu _ _ Hre Hs) i run Hrun) as (run' & Hrun' & Hev).
  exists i, run'. rewrite Hid, <-Hst. split_and!; [done..|]. f_equal.
  destruct (re_final _ _ Hev Hterm) as [_ ->]. done.
Qed.

(** ** Launches *)

Lemma handle_launch w :
  Http.handle workers sched
    (Http.PostRuns (inr (JObj [("input", JObj []); ("name", JStr "loadtest-12step")]))) w =
  match Engine.CreateRun "loadtest-12step" 0 (Some (Text (JObj []))) w with
  | (Ok run, w') => (Ok (201, Http.BRun run), w')
  | (Err e, w') => (Ok (400, Http.BError (error_String e)), w')
  end.
Proof.
  unfold Http.handle, Http.handleCreateRun, Http.Decode.
  assert (dec_struct Http.createRunRequest.field (Http.createRunRequest.mk "" 0 None)
    (JObj [("input", JObj []); ("name", JStr "loadtest-12step")]) =
    (Http.createRunRequest.mk "loadtest-12step" 0 (Some (Text (JObj []))), false)) as ->
    by (vm_compute; reflexivity).
  cbn [Http.createRunRequest.Name Http.createRunRequest.Version Http.createRunRequest.Input].
  rewrite bool_decide_eq_false_2 by discriminate. unfold catch, mbind, GoM_bind.
  by destruct (Engine.CreateRun _ _ _ w) as [[run|e] w'].
Qed.

(** A launch without an error has created the run it names. *)
Lemma launch_creates start dur f w fl r w' : reachable (w, fl) →
  launchOne workers sched serverKey allowed apiKey httpAddr url_ok start dur f w = (Ok r, w') →
  launched r = true →
  finalStatus r = "" ∧ ∃ run, id r = uuid_String (WorkflowRun.ID run) ∧
    created_from "loadtest-12step" 0 w run w'.
Proof.
  intros Hr Hl Hok. unfold launchOne, NewRequest, Do, Http.ServeHTTP, Http.routes, Http.authMiddleware in Hl.
  cbn [Http.Request.Options Http.Request.Route Http.Request.Authorization] in Hl.
  unfold Http.writeErr, catch, mbind, GoM_bind, fail, mret, GoM_ret in Hl.
  destruct (url_ok _); [|by simplify_eq/=].
  destruct (Http.validAPIKey _ _); [|destruct f; by simplify_eq/=].
  pose proof (reachable_good Hu _ Hr) as Hg. cbn beta iota in Hl.
  destruct f; cbn beta iota in Hl; rewrite ?handle_launch in Hl; [|by simplify_eq/=|..];
    destruct (Engine.CreateRun "loadtest-12step" 0 (Some (Text (JObj []))) w) as [[run|e] w1] eqn:Hc;
    simplify_eq/=.
  pose proof (wp_run _ _ _ _ _ (wp_CreateRun Hu _ _ "loadtest-12step" 0 _ w Hg) Hc) as Hpost.
  split; [done|]. exists run. split; [done|]. by eapply created_post_from.
Qed.
End polls.

(** * Registering the workflow *)

(** What the server makes of the document. *)
Definition twelve_steps : Definition_.t :=
  default (Definition_.mk "" 0 None) (Workflowdsl.unmarshal_Definition (Some (Text workflowDef))).

(** The YAML library reads the document. *)
Definition reads_yaml {C : Http.Codec} : Prop :=
  ∃ v, Http.yaml_Unmarshal (Malformed workflowDefYAML) = Ok v ∧ Http.marshal_any v = Ok workflowDef.

Lemma parse_twelve {C : Http.Codec} : reads_yaml →
  Http.Parse (Malformed workflowDefYAML) = Ok twelve_steps.
Proof.
  intros (v & Hv & Hm). unfold Http.Parse.
  replace (Http.starts_with_brace _) with false by (vm_compute; reflexivity).
  rewrite Hv, Hm. unfold Http.parse_json.
  assert (Workflowdsl.unmarshal_Definition (Some (Text workflowDef)) = Some twelve_steps) as ->
    by (vm_compute; reflexivity).
  done.
Qed.

(** It is a valid definition of twelve steps. *)
Lemma twelve_steps_valid : ∃ d j, Workflowdsl.Validate twelve_steps = (d, None) ∧
  Workflowdsl.ToJSON d = Some j ∧ Definition_.Name d = "loadtest-12step" ∧ Definition_.Version d = 1 ∧
  length (Workflowdsl.steps_of d) = 12%nat.
Proof. eexists _, _. split_and!; vm_compute; reflexivity. Qed.

Lemma Do_authorised {E : Env} {St : Store} {C : Http.Codec} workers sched key allowed r w :
  key ≠ "" → r ≠ Http.Healthz →
  Do workers sched key allowed key Delivered r w =
    match Http.handle workers sched r w with
    | (Ok (c, b), w') => (Ok (c, Some b), w')
    | (Err e, w') => (Err e, w')
    end.
Proof.
  intros Hk Hr. unfold Do, Http.ServeHTTP, Http.routes, Http.authMiddleware.
  cbn [Http.Request.Options Http.Request.Route Http.Request.Authorization].
  assert (Http.validAPIKey key ("Bearer " +:+ key) = true) as ->.
  { unfold Http.validAPIKey. rewrite bool_decide_eq_false_2 by done. by apply ApiSpec.bearer_matches_iff. }
  unfold mbind, GoM_bind. destruct r; [done|..]; by destruct (Http.handle _ _ _ w) as [[[c b]|e] w'].
Qed.

Section registration.
Context {E : Env} {C : Http.Codec} (workers : option (outcome (list Http.Info.t)))
  (sched : option Scheduler.Scheduler) (key : string) (allowed : list string) (httpAddr : string)
  (url_ok : string → bool).
#[local] Existing Instances Memory.memory_store MemSpec.memory_laws.

(** The load test can be started only once against a server: with the right key and a
    request that is delivered, [registerDefinition] succeeds exactly when the workflow is not
    registered yet, and afterwards it is; on a second start it fails, because the server
    answers 409 where the load test tolerates 400. *)
Theorem registers_only_once w :
  reads_yaml → key ≠ "" → url_ok (httpAddr +:+ "/api/definitions") = true →
  let out := registerDefinition workers sched key allowed key httpAddr url_ok Delivered w in
  (registered (db w) "loadtest-12step" 1 → out.1 = Err (Errorf "unexpected status 409")) ∧
  (¬ registered (db w) "loadtest-12step" 1 → out.1 = Ok tt ∧
     registered (db out.2) "loadtest-12step" 1).
Proof.
  intros Hy Hk Hurl out. destruct twelve_steps_valid as (d & j & Hval & Hj & Hn & Hv & _).
  assert (out = match CreateWorkflowDefinition "loadtest-12step" 1 (Some (Text j)) w with
                | (Ok _, w') => (Ok tt, w')
                | (Err e, w') => (if errors_Is e ErrConflict then Err (Errorf "unexpected status 409") else Ok tt, w')
                end) as ->.
  { unfold out, registerDefinition, NewRequest. rewrite Hurl. unfold mbind, GoM_bind. cbn [mret GoM_ret].
    rewrite Do_authorised by done. cbn [Http.handle]. unfold Http.handleCreateDefinition.
    rewrite (parse_twelve Hy). unfold Engine.RegisterDefinition. rewrite Hval, Hj, Hn, Hv.
    unfold catch, mbind, GoM_bind.
    destruct (CreateWorkflowDefinition _ _ _ w) as [[def|e] w1]; [done|]. simpl. by destruct (errors_Is e ErrConflict). }
  clear Hval Hj Hn Hv Hy Hurl.
  pose proof (law_CreateWorkflowDefinition "loadtest-12step" 1 (Some (Text j)) w) as Hlaw. unfold wp in Hlaw.
  destruct (CreateWorkflowDefinition _ _ _ w) as [[def|e] w1]; cbn [post fst snd] in *.
  - destruct Hlaw as (Hdn & Hdv & _ & Hno & Hdb). split; [intros Hreg; by destruct (Hno Hreg)|]. intros _.
    split; [done|]. exists (WorkflowDefinition.ID def), def. rewrite Hdb.
    split_and!; [apply lookup_insert_eq|exact Hdn|exact Hdv].
  - destruct Hlaw as [_ [[]|[-> Hreg]]]. by split.
Qed.
End registration.

(** * Examples *)

Section demo.
#[local] Existing Instances Memory.memory_store MemSpec.memory_laws.

(** A YAML library that knows this one document. *)
Definition yaml_codec : Http.Codec := {|
  Http.any := json;
  Http.yaml_Unmarshal b :=
    match b with
    | Malformed s => if bool_decide (s = workflowDefYAML) then Ok workflowDef else Err (Errorf "yaml")
    | Text j => Ok j
    end;
  Http.marshal_any := Ok;
  Http.type_error := "json"
|}.
#[local] Existing Instance yaml_codec.

Lemma registers_only_once_witness :
  let start := registerDefinition None None "k" [] "k" "http://localhost:8080" (λ _, true) Delivered in
  (start init.1).1 = Ok tt ∧
  (start (start init.1).2).1 = Err (Errorf "unexpected status 409").
Proof.
  assert (reads_yaml) as Hy by (exists workflowDef; split; vm_compute; reflexivity).
  destruct (registers_only_once None None "k" [] "http://localhost:8080" (λ _, true) init.1 Hy)
    as [_ H]; [discriminate|reflexivity|].
  destruct H as [H1 H2]; [intros (id & def & Hd & _); change (definitions (db init.1)) with (∅ : gmap uuid WorkflowDefinition.t) in Hd;
    rewrite lookup_empty in Hd; discriminate|].
  split; [exact H1|].
  exact (proj1 (registers_only_once None None "k" [] "http://localhost:8080" (λ _, true) _ Hy
    ltac:(discriminate) ltac:(reflexivity)) H2).
Defined.

(** One run that completed and one launch that failed. *)
Definition fine : runResult.t := runResult.mk "5" 0 None 3 0 "" None.
Definition refused : runResult.t := runResult.mk "" 1 (Some (Errorf "status 400")) 2 0 "" None.
Definition demo_results : list (runResult.t * list reading) :=
  [(fine, [mkReading 10 RequestLost (at_ claimed) 0; mkReading 12 Delivered (at_ claimed) 0;
           mkReading 14 Delivered (at_ Demo.completed) 15; mkReading 60 Delivered (at_ Demo.completed) 0]);
   (refused, [mkReading 60 Delivered (at_ Demo.completed) 0])].

Lemma report_adds_up_witness :
  ∃ rs rep, drainPhase None None "k" [] "k" "" (λ _, true) 32 60 demo_results = Some rs ∧
    printReport 30 rs = Some rep ∧ completed (tally rep) = 1 ∧ launchErrors rep = 1 ∧ total rep = 2.
Proof.
  destruct (report_adds_up None None "k" [] "k" "" (λ _, true) 32 60 30 demo_results)
    as (rs & rep & Hd & Hp & Ht & Hsum & _).
  - lia.
  - vm_compute. discriminate.
  - repeat constructor; [exists (mkReading 60 Delivered (at_ Demo.completed) 0)..]; split; try discriminate.
    + do 3 right. left.
    + left.
  - exists rs, rep. split; [exact Hd|]. split; [exact Hp|].
    assert (Hr : (drainPhase None None "k" [] "k" "" (λ _, true) 32 60 demo_results ≫= printReport 30) = Some rep)
      by (rewrite Hd; exact Hp).
    vm_compute in Hr. injection Hr as <-. split_and!; reflexivity.
Defined.

Lemma report_truthful_witness :
  ∃ rs, drainPhase None None "k" [] "k" "" (λ _, true) 32 60 demo_results = Some rs ∧
    Forall (λ r, launched r = true → finalStatus r ≠ "TIMEOUT" → ∃ i run,
      uuid_Parse (id r) = Some i ∧ runs (db (at_ Demo.completed)) !! i = Some run ∧
      RunStatus_String (WorkflowRun.Status run) = finalStatus r) rs.
Proof.
  destruct (drainPhase None None "k" [] "k" "" (λ _, true) 32 60 demo_results) as [rs|] eqn:Hd;
    [|vm_compute in Hd; discriminate].
  exists rs. split; [reflexivity|].
  apply (report_truthful None None "k" [] "k" "" (λ _, true) demo_unique 32 60 demo_results rs (at_ Demo.completed) []).
  - lia.
  - exact Hd.
  - intros r ps p Hr Hp. exists [].
    assert (r_at p = at_ claimed ∨ r_at p = at_ Demo.completed) as [-> | ->].
    { unfold demo_results in Hr. rewrite !elem_of_cons, elem_of_nil in Hr.
      destruct Hr as [Hr|[Hr|[]]]; injection Hr as -> ->; rewrite !elem_of_cons, elem_of_nil in Hp.
      - destruct Hp as [-> |[-> |[-> |[-> |[]]]]]; [left|left|right|right]; reflexivity.
      - destruct Hp as [-> |[]]. right. reflexivity. }
    + split; [exact claimed_reachable|]. unfold Demo.completed, half_done. rewrite <-app_assoc.
      apply at_app. repeat constructor.
    + split; [exact completed_reachable|apply rtc_refl].
Defined.
End demo.
End LoadTestSpec.
