(* ===== verification/RelaySpec.v ===== *)
(** One iteration of the outbox relay (internal/outbox/relay.go): which rows it takes, in
    which order it sends them, and what it marks when the queue accepts or refuses. *)

From stdpp Require Import gmap strings list relations sorting.
From S2P Require Import Prelude GoLib Json Types MemStore Dsl Engine Lifecycle.
From S2P Require Import LifecycleInv Worlds Contract MemSpec Reconcile EngineSpec EngineOps RunCreate.
From S2P Require Import System Demo Services Serving.
Open Scope Z_scope.

Module RelaySpec.
Import Lifecycle LifecycleInv Worlds Contract MemSpec EngineOps System Demo Services Serving.

(** The bounded collection loop takes the first rows that qualify. *)
Lemma collect_take {A} limit (keep : A → bool) l out :
  Z.of_nat (length out) ≤ Z.max 0 limit →
  Memory.collect limit keep l out =
    out ++ take (Z.to_nat limit - length out) (List.filter keep l).
Proof.
  revert out. induction l as [|x l IH]; intros out Hlen; simpl; [by rewrite take_nil, app_nil_r|].
  destruct (Z.leb_spec limit (Z.of_nat (length out))) as [Hle|Hlt].
  - replace (Z.to_nat limit - length out)%nat with 0%nat by lia. by rewrite take_0, app_nil_r.
  - destruct (keep x); [|by apply IH]. rewrite IH by (rewrite length_app; simpl; lia).
    rewrite length_app, <-(assoc_L (++)). simpl.
    replace (Z.to_nat limit - length out)%nat with (S (Z.to_nat limit - (length out + 1)))%nat by lia.
    done.
Qed.

(** A row the relay may send. *)
Definition owed_row (shards : option (list Z)) (m : OutboxMessage.t) : bool :=
  bool_decide (OutboxMessage.Status m = OutboxPending) &&
  Memory.shard_selected shards (OutboxMessage.ShardID m).

Definition row_le (a b : OutboxMessage.t) : Prop := OutboxMessage.ID a < OutboxMessage.ID b.

(** [rows] are the first [batch] rows to send, oldest first. *)
Record batch_of (shards : option (list Z)) (batch : Z) (ob : gmap Z OutboxMessage.t)
    (rows : list OutboxMessage.t) : Prop := {
  ba_row : ∀ m, m ∈ rows → ob !! OutboxMessage.ID m = Some m ∧ owed_row shards m = true;
  ba_sorted : StronglySorted row_le rows;
  ba_bound : Z.of_nat (length rows) ≤ Z.max 0 batch;
  ba_all : Z.of_nat (length rows) < batch →
    ∀ k m, ob !! k = Some m → owed_row shards m = true → m ∈ rows;
  ba_oldest : ∀ k m m', m ∈ rows → ob !! k = Some m' → owed_row shards m' = true → row_le m' m →
    m' ∈ rows
}.

Lemma omap_keys (ob : gmap Z OutboxMessage.t) ids :
  (∀ k m, ob !! k = Some m → OutboxMessage.ID m = k) → StronglySorted Z.lt ids →
  StronglySorted row_le (omap (λ k, ob !! k) ids).
Proof.
  intros Hk. induction 1 as [|k ids Hs IH Hall]; simpl; [constructor|].
  destruct (ob !! k) as [m|] eqn:Em; [|done]. constructor; [done|]. apply list.Forall_forall.
  intros m' (k' & Hin & Hm')%list_elem_of_omap. unfold row_le.
  rewrite (Hk _ _ Em), (Hk _ _ Hm'). by eapply list.Forall_forall in Hall.
Qed.

Lemma sorted_strict (l : list Z) : StronglySorted Z.le l → NoDup l → StronglySorted Z.lt l.
Proof.
  induction 1 as [|x l Hs IH Hall]; intros Hn; constructor; apply NoDup_cons in Hn as [Hx Hn]; auto.
  apply list.Forall_forall. intros y Hy. pose proof (proj1 (list.Forall_forall _ _) Hall y Hy).
  assert (x ≠ y) by (intros ->; done). lia.
Qed.

Lemma sorted_filter {A} (R : relation A) (p : A → bool) l :
  StronglySorted R l → StronglySorted R (List.filter p l).
Proof.
  induction 1 as [|x l Hs IH Hall]; simpl; [constructor|]. destruct (p x); [|done].
  constructor; [done|]. apply list.Forall_forall. intros y Hy.
  apply list_elem_of_In, filter_In in Hy as [Hy _]. apply list_elem_of_In in Hy.
  by eapply list.Forall_forall in Hall.
Qed.

Lemma sorted_take {A} (R : relation A) n l : StronglySorted R l → StronglySorted R (take n l).
Proof.
  intros Hs. revert n. induction Hs as [|x l Hs IH Hall]; intros [|n]; simpl; try constructor; [done|].
  by apply Forall_take.
Qed.

(** What precedes an element of a prefix is in the prefix. *)
Lemma sorted_take_below {A} (R : relation A) n l x y :
  (∀ a b, R a b → R b a → False) → StronglySorted R l → y ∈ take n l → x ∈ l → R x y → x ∈ take n l.
Proof.
  intros HR Hs. revert n. induction Hs as [|z l Hs IH Hall]; intros [|n]; simpl; [by intros ?%elem_of_nil..|].
  intros [->|Hy]%elem_of_cons [->|Hx]%elem_of_cons Hxy; [by left|..|by left|right; eauto].
  destruct (HR x z Hxy). by eapply list.Forall_forall in Hall.
Qed.

Lemma rows_nodup rows : StronglySorted row_le rows → NoDup (OutboxMessage.ID <$> rows).
Proof.
  induction 1 as [|x l Hs IH Hall]; simpl; constructor; [|done].
  intros (y & Eq & Hy)%list_elem_of_fmap. pose proof (proj1 (list.Forall_forall _ _) Hall y Hy) as Hlt.
  unfold row_le in Hlt. lia.
Qed.

Section relay_spec.
Context {E : Env}.
#[local] Existing Instances Memory.memory_store MemSpec.memory_laws.

Lemma fetch_batch shards batch w rows w' :
  (∀ k m, outbox (db w) !! k = Some m → OutboxMessage.ID m = k) →
  FetchAndLockPendingOutbox shards batch w = (Ok rows, w') →
  batch_of shards batch (outbox (db w)) rows ∧ w' = mkWorld (db w) (S (tick w)).
Proof.
  intros Hk Hf. simpl in Hf. unfold Memory.FetchAndLockPendingOutbox, range_map, tick_of in Hf.
  unfold mbind, GoM_bind, gets in Hf. simpl in Hf. rewrite collect_take in Hf by (simpl; lia).
  simpl in Hf. rewrite Nat.sub_0_r in Hf. injection Hf as Hf <-. split; [|done].
  set (ids := merge_sort Z.le _) in Hf. fold (owed_row shards) in Hf.
  assert (∀ k, k ∈ ids ↔ is_Some (outbox (db w) !! k)) as Hids.
  { intros k. unfold ids. rewrite merge_sort_Permutation, range_order_perm, list_elem_of_fmap. split.
    - intros ([k' m] & -> & Hm%elem_of_map_to_list). by eexists.
    - intros [m Hm]. exists (k, m). by rewrite elem_of_map_to_list. }
  assert (StronglySorted Z.lt ids) as Hs.
  { apply sorted_strict; [apply StronglySorted_merge_sort; apply _|].
    unfold ids. rewrite merge_sort_Permutation, range_order_perm. apply NoDup_fst_map_to_list. }
  set (all := List.filter (owed_row shards) (omap (λ k, outbox (db w) !! k) ids)) in Hf.
  assert (∀ m, m ∈ all ↔ outbox (db w) !! OutboxMessage.ID m = Some m ∧ owed_row shards m = true) as Hall.
  { intros m. unfold all. rewrite list_elem_of_In, filter_In, <-list_elem_of_In, list_elem_of_omap.
    split; intros [H1 H2]; (split; [|done]).
    - destruct H1 as (k & _ & Hm). by rewrite (Hk _ _ Hm).
    - exists (OutboxMessage.ID m). split; [|done]. apply Hids. by eexists. }
  assert (StronglySorted row_le all) as Hsorted by by apply sorted_filter, omap_keys.
  subst rows. split.
  - intros m Hm. apply Hall. by eapply elem_of_take in Hm as (? & ?%list_elem_of_lookup_2 & _).
  - by apply sorted_take.
  - rewrite length_take. lia.
  - rewrite length_take. intros Hlt k m Hm Ho. rewrite take_ge by lia. apply Hall.
    by rewrite (Hk _ _ Hm).
  - intros k m m' Hm Hm' Ho Hlt. eapply (sorted_take_below row_le); [unfold row_le; lia|done|exact Hm| |done].
    apply Hall. by rewrite (Hk _ _ Hm').
Qed.

Section publishing.
Context {Q : Type} (Publish : string → TaskPayload.t → GoM Q string).

(** The queue after the messages of [rows] were accepted, in this order. *)
Inductive sent : list OutboxMessage.t → Q → Q → Prop :=
| sent_nil q : sent [] q q
| sent_cons row rows q q1 q2 id :
    Publish (OutboxMessage.StreamName row) (OutboxMessage.Payload row) q = (Ok id, q1) →
    sent rows q1 q2 → sent (row :: rows) q q2.

(** From [d] to [d'] exactly the rows [rows] became PUBLISHED. *)
Record marked (rows : list OutboxMessage.t) (d d' : Tables) : Prop := {
  mk_row : ∀ m, m ∈ rows → ∃ n,
    outbox d' !! OutboxMessage.ID m = Some (Memory.outbox_published m n);
  mk_other : ∀ k, k ∉ OutboxMessage.ID <$> rows → outbox d' !! k = outbox d !! k;
  mk_rest : d' = set_outbox (λ _, outbox d') (nextOutboxID d) d
}.

Lemma marked_nil d : marked [] d d.
Proof. split; [by intros m ?%elem_of_nil|done|by destruct d]. Qed.

Lemma marked_cons row rows d d1 d2 n :
  d1 = set_outbox (insert (OutboxMessage.ID row) (Memory.outbox_published row n)) (nextOutboxID d) d →
  marked rows d1 d2 → OutboxMessage.ID row ∉ OutboxMessage.ID <$> rows →
  marked (row :: rows) d d2.
Proof.
  intros -> [H1 H2 H3] Hx. split.
  - intros m [->|Hm]%elem_of_cons; [|by apply H1]. exists n. rewrite H2 by done.
    simpl. by rewrite lookup_insert_eq.
  - intros k [Hk1 Hk2]%not_elem_of_cons. rewrite H2 by done. simpl. by rewrite lookup_insert_ne.
  - by rewrite H3.
Qed.

(** Where an iteration over [rows] stops. *)
Definition relayed (rollback : bool) (rows : list OutboxMessage.t) (n : Z) (w : World) (q : Q)
    (r : outcome Z) (w' : World) (q' : Q) : Prop :=
  match r with
  | Ok k => k = n + Z.of_nat (length rows) ∧ sent rows q q' ∧ marked rows (db w) (db w')
  | Err e => ∃ done row rest q1, rows = done ++ row :: rest ∧ sent done q q1 ∧
      Publish (OutboxMessage.StreamName row) (OutboxMessage.Payload row) q1 = (Err e, q') ∧
      if rollback then db w' = db w else marked done (db w) (db w')
  end.

(** On the memory store, marking and fetching never fail. *)
Lemma mark_run k w : ∃ d n, MarkOutboxPublished k w = (Ok tt, mkWorld d (tick w + n)).
Proof.
  simpl. unfold Memory.MarkOutboxPublished, mbind, GoM_bind, gets. destruct (outbox (db w) !! k).
  - eexists _, 1%nat. unfold now, tick_of, set_db, modify. simpl. do 2 f_equal. lia.
  - exists (db w), 0%nat. simpl. rewrite Nat.add_0_r. by destruct w.
Qed.

Lemma relay_row_run n row w q :
  relay_row Publish n row (w, q) =
    match Publish (OutboxMessage.StreamName row) (OutboxMessage.Payload row) q with
    | (Err e, q') => (Err e, (w, q'))
    | (Ok _, q') => (Ok (n + 1), ((MarkOutboxPublished (OutboxMessage.ID row) w).2, q'))
    end.
Proof.
  unfold relay_row, on_queue, on_store, mbind, GoM_bind. cbn [fst snd].
  destruct (Publish _ _ q) as [[id|e] q']; [|done].
  cbn [fst snd]. destruct (mark_run (OutboxMessage.ID row) w) as (d & k & ->). done.
Qed.

Lemma fetch_run shards batch w : ∃ rows,
  FetchAndLockPendingOutbox shards batch w = (Ok rows, mkWorld (db w) (S (tick w))).
Proof. by eexists. Qed.

Lemma relay_rows_spec rows n w q r w' q' :
  (∀ m, m ∈ rows → outbox (db w) !! OutboxMessage.ID m = Some m) →
  NoDup (OutboxMessage.ID <$> rows) →
  foldM (relay_row Publish) n rows (w, q) = (r, (w', q')) → relayed false rows n w q r w' q'.
Proof.
  revert n w q. induction rows as [|row rows IH]; intros n w q Hrow Hnd Hrun.
  { injection Hrun as <- <- <-. simpl. split_and!; [lia|constructor|apply marked_nil]. }
  cbn [foldM] in Hrun. unfold mbind, GoM_bind in Hrun. rewrite relay_row_run in Hrun.
  destruct (Publish _ _ q) as [[id|e] q1] eqn:Hp.
  2: { injection Hrun as <- <- <-. exists [], row, rows, q. split_and!; [done|constructor|done|].
       apply marked_nil. }
  simpl in Hnd. apply NoDup_cons in Hnd as [Hx Hnd].
  assert (∃ t, db (MarkOutboxPublished (OutboxMessage.ID row) w).2 =
    set_outbox (insert (OutboxMessage.ID row) (Memory.outbox_published row t)) (nextOutboxID (db w)) (db w))
    as [t Hm].
  { simpl. unfold Memory.MarkOutboxPublished, mbind, GoM_bind, gets.
    rewrite (Hrow row) by (by constructor). by eexists. }
  apply IH in Hrun; [|intros m Hin|done].
  - destruct r as [k|e]; simpl in *.
    + destruct Hrun as (-> & Hs & Hk). split_and!; [lia|by econstructor|by eapply marked_cons].
    + destruct Hrun as (done & row' & rest & q2 & -> & Hs & Hp' & Hk).
      exists (row :: done), row', rest, q2. split_and!; [done|by econstructor|done|].
      eapply marked_cons; [done..|]. intros Hin. apply Hx. rewrite fmap_app. set_solver.
  - rewrite Hm. simpl. rewrite lookup_insert_ne; [apply Hrow; set_solver|].
    intros Eq. apply Hx. rewrite Eq. by apply list_elem_of_fmap_2.
Qed.
End publishing.

(** One iteration, from any outbox whose rows are filed under their identifiers. *)
Lemma relay_tick_spec {Q} (Publish : string → TaskPayload.t → GoM Q string) rollback shards batch
    w q r w' q' :
  (∀ k m, outbox (db w) !! k = Some m → OutboxMessage.ID m = k) →
  relay_tick Publish rollback shards batch (w, q) = (r, (w', q')) →
  ∃ rows, batch_of (current_shards shards) batch (outbox (db w)) rows ∧
          relayed Publish rollback rows 0 w q r w' q'.
Proof.
  intros Hk Hrun. unfold relay_tick, tx, mbind, GoM_bind, on_store at 1 in Hrun. cbn [fst snd] in Hrun.
  destruct (fetch_run (current_shards shards) batch w) as [rows Hf]. rewrite Hf in Hrun.
  destruct (fetch_batch _ _ _ _ _ Hk Hf) as [Hb _].
  exists rows. split; [done|].
  destruct (foldM _ 0 rows _) as [r2 [w2 q2]] eqn:Hfold. apply relay_rows_spec in Hfold as Hs.
  - destruct r2 as [n|e]; injection Hrun as <- <- <-; [exact Hs|].
    destruct rollback; [|exact Hs]. destruct Hs as (done & row & rest & q1 & ? & ? & ? & _). simpl.
    eauto 10.
  - intros m Hm. apply (ba_row _ _ _ _ Hb m Hm).
  - apply rows_nodup, (ba_sorted _ _ _ _ Hb).
Qed.

(** C24.  One iteration of the relay, over any queue, delivers at least once and in order:
    the rows it takes are the oldest PENDING ones of its shards (all of them if they are
    fewer than the batch size); it publishes them in the order they were written and marks
    a row only after the queue accepted it.  If it succeeds, precisely those rows are
    PUBLISHED; if the queue refuses a row, the error is returned, that row and the later
    ones stay PENDING, and the ones before it are PUBLISHED, or, on a store that rolls
    back, PENDING again. *)
Theorem relay_in_order {Q} (Publish : string → TaskPayload.t → GoM Q string) (Hu : uuid_unique)
    rollback shards batch w fl q r w' q' :
  reachable (w, fl) → relay_tick Publish rollback shards batch (w, q) = (r, (w', q')) →
  ∃ rows, batch_of (current_shards shards) batch (outbox (db w)) rows ∧
          relayed Publish rollback rows 0 w q r w' q'.
Proof.
  intros Hr. apply relay_tick_spec.
  exact (λ k m Hm, proj1 (oi_key _ _ _ (inv_out _ (reachable_Inv Hu _ Hr)) k m Hm)).
Qed.
End relay_spec.

Section demo_relay.
#[local] Existing Instances Memory.memory_store MemSpec.memory_laws.

(** A queue that accepts everything. *)
Definition demo_queue (stream : string) (p : TaskPayload.t) : GoM (list (string * TaskPayload.t)) string :=
  λ q, (Ok (Strings.Itoa (Z.of_nat (length q))), q ++ [(stream, p)]).

Lemma relay_in_order_witness :
  let t := relay_tick demo_queue true None 100 (at_ created, []) in
  t.1 = Ok 1 ∧ ∃ rows, relayed demo_queue true rows 0 (at_ created) [] (Ok 1) t.2.1 t.2.2.
Proof.
  cbv zeta.
  destruct (relay_tick demo_queue true None 100 (at_ created, [])) as [r [w' q']] eqn:Hrun.
  destruct (relay_in_order demo_queue demo_unique true None 100 (at_ created) [] [] r w' q'
    created_reachable Hrun) as (rows & _ & Hs).
  assert (r = Ok 1) as Er.
  { assert (r = (relay_tick demo_queue true None 100 (at_ created, [])).1) as -> by (rewrite Hrun; reflexivity).
    vm_compute. reflexivity. }
  rewrite Er in Hs |- *. split; [reflexivity|]. exists rows. exact Hs.
Defined.
End demo_relay.
End RelaySpec.
