(* ===== verification/Worker.v ===== *)
(** internal/worker, internal/queue/queue.go and the client side of cmd/worker: a worker
    takes a message from a stream, claims the attempt over gRPC, runs the handler of its
    task type and reports the result.

    A message holds the bytes the relay published: the marshalled [TaskPayload], or bytes
    that do not decode ([None]).  The network is a parameter: a call can be lost on the way
    to the server, or executed there while its reply is lost.  Between the claim and the
    report other parts of the system act; [meanwhile] is what they do, the heartbeats of
    this worker included. *)

From stdpp Require Import gmap strings list.
From S2P Require Import Prelude GoLib Json Types Engine Grpc.
Open Scope Z_scope.

Module Message.
Record t := mk { ID : string; Stream : string; Payload : option TaskPayload.t; Delivery : Z }.
End Message.

Module Worker.
Import Strings.

(** The context of a handler carries deadlines only; what a handler does and returns is
    its own business. *)
Abbreviation Handler := (json → string → outcome RawMessage).

Record t := mk {
  ID : string;
  handlers : gmap string Handler;
  Concurrency : Z;
  IdleTimeout : time;
  HeartbeatFor : time
}.

Definition second : Z := 1000000000.

Definition New (id : string) : t := mk id ∅ 4 (15 * second) (10 * second).

Definition Register (taskType : string) (h : Handler) (w : t) : t :=
  mk (ID w) (<[taskType := h]> (handlers w)) (Concurrency w) (IdleTimeout w) (HeartbeatFor w).

Definition handlerFor (taskType : string) (w : t) : option Handler := handlers w !! taskType.

Definition streamNames (taskTypes : list string) : list string :=
  (λ t, "wf:tasks:" +:+ t) <$> taskTypes.

(** * Remote calls *)

(** cmd/worker: the metadata every call carries. *)
Definition apiKeyUnaryInterceptor (apiKey : string) : string → list string :=
  λ k, if decide (k = "authorization") then ["Bearer " +:+ apiKey] else [].

Inductive fate := Delivered | RequestLost | ReplyLost.

(** A command on its way to a server (of Redis, say) and back. *)
Definition network : error := Errorf "network error".
Definition send {S A} (f : fate) (c : S → A * S) : GoM S A :=
  λ s, match f with
       | Delivered => let '(a, s') := c s in (Ok a, s')
       | RequestLost => (Err network, s)
       | ReplyLost => (Err network, (c s).2)
       end.

Lemma send_state {S A} f (c : S → A * S) s (P : S → Prop) : P s → P (c s).2 → P (send f c s).2.
Proof. destruct f; simpl; [by destruct (c s)|done..]. Qed.

(** [None] is an error at the client: a lost message or a status of the server. *)
Definition call {A} (f : fate) (h : GoM World (Grpc.rpc A)) : GoM World (option A) :=
  match f with
  | RequestLost => mret None
  | Delivered => r ← h; mret (match r with Grpc.Reply a => Some a | Grpc.Status _ _ => None end)
  | ReplyLost => _ ← h; mret None
  end.

(** What the outside sees of [process]: acknowledgements and handler runs. *)
Inductive effect :=
| Acked (id : string)
| Ran (attempt : uuid) (taskType : string).

Section worker.
Context `{Env} `{!Store}.
(** The two configured keys and the lease duration of the server. *)
Context (serverKey clientKey : string) (LeaseDuration : Z).

Definition rpc_call {A} (f : fate) (h : GoM World (Grpc.rpc A)) : GoM World (option A) :=
  call f (Grpc.AuthUnaryInterceptor serverKey (Some (apiKeyUnaryInterceptor clientKey)) h).

Definition heartbeat (w : t) (f : fate) : GoM World unit :=
  _ ← rpc_call f (Grpc.Heartbeat LeaseDuration None (Grpc.HeartbeatRequest.mk (ID w) "")); mret tt.

Definition attempt_heartbeat (w : t) (f : fate) (attemptID : string) : GoM World unit :=
  _ ← rpc_call f (Grpc.Heartbeat LeaseDuration None (Grpc.HeartbeatRequest.mk (ID w) attemptID));
  mret tt.

(** A failing report is only logged. *)
Definition report (w : t) (f : fate) (p : TaskPayload.t) (success : bool) (output : RawMessage)
    (errMsg : string) : GoM World unit :=
  let outJSON := match output with None => Malformed "" | Some b => b end in
  _ ← rpc_call f (Grpc.ReportResult (Grpc.ReportResultRequest.mk
        (uuid_String (TaskPayload.TaskAttemptID p)) (ID w) success outJSON errMsg));
  mret tt.

(** [process] up to the decision whether to run the task. *)
Definition claim (w : t) (f : fate) (p : TaskPayload.t) : GoM World (option Grpc.ClaimTaskResponse.t) :=
  rpc_call f (Grpc.ClaimTask LeaseDuration (Grpc.ClaimTaskRequest.mk
    (uuid_String (TaskPayload.TaskAttemptID p)) (uuid_String (TaskPayload.IdempotencyKey p)) (ID w))).

(** The rest of [process], once the claim was granted. *)
Definition execute (w : t) (f : fate) (meanwhile : World → World) (p : TaskPayload.t)
    (taskType : string) : GoM World (list effect) :=
  match handlerFor taskType w with
  | None =>
      _ ← report w f p false None ("no handler registered for task type " +:+ Quote taskType);
      mret []
  | Some handler =>
      _ ← modify meanwhile;
      _ ← match handler (TaskPayload.Input p) (uuid_String (TaskPayload.IdempotencyKey p)) with
          | Err e => report w f p false None (error_String e)
          | Ok output => report w f p true output ""
          end;
      mret [Ran (TaskPayload.TaskAttemptID p) taskType]
  end.

Definition process (w : t) (fc fr : fate) (meanwhile : World → World) (msg : Message.t)
    : GoM World (list effect) :=
  match Message.Payload msg with
  | None => mret [Acked (Message.ID msg)]
  | Some p =>
      c ← claim w fc p;
      match c with
      | None => mret []
      | Some resp =>
          match Grpc.ClaimTaskResponse.Status resp with
          | Grpc.CLAIMED =>
              effs ← execute w fr meanwhile p (Grpc.ClaimTaskResponse.TaskType resp);
              mret (effs ++ [Acked (Message.ID msg)])
          | _ => mret [Acked (Message.ID msg)]
          end
      end
  end.

(** * The loops *)

(** What a processing loop meets when it waits: a message, after the rest of the system did
    [before]; the end of the channel; or the end of the context. *)
Inductive receipt :=
| Received (before : World → World) (fc fr : fate) (meanwhile : World → World) (msg : Message.t)
| Closed
| Done.

(** At the end of the list the loop waits. *)
Fixpoint processLoop (w : t) (inbox : list receipt) : GoM World (list effect) :=
  match inbox with
  | [] | Closed :: _ | Done :: _ => mret []
  | Received before fc fr meanwhile msg :: rest =>
      _ ← modify before;
      effs ← process w fc fr meanwhile msg;
      more ← processLoop w rest;
      mret (effs ++ more)
  end.

(** The subscriptions of [Run], each with its number of processing loops; an error of
    [Consume] ends [Run] while the loops started before go on. *)
Fixpoint subscribe {Ch} (Consume : string → outcome Ch) (w : t) (taskTypes : list string)
    : list (string * Ch) * option error :=
  match taskTypes with
  | [] => ([], None)
  | ty :: rest =>
      let stream := "wf:tasks:" +:+ ty in
      match Consume stream with
      | Err e => ([], Some (Wrapf ("worker: consume " +:+ stream) e))
      | Ok msgs =>
          let '(loops, e) := subscribe Consume w rest in
          (replicate (Z.to_nat (Concurrency w)) (stream, msgs) ++ loops, e)
      end
  end.

(** A failed registration is only logged. *)
Definition Run {Ch} (w : t) (f : fate) (pipeline : option error) (Consume : string → outcome Ch)
    : GoM World (list (string * Ch) * option error) :=
  taskTypes ← range_map (map_to_list (handlers w)).*1;
  _ ← rpc_call f (Grpc.RegisterWorker pipeline (Grpc.RegisterWorkerRequest.mk (ID w)
        (streamNames taskTypes) (Grpc.wrap32 (Concurrency w))));
  mret (subscribe Consume w taskTypes).
End worker.
End Worker.
