(* ===== verification/WorkerSpec.v ===== *)
(** The worker against the server: a task attempt is executed at most once, however often
    its message is delivered and whatever the network loses, and a delivered message is
    carried through to a recorded result. *)

From stdpp Require Import gmap strings list relations.
From S2P Require Import Prelude GoLib Json Types MemStore Dsl Engine Lifecycle.
From S2P Require Import LifecycleInv Worlds Contract MemSpec Reconcile EngineSpec EngineOps RunCreate.
From S2P Require Import System Liveness Demo Behaviour Scheduler Grpc Http ApiSpec Serving Worker.
Open Scope Z_scope.

Module WorkerSpec.
Import Lifecycle LifecycleInv Worlds Contract MemSpec EngineOps System Demo Behaviour ApiSpec Serving Worker.

#[local] Existing Instances Memory.memory_store MemSpec.memory_laws.

Section worker.
Context {E : Env} {St : Store} {L : StoreLaws St}.
Hypothesis Hu : uuid_unique.

Definition claim_request (wk : Worker.t) (p : TaskPayload.t) : Grpc.ClaimTaskRequest.t :=
  Grpc.ClaimTaskRequest.mk (uuid_String (TaskPayload.TaskAttemptID p))
    (uuid_String (TaskPayload.IdempotencyKey p)) (ID wk).

(** The client's call of the claim RPC always returns; whatever the network loses, it
    changed no row and is not a grant, or it leased an attempt that was QUEUED. *)
Lemma claim_cases sk ck ld wk f p w fl :
  reachable (w, fl) →
  ∃ r w', claim sk ck ld wk f p w = (Ok r, w') ∧
    claim_outcome w (uuid_Parse (uuid_String (TaskPayload.TaskAttemptID p))) (ID wk)
      (∃ resp, r = Some resp ∧ Grpc.ClaimTaskResponse.Status resp = Grpc.CLAIMED) w'.
Proof.
  intros Hr. unfold claim, rpc_call, Grpc.AuthUnaryInterceptor. fold (claim_request wk p).
  assert (∀ w', db w' = db w → claim_outcome w (uuid_Parse (uuid_String (TaskPayload.TaskAttemptID p)))
    (ID wk) (∃ resp, None = Some resp ∧ Grpc.ClaimTaskResponse.Status resp = Grpc.CLAIMED) w') as Hnone.
  { intros w' Hdb. left. split; [done|]. by intros (? & ? & _). }
  destruct (Grpc.validAPIKey _ _); [|destruct f; simpl; eexists _, _; split; auto].
  destruct (ClaimTask_outcome Hu w fl ld (claim_request wk p) Hr) as (ans & Ha & Hout).
  destruct (Grpc.ClaimTask ld (claim_request wk p) w) as [r w'] eqn:Hc. simpl in Ha, Hout. subst r.
  assert (∀ o, (∀ resp, o = Some resp → ans = Grpc.Reply resp) →
    claim_outcome w (uuid_Parse (uuid_String (TaskPayload.TaskAttemptID p))) (ID wk)
      (∃ resp, o = Some resp ∧ Grpc.ClaimTaskResponse.Status resp = Grpc.CLAIMED) w') as Hweak.
  { intros o Ho. destruct Hout as [[Hdb Hno]|?]; [left|by right]. split; [done|].
    intros (resp & -> & Hst). apply Hno. by rewrite (Ho resp eq_refl). }
  destruct f; simpl; unfold mbind, GoM_bind; rewrite ?Hc; simpl; eexists _, _; (split; [done|]).
  - apply Hweak. destruct ans; [by intros ? [= ->]|done].
  - by apply Hnone.
  - by apply Hweak.
Qed.

(** A claim of an attempt that is not QUEUED any more: no effect, and not granted. *)
Lemma claim_refused sk ck ld wk f p w fl id a :
  reachable (w, fl) → uuid_Parse (uuid_String (TaskPayload.TaskAttemptID p)) = Some id →
  attempts (db w) !! id = Some a → TaskAttempt.Status a ≠ AttemptQueued →
  ∃ r w', claim sk ck ld wk f p w = (Ok r, w') ∧ db w' = db w ∧
       ∀ resp, r = Some resp → Grpc.ClaimTaskResponse.Status resp ≠ Grpc.CLAIMED.
Proof.
  intros Hr Hp Ha Hst. destruct (claim_cases sk ck ld wk f p w fl Hr) as (r & w' & Hc & [[Hdb Hno]|Hl]).
  - exists r, w'. split_and!; [done..|]. intros resp -> Hs. apply Hno. eauto.
  - destruct Hl as (i & b & Hi & Hb & Hq & _). rewrite Hp in Hi. injection Hi as <-. congruence.
Qed.

(** A granted claim leases the attempt. *)
Lemma claim_granted sk ck ld wk f p w fl resp w' :
  reachable (w, fl) → claim sk ck ld wk f p w = (Ok (Some resp), w') →
  Grpc.ClaimTaskResponse.Status resp = Grpc.CLAIMED →
  ∃ id a, uuid_Parse (uuid_String (TaskPayload.TaskAttemptID p)) = Some id ∧
    attempts (db w) !! id = Some a ∧ TaskAttempt.Status a = AttemptQueued ∧
    holds_lease w' id (ID wk).
Proof.
  intros Hr Hrun Hst. destruct (claim_cases sk ck ld wk f p w fl Hr) as (r & w1 & Hc & Hcase).
  rewrite Hrun in Hc. injection Hc as <- <-. destruct Hcase as [[_ Hno]|?]; [|done].
  destruct Hno. eauto.
Qed.

Lemma sim_call {A} f (h : GoM World (Grpc.rpc A)) : simulated h → simulated (call f h).
Proof. intros Hh. destruct f; simpl; sim_steps; done. Qed.

Lemma sim_claim sk ck ld wk f p : simulated (claim sk ck ld wk f p).
Proof. apply sim_call, sim_Auth, sim_ClaimTask. Qed.

Lemma reachable_sim {A} (m : GoM World A) w fl r w' :
  simulated m → reachable (w, fl) → m w = (r, w') → reachable (w', fl).
Proof. intros Hm Hr Hrun. apply (reachable_trans _ _ Hr). specialize (Hm w fl). by rewrite Hrun in Hm. Qed.

(** Equal keys on both sides let a call through. *)
Lemma rpc_call_same {A} key f (h : GoM World (Grpc.rpc A)) : key ≠ "" → rpc_call key key f h = call f h.
Proof.
  intros Hk. unfold rpc_call, Grpc.AuthUnaryInterceptor.
  rewrite (proj2 (rpc_key_iff key (Some (apiKeyUnaryInterceptor key)))); [done|].
  split; [done|]. by eexists _, [].
Qed.

Definition succeeded {A} (r : outcome A) : bool := match r with Ok _ => true | Err _ => false end.

(** A report the server receives is the engine's [HandleTaskResult]. *)
Lemma report_run key wk p success out err w fl :
  key ≠ "" → reachable (w, fl) →
  uuid_Parse (uuid_String (TaskPayload.TaskAttemptID p)) = Some (TaskPayload.TaskAttemptID p) →
  ∃ r w', report key key wk Delivered p success out err w = (Ok tt, w') ∧
          reported w (TaskPayload.TaskAttemptID p) (ID wk) success r w'.
Proof.
  intros Hk Hr Hp. unfold report. cbv zeta. rewrite rpc_call_same by done. unfold call, Grpc.ReportResult.
  cbn [Grpc.ReportResultRequest.TaskAttemptId]. rewrite Hp. cbv zeta. unfold mbind, GoM_bind.
  rewrite catch_run.
  match goal with |- context [Engine.HandleTaskResult ?a ?b ?c ?d ?e w] =>
    destruct (Engine.HandleTaskResult a b c d e w) as [r w'] eqn:Hrun end.
  pose proof (HandleTaskResult_spec Hu w fl _ _ _ _ _ r w' Hr Hrun) as Hrep.
  exists r, w'. split; [|exact Hrep]. simpl. by destruct r.
Qed.
End worker.

(** On the memory store, the report of the lease holder is accepted. *)
Lemma reported_accepted {E : Env} w id worker success r w' :
  reported w id worker success r w' → holds_lease w id worker →
  reported w id worker success (Ok true) w'.
Proof. destruct r as [[]|e]; [done|by intros [? _] ?|by intros [[] _]]. Qed.

(** A task attempt is executed at most once.  Once a worker was granted the attempt,
    every later processing of a message for it, in any continuation of the execution
    (even while the first handler is still running), by any worker and whatever the
    network loses or the store fails, runs no handler, changes no row and does not fail:
    the message is acknowledged, or left for redelivery if the claim got no answer. *)
Theorem task_runs_once {E : Env} {St : Store} {L : StoreLaws St} (Hu : uuid_unique) sk ck ld wk f p
    w fl resp w1 w2 fl2 sk' ck' ld' wk' fc fr meanwhile msg p' :
  reachable (w, fl) → claim sk ck ld wk f p w = (Ok (Some resp), w1) →
  Grpc.ClaimTaskResponse.Status resp = Grpc.CLAIMED → rtc sys_step (w1, fl) (w2, fl2) →
  Message.Payload msg = Some p' → TaskPayload.TaskAttemptID p' = TaskPayload.TaskAttemptID p →
  ∃ effs w3, process sk' ck' ld' wk' fc fr meanwhile msg w2 = (Ok effs, w3) ∧ db w3 = db w2 ∧
          (effs = [] ∨ effs = [Acked (Message.ID msg)]).
Proof.
  intros Hr Hc Hst Hs Hm Hid.
  destruct (claim_granted Hu _ _ _ _ _ _ _ _ _ _ Hr Hc Hst) as (id & a & Hp & Ha & _ & a1 & Ha1 & Hl1).
  pose proof (reachable_sim _ _ _ _ _ (sim_claim sk ck ld wk f p) Hr Hc) as Hr1.
  destruct (ev_attempts _ _ (steps_evolve Hu _ _ Hr1 Hs) id a1 Ha1) as (a2 & Ha2 & Hev). simpl in Ha2.
  pose proof (reachable_trans _ _ Hr1 Hs) as Hr2.
  destruct (claim_refused Hu sk' ck' ld' wk' fc p' w2 fl2 id a2 Hr2) as (r & w3 & Hr' & Hdb & Hno);
    [by rewrite Hid|done|apply (ae_claimed _ _ Hev); by rewrite (leased_by_status _ _ Hl1)|].
  unfold process. rewrite Hm. unfold mbind, GoM_bind. rewrite Hr'.
  destruct r as [resp'|]; [|by eauto 10]. specialize (Hno resp' eq_refl).
  destruct (Grpc.ClaimTaskResponse.Status resp'); by eauto 10.
Qed.

Definition demo_worker : Worker.t := Register "http" (λ _ _, Ok None) (New "w1").
Definition demo_payload : TaskPayload.t := TaskPayload.mk 15 7 5 "fetch" "http" JNull 1 16 30.
Definition demo_message : Message.t := Message.mk "1-0" "wf:tasks:http" (Some demo_payload) 1.

Lemma task_runs_once_witness :
  ∃ effs w1 w3, process "k" "k" 30 (New "w2") Delivered Delivered id demo_message w1 = (Ok effs, w3) ∧
             db w3 = db w1 ∧ (effs = [] ∨ effs = [Acked "1-0"]).
Proof.
  destruct (claim "k" "k" 30 demo_worker Delivered demo_payload (at_ created)) as [r w1] eqn:Hc.
  assert (r = (claim "k" "k" 30 demo_worker Delivered demo_payload (at_ created)).1) as Er
    by (rewrite Hc; reflexivity).
  vm_compute in Er. rewrite Er in Hc.
  destruct (task_runs_once demo_unique "k" "k" 30 demo_worker Delivered demo_payload (at_ created) []
    _ w1 w1 [] "k" "k" 30 (New "w2") Delivered Delivered id demo_message demo_payload
    created_reachable Hc) as (effs & w3 & He & Hdb & Hs).
  - reflexivity.
  - apply rtc_refl.
  - reflexivity.
  - reflexivity.
  - exists effs, w1, w3. split; [exact He|]. split; [exact Hdb|exact Hs].
Defined.

(** C26.  A delivered task is carried through, over the in-memory store and under these
    conditions: the message names a QUEUED attempt and its idempotency key, the run is not
    cancelled, the worker has an id and a handler for the task type of the step, worker and
    server have the same API key, which is not empty, both calls (claim and report) are
    delivered and answered, and the worker still holds the lease when the handler returns
    (whatever else happens meanwhile).  Then the handler runs, its result is accepted and
    recorded by the engine as success or failure, and the message is acknowledged. *)
Theorem delivery_completes {E : Env} (Hu : uuid_unique) key ld wk meanwhile msg p w fl fl2 a run s handler :
  reachable (w, fl) → Message.Payload msg = Some p →
  attempts (db w) !! TaskPayload.TaskAttemptID p = Some a → TaskAttempt.Status a = AttemptQueued →
  TaskAttempt.IdempotencyKey a = TaskPayload.IdempotencyKey p →
  runs (db w) !! TaskAttempt.WorkflowRunID a = Some run → WorkflowRun.Status run ≠ RunCancelled →
  steps (db w) !! TaskAttempt.StepID a = Some s → handlerFor (Step.TaskType s) wk = Some handler →
  key ≠ "" → ID wk ≠ "" →
  (∀ id, id = TaskPayload.TaskAttemptID p ∨ id = TaskPayload.IdempotencyKey p →
     uuid_Parse (uuid_String id) = Some id) →
  let w1 := (claim key key ld wk Delivered p w).2 in
  rtc sys_step (w1, fl) (meanwhile w1, fl2) →
  holds_lease (meanwhile w1) (TaskPayload.TaskAttemptID p) (ID wk) →
  ∃ w', process key key ld wk Delivered Delivered meanwhile msg w =
      (Ok [Ran (TaskPayload.TaskAttemptID p) (Step.TaskType s); Acked (Message.ID msg)], w') ∧
    reported (meanwhile w1) (TaskPayload.TaskAttemptID p) (ID wk)
      (succeeded (handler (TaskPayload.Input p) (uuid_String (TaskPayload.IdempotencyKey p)))) (Ok true) w'.
Proof.
  intros Hr Hm Ha Hq Hk Hrun Hnc Hs Hh Hkey Hwk Hu' w1 Hmean Hlease.
  assert (∃ exp n t, claim key key ld wk Delivered p w = (Ok (Some (Grpc.ClaimTaskResponse.mk Grpc.CLAIMED
    (Step.StepName s) (Step.TaskType s) (Step.Input s) n t exp)), w1)) as (exp & n & t & Hc).
  { subst w1. unfold claim. rewrite rpc_call_same by done. fold (claim_request wk p). unfold call.
    unfold mbind, GoM_bind. destruct (Grpc.ClaimTask ld (claim_request wk p) w) as [r w'] eqn:Hc.
    pose proof (ClaimTask_spec Hu w fl ld _ r w' Hr Hc) as Hans. unfold claim_answer in Hans. simpl in Hans.
    rewrite !Hu', Ha, (bool_decide_eq_false_2 _ Hwk), (bool_decide_eq_true_2 _ Hq), Hk, N.eqb_refl in Hans
      by auto. simpl in Hans. destruct Hans as (_ & run' & s' & Hrun' & Hs' & Hans).
    rewrite Hrun in Hrun'. rewrite Hs in Hs'. simplify_eq.
    rewrite (bool_decide_eq_false_2 _ Hnc) in Hans. destruct Hans as [[exp ->] _]. simpl. by eexists _, _, _. }
  assert (reachable (meanwhile w1, fl2)) as Hr2.
  { eapply reachable_trans; [|exact Hmean]. by eapply reachable_sim; [apply sim_claim| |exact Hc]. }
  unfold process. rewrite Hm. unfold mbind at 1, GoM_bind at 1. rewrite Hc. simpl.
  unfold execute. rewrite Hh. unfold mbind, GoM_bind, modify.
  destruct (handler _ _) as [out|e]; simpl.
  - destruct (report_run Hu key wk p true out "" (meanwhile w1) fl2) as (r & w' & -> & Hrep); [done|done|auto|].
    exists w'. split; [done|]. by apply reported_accepted in Hrep.
  - destruct (report_run Hu key wk p false None (error_String e) (meanwhile w1) fl2) as (r & w' & -> & Hrep);
      [done|done|auto|].
    exists w'. split; [done|]. by apply reported_accepted in Hrep.
Qed.

Lemma delivery_completes_witness :
  ∃ w', process "k" "k" 30 demo_worker Delivered Delivered id demo_message (at_ created) =
    (Ok [Ran 15 "http"; Acked "1-0"], w').
Proof.
  destruct (attempts (db (at_ created)) !! 15%N) as [a|] eqn:Ha; [|vm_compute in Ha; discriminate Ha].
  destruct (runs (db (at_ created)) !! 5%N) as [run|] eqn:Hr; [|vm_compute in Hr; discriminate Hr].
  destruct (steps (db (at_ created)) !! 7%N) as [s|] eqn:Hs; [|vm_compute in Hs; discriminate Hs].
  assert (Es : Step.TaskType s = "http") by (vm_compute in Hs; injection Hs as <-; reflexivity).
  assert (Er : WorkflowRun.Status run ≠ RunCancelled) by (vm_compute in Hr; injection Hr as <-; discriminate).
  assert (Ea : TaskAttempt.Status a = AttemptQueued ∧ TaskAttempt.IdempotencyKey a = 16%N ∧
    TaskAttempt.WorkflowRunID a = 5%N ∧ TaskAttempt.StepID a = 7%N)
    by (vm_compute in Ha; injection Ha as <-; split_and!; reflexivity).
  destruct Ea as (Eq & Ek & E5 & E7).
  destruct (delivery_completes demo_unique "k" 30 demo_worker id demo_message demo_payload (at_ created)
    [] [] a run s (λ _ _, Ok None) created_reachable eq_refl Ha Eq Ek) as (w' & Hp & _).
  - rewrite E5. exact Hr.
  - exact Er.
  - rewrite E7. exact Hs.
  - rewrite Es. reflexivity.
  - discriminate.
  - discriminate.
  - intros i [->| ->]; vm_compute; reflexivity.
  - apply rtc_refl.
  - eexists. split; [vm_compute; reflexivity|reflexivity].
  - exists w'. rewrite Es in Hp. exact Hp.
Defined.
End WorkerSpec.
