(* ===== verification/Fleet.v ===== *)
(** Any number of workers over the whole life of a system: what the claims grant, and the
    processing loops of internal/worker as part of it. *)

From stdpp Require Import gmap strings list relations.
From S2P Require Import Prelude GoLib Json Types MemStore Dsl Engine Lifecycle.
From S2P Require Import LifecycleInv Worlds Contract MemSpec Reconcile EngineSpec EngineOps RunCreate.
From S2P Require Import System Liveness Demo Behaviour Scheduler Grpc Http ApiSpec Serving Worker WorkerSpec.
Open Scope Z_scope.

Module Fleet.
Import Lifecycle LifecycleInv Worlds Contract EngineOps System Demo ApiSpec Serving Worker WorkerSpec.

Section fleet.
Context {E : Env} {St : Store} {L : StoreLaws St}.

(** The states of the system with the attempts granted to workers so far, the latest first.
    A claim is granted when the worker receives the answer CLAIMED. *)
Inductive fleet : sys → list uuid → Prop :=
| fleet_init : fleet init []
| fleet_system s s' l : fleet s l → sys_step s s' → fleet s' l
| fleet_claim sk ck ld wk f p w fl resp w' l :
    fleet (w, fl) l → claim sk ck ld wk f p w = (Ok (Some resp), w') →
    Grpc.ClaimTaskResponse.Status resp = Grpc.CLAIMED →
    fleet (w', fl) (TaskPayload.TaskAttemptID p :: l).

Context (Hu : uuid_unique).

Lemma fleet_reachable s l : fleet s l → reachable s.
Proof.
  induction 1 as [|s s' l _ IH Hs|sk ck ld wk f p w fl resp w' l _ IH Hc _].
  - apply rtc_refl.
  - by eapply rtc_r.
  - by eapply reachable_sim; [apply sim_claim| |].
Qed.

Lemma fleet_systems s s' l : fleet s l → rtc sys_step s s' → fleet s' l.
Proof. intros Hf Hs. revert Hf. induction Hs as [|? ? ? Hs _ IH]; [done|]. intros Hf. by eapply IH, fleet_system. Qed.

(** The attempt with this identifier in messages is not QUEUED any more. *)
Definition spent (w : World) (pid : uuid) : Prop := ∃ id a,
  uuid_Parse (uuid_String pid) = Some id ∧ attempts (db w) !! id = Some a ∧
  TaskAttempt.Status a ≠ AttemptQueued.

Lemma spent_later s s' pid : reachable s → rtc sys_step s s' → spent s.1 pid → spent s'.1 pid.
Proof.
  intros Hr Hs (id & a & Hp & Ha & Hst).
  destruct (ev_attempts _ _ (steps_evolve Hu _ _ Hr Hs) id a Ha) as (a' & Ha' & Hev).
  exists id, a'. split_and!; [done..|]. by apply (ae_claimed _ _ Hev).
Qed.

Lemma fleet_spent s l : fleet s l → Forall (spent s.1) l ∧ NoDup l.
Proof.
  induction 1 as [|s s' l Hf [IH Hnd] Hs|sk ck ld wk f p w fl resp w' l Hf [IH Hnd] Hc Hst].
  - by split; constructor.
  - split; [|done]. eapply Forall_impl; [exact IH|]. intros pid.
    apply spent_later; [by eapply fleet_reachable|by apply rtc_once].
  - pose proof (fleet_reachable _ _ Hf) as Hr. pose proof (sim_claim sk ck ld wk f p w fl) as Hsim.
    rewrite Hc in Hsim. simpl in Hsim.
    destruct (claim_granted Hu _ _ _ _ _ _ _ _ _ _ Hr Hc Hst) as (id & a & Hp & Ha & Hq & a1 & Ha1 & Hl1).
    split; constructor.
    + exists id, a1. split_and!; [done..|]. simpl. by rewrite (leased_by_status _ _ Hl1).
    + eapply Forall_impl; [exact IH|]. intros pid. by apply (spent_later (w, fl) (w', fl)).
    + intros Hin. rewrite Forall_forall in IH. destruct (IH _ Hin) as (id' & a' & Hp' & Ha' & Hst').
      rewrite Hp in Hp'. injection Hp' as <-. simpl in Ha'. congruence.
    + done.
Qed.

(** ** The processing loops *)

(** The attempts whose handler ran. *)
Definition ran (effs : list effect) : list uuid :=
  omap (λ e, match e with Ran id _ => Some id | Acked _ => None end) effs.

(** What the rest of the system, other workers included, may do in between. *)
Definition others (g : World → World) : Prop := ∀ w fl l, fleet (w, fl) l →
  ∃ fl' l', fleet (g w, fl') (l' ++ l).

Definition others_act (r : receipt) : Prop :=
  match r with
  | Received before _ _ meanwhile _ => others before ∧ others meanwhile
  | Closed | Done => True
  end.

Lemma sim_report sk ck wk f p success out err : simulated (report sk ck wk f p success out err).
Proof.
  unfold report, rpc_call. cbv zeta. apply sim_bind; [|intros ?; apply sim_ret].
  apply sim_call, sim_Auth, sim_ReportResult.
Qed.

Lemma fleet_sim {A} (m : GoM World A) w fl l : simulated m → fleet (w, fl) l → fleet ((m w).2, fl) l.
Proof. intros Hm Hf. by eapply fleet_systems. Qed.

(** Processing a message is a claim, and the handler runs only if the claim was granted. *)
Lemma fleet_process sk ck ld wk fc fr meanwhile msg w fl l effs w' :
  others meanwhile → fleet (w, fl) l → process sk ck ld wk fc fr meanwhile msg w = (Ok effs, w') →
  ∃ fl' l', fleet (w', fl') (l' ++ ran effs ++ l).
Proof.
  intros Hm Hf. unfold process. destruct (Message.Payload msg) as [p|].
  2: { intros [= <- <-]. by exists fl, []. }
  unfold mbind at 1, GoM_bind at 1. destruct (claim sk ck ld wk fc p w) as [[c|e] w1] eqn:Hc; [|done].
  pose proof (fleet_sim _ _ _ _ (sim_claim sk ck ld wk fc p) Hf) as Hf1. rewrite Hc in Hf1. simpl in Hf1.
  destruct c as [resp|]; [|intros [= <- <-]; by exists fl, []].
  destruct (Grpc.ClaimTaskResponse.Status resp) eqn:Est; try (intros [= <- <-]; by exists fl, []).
  pose proof (fleet_claim _ _ _ _ _ _ _ _ _ _ _ Hf Hc Est) as Hgr.
  unfold execute. destruct (handlerFor _ wk) as [h|].
  - unfold mbind, GoM_bind. simpl. destruct (Hm _ _ _ Hgr) as (fl2 & l2 & Hf2).
    assert (∀ success out err, fleet ((report sk ck wk fr p success out err (meanwhile w1)).2, fl2)
      (l2 ++ TaskPayload.TaskAttemptID p :: l)) as Hrep by (intros; by apply fleet_sim; [apply sim_report|]).
    destruct (h _ _) as [out|e]; [specialize (Hrep true out "")|specialize (Hrep false None (error_String e))];
      destruct (report _ _ _ _ _ _ _ _ _) as [[?|?] w2]; try done; intros [= <- <-]; by exists fl2, l2.
  - unfold mbind, GoM_bind.
    match goal with |- context [report ?a ?b ?c ?d ?e ?f ?g ?h w1] =>
      pose proof (fleet_sim _ _ _ _ (sim_report a b c d e f g h) Hf1) as Hf2;
      destruct (report a b c d e f g h w1) as [[?|?] w2] end; [|done].
    intros [= <- <-]. by exists fl, [].
Qed.

(** C4.  Over the whole life of the system no task attempt is granted twice, to whatever
    workers; and a processing loop, whatever it receives (messages repeated, out of order,
    for attempts of other workers) and whatever the other workers and the server do in
    between, runs the handler for attempts that were never granted before and are distinct
    from each other. *)
Theorem fleet_runs_once sk ck ld wk inbox w fl l effs w' :
  fleet (w, fl) l → Forall others_act inbox →
  processLoop sk ck ld wk inbox w = (Ok effs, w') →
  NoDup (ran effs ++ l) ∧ ∃ fl' l', fleet (w', fl') l' ∧ ran effs ++ l ⊆+ l'.
Proof.
  intros Hf Hin Hrun. cut (∃ fl' l', fleet (w', fl') l' ∧ ran effs ++ l ⊆+ l').
  { intros (fl' & l' & Hf' & Hsub). split; [|by exists fl', l'].
    apply submseteq_Permutation in Hsub as [k Hk]. destruct (fleet_spent _ _ Hf') as [_ Hnd].
    rewrite Hk in Hnd. by apply NoDup_app in Hnd as [? _]. }
  revert w fl l effs Hf Hrun. induction Hin as [|r rest Hr _ IH]; intros w fl l effs Hf; simpl.
  { intros [= <- <-]. by exists fl, l. }
  destruct r as [before fc fr meanwhile msg| |]; [|intros [= <- <-]; by exists fl, l..].
  destruct Hr as [Hb Hm]. unfold mbind, GoM_bind. simpl. destruct (Hb _ _ _ Hf) as (fl1 & l1 & Hf1).
  destruct (process sk ck ld wk fc fr meanwhile msg (before w)) as [[effs1|e] w2] eqn:Hp; [|done].
  destruct (fleet_process _ _ _ _ _ _ _ _ _ _ _ _ _ Hm Hf1 Hp) as (fl2 & l2 & Hf2).
  destruct (processLoop sk ck ld wk rest w2) as [[more|e] w3] eqn:Hloop; [|done]. intros [= <- <-].
  destruct (IH _ _ _ _ Hf2 Hloop) as (fl3 & l3 & Hf3 & Hsub). exists fl3, l3. split; [done|].
  etrans; [|exact Hsub]. unfold ran. rewrite omap_app.
  rewrite (Permutation_app_comm (omap _ effs1)), <-app_assoc.
  apply submseteq_skips_l, submseteq_inserts_l, submseteq_skips_l, submseteq_inserts_l. done.
Qed.
End fleet.

Section demo_fleet.
#[local] Existing Instances Memory.memory_store MemSpec.memory_laws.

Definition twice : list receipt :=
  [Received (λ w, w) Delivered Delivered (λ w, w) demo_message;
   Received (λ w, w) Delivered Delivered (λ w, w) demo_message; Closed].

(** The same message twice: the handler runs once. *)
Lemma fleet_runs_once_witness :
  ∃ effs w', processLoop "k" "k" 30 demo_worker twice (at_ created) = (Ok effs, w') ∧
    ran effs = [15%N] ∧ NoDup (ran effs ++ []).
Proof.
  destruct (processLoop "k" "k" 30 demo_worker twice (at_ created)) as [r w'] eqn:Hp.
  assert (r = (processLoop "k" "k" 30 demo_worker twice (at_ created)).1) as Er by (rewrite Hp; reflexivity).
  vm_compute in Er. subst r. eexists _, w'. split; [reflexivity|]. split; [reflexivity|].
  refine (proj1 (fleet_runs_once demo_unique "k" "k" 30 demo_worker twice (at_ created) [] [] _ w' _ _ Hp)).
  - exact (fleet_systems _ _ _ fleet_init created_reachable).
  - repeat constructor; intros w fl l Hf; exists fl, []; exact Hf.
Defined.
End demo_fleet.

(** * Subscriptions *)

(** When no subscription fails, [Run] starts [Concurrency] loops on the stream of every task
    type with a handler, and no others. *)
Lemma subscribe_ok {Ch} (Consume : string → outcome Ch) w types :
  Forall (λ ty, ∃ ch, Consume ("wf:tasks:" +:+ ty) = Ok ch) types →
  (subscribe Consume w types).2 = None ∧
  ∀ stream ch, (stream, ch) ∈ (subscribe Consume w types).1 ↔
    0 < Concurrency w ∧ stream ∈ streamNames types ∧ Consume stream = Ok ch.
Proof.
  induction 1 as [|ty types [ch0 Hch] _ [IHe IH]]; simpl.
  { split; [done|]. intros stream ch. rewrite !elem_of_nil. naive_solver. }
  rewrite Hch. destruct (subscribe Consume w types) as [loops e]. simpl in *. split; [done|].
  intros stream ch. rewrite elem_of_app, elem_of_replicate, IH, elem_of_cons. split.
  - intros [[[= -> ->] Hn]|(? & ? & ?)]; [|by auto]. split_and!; [lia|by left|done].
  - intros (Hc & [->|Hin] & Hok); [left|right; by auto]. rewrite Hch in Hok. injection Hok as <-. split; [done|lia].
Qed.

(** A worker listens where the engine publishes: if no subscription fails, [Run] ends up
    with processing loops for exactly the streams "wf:tasks:<type>" of the task types it has
    handlers for, on the channel that [Consume] gave for the stream (none at all if its
    concurrency is not positive). *)
Theorem run_subscribes {E : Env} {St : Store} {Ch} sk ck w f pipeline (Consume : string → outcome Ch) wd :
  (∀ ty, is_Some (handlers w !! ty) → ∃ ch, Consume ("wf:tasks:" +:+ ty) = Ok ch) →
  ∃ loops wd', Run sk ck w f pipeline Consume wd = (Ok (loops, None), wd') ∧
    ∀ stream ch, (stream, ch) ∈ loops ↔
      0 < Concurrency w ∧ Consume stream = Ok ch ∧
      ∃ ty, is_Some (handlers w !! ty) ∧ stream = "wf:tasks:" +:+ ty.
Proof.
  intros Hall. unfold Run, mbind, GoM_bind, range_map, tick_of. simpl.
  set (types := range_order _ _).
  assert (∀ ty, ty ∈ types ↔ is_Some (handlers w !! ty)) as Htypes.
  { intros ty. unfold types. rewrite range_order_perm, list_elem_of_fmap. split.
    - intros ([k h] & -> & Hk%elem_of_map_to_list). by eexists.
    - intros [h Hh]. exists (ty, h). split; [done|by apply elem_of_map_to_list]. }
  clearbody types. destruct (subscribe_ok Consume w types) as [He Hin].
  { apply Forall_forall. intros ty Hty. by apply Hall, Htypes. }
  match goal with |- context [rpc_call ?a ?b ?c ?h ?x] =>
    assert (∃ o x', rpc_call a b c h x = (Ok o, x')) as (o & x' & ->) end.
  { unfold rpc_call, Grpc.AuthUnaryInterceptor, Grpc.RegisterWorker. destruct f; simpl; [|by eauto|];
      repeat case_match; simplify_eq/=; eauto. }
  destruct (subscribe Consume w types) as [loops e]. simpl in *. subst e. exists loops, x'. split; [done|].
  intros stream ch. rewrite Hin. unfold streamNames. rewrite list_elem_of_fmap. setoid_rewrite Htypes. naive_solver.
Qed.

Lemma run_subscribes_witness :
  ∃ loops wd', Run "k" "k" demo_worker Delivered None (λ s, Ok s) (at_ created) = (Ok (loops, None), wd') ∧
    ∀ stream ch, (stream, ch) ∈ loops ↔
      0 < Concurrency demo_worker ∧ Ok stream = Ok ch ∧
      ∃ ty, is_Some (handlers demo_worker !! ty) ∧ stream = "wf:tasks:" +:+ ty.
Proof.
  apply (run_subscribes (St := Memory.memory_store) "k" "k" demo_worker Delivered None (λ s, Ok s) (at_ created)).
  intros ty _. exists ("wf:tasks:" +:+ ty). reflexivity.
Defined.
End Fleet.
