(* ===== verification/MemQueue.v ===== *)
(** internal/queue/memory: the queue of the unit tests.  Every message goes to all consumers
    of its stream, by one goroutine each, which gives up after five seconds.

    The operations under the mutex are functions; the goroutines (a send, the end of a
    consumer's context) and the consumers act in any order. *)

From stdpp Require Import gmap strings list relations pretty.
From S2P Require Import Prelude GoLib Types Worker.
Open Scope Z_scope.

Module MemQueue.
Import Strings.

Record Queue := mkQueue { streams : gmap string (list nat); nextID : Z; closed : bool }.

(** A channel: the stream it was made for, its buffer, whether it was closed, and what was
    received from it so far. *)
Record chan := mkChan {
  c_stream : string; buffer : list Message.t; is_closed : bool; got : list Message.t
}.

(** The queue, its channels (named by their position) and the sends under way. *)
Record state := mkState { queue : Queue; chans : list chan; sends : list (nat * Message.t) }.

Definition New : state := mkState (mkQueue ∅ 0 false) [] [].

Definition EnsureGroup (stream group : string) : option error := None.
Definition Ack (stream group id : string) : option error := None.

Definition Publish (stream : string) (payload : option TaskPayload.t) (s : state) : string * state :=
  let q := queue s in
  let n := wrap64 (nextID q + 1) in
  let id := Itoa n in
  let subs := default [] (streams q !! stream) in
  let msg := Message.mk id stream payload 1 in
  (id, mkState (mkQueue (streams q) n (closed q)) (chans s) (sends s ++ ((λ ch, (ch, msg)) <$> subs))).

Definition capacity : nat := 64.

Definition Consume (stream : string) (s : state) : nat * state :=
  let q := queue s in
  let ch := length (chans s) in
  (ch, mkState (mkQueue (<[stream := default [] (streams q !! stream) ++ [ch]]> (streams q)) (nextID q) (closed q))
         (chans s ++ [mkChan stream [] false []]) (sends s)).

(** The loop of the goroutine started by [Consume]. *)
Fixpoint remove_first (ch : nat) (subs : list nat) : list nat :=
  match subs with
  | [] => []
  | c :: subs' => if decide (c = ch) then subs' else c :: remove_first ch subs'
  end.

(** The context of the consumer of [ch] on [stream] ends. *)
Definition unsubscribe (stream : string) (ch : nat) (s : state) : state :=
  let q := queue s in
  mkState (mkQueue (<[stream := remove_first ch (default [] (streams q !! stream))]> (streams q)) (nextID q) (closed q))
    (alter (λ c, mkChan (c_stream c) (buffer c) true (got c)) ch (chans s)) (sends s).

Definition Close (s : state) : state :=
  mkState (mkQueue (streams (queue s)) (nextID (queue s)) true) (chans s) (sends s).

(** One step; [None] is a panic: a select may choose to send on a closed channel. *)
Inductive step : state → option state → Prop :=
| S_publish stream payload s : nextID (queue s) < max_int64 → step s (Some (Publish stream payload s).2)
| S_consume stream s : step s (Some (Consume stream s).2)
| S_cancel ch c s : chans s !! ch = Some c → is_closed c = false →
    step s (Some (unsubscribe (c_stream c) ch s))
| S_close s : step s (Some (Close s))
| S_send q cs l1 ch m l2 c :
    cs !! ch = Some c → is_closed c = false → (length (buffer c) < capacity)%nat →
    step (mkState q cs (l1 ++ (ch, m) :: l2))
      (Some (mkState q (<[ch := mkChan (c_stream c) (buffer c ++ [m]) (is_closed c) (got c)]> cs) (l1 ++ l2)))
| S_timeout q cs l1 x l2 : step (mkState q cs (l1 ++ x :: l2)) (Some (mkState q cs (l1 ++ l2)))
| S_receive q cs l ch m st b x g :
    cs !! ch = Some (mkChan st (m :: b) x g) →
    step (mkState q cs l) (Some (mkState q (<[ch := mkChan st b x (g ++ [m])]> cs) l))
| S_panic q cs l1 ch m l2 c : cs !! ch = Some c → is_closed c = true →
    step (mkState q cs (l1 ++ (ch, m) :: l2)) None.

Definition runs_to (s : state) : Prop := rtc (λ s s', step s (Some s')) New s.

(** * At most once *)

(** Everything that was ever sent to a channel and not given up. *)
Definition pending (s : state) (ch : nat) : list Message.t :=
  omap (λ x : nat * Message.t, if decide (x.1 = ch) then Some x.2 else None) (sends s).
Definition bag (s : state) (ch : nat) (c : chan) : list Message.t := got c ++ buffer c ++ pending s ch.

Definition issued (s : state) (m : Message.t) : Prop :=
  ∃ n, 1 ≤ n ≤ nextID (queue s) ∧ Message.ID m = Itoa n.

Record inv (s : state) : Prop := {
  i_next : 0 ≤ nextID (queue s) ≤ max_int64;
  i_subs : ∀ stream subs, streams (queue s) !! stream = Some subs →
             NoDup subs ∧ Forall (λ ch, ch < length (chans s))%nat subs;
  i_sends : Forall (λ x, x.1 < length (chans s) ∧ issued s x.2)%nat (sends s);
  i_bags : ∀ ch c, chans s !! ch = Some c →
             NoDup (Message.ID <$> bag s ch c) ∧ Forall (issued s) (bag s ch c)
}.

Lemma remove_first_sub ch subs c : c ∈ remove_first ch subs → c ∈ subs.
Proof.
  induction subs as [|x subs IH]; simpl; [done|]. case_decide; [by constructor|].
  rewrite !elem_of_cons. naive_solver.
Qed.
Lemma remove_first_NoDup ch subs : NoDup subs → NoDup (remove_first ch subs).
Proof.
  induction 1 as [|x subs Hx Hnd IH]; simpl; [constructor|]. case_decide; [done|].
  constructor; [|done]. intros Hin. by apply Hx, (remove_first_sub ch).
Qed.

Lemma wrap64_small z : 0 ≤ z ≤ max_int64 → wrap64 z = z.
Proof. unfold wrap64, max_int64. intros Hz. rewrite Z.mod_small by lia. lia. Qed.

Lemma inv_New : inv New.
Proof. split; simpl; [split; by vm_compute|done|constructor|done]. Qed.

(** The messages on the way to [ch], after sends were added and removed. *)
Lemma pending_app q cs l1 l2 ch :
  pending (mkState q cs (l1 ++ l2)) ch = pending (mkState q cs l1) ch ++ pending (mkState q cs l2) ch.
Proof. unfold pending. simpl. apply omap_app. Qed.

Lemma pending_send_cons q cs ch m l k :
  pending (mkState q cs ((ch, m) :: l)) k = (if decide (ch = k) then [m] else []) ++ pending (mkState q cs l) k.
Proof. unfold pending. simpl. by case_decide. Qed.

Lemma pending_subs q cs msg subs ch : NoDup subs →
  pending (mkState q cs ((λ c, (c, msg)) <$> subs)) ch = if decide (ch ∈ subs) then [msg] else [].
Proof.
  induction 1 as [|c subs Hc Hnd IH].
  { destruct (decide (ch ∈ [])) as [?%elem_of_nil|]; done. }
  rewrite fmap_cons, pending_send_cons, IH. destruct (decide (c = ch)) as [->|Hne].
  - rewrite (decide_False (P := ch ∈ subs)), decide_True by (done || constructor). done.
  - destruct (decide (ch ∈ subs)) as [Hin|Hin], (decide (ch ∈ c :: subs)) as [Hin'|Hin']; try done;
      rewrite elem_of_cons in Hin'; naive_solver.
Qed.

Lemma issued_mono s s' m : nextID (queue s) ≤ nextID (queue s') → issued s m → issued s' m.
Proof. intros Hle (n & Hn & Hid). exists n. split; [lia|done]. Qed.

Lemma inv_publish stream payload s : inv s → nextID (queue s) < max_int64 → inv (Publish stream payload s).2.
Proof.
  intros [Hn Hsub Hsend Hbag] Hlt. unfold Publish.
  assert (wrap64 (nextID (queue s) + 1) = nextID (queue s) + 1) as -> by (apply wrap64_small; lia).
  set (msg := Message.mk _ _ _ _). set (s' := mkState _ _ _).
  assert (∀ m, issued s m → issued s' m) as Hmono by (intros m; apply issued_mono; simpl; lia).
  assert (issued s' msg) as Hmsg by (eexists; split; [|done]; simpl; lia).
  split; simpl; [lia|done| |].
  - apply Forall_app. split; [eapply Forall_impl; [exact Hsend|]; naive_solver|].
    apply Forall_fmap. destruct (streams (queue s) !! stream) as [subs|] eqn:Es; [|constructor].
    destruct (Hsub _ _ Es) as [_ Hlen]. eapply Forall_impl; [exact Hlen|]. done.
  - intros ch c Hc. destruct (Hbag ch c Hc) as [Hnd Hall].
    assert (NoDup (default [] (streams (queue s) !! stream))) as Hsubs.
    { destruct (streams (queue s) !! stream) as [subs|] eqn:Es; [by apply (Hsub _ _ Es)|constructor]. }
    unfold bag. unfold s'. rewrite pending_app, pending_subs by done.
    change (pending (mkState _ (chans s) (sends s)) ch) with (pending s ch).
    rewrite !app_assoc, <-(app_assoc (got c)). change (got c ++ buffer c ++ pending s ch) with (bag s ch c).
    case_decide; [|rewrite app_nil_r; split; [done|eapply Forall_impl; [exact Hall|done]]].
    rewrite fmap_app, Forall_app. split; [|split; [eapply Forall_impl; [exact Hall|done]|by constructor]].
    apply NoDup_app. split_and!; [done| |apply NoDup_singleton].
    intros x (m & -> & Hm)%list_elem_of_fmap Hx. apply list_elem_of_singleton in Hx.
    rewrite Forall_forall in Hall. destruct (Hall m Hm) as (n & Hn' & Hid). rewrite Hid in Hx. simpl in Hx.
    apply (inj pretty) in Hx. lia.
Qed.

Lemma inv_consume stream s : inv s → inv (Consume stream s).2.
Proof.
  intros [Hn Hsub Hsend Hbag]. split; simpl; [done| | |].
  - intros st subs. rewrite length_app. simpl.
    assert (∀ st subs, streams (queue s) !! st = Some subs →
      NoDup subs ∧ Forall (λ ch, ch < length (chans s))%nat subs) as Hold by done.
    rewrite lookup_insert_Some. intros [[<- <-]|[_ Hs]].
    + destruct (streams (queue s) !! stream) as [subs|] eqn:Es; simpl.
      * destruct (Hsub _ _ Es) as [Hnd Hlen]. split.
        -- apply NoDup_app. split_and!; [done| |apply NoDup_singleton].
           intros x Hx ->%list_elem_of_singleton. rewrite Forall_forall in Hlen. specialize (Hlen _ Hx). lia.
        -- apply Forall_app. split; [eapply Forall_impl; [exact Hlen|]; simpl; lia|constructor; [lia|constructor]].
      * split; [apply NoDup_singleton|constructor; [lia|constructor]].
    + destruct (Hsub _ _ Hs) as [Hnd Hlen]. split; [done|]. eapply Forall_impl; [exact Hlen|]. simpl. lia.
  - eapply Forall_impl; [exact Hsend|]. intros x [Hx Hi]. rewrite length_app. simpl. split; [lia|done].
  - intros ch c. rewrite lookup_snoc_Some. intros [[_ Hc]|[-> <-]]; [by apply Hbag|].
    unfold bag, pending. simpl.
    assert (omap (λ x : nat * Message.t, if decide (x.1 = length (chans s)) then Some x.2 else None) (sends s) = []) as ->.
    { clear -Hsend. induction Hsend as [|x l [Hx _] _ IH]; simpl; [done|]. rewrite decide_False by lia. done. }
    split; constructor.
Qed.

Lemma inv_unsubscribe stream ch s : inv s → inv (unsubscribe stream ch s).
Proof.
  intros [Hn Hsub Hsend Hbag]. split; simpl; [done| | |].
  - intros st subs. rewrite length_alter, lookup_insert_Some. intros [[<- <-]|[_ Hs]]; [|by apply (Hsub st)].
    destruct (streams (queue s) !! stream) as [subs|] eqn:Es; simpl; [|by split; constructor].
    destruct (Hsub _ _ Es) as [Hnd Hlen]. split; [by apply remove_first_NoDup|].
    rewrite Forall_forall in Hlen |- *. intros c Hc. by apply Hlen, (remove_first_sub ch).
  - by rewrite length_alter.
  - intros k c Hc. destruct (decide (ch = k)) as [<-|Hne].
    + rewrite list_lookup_alter_eq in Hc. destruct (chans s !! ch) as [c0|] eqn:Hc0; [|done].
      injection Hc as <-. apply (Hbag _ _ Hc0).
    + rewrite list_lookup_alter_ne in Hc by done. by apply Hbag.
Qed.

(** Moving a message along, or dropping it, keeps the invariant. *)
Lemma inv_move s q cs l : inv s → q = queue s → length cs = length (chans s) →
  (∀ x, x ∈ l → x ∈ sends s) →
  (∀ ch c, cs !! ch = Some c → ∃ c0, chans s !! ch = Some c0 ∧
     bag (mkState q cs l) ch c ⊆+ bag s ch c0) →
  inv (mkState q cs l).
Proof.
  intros [Hn Hsub Hsend Hbag] -> Hlen Hl Hb. split; simpl; [done| | |].
  - intros st subs Hs. rewrite Hlen. by apply (Hsub st).
  - rewrite Hlen. apply Forall_forall. intros x Hx. rewrite Forall_forall in Hsend. by apply Hsend, Hl.
  - intros ch c Hc. destruct (Hb ch c Hc) as (c0 & Hc0 & Hsubm). destruct (Hbag ch c0 Hc0) as [Hnd Hall].
    split.
    + apply submseteq_Permutation in Hsubm as [k Hk]. rewrite Hk, fmap_app in Hnd.
      by apply NoDup_app in Hnd as [? _].
    + apply Forall_forall. intros m Hm. rewrite Forall_forall in Hall. apply Hall.
      by eapply elem_of_submseteq.
Qed.

Lemma step_inv s s' : step s (Some s') → inv s → inv s'.
Proof.
  intros Hs Hi. inversion Hs as [st pl ? Hlt|st|ch c ? Hc Hcl| |q cs l1 ch m l2 c Hc Hcl Hcap|q cs l1 x l2|q cs l ch m st b x g Hc|]; subst.
  - by apply inv_publish.
  - by apply inv_consume.
  - by apply inv_unsubscribe.
  - destruct Hi as [Hn Hsub Hsend Hbag]. by split.
  - eapply inv_move; [exact Hi|done|by rewrite length_insert|simpl; intros x; rewrite !elem_of_app, elem_of_cons; naive_solver|].
    simpl. intros k c' Hk. destruct (decide (ch = k)) as [<-|Hne].
    + rewrite list_lookup_insert_eq in Hk by (by eapply lookup_lt_Some). injection Hk as <-.
      exists c. split; [done|]. unfold bag. simpl. rewrite !pending_app, pending_send_cons, decide_True by done. simpl.
      rewrite <-!app_assoc. apply submseteq_skips_l, submseteq_skips_l.
      rewrite (Permutation_app_comm [m]), <-app_assoc. apply submseteq_skips_l.
      by rewrite Permutation_app_comm.
    + rewrite list_lookup_insert_ne in Hk by done. exists c'. split; [done|]. unfold bag.
      by rewrite !pending_app, pending_send_cons, decide_False by done.
  - eapply inv_move; [exact Hi|done|done|simpl; intros y; rewrite !elem_of_app, elem_of_cons; naive_solver|].
    simpl. intros k c Hk. exists c. split; [done|]. unfold bag. destruct x as [ch m].
    rewrite !pending_app, pending_send_cons. apply submseteq_skips_l, submseteq_skips_l, submseteq_skips_l, submseteq_inserts_l. done.
  - eapply inv_move; [exact Hi|done|by rewrite length_insert|done|].
    simpl. intros k c' Hk. destruct (decide (ch = k)) as [<-|Hne].
    + rewrite list_lookup_insert_eq in Hk by (by eapply lookup_lt_Some). injection Hk as <-.
      eexists. split; [done|]. unfold bag. simpl. by rewrite <-app_assoc.
    + rewrite list_lookup_insert_ne in Hk by done. by exists c'.
Qed.

Lemma runs_inv s : runs_to s → inv s.
Proof. intros Hr. unfold runs_to in Hr. pose proof inv_New as Hi. induction Hr; [done|]. by apply IHHr, (step_inv x). Qed.

(** The in-memory queue: a consumer receives no message twice, every consumer subscribed when
    a message is published is sent it under an identifier not used before, and the end of a consumer's context can
    make a send panic. *)
Theorem memory_queue :
  (∀ s ch c, runs_to s → chans s !! ch = Some c → NoDup (Message.ID <$> got c)) ∧
  (∀ s stream payload ch subs, runs_to s → nextID (queue s) < max_int64 →
     streams (queue s) !! stream = Some subs → ch ∈ subs →
     let '(id, s') := Publish stream payload s in
     (ch, Message.mk id stream payload 1) ∈ sends s' ∧
     ∀ k c, chans s !! k = Some c → id ∉ Message.ID <$> got c) ∧
  (∃ s, runs_to s ∧ step s None).
Proof.
  split_and!.
  - intros s ch c Hr Hc. destruct (i_bags _ (runs_inv s Hr) ch c Hc) as [Hnd _]. unfold bag in Hnd.
    rewrite fmap_app in Hnd. by apply NoDup_app in Hnd as [? _].
  - intros s stream payload ch subs Hr Hlt Hs Hin. simpl. rewrite Hs. split.
    + apply elem_of_app. right. by apply (list_elem_of_fmap_2 (λ ch, (ch, _))).
    + intros k c Hc (m & Hid & Hm)%list_elem_of_fmap. pose proof (runs_inv s Hr) as [Hn _ _ Hbag].
      destruct (Hbag k c Hc) as [_ Hall]. rewrite Forall_forall in Hall.
      destruct (Hall m) as (n & Hn' & Hn2); [unfold bag; apply elem_of_app; by left|].
      rewrite Hn2, wrap64_small in Hid by lia. apply (inj pretty) in Hid. lia.
  - eexists. split.
    + eapply rtc_l; [apply (S_consume "s")|]. eapply rtc_l; [by apply (S_publish "s" None)|].
      eapply rtc_l; [by apply (S_cancel 0 (mkChan "s" [] false []))|]. apply rtc_refl.
    + by apply (S_panic _ _ [] 0 _ [] (mkChan "s" [] true [])).
Qed.
End MemQueue.
