(* ===== verification/Lock.v ===== *)
(** internal/lock and internal/lock/redislock: a named lock with a time to live, kept in
    Redis.

    Redis is not part of the source: [Redis] is what the lock uses of it, and the laws are
    the documented behaviour of SET NX PX, GET, PEXPIRE, DEL and key expiry; a Lua script
    runs atomically.  [gmap_redis] is an implementation of the laws.  As in Worker.v the
    network may lose a command, or its reply. *)

From stdpp Require Import gmap strings list relations.
From S2P Require Import Prelude GoLib Types Worker Scheduler.
Open Scope Z_scope.

(** The view of a Redis server: its clock in milliseconds, and for each key that has not
    expired its value and the time at which it will. *)
Class Redis := {
  rstate : Type;
  clock : rstate → Z;
  live : rstate → string → option (string * Z);
  SetNX : string → string → Z → rstate → bool * rstate;
  GET : string → rstate → option string;
  PEXPIRE : string → Z → rstate → Z * rstate;
  DEL : string → rstate → Z * rstate;
  (** Time passes, and nothing else happens. *)
  elapses : rstate → rstate → Prop;

  live_future r k v exp : live r k = Some (v, exp) → clock r < exp;
  GET_spec r k : GET k r = fst <$> live r k;
  SetNX_spec r k v ttl : 0 < ttl →
    let '(ok, r') := SetNX k v ttl r in clock r' = clock r ∧
    (∀ k', k' ≠ k → live r' k' = live r k') ∧
    match live r k with
    | Some e => ok = false ∧ live r' k = Some e
    | None => ok = true ∧ live r' k = Some (v, clock r + ttl)
    end;
  PEXPIRE_spec r k ttl : 0 < ttl →
    let '(n, r') := PEXPIRE k ttl r in clock r' = clock r ∧
    (∀ k', k' ≠ k → live r' k' = live r k') ∧
    match live r k with
    | Some (v, _) => n = 1 ∧ live r' k = Some (v, clock r + ttl)
    | None => n = 0 ∧ live r' k = None
    end;
  DEL_spec r k :
    let '(_, r') := DEL k r in clock r' = clock r ∧ live r' k = None ∧
    (∀ k', k' ≠ k → live r' k' = live r k');
  elapses_spec r r' : elapses r r' → clock r ≤ clock r' ∧
    ∀ k, live r' k = match live r k with
                     | Some (v, exp) => if clock r' <? exp then Some (v, exp) else None
                     | None => None
                     end
}.

(** * An implementation of the laws: expired entries are ignored *)

Record gstate := mkG { g_clock : Z; g_map : gmap string (string * Z) }.

Definition g_live (r : gstate) (k : string) : option (string * Z) :=
  match g_map r !! k with
  | Some (v, exp) => if g_clock r <? exp then Some (v, exp) else None
  | None => None
  end.

Definition g_put (r : gstate) (k v : string) (ttl : Z) : gstate :=
  mkG (g_clock r) (<[k := (v, g_clock r + ttl)]> (g_map r)).

Lemma g_put_live r k v ttl : 0 < ttl → g_live (g_put r k v ttl) k = Some (v, g_clock r + ttl).
Proof.
  intros Ht. unfold g_live, g_put. simpl. rewrite lookup_insert_eq.
  by rewrite (proj2 (Z.ltb_lt _ _)) by lia.
Qed.

Lemma g_put_ne r k v ttl k' : k' ≠ k → g_live (g_put r k v ttl) k' = g_live r k'.
Proof. intros Hne. unfold g_live, g_put. simpl. by rewrite lookup_insert_ne. Qed.

#[refine] Definition gmap_redis : Redis := {|
  rstate := gstate;
  clock := g_clock;
  live := g_live;
  SetNX k v ttl r := match g_live r k with Some _ => (false, r) | None => (true, g_put r k v ttl) end;
  GET k r := fst <$> g_live r k;
  PEXPIRE k ttl r := match g_live r k with Some (v, _) => (1, g_put r k v ttl) | None => (0, r) end;
  DEL k r := (1, mkG (g_clock r) (delete k (g_map r)));
  elapses r r' := g_clock r ≤ g_clock r' ∧ g_map r' = g_map r
|}.
Proof.
  - intros r k v exp. unfold g_live. destruct (g_map r !! k) as [[v' e]|]; [|done].
    destruct (Z.ltb_spec (g_clock r) e); [|done]. intros [= -> ->]. done.
  - done.
  - intros r k v ttl Ht. destruct (g_live r k) eqn:El; [done|].
    split_and!; [done|by intros; apply g_put_ne|done|by apply g_put_live].
  - intros r k ttl Ht. destruct (g_live r k) as [[v e]|] eqn:El; [|done].
    split_and!; [done|by intros; apply g_put_ne|done|by apply g_put_live].
  - intros r k. unfold g_live. simpl. rewrite lookup_delete_eq. split_and!; [done..|].
    intros k' Hne. by rewrite lookup_delete_ne.
  - intros r r' [Hle Hm]. split; [done|]. intros k. unfold g_live. rewrite Hm.
    destruct (g_map r !! k) as [[v e]|]; [|done].
    destruct (Z.ltb_spec (g_clock r) e); [done|]. by rewrite (proj2 (Z.ltb_ge _ _)) by lia.
Defined.

Module Redislock.
Import Worker.

Record Lock := mkLock { key : string; holderID : string; ttl : Z }.

Definition New (key holderID : string) (ttl : Z) : Lock := mkLock key holderID ttl.
Definition HolderID (l : Lock) : string := holderID l.

Section lock.
Context `{Redis}.

(** The Lua scripts. *)
Definition renewScript (k arg1 : string) (arg2 : Z) (r : rstate) : Z * rstate :=
  if bool_decide (GET k r = Some arg1) then PEXPIRE k arg2 r else (0, r).
Definition releaseScript (k arg1 : string) (r : rstate) : Z * rstate :=
  if bool_decide (GET k r = Some arg1) then DEL k r else (0, r).

Definition Renew (l : Lock) (f : fate) : GoM rstate bool :=
  res ← send f (renewScript (key l) (holderID l) (ttl l)); mret (res =? 1).

(** Two commands; [mid] is what happens to Redis between them. *)
Definition TryAcquire (l : Lock) (f1 : fate) (mid : rstate → rstate) (f2 : fate) : GoM rstate bool :=
  ok ← send f1 (SetNX (key l) (holderID l) (ttl l));
  if ok : bool then mret true else (_ ← modify mid; Renew l f2).

Definition Release (l : Lock) (f : fate) : GoM rstate unit :=
  _ ← send f (releaseScript (key l) (holderID l)); mret tt.

(** * Any number of processes use the lock [k] *)

Context (k : string) (T : Z).

(** What they and time may do, command by command, as long as [owner] does not release the
    lock. *)
Inductive lock_step (owner : string) : rstate → rstate → Prop :=
| Step_time r r' : elapses r r' → lock_step owner r r'
| Step_setnx h f r : lock_step owner r (send f (SetNX k h T) r).2
| Step_renew h f r : lock_step owner r (Renew (New k h T) f r).2
| Step_release h f r : h ≠ owner → lock_step owner r (Release (New k h T) f r).2.

Hypothesis HT : 0 < T.

(** [h] holds the lock at least until time [t]. *)
Definition held (h : string) (t : Z) (r : rstate) : Prop :=
  ∃ exp, live r k = Some (h, exp) ∧ t ≤ exp.

Lemma SetNX_held h v r t : held h t r →
  (SetNX k v T r).1 = false ∧ held h t (SetNX k v T r).2 ∧ clock (SetNX k v T r).2 = clock r.
Proof.
  intros (exp & Hl & Ht). pose proof (SetNX_spec r k v T HT) as Hs.
  destruct (SetNX k v T r) as [ok r']. rewrite Hl in Hs. destruct Hs as (Hc & _ & -> & Hl').
  split_and!; [done|by exists exp|done].
Qed.

Lemma renew_held h v r t : held h t r → t ≤ clock r + T →
  (renewScript k v T r).1 = (if bool_decide (v = h) then 1 else 0) ∧
  held h t (renewScript k v T r).2 ∧ clock (renewScript k v T r).2 = clock r.
Proof.
  intros (exp & Hl & Ht) Hle. unfold renewScript. rewrite GET_spec, Hl. simpl.
  destruct (decide (v = h)) as [->|Hne].
  - rewrite !bool_decide_eq_true_2 by done. pose proof (PEXPIRE_spec r k T HT) as Hs.
    destruct (PEXPIRE k T r) as [n r']. rewrite Hl in Hs. destruct Hs as (Hc & _ & -> & Hl').
    split_and!; [done|by exists (clock r + T)|done].
  - rewrite !bool_decide_eq_false_2 by congruence. split_and!; [done|by exists exp|done].
Qed.

Lemma release_held h v r t : v ≠ h → held h t r → releaseScript k v r = (0, r).
Proof.
  intros Hne (exp & Hl & Ht). unfold releaseScript. rewrite GET_spec, Hl. simpl.
  by rewrite bool_decide_eq_false_2 by congruence.
Qed.

Lemma Renew_held h v f r t : held h t r → t ≤ clock r + T →
  let '(res, r') := Renew (New k v T) f r in
  held h t r' ∧ clock r' = clock r ∧ (res = Ok true → v = h).
Proof.
  intros Hh Hle. destruct (renew_held h v r t Hh Hle) as (H1 & H2 & H3).
  unfold Renew, mbind, GoM_bind, send. cbn [key holderID ttl New].
  destruct f; [|done|]; destruct (renewScript k v T r) as [n r']; simpl in *; [|done].
  subst n. split_and!; [done..|]. by case_bool_decide.
Qed.

(** Whoever was told by a command that it has the lock holds it for the full time to live. *)
Lemma SetNX_true h r : (SetNX k h T r).1 = true →
  held h (clock r + T) (SetNX k h T r).2.
Proof.
  pose proof (SetNX_spec r k h T HT) as Hs. destruct (SetNX k h T r) as [ok r'].
  destruct Hs as (_ & _ & Hl). simpl. intros ->.
  destruct (live r k); [by destruct Hl|]. destruct Hl as [_ Hl]. by exists (clock r + T).
Qed.

Lemma Renew_true h f r r' : Renew (New k h T) f r = (Ok true, r') → held h (clock r + T) r'.
Proof.
  unfold Renew, mbind, GoM_bind, send. cbn [key holderID ttl New]. unfold renewScript.
  destruct f; [|done|by repeat case_match]. case_bool_decide as Eg; [|done]. rewrite GET_spec in Eg.
  pose proof (PEXPIRE_spec r k T HT) as Hp. destruct (PEXPIRE k T r) as [n r2].
  destruct (live r k) as [[v exp]|]; [|done]. simplify_eq/=. destruct Hp as (_ & _ & -> & Hl).
  intros [= <-]. by exists (clock r + T).
Qed.

(** No command moves the clock. *)
Lemma send_clock {A} f (c : rstate → A * rstate) r :
  clock (c r).2 = clock r → clock (send f c r).2 = clock r.
Proof. intros Hc. by apply (send_state f c r (λ r', clock r' = clock r)). Qed.

Lemma renew_clock h r : clock (renewScript k h T r).2 = clock r.
Proof.
  unfold renewScript. case_bool_decide; [|done]. pose proof (PEXPIRE_spec r k T HT) as Hs.
  by destruct (PEXPIRE k T r), Hs.
Qed.

Lemma Renew_clock h f r : clock (Renew (New k h T) f r).2 = clock r.
Proof.
  pose proof (send_clock f (renewScript k h T) r (renew_clock h r)) as Hs.
  unfold Renew, mbind, GoM_bind. cbn [key holderID ttl New].
  by destruct (send f (renewScript k h T) r) as [[] ?].
Qed.

Lemma SetNX_clock h r : clock (SetNX k h T r).2 = clock r.
Proof. pose proof (SetNX_spec r k h T HT) as Hs. by destruct (SetNX k h T r), Hs. Qed.

Lemma Release_clock h f r : clock (Release (New k h T) f r).2 = clock r.
Proof.
  assert (clock (releaseScript k h r).2 = clock r) as Hn.
  { unfold releaseScript. case_bool_decide; [|done]. pose proof (DEL_spec r k) as Hs.
    by destruct (DEL k r), Hs. }
  pose proof (send_clock f (releaseScript k h) r Hn) as Hs.
  unfold Release, mbind, GoM_bind. cbn [key holderID ttl New].
  by destruct (send f (releaseScript k h) r) as [[] ?].
Qed.

Lemma lock_step_held owner t r r' :
  lock_step owner r r' → (clock r < t → held owner t r) → t ≤ clock r + T →
  clock r ≤ clock r' ∧ (clock r' < t → held owner t r').
Proof.
  intros Hstep Hh HleT. destruct Hstep as [r r' He|h f r|h f r|h f r Hne].
  - destruct (elapses_spec _ _ He) as [Hle Hl]. split; [done|]. intros Hlt.
    destruct Hh as (exp & Hk & Hexp); [lia|]. exists exp. rewrite Hl, Hk.
    by rewrite (proj2 (Z.ltb_lt _ _)) by lia.
  - pose proof (send_clock f _ r (SetNX_clock h r)) as Hc. split; [lia|]. intros Hlt.
    specialize (Hh ltac:(lia)). apply send_state; [done|]. by apply SetNX_held.
  - pose proof (Renew_clock h f r) as Hc. split; [lia|]. intros Hlt.
    pose proof (Renew_held owner h f r t) as Ht.
    destruct (Renew _ f r) as [res r']. apply Ht; [apply Hh; simpl in *; lia|done].
  - pose proof (Release_clock h f r) as Hc. split; [lia|]. intros Hlt. rewrite Hc in Hlt.
    specialize (Hh Hlt). unfold Release, mbind, GoM_bind, send. cbn [key holderID ttl New].
    rewrite (release_held owner h r t Hne Hh). by destruct f.
Qed.

Lemma lock_steps_held owner t r r' :
  rtc (lock_step owner) r r' → (clock r < t → held owner t r) → t ≤ clock r + T →
  clock r ≤ clock r' ∧ (clock r' < t → held owner t r').
Proof.
  induction 1 as [r|r r1 r2 Hs _ IH]; intros Hh Hle; [done|].
  destruct (lock_step_held _ _ _ _ Hs Hh Hle) as [H1 H2]. destruct IH as [H3 H4]; [done|lia|].
  split; [lia|done].
Qed.

(** ** An acquisition among the other steps *)

(** Between its two commands only such steps happen. *)
Definition among (owner : string) (mid : rstate → rstate) : Prop :=
  ∀ r, rtc (lock_step owner) r (mid r).

Lemma TryAcquire_steps owner h f1 mid f2 r :
  among owner mid → rtc (lock_step owner) r (TryAcquire (New k h T) f1 mid f2 r).2.
Proof.
  intros Hm. unfold TryAcquire, mbind, GoM_bind, modify. cbn [key holderID ttl New].
  pose proof (Step_setnx owner h f1 r) as H1.
  destruct (send f1 (SetNX k h T) r) as [[[]|e] r']; [by apply rtc_once| |by apply rtc_once].
  eapply rtc_l; [exact H1|]. eapply rtc_r; [apply Hm|]. apply Step_renew.
Qed.

(** Whoever was told it has the lock holds it for a time to live from the call on. *)
Lemma TryAcquire_true h f1 mid f2 r r1 : among h mid →
  TryAcquire (New k h T) f1 mid f2 r = (Ok true, r1) →
  clock r ≤ clock r1 ∧ (clock r1 < clock r + T → held h (clock r + T) r1).
Proof.
  intros Hm. unfold TryAcquire, mbind, GoM_bind, modify. cbn [key holderID ttl New].
  destruct f1; simpl; [|done|done].
  pose proof (SetNX_true h r) as Ht. pose proof (SetNX_clock h r) as Hc.
  destruct (SetNX k h T r) as [[] r2]; simpl in *.
  - intros [= <-]. split; [lia|by auto].
  - destruct (lock_steps_held h (clock r2) r2 (mid r2) (Hm r2)) as [Hle _]; [lia..|].
    intros Hr. pose proof (Renew_clock h f2 (mid r2)) as Hc2. rewrite Hr in Hc2. simpl in Hc2.
    destruct (Renew_true h f2 (mid r2) r1 Hr) as (exp & Hl & He).
    split; [lia|]. intros _. exists exp. split; [done|lia].
Qed.

(** While the lock is held nobody else is told it has it. *)
Lemma TryAcquire_other owner h f1 mid f2 r t : h ≠ owner → among owner mid →
  (clock r < t → held owner t r) → t ≤ clock r + T →
  let '(res, r') := TryAcquire (New k h T) f1 mid f2 r in clock r' < t → res ≠ Ok true.
Proof.
  intros Hne Hm Hh Hle. pose proof (lock_step_held owner t r _ (Step_setnx owner h f1 r) Hh Hle) as [Hc1 H1].
  unfold TryAcquire, mbind, GoM_bind, modify. cbn [key holderID ttl New].
  destruct f1; simpl in *; [|done|by destruct (SetNX k h T r)].
  pose proof (SetNX_held owner h r t) as Hs. pose proof (SetNX_clock h r) as Hc.
  destruct (SetNX k h T r) as [[] r2]; simpl in *.
  { intros Hlt. destruct Hs as [? _]; [apply Hh; lia|done]. }
  destruct (lock_steps_held owner t r2 (mid r2) (Hm r2) H1 ltac:(lia)) as [Hc2 H2].
  pose proof (Renew_clock h f2 (mid r2)) as Hc3. pose proof (Renew_held owner h f2 (mid r2) t) as Hr.
  destruct (Renew (New k h T) f2 (mid r2)) as [res r3]. simpl in Hc3. intros Hlt Hres.
  destruct Hr as (_ & _ & Hr); [apply H2; lia|lia|]. by apply Hne, Hr.
Qed.
End lock.

(** The lock of the scheduler, and the election at the beginning of a tick of its leader
    loop: the second component says whether the tick goes on to publish a shard map, which
    takes further commands (Loops.v). *)
Definition leaderKey : string := "orchestrator:leader".
Definition leaderTTL : Z := 15000.

Definition elect `{Redis} (f1 : fate) (mid : rstate → rstate) (f2 : fate) (s : Scheduler.Scheduler)
    (r : rstate) : Scheduler.Scheduler * bool * rstate :=
  let '(res, r') := TryAcquire (New leaderKey (Scheduler.nodeID s) leaderTTL) f1 mid f2 r in
  match res with
  | Ok ok => (Scheduler.swapLeader ok s, ok, r')
  | Err _ => (s, false, r')
  end.

(** C27.  The lock excludes: after a holder was told it acquired the lock, and as long as it
    does not release it, for a whole time to live from that call on the key is the holder's
    and no acquisition by another holder that ends in this time is told so, whatever sequence
    of commands of acquisitions, renewals and releases by any holders and of losses in
    the network happens in between, also between the two commands of one acquisition.
    For the scheduler: no election of another node that ends in this time succeeds, so that
    node does not become leader and this tick of it publishes nothing.  (Nothing is said of a
    publication that an earlier leader began and has not finished.) *)
Theorem lock_excludes `{Redis} k T owner f1 mid f2 r r1 r2 :
  0 < T → among k T owner mid → TryAcquire (New k owner T) f1 mid f2 r = (Ok true, r1) →
  rtc (lock_step k T owner) r1 r2 → clock r2 < clock r + T →
  GET k r2 = Some owner ∧
  (∀ h g1 mid' g2, h ≠ owner → among k T owner mid' →
   let '(res, r3) := TryAcquire (New k h T) g1 mid' g2 r2 in clock r3 < clock r + T → res ≠ Ok true) ∧
  (k = leaderKey → T = leaderTTL → ∀ g1 mid' g2 s, Scheduler.nodeID s ≠ owner → among k T owner mid' →
   let '(s', publishes, r3) := elect g1 mid' g2 s r2 in clock r3 < clock r + T →
   publishes = false ∧ (Scheduler.isLeader s' = true → Scheduler.isLeader s = true)).
Proof.
  intros HT Hm Hacq Hs Hlt. destruct (TryAcquire_true k T HT owner f1 mid f2 r r1 Hm Hacq) as [Hle1 Hh].
  destruct (lock_steps_held k T HT owner (clock r + T) r1 r2 Hs Hh) as [Hle Hh2]; [lia|].
  assert (∀ h g1 mid' g2, h ≠ owner → among k T owner mid' →
    let '(res, r3) := TryAcquire (New k h T) g1 mid' g2 r2 in clock r3 < clock r + T → res ≠ Ok true) as Hno.
  { intros h g1 mid' g2 Hne Hm'. apply (TryAcquire_other k T HT owner); [done..|lia]. }
  split_and!; [|done|].
  - destruct (Hh2 Hlt) as (exp & Hl & _). by rewrite GET_spec, Hl.
  - intros -> -> g1 mid' g2 s Hne Hm'. specialize (Hno _ g1 mid' g2 Hne Hm'). unfold elect.
    destruct (TryAcquire _ g1 mid' g2 r2) as [[[]|e] r3]; intros Hc; [by destruct (Hno Hc)|done..].
Qed.

Section demo.
#[local] Existing Instance gmap_redis.

Lemma lock_excludes_witness :
  (TryAcquire (New leaderKey "node-b" 15000) Delivered id Delivered
     (mkG 9000 {[leaderKey := ("node-a", 15000)]})).1 ≠ Ok true.
Proof.
  refine (proj1 (proj2 (@lock_excludes gmap_redis leaderKey 15000 "node-a" Delivered id Delivered (mkG 0 ∅)
    (mkG 0 {[leaderKey := ("node-a", 15000)]}) (mkG 9000 {[leaderKey := ("node-a", 15000)]}) _ _ _ _ _))
    "node-b" Delivered id Delivered _ _ _).
  - reflexivity.
  - intros r. apply rtc_refl.
  - vm_compute. reflexivity.
  - apply rtc_once, Step_time. split; [discriminate|reflexivity].
  - reflexivity.
  - discriminate.
  - intros r. apply rtc_refl.
  - vm_compute. reflexivity.
Defined.
End demo.
End Redislock.
