(* ===== verification/Processes.v ===== *)
(** cmd/server and cmd/worker: the main functions, as far as they decide what runs with which
    settings, the health check, and the demo handlers of the worker.

    What the operating system and the network answer are arguments: the environment, and
    for every connection the error it failed with, if any.  A process that is up is described
    by the values its main function passes to the components. *)

From stdpp Require Import gmap strings list relations.
From S2P Require Import Prelude GoLib Json Types MemStore Dsl Engine Lifecycle.
From S2P Require Import LifecycleInv Worlds Contract MemSpec Reconcile EngineSpec EngineOps RunCreate.
From S2P Require Import System Demo Scheduler Services Grpc Http ApiSpec Serving Worker WorkerSpec Config.
Open Scope Z_scope.

Module Processes.
Import Strings Demo.

(** * cmd/server *)

Module ServerProcess.
(** What [main] hands to the engine's services: whether relay, poller and sweep are limited
    to the shards of the scheduler, the key and the origins of the two APIs, and the lease
    duration of the worker API. *)
Record t := mk {
  NodeID : string; Sharded : bool; HTTPAddr : string; GRPCAddr : string;
  HTTPKey : string; GRPCKey : string; AllowedOrigins : list string; LeaseDuration : Z
}.
End ServerProcess.

Inductive started (A : Type) := Exit (code : Z) | Up (a : A).
Arguments Exit {A} code.
Arguments Up {A} a.

Section server.
Context (Getenv : string → string) (hostname : string) (pid : Z).

(** The address of the health check: a port alone means this host. *)
Definition healthcheck_url : string :=
  let addr := Config.ServerConfig.HTTPAddr (Config.LoadServerConfig Getenv hostname pid) in
  let addr := match bytes_of addr with 58 :: _ => "localhost" +:+ addr | _ => addr end in
  "http://" +:+ addr +:+ "/healthz".

(** [get] is [client.Get]: the status of the answer. *)
Definition runHealthcheck (get : string → outcome Z) : Z :=
  match get healthcheck_url with
  | Err _ => 1
  | Ok status => if status =? 200 then 0 else 1
  end.

(** [pg], [redis] and [listen]: the errors of connecting to PostgreSQL (migrations
    included), of the ping to Redis and of listening for gRPC. *)
Definition server_main (args : list string) (get : string → outcome Z)
    (pg redis listen : option error) : started ServerProcess.t :=
  let cfg := Config.LoadServerConfig Getenv hostname pid in
  if bool_decide (args !! 1%nat = Some "healthcheck") then Exit (runHealthcheck get)
  else match pg, redis, listen with
       | None, None, None =>
           Up (ServerProcess.mk (Config.ServerConfig.NodeID cfg) (Config.ServerConfig.EnableSharding cfg)
                 (Config.ServerConfig.HTTPAddr cfg) (Config.ServerConfig.GRPCAddr cfg)
                 (Config.ServerConfig.APIKey cfg) (Config.ServerConfig.APIKey cfg)
                 (Config.ServerConfig.AllowedOrigins cfg)
                 (Grpc.lease_duration (Config.ServerConfig.LeaseDuration cfg)))
       | _, _, _ => Exit 1
       end.
End server.

Section process.
Context `{Env} `{!Store} `{Http.Codec} (p : ServerProcess.t).

(** [shardIDsFunc] *)
Definition shardIDsFunc (sched : Scheduler.Scheduler) : option (option (list Z)) :=
  if ServerProcess.Sharded p then Some (Scheduler.OwnedShards sched) else None.

(** A request to the process, and the iterations of its loops (with the batch sizes of the
    constructors of the services). *)
Definition answer (workers : option (outcome (list Http.Info.t))) (sched : Scheduler.Scheduler)
    (req : Http.Request.t) : GoM World Http.Response.t :=
  Http.ServeHTTP workers (if ServerProcess.Sharded p then Some sched else None)
    (ServerProcess.HTTPKey p) (ServerProcess.AllowedOrigins p) req.

Definition rpc {A} (md : option (string → list string)) (handler : GoM World (Grpc.rpc A))
    : GoM World (Grpc.rpc A) := Grpc.AuthUnaryInterceptor (ServerProcess.GRPCKey p) md handler.

Definition recovery (sched : Scheduler.Scheduler) : GoM World unit := Services.sweep (shardIDsFunc sched).
End process.

(** * cmd/worker *)

Definition text (j : json) : RawMessage := Some (Text j).

Definition noop : Worker.Handler := λ _ _, Ok (text (JObj [("ok", JBool true)])).

(** [json.Unmarshal] of the input into the parameters, the error ignored. *)
Definition ms_field (key : string) (v : json) (cur : Z) : Z * bool :=
  if key_matches "ms" key then dec_int cur v else (cur, false).
Definition sleep_ms (input : json) : Z :=
  let ms := (dec_struct ms_field 0 input).1 in if ms <=? 0 then 50 else ms.

(** [interrupted] is the error of the context, if it ends before the wait does. *)
Definition sleep (interrupted : option error) : Worker.Handler := λ input _,
  match interrupted with
  | Some e => Err e
  | None => Ok (text (JObj [("slept_ms", JInt (sleep_ms input))]))
  end.

Definition transform : Worker.Handler := λ input idemKey,
  Ok (text (JObj [("idempotency_key", JStr idemKey); ("received", input)])).

Definition rate_field (key : string) (v : json) (cur : float64) : float64 * bool :=
  if key_matches "fail_rate" key then dec_float cur v else (cur, false).
Definition fail_rate (input : json) : float64 :=
  let r := (dec_struct rate_field F64.zero input).1 in if F64.leb r F64.zero then F64.c0_4 else r.

(** [roll] is [rand.Float64()]. *)
Definition flaky (roll : float64) : Worker.Handler := λ input _,
  if F64.ltb roll (fail_rate input) then Err (Errorf "simulated transient failure")
  else Ok (text (JObj [("ok", JBool true)])).

Definition http_fetch (interrupted : option error) : Worker.Handler := λ _ _,
  match interrupted with
  | Some e => Err e
  | None => Ok (text (JObj [("status", JInt 200); ("simulated", JBool true)]))
  end.

Definition registerDemoHandlers (interrupted : option error) (roll : float64) (w : Worker.t) : Worker.t :=
  Worker.Register "http_fetch" (http_fetch interrupted)
    (Worker.Register "flaky" (flaky roll)
      (Worker.Register "transform" transform
        (Worker.Register "sleep" (sleep interrupted)
          (Worker.Register "noop" noop w)))).

(** The client's key and the worker, once Redis answered the ping and the client was made. *)
Definition worker_main (Getenv : string → string) (hostname : string) (pid : Z)
    (redis dial interrupted : option error) (roll : float64) : started (string * Worker.t) :=
  let cfg := Config.LoadWorkerConfig Getenv hostname pid in
  match redis, dial with
  | None, None =>
      let w := Worker.New (Config.WorkerConfig.WorkerID cfg) in
      let w := Worker.mk (Worker.ID w) (Worker.handlers w) (Config.WorkerConfig.Concurrency cfg)
                 (Worker.IdleTimeout w) (Worker.HeartbeatFor w) in
      Up (Config.WorkerConfig.APIKey cfg, registerDemoHandlers interrupted roll w)
  | _, _ => Exit 1
  end.

(** * Properties *)

Lemma server_key_nonempty Getenv hostname pid args get pg redis listen p :
  server_main Getenv hostname pid args get pg redis listen = Up p →
  ServerProcess.HTTPKey p = Config.getEnv Getenv "WORKFLOW_API_KEY" Config.DefaultDevAPIKey ∧
  ServerProcess.GRPCKey p = ServerProcess.HTTPKey p ∧ ServerProcess.HTTPKey p ≠ "" ∧
  0 < ServerProcess.LeaseDuration p.
Proof.
  unfold server_main. case_bool_decide; [done|]. destruct pg, redis, listen; try done. intros [= <-]. simpl.
  split_and!; [done|done|by apply Config.getEnv_nonempty|].
  unfold Grpc.lease_duration. case_match; [done|lia].
Qed.

(** C30.  No deployment is open.  Whatever the environment, a server process that is up has no
    effect on its store in answering an HTTP request without the header "Bearer <key>": it
    answers OPTIONS with 204, GET /healthz with 200 and any other request to one of its routes with
    401.  An RPC without the key is answered with Unauthenticated, without any effect.  A worker
    process with the same WORKFLOW_API_KEY, set or not, passes the check. *)
Theorem deployment_closed {E : Env} {St : Store} {C : Http.Codec} Getenv hostname pid args get pg redis
    listen p workers sched req md {A} (handler : GoM World (Grpc.rpc A)) w :
  server_main Getenv hostname pid args get pg redis listen = Up p →
  let bearer := "Bearer " +:+ Config.getEnv Getenv "WORKFLOW_API_KEY" Config.DefaultDevAPIKey in
  (Http.Request.Authorization req ≠ bearer →
   ∃ resp, answer p workers sched req w = (Ok resp, w) ∧
     Http.Response.Code resp =
       if Http.Request.Options req then 204
       else match Http.Request.Route req with Http.Healthz => 200 | _ => 401 end) ∧
  ((∀ get, md = Some get → head (get "authorization") ≠ Some bearer) →
   ∃ msg, rpc p md handler w = (Ok (Grpc.Status Grpc.Unauthenticated msg), w)) ∧
  (∀ Getenv' hostname' pid' redis' dial' int roll ck wk,
     Getenv' "WORKFLOW_API_KEY" = Getenv "WORKFLOW_API_KEY" →
     worker_main Getenv' hostname' pid' redis' dial' int roll = Up (ck, wk) →
     rpc p (Some (Worker.apiKeyUnaryInterceptor ck)) handler w = handler w).
Proof.
  intros Hup bearer. destruct (server_key_nonempty _ _ _ _ _ _ _ _ _ Hup) as (Hk & Hg & Hne & _).
  assert (∀ h, Http.validAPIKey (ServerProcess.HTTPKey p) h = true ↔ h = bearer) as Hhttp.
  { intros h. unfold Http.validAPIKey. rewrite bool_decide_eq_false_2 by done.
    unfold bearer. rewrite <-Hk. apply ApiSpec.bearer_matches_iff. }
  split_and!.
  - intros Ha. unfold answer, Http.ServeHTTP. destruct (Http.Request.Options req); [by eexists|].
    cbv zeta. unfold Http.routes, Http.authMiddleware.
    assert (Http.validAPIKey (ServerProcess.HTTPKey p) (Http.Request.Authorization req) = false) as ->.
    { apply not_true_is_false. by rewrite Hhttp. }
    destruct (Http.Request.Route req); by eexists.
  - intros Hmd. unfold rpc, Grpc.AuthUnaryInterceptor.
    assert (Grpc.validAPIKey md (ServerProcess.GRPCKey p) = false) as ->; [|by eexists].
    apply not_true_is_false. rewrite ApiSpec.rpc_key_iff. intros (_ & get' & rest & -> & Hget).
    apply (Hmd get' eq_refl). rewrite Hget. simpl. by rewrite Hg, Hk.
  - intros Getenv' hostname' pid' redis' dial' int roll ck wk Henv Hw.
    unfold worker_main in Hw. destruct redis', dial'; try done. injection Hw as <- _.
    unfold rpc, Grpc.AuthUnaryInterceptor.
    rewrite (proj2 (ApiSpec.rpc_key_iff _ _)); [done|]. split; [by rewrite Hg|].
    eexists _, []. split; [done|]. unfold Worker.apiKeyUnaryInterceptor. rewrite decide_True by done.
    rewrite Hg, Hk. unfold Config.getEnv. simpl. by rewrite Henv.
Qed.

Section demo.
#[local] Existing Instances Memory.memory_store ApiSpec.demo_codec.

(** A server and a worker started without any variable set: the worker's heartbeat is
    served, a request without a key is not. *)
Lemma deployment_closed_witness :
  ∃ p ck wk, server_main (λ _, "") "host" 1 ["server"] (λ _, Ok 200) None None None = Up p ∧
    worker_main (λ _, "") "host" 2 None None None F64.zero = Up (ck, wk) ∧
    (∃ resp, answer p None (Scheduler.New "n") (Http.Request.mk false "" "" Http.GetDefinitions) (at_ created) =
       (Ok resp, at_ created) ∧ Http.Response.Code resp = 401) ∧
    rpc p (Some (Worker.apiKeyUnaryInterceptor ck)) (mret (Grpc.Reply tt)) (at_ created) =
      (Ok (Grpc.Reply tt), at_ created).
Proof.
  destruct (server_main (λ _, "") "host" 1 ["server"] (λ _, Ok 200) None None None) as [c|p] eqn:Hp; [discriminate|].
  destruct (worker_main (λ _, "") "host" 2 None None None F64.zero) as [c|[ck wk]] eqn:Hw; [discriminate|].
  exists p, ck, wk. split; [reflexivity|]. split; [reflexivity|].
  destruct (deployment_closed (λ _, "") "host" 1 ["server"] (λ _, Ok 200) None None None p None (Scheduler.New "n")
    (Http.Request.mk false "" "" Http.GetDefinitions) None (mret (Grpc.Reply tt)) (at_ created) Hp)
    as (H1 & _ & H3).
  split.
  - apply H1. discriminate.
  - exact (H3 (λ _, "") "host" 2 None None None F64.zero ck wk eq_refl Hw).
Defined.
End demo.

(** The health check succeeds exactly when the server answers it, in whatever state. *)
Lemma healthcheck_exact {E : Env} {St : Store} {C : Http.Codec} Getenv hostname pid p workers sched origin auth w
    (lost : option error) :
  runHealthcheck Getenv hostname pid (λ _,
    match lost with
    | Some e => Err e
    | None => match (answer p workers sched (Http.Request.mk false origin auth Http.Healthz) w).1 with
              | Ok resp => Ok (Http.Response.Code resp)
              | Err e => Err e
              end
    end) = match lost with Some _ => 1 | None => 0 end.
Proof. by destruct lost. Qed.

(** Every demo handler answers with a JSON document, which a JSONB column can hold, or fails;
    and the worker knows exactly the five task types. *)
Lemma demo_handlers_json int roll id ty h :
  Worker.handlerFor ty (registerDemoHandlers int roll (Worker.New id)) = Some h →
  ty ∈ ["noop"; "sleep"; "transform"; "flaky"; "http_fetch"] ∧
  ∀ input key, match h input key with Ok out => ∃ j, out = Some (Text j) | Err _ => True end.
Proof.
  unfold Worker.handlerFor, registerDemoHandlers, Worker.Register, Worker.New. simpl.
  rewrite !lookup_insert_Some, lookup_empty. intros Hh. split.
  { rewrite !elem_of_cons, elem_of_nil. naive_solver. }
  intros input key. destruct Hh as [[_ <-]|[_ [[_ <-]|[_ [[_ <-]|[_ [[_ <-]|[_ [[_ <-]|[_ ?]]]]]]]]]]; [..|done].
  - unfold http_fetch. destruct int; [done|by eexists].
  - unfold flaky. case_match; [|done]. case_match; [done|]. simplify_eq. by eexists.
  - by eexists.
  - unfold sleep. destruct int; [done|by eexists].
  - by eexists.
Qed.
End Processes.
