(* ===== verification/Postgres.v ===== *)
(** internal/store/postgres: the SQL implementation of [store.Store].

    A method is its statements, written with the combinators below over the tables of
    Types.v (migrations/0001_init.sql declares the same tables): a WHERE clause is a
    predicate on rows, a SET list a function on rows, RETURNING the updated rows.  Rows
    come in no particular order unless a statement sorts them.  The constraints of the
    schema are checked as PostgreSQL checks them: INT columns hold 32 bits, JSONB columns
    accept JSON documents only, PRIMARY KEY, UNIQUE, NOT NULL and REFERENCES.

    What PostgreSQL does with a value is library behaviour and a parameter, [Pg].  One
    application of a definition is one statement (or one transaction) that no other
    transaction interferes with: FOR UPDATE SKIP LOCKED skips nothing.  [now()] is the
    start of the transaction; [time_Now] is any function of the call, so the executions in
    which all readings of a transaction coincide are among those of the model. *)

From stdpp Require Import gmap strings list sorting.
From S2P Require Import Prelude GoLib Json Types MemStore.
Open Scope Z_scope.

Class Pg := {
  (** The stored form of a JSON document; [None] if PostgreSQL refuses it. *)
  jsonb : json → option json;
  (** Whether a string can be stored as TEXT, and the collation of ORDER BY. *)
  text_ok : string → bool;
  text_le : string → string → bool;
  (** The precision of TIMESTAMPTZ, and of [$n * interval '1 second']. *)
  timestamptz : time → time;
  interval_seconds : Z → Z;
  (** Values of the sequence behind workflow_run_history.id. *)
  history_serial : nat → Z
}.

Module Postgres.

(** * Errors *)

Definition ErrNoRows : error := Errorf "no rows in result set".
Definition UniqueViolation : error := Errorf "23505".
Definition ForeignKeyViolation : error := Errorf "23503".
Definition InvalidParameter : error := Errorf "invalid parameter".

Definition wrapErr (e : error) : error :=
  if errors_Is e ErrNoRows then ErrNotFound
  else if errors_Is e UniqueViolation then ErrConflict
  else e.

Definition wrapped {A} (m : GoM World A) : GoM World A :=
  λ w, match m w with
       | (Err e, w') => (Err (wrapErr e), w')
       | r => r
       end.

Section postgres.
Context `{Env} `{Pg}.
#[local] Existing Instance Memory.by_time_dec.

(** * Parameters and columns *)

Definition check {A} (o : option A) : GoM World A :=
  match o with Some a => mret a | None => fail InvalidParameter end.

Definition in_int32 (z : Z) : bool := (- 2 ^ 31 <=? z) && (z <=? 2 ^ 31 - 1).
Definition int4 (z : Z) : GoM World Z := check (if in_int32 z then Some z else None).
Definition text (s : string) : GoM World string := check (if text_ok s then Some s else None).
Definition nullable_text (s : option string) : GoM World (option string) :=
  match s with None => mret None | Some s => s' ← text s; mret (Some s') end.

Definition jsonb_bytes (b : bytes) : option bytes :=
  match b with Text j => Text <$> jsonb j | Malformed _ => None end.
(** A NULL is refused by a NOT NULL column. *)
Definition jsonb_notnull (b : RawMessage) : GoM World RawMessage :=
  check (b ← b; b' ← jsonb_bytes b; Some (Some b')).
Definition jsonb_null (b : RawMessage) : GoM World RawMessage :=
  match b with None => mret None | Some b => check (Some <$> jsonb_bytes b) end.

(** * Statements *)

Section statements.
Context {K V : Type} `{Countable K} (table : Tables → gmap K V)
  (set_table : (gmap K V → gmap K V) → Tables → Tables).

(** SELECT ... WHERE p *)
Definition select (p : V → bool) : GoM World (list V) :=
  l ← Memory.range_values table;
  mret (List.filter p l).

(** UPDATE ... SET f WHERE p RETURNING ... *)
Definition update (p : V → bool) (f : V → V) : GoM World (list V) :=
  old ← select p;
  _ ← set_db (set_table (fmap (λ v, if p v then f v else v)));
  mret (f <$> old).

(** INSERT ... RETURNING ...; [clash] is the UNIQUE constraint against an existing row. *)
Definition insert_row (k : K) (v : V) (clash : V → bool) : GoM World V :=
  d ← gets db;
  if bool_decide (is_Some (table d !! k)) || existsb clash (map_to_list (table d)).*2
  then fail UniqueViolation
  else _ ← set_db (set_table (insert k v)); mret v.

(** REFERENCES *)
Definition references (k : K) : GoM World unit :=
  d ← gets db;
  if bool_decide (is_Some (table d !! k)) then mret tt else fail ForeignKeyViolation.
End statements.

(** [QueryRow(...).Scan(...)] *)
Definition first_row {V} (l : list V) : GoM World V :=
  match l with [] => fail ErrNoRows | v :: _ => mret v end.

Definition limit_to {V} (limit : Z) (l : list V) : GoM World (list V) :=
  if limit <? 0 then fail InvalidParameter else mret (take (Z.to_nat limit) l).

(** [x = ANY($1)]; a nil slice arrives as an array without elements. *)
Definition any_of (l : option (list Z)) (x : Z) : bool := bool_decide (x ∈ default [] l).
(** [$1::int[] IS NULL OR x = ANY($1)], through [intSliceOrNil]. *)
Definition null_or_any (l : option (list Z)) (x : Z) : bool :=
  match l with None => true | Some l => bool_decide (x ∈ l) end.

Definition coalesce {A} (a b : option A) : option A := match a with Some _ => a | None => b end.

(** * Workflow definitions *)

Definition CreateWorkflowDefinition (name : string) (version : Z) (dag : RawMessage)
    : GoM World WorkflowDefinition.t := wrapped (
  name ← text name;
  version ← int4 version;
  dag ← jsonb_notnull dag;
  id ← new_uuid;
  t ← now;
  insert_row definitions set_definitions id (WorkflowDefinition.mk id name version dag t)
    (λ d, bool_decide (WorkflowDefinition.Name d = name) &&
          (WorkflowDefinition.Version d =? version))).

Definition GetWorkflowDefinition (name : string) (version : Z) : GoM World WorkflowDefinition.t :=
  wrapped (
    name ← text name;
    version ← int4 version;
    rows ← select definitions (λ d, bool_decide (WorkflowDefinition.Name d = name) &&
                                    (WorkflowDefinition.Version d =? version));
    first_row rows).

Definition version_desc (a b : WorkflowDefinition.t) : Prop :=
  WorkflowDefinition.Version b ≤ WorkflowDefinition.Version a.
#[export] Instance version_desc_dec a b : Decision (version_desc a b).
Proof. unfold version_desc. apply _. Defined.

Definition GetLatestWorkflowDefinition (name : string) : GoM World WorkflowDefinition.t :=
  wrapped (
    name ← text name;
    rows ← select definitions (λ d, bool_decide (WorkflowDefinition.Name d = name));
    rows ← limit_to 1 (merge_sort version_desc rows);
    first_row rows).

(** ORDER BY name, version DESC *)
Definition name_version (a b : WorkflowDefinition.t) : Prop :=
  text_le (WorkflowDefinition.Name a) (WorkflowDefinition.Name b) = true ∧
  (text_le (WorkflowDefinition.Name b) (WorkflowDefinition.Name a) = true → version_desc a b).
#[export] Instance name_version_dec a b : Decision (name_version a b).
Proof. unfold name_version. apply _. Defined.

Definition ListWorkflowDefinitions : GoM World (list WorkflowDefinition.t) :=
  rows ← select definitions (λ _, true);
  mret (merge_sort name_version rows).

(** * Workflow runs *)

Definition CreateWorkflowRun (id definitionID : uuid) (name : string) (version shardID : Z)
    (input : RawMessage) : GoM World WorkflowRun.t :=
  name ← text name;
  version ← int4 version;
  shardID ← int4 shardID;
  input ← jsonb_notnull input;
  t ← now;
  _ ← references definitions definitionID;
  insert_row runs set_runs id
    (WorkflowRun.mk id definitionID name version RunPending shardID input None empty_object None 0
       t None None) (λ _, false).

Definition GetWorkflowRun (id : uuid) : GoM World WorkflowRun.t := wrapped (
  rows ← select runs (λ r, WorkflowRun.ID r =? id)%N;
  first_row rows).

Definition ListWorkflowRuns (f : RunFilter.t) : GoM World (list WorkflowRun.t) :=
  let limit := if RunFilter.Limit f <=? 0 then 50 else RunFilter.Limit f in
  name ← nullable_text (RunFilter.Name f);
  rows ← select runs (λ r,
    match RunFilter.Status f with None => true | Some s => bool_decide (WorkflowRun.Status r = s) end &&
    match name with None => true | Some n => bool_decide (WorkflowRun.Name r = n) end);
  if RunFilter.Offset f <? 0 then fail InvalidParameter
  else limit_to limit (drop (Z.to_nat (RunFilter.Offset f))
         (merge_sort (Memory.by_time (λ r, - WorkflowRun.CreatedAt r)) rows)).

Definition ListRunningRunsForShards (shardIDs : option (list Z)) : GoM World (list WorkflowRun.t) :=
  select runs (λ r,
    (bool_decide (WorkflowRun.Status r = RunPending) ||
     bool_decide (WorkflowRun.Status r = RunRunning)) && any_of shardIDs (WorkflowRun.ShardID r)).

(** The SET list of [UpdateWorkflowRunStatus] at time [n]. *)
Definition set_run (next : RunStatus) (output : RawMessage) (errMsg : option string) (n : time)
    (r : WorkflowRun.t) : WorkflowRun.t :=
  WorkflowRun.mk (WorkflowRun.ID r) (WorkflowRun.DefinitionID r) (WorkflowRun.Name r)
    (WorkflowRun.Version r) next (WorkflowRun.ShardID r) (WorkflowRun.Input r)
    (coalesce output (WorkflowRun.Output r)) (WorkflowRun.Context r)
    (coalesce errMsg (WorkflowRun.Error r)) (WorkflowRun.HistorySeq r) (WorkflowRun.CreatedAt r)
    (if bool_decide (next = RunRunning) && bool_decide (WorkflowRun.StartedAt r = None)
     then Some n else WorkflowRun.StartedAt r)
    (if bool_decide (next ∈ [RunCompleted; RunFailed; RunCancelled])
     then Some n else WorkflowRun.CompletedAt r).

Definition UpdateWorkflowRunStatus (id : uuid) (expected : list RunStatus) (next : RunStatus)
    (output : RawMessage) (errMsg : option string) : GoM World bool :=
  output ← jsonb_null output;
  errMsg ← nullable_text errMsg;
  n ← now;
  rows ← update runs set_runs
    (λ r, (WorkflowRun.ID r =? id)%N && bool_decide (WorkflowRun.Status r ∈ expected))
    (set_run next output errMsg n);
  mret (0 <? Z.of_nat (length rows)).

(** * Steps *)

(** [json.Unmarshal(dependsOn, &s.DependsOn)] of the stored column. *)
Definition scan_depends_on (b : RawMessage) : GoM World (list string) :=
  match b with
  | Some (Text j) => match dec_slice "" dec_string None j with
                     | (l, false) => mret (default [] l)
                     | (_, true) => fail (Errorf "decode depends_on")
                     end
  | _ => mret []
  end.

Definition CreateStep (runID : uuid) (out : list Step.t) (ns : NewStep.t) : GoM World (list Step.t) :=
  let input := match NewStep.Input ns with None => empty_object | i => i end in
  stepName ← text (NewStep.StepName ns);
  taskType ← text (NewStep.TaskType ns);
  dependsOn ← jsonb_notnull (Some (Text (JArr (JStr <$> NewStep.DependsOn ns))));
  maxAttempts ← int4 (NewStep.MaxAttempts ns);
  input ← jsonb_notnull input;
  initial ← int4 (NewStep.InitialBackoffMS ns);
  maxBackoff ← int4 (NewStep.MaxBackoffMS ns);
  timeout ← int4 (NewStep.TimeoutSeconds ns);
  id ← new_uuid;
  t ← now;
  _ ← references runs runID;
  deps ← scan_depends_on dependsOn;
  s ← insert_row steps set_steps id
    (Step.mk id runID stepName taskType deps StepPending 0 maxAttempts input None None initial
       (NewStep.BackoffMultiplier ns) maxBackoff timeout t None None)
    (λ s, (Step.WorkflowRunID s =? runID)%N && bool_decide (Step.StepName s = stepName));
  mret (out ++ [s]).

Definition CreateSteps (runID : uuid) (nss : list NewStep.t) : GoM World (list Step.t) :=
  foldM (CreateStep runID) [] nss.

Definition GetSteps (runID : uuid) : GoM World (list Step.t) :=
  rows ← select steps (λ s, Step.WorkflowRunID s =? runID)%N;
  mret (merge_sort (Memory.by_time Step.CreatedAt) rows).

Definition GetStep (id : uuid) : GoM World Step.t := wrapped (
  rows ← select steps (λ s, Step.ID s =? id)%N;
  first_row rows).

Definition set_step (next : StepStatus) (output : RawMessage) (errMsg : option string)
    (bumpAttempt : bool) (n : time) (s : Step.t) : Step.t :=
  Step.mk (Step.ID s) (Step.WorkflowRunID s) (Step.StepName s) (Step.TaskType s) (Step.DependsOn s)
    next (Step.AttemptCount s + (if bumpAttempt then 1 else 0)) (Step.MaxAttempts s) (Step.Input s)
    (coalesce output (Step.Output s)) (coalesce errMsg (Step.Error s)) (Step.InitialBackoffMS s)
    (Step.BackoffMultiplier s) (Step.MaxBackoffMS s) (Step.TimeoutSeconds s) (Step.CreatedAt s)
    (if bool_decide (next ∈ [StepQueued; StepRunning]) && bool_decide (Step.StartedAt s = None)
     then Some n else Step.StartedAt s)
    (if bool_decide (next ∈ [StepCompleted; StepFailed; StepSkipped; StepCancelled])
     then Some n else Step.CompletedAt s).

(** [attempt_count + 1] is computed in 32 bits and fails on overflow. *)
Definition UpdateStepStatus (id : uuid) (expected : list StepStatus) (next : StepStatus)
    (output : RawMessage) (errMsg : option string) (bumpAttempt : bool) : GoM World bool :=
  output ← jsonb_null output;
  errMsg ← nullable_text errMsg;
  n ← now;
  let p s := (Step.ID s =? id)%N && bool_decide (Step.Status s ∈ expected) in
  old ← select steps p;
  if bumpAttempt && existsb (λ s, negb (in_int32 (Step.AttemptCount s + 1))) old
  then fail (Errorf "22003")
  else
    rows ← update steps set_steps p (set_step next output errMsg bumpAttempt n);
    mret (0 <? Z.of_nat (length rows)).

(** * Task attempts *)

Definition CreateTaskAttempt (stepID runID : uuid) (attemptNumber : Z) (queueName : string)
    : GoM World TaskAttempt.t :=
  attemptNumber ← int4 attemptNumber;
  queueName ← text queueName;
  id ← new_uuid;
  key ← new_uuid;
  t ← now;
  _ ← references steps stepID;
  _ ← references runs runID;
  insert_row attempts set_attempts id
    (TaskAttempt.mk id stepID runID attemptNumber key AttemptQueued queueName None None None None
       t None None)
    (λ a, (TaskAttempt.StepID a =? stepID)%N && (TaskAttempt.AttemptNumber a =? attemptNumber)).

Definition GetTaskAttempt (id : uuid) : GoM World TaskAttempt.t := wrapped (
  rows ← select attempts (λ a, TaskAttempt.ID a =? id)%N;
  first_row rows).

Definition set_leased (workerID : string) (expires n : time) (a : TaskAttempt.t) : TaskAttempt.t :=
  TaskAttempt.mk (TaskAttempt.ID a) (TaskAttempt.StepID a) (TaskAttempt.WorkflowRunID a)
    (TaskAttempt.AttemptNumber a) (TaskAttempt.IdempotencyKey a) AttemptLeased
    (TaskAttempt.QueueName a) (Some workerID) (Some expires) (TaskAttempt.Result a)
    (TaskAttempt.Error a) (TaskAttempt.QueuedAt a) (Some n) (TaskAttempt.CompletedAt a).

Definition ClaimTaskAttempt (attemptID idempotencyKey : uuid) (workerID : string) (leaseFor : Z)
    : GoM World (option TaskAttempt.t * ClaimResult) :=
  workerID ← text workerID;
  n ← now;
  rows ← update attempts set_attempts
    (λ a, (TaskAttempt.ID a =? attemptID)%N && (TaskAttempt.IdempotencyKey a =? idempotencyKey)%N &&
          bool_decide (TaskAttempt.Status a = AttemptQueued))
    (set_leased workerID (n + interval_seconds leaseFor) n);
  match rows with
  | att :: _ => mret (Some att, ClaimOK)
  | [] =>
      existing ← catch (GetTaskAttempt attemptID);
      match existing with
      | Ok a => mret (Some a, ClaimAlreadyClaimed)
      | Err e => if errors_Is e ErrNotFound then mret (None, ClaimNotFound) else fail e
      end
  end.

Definition owned_by (attemptID : uuid) (workerID : string) (a : TaskAttempt.t) : bool :=
  (TaskAttempt.ID a =? attemptID)%N && bool_decide (TaskAttempt.LeaseOwner a = Some workerID) &&
  bool_decide (TaskAttempt.Status a = AttemptLeased).

Definition HeartbeatTaskAttempt (attemptID : uuid) (workerID : string) (leaseFor : Z)
    : GoM World (option time * bool) :=
  workerID ← text workerID;
  n ← now;
  let exp := n + interval_seconds leaseFor in
  rows ← update attempts set_attempts (owned_by attemptID workerID)
    (λ a, Memory.attempt_extended a exp);
  mret (match rows with [] => (None, false) | _ => (Some exp, true) end).

Definition set_completed (status : AttemptStatus) (result : RawMessage) (errMsg : option string)
    (n : time) (a : TaskAttempt.t) : TaskAttempt.t :=
  TaskAttempt.mk (TaskAttempt.ID a) (TaskAttempt.StepID a) (TaskAttempt.WorkflowRunID a)
    (TaskAttempt.AttemptNumber a) (TaskAttempt.IdempotencyKey a) status
    (TaskAttempt.QueueName a) (TaskAttempt.LeaseOwner a) (TaskAttempt.LeaseExpiresAt a)
    result errMsg (TaskAttempt.QueuedAt a) (TaskAttempt.StartedAt a) (Some n).

Definition CompleteTaskAttempt (attemptID : uuid) (workerID : string) (success : bool)
    (result : RawMessage) (errMsg : option string) : GoM World (option TaskAttempt.t * bool) :=
  workerID ← text workerID;
  result ← jsonb_null result;
  errMsg ← nullable_text errMsg;
  n ← now;
  rows ← update attempts set_attempts (owned_by attemptID workerID)
    (set_completed (if success then AttemptSucceeded else AttemptFailed) result errMsg n);
  match rows with
  | att :: _ => mret (Some att, true)
  | [] => existing ← GetTaskAttempt attemptID; mret (Some existing, false)
  end.

Definition expires_first (a b : TaskAttempt.t) : Prop :=
  default 0 (TaskAttempt.LeaseExpiresAt a) ≤ default 0 (TaskAttempt.LeaseExpiresAt b).
#[local] Instance expires_first_dec a b : Decision (expires_first a b).
Proof. unfold expires_first. apply _. Defined.

Definition ReapExpiredAttempts (limit : Z) : GoM World (list TaskAttempt.t) :=
  n ← now;
  due ← select attempts (λ a, Memory.lease_expired a n);
  picked ← limit_to limit (merge_sort expires_first due);
  update attempts set_attempts (λ a, bool_decide (TaskAttempt.ID a ∈ TaskAttempt.ID <$> picked))
    (λ a, set_completed AttemptExpired (TaskAttempt.Result a) (Some "lease expired") n a).

Definition ListTaskAttemptsForStep (stepID : uuid) : GoM World (list TaskAttempt.t) :=
  rows ← select attempts (λ a, TaskAttempt.StepID a =? stepID)%N;
  mret (merge_sort (Memory.by_time TaskAttempt.AttemptNumber) rows).

(** * Outbox *)

Definition marshal_payload (p : TaskPayload.t) : json :=
  JObj [("task_attempt_id", JStr (uuid_String (TaskPayload.TaskAttemptID p)));
        ("step_id", JStr (uuid_String (TaskPayload.StepID p)));
        ("workflow_run_id", JStr (uuid_String (TaskPayload.WorkflowRunID p)));
        ("step_name", JStr (TaskPayload.StepName p));
        ("task_type", JStr (TaskPayload.TaskType p));
        ("input", TaskPayload.Input p);
        ("attempt_number", JInt (TaskPayload.AttemptNumber p));
        ("idempotency_key", JStr (uuid_String (TaskPayload.IdempotencyKey p)));
        ("timeout_seconds", JInt (TaskPayload.TimeoutSeconds p))].

(** The payload column: the document is stored as JSONB, which may change the form of the
    embedded input. *)
Definition payload_column (p : TaskPayload.t) : GoM World TaskPayload.t :=
  check (j ← jsonb (marshal_payload p);
         match j with
         | JObj kvs =>
             kv ← find (λ kv : string * json, bool_decide (kv.1 = "input")) kvs;
             Some (TaskPayload.mk (TaskPayload.TaskAttemptID p) (TaskPayload.StepID p)
               (TaskPayload.WorkflowRunID p) (TaskPayload.StepName p) (TaskPayload.TaskType p) kv.2
               (TaskPayload.AttemptNumber p) (TaskPayload.IdempotencyKey p)
               (TaskPayload.TimeoutSeconds p))
         | _ => None
         end).

Definition set_outbox_rows (f : gmap Z OutboxMessage.t → gmap Z OutboxMessage.t) (d : Tables) : Tables :=
  set_outbox f (nextOutboxID d) d.

Definition InsertOutboxMessage (msg : NewOutboxMessage.t) : GoM World Z :=
  aggregateType ← text (NewOutboxMessage.AggregateType msg);
  shardID ← int4 (NewOutboxMessage.ShardID msg);
  stream ← text (NewOutboxMessage.StreamName msg);
  payload ← payload_column (NewOutboxMessage.Payload msg);
  d ← gets db;
  let id := nextOutboxID d + 1 in
  _ ← set_db (λ d, set_outbox (λ m, m) id d);
  t ← now;
  _ ← insert_row outbox set_outbox_rows id
    (OutboxMessage.mk id aggregateType (NewOutboxMessage.AggregateID msg) shardID stream payload
       OutboxPending 0 t None) (λ _, false);
  mret id.

Definition by_id (a b : OutboxMessage.t) : Prop := OutboxMessage.ID a ≤ OutboxMessage.ID b.
#[local] Instance by_id_dec a b : Decision (by_id a b).
Proof. unfold by_id. apply _. Defined.

Definition FetchAndLockPendingOutbox (shardIDs : option (list Z)) (limit : Z)
    : GoM World (list OutboxMessage.t) :=
  rows ← select outbox (λ m, bool_decide (OutboxMessage.Status m = OutboxPending) &&
                             null_or_any shardIDs (OutboxMessage.ShardID m));
  limit_to limit (merge_sort by_id rows).

Definition MarkOutboxPublished (id : Z) : GoM World unit :=
  n ← now;
  _ ← update outbox set_outbox_rows (λ m, OutboxMessage.ID m =? id)
        (λ m, Memory.outbox_published m n);
  mret tt.

(** * Timers *)

Definition InsertTimer (nt : NewTimer.t) : GoM World Timer.t :=
  let payload := match NewTimer.Payload nt with None => empty_object | p => p end in
  shardID ← int4 (NewTimer.ShardID nt);
  payload ← jsonb_notnull payload;
  id ← new_uuid;
  t ← now;
  _ ← references runs (NewTimer.WorkflowRunID nt);
  _ ← match NewTimer.StepID nt with None => mret tt | Some s => references steps s end;
  insert_row timers set_timers id
    (Timer.mk id (NewTimer.WorkflowRunID nt) (NewTimer.StepID nt) shardID (NewTimer.Kind nt)
       TimerPending payload (timestamptz (NewTimer.FireAt nt)) t None) (λ _, false).

Definition ListDueTimers (shardIDs : option (list Z)) (limit : Z) : GoM World (list Timer.t) :=
  n ← now;
  rows ← select timers (λ t, bool_decide (Timer.Status t = TimerPending) && (Timer.FireAt t <=? n) &&
                             null_or_any shardIDs (Timer.ShardID t));
  limit_to limit (merge_sort (Memory.by_time Timer.FireAt) rows).

Definition FireTimerCAS (timerID : uuid) : GoM World (option Timer.t * bool) :=
  n ← now;
  rows ← update timers set_timers
    (λ t, (Timer.ID t =? timerID)%N && bool_decide (Timer.Status t = TimerPending))
    (λ t, Memory.timer_with t TimerFired (Some n));
  mret (match rows with [] => (None, false) | t :: _ => (Some t, true) end).

Definition CancelTimersForRun (runID : uuid) : GoM World unit :=
  _ ← update timers set_timers
    (λ t, (Timer.WorkflowRunID t =? runID)%N && bool_decide (Timer.Status t = TimerPending))
    (λ t, Memory.timer_with t TimerCancelled (Timer.FiredAt t));
  mret tt.

(** * Signals *)

Definition InsertSignal (runID : uuid) (name : string) (payload : RawMessage) : GoM World Signal.t :=
  let payload := match payload with None => empty_object | p => p end in
  name ← text name;
  payload ← jsonb_notnull payload;
  id ← new_uuid;
  t ← now;
  _ ← references runs runID;
  insert_row signals set_signals id (Signal.mk id runID name payload false t) (λ _, false).

Definition ListUnprocessedSignals (runID : uuid) : GoM World (list Signal.t) :=
  rows ← select signals (λ s, (Signal.WorkflowRunID s =? runID)%N && negb (Signal.Processed s));
  mret (merge_sort (Memory.by_time Signal.ReceivedAt) rows).

Definition MarkSignalProcessed (id : uuid) : GoM World bool :=
  rows ← update signals set_signals (λ s, (Signal.ID s =? id)%N && negb (Signal.Processed s))
    Memory.signal_processed;
  mret (0 <? Z.of_nat (length rows)).

(** * History *)

(** The CTE updates the run and inserts one row for each run updated; the error of a
    missing run is not translated. *)
Definition AppendHistory (runID : uuid) (eventType : string) (payload : RawMessage)
    : GoM World HistoryEvent.t :=
  let payload := match payload with None => empty_object | p => p end in
  eventType ← text eventType;
  payload ← jsonb_notnull payload;
  next_seq ← update runs set_runs (λ r, WorkflowRun.ID r =? runID)%N Memory.run_bump_seq;
  r ← first_row next_seq;
  id ← tick_of history_serial;
  t ← now;
  let h := HistoryEvent.mk id runID (WorkflowRun.HistorySeq r) eventType payload t in
  _ ← set_db (set_history (λ m, <[runID := default [] (m !! runID) ++ [h]]> m));
  mret h.

Definition by_seq (a b : HistoryEvent.t) : Prop := HistoryEvent.Seq a ≤ HistoryEvent.Seq b.
#[local] Instance by_seq_dec a b : Decision (by_seq a b).
Proof. unfold by_seq. apply _. Defined.

Definition ListHistory (runID : uuid) : GoM World (list HistoryEvent.t) :=
  d ← gets db;
  l ← range_map (default [] (history d !! runID));
  mret (merge_sort by_seq l).

(** * Transactions (postgres.go) *)

(** ROLLBACK restores the rows; sequences are not transactional. *)
Definition rolled_back (d d' : Tables) : Tables :=
  set_outbox (λ m, m) (nextOutboxID d') d.

Definition WithTx {A} (fn : GoM World A) : GoM World A :=
  λ w, match fn w with
       | (Ok a, w') => (Ok a, w')
       | (Err e, w') => (Err e, mkWorld (rolled_back (db w) (db w')) (tick w'))
       end.

Definition postgres_queries : Queries := {|
  Types.CreateWorkflowDefinition := CreateWorkflowDefinition;
  Types.GetWorkflowDefinition := GetWorkflowDefinition;
  Types.GetLatestWorkflowDefinition := GetLatestWorkflowDefinition;
  Types.ListWorkflowDefinitions := ListWorkflowDefinitions;
  Types.CreateWorkflowRun := CreateWorkflowRun;
  Types.GetWorkflowRun := GetWorkflowRun;
  Types.ListWorkflowRuns := ListWorkflowRuns;
  Types.ListRunningRunsForShards := ListRunningRunsForShards;
  Types.UpdateWorkflowRunStatus := UpdateWorkflowRunStatus;
  Types.CreateSteps := CreateSteps;
  Types.GetSteps := GetSteps;
  Types.GetStep := GetStep;
  Types.UpdateStepStatus := UpdateStepStatus;
  Types.CreateTaskAttempt := CreateTaskAttempt;
  Types.ClaimTaskAttempt := ClaimTaskAttempt;
  Types.HeartbeatTaskAttempt := HeartbeatTaskAttempt;
  Types.CompleteTaskAttempt := CompleteTaskAttempt;
  Types.ReapExpiredAttempts := ReapExpiredAttempts;
  Types.GetTaskAttempt := GetTaskAttempt;
  Types.ListTaskAttemptsForStep := ListTaskAttemptsForStep;
  Types.InsertOutboxMessage := InsertOutboxMessage;
  Types.FetchAndLockPendingOutbox := FetchAndLockPendingOutbox;
  Types.MarkOutboxPublished := MarkOutboxPublished;
  Types.InsertTimer := InsertTimer;
  Types.ListDueTimers := ListDueTimers;
  Types.FireTimerCAS := FireTimerCAS;
  Types.CancelTimersForRun := CancelTimersForRun;
  Types.InsertSignal := InsertSignal;
  Types.ListUnprocessedSignals := ListUnprocessedSignals;
  Types.MarkSignalProcessed := MarkSignalProcessed;
  Types.AppendHistory := AppendHistory;
  Types.ListHistory := ListHistory
|}.

Definition postgres_store : Store := {|
  store_queries := postgres_queries;
  Types.WithTx := @WithTx
|}.
End postgres.
End Postgres.
