(* ===== verification/PostgresSpec.v ===== *)
(** The two stores compared: on tables whose rows are stored under their ids, and for
    parameters PostgreSQL can store, the statements of internal/store/postgres do what the
    methods of internal/store/memory do; a failed request over PostgreSQL leaves no trace;
    and where the two differ, what that means for the server. *)

From stdpp Require Import gmap strings list sorting.
From S2P Require Import Prelude GoLib Json Types MemStore Dsl Engine Worlds MemSpec System Demo Services RelaySpec Postgres.
Open Scope Z_scope.

Module PostgresSpec.

(** * Statements addressed by primary key *)

#[export] Instance filter_Permutation {A} (p : A → bool) :
  Proper ((≡ₚ) ==> (≡ₚ)) (List.filter p).
Proof.
  intros l l' Hl. induction Hl as [|x l l' _ IH|x y l|l1 l2 l3 _ IH1 _ IH2]; simpl; [done| | |by etransitivity].
  - destruct (p x); [by f_equiv|done].
  - destruct (p x), (p y); try done. by constructor.
Qed.

Lemma filter_none {A} (p : A → bool) l : (∀ x, x ∈ l → p x = false) → List.filter p l = [].
Proof.
  induction l as [|x l IH]; intros Hp; simpl; [done|]. rewrite Hp by constructor.
  apply IH. intros y Hy. apply Hp. by constructor.
Qed.

Section keyed.
Context {E : Env} {P : Pg} {K V : Type} `{Countable K}.
Context (table : Tables → gmap K V) (set_table : (gmap K V → gmap K V) → Tables → Tables) (ID : V → K).
Context (set_ext : ∀ f g d, f (table d) = g (table d) → set_table f d = set_table g d).

(** The rows a WHERE clause on the primary key selects. *)
Definition row_at (k : K) (p : V → bool) (m : gmap K V) : list V :=
  match m !! k with Some v => if p v then [v] else [] | None => [] end.

Lemma filter_key (m : gmap K V) k p l :
  (∀ k v, m !! k = Some v → ID v = k) → (∀ v, p v = true → ID v = k) →
  l ≡ₚ (map_to_list m).*2 → List.filter p l = row_at k p m.
Proof.
  intros Hk Hp Hl. assert (∀ k' v, k' ≠ k → m !! k' = Some v → p v = false) as Hne.
  { intros k' v Hne Hv. destruct (p v) eqn:Ep; [|done]. apply Hp in Ep. apply Hk in Hv. congruence. }
  assert (List.filter p l ≡ₚ List.filter p (map_to_list m).*2) as Hf by by rewrite Hl. unfold row_at. destruct (m !! k) as [v|] eqn:Ev.
  - rewrite <-(insert_delete_id m k v Ev) in Hf.
    rewrite map_to_list_insert, fmap_cons in Hf by apply lookup_delete_eq. cbn [List.filter snd] in Hf.
    rewrite (filter_none p (map_to_list (delete k m)).*2) in Hf.
    + destruct (p v); [by apply Permutation_singleton_r in Hf|by apply Permutation_nil_r in Hf].
    + intros x ([k' x'] & -> & Hx)%list_elem_of_fmap. apply elem_of_map_to_list in Hx.
      apply lookup_delete_Some in Hx as [Hx1 Hx2]. by apply (Hne k').
  - apply Permutation_nil_r. rewrite Hf, filter_none; [done|].
    intros x ([k' x'] & -> & Hx)%list_elem_of_fmap. apply elem_of_map_to_list in Hx.
    apply (Hne k'); [congruence|done].
Qed.

Definition keyed_table (d : Tables) : Prop := ∀ k v, table d !! k = Some v → ID v = k.

Lemma select_key k p w : keyed_table (db w) → (∀ v, p v = true → ID v = k) →
  Postgres.select table p w = (Ok (row_at k p (table (db w))), mkWorld (db w) (S (tick w))).
Proof.
  intros Hk Hp. unfold Postgres.select, Memory.range_values, mbind, GoM_bind, gets, mret, GoM_ret. simpl.
  by rewrite (filter_key (table (db w)) k) by (done || apply range_order_perm).
Qed.

Lemma update_key k p f w : keyed_table (db w) → (∀ v, p v = true → ID v = k) →
  Postgres.update table set_table p f w =
    (Ok (f <$> row_at k p (table (db w))),
     mkWorld (match table (db w) !! k with
              | Some v => if p v then set_table (insert k (f v)) (db w) else set_table id (db w)
              | None => set_table id (db w)
              end) (S (tick w))).
Proof.
  intros Hk Hp. unfold Postgres.update, mbind, GoM_bind. rewrite (select_key k) by done.
  unfold set_db, modify. simpl. do 2 f_equal.
  assert (∀ k' v, k' ≠ k → table (db w) !! k' = Some v → p v = false) as Hne.
  { intros k' v Hne Hv. destruct (p v) eqn:Ep; [|done]. apply Hp in Ep. apply Hk in Hv. congruence. }
  destruct (table (db w) !! k) as [v|] eqn:Ev; [destruct (p v) eqn:Epv|]; apply set_ext; apply map_eq;
    intros k'; rewrite lookup_fmap; destruct (decide (k' = k)) as [->|Hk'].
  - rewrite Ev, lookup_insert_eq. simpl. by rewrite Epv.
  - rewrite lookup_insert_ne by done. destruct (table (db w) !! k') as [v'|] eqn:Ev'; [|done]. simpl.
    by rewrite (Hne k' v').
  - rewrite Ev. simpl. by rewrite Epv, Ev.
  - destruct (table (db w) !! k') as [v'|] eqn:Ev'; simpl; rewrite Ev'; [|done]. by rewrite (Hne k' v').
  - by rewrite Ev.
  - destruct (table (db w) !! k') as [v'|] eqn:Ev'; simpl; rewrite Ev'; [|done]. by rewrite (Hne k' v').
Qed.
End keyed.

(** * Updates *)

(** The SET lists are the assignments of the Go code. *)
Lemma set_run_eq next out err n r : Postgres.set_run next out err n r = Memory.run_updated r next out err n.
Proof.
  unfold Postgres.set_run, Memory.run_updated. f_equal.
  - by destruct next, (WorkflowRun.StartedAt r).
  - by destruct next.
Qed.

Lemma set_step_eq next out err b n s :
  Postgres.set_step next out err b n s = Memory.step_updated s next out err b n.
Proof.
  unfold Postgres.set_step, Memory.step_updated. f_equal.
  - destruct b; lia.
  - by destruct next, (Step.StartedAt s).
  - by destruct next.
Qed.

Lemma set_completed_eq st out err n a :
  TaskAttempt.Result a = None →
  Postgres.set_completed st out err n a = Memory.attempt_completed a st out err n.
Proof. intros Hr. unfold Postgres.set_completed, Memory.attempt_completed. rewrite Hr. by destruct out. Qed.

(** Every table stores its rows under their primary key. *)
Record keyed (d : Tables) : Prop := {
  ky_runs : keyed_table runs WorkflowRun.ID d;
  ky_steps : keyed_table steps Step.ID d;
  ky_attempts : keyed_table attempts TaskAttempt.ID d;
  ky_outbox : keyed_table outbox OutboxMessage.ID d;
  ky_timers : keyed_table timers Timer.ID d;
  ky_signals : keyed_table signals Signal.ID d
}.

Ltac pg := unfold mbind, GoM_bind, now, tick_of, set_db, modify, gets, mret, GoM_ret.

Section agreement.
Context {E : Env} {P : Pg}.

(** The two programs answer the same and leave the same tables. *)
Definition same_effect {A} (pg mem : GoM World A) (w : World) : Prop :=
  (pg w).1 = (mem w).1 ∧ db (pg w).2 = db (mem w).2.

(** A whole operation happens at one instant. *)
Definition instant (t : time) : Prop := ∀ n, time_Now n = t.

(** Values PostgreSQL stores unchanged. *)
Definition storable (b : RawMessage) : Prop :=
  match b with None => True | Some (Text j) => jsonb j = Some j | Some (Malformed _) => False end.
Definition storable_text (s : option string) : Prop :=
  match s with None => True | Some s => text_ok s = true end.

Lemma jsonb_null_ok b w : storable b → Postgres.jsonb_null b w = (Ok b, w).
Proof. destruct b as [[j|]|]; [|done..]. simpl. unfold Postgres.jsonb_null. simpl. by intros ->. Qed.

Lemma text_ok_run s w : text_ok s = true → Postgres.text s w = (Ok s, w).
Proof. unfold Postgres.text. by intros ->. Qed.

Lemma nullable_text_ok s w : storable_text s → Postgres.nullable_text s w = (Ok s, w).
Proof.
  destruct s as [s|]; [|done]. simpl. intros Hs. unfold mbind, GoM_bind. by rewrite text_ok_run.
Qed.

Lemma set_runs_ext f g d : f (runs d) = g (runs d) → set_runs f d = set_runs g d.
Proof. intros Heq. unfold set_runs. by rewrite Heq. Qed.
Lemma set_steps_ext f g d : f (steps d) = g (steps d) → set_steps f d = set_steps g d.
Proof. intros Heq. unfold set_steps. by rewrite Heq. Qed.
Lemma set_attempts_ext f g d : f (attempts d) = g (attempts d) → set_attempts f d = set_attempts g d.
Proof. intros Heq. unfold set_attempts. by rewrite Heq. Qed.
Lemma set_outbox_rows_ext f g d :
  f (outbox d) = g (outbox d) → Postgres.set_outbox_rows f d = Postgres.set_outbox_rows g d.
Proof. intros Heq. unfold Postgres.set_outbox_rows, set_outbox. by rewrite Heq. Qed.
Lemma set_timers_ext f g d : f (timers d) = g (timers d) → set_timers f d = set_timers g d.
Proof. intros Heq. unfold set_timers. by rewrite Heq. Qed.
Lemma set_signals_ext f g d : f (signals d) = g (signals d) → set_signals f d = set_signals g d.
Proof. intros Heq. unfold set_signals. by rewrite Heq. Qed.

Lemma same_runs d : set_runs id d = d.
Proof. by destruct d. Qed.
Lemma same_steps d : set_steps id d = d.
Proof. by destruct d. Qed.
Lemma same_attempts d : set_attempts id d = d.
Proof. by destruct d. Qed.
Lemma same_outbox_rows d : Postgres.set_outbox_rows id d = d.
Proof. by destruct d. Qed.
Lemma same_timers d : set_timers id d = d.
Proof. by destruct d. Qed.
Lemma same_signals d : set_signals id d = d.
Proof. by destruct d. Qed.

Lemma key_and {A} (f : A → uuid) k (q : A → bool) v : (f v =? k)%N && q v = true → f v = k.
Proof. by intros [E1%N.eqb_eq _]%andb_true_iff. Qed.

Create Rewrite HintDb tables.
#[local] Hint Rewrite same_runs same_steps same_attempts same_outbox_rows same_timers same_signals
  : tables.

(** Runs the primitive statements; closes a branch in which nothing was written. *)
Ltac pg_done := split; simpl; autorewrite with tables; done.
Ltac pick := match goal with Hx : ∃ _, _ |- _ => destruct Hx as [? Hx] end.

Lemma UpdateWorkflowRunStatus_agrees id expected next out err w :
  keyed (db w) → storable out → storable_text err →
  same_effect (Postgres.UpdateWorkflowRunStatus id expected next out err)
    (Memory.UpdateWorkflowRunStatus id expected next out err) w.
Proof.
  intros Hk Ho He. unfold Postgres.UpdateWorkflowRunStatus, Memory.UpdateWorkflowRunStatus. unfold same_effect. pg.
  rewrite jsonb_null_ok, nullable_text_ok by done.
  rewrite (update_key runs set_runs WorkflowRun.ID set_runs_ext id) by (apply Hk || by apply key_and).
  unfold row_at. simpl. destruct (runs (db w) !! id) as [r|] eqn:Er; [|pg_done].
  rewrite (ky_runs _ Hk id r Er), N.eqb_refl, set_run_eq. simpl.
  destruct (Memory.statusIn (WorkflowRun.Status r) expected) eqn:Es.
  - apply MemSpec.statusIn_true in Es. by rewrite bool_decide_eq_true_2.
  - rewrite bool_decide_eq_false_2; [pg_done|]. intros Hin%MemSpec.statusIn_true. congruence.
Qed.

Lemma UpdateStepStatus_agrees id expected next out err b w :
  keyed (db w) → storable out → storable_text err →
  (∀ s, steps (db w) !! id = Some s → Postgres.in_int32 (Step.AttemptCount s + 1) = true) →
  same_effect (Postgres.UpdateStepStatus id expected next out err b)
    (Memory.UpdateStepStatus id expected next out err b) w.
Proof.
  intros Hk Ho He Hb. unfold Postgres.UpdateStepStatus, Memory.UpdateStepStatus. unfold same_effect. pg.
  rewrite jsonb_null_ok, nullable_text_ok by done.
  rewrite (select_key steps Step.ID id) by (apply Hk || by apply key_and).
  match goal with |- context [if ?c then fail _ else _] => assert (c = false) as -> end.
  { unfold row_at. cbn [db]. destruct (steps (db w) !! id) as [s|] eqn:Er; [|by rewrite andb_false_r].
    match goal with |- context [if ?c then [s] else []] => destruct c end; cbn [existsb]; [rewrite (Hb s eq_refl)|]; by rewrite andb_false_r. }
  rewrite (update_key steps set_steps Step.ID set_steps_ext id) by (apply Hk || by apply key_and).
  unfold row_at. simpl. destruct (steps (db w) !! id) as [s|] eqn:Er; [|pg_done].
  rewrite (ky_steps _ Hk id s Er), N.eqb_refl, set_step_eq. simpl.
  destruct (Memory.stepStatusIn (Step.Status s) expected) eqn:Es.
  - apply MemSpec.stepStatusIn_true in Es. by rewrite bool_decide_eq_true_2.
  - rewrite bool_decide_eq_false_2; [pg_done|]. intros Hin%MemSpec.stepStatusIn_true. congruence.
Qed.

Lemma GetTaskAttempt_agrees id w :
  keyed (db w) → same_effect (Postgres.GetTaskAttempt id) (Memory.GetTaskAttempt id) w.
Proof.
  intros Hk. unfold Postgres.GetTaskAttempt, Postgres.wrapped, Memory.GetTaskAttempt. unfold same_effect. pg.
  rewrite (select_key attempts TaskAttempt.ID id) by (apply Hk || by intros ? ?%N.eqb_eq).
  unfold row_at. destruct (attempts (db w) !! id) as [a|] eqn:Ea; [|done].
  by rewrite (ky_attempts _ Hk id a Ea), N.eqb_refl.
Qed.

Lemma GetWorkflowRun_agrees id w :
  keyed (db w) → same_effect (Postgres.GetWorkflowRun id) (Memory.GetWorkflowRun id) w.
Proof.
  intros Hk. unfold Postgres.GetWorkflowRun, Postgres.wrapped, Memory.GetWorkflowRun. unfold same_effect. pg.
  rewrite (select_key runs WorkflowRun.ID id) by (apply Hk || by intros ? ?%N.eqb_eq).
  unfold row_at. destruct (runs (db w) !! id) as [a|] eqn:Ea; [|done].
  by rewrite (ky_runs _ Hk id a Ea), N.eqb_refl.
Qed.

Lemma GetStep_agrees id w :
  keyed (db w) → same_effect (Postgres.GetStep id) (Memory.GetStep id) w.
Proof.
  intros Hk. unfold Postgres.GetStep, Postgres.wrapped, Memory.GetStep. unfold same_effect. pg.
  rewrite (select_key steps Step.ID id) by (apply Hk || by intros ? ?%N.eqb_eq).
  unfold row_at. destruct (steps (db w) !! id) as [a|] eqn:Ea; [|done].
  by rewrite (ky_steps _ Hk id a Ea), N.eqb_refl.
Qed.

Lemma ClaimTaskAttempt_agrees id key worker lease t w :
  keyed (db w) → instant t → text_ok worker = true → interval_seconds lease = lease →
  same_effect (Postgres.ClaimTaskAttempt id key worker lease)
    (Memory.ClaimTaskAttempt id key worker lease) w.
Proof.
  intros Hk Ht Hw Hl. unfold Postgres.ClaimTaskAttempt, Memory.ClaimTaskAttempt. unfold same_effect. pg.
  rewrite text_ok_run by done. rewrite Hl, !Ht.
  rewrite (update_key attempts set_attempts TaskAttempt.ID set_attempts_ext id)
    by (apply Hk || by intros ? [[E1%N.eqb_eq _]%andb_true_iff _]%andb_true_iff).
  unfold row_at. simpl. unfold catch.
  destruct (GetTaskAttempt_agrees id (mkWorld (set_attempts Datatypes.id (db w)) (S (S (tick w))))) as [Hg1 Hg2];
    [by rewrite same_attempts|]. rewrite same_attempts in Hg1, Hg2.
  unfold Memory.GetTaskAttempt, mbind, GoM_bind, gets in Hg1, Hg2. simpl in Hg1, Hg2.
  destruct (attempts (db w) !! id) as [a|] eqn:Ea.
  2: { simpl. rewrite same_attempts. destruct (Postgres.GetTaskAttempt id _) as [r w']. simpl in *. by subst r. }
  rewrite (ky_attempts _ Hk id a Ea), N.eqb_refl. simpl.
  destruct (TaskAttempt.IdempotencyKey a =? key)%N eqn:Ekey; simpl;
    [case_bool_decide as Est; simpl|];
    [rewrite ?Ht; split; [|by rewrite ?Ht]; done|..]; rewrite ?orb_true_r; rewrite same_attempts;
    destruct (Postgres.GetTaskAttempt id _) as [r w']; simpl in *; subst r; simpl; done.
Qed.

Lemma owned_by_eq id worker a :
  TaskAttempt.ID a = id → Postgres.owned_by id worker a = Memory.leased_by a worker.
Proof.
  intros <-. unfold Postgres.owned_by, Memory.leased_by. rewrite N.eqb_refl. simpl. rewrite andb_comm. f_equal.
  destruct (TaskAttempt.LeaseOwner a) as [o|]; [|done]. apply bool_decide_ext. naive_solver.
Qed.

Lemma owned_by_key id worker a : Postgres.owned_by id worker a = true → TaskAttempt.ID a = id.
Proof. by intros [[E1%N.eqb_eq _]%andb_true_iff _]%andb_true_iff. Qed.

Lemma HeartbeatTaskAttempt_agrees id worker lease w :
  keyed (db w) → text_ok worker = true → interval_seconds lease = lease →
  same_effect (Postgres.HeartbeatTaskAttempt id worker lease)
    (Memory.HeartbeatTaskAttempt id worker lease) w.
Proof.
  intros Hk Hw Hl. unfold Postgres.HeartbeatTaskAttempt, Memory.HeartbeatTaskAttempt. unfold same_effect. pg.
  rewrite text_ok_run by done. rewrite Hl.
  rewrite (update_key attempts set_attempts TaskAttempt.ID set_attempts_ext id)
    by (apply Hk || by apply owned_by_key).
  unfold row_at. cbn [db tick]. destruct (attempts (db w) !! id) as [a|] eqn:Ea; [|pg_done].
  rewrite (owned_by_eq id worker a) by (by apply (ky_attempts _ Hk)).
  destruct (Memory.leased_by a worker); [done|pg_done].
Qed.

Lemma CompleteTaskAttempt_agrees id worker success out err a w :
  keyed (db w) → text_ok worker = true → storable out → storable_text err →
  attempts (db w) !! id = Some a → TaskAttempt.Result a = None →
  same_effect (Postgres.CompleteTaskAttempt id worker success out err)
    (Memory.CompleteTaskAttempt id worker success out err) w.
Proof.
  intros Hk Hw Ho He Ea Hr. unfold Postgres.CompleteTaskAttempt, Memory.CompleteTaskAttempt. unfold same_effect. pg.
  rewrite text_ok_run, jsonb_null_ok, nullable_text_ok by done.
  rewrite (update_key attempts set_attempts TaskAttempt.ID set_attempts_ext id)
    by (apply Hk || by apply owned_by_key).
  unfold row_at. cbn [db tick]. rewrite Ea.
  rewrite (owned_by_eq id worker a) by (by apply (ky_attempts _ Hk)).
  destruct (Memory.leased_by a worker).
  - rewrite set_completed_eq by done. simpl. by rewrite set_completed_eq.
  - rewrite same_attempts. simpl.
    destruct (GetTaskAttempt_agrees id (mkWorld (db w) (S (S (tick w)))) Hk) as [Hg1 Hg2].
    unfold Memory.GetTaskAttempt, mbind, GoM_bind, gets in Hg1, Hg2. simpl in Hg1, Hg2. rewrite Ea in Hg1, Hg2.
    destruct (Postgres.GetTaskAttempt id _) as [r w']. simpl in *. by subst r.
Qed.

Lemma MarkOutboxPublished_agrees k w :
  keyed (db w) → same_effect (Postgres.MarkOutboxPublished k) (Memory.MarkOutboxPublished k) w.
Proof.
  intros Hk. unfold Postgres.MarkOutboxPublished, Memory.MarkOutboxPublished. unfold same_effect. pg.
  rewrite (update_key outbox Postgres.set_outbox_rows OutboxMessage.ID set_outbox_rows_ext k)
    by (apply Hk || by intros ? ?%Z.eqb_eq).
  cbn [db tick]. destruct (outbox (db w) !! k) as [m|] eqn:Em; [|pg_done].
  by rewrite (ky_outbox _ Hk k m Em), Z.eqb_refl.
Qed.

Lemma FireTimerCAS_agrees id w :
  keyed (db w) → same_effect (Postgres.FireTimerCAS id) (Memory.FireTimerCAS id) w.
Proof.
  intros Hk. unfold Postgres.FireTimerCAS, Memory.FireTimerCAS. unfold same_effect. pg.
  rewrite (update_key timers set_timers Timer.ID set_timers_ext id) by (apply Hk || by apply key_and).
  unfold row_at. cbn [db tick]. destruct (timers (db w) !! id) as [m|] eqn:Em; [|pg_done].
  rewrite (ky_timers _ Hk id m Em), N.eqb_refl. simpl. case_bool_decide; [done|pg_done].
Qed.

Lemma CancelTimersForRun_agrees rid w :
  same_effect (Postgres.CancelTimersForRun rid) (Memory.CancelTimersForRun rid) w.
Proof. done. Qed.

Lemma MarkSignalProcessed_agrees id w :
  keyed (db w) → same_effect (Postgres.MarkSignalProcessed id) (Memory.MarkSignalProcessed id) w.
Proof.
  intros Hk. unfold Postgres.MarkSignalProcessed, Memory.MarkSignalProcessed. unfold same_effect. pg.
  rewrite (update_key signals set_signals Signal.ID set_signals_ext id) by (apply Hk || by apply key_and).
  unfold row_at. cbn [db tick]. destruct (signals (db w) !! id) as [m|] eqn:Em; [|pg_done].
  rewrite (ky_signals _ Hk id m Em), N.eqb_refl. simpl. destruct (Signal.Processed m); [pg_done|done].
Qed.

(** * Inserts *)

Definition storable_notnull (b : RawMessage) : Prop := b ≠ None ∧ storable b.

Lemma jsonb_notnull_ok b w : storable_notnull b → Postgres.jsonb_notnull b w = (Ok b, w).
Proof.
  intros [Hn Hs]. destruct b as [[j|]|]; [|done..]. simpl in Hs.
  unfold Postgres.jsonb_notnull, Postgres.check. simpl. by rewrite Hs.
Qed.

Lemma copy_storable b : storable_notnull b → Memory.copy_bytes b = b.
Proof. intros [Hn _]. by destruct b. Qed.

Lemma int4_ok z w : Postgres.in_int32 z = true → Postgres.int4 z w = (Ok z, w).
Proof. unfold Postgres.int4. by intros ->. Qed.

Lemma references_ok {K V} `{Countable K} (table : Tables → gmap K V) k w :
  is_Some (table (db w) !! k) → Postgres.references table k w = (Ok tt, w).
Proof. intros Hk. unfold Postgres.references, mbind, GoM_bind, gets. by rewrite bool_decide_eq_true_2. Qed.

Lemma insert_ok {K V} `{Countable K} (table : Tables → gmap K V) set_table k v clash w :
  table (db w) !! k = None → (∀ k' v', table (db w) !! k' = Some v' → clash v' = false) →
  Postgres.insert_row table set_table k v clash w =
    (Ok v, mkWorld (set_table (insert k v) (db w)) (tick w)).
Proof.
  intros Hk Hc. unfold Postgres.insert_row, mbind, GoM_bind, gets.
  rewrite bool_decide_eq_false_2 by (rewrite Hk; apply is_Some_None). simpl.
  destruct (existsb clash _) eqn:Ex; [|done]. apply existsb_exists in Ex as (x & Hx & Hcx).
  apply list_elem_of_In, list_elem_of_fmap in Hx as ([k' x'] & -> & Hx).
  apply elem_of_map_to_list in Hx. simpl in Hcx. rewrite (Hc _ _ Hx) in Hcx. done.
Qed.

(** Identifiers drawn from now on are unused. *)
Definition fresh_ids (w : World) : Prop := ∀ n, (tick w ≤ n)%nat →
  definitions (db w) !! uuid_New n = None ∧ steps (db w) !! uuid_New n = None ∧
  attempts (db w) !! uuid_New n = None ∧ timers (db w) !! uuid_New n = None ∧
  signals (db w) !! uuid_New n = None.

Lemma CreateTaskAttempt_agrees sid rid number queue w :
  fresh_ids w → Postgres.in_int32 number = true → text_ok queue = true →
  is_Some (steps (db w) !! sid) → is_Some (runs (db w) !! rid) →
  (∀ k a, attempts (db w) !! k = Some a → TaskAttempt.StepID a = sid → TaskAttempt.AttemptNumber a ≠ number) →
  same_effect (Postgres.CreateTaskAttempt sid rid number queue)
    (Memory.CreateTaskAttempt sid rid number queue) w.
Proof.
  intros Hf Hn Hq Hs Hr Hu. unfold Postgres.CreateTaskAttempt, Memory.CreateTaskAttempt.
  unfold new_uuid, same_effect. pg. rewrite int4_ok, text_ok_run by done.
  rewrite !references_ok by done. rewrite insert_ok; [done|by apply Hf|].
  intros k a Ha. apply andb_false_iff. destruct (N.eqb_spec (TaskAttempt.StepID a) sid); [right|by left].
  by apply Z.eqb_neq, (Hu k a).
Qed.

Lemma InsertTimer_agrees nt w :
  fresh_ids w → Postgres.in_int32 (NewTimer.ShardID nt) = true →
  storable_notnull (NewTimer.Payload nt) → timestamptz (NewTimer.FireAt nt) = NewTimer.FireAt nt →
  is_Some (runs (db w) !! NewTimer.WorkflowRunID nt) →
  (∀ s, NewTimer.StepID nt = Some s → is_Some (steps (db w) !! s)) →
  same_effect (Postgres.InsertTimer nt) (Memory.InsertTimer nt) w.
Proof.
  intros Hf Hn Hp Ht Hr Hs. unfold Postgres.InsertTimer, Memory.InsertTimer. unfold new_uuid, same_effect. pg.
  assert (match NewTimer.Payload nt with None => empty_object | p => p end = NewTimer.Payload nt) as ->.
  { destruct Hp as [Hp _]. by destruct (NewTimer.Payload nt). }
  rewrite int4_ok, jsonb_notnull_ok, copy_storable, references_ok by done.
  assert (∀ w', db w' = db w → (match NewTimer.StepID nt with
            | Some s => Postgres.references steps s | None => λ s, (Ok tt, s) end) w' = (Ok tt, w')) as Hx.
  { intros w' Hw'. destruct (NewTimer.StepID nt) as [s|]; [|done]. apply references_ok. rewrite Hw'. by apply Hs. }
  rewrite Hx by done. rewrite insert_ok; [|by apply Hf|done]. by rewrite Ht.
Qed.

Lemma InsertSignal_agrees rid name payload w :
  fresh_ids w → text_ok name = true → storable_notnull payload → is_Some (runs (db w) !! rid) →
  same_effect (Postgres.InsertSignal rid name payload) (Memory.InsertSignal rid name payload) w.
Proof.
  intros Hf Hn Hp Hr. unfold Postgres.InsertSignal, Memory.InsertSignal. unfold new_uuid, same_effect. pg.
  assert (match payload with None => empty_object | p => p end = payload) as ->.
  { destruct Hp as [Hp _]. by destruct payload. }
  rewrite text_ok_run, jsonb_notnull_ok, copy_storable, references_ok by done.
  by rewrite insert_ok; [|apply Hf|].
Qed.

Lemma InsertOutboxMessage_agrees msg w :
  text_ok (NewOutboxMessage.AggregateType msg) = true → text_ok (NewOutboxMessage.StreamName msg) = true →
  Postgres.in_int32 (NewOutboxMessage.ShardID msg) = true →
  (∀ w, Postgres.payload_column (NewOutboxMessage.Payload msg) w = (Ok (NewOutboxMessage.Payload msg), w)) →
  outbox (db w) !! (nextOutboxID (db w) + 1) = None →
  same_effect (Postgres.InsertOutboxMessage msg) (Memory.InsertOutboxMessage msg) w.
Proof.
  intros Ha Hs Hn Hp Hf. unfold Postgres.InsertOutboxMessage, Memory.InsertOutboxMessage. unfold same_effect. pg.
  rewrite !text_ok_run, int4_ok, text_ok_run, Hp by done. by rewrite insert_ok.
Qed.

Lemma CreateWorkflowRun_agrees id def name version shard input w :
  runs (db w) !! id = None → is_Some (definitions (db w) !! def) → text_ok name = true →
  Postgres.in_int32 version = true → Postgres.in_int32 shard = true → storable_notnull input →
  same_effect (Postgres.CreateWorkflowRun id def name version shard input)
    (Memory.CreateWorkflowRun id def name version shard input) w.
Proof.
  intros Hid Hd Hn Hv Hs Hi. unfold Postgres.CreateWorkflowRun, Memory.CreateWorkflowRun. unfold same_effect. pg.
  rewrite text_ok_run, !int4_ok, jsonb_notnull_ok, references_ok, copy_storable by done.
  by rewrite insert_ok.
Qed.

(** What the schema asks of a new step: strings and documents that can be stored, INT
    columns in range, a known run and a name that is new in it. *)
Definition step_fits (rid : uuid) (d : Tables) (ns : NewStep.t) : Prop :=
  text_ok (NewStep.StepName ns) = true ∧ text_ok (NewStep.TaskType ns) = true ∧
  storable (Some (Text (JArr (JStr <$> NewStep.DependsOn ns)))) ∧
  Forall (λ z, Postgres.in_int32 z = true)
    [NewStep.MaxAttempts ns; NewStep.InitialBackoffMS ns; NewStep.MaxBackoffMS ns; NewStep.TimeoutSeconds ns] ∧
  storable_notnull (match NewStep.Input ns with None => empty_object | i => i end) ∧
  (∀ k s, steps d !! k = Some s → Step.WorkflowRunID s = rid → Step.StepName s ≠ NewStep.StepName ns).

Lemma scan_depends_on_ok l w :
  Postgres.scan_depends_on (Some (Text (JArr (JStr <$> l)))) w = (Ok l, w).
Proof.
  unfold Postgres.scan_depends_on.
  change (JArr (JStr <$> l)) with (Workflowdsl.marshal_strings (Some l)).
  by rewrite Workflowdsl.dec_strings_marshal.
Qed.

Lemma CreateStep_eq rid out ns w :
  fresh_ids w → is_Some (runs (db w) !! rid) → step_fits rid (db w) ns →
  Postgres.CreateStep rid out ns w = Memory.CreateStep rid out ns w.
Proof.
  intros Hf Hr (Hn & Ht & Hd & Hints & Hi & Hu).
  apply Forall_cons in Hints as [H1 [H2 [H3 [H4 _]%Forall_cons]%Forall_cons]%Forall_cons].
  unfold Postgres.CreateStep, Memory.CreateStep. unfold new_uuid, same_effect. pg.
  rewrite !text_ok_run by done. rewrite jsonb_notnull_ok by done.
  rewrite int4_ok, jsonb_notnull_ok by done. rewrite !int4_ok by done.
  rewrite references_ok, scan_depends_on_ok, copy_storable by done.
  rewrite insert_ok; [done|by apply Hf|].
  intros k s Hs. apply andb_false_iff. destruct (N.eqb_spec (Step.WorkflowRunID s) rid); [right|by left].
  apply bool_decide_eq_false_2. by apply (Hu k s).
Qed.

Lemma CreateStep_keeps rid out ns w :
  Worlds.uuid_unique → fresh_ids w → is_Some (runs (db w) !! rid) →
  let w' := (Memory.CreateStep rid out ns w).2 in
  fresh_ids w' ∧ is_Some (runs (db w') !! rid) ∧
  ∀ ns', step_fits rid (db w) ns' → NewStep.StepName ns ≠ NewStep.StepName ns' →
    step_fits rid (db w') ns'.
Proof.
  intros Hu Hf Hr. simpl. split; [|split; [done|]].
  - intros n Hle. simpl in *. destruct (Hf n) as (F1 & F2 & F3 & F4 & F5); [lia|].
    split_and!; try done. rewrite lookup_insert_ne; [done|]. intros Heq%Hu. lia.
  - intros ns' (Hn & Ht & Hd & Hints & Hi & Hc) Hne. split_and!; try done. simpl.
    intros k s [[<- <-]|[_ Hs]]%lookup_insert_Some; [by intros _|by eapply Hc].
Qed.

Lemma CreateSteps_eq rid out nss w :
  Worlds.uuid_unique → fresh_ids w → is_Some (runs (db w) !! rid) →
  Forall (step_fits rid (db w)) nss → NoDup (NewStep.StepName <$> nss) →
  foldM (Postgres.CreateStep rid) out nss w = foldM (Memory.CreateStep rid) out nss w.
Proof.
  intros Hu. revert out w. induction nss as [|ns nss IH]; intros out w Hf Hr Hfit Hnd; [done|].
  apply Forall_cons in Hfit as [Hns Hfit]. apply NoDup_cons in Hnd as [Hnin Hnd].
  cbn [foldM]. unfold mbind, GoM_bind. rewrite CreateStep_eq by done.
  destruct (CreateStep_keeps rid out ns w Hu Hf Hr) as (Hf' & Hr' & Hk).
  destruct (Memory.CreateStep rid out ns w) as [[out'|e] w'] eqn:Ec; [|done].
  apply IH; [done..| |done]. apply Forall_forall. intros ns' Hin. apply Hk.
  - by eapply Forall_forall in Hfit.
  - intros Heq. apply Hnin. rewrite Heq. by apply list_elem_of_fmap_2.
Qed.

(** * Listings *)

Lemma find_filter {A} (p : A → bool) l : find p l = head (List.filter p l).
Proof. induction l as [|x l IH]; [done|]. simpl. by destruct (p x). Qed.

Lemma GetWorkflowDefinition_agrees name version w :
  text_ok name = true → Postgres.in_int32 version = true →
  same_effect (Postgres.GetWorkflowDefinition name version) (Memory.GetWorkflowDefinition name version) w.
Proof.
  intros Hn Hv. unfold Postgres.GetWorkflowDefinition, Postgres.wrapped, Memory.GetWorkflowDefinition. unfold same_effect.
  pg. rewrite text_ok_run, int4_ok by done. unfold Postgres.select, Memory.range_values. pg. simpl.
  rewrite find_filter. by destruct (List.filter _ _).
Qed.

Lemma filter_ext_bool {A} (p q : A → bool) l : (∀ x, p x = q x) → List.filter p l = List.filter q l.
Proof. intros Hpq. induction l as [|x l IH]; [done|]. simpl. by rewrite Hpq, IH. Qed.

Lemma ListWorkflowRuns_agrees f w :
  storable_text (RunFilter.Name f) → 0 < RunFilter.Limit f → 0 ≤ RunFilter.Offset f →
  same_effect (Postgres.ListWorkflowRuns f) (Memory.ListWorkflowRuns f) w.
Proof.
  intros Hn Hl Ho. unfold Postgres.ListWorkflowRuns, Memory.ListWorkflowRuns, same_effect. pg.
  rewrite nullable_text_ok by done. unfold Postgres.select, Memory.range_values. pg. simpl.
  rewrite (filter_ext_bool _ (Memory.run_matches f)) by done.
  set (out := merge_sort _ _). unfold Postgres.limit_to. rewrite (proj2 (Z.ltb_ge _ _)) by lia.
  rewrite (proj2 (Z.leb_gt _ _)) by lia. rewrite (proj2 (Z.ltb_ge _ _)) by lia.
  rewrite (proj2 (Z.ltb_lt 0 (RunFilter.Limit f))) by lia. split; [|by repeat case_match].
  destruct (Z.ltb_spec 0 (RunFilter.Offset f)); simpl.
  - destruct (Z.leb_spec (Z.of_nat (length out)) (RunFilter.Offset f)); simpl.
    + by rewrite drop_ge, take_nil by lia.
    + destruct (Z.ltb_spec (RunFilter.Limit f) (Z.of_nat (length (drop (Z.to_nat (RunFilter.Offset f)) out)))); simpl;
        [done|by rewrite take_ge by lia].
  - replace (RunFilter.Offset f) with 0 by lia. change (drop (Z.to_nat 0) out) with out.
    destruct (Z.ltb_spec (RunFilter.Limit f) (Z.of_nat (length out))); simpl; [done|by rewrite take_ge by lia].
Qed.

Lemma omap_values {V} (m : gmap Z V) l :
  (∀ k v, (k, v) ∈ l → m !! k = Some v) → omap (λ k, m !! k) l.*1 = l.*2.
Proof.
  induction l as [|[k v] l IH]; intros Hl; [done|]. simpl. rewrite (Hl k v) by constructor.
  f_equal. apply IH. intros k' v' Hin. apply Hl. by constructor.
Qed.

Lemma sorted_weaken {A} (R S : relation A) l :
  (∀ x y, R x y → S x y) → StronglySorted R l → StronglySorted S l.
Proof. intros HRS. induction 1; constructor; [done|]. eapply list.Forall_impl; [done|]. intros y. apply HRS. Qed.

#[local] Existing Instance Postgres.by_id_dec.

(** Both orders are that of the ids. *)
Lemma outbox_order (m : gmap Z OutboxMessage.t) p ids rows :
  (∀ k v, m !! k = Some v → OutboxMessage.ID v = k) →
  ids ≡ₚ (map_to_list m).*1 → rows ≡ₚ (map_to_list m).*2 →
  List.filter p (omap (λ k, m !! k) (merge_sort Z.le ids)) =
    merge_sort Postgres.by_id (List.filter p rows).
Proof.
  intros Hk Hids Hrows. apply (StronglySorted_unique_strong Postgres.by_id).
  - intros a b Ha Hb. apply list_elem_of_In, filter_In in Ha as [Ha _]. apply list_elem_of_In in Ha.
    apply list_elem_of_omap in Ha as (k & _ & Ha).
    rewrite merge_sort_Permutation in Hb. apply list_elem_of_In, filter_In in Hb as [Hb _].
    apply list_elem_of_In in Hb. rewrite Hrows in Hb. apply list_elem_of_fmap in Hb as ([k' b'] & -> & Hb).
    apply elem_of_map_to_list in Hb. simpl. unfold Postgres.by_id. rewrite (Hk _ _ Ha), (Hk _ _ Hb).
    intros ? ?. assert (k = k') as -> by lia. congruence.
  - apply RelaySpec.sorted_filter. eapply sorted_weaken; [|apply RelaySpec.omap_keys; [done|]].
    + unfold RelaySpec.row_le, Postgres.by_id. intros; lia.
    + apply RelaySpec.sorted_strict; [apply StronglySorted_merge_sort; apply _|].
      rewrite merge_sort_Permutation, Hids. apply NoDup_fst_map_to_list.
  - apply StronglySorted_merge_sort; [intros a b c|intros a b]; unfold Postgres.by_id; lia.
  - rewrite !merge_sort_Permutation. apply filter_Permutation. rewrite Hrows, Hids.
    rewrite omap_values; [done|]. intros k v. by rewrite elem_of_map_to_list.
Qed.

Lemma FetchAndLockPendingOutbox_agrees shards limit w :
  keyed (db w) → 0 ≤ limit →
  same_effect (Postgres.FetchAndLockPendingOutbox shards limit)
    (Memory.FetchAndLockPendingOutbox shards limit) w.
Proof.
  intros Hk Hl. unfold Postgres.FetchAndLockPendingOutbox, Memory.FetchAndLockPendingOutbox, same_effect. pg.
  unfold Postgres.select, Memory.range_values. pg. simpl. unfold Postgres.limit_to.
  rewrite (proj2 (Z.ltb_ge _ _)) by lia. split; [|done]. simpl.
  rewrite RelaySpec.collect_take by (simpl; lia). simpl. rewrite Nat.sub_0_r. do 2 f_equal. symmetry.
  apply outbox_order; [apply Hk|apply range_order_perm..].
Qed.

Lemma ListRunningRunsForShards_agrees l w :
  same_effect (Postgres.ListRunningRunsForShards (Some l)) (Memory.ListRunningRunsForShards (Some l)) w.
Proof. done. Qed.

(** * The methods as calls *)

(** The calls on which the stores can agree, with the types of their answers.  Not among
    them: [ListDueTimers] and [ReapExpiredAttempts] (the memory store picks rows in no
    particular order when there are more than the limit), [CreateWorkflowDefinition] (its
    identifier is drawn at another time), [GetLatestWorkflowDefinition] and
    [ListWorkflowDefinitions] (order among equals), [AppendHistory] and [ListHistory] (ids of
    events). *)
Inductive call : Type → Type :=
| GetRun (id : uuid) : call WorkflowRun.t
| GetOneStep (id : uuid) : call Step.t
| GetAllSteps (run : uuid) : call (list Step.t)
| GetAttempt (id : uuid) : call TaskAttempt.t
| GetAttempts (step : uuid) : call (list TaskAttempt.t)
| GetSignals (run : uuid) : call (list Signal.t)
| GetDefinition (name : string) (version : Z) : call WorkflowDefinition.t
| ListRuns (f : RunFilter.t) : call (list WorkflowRun.t)
| ListUnfinished (shards : list Z) : call (list WorkflowRun.t)
| FetchOutbox (shards : option (list Z)) (limit : Z) : call (list OutboxMessage.t)
| SetRun (id : uuid) (expected : list RunStatus) (next : RunStatus) (out : RawMessage)
    (err : option string) : call bool
| SetStep (id : uuid) (expected : list StepStatus) (next : StepStatus) (out : RawMessage)
    (err : option string) (bump : bool) : call bool
| ClaimAttempt (id key : uuid) (worker : string) (lease : Z) : call (option TaskAttempt.t * ClaimResult)
| HeartbeatAttempt (id : uuid) (worker : string) (lease : Z) : call (option time * bool)
| CompleteAttempt (id : uuid) (worker : string) (success : bool) (out : RawMessage)
    (err : option string) : call (option TaskAttempt.t * bool)
| PublishOutbox (id : Z) : call unit
| FireTimer (id : uuid) : call (option Timer.t * bool)
| CancelTimers (run : uuid) : call unit
| ProcessSignal (id : uuid) : call bool
| AddRun (id def : uuid) (name : string) (version shard : Z) (input : RawMessage) : call WorkflowRun.t
| AddSteps (run : uuid) (nss : list NewStep.t) : call (list Step.t)
| AddAttempt (step run : uuid) (number : Z) (queue : string) : call TaskAttempt.t
| AddOutbox (msg : NewOutboxMessage.t) : call Z
| AddTimer (nt : NewTimer.t) : call Timer.t
| AddSignal (run : uuid) (name : string) (payload : RawMessage) : call Signal.t.

Definition run_call {A} (Q : Queries) (c : call A) : GoM World A :=
  match c with
  | GetRun id => GetWorkflowRun id
  | GetOneStep id => GetStep id
  | GetAllSteps run => GetSteps run
  | GetAttempt id => GetTaskAttempt id
  | GetAttempts step => ListTaskAttemptsForStep step
  | GetSignals run => ListUnprocessedSignals run
  | GetDefinition name version => GetWorkflowDefinition name version
  | ListRuns f => ListWorkflowRuns f
  | ListUnfinished shards => ListRunningRunsForShards (Some shards)
  | FetchOutbox shards limit => FetchAndLockPendingOutbox shards limit
  | SetRun id expected next out err => UpdateWorkflowRunStatus id expected next out err
  | SetStep id expected next out err bump => UpdateStepStatus id expected next out err bump
  | ClaimAttempt id key worker lease => ClaimTaskAttempt id key worker lease
  | HeartbeatAttempt id worker lease => HeartbeatTaskAttempt id worker lease
  | CompleteAttempt id worker success out err => CompleteTaskAttempt id worker success out err
  | PublishOutbox id => MarkOutboxPublished id
  | FireTimer id => FireTimerCAS id
  | CancelTimers run => CancelTimersForRun run
  | ProcessSignal id => MarkSignalProcessed id
  | AddRun id def name version shard input => CreateWorkflowRun id def name version shard input
  | AddSteps run nss => CreateSteps run nss
  | AddAttempt step run number queue => CreateTaskAttempt step run number queue
  | AddOutbox msg => InsertOutboxMessage msg
  | AddTimer nt => InsertTimer nt
  | AddSignal run name payload => InsertSignal run name payload
  end.

(** What the call must satisfy for the schema to accept it: parameters that can be stored,
    referenced rows that exist, keys that are new.  A lease claimed by [ClaimTaskAttempt]
    runs from the same instant in both stores; only an attempt that exists and has no result
    yet can be completed alike; runs are listed with a positive limit. *)
Definition fits {A} (c : call A) (w : World) : Prop :=
  let d := db w in
  match c with
  | GetDefinition name version => text_ok name = true ∧ Postgres.in_int32 version = true
  | ListRuns f => storable_text (RunFilter.Name f) ∧ 0 < RunFilter.Limit f ∧ 0 ≤ RunFilter.Offset f
  | FetchOutbox _ limit => 0 ≤ limit
  | SetRun _ _ _ out err => storable out ∧ storable_text err
  | SetStep id _ _ out err _ => storable out ∧ storable_text err ∧
      ∀ s, steps d !! id = Some s → Postgres.in_int32 (Step.AttemptCount s + 1) = true
  | ClaimAttempt _ _ worker lease => text_ok worker = true ∧ interval_seconds lease = lease ∧
      ∃ t, instant t
  | HeartbeatAttempt _ worker lease => text_ok worker = true ∧ interval_seconds lease = lease
  | CompleteAttempt id worker _ out err => text_ok worker = true ∧ storable out ∧ storable_text err ∧
      ∃ a, attempts d !! id = Some a ∧ TaskAttempt.Result a = None
  | AddRun id def name version shard input =>
      runs d !! id = None ∧ is_Some (definitions d !! def) ∧ text_ok name = true ∧
      Postgres.in_int32 version = true ∧ Postgres.in_int32 shard = true ∧ storable_notnull input
  | AddSteps run nss => Worlds.uuid_unique ∧ is_Some (runs d !! run) ∧
      Forall (step_fits run d) nss ∧ NoDup (NewStep.StepName <$> nss)
  | AddAttempt step run number queue =>
      Postgres.in_int32 number = true ∧ text_ok queue = true ∧ is_Some (steps d !! step) ∧
      is_Some (runs d !! run) ∧
      ∀ k a, attempts d !! k = Some a → TaskAttempt.StepID a = step → TaskAttempt.AttemptNumber a ≠ number
  | AddOutbox msg =>
      text_ok (NewOutboxMessage.AggregateType msg) = true ∧ text_ok (NewOutboxMessage.StreamName msg) = true ∧
      Postgres.in_int32 (NewOutboxMessage.ShardID msg) = true ∧
      (∀ w, Postgres.payload_column (NewOutboxMessage.Payload msg) w = (Ok (NewOutboxMessage.Payload msg), w)) ∧
      outbox d !! (nextOutboxID d + 1) = None
  | AddTimer nt =>
      Postgres.in_int32 (NewTimer.ShardID nt) = true ∧ storable_notnull (NewTimer.Payload nt) ∧
      timestamptz (NewTimer.FireAt nt) = NewTimer.FireAt nt ∧
      is_Some (runs d !! NewTimer.WorkflowRunID nt) ∧
      ∀ s, NewTimer.StepID nt = Some s → is_Some (steps d !! s)
  | AddSignal run name payload =>
      text_ok name = true ∧ storable_notnull payload ∧ is_Some (runs d !! run)
  | _ => True
  end.

(** C33.  The two stores agree where the call fits: for each call of [call] (the lookups by key,
    the lists of a run's steps, signals and attempts, of runs and of outbox rows to send, every
    compare-and-set update, and the insertion of runs, steps, attempts, outbox rows, timers
    and signals), the SQL statement gives the same answer and leaves the same tables as the Go
    code of the memory store, provided that
    - the rows are stored under their ids and the identifiers to come are unused;
    - the texts, integers and durations of the call can be stored and its JSON is kept by JSONB
      as it is;
    - the rows an insertion refers to exist, and its keys are new;
    - a limit is positive (not negative, for outbox rows), an offset not negative;
    - an attempt to be completed exists and has no result yet;
    - for a claim, the clock does not move during the call ([fits]). *)
Theorem stores_agree {A} (c : call A) w :
  keyed (db w) → fresh_ids w → fits c w →
  same_effect (run_call Postgres.postgres_queries c) (run_call Memory.memory_queries c) w.
Proof.
  intros Hk Hf Hc. destruct c; simpl in Hc; destruct_and?; try done.
  - by apply GetWorkflowRun_agrees.
  - by apply GetStep_agrees.
  - by apply GetTaskAttempt_agrees.
  - by apply GetWorkflowDefinition_agrees.
  - by apply ListWorkflowRuns_agrees.
  - by apply FetchAndLockPendingOutbox_agrees.
  - by apply UpdateWorkflowRunStatus_agrees.
  - by apply UpdateStepStatus_agrees.
  - pick. by eapply ClaimTaskAttempt_agrees.
  - by apply HeartbeatTaskAttempt_agrees.
  - pick. destruct_and?. by eapply CompleteTaskAttempt_agrees.
  - by apply MarkOutboxPublished_agrees.
  - by apply FireTimerCAS_agrees.
  - by apply MarkSignalProcessed_agrees.
  - by apply CreateWorkflowRun_agrees.
  - unfold same_effect. simpl. unfold Postgres.CreateSteps, Memory.CreateSteps. by rewrite CreateSteps_eq.
  - by apply CreateTaskAttempt_agrees.
  - by apply InsertOutboxMessage_agrees.
  - by apply InsertTimer_agrees.
  - by apply InsertSignal_agrees.
Qed.
End agreement.

(** * Transactions *)

Section transactions.
Context {E : Env} {P : Pg}.
#[local] Existing Instance Postgres.postgres_store.

(** Only the sequence of outbox ids may have advanced. *)
Definition unchanged (d d' : Tables) : Prop := d' = Postgres.rolled_back d d'.

Definition traceless {A} (m : GoM World A) : Prop :=
  ∀ w e w', m w = (Err e, w') → unchanged (db w) (db w').

Lemma traceless_WithTx {A} (m : GoM World A) : traceless (Postgres.WithTx m).
Proof.
  intros w e w'. unfold Postgres.WithTx. destruct (m w) as [[a|e'] w1]; [done|].
  intros [= <- <-]. unfold unchanged. by destruct (db w), (db w1).
Qed.

(** A program that writes nothing, and one followed by it. *)
Definition reads {A} (m : GoM World A) : Prop := ∀ w, db (m w).2 = db w.

Lemma readonly_bind {A B} (m : GoM World A) (f : A → GoM World B) :
  reads m → (∀ a, reads (f a)) → reads (m ≫= f).
Proof.
  intros Hm Hf w. unfold mbind, GoM_bind. specialize (Hm w). destruct (m w) as [[a|e] w1]; [|done].
  rewrite Hf. done.
Qed.
Lemma readonly_wrapped {A} (m : GoM World A) : reads m → reads (Postgres.wrapped m).
Proof. intros Hm w. unfold Postgres.wrapped. specialize (Hm w). by destruct (m w) as [[a|e] w1]. Qed.
Lemma readonly_wrap_err {A} msg (m : GoM World A) : reads m → reads (Engine.wrap_err msg m).
Proof. intros Hm w. unfold Engine.wrap_err. specialize (Hm w). by destruct (m w) as [[a|e] w1]. Qed.
Lemma readonly_check {A} (o : option A) : reads (Postgres.check o).
Proof. by destruct o. Qed.
Lemma readonly_select {K V} `{Countable K} (table : Tables → gmap K V) p : reads (Postgres.select table p).
Proof. done. Qed.
Lemma readonly_first {V} (l : list V) : reads (Postgres.first_row l).
Proof. by destruct l. Qed.
Lemma readonly_limit {V} n (l : list V) : reads (Postgres.limit_to n l).
Proof. intros w. unfold Postgres.limit_to. by destruct (n <? 0). Qed.

Lemma traceless_reads {A B} (m : GoM World A) (f : A → GoM World B) :
  reads m → (∀ a, traceless (f a)) → traceless (m ≫= f).
Proof.
  intros Hm Hf w e w'. unfold mbind, GoM_bind. specialize (Hm w). destruct (m w) as [[a|e'] w1]; simpl in Hm.
  - rewrite <-Hm. apply Hf.
  - intros [= <- <-]. rewrite Hm. by destruct (db w).
Qed.

Lemma traceless_insert {K V} `{Countable K} (table : Tables → gmap K V) set_table k v clash :
  traceless (Postgres.insert_row table set_table k v clash).
Proof.
  intros w e w'. unfold Postgres.insert_row, mbind, GoM_bind, gets.
  match goal with |- context [if ?c then _ else _] => destruct c end; [|done].
  intros [= <- <-]. by destruct (db w).
Qed.

Lemma traceless_wrapped {A} (m : GoM World A) : traceless m → traceless (Postgres.wrapped m).
Proof.
  intros Hm w e w'. unfold Postgres.wrapped. destruct (m w) as [[a|e'] w1] eqn:Em; [done|].
  intros [= <- <-]. by eapply Hm.
Qed.

(** ** Rows of a run are never deleted *)

Section keeps.
Context (id : uuid).

Definition has_run (d : Tables) : Prop := ∃ k r, runs d !! k = Some r ∧ WorkflowRun.ID r = id.
Definition keeps {A} (m : GoM World A) : Prop := ∀ w, has_run (db w) → has_run (db (m w).2).

Lemma keeps_bind {A B} (m : GoM World A) (f : A → GoM World B) :
  keeps m → (∀ a, keeps (f a)) → keeps (m ≫= f).
Proof.
  intros Hm Hf w Hw. unfold mbind, GoM_bind. specialize (Hm w Hw). destruct (m w) as [[a|e] w1]; [|done].
  by apply Hf.
Qed.
Lemma keeps_ret {A} (a : A) : keeps (mret a).
Proof. by intros w. Qed.
Lemma keeps_fail {A} e : keeps (fail (A:=A) e).
Proof. by intros w. Qed.
Lemma keeps_reads {A} (m : GoM World A) : reads m → keeps m.
Proof. intros Hm w. by rewrite Hm. Qed.
Lemma keeps_catch {A} (m : GoM World A) : keeps m → keeps (catch m).
Proof. intros Hm w Hw. unfold catch. specialize (Hm w Hw). by destruct (m w) as [[a|e] w1]. Qed.
Lemma keeps_wrap_err {A} msg (m : GoM World A) : keeps m → keeps (Engine.wrap_err msg m).
Proof. intros Hm w Hw. unfold Engine.wrap_err. specialize (Hm w Hw). by destruct (m w) as [[a|e] w1]. Qed.
Lemma keeps_foldM {A B} (f : B → A → GoM World B) b l : (∀ b a, keeps (f b a)) → keeps (foldM f b l).
Proof.
  intros Hf. revert b. induction l as [|a l IH]; intros b; [apply keeps_ret|].
  apply keeps_bind; [apply Hf|apply IH].
Qed.
Lemma keeps_set_db f : (∀ d, runs (f d) = runs d) → keeps (set_db f).
Proof. intros Hf w (k & r & Hr & Hid). exists k, r. simpl. by rewrite Hf. Qed.

Lemma keeps_update {K V} `{Countable K} (table : Tables → gmap K V) set_table p f :
  (∀ g d, runs (set_table g d) = runs d) → keeps (Postgres.update table set_table p f).
Proof. intros Hs w (k & r & Hr & Hid). exists k, r. simpl. by rewrite Hs. Qed.

Lemma keeps_update_runs p f : (∀ r, WorkflowRun.ID (f r) = WorkflowRun.ID r) →
  keeps (Postgres.update runs set_runs p f).
Proof.
  intros Hf w (k & r & Hr & Hid). exists k, (if p r then f r else r). simpl. rewrite lookup_fmap, Hr.
  split; [done|]. destruct (p r); [by rewrite Hf|done].
Qed.

Lemma keeps_insert {K V} `{Countable K} (table : Tables → gmap K V) set_table k v clash :
  (∀ g d, runs (set_table g d) = runs d) → keeps (Postgres.insert_row table set_table k v clash).
Proof.
  intros Hs w (k' & r & Hr & Hid). exists k', r. unfold Postgres.insert_row, mbind, GoM_bind, gets.
  match goal with |- context [if ?c then _ else _] => destruct c end; [done|]. simpl. by rewrite Hs.
Qed.

Lemma keeps_references {K V} `{Countable K} (table : Tables → gmap K V) k : keeps (Postgres.references table k).
Proof. intros w. unfold Postgres.references, mbind, GoM_bind, gets. by case_bool_decide. Qed.
End keeps.

Create HintDb keeps.
#[local] Hint Resolve keeps_ret keeps_fail keeps_catch keeps_wrap_err keeps_references : keeps.
#[local] Hint Extern 1 (keeps _ (Postgres.update runs _ _ _)) => apply keeps_update_runs; done : keeps.
#[local] Hint Extern 2 (keeps _ (Postgres.update _ _ _ _)) => apply keeps_update; done : keeps.
#[local] Hint Extern 1 (keeps _ (Postgres.insert_row _ _ _ _ _)) => apply keeps_insert; done : keeps.
#[local] Hint Extern 1 (keeps _ (set_db _)) => apply keeps_set_db; done : keeps.
#[local] Hint Extern 3 (keeps _ _) => apply keeps_reads; done : keeps.

(** Follows the program: sequencing, loops and case distinctions. *)
Ltac keeps_step :=
  match goal with
  | |- keeps _ (_ ≫= _) => apply keeps_bind; [|intros ?]
  | |- keeps _ (foldM _ _ _) => apply keeps_foldM; intros ? ?
  | |- keeps _ (match ?x with _ => _ end) => destruct x
  | |- keeps _ (let _ := _ in _) => cbv zeta
  | |- keeps _ (Postgres.check _) => apply keeps_reads, readonly_check
  | |- keeps _ (Postgres.payload_column _) => apply keeps_reads, readonly_check
  | |- _ => solve [eauto 3 with keeps]
  end.
Ltac keeps := repeat keeps_step.

Lemma keeps_text id s : keeps id (Postgres.text s).
Proof. apply keeps_reads, readonly_check. Qed.
Lemma keeps_int4 id z : keeps id (Postgres.int4 z).
Proof. apply keeps_reads, readonly_check. Qed.
Lemma keeps_notnull id b : keeps id (Postgres.jsonb_notnull b).
Proof. apply keeps_reads, readonly_check. Qed.
Lemma keeps_null id b : keeps id (Postgres.jsonb_null b).
Proof. apply keeps_reads. destruct b; [apply readonly_check|done]. Qed.
Lemma keeps_nullable id s : keeps id (Postgres.nullable_text s).
Proof. destruct s; unfold Postgres.nullable_text; keeps. apply keeps_text. Qed.
#[local] Hint Resolve keeps_text keeps_int4 keeps_notnull keeps_null keeps_nullable : keeps.

Lemma keeps_UpdateStepStatus id i ex nx o e b : keeps id (UpdateStepStatus i ex nx o e b).
Proof. simpl. unfold Postgres.UpdateStepStatus. keeps. Qed.
Lemma keeps_UpdateRun id i ex nx o e : keeps id (UpdateWorkflowRunStatus i ex nx o e).
Proof. simpl. unfold Postgres.UpdateWorkflowRunStatus. keeps. Qed.
Lemma keeps_AppendHistory id i ev p : keeps id (AppendHistory i ev p).
Proof. simpl. unfold Postgres.AppendHistory. keeps. apply keeps_reads, readonly_first. Qed.
Lemma keeps_CreateTaskAttempt id s r n q : keeps id (CreateTaskAttempt s r n q).
Proof. simpl. unfold Postgres.CreateTaskAttempt. keeps. Qed.
Lemma keeps_InsertOutbox id m : keeps id (InsertOutboxMessage m).
Proof. simpl. unfold Postgres.InsertOutboxMessage. keeps. Qed.
Lemma keeps_MarkSignal id s : keeps id (MarkSignalProcessed s).
Proof. simpl. unfold Postgres.MarkSignalProcessed. keeps. Qed.
Lemma keeps_CancelTimers id r : keeps id (CancelTimersForRun r).
Proof. simpl. unfold Postgres.CancelTimersForRun. keeps. Qed.
Lemma keeps_ListSignals id r : keeps id (ListUnprocessedSignals r).
Proof. simpl. unfold Postgres.ListUnprocessedSignals. keeps. Qed.
Lemma keeps_CreateSteps id r nss : keeps id (CreateSteps r nss).
Proof.
  simpl. unfold Postgres.CreateSteps, Postgres.CreateStep, Postgres.scan_depends_on. keeps.
Qed.
#[local] Hint Resolve keeps_UpdateStepStatus keeps_UpdateRun keeps_AppendHistory keeps_CreateTaskAttempt
  keeps_InsertOutbox keeps_MarkSignal keeps_CancelTimers keeps_ListSignals keeps_CreateSteps : keeps.

Lemma keeps_skips id run fuel rs : keeps id (Engine.skip_passes run fuel rs).
Proof.
  revert rs. induction fuel as [|fuel IH]; intros rs; [apply keeps_ret|]. cbn [Engine.skip_passes].
  unfold Engine.skip_one. keeps.
Qed.

Lemma keeps_signal_wait id run s : keeps id (Engine.tryResolveSignalWait run s).
Proof.
  unfold Engine.tryResolveSignalWait. keeps_step; [keeps|].
  match goal with l : list Signal.t |- _ => induction l as [|sig l IH] end; [apply keeps_ret|].
  cbn [Engine.try_signals]. keeps; apply IH.
Qed.

Lemma keeps_dispatchStep id run s from : keeps id (Engine.dispatchStep run s from).
Proof. unfold Engine.dispatchStep. keeps. Qed.
#[local] Hint Resolve keeps_skips keeps_signal_wait keeps_dispatchStep : keeps.

Lemma keeps_dispatchReady id run rs : keeps id (Engine.dispatchReady run rs).
Proof. unfold Engine.dispatchReady, Engine.resolve_one, Engine.dispatch_one. keeps. Qed.

Lemma keeps_completion id run rs : keeps id (Engine.checkRunCompletion run rs).
Proof. unfold Engine.checkRunCompletion, Engine.finish_run. keeps. Qed.
#[local] Hint Resolve keeps_dispatchReady keeps_completion : keeps.

Lemma keeps_reconcileTx id run ss : keeps id (Engine.reconcileTx run ss).
Proof. unfold Engine.reconcileTx, Engine.propagateSkips. keeps. Qed.

Lemma has_run_get id w : has_run id (db w) → ∃ r w', GetWorkflowRun id w = (Ok r, w').
Proof.
  intros (k & r & Hr & Hid). simpl.
  unfold Postgres.GetWorkflowRun, Postgres.wrapped, Postgres.select, Memory.range_values. pg. simpl.
  destruct (List.filter _ _) as [|r' l] eqn:Ef; [|by repeat eexists].
  assert (r ∈ List.filter (λ r, WorkflowRun.ID r =? id)%N
    (range_order (tick w) (map_to_list (runs (db w))).*2)) as Hin; [|rewrite Ef in Hin; by apply not_elem_of_nil in Hin].
  apply list_elem_of_In, filter_In. split; [|by apply N.eqb_eq]. apply list_elem_of_In.
  rewrite range_order_perm. apply list_elem_of_fmap. exists (k, r). split; [done|]. by apply elem_of_map_to_list.
Qed.

Lemma traceless_then {A B} (m : GoM World A) (f : A → GoM World B) :
  (∀ w a w', m w = (Ok a, w') → ∃ b w'', f a w' = (Ok b, w'')) →
  traceless (Postgres.WithTx m ≫= f).
Proof.
  intros Hf w e w'. unfold mbind, GoM_bind. pose proof (traceless_WithTx m w) as Ht.
  unfold Postgres.WithTx in *. destruct (m w) as [[a|e'] w1] eqn:Em.
  - destruct (Hf _ _ _ Em) as (b & w2 & ->). done.
  - intros [= <- <-]. by eapply Ht.
Qed.

Lemma insert_run_inv id r w a w' :
  Postgres.insert_row runs set_runs id r (λ _, false) w = (Ok a, w') →
  a = r ∧ has_run (WorkflowRun.ID r) (db w').
Proof.
  unfold Postgres.insert_row, mbind, GoM_bind, gets.
  match goal with |- context [if ?c then _ else _] => destruct c end; [done|]. simpl.
  intros [= <- <-]. split; [done|]. exists id, r. simpl. by rewrite lookup_insert_eq.
Qed.

Lemma bind_inv {A B} (m : GoM World A) (f : A → GoM World B) w b w' :
  (m ≫= f) w = (Ok b, w') → ∃ a w1, m w = (Ok a, w1) ∧ f a w1 = (Ok b, w').
Proof. unfold mbind, GoM_bind. destruct (m w) as [[a|e] w1]; [eauto|done]. Qed.

Ltac inv_bind H := apply bind_inv in H as (? & ? & _ & H).

Lemma CreateWorkflowRun_inv id def name version shard input w r w' :
  CreateWorkflowRun id def name version shard input w = (Ok r, w') →
  WorkflowRun.ID r = id ∧ has_run id (db w').
Proof.
  simpl. unfold Postgres.CreateWorkflowRun. intros Hc. do 6 inv_bind Hc.
  by apply insert_run_inv in Hc as [-> Hc].
Qed.

Lemma traceless_CreateRun name version input : traceless (Engine.CreateRun name version input).
Proof.
  unfold Engine.CreateRun. apply traceless_reads.
  { unfold Engine.lookup_definition. apply readonly_wrap_err.
    destruct (0 <? version); simpl;
      [unfold Postgres.GetWorkflowDefinition|unfold Postgres.GetLatestWorkflowDefinition];
      apply readonly_wrapped; repeat first
        [apply readonly_check|apply readonly_select|apply readonly_first|apply readonly_limit|apply readonly_bind; [|intros ?]]. }
  intros def. destruct (Workflowdsl.unmarshal_Definition _) as [parsed|];
    [|intros w e w' [= <- <-]; by destruct (db w)].
  apply traceless_then. intros w rid w' Hm. apply has_run_get.
  inv_bind Hm. apply bind_inv in Hm as (run & w1 & Hc & Hm).
  apply CreateWorkflowRun_inv in Hc as [Hid Hrun]. rewrite <-Hid in Hrun.
  match type of Hm with ?m _ = _ => assert (keeps (WorkflowRun.ID run) m) as Hkeep end.
  { keeps_step; [keeps|]. keeps_step; [keeps|]. keeps_step; [apply keeps_reconcileTx|keeps]. }
  specialize (Hkeep w1 Hrun). rewrite Hm in Hkeep.
  do 3 inv_bind Hm. injection Hm as <- <-. done.
Qed.

(** Over PostgreSQL a request that fails leaves no trace: registering a definition,
    creating a run, reconciling, recording a result, firing a timer, signalling and
    cancelling either succeed or leave every row as it was (only the sequence of outbox
    ids may have advanced). *)
Theorem failed_requests_leave_no_trace :
  (∀ def, traceless (Engine.RegisterDefinition def)) ∧
  (∀ name version input, traceless (Engine.CreateRun name version input)) ∧
  (∀ run, traceless (Engine.Reconcile run)) ∧
  (∀ attempt worker success output err,
     traceless (Engine.HandleTaskResult attempt worker success output err)) ∧
  (∀ timer, traceless (Engine.HandleFiredTimer timer)) ∧
  (∀ run name payload, traceless (Engine.ApplySignal run name payload)) ∧
  (∀ run, traceless (Engine.CancelRun run)).
Proof.
  split_and!; try (intros; apply traceless_WithTx).
  - intros def w e w'. unfold Engine.RegisterDefinition.
    destruct (Workflowdsl.Validate def) as [def' [e'|]]; [intros [= <- <-]; by destruct (db w)|].
    destruct (Workflowdsl.ToJSON def'); [|intros [= <- <-]; by destruct (db w)].
    revert w e w'. apply traceless_wrapped. do 5 (apply traceless_reads; [apply readonly_check || done|intros ?]).
    apply traceless_insert.
  - apply traceless_CreateRun.
  - intros run name payload. unfold Engine.ApplySignal. destruct (decide _); apply traceless_WithTx.
Qed.

(** Recovery of a single server over PostgreSQL finds no run: [RecoverShards] with nil
    shard ids reconciles nothing and changes nothing, whatever the tables hold.  The memory
    store lists every unfinished run for the same argument. *)
Theorem recovery_recovers_nothing w :
  (∃ w', Engine.RecoverShards None w = (Ok 0, w') ∧ db w' = db w) ∧
  (∃ rows w', Memory.ListRunningRunsForShards None w = (Ok rows, w') ∧
     ∀ k r, runs (db w) !! k = Some r → WorkflowRun.Status r ∈ [RunPending; RunRunning] → r ∈ rows).
Proof.
  split.
  - unfold Engine.RecoverShards. simpl. unfold Postgres.ListRunningRunsForShards, Postgres.select, Memory.range_values.
    pg. simpl. rewrite filter_none; [by eexists|]. intros r _. unfold Postgres.any_of. simpl.
    by rewrite andb_false_r.
  - unfold Memory.ListRunningRunsForShards, Memory.range_values. pg. simpl. do 2 eexists. split; [done|].
    intros k r Hr Hst. apply list_elem_of_In, filter_In. split.
    + apply list_elem_of_In. rewrite range_order_perm. apply list_elem_of_fmap.
      exists (k, r). split; [done|]. by apply elem_of_map_to_list.
    + rewrite andb_true_r. set_unfold in Hst. destruct Hst as [->|[->|[]]]; done.
Qed.
End transactions.

(** * A concrete PostgreSQL *)

(** Stores every document, string and time exactly. *)
Definition exact_pg : Pg := {|
  jsonb := Some; text_ok _ := true; text_le a b := bool_decide (String.compare a b ≠ Gt);
  timestamptz t := t; interval_seconds z := z; history_serial n := Z.of_nat n
|}.

Definition keyed_rows {K V} `{Countable K} (ID : V → K) (m : gmap K V) : bool :=
  bool_decide (map_Forall (λ k v, ID v = k) m).

Lemma keyed_compute d :
  keyed_rows WorkflowRun.ID (runs d) && keyed_rows Step.ID (steps d) &&
  keyed_rows TaskAttempt.ID (attempts d) && keyed_rows OutboxMessage.ID (outbox d) &&
  keyed_rows Timer.ID (timers d) && keyed_rows Signal.ID (signals d) = true → keyed d.
Proof.
  intros Hk. repeat (apply andb_true_iff in Hk as [Hk ?]).
  split; eapply bool_decide_eq_true_1; eassumption.
Defined.

(** The identifiers of the demo environment are consecutive. *)
Definition below {V} (n : nat) (m : gmap uuid V) : bool :=
  bool_decide (map_Forall (λ k _, (k ≤ N.of_nat n)%N) m).

Lemma below_fresh {V} n m (t : gmap uuid V) : below n t = true → (n ≤ m)%nat → t !! N.of_nat (S m) = None.
Proof.
  intros Hb%bool_decide_eq_true_1 Hle. destruct (t !! N.of_nat (S m)) eqn:Et; [|done].
  apply Hb in Et. lia.
Defined.

Lemma fresh_compute w :
  below (tick w) (definitions (db w)) && below (tick w) (steps (db w)) && below (tick w) (attempts (db w)) &&
  below (tick w) (timers (db w)) && below (tick w) (signals (db w)) = true → @fresh_ids Demo.demo_env w.
Proof.
  intros Hk n Hn. repeat (apply andb_true_iff in Hk as [Hk ?]). simpl.
  split_and!; eapply below_fresh; eassumption.
Defined.

Lemma stores_agree_witness :
  @same_effect _
    (run_call (@Postgres.postgres_queries Demo.demo_env exact_pg)
       (CompleteAttempt 15 "w1" true (Some (Text (JInt 42))) None))
    (run_call (@Memory.memory_queries Demo.demo_env) (CompleteAttempt 15 "w1" true (Some (Text (JInt 42))) None))
    (Demo.at_ Demo.claimed).
Proof.
  apply (@stores_agree Demo.demo_env exact_pg _
           (CompleteAttempt 15 "w1" true (Some (Text (JInt 42))) None) (Demo.at_ Demo.claimed)).
  - apply keyed_compute. vm_compute. reflexivity.
  - apply fresh_compute. vm_compute. reflexivity.
  - split; [reflexivity|]. split; [reflexivity|]. split; [exact I|].
    eexists. split; [vm_compute; reflexivity|reflexivity].
Defined.
End PostgresSpec.
