(* ===== verification/Columns.v ===== *)
(** The columns of internal/store/postgres: how a row of a table becomes the struct that a
    query returns.

    Postgres.v lets a statement return rows of Types.v.  Here the step in between is
    spelled out: the table stores values under column names (migrations/0001_init.sql), a
    statement lists the columns it wants, and a scan function assigns them to the fields
    of a struct by position.  The theorem is that what comes out is the row that was
    stored, for every list of columns the queries use; and that the CHECK constraints of
    the schema allow exactly the statuses of internal/store/types.go, but for that of the
    outbox, which allows one more text. *)

From stdpp Require Import gmap strings list.
From S2P Require Import Prelude GoLib Json Types Dsl Postgres.
Open Scope Z_scope.

Module Columns.

(** * Statuses as text *)

(** A Go type declared as [type T string] with a fixed list of constants. *)
Class StringEnum (A : Type) := {
  constants : list A;
  literal : A → string;
  constants_all a : a ∈ constants;
  literal_inj :: Inj (=) (=) literal
}.

(** [T(s)], for a text that is one of the constants. *)
Definition convert `{StringEnum A} (s : string) : option A :=
  head (List.filter (λ a, bool_decide (literal a = s)) constants).

Lemma convert_literal `{StringEnum A} (a : A) : convert (literal a) = Some a.
Proof.
  unfold convert. pose proof (constants_all a) as Hin. induction constants as [|b l IH]; [by apply elem_of_nil in Hin|].
  simpl. case_bool_decide as Hb; [by apply (inj literal) in Hb as ->|].
  apply IH. by apply elem_of_cons in Hin as [->|].
Qed.

Ltac enum := first [by intros []; repeat constructor | by intros [] []].

#[refine] Instance RunStatus_enum : StringEnum RunStatus := {|
  constants := [RunPending; RunRunning; RunCompleted; RunFailed; RunCancelled];
  literal s := match s with
    | RunPending => "PENDING" | RunRunning => "RUNNING" | RunCompleted => "COMPLETED"
    | RunFailed => "FAILED" | RunCancelled => "CANCELLED" end
|}.
Proof. all: enum. Defined.

#[refine] Instance StepStatus_enum : StringEnum StepStatus := {|
  constants := [StepPending; StepReady; StepQueued; StepRunning; StepRetryBackoff;
                StepCompleted; StepFailed; StepSkipped; StepCancelled; StepWaiting];
  literal s := match s with
    | StepPending => "PENDING" | StepReady => "READY" | StepQueued => "QUEUED"
    | StepRunning => "RUNNING" | StepRetryBackoff => "RETRY_BACKOFF" | StepCompleted => "COMPLETED"
    | StepFailed => "FAILED" | StepSkipped => "SKIPPED" | StepCancelled => "CANCELLED"
    | StepWaiting => "WAITING" end
|}.
Proof. all: enum. Defined.

#[refine] Instance AttemptStatus_enum : StringEnum AttemptStatus := {|
  constants := [AttemptQueued; AttemptLeased; AttemptSucceeded; AttemptFailed; AttemptExpired;
                AttemptAbandoned];
  literal s := match s with
    | AttemptQueued => "QUEUED" | AttemptLeased => "LEASED" | AttemptSucceeded => "SUCCEEDED"
    | AttemptFailed => "FAILED" | AttemptExpired => "EXPIRED" | AttemptAbandoned => "ABANDONED" end
|}.
Proof. all: enum. Defined.

#[refine] Instance TimerKind_enum : StringEnum TimerKind := {|
  constants := [TimerRetryBackoff; TimerStepTimeout; TimerUser];
  literal s := match s with
    | TimerRetryBackoff => "retry_backoff" | TimerStepTimeout => "step_timeout"
    | TimerUser => "user_timer" end
|}.
Proof. all: enum. Defined.

#[refine] Instance TimerStatus_enum : StringEnum TimerStatus := {|
  constants := [TimerPending; TimerFired; TimerCancelled];
  literal s := match s with
    | TimerPending => "PENDING" | TimerFired => "FIRED" | TimerCancelled => "CANCELLED" end
|}.
Proof. all: enum. Defined.

(** The outbox has no such type: its status is a string, of which the queries write two
    values, in [InsertOutboxMessage] and [MarkOutboxPublished]. *)
#[refine] Instance OutboxStatus_enum : StringEnum OutboxStatus := {|
  constants := [OutboxPending; OutboxPublished];
  literal s := match s with OutboxPending => "PENDING" | OutboxPublished => "PUBLISHED" end
|}.
Proof. all: enum. Defined.

(** The CHECK constraints of the schema. *)
Definition check_run_status := ["PENDING"; "RUNNING"; "COMPLETED"; "FAILED"; "CANCELLED"].
Definition check_step_status := ["PENDING"; "READY"; "QUEUED"; "RUNNING"; "RETRY_BACKOFF"; "COMPLETED";
  "FAILED"; "SKIPPED"; "CANCELLED"; "WAITING"].
Definition check_attempt_status := ["QUEUED"; "LEASED"; "SUCCEEDED"; "FAILED"; "EXPIRED"; "ABANDONED"].
Definition check_timer_kind := ["retry_backoff"; "step_timeout"; "user_timer"].
Definition check_timer_status := ["PENDING"; "FIRED"; "CANCELLED"].
Definition check_outbox_status := ["PENDING"; "PUBLISHED"; "FAILED"].

(** A column with this constraint holds exactly the texts of the constants. *)
Definition allows `{StringEnum A} (texts : list string) : Prop :=
  ∀ s, s ∈ texts ↔ ∃ a : A, literal a = s.

Lemma allows_constants `{StringEnum A} texts : literal <$> constants (A := A) = texts → allows (A := A) texts.
Proof.
  intros <- s. rewrite list_elem_of_fmap. split; [intros (a & -> & _); by exists a|].
  intros [a <-]. exists a. split; [done|apply constants_all].
Qed.

Lemma outbox_texts s : s ∈ check_outbox_status ↔ s = "FAILED" ∨ ∃ st : OutboxStatus, literal st = s.
Proof.
  unfold check_outbox_status. rewrite !elem_of_cons, elem_of_nil. split.
  - intros [->|[->|[->|[]]]]; [right; by exists OutboxPending|right; by exists OutboxPublished|by left].
  - intros [->|[[] <-]]; simpl; auto.
Qed.

(** [statusesToStrings], for [status = ANY($5)]. *)
Definition statusesToStrings (ss : list RunStatus) : list string := literal <$> ss.

Lemma statusesToStrings_any st ss : literal st ∈ statusesToStrings ss ↔ st ∈ ss.
Proof. apply (list_elem_of_fmap_inj literal). Qed.

(** The struct [OutboxMessage] of internal/store/types.go, with its payload as bytes and its
    status as text; Types.v keeps what they stand for. *)
Module OutboxRow.
Record t := mk {
  ID : Z; AggregateType : string; AggregateID : uuid; ShardID : Z; StreamName : string;
  Payload : RawMessage; Status : string; PublishAttempts : Z;
  CreatedAt : time; PublishedAt : option time
}.
End OutboxRow.

(** [doc] is the form in which the payload column keeps the document. *)
Definition outbox_row (doc : TaskPayload.t → json) (m : OutboxMessage.t) : OutboxRow.t :=
  OutboxRow.mk (OutboxMessage.ID m) (OutboxMessage.AggregateType m) (OutboxMessage.AggregateID m)
    (OutboxMessage.ShardID m) (OutboxMessage.StreamName m) (Some (Text (doc (OutboxMessage.Payload m))))
    (literal (OutboxMessage.Status m)) (OutboxMessage.PublishAttempts m) (OutboxMessage.CreatedAt m)
    (OutboxMessage.PublishedAt m).

(** * Values and scanning *)

Inductive value :=
| VNull
| VUuid (u : uuid)
| VText (s : string)
| VInt (z : Z)
| VFloat (f : float64)
| VJsonb (j : json)
| VTime (t : time)
| VBool (b : bool).

(** [Row.Scan] of github.com/jackc/pgx for the destinations the queries use: a destination
    takes a value of its type; NULL becomes a nil pointer or a nil slice. *)
Class Pgx := {
  scan_uuid : value → option uuid;
  scan_string : value → option string;
  scan_int : value → option Z;
  scan_float : value → option float64;
  scan_time : value → option time;
  scan_bool : value → option bool;
  scan_uuid_ptr : value → option (option uuid);
  scan_string_ptr : value → option (option string);
  scan_time_ptr : value → option (option time);
  scan_bytes : value → option RawMessage;
  scan_uuid_spec u : scan_uuid (VUuid u) = Some u;
  scan_string_spec s : scan_string (VText s) = Some s;
  scan_int_spec z : scan_int (VInt z) = Some z;
  scan_float_spec f : scan_float (VFloat f) = Some f;
  scan_time_spec t : scan_time (VTime t) = Some t;
  scan_bool_spec b : scan_bool (VBool b) = Some b;
  scan_uuid_ptr_spec u : scan_uuid_ptr (from_option VUuid VNull u) = Some u;
  scan_string_ptr_spec s : scan_string_ptr (from_option VText VNull s) = Some s;
  scan_time_ptr_spec t : scan_time_ptr (from_option VTime VNull t) = Some t;
  scan_bytes_null : scan_bytes VNull = Some None;
  scan_bytes_json j : scan_bytes (VJsonb j) = Some (Some (Text j))
}.

Definition scan_error : error := Errorf "can't scan into dest".

(** The error of [Scan] is the only one of a scan function, but for [scanStep]. *)
Definition or_error {A} (o : option A) : outcome A :=
  match o with Some a => Ok a | None => Err scan_error end.

Section scans.
Context `{Pgx}.

Definition scanWorkflowDefinition (row : list value) : outcome WorkflowDefinition.t := or_error
  match row with
  | [id; name; version; dag; createdAt] =>
      id ← scan_uuid id; name ← scan_string name; version ← scan_int version;
      dag ← scan_bytes dag; createdAt ← scan_time createdAt;
      Some (WorkflowDefinition.mk id name version dag createdAt)
  | _ => None
  end.

Definition scanWorkflowRun (row : list value) : outcome WorkflowRun.t := or_error
  match row with
  | [id; definitionID; name; version; status; shardID; input; output; ctxb; error; historySeq;
     createdAt; startedAt; completedAt] =>
      id ← scan_uuid id; definitionID ← scan_uuid definitionID; name ← scan_string name;
      version ← scan_int version; status ← scan_string status; shardID ← scan_int shardID;
      input ← scan_bytes input; output ← scan_bytes output; ctxb ← scan_bytes ctxb;
      error ← scan_string_ptr error; historySeq ← scan_int historySeq;
      createdAt ← scan_time createdAt; startedAt ← scan_time_ptr startedAt;
      completedAt ← scan_time_ptr completedAt;
      status ← convert status;
      Some (WorkflowRun.mk id definitionID name version status shardID input output ctxb error
              historySeq createdAt startedAt completedAt)
  | _ => None
  end.

(** [json.Unmarshal(dependsOn, &s.DependsOn)], if there is anything to decode. *)
Definition unmarshal_depends_on (b : RawMessage) : outcome (list string) :=
  match b with
  | Some (Text j) => match dec_slice "" dec_string None j with
                     | (l, false) => Ok (default [] l)
                     | (_, true) => Err (Errorf "decode depends_on")
                     end
  | Some (Malformed _) => Err (Errorf "decode depends_on")
  | None => Ok []
  end.

Definition scanStep (row : list value) : outcome Step.t :=
  match row with
  | [id; runID; stepName; taskType; dependsOn; status; attemptCount; maxAttempts; input; output; error;
     initial; multiplier; maxBackoff; timeout; createdAt; startedAt; completedAt] =>
      match (id ← scan_uuid id; runID ← scan_uuid runID; stepName ← scan_string stepName;
        taskType ← scan_string taskType; dependsOn ← scan_bytes dependsOn; status ← scan_string status;
        attemptCount ← scan_int attemptCount; maxAttempts ← scan_int maxAttempts;
        input ← scan_bytes input; output ← scan_bytes output; error ← scan_string_ptr error;
        initial ← scan_int initial; multiplier ← scan_float multiplier; maxBackoff ← scan_int maxBackoff;
        timeout ← scan_int timeout; createdAt ← scan_time createdAt; startedAt ← scan_time_ptr startedAt;
        completedAt ← scan_time_ptr completedAt;
        status ← convert status;
        Some (dependsOn, λ deps, Step.mk id runID stepName taskType deps status attemptCount maxAttempts
          input output error initial multiplier maxBackoff timeout createdAt startedAt completedAt)) with
      | None => Err scan_error
      | Some (dependsOn, step) =>
          match unmarshal_depends_on dependsOn with
          | Ok deps => Ok (step deps)
          | Err e => Err e
          end
      end
  | _ => Err scan_error
  end.

Definition scanTaskAttempt (row : list value) : outcome TaskAttempt.t := or_error
  match row with
  | [id; stepID; runID; number; key; status; queueName; owner; expires; result; error; queuedAt;
     startedAt; completedAt] =>
      id ← scan_uuid id; stepID ← scan_uuid stepID; runID ← scan_uuid runID; number ← scan_int number;
      key ← scan_uuid key; status ← scan_string status; queueName ← scan_string queueName;
      owner ← scan_string_ptr owner; expires ← scan_time_ptr expires; result ← scan_bytes result;
      error ← scan_string_ptr error; queuedAt ← scan_time queuedAt; startedAt ← scan_time_ptr startedAt;
      completedAt ← scan_time_ptr completedAt;
      status ← convert status;
      Some (TaskAttempt.mk id stepID runID number key status queueName owner expires result error
              queuedAt startedAt completedAt)
  | _ => None
  end.

Definition scanTimer (row : list value) : outcome Timer.t := or_error
  match row with
  | [id; runID; stepID; shardID; kind; status; payload; fireAt; createdAt; firedAt] =>
      id ← scan_uuid id; runID ← scan_uuid runID; stepID ← scan_uuid_ptr stepID;
      shardID ← scan_int shardID; kind ← scan_string kind; status ← scan_string status;
      payload ← scan_bytes payload; fireAt ← scan_time fireAt; createdAt ← scan_time createdAt;
      firedAt ← scan_time_ptr firedAt;
      kind ← convert kind; status ← convert status;
      Some (Timer.mk id runID stepID shardID kind status payload fireAt createdAt firedAt)
  | _ => None
  end.

Definition scanSignal (row : list value) : outcome Signal.t := or_error
  match row with
  | [id; runID; name; payload; processed; receivedAt] =>
      id ← scan_uuid id; runID ← scan_uuid runID; name ← scan_string name;
      payload ← scan_bytes payload; processed ← scan_bool processed; receivedAt ← scan_time receivedAt;
      Some (Signal.mk id runID name payload processed receivedAt)
  | _ => None
  end.

(** The destinations of [AppendHistory] and [ListHistory]. *)
Definition scan_history (row : list value) : outcome HistoryEvent.t := or_error
  match row with
  | [id; runID; seq; eventType; p; createdAt] =>
      id ← scan_int id; runID ← scan_uuid runID; seq ← scan_int seq; eventType ← scan_string eventType;
      p ← scan_bytes p; createdAt ← scan_time createdAt;
      Some (HistoryEvent.mk id runID seq eventType p createdAt)
  | _ => None
  end.

(** The destinations of [FetchAndLockPendingOutbox]. *)
Definition scan_outbox (row : list value) : outcome OutboxRow.t := or_error
  match row with
  | [id; aggregateType; aggregateID; shardID; streamName; payload; status; publishAttempts; createdAt;
     publishedAt] =>
      id ← scan_int id; aggregateType ← scan_string aggregateType; aggregateID ← scan_uuid aggregateID;
      shardID ← scan_int shardID; streamName ← scan_string streamName; payload ← scan_bytes payload;
      status ← scan_string status; publishAttempts ← scan_int publishAttempts;
      createdAt ← scan_time createdAt; publishedAt ← scan_time_ptr publishedAt;
      Some (OutboxRow.mk id aggregateType aggregateID shardID streamName payload status publishAttempts
              createdAt publishedAt)
  | _ => None
  end.
End scans.

(** * The tables of the schema *)

Fixpoint column (c : string) (cells : list (string * value)) : option value :=
  match cells with
  | [] => None
  | (k, v) :: rest => if String.eqb c k then Some v else column c rest
  end.

(** The values of the listed columns of one row. *)
Definition select (columns : list string) (cells : list (string * value)) : list value :=
  default [] (mapM (λ c, column c cells) columns).

(** A JSONB column holds a document or NULL. *)
Definition storable (raw : RawMessage) : Prop :=
  match raw with Some (Malformed _) => False | _ => True end.
Definition jsonb_cell (raw : RawMessage) : value :=
  match raw with Some (Text j) => VJsonb j | _ => VNull end.
Definition enum_cell `{StringEnum A} (a : A) : value := VText (literal a).
Definition null_uuid (u : option uuid) : value := from_option VUuid VNull u.
Definition null_text (s : option string) : value := from_option VText VNull s.
Definition null_time (t : option time) : value := from_option VTime VNull t.

Definition workflow_definitions (d : WorkflowDefinition.t) : list (string * value) :=
  [("id", VUuid (WorkflowDefinition.ID d)); ("name", VText (WorkflowDefinition.Name d));
   ("version", VInt (WorkflowDefinition.Version d)); ("dag", jsonb_cell (WorkflowDefinition.DAG d));
   ("created_at", VTime (WorkflowDefinition.CreatedAt d))].

Definition workflow_runs (r : WorkflowRun.t) : list (string * value) :=
  [("id", VUuid (WorkflowRun.ID r)); ("definition_id", VUuid (WorkflowRun.DefinitionID r));
   ("name", VText (WorkflowRun.Name r)); ("version", VInt (WorkflowRun.Version r));
   ("status", enum_cell (WorkflowRun.Status r)); ("shard_id", VInt (WorkflowRun.ShardID r));
   ("input", jsonb_cell (WorkflowRun.Input r)); ("output", jsonb_cell (WorkflowRun.Output r));
   ("context", jsonb_cell (WorkflowRun.Context r)); ("error", null_text (WorkflowRun.Error r));
   ("history_seq", VInt (WorkflowRun.HistorySeq r)); ("created_at", VTime (WorkflowRun.CreatedAt r));
   ("started_at", null_time (WorkflowRun.StartedAt r)); ("completed_at", null_time (WorkflowRun.CompletedAt r))].

(** [CreateSteps] stores [json.Marshal(ns.DependsOn)]. *)
Definition steps (s : Step.t) : list (string * value) :=
  [("id", VUuid (Step.ID s)); ("workflow_run_id", VUuid (Step.WorkflowRunID s));
   ("step_name", VText (Step.StepName s)); ("task_type", VText (Step.TaskType s));
   ("depends_on", VJsonb (JArr (JStr <$> Step.DependsOn s))); ("status", enum_cell (Step.Status s));
   ("attempt_count", VInt (Step.AttemptCount s)); ("max_attempts", VInt (Step.MaxAttempts s));
   ("input", jsonb_cell (Step.Input s)); ("output", jsonb_cell (Step.Output s));
   ("error", null_text (Step.Error s)); ("initial_backoff_ms", VInt (Step.InitialBackoffMS s));
   ("backoff_multiplier", VFloat (Step.BackoffMultiplier s)); ("max_backoff_ms", VInt (Step.MaxBackoffMS s));
   ("timeout_seconds", VInt (Step.TimeoutSeconds s)); ("created_at", VTime (Step.CreatedAt s));
   ("started_at", null_time (Step.StartedAt s)); ("completed_at", null_time (Step.CompletedAt s))].

Definition task_attempts (a : TaskAttempt.t) : list (string * value) :=
  [("id", VUuid (TaskAttempt.ID a)); ("step_id", VUuid (TaskAttempt.StepID a));
   ("workflow_run_id", VUuid (TaskAttempt.WorkflowRunID a));
   ("attempt_number", VInt (TaskAttempt.AttemptNumber a));
   ("idempotency_key", VUuid (TaskAttempt.IdempotencyKey a)); ("status", enum_cell (TaskAttempt.Status a));
   ("queue_name", VText (TaskAttempt.QueueName a)); ("lease_owner", null_text (TaskAttempt.LeaseOwner a));
   ("lease_expires_at", null_time (TaskAttempt.LeaseExpiresAt a)); ("result", jsonb_cell (TaskAttempt.Result a));
   ("error", null_text (TaskAttempt.Error a)); ("queued_at", VTime (TaskAttempt.QueuedAt a));
   ("started_at", null_time (TaskAttempt.StartedAt a)); ("completed_at", null_time (TaskAttempt.CompletedAt a))].

Definition timers (t : Timer.t) : list (string * value) :=
  [("id", VUuid (Timer.ID t)); ("workflow_run_id", VUuid (Timer.WorkflowRunID t));
   ("step_id", null_uuid (Timer.StepID t)); ("shard_id", VInt (Timer.ShardID t));
   ("kind", enum_cell (Timer.Kind t)); ("status", enum_cell (Timer.Status t));
   ("payload", jsonb_cell (Timer.Payload t)); ("fire_at", VTime (Timer.FireAt t));
   ("created_at", VTime (Timer.CreatedAt t)); ("fired_at", null_time (Timer.FiredAt t))].

Definition signals (s : Signal.t) : list (string * value) :=
  [("id", VUuid (Signal.ID s)); ("workflow_run_id", VUuid (Signal.WorkflowRunID s));
   ("signal_name", VText (Signal.SignalName s)); ("payload", jsonb_cell (Signal.Payload s));
   ("processed", VBool (Signal.Processed s)); ("received_at", VTime (Signal.ReceivedAt s))].

Definition workflow_run_history (h : HistoryEvent.t) : list (string * value) :=
  [("id", VInt (HistoryEvent.ID h)); ("workflow_run_id", VUuid (HistoryEvent.WorkflowRunID h));
   ("seq", VInt (HistoryEvent.Seq h)); ("event_type", VText (HistoryEvent.EventType h));
   ("payload", jsonb_cell (HistoryEvent.Payload h)); ("created_at", VTime (HistoryEvent.CreatedAt h))].

Definition outbox (m : OutboxRow.t) : list (string * value) :=
  [("id", VInt (OutboxRow.ID m)); ("aggregate_type", VText (OutboxRow.AggregateType m));
   ("aggregate_id", VUuid (OutboxRow.AggregateID m)); ("shard_id", VInt (OutboxRow.ShardID m));
   ("stream_name", VText (OutboxRow.StreamName m)); ("payload", jsonb_cell (OutboxRow.Payload m));
   ("status", VText (OutboxRow.Status m)); ("publish_attempts", VInt (OutboxRow.PublishAttempts m));
   ("created_at", VTime (OutboxRow.CreatedAt m)); ("published_at", null_time (OutboxRow.PublishedAt m))].

(** * The columns the statements list

    All statements on a table that return rows list the same columns in the same order. *)

Definition definition_columns := ["id"; "name"; "version"; "dag"; "created_at"].
Definition run_columns := ["id"; "definition_id"; "name"; "version"; "status"; "shard_id"; "input";
  "output"; "context"; "error"; "history_seq"; "created_at"; "started_at"; "completed_at"].
Definition step_columns := ["id"; "workflow_run_id"; "step_name"; "task_type"; "depends_on"; "status";
  "attempt_count"; "max_attempts"; "input"; "output"; "error"; "initial_backoff_ms";
  "backoff_multiplier"; "max_backoff_ms"; "timeout_seconds"; "created_at"; "started_at"; "completed_at"].
Definition attempt_columns := ["id"; "step_id"; "workflow_run_id"; "attempt_number"; "idempotency_key";
  "status"; "queue_name"; "lease_owner"; "lease_expires_at"; "result"; "error"; "queued_at";
  "started_at"; "completed_at"].
Definition timer_columns := ["id"; "workflow_run_id"; "step_id"; "shard_id"; "kind"; "status"; "payload";
  "fire_at"; "created_at"; "fired_at"].
Definition signal_columns := ["id"; "workflow_run_id"; "signal_name"; "payload"; "processed"; "received_at"].
Definition outbox_columns := ["id"; "aggregate_type"; "aggregate_id"; "shard_id"; "stream_name";
  "payload"; "status"; "publish_attempts"; "created_at"; "published_at"].
Definition history_columns := ["id"; "workflow_run_id"; "seq"; "event_type"; "payload"; "created_at"].

(** * Rows survive *)

Section roundtrip.
Context `{Pgx}.

Lemma scan_jsonb raw : storable raw → scan_bytes (jsonb_cell raw) = Some raw.
Proof. destruct raw as [[j|s]|]; simpl; [intros _; apply scan_bytes_json|done|intros _; apply scan_bytes_null]. Qed.

Lemma scan_enum `{StringEnum A} (a : A) : scan_string (enum_cell a) = Some (literal a).
Proof. apply scan_string_spec. Qed.

Lemma unmarshal_depends_on_marshal l : unmarshal_depends_on (Some (Text (JArr (JStr <$> l)))) = Ok l.
Proof.
  unfold unmarshal_depends_on. change (JArr (JStr <$> l)) with (Workflowdsl.marshal_strings (Some l)).
  by rewrite Workflowdsl.dec_strings_marshal.
Qed.

(** Reads the columns one after another. *)
Ltac scan_row :=
  unfold scanWorkflowDefinition, scanWorkflowRun, scanStep, scanTaskAttempt, scanTimer, scanSignal,
    scan_history, scan_outbox, or_error; simpl in *; cbn -[scan_uuid scan_string scan_int scan_float scan_time scan_bool scan_uuid_ptr
    scan_string_ptr scan_time_ptr scan_bytes jsonb_cell unmarshal_depends_on convert enum_cell fmap];
  repeat first
    [ rewrite scan_uuid_spec | rewrite scan_string_spec | rewrite scan_int_spec | rewrite scan_float_spec
    | rewrite scan_enum | rewrite convert_literal | rewrite scan_time_spec | rewrite scan_bool_spec | rewrite scan_bytes_json
    | rewrite scan_jsonb by done | progress (unfold null_uuid, null_text, null_time)
    | rewrite scan_uuid_ptr_spec | rewrite scan_string_ptr_spec | rewrite scan_time_ptr_spec
    | progress (unfold mbind, option_bind) ].

(** C34.  What is stored is what is read: for each of the eight tables, scanning the columns
    that the statements list gives back the stored row (every column lands in its field, NULLs
    become nil, and statuses and kinds are converted to the constants they came from),
    provided its JSON columns hold JSON.  The CHECK constraints on the statuses of runs, steps,
    attempts and timers and on the kinds of timers allow exactly the constants of the Go
    types, so that the conversion never meets another text; that of the outbox, whose status is
    a plain string in Go, allows the two texts the queries write and FAILED, which none writes. *)
Theorem rows_roundtrip :
  (∀ d, storable (WorkflowDefinition.DAG d) →
     scanWorkflowDefinition (select definition_columns (workflow_definitions d)) = Ok d) ∧
  (∀ r, storable (WorkflowRun.Input r) → storable (WorkflowRun.Output r) → storable (WorkflowRun.Context r) →
     scanWorkflowRun (select run_columns (workflow_runs r)) = Ok r) ∧
  (∀ s, storable (Step.Input s) → storable (Step.Output s) →
     scanStep (select step_columns (steps s)) = Ok s) ∧
  (∀ a, storable (TaskAttempt.Result a) →
     scanTaskAttempt (select attempt_columns (task_attempts a)) = Ok a) ∧
  (∀ t, storable (Timer.Payload t) → scanTimer (select timer_columns (timers t)) = Ok t) ∧
  (∀ s, storable (Signal.Payload s) → scanSignal (select signal_columns (signals s)) = Ok s) ∧
  (∀ h, storable (HistoryEvent.Payload h) →
     scan_history (select history_columns (workflow_run_history h)) = Ok h) ∧
  (∀ m, storable (OutboxRow.Payload m) → scan_outbox (select outbox_columns (outbox m)) = Ok m) ∧
  (∀ doc m, scan_outbox (select outbox_columns (outbox (outbox_row doc m))) = Ok (outbox_row doc m)) ∧
  (allows (A := RunStatus) check_run_status ∧ allows (A := StepStatus) check_step_status ∧
   allows (A := AttemptStatus) check_attempt_status ∧ allows (A := TimerKind) check_timer_kind ∧
   allows (A := TimerStatus) check_timer_status) ∧
  (∀ s, s ∈ check_outbox_status ↔ s = "FAILED" ∨ ∃ st : OutboxStatus, literal st = s) ∧
  (∀ st ss, literal st ∈ statusesToStrings ss ↔ st ∈ ss).
Proof.
  split_and!; try by apply allows_constants.
  - intros [] ?. scan_row. done.
  - intros [] ? ? ?. scan_row. done.
  - intros [] ? ?. scan_row. by rewrite unmarshal_depends_on_marshal.
  - intros [] ?. scan_row. done.
  - intros [] ?. scan_row. done.
  - intros [] ?. scan_row. done.
  - intros [] ?. scan_row. done.
  - intros [] ?. scan_row. done.
  - intros doc []. unfold outbox_row. scan_row. done.
  - exact outbox_texts.
  - exact statusesToStrings_any.
Qed.
End roundtrip.

(** A driver that takes values of exactly the type of the destination. *)
#[refine] Definition strict_pgx : Pgx := {|
  scan_uuid v := match v with VUuid u => Some u | _ => None end;
  scan_string v := match v with VText s => Some s | _ => None end;
  scan_int v := match v with VInt z => Some z | _ => None end;
  scan_float v := match v with VFloat f => Some f | _ => None end;
  scan_time v := match v with VTime t => Some t | _ => None end;
  scan_bool v := match v with VBool b => Some b | _ => None end;
  scan_uuid_ptr v := match v with VUuid u => Some (Some u) | VNull => Some None | _ => None end;
  scan_string_ptr v := match v with VText s => Some (Some s) | VNull => Some None | _ => None end;
  scan_time_ptr v := match v with VTime t => Some (Some t) | VNull => Some None | _ => None end;
  scan_bytes v := match v with VJsonb j => Some (Some (Text j)) | VNull => Some None | _ => None end
|}.
Proof. all: try done; by intros []. Defined.

(** A run without output, read back. *)
Lemma rows_roundtrip_witness :
  let r := WorkflowRun.mk 5 2 "etl" 1 RunRunning 7 empty_object None empty_object None 3 10 (Some 11) None in
  @scanWorkflowRun strict_pgx (select run_columns (workflow_runs r)) = Ok r.
Proof.
  cbv zeta. apply (proj1 (proj2 (@rows_roundtrip strict_pgx))); exact I.
Defined.
End Columns.
