(* ===== verification/Jsonb.v ===== *)
(** What PostgreSQL documents of the JSONB type: the stored document has the same values;
    the order of the members of an object and repeated members are not kept (the last one
    is), and a number is kept by its value.  Decoding a stored definition therefore gives
    the definition back, up to the form of the inputs, and a stored list of strings is the
    list. *)

From stdpp Require Import gmap strings list.
From Stdlib Require Import SpecFloat.
From S2P Require Import Prelude GoLib Json Types MemStore Dsl Engine Lifecycle LifecycleInv.
From S2P Require Import Worlds Contract.
Open Scope Z_scope.

Module Jsonb.
Import Contract.

(** The members of an object that count: the last one of each key. *)
Fixpoint last_wins (kvs : list (string * json)) : list (string * json) :=
  match kvs with
  | [] => []
  | kv :: kvs' => if decide (kv.1 ∈ kvs'.*1) then last_wins kvs' else kv :: last_wins kvs'
  end.

(** [j'] is the stored form of [j]. *)
#[warnings="-register-all"]
Inductive same_json : json → json → Prop :=
| Same_null : same_json JNull JNull
| Same_bool b : same_json (JBool b) (JBool b)
| Same_int z : same_json (JInt z) (JInt z)
| Same_float f : same_json (JFloat f) (JFloat f)
| Same_number f z : F64.of_Z z = f → same_json (JFloat f) (JInt z)
| Same_str s : same_json (JStr s) (JStr s)
| Same_arr l l' : Forall2 same_json l l' → same_json (JArr l) (JArr l')
| Same_obj kvs l kvs' :
    last_wins kvs ≡ₚ l → Forall2 (λ a b, a.1 = b.1 ∧ same_json a.2 b.2) l kvs' →
    same_json (JObj kvs) (JObj kvs').

Lemma last_wins_NoDup kvs : NoDup kvs.*1 → last_wins kvs = kvs.
Proof.
  induction kvs as [|kv kvs IH]; simpl; [done|]. intros [Hk Hnd]%NoDup_cons.
  rewrite decide_False by done. by rewrite IH.
Qed.

(** * Decoding does not depend on the order of the members *)

Section order.
Context {A : Type} (field : string → json → A → A * bool).

Definition step (acc : A * bool) (kv : string * json) : A * bool :=
  let '(a, e) := field kv.1 kv.2 acc.1 in (a, acc.2 || e).

(** Members of different keys among [keys] set different fields. *)
Definition independent (keys : list string) : Prop := ∀ k1 k2 v1 v2 a,
  k1 ∈ keys → k2 ∈ keys → k1 ≠ k2 →
  (field k2 v2 (field k1 v1 a).1).1 = (field k1 v1 (field k2 v2 a).1).1 ∧
  (field k1 v1 a).2 = (field k1 v1 (field k2 v2 a).1).2 ∧
  (field k2 v2 a).2 = (field k2 v2 (field k1 v1 a).1).2.

Lemma step_swap keys acc kv1 kv2 :
  independent keys → kv1.1 ∈ keys → kv2.1 ∈ keys → kv1.1 ≠ kv2.1 →
  step (step acc kv1) kv2 = step (step acc kv2) kv1.
Proof.
  intros Hind H1 H2 Hne. destruct (Hind _ _ kv1.2 kv2.2 acc.1 H1 H2 Hne) as (Ha & Hb & Hc).
  unfold step. destruct (field kv1.1 kv1.2 acc.1) as [a1 e1], (field kv2.1 kv2.2 acc.1) as [a2 e2].
  simpl in *. destruct (field kv2.1 kv2.2 a1) as [a12 e12], (field kv1.1 kv1.2 a2) as [a21 e21].
  simpl in *. subst. f_equal. by rewrite <-!orb_assoc, (orb_comm e21).
Qed.

Lemma foldl_order keys l l' :
  independent keys → l ≡ₚ l' → NoDup l.*1 → (∀ k, k ∈ l.*1 → k ∈ keys) →
  ∀ acc, foldl step acc l = foldl step acc l'.
Proof.
  intros Hind Hl. induction Hl as [|x l l' Hl IH|x y l|l1 l2 l3 Hl1 IH1 Hl2 IH2]; intros Hnd Hk acc.
  - done.
  - simpl in *. apply NoDup_cons in Hnd as [_ Hnd]. apply IH; [done|]. intros k Hin. apply Hk. by constructor.
  - simpl in *. f_equal. apply NoDup_cons in Hnd as [Hy _].
    apply (step_swap keys); [done|apply Hk; constructor|apply Hk; constructor; constructor|].
    intros E1. apply Hy. rewrite E1. constructor.
  - rewrite IH1 by done. apply IH2; [by rewrite <-Hl1|]. intros k Hin. apply Hk. by rewrite Hl1.
Qed.
End order.

(** A document whose members are [kvs], stored and decoded. *)
Lemma dec_stored {A} (field : string → json → A → A * bool) keys kvs j' a :
  independent field keys → NoDup kvs.*1 → (∀ k, k ∈ kvs.*1 → k ∈ keys) → same_json (JObj kvs) j' →
  ∃ kvs', Forall2 (λ a b, a.1 = b.1 ∧ same_json a.2 b.2) kvs kvs' ∧
    dec_struct field a j' = foldl (step field) (a, false) kvs'.
Proof.
  intros Hind Hnd Hk Hs. inversion Hs as [| | | | | | |? l kvs1 Hl Hf]; subst.
  rewrite last_wins_NoDup in Hl by done.
  destruct (Permutation_Forall2 (symmetry Hl) Hf) as (kvs' & Hp & Hf').
  exists kvs'. split; [done|]. symmetry.
  assert (kvs'.*1 = kvs.*1) as Ek.
  { clear -Hf'. induction Hf' as [|x y l l' [Hx _] _ IH]; simpl; [done|]. by f_equal. }
  apply (foldl_order _ keys); [done|done|by rewrite Ek|by rewrite Ek].
Qed.

(** * Definitions *)

Definition step_keys : list string :=
  ["name"; "type"; "depends_on"; "input"; "max_attempts"; "initial_backoff_ms"; "backoff_multiplier";
   "max_backoff_ms"; "timeout_seconds"].
Definition definition_keys : list string := ["name"; "version"; "steps"].

(** A member sets one component. *)
Section members.
Context (n t : string) (ds : option (list string)) (i : RawMessage) (m f b o : Z) (x : float64) (v : json).
Let s := StepSpec.mk n t ds i m f x b o.

Lemma member_name :
  Workflowdsl.step_field "name" v s = (StepSpec.mk (dec_string n v).1 t ds i m f x b o, (dec_string n v).2).
Proof.
  change (Workflowdsl.step_field "name" v s) with (let '(y, e) := dec_string n v in (StepSpec.mk y t ds i m f x b o, e)). by destruct (dec_string n v).
Qed.
Lemma member_type :
  Workflowdsl.step_field "type" v s = (StepSpec.mk n (dec_string t v).1 ds i m f x b o, (dec_string t v).2).
Proof.
  change (Workflowdsl.step_field "type" v s) with (let '(y, e) := dec_string t v in (StepSpec.mk n y ds i m f x b o, e)). by destruct (dec_string t v).
Qed.
Lemma member_depends_on :
  Workflowdsl.step_field "depends_on" v s = (StepSpec.mk n t (dec_slice "" dec_string ds v).1 i m f x b o, (dec_slice "" dec_string ds v).2).
Proof.
  change (Workflowdsl.step_field "depends_on" v s) with (let '(y, e) := dec_slice "" dec_string ds v in (StepSpec.mk n t y i m f x b o, e)). by destruct (dec_slice "" dec_string ds v).
Qed.
Lemma member_input :
  Workflowdsl.step_field "input" v s = (StepSpec.mk n t ds (dec_raw i v).1 m f x b o, (dec_raw i v).2).
Proof.
  change (Workflowdsl.step_field "input" v s) with (let '(y, e) := dec_raw i v in (StepSpec.mk n t ds y m f x b o, e)). by destruct (dec_raw i v).
Qed.
Lemma member_max_attempts :
  Workflowdsl.step_field "max_attempts" v s = (StepSpec.mk n t ds i (dec_int m v).1 f x b o, (dec_int m v).2).
Proof.
  change (Workflowdsl.step_field "max_attempts" v s) with (let '(y, e) := dec_int m v in (StepSpec.mk n t ds i y f x b o, e)). by destruct (dec_int m v).
Qed.
Lemma member_initial_backoff_ms :
  Workflowdsl.step_field "initial_backoff_ms" v s = (StepSpec.mk n t ds i m (dec_int f v).1 x b o, (dec_int f v).2).
Proof.
  change (Workflowdsl.step_field "initial_backoff_ms" v s) with (let '(y, e) := dec_int f v in (StepSpec.mk n t ds i m y x b o, e)). by destruct (dec_int f v).
Qed.
Lemma member_backoff_multiplier :
  Workflowdsl.step_field "backoff_multiplier" v s = (StepSpec.mk n t ds i m f (dec_float x v).1 b o, (dec_float x v).2).
Proof.
  change (Workflowdsl.step_field "backoff_multiplier" v s) with (let '(y, e) := dec_float x v in (StepSpec.mk n t ds i m f y b o, e)). by destruct (dec_float x v).
Qed.
Lemma member_max_backoff_ms :
  Workflowdsl.step_field "max_backoff_ms" v s = (StepSpec.mk n t ds i m f x (dec_int b v).1 o, (dec_int b v).2).
Proof.
  change (Workflowdsl.step_field "max_backoff_ms" v s) with (let '(y, e) := dec_int b v in (StepSpec.mk n t ds i m f x y o, e)). by destruct (dec_int b v).
Qed.
Lemma member_timeout_seconds :
  Workflowdsl.step_field "timeout_seconds" v s = (StepSpec.mk n t ds i m f x b (dec_int o v).1, (dec_int o v).2).
Proof.
  change (Workflowdsl.step_field "timeout_seconds" v s) with (let '(y, e) := dec_int o v in (StepSpec.mk n t ds i m f x b y, e)). by destruct (dec_int o v).
Qed.
End members.

Create Rewrite HintDb members.
#[local] Hint Rewrite member_name member_type member_depends_on member_input member_max_attempts member_initial_backoff_ms member_backoff_multiplier member_max_backoff_ms member_timeout_seconds : members.

(** Each pair of fields is a case. *)
Ltac one_key Hk := repeat (apply elem_of_cons in Hk as [Hk|Hk]; [|]); [..|by apply elem_of_nil in Hk].
Lemma step_independent : independent Workflowdsl.step_field step_keys.
Proof.
  intros k1 k2 v1 v2 [n t ds i m f x b o] H1 H2 Hne. unfold step_keys in *.
  one_key H1; one_key H2; subst k1 k2; try done; autorewrite with members; cbn [fst snd]; autorewrite with members; done.
Qed.

Section definition_members.
Context (n : string) (ver : Z) (ss : option (list StepSpec.t)) (v : json).

Lemma definition_name :
  Workflowdsl.definition_field "name" v (Definition_.mk n ver ss) =
    (Definition_.mk (dec_string n v).1 ver ss, (dec_string n v).2).
Proof. unfold Workflowdsl.definition_field. by destruct (dec_string n v). Qed.
Lemma definition_version :
  Workflowdsl.definition_field "version" v (Definition_.mk n ver ss) =
    (Definition_.mk n (dec_int ver v).1 ss, (dec_int ver v).2).
Proof. unfold Workflowdsl.definition_field. by destruct (dec_int ver v). Qed.
Lemma definition_steps :
  Workflowdsl.definition_field "steps" v (Definition_.mk n ver ss) =
    (Definition_.mk n ver (dec_slice Workflowdsl.zero_StepSpec (dec_struct Workflowdsl.step_field) ss v).1,
     (dec_slice Workflowdsl.zero_StepSpec (dec_struct Workflowdsl.step_field) ss v).2).
Proof. unfold Workflowdsl.definition_field. by destruct (dec_slice _ _ ss v). Qed.
End definition_members.

#[local] Hint Rewrite definition_name definition_version definition_steps : members.

Lemma definition_independent : independent Workflowdsl.definition_field definition_keys.
Proof.
  intros k1 k2 v1 v2 [n v ss] H1 H2 Hne. unfold definition_keys in *.
  one_key H1; one_key H2; subst k1 k2; try done;
    autorewrite with members; cbn [fst snd]; autorewrite with members; done.
Qed.

(** A list of strings is stored as it is. *)
Lemma stored_strings l j' : same_json (Workflowdsl.marshal_strings l) j' → j' = Workflowdsl.marshal_strings l.
Proof.
  destruct l as [l|]; simpl; intros Hs; inversion Hs as [| | | | | |? l' Hl|]; subst; [|done]. f_equal.
  clear Hs. revert l' Hl. induction l as [|x l IH]; intros l' Hl; inversion Hl as [|? ? ? ? Hx]; subst; [done|].
  inversion Hx; subst. simpl. f_equal. by apply IH.
Qed.

(** The stored members, one by one; scalars are kept. *)
Ltac members :=
  repeat match goal with H : Forall2 _ (_ :: _) _ |- _ =>
    let y := fresh "y" in inversion H as [|? [? y] ? ? [? ?]]; clear H; subst; simpl in * end;
  match goal with H : Forall2 _ [] _ |- _ => inversion H; subst end;
  repeat match goal with
         | H : same_json (JStr _) _ |- _ => inversion H; clear H; subst
         | H : same_json (JInt _) _ |- _ => inversion H; clear H; subst
         | H : same_json (Workflowdsl.marshal_strings _) _ |- _ => apply stored_strings in H; subst
         end.

Lemma stored_step s j j' :
  Workflowdsl.ints_ok s → StepSpec.Input s ≠ None → Workflowdsl.marshal_step s = Some j → same_json j j' →
  ∃ i, dec_struct Workflowdsl.step_field Workflowdsl.zero_StepSpec j' =
         (with_input s (Some (Text i)), false).
Proof.
  destruct s as [name type deps input att init mult maxb tmo].
  intros (Ha & Hi & Hm & Ht) Hin Hj Hs. unfold Workflowdsl.marshal_step in Hj. simpl in *.
  destruct input as [[inp|]|]; [|done..]. simpl in Hj.
  destruct (marshal_float mult) as [jm|] eqn:Hmult; [|done]. simpl in Hj. injection Hj as <-.
  match type of Hs with same_json (JObj ?kvs) _ =>
    assert (NoDup kvs.*1 ∧ kvs.*1 = step_keys) as [Hnd Hk] by (split; [|reflexivity]; simpl; by apply (bool_decide_unpack _)) end.
  destruct (dec_stored _ step_keys _ j' Workflowdsl.zero_StepSpec step_independent Hnd
    ltac:(by rewrite Hk) Hs) as (kvs & Hf & ->). clear Hnd Hk Hs.
  members.
  assert (∀ x, dec_float x y5 = (mult, false)) as Hf.
  { intros x. destruct mult; simpl in Hmult; try done; injection Hmult as <-;
      match goal with H : same_json (JFloat _) _ |- _ => inversion H as [| | | |? z Hz| | |]; subst; simpl; try done end;
      by rewrite Hz. }
  exists y2. cbn [foldl]. unfold step, with_input, Workflowdsl.zero_StepSpec. cbn [fst snd].
  do 9 (autorewrite with members; cbn [fst snd]). unfold dec_int.
  by rewrite Workflowdsl.dec_strings_marshal, Hf, Ha, Hi, Hm, Ht.
Qed.

Lemma stored_steps cur l js js' :
  Forall Workflowdsl.ints_ok l → Forall (λ s, StepSpec.Input s ≠ None) l →
  mapM Workflowdsl.marshal_step l = Some js → Forall2 same_json js js' →
  ∃ l', dec_slice Workflowdsl.zero_StepSpec (dec_struct Workflowdsl.step_field) cur (JArr js') = (Some l', false) ∧
    Forall2 (λ s s', ∃ j, s' = with_input s (Some (Text j))) l l'.
Proof.
  intros Hi Hn Hm%mapM_Some Hs. cbn [dec_slice].
  assert (∃ l', dec_struct Workflowdsl.step_field Workflowdsl.zero_StepSpec <$> js' = (λ s, (s, false)) <$> l' ∧
    Forall2 (λ s s', ∃ j, s' = with_input s (Some (Text j))) l l') as (l' & Hl & Hrel).
  { revert js' Hs Hi Hn. induction Hm as [|s j l js Hj _ IH]; intros js' Hs Hi Hn;
      inversion Hs as [|? j' ? js1 Hj' Hs']; subst; [exists []; by split; [|constructor]|].
    apply Forall_cons in Hi as [Hi1 Hi2]. apply Forall_cons in Hn as [Hn1 Hn2].
    destruct (stored_step s j j' Hi1 Hn1 Hj Hj') as [i Hd].
    destruct (IH js1 Hs' Hi2 Hn2) as (l' & Hl & Hrel).
    exists (with_input s (Some (Text i)) :: l'). rewrite !fmap_cons, Hd, Hl. split; [done|].
    constructor; [by exists i|done]. }
  exists l'. rewrite Hl. split; [|done]. clear. f_equal.
  - f_equal. induction l' as [|s l IH]; simpl; [done|]. by f_equal.
  - by induction l'.
Qed.

(** The stored form of a definition decodes to the definition, up to the form of inputs. *)
Lemma stored_definition d j j' :
  in_int64 (Definition_.Version d) = true → Forall Workflowdsl.ints_ok (Workflowdsl.steps_of d) →
  Forall (λ s, StepSpec.Input s ≠ None) (Workflowdsl.steps_of d) →
  Workflowdsl.ToJSON d = Some j → same_json j j' →
  ∃ p, Workflowdsl.unmarshal_Definition (Some (Text j')) = Some p ∧ resembles d p.
Proof.
  destruct d as [name version ss]. intros Hv Hi Hn Hj Hs. unfold Workflowdsl.ToJSON in Hj. simpl in *.
  assert (∃ js, j = JObj [("name", JStr name); ("version", JInt version); ("steps", js)] ∧
    ∀ js', same_json js js' → ∃ ss',
      dec_slice Workflowdsl.zero_StepSpec (dec_struct Workflowdsl.step_field) None js' = (ss', false) ∧
      Forall2 (λ s s', ∃ j, s' = with_input s (Some (Text j))) (default [] ss) (default [] ss'))
    as (js & -> & Hdec).
  { destruct ss as [l|]; simpl in Hj.
    - destruct (mapM Workflowdsl.marshal_step l) as [js|] eqn:Hm; [|done]. simpl in Hj. injection Hj as <-.
      eexists. split; [done|]. intros js' Hs'. inversion Hs' as [| | | | | |? l' Hl|]; subst.
      destruct (stored_steps None l js l' Hi Hn Hm Hl) as (ss' & Hd & Hrel). by exists (Some ss').
    - injection Hj as <-. eexists. split; [done|]. intros js' Hs'. inversion Hs'; subst. by exists None. }
  assert (NoDup definition_keys) as Hnd by by apply (bool_decide_unpack _).
  destruct (dec_stored _ definition_keys [("name", JStr name); ("version", JInt version); ("steps", js)] j'
    Workflowdsl.zero_Definition definition_independent Hnd (λ k Hk, Hk) Hs) as (kvs & Hf & Hd).
  members. match goal with H : same_json js _ |- _ => destruct (Hdec _ H) as (ss' & Hss & Hrel) end.
  exists (Definition_.mk name version ss'). unfold Workflowdsl.unmarshal_Definition. rewrite Hd.
  split; [|by split_and!]. cbn [foldl]. unfold step, Workflowdsl.zero_Definition. cbn [fst snd].
  do 3 (autorewrite with members; cbn [fst snd]). unfold dec_int. by rewrite Hss, Hv.
Qed.

(** * A stored form *)

(** Drops the members that do not count, at every level. *)
Fixpoint normalise (j : json) : json :=
  match j with
  | JArr l => JArr (map normalise l)
  | JObj kvs => JObj (last_wins (map (λ kv, (kv.1, normalise kv.2)) kvs))
  | _ => j
  end.

Lemma last_wins_map (f : json → json) kvs :
  last_wins (map (λ kv, (kv.1, f kv.2)) kvs) = map (λ kv, (kv.1, f kv.2)) (last_wins kvs).
Proof.
  assert (∀ l : list (string * json), (map (λ kv, (kv.1, f kv.2)) l).*1 = l.*1) as Hk.
  { intros l. induction l as [|kv l IH]; simpl; [done|]. by f_equal. }
  induction kvs as [|kv kvs IH]; simpl; [done|]. rewrite Hk. case_decide; [done|]. simpl. by f_equal.
Qed.

Lemma last_wins_sub kvs kv : kv ∈ last_wins kvs → kv ∈ kvs.
Proof.
  induction kvs as [|x kvs IH]; simpl; [done|]. case_decide; [by constructor; apply IH|].
  intros [->|Hx]%elem_of_cons; constructor. by apply IH.
Qed.

Fixpoint normalise_same (j : json) : same_json j (normalise j).
Proof.
  destruct j as [|b|z|f|s|l|kvs]; simpl; [constructor..| |].
  - constructor. induction l as [|x l IH]; simpl; constructor; [apply normalise_same|exact IH].
  - eapply Same_obj; [reflexivity|]. rewrite last_wins_map.
    assert (Forall (λ kv, same_json kv.2 (normalise kv.2)) kvs) as Hall.
    { induction kvs as [|[k v] kvs IH]; constructor; [apply normalise_same|exact IH]. }
    assert (Forall (λ kv, same_json kv.2 (normalise kv.2)) (last_wins kvs)) as Hlast.
    { rewrite Forall_forall in *. intros kv Hkv. by apply Hall, last_wins_sub. }
    clear Hall. induction Hlast as [|kv l Hkv _ IH]; simpl; constructor; [by split|exact IH].
Qed.
End Jsonb.
