(* ===== verification/PostgresLaws.v ===== *)
(** The PostgreSQL store obeys the laws the engine relies on (Contract.v), so that what is
    proved of the engine over any such store holds over internal/store/postgres.

    A statement may be refused (a value that does not fit a column, a violated
    constraint), hence [may_fail]; a transaction that did not succeed is rolled back.  Of
    PostgreSQL it is assumed that a JSONB column keeps the document (Jsonb.v). *)

From stdpp Require Import gmap strings list sorting.
From S2P Require Import Prelude GoLib Json Types MemStore Dsl Engine Lifecycle LifecycleInv.
From S2P Require Import Worlds Contract Reconcile EngineSpec EngineOps MemSpec Postgres PostgresSpec Jsonb.
Open Scope Z_scope.

Module PostgresLaws.
Import Lifecycle LifecycleInv Worlds Contract EngineOps PostgresSpec.

(** What the documentation of JSONB says of [jsonb]. *)
Definition jsonb_documented {P : Pg} : Prop := ∀ j j', jsonb j = Some j' → Jsonb.same_json j j'.

(** What a JSONB column holds after [b] was written to it. *)
Definition column {P : Pg} (b b' : RawMessage) : Prop :=
  ∃ j j', b = Some (Text j) ∧ jsonb j = Some j' ∧ b' = Some (Text j').

(** * Rules for the statements *)

Section rules.
Context {E : Env} {P : Pg}.

(** A program that leaves the world alone: the checks of parameters and constraints. *)
Definition pure {A} (m : GoM World A) : Prop := ∀ w, (m w).2 = w.

Lemma wp_pure {A B} (m : GoM World A) (f : A → GoM World B) Q (R : error → World → Prop) w :
  pure m → (∀ e, R e w) → (∀ a, m w = (Ok a, w) → wp (f a) (post Q R) w) → wp (m ≫= f) (post Q R) w.
Proof.
  intros Hp HR Hf. unfold wp, mbind, GoM_bind. specialize (Hp w).
  destruct (m w) as [[a|e] w1] eqn:Hm; simpl in Hp; subst w1; [by apply Hf|apply HR].
Qed.

Lemma pure_check {A} (o : option A) : pure (Postgres.check o).
Proof. by destruct o. Qed.
Lemma pure_int4 z : pure (Postgres.int4 z).
Proof. apply pure_check. Qed.
Lemma pure_text s : pure (Postgres.text s).
Proof. apply pure_check. Qed.
Lemma pure_nullable_text s : pure (Postgres.nullable_text s).
Proof.
  destruct s as [s|]; [|done]. intros w. unfold Postgres.nullable_text, mbind, GoM_bind.
  pose proof (pure_text s w). by destruct (Postgres.text s w) as [[]].
Qed.
Lemma pure_jsonb_notnull b : pure (Postgres.jsonb_notnull b).
Proof. apply pure_check. Qed.
Lemma pure_jsonb_null b : pure (Postgres.jsonb_null b).
Proof. destruct b; [apply pure_check|done]. Qed.
Lemma pure_payload p : pure (Postgres.payload_column p).
Proof. apply pure_check. Qed.
Lemma pure_references {K V} `{Countable K} (table : Tables → gmap K V) k : pure (Postgres.references table k).
Proof. intros w. unfold Postgres.references, mbind, GoM_bind, gets. by destruct (bool_decide _). Qed.
Lemma pure_scan b : pure (Postgres.scan_depends_on b).
Proof. intros w. unfold Postgres.scan_depends_on. by repeat case_match. Qed.

(** What a passed check says. *)
Lemma check_Some {A} (o : option A) a w w' : Postgres.check o w = (Ok a, w') → o = Some a.
Proof. destruct o; simpl; by intros [= ->]. Qed.
Lemma int4_Ok z a w w' : Postgres.int4 z w = (Ok a, w') → a = z.
Proof. unfold Postgres.int4. case_match; [by intros [= ->]%check_Some|done]. Qed.
Lemma text_Ok s a w w' : Postgres.text s w = (Ok a, w') → a = s.
Proof. unfold Postgres.text. case_match; [by intros [= ->]%check_Some|done]. Qed.
Lemma jsonb_notnull_Ok b a w w' : Postgres.jsonb_notnull b w = (Ok a, w') → column b a.
Proof.
  unfold Postgres.jsonb_notnull. intros Hc%check_Some. destruct b as [[j|]|]; [|done..]. simpl in Hc.
  destruct (jsonb j) as [j'|] eqn:Hj; [|done]. simpl in Hc. injection Hc as <-. by exists j, j'.
Qed.

Lemma wp_wrapped {A} (m : GoM World A) Q (R : error → World → Prop) w :
  wp m (post Q (λ e, R (Postgres.wrapErr e))) w → wp (Postgres.wrapped m) (post Q R) w.
Proof. unfold wp, Postgres.wrapped. by destruct (m w) as [[a|e] w']. Qed.

Lemma wp_insert {K V} `{Countable K} (table : Tables → gmap K V) set_table k v clash Q
    (R : error → World → Prop) w :
  (∀ e, R e w) →
  (table (db w) !! k = None → (∀ i x, table (db w) !! i = Some x → clash x = false) →
   Q v (mkWorld (set_table (insert k v) (db w)) (tick w))) →
  wp (Postgres.insert_row table set_table k v clash) (post Q R) w.
Proof.
  intros HR HQ. unfold wp, Postgres.insert_row, mbind, GoM_bind, gets.
  destruct (bool_decide_reflect (is_Some (table (db w) !! k))) as [Hk|Hk]; [by apply HR|]. simpl.
  destruct (existsb clash _) eqn:Ex; [by apply HR|]. simpl. apply HQ.
  - by destruct (table (db w) !! k) as [x|]; [destruct Hk; eauto|].
  - intros i x Hx. destruct (clash x) eqn:Ec; [|done]. exfalso.
    assert (existsb clash (map_to_list (table (db w))).*2 = true); [|congruence].
    apply existsb_exists. exists x. split; [|done]. apply list_elem_of_In, list_elem_of_fmap.
    exists (i, x). by rewrite elem_of_map_to_list.
Qed.

(** Readings of the clock and of the supply of identifiers. *)
Lemma wp_tick {A B} (f : nat → A) (g : A → GoM World B) Q w :
  wp (g (f (tick w))) Q (mkWorld (db w) (S (tick w))) → wp (tick_of f ≫= g) Q w.
Proof. done. Qed.

Lemma wp_select {K V} `{Countable K} (table : Tables → gmap K V) p (Q : outcome (list V) → World → Prop) w :
  (∀ l, (∀ v, v ∈ l ↔ (∃ k, table (db w) !! k = Some v) ∧ p v = true) →
     Q (Ok l) (mkWorld (db w) (S (tick w)))) →
  wp (Postgres.select table p) Q w.
Proof.
  intros HQ. unfold wp, Postgres.select, Memory.range_values, mbind, GoM_bind. simpl. apply HQ.
  intros v. by rewrite filter_elem, values_elem.
Qed.
End rules.

Create HintDb pure.
#[export] Hint Resolve pure_check pure_int4 pure_text pure_nullable_text pure_jsonb_notnull
  pure_jsonb_null pure_payload pure_references pure_scan : pure.

(** Passes the checks and readings at the head of a method. *)
Ltac failure := intros; simpl; auto.
Ltac head :=
  repeat match goal with
         | |- wp (Postgres.wrapped _) _ _ => apply wp_wrapped
         | |- wp (now ≫= _) _ _ => apply wp_tick
         | |- wp (new_uuid ≫= _) _ _ => apply wp_tick
         | |- wp (tick_of _ ≫= _) _ _ => apply wp_tick
         | |- wp (let _ := _ in _) _ _ => cbv zeta
         | |- wp (_ ≫= _) _ _ => apply wp_pure; [by auto with pure|failure|intros ? ?]
         end;
  repeat match goal with
         | H : Postgres.int4 _ _ = _ |- _ => apply int4_Ok in H
         | H : Postgres.text _ _ = _ |- _ => apply text_Ok in H
         | H : Postgres.jsonb_notnull _ _ = _ |- _ => apply jsonb_notnull_Ok in H
         end; subst.

Section laws.
Context {E : Env} {P : Pg}.
#[local] Existing Instance Postgres.postgres_store.

(** The error postconditions of the laws, for a store that may fail. *)
Abbreviation any_error := (λ (_ : error) (_ : World), True).
Abbreviation untouched w := (λ (_ : error) (w' : World), True ∧ db w' = db w).

Lemma pg_CreateWorkflowDefinition name version dag w :
  wp (CreateWorkflowDefinition name version dag)
    (post (λ def w', WorkflowDefinition.Name def = name ∧ WorkflowDefinition.Version def = version ∧
             column dag (WorkflowDefinition.DAG def) ∧ ¬ registered (db w) name version ∧
             db w' = set_definitions (insert (WorkflowDefinition.ID def) def) (db w))
          (λ e w', db w' = db w ∧ (True ∨ e = ErrConflict ∧ registered (db w) name version))) w.
Proof.
  simpl. unfold Postgres.CreateWorkflowDefinition. head.
  apply wp_insert; [failure|]. intros _ Hc. split_and!; [done..| |done].
  intros (id & def & Hd & Hn & Hv). specialize (Hc id def Hd). simpl in Hc.
  by rewrite (bool_decide_eq_true_2 _ Hn), Hv, Z.eqb_refl in Hc.
Qed.

Lemma first_row_wp {V} (l : list V) Q (R : error → World → Prop) w :
  (∀ e, R e w) → (∀ v, v ∈ l → Q v w) → wp (Postgres.first_row l) (post Q R) w.
Proof. intros HR HQ. destruct l as [|v l]; [apply HR|]. apply HQ. constructor. Qed.

Lemma pg_GetWorkflowDefinition name version w : 0 < version →
  wp (GetWorkflowDefinition name version)
    (post (λ def w', db w' = db w ∧ denotes (db w) name version def)
          (λ e w', db w' = db w ∧
             (True ∨ e = ErrNotFound ∧ ¬ ∃ def, denotes (db w) name version def))) w.
Proof.
  intros Hv. simpl. unfold Postgres.GetWorkflowDefinition. head. apply wp_bind, wp_select. intros l Hl. simpl.
  apply first_row_wp; [failure|]. intros def Hd%Hl. destruct Hd as [Hd Hm]. split; [done|].
  apply andb_true_iff in Hm as [Hn%bool_decide_eq_true Hver%Z.eqb_eq]. split_and!; [done..|].
  by rewrite (proj2 (Z.ltb_lt _ _) Hv).
Qed.

Lemma pg_GetLatestWorkflowDefinition name version w : ¬ 0 < version →
  wp (GetLatestWorkflowDefinition name)
    (post (λ def w', db w' = db w ∧ denotes (db w) name version def)
          (λ e w', db w' = db w ∧
             (True ∨ e = ErrNotFound ∧ ¬ ∃ def, denotes (db w) name version def))) w.
Proof.
  intros Hv. simpl. unfold Postgres.GetLatestWorkflowDefinition. head.
  apply wp_bind, wp_select. intros l Hl. simpl. set (sorted := merge_sort Postgres.version_desc l).
  assert (StronglySorted Postgres.version_desc sorted) as Hs.
  { apply StronglySorted_merge_sort; [intros a b c|intros a b]; unfold Postgres.version_desc; lia. }
  assert (∀ d, d ∈ sorted ↔ d ∈ l) as Hmem by (intros d; unfold sorted; by rewrite merge_sort_Permutation).
  destruct sorted as [|best rest]; [apply first_row_wp; [failure|by intros ? ?%elem_of_nil]|].
  change (take _ (best :: rest)) with [best]. apply first_row_wp; [failure|].
  intros def ->%list_elem_of_singleton. destruct (proj1 (Hl best)) as [Hd Hn]; [apply Hmem; constructor|].
  apply bool_decide_eq_true in Hn. split; [done|]. split_and!; [done..|].
  rewrite (proj2 (Z.ltb_ge _ _)) by lia. intros id def' Hd' Hn'.
  assert (def' ∈ best :: rest) as Hin by (apply Hmem, Hl; rewrite bool_decide_eq_true; eauto).
  apply elem_of_cons in Hin as [->|Hin]; [done|]. inversion Hs as [|? ? _ Hall]; subst.
  rewrite Forall_forall in Hall. exact (Hall def' Hin).
Qed.

Lemma pg_CreateWorkflowRun id def name version shard input w :
  wp (CreateWorkflowRun id def name version shard input)
    (post (λ r w', WorkflowRun.ID r = id ∧ WorkflowRun.DefinitionID r = def ∧
             WorkflowRun.Name r = name ∧ WorkflowRun.Version r = version ∧
             WorkflowRun.ShardID r = shard ∧ WorkflowRun.Status r = RunPending ∧
             WorkflowRun.HistorySeq r = 0 ∧ column input (WorkflowRun.Input r) ∧
             db w' = set_runs (insert id r) (db w)) any_error) w.
Proof. simpl. unfold Postgres.CreateWorkflowRun. head. apply wp_insert; [failure|]. by intros _ _. Qed.

(** Statements addressed by the primary key. *)
Lemma wp_first_key {K V} `{Countable K} (table : Tables → gmap K V) (ID : V → K) k p w :
  keyed_table table ID (db w) → (∀ v, p v = true ↔ ID v = k) →
  wp (Postgres.wrapped (rows ← Postgres.select table p; Postgres.first_row rows))
    (post (λ v w', table (db w) !! k = Some v ∧ db w' = db w)
          (λ e w', db w' = db w ∧ table (db w) !! k = None ∧ e = ErrNotFound)) w.
Proof.
  intros Hk Hp. apply wp_wrapped, wp_bind, wp_select. intros l Hl. simpl. destruct l as [|v l].
  - simpl. split_and!; [done| |done]. destruct (table (db w) !! k) as [v|] eqn:Ev; [|done].
    assert (v ∈ []) as []%elem_of_nil. apply Hl. rewrite Hp. split; [eauto|by apply Hk].
  - destruct (proj1 (Hl v)) as [[k' Hv] Hpv]; [constructor|]. apply Hp in Hpv as <-.
    split; [|done]. by rewrite (Hk _ _ Hv).
Qed.

Lemma pg_GetWorkflowRun id w : rows_keyed (db w) →
  wp (GetWorkflowRun id)
    (post (λ r w', runs (db w) !! id = Some r ∧ db w' = db w)
          (λ e w', db w' = db w ∧ (True ∨ runs (db w) !! id = None ∧ e = ErrNotFound))) w.
Proof.
  intros Hk. eapply wp_mono; [apply (wp_first_key runs WorkflowRun.ID); [exact (rk_runs _ Hk)|]|].
  - intros v. apply N.eqb_eq.
  - intros [r|e] w'; simpl; [done|]. intros (? & _). auto.
Qed.

Lemma pg_GetStep id w : rows_keyed (db w) →
  wp (GetStep id)
    (post (λ s w', steps (db w) !! id = Some s ∧ db w' = db w)
          (λ e w', db w' = db w ∧ (True ∨ steps (db w) !! id = None ∧ e = ErrNotFound))) w.
Proof.
  intros Hk. eapply wp_mono; [apply (wp_first_key steps Step.ID); [exact (rk_steps _ Hk)|]|].
  - intros v. apply N.eqb_eq.
  - intros [s|e] w'; simpl; [done|]. intros (? & _). auto.
Qed.

(** An UPDATE of the row with key [k] if it satisfies [q]. *)
Lemma wp_update_key {K V} `{Countable K} (table : Tables → gmap K V) set_table (ID : V → K) k p f
    (Q : outcome (list V) → World → Prop) w :
  (∀ f g d, f (table d) = g (table d) → set_table f d = set_table g d) →
  set_table id (db w) = db w → keyed_table table ID (db w) → (∀ v, p v = true → ID v = k) →
  (∀ v, table (db w) !! k = Some v → p v = true →
     Q (Ok [f v]) (mkWorld (set_table (insert k (f v)) (db w)) (S (tick w)))) →
  ((∀ v, table (db w) !! k = Some v → p v = false) → Q (Ok []) (mkWorld (db w) (S (tick w)))) →
  wp (Postgres.update table set_table p f) Q w.
Proof.
  intros Hext Hid Hk Hp Hyes Hno. unfold wp. rewrite (update_key table set_table ID Hext k) by done.
  unfold row_at. destruct (table (db w) !! k) as [v|] eqn:Ev.
  - destruct (p v) eqn:Epv; [by apply Hyes|]. rewrite Hid. apply Hno. congruence.
  - rewrite Hid. by apply Hno.
Qed.

Lemma pg_UpdateWorkflowRunStatus id expected next out err w : rows_keyed (db w) →
  wp (UpdateWorkflowRunStatus id expected next out err)
    (post (λ ok w',
             if ok : bool then ∃ r r', runs (db w) !! id = Some r ∧ WorkflowRun.Status r ∈ expected ∧
               same_run r' r ∧ WorkflowRun.HistorySeq r' = WorkflowRun.HistorySeq r ∧
               WorkflowRun.Status r' = next ∧ db w' = set_runs (insert id r') (db w)
             else (∀ r, runs (db w) !! id = Some r → WorkflowRun.Status r ∉ expected) ∧
                  db w' = db w) any_error) w.
Proof.
  intros Hk. simpl. unfold Postgres.UpdateWorkflowRunStatus. head. apply wp_bind.
  apply (wp_update_key runs set_runs WorkflowRun.ID id);
    [apply set_runs_ext|apply same_runs|exact (rk_runs _ Hk)|by intros v [?%N.eqb_eq _]%andb_true_iff|..]; simpl.
  - intros r Hr [_ Hin%bool_decide_eq_true]%andb_true_iff. exists r. eexists. split_and!; [done|done|..|done]; try reflexivity. by split.
  - intros Hno. split; [|done]. intros r Hr Hin. specialize (Hno r Hr).
    by rewrite (rk_runs _ Hk _ _ Hr), N.eqb_refl, bool_decide_eq_true_2 in Hno.
Qed.

Lemma pg_UpdateStepStatus id expected next out err bump w : rows_keyed (db w) →
  wp (UpdateStepStatus id expected next out err bump)
    (post (λ ok w',
             if ok : bool then ∃ s s', steps (db w) !! id = Some s ∧ Step.Status s ∈ expected ∧
               same_step s' s ∧ Step.Status s' = next ∧
               Step.AttemptCount s' = Step.AttemptCount s + (if bump then 1 else 0) ∧
               db w' = set_steps (insert id s') (db w)
             else (∀ s, steps (db w) !! id = Some s → Step.Status s ∉ expected) ∧
                  db w' = db w) (untouched w)) w.
Proof.
  intros Hk. simpl. unfold Postgres.UpdateStepStatus. head. apply wp_bind, wp_select. intros l Hl. simpl.
  destruct (bump && _); [done|]. apply wp_bind.
  apply (wp_update_key steps set_steps Step.ID id);
    [apply set_steps_ext|apply same_steps|exact (rk_steps _ Hk)|by intros v [?%N.eqb_eq _]%andb_true_iff|..]; simpl.
  - intros s Hs [_ Hin%bool_decide_eq_true]%andb_true_iff. exists s. eexists. split_and!; [done|done|..|done]; try reflexivity. by split.
  - intros Hno. split; [|done]. intros s Hs Hin. specialize (Hno s Hs).
    by rewrite (rk_steps _ Hk _ _ Hs), N.eqb_refl, bool_decide_eq_true_2 in Hno.
Qed.

Lemma pg_GetSteps rid w :
  wp (GetSteps rid)
    (post (λ l w', db w' = db w ∧
             ∀ s, s ∈ l ↔ (∃ id, steps (db w) !! id = Some s) ∧ Step.WorkflowRunID s = rid) any_error) w.
Proof.
  apply wp_bind, wp_select. intros l Hl. apply wp_ret. simpl. split; [done|]. intros s.
  by rewrite merge_sort_Permutation, Hl, N.eqb_eq.
Qed.

Lemma pg_CreateTaskAttempt sid rid number queue w :
  wp (CreateTaskAttempt sid rid number queue)
    (post (λ a w', (∃ k, (tick w ≤ k < tick w')%nat ∧ TaskAttempt.ID a = uuid_New k) ∧
             TaskAttempt.StepID a = sid ∧ TaskAttempt.WorkflowRunID a = rid ∧
             TaskAttempt.AttemptNumber a = number ∧ TaskAttempt.Status a = AttemptQueued ∧
             TaskAttempt.QueueName a = queue ∧
             db w' = set_attempts (insert (TaskAttempt.ID a) a) (db w)) any_error) w.
Proof.
  simpl. unfold Postgres.CreateTaskAttempt. head. apply wp_insert; [failure|]. intros _ _. simpl.
  split_and!; [|done..]. exists (tick w). split; [lia|done].
Qed.

Lemma wp_attempt id w : rows_keyed (db w) →
  wp (Postgres.GetTaskAttempt id)
    (post (λ a w', attempts (db w) !! id = Some a ∧ db w' = db w)
          (λ e w', db w' = db w ∧ attempts (db w) !! id = None ∧ e = ErrNotFound)) w.
Proof.
  intros Hk. apply (wp_first_key attempts TaskAttempt.ID); [exact (rk_attempts _ Hk)|].
  intros v. apply N.eqb_eq.
Qed.

Lemma pg_ClaimTaskAttempt id key worker lease w : rows_keyed (db w) →
  wp (ClaimTaskAttempt id key worker lease)
    (post (λ res w', claimed_post id key worker w w' res) (untouched w)) w.
Proof.
  intros Hk. simpl. unfold Postgres.ClaimTaskAttempt. head. apply wp_bind. unfold claimed_post.
  apply (wp_update_key attempts set_attempts TaskAttempt.ID id);
    [apply set_attempts_ext|apply same_attempts|exact (rk_attempts _ Hk)
    |by intros v [[?%N.eqb_eq _]%andb_true_iff _]%andb_true_iff|..]; cbn [db tick].
  - intros a Ha [[_ Hkey]%andb_true_iff Hq]%andb_true_iff. apply wp_ret. simpl. rewrite Ha, Hkey, Hq. simpl.
    eexists. split_and!; [done|by split| |done]. unfold Memory.leased_by. simpl.
    by rewrite bool_decide_eq_true_2.
  - intros Hno. cbn [post]. apply wp_bind, wp_catch. eapply wp_mono; [by apply wp_attempt|].
    cbn [db tick]. intros [a|e] w'; simpl.
    + intros [Ha Hdb]. rewrite Ha. specialize (Hno a Ha).
      rewrite (rk_attempts _ Hk _ _ Ha), N.eqb_refl in Hno. simpl in Hno. rewrite andb_comm in Hno.
      apply wp_ret. simpl. by rewrite Hno.
    + intros (Hdb & Ha & ->). simpl. apply wp_ret. simpl. by rewrite Ha.
Qed.

Lemma pg_HeartbeatTaskAttempt id worker lease w : rows_keyed (db w) →
  wp (HeartbeatTaskAttempt id worker lease)
    (post (λ res w',
             if res.2 : bool then ∃ a e, attempts (db w) !! id = Some a ∧
               Memory.leased_by a worker = true ∧
               db w' = set_attempts (insert id (Memory.attempt_extended a e)) (db w)
             else ¬ holds_lease w id worker ∧ db w' = db w) (untouched w)) w.
Proof.
  intros Hk. simpl. unfold Postgres.HeartbeatTaskAttempt. head. apply wp_bind.
  apply (wp_update_key attempts set_attempts TaskAttempt.ID id);
    [apply set_attempts_ext|apply same_attempts|exact (rk_attempts _ Hk)|apply owned_by_key|..]; cbn [db tick].
  - intros a Ha Ho. rewrite owned_by_eq in Ho by exact (rk_attempts _ Hk _ _ Ha). apply wp_ret. simpl.
    by eexists a, _.
  - intros Hno. apply wp_ret. simpl. split; [|done]. intros (a & Ha & Hl). specialize (Hno a Ha).
    rewrite owned_by_eq in Hno by exact (rk_attempts _ Hk _ _ Ha). congruence.
Qed.

Lemma pg_CompleteTaskAttempt id worker success res err w : rows_keyed (db w) →
  wp (CompleteTaskAttempt id worker success res err)
    (post (λ r w',
             if r.2 : bool then ∃ a a', attempts (db w) !! id = Some a ∧
               Memory.leased_by a worker = true ∧ r.1 = Some a' ∧ same_attempt a' a ∧
               TaskAttempt.Status a' = (if success then AttemptSucceeded else AttemptFailed) ∧
               db w' = set_attempts (insert id a') (db w)
             else ¬ holds_lease w id worker ∧ db w' = db w) any_error) w.
Proof.
  intros Hk. simpl. unfold Postgres.CompleteTaskAttempt. head. apply wp_bind.
  apply (wp_update_key attempts set_attempts TaskAttempt.ID id);
    [apply set_attempts_ext|apply same_attempts|exact (rk_attempts _ Hk)|apply owned_by_key|..]; cbn [db tick].
  - intros a Ha Ho. rewrite owned_by_eq in Ho by exact (rk_attempts _ Hk _ _ Ha). apply wp_ret. simpl.
    exists a. eexists. split_and!; [done|done|done|..]; done || by split.
  - intros Hno. apply wp_bind. eapply wp_mono; [by apply wp_attempt|].
    intros [a|e] w'; simpl; [|done]. intros [Ha Hdb]. apply wp_ret. simpl. split; [|done].
    intros (b & Hb & Hl). specialize (Hno b Hb).
    rewrite owned_by_eq in Hno by exact (rk_attempts _ Hk _ _ Hb). congruence.
Qed.

(** ** Reaping *)

Lemma insert_attempts_eq l m a : NoDup (TaskAttempt.ID <$> l) → a ∈ l →
  insert_attempts l m !! TaskAttempt.ID a = Some a.
Proof.
  revert m. induction l as [|b l IH]; intros m Hnd Ha; [by apply elem_of_nil in Ha|].
  apply NoDup_cons in Hnd as [Hb Hnd]. unfold insert_attempts. cbn [foldl].
  fold (insert_attempts l (<[TaskAttempt.ID b := b]> m)).
  apply elem_of_cons in Ha as [->|Ha]; [|by apply IH].
  rewrite insert_attempts_ne by done. by rewrite lookup_insert_eq.
Qed.

(** An UPDATE of the rows [old], given by their keys. *)
Lemma fmap_insert_attempts (p : TaskAttempt.t → bool) f (m : attempts_map) old :
  (∀ k a, m !! k = Some a → TaskAttempt.ID a = k) → (∀ a, TaskAttempt.ID (f a) = TaskAttempt.ID a) →
  (∀ a, a ∈ old ↔ (∃ k, m !! k = Some a) ∧ p a = true) → NoDup (TaskAttempt.ID <$> old) →
  (λ a, if p a then f a else a) <$> m = insert_attempts (f <$> old) m.
Proof.
  intros Hk Hf Hold Hnd.
  assert (TaskAttempt.ID <$> (f <$> old) = TaskAttempt.ID <$> old) as Hids.
  { rewrite <-list_fmap_compose. apply list_fmap_ext. intros _ a _. apply Hf. }
  apply map_eq. intros k. rewrite lookup_fmap. destruct (m !! k) as [a|] eqn:Ha; simpl.
  - pose proof (Hk _ _ Ha) as Eid. destruct (p a) eqn:Ep.
    + rewrite <-Eid, <-(Hf a), insert_attempts_eq; [done|by rewrite Hids|].
      apply list_elem_of_fmap_2, Hold. eauto.
    + rewrite insert_attempts_ne; [done|]. rewrite Hids. intros (b & Eb & Hb)%list_elem_of_fmap.
      apply Hold in Hb as [[k' Hb] Hpb]. rewrite <-(Hk _ _ Hb), <-Eb in Hb. congruence.
  - rewrite insert_attempts_ne; [done|]. rewrite Hids. intros (b & -> & Hb)%list_elem_of_fmap.
    apply Hold in Hb as [[k' Hb] _]. rewrite (Hk _ _ Hb) in Ha. congruence.
Qed.

(** A selection of keyed rows has no repeated key. *)
Lemma select_NoDup p w : rows_keyed (db w) →
  wp (Postgres.select attempts p) (λ r w', ∃ l, r = Ok l ∧ w' = mkWorld (db w) (S (tick w)) ∧
    NoDup (TaskAttempt.ID <$> l) ∧ ∀ a, a ∈ l ↔ (∃ k, attempts (db w) !! k = Some a) ∧ p a = true) w.
Proof.
  intros Hk. unfold wp, Postgres.select, Memory.range_values, mbind, GoM_bind. simpl.
  eexists. split_and!; [done|done| |intros a; by rewrite filter_elem, values_elem].
  set (l := range_order _ _). assert (NoDup (TaskAttempt.ID <$> l)) as Hnd.
  { unfold l. rewrite (range_order_perm (tick w)), <-list_fmap_compose.
    assert ((TaskAttempt.ID ∘ snd) <$> map_to_list (attempts (db w)) = (map_to_list (attempts (db w))).*1) as ->.
    { apply list_fmap_ext. intros i [k a] Hi. simpl.
      apply (rk_attempts _ Hk), elem_of_map_to_list. by eapply list_elem_of_lookup_2. }
    apply NoDup_fst_map_to_list. }
  clear -Hnd. induction l as [|a l IH]; simpl in *; [done|]. apply NoDup_cons in Hnd as [Ha Hnd].
  destruct (p a); [|by apply IH]. simpl. constructor; [|by apply IH].
  intros (b & Eb & [Hb _]%filter_elem)%list_elem_of_fmap. apply Ha. rewrite Eb. by apply list_elem_of_fmap_2.
Qed.

Lemma pg_ReapExpiredAttempts limit w : rows_keyed (db w) →
  wp (ReapExpiredAttempts limit)
    (post (λ l w', NoDup (TaskAttempt.ID <$> l) ∧
             (∀ a', a' ∈ l → TaskAttempt.Status a' = AttemptExpired ∧
                ∃ a, attempts (db w) !! TaskAttempt.ID a' = Some a ∧ same_attempt a' a ∧
                     TaskAttempt.Status a = AttemptLeased) ∧
             db w' = set_attempts (insert_attempts l) (db w)) (untouched w)) w.
Proof.
  intros Hk. simpl. unfold Postgres.ReapExpiredAttempts. apply wp_tick. apply wp_bind, wp_select.
  intros due Hdue. cbn [post db tick]. unfold Postgres.limit_to. destruct (limit <? 0); [done|].
  apply wp_bind, wp_ret. cbn [post]. set (picked := take _ _). set (n := time_Now (tick w)) in *.
  assert (∀ a, a ∈ picked → ∃ k, attempts (db w) !! k = Some a ∧ TaskAttempt.Status a = AttemptLeased) as Hpick.
  { intros a Ha. assert (a ∈ due) as Hd.
    { unfold picked in Ha. apply elem_of_take in Ha as (i & Hi%list_elem_of_lookup_2 & _).
      by rewrite merge_sort_Permutation in Hi. }
    apply Hdue in Hd as [[k Hka] He]. exists k. split; [done|by eapply MemSpec.lease_expired_status]. }
  set (f := λ a, Postgres.set_completed AttemptExpired (TaskAttempt.Result a) (Some "lease expired") n a).
  apply wp_bind. eapply wp_mono; [by apply select_NoDup|]. cbn [db tick].
  intros r w' (old & -> & -> & Hnd & Hold).
  assert (∀ a, a ∈ old → ∃ k, attempts (db w) !! k = Some a ∧ TaskAttempt.Status a = AttemptLeased) as Hleased.
  { intros a Ha. apply Hold in Ha as [[k Ha] Hin%bool_decide_eq_true].
    apply list_elem_of_fmap in Hin as (b & Eb & Hb). destruct (Hpick b Hb) as (k' & Hkb & Hst).
    exists k. split; [done|]. rewrite <-(rk_attempts _ Hk _ _ Hkb), <-Eb, (rk_attempts _ Hk _ _ Ha), Ha in Hkb.
    by simplify_eq. }
  unfold wp, mbind, GoM_bind, set_db, modify. simpl. split_and!.
  - rewrite <-list_fmap_compose. exact Hnd.
  - intros a' (a & -> & Ha)%list_elem_of_fmap. split; [done|]. destruct (Hleased a Ha) as (k & Hka & Hst).
    exists a. simpl. rewrite (rk_attempts _ Hk _ _ Hka). by split_and!.
  - apply set_attempts_ext. by apply fmap_insert_attempts; [apply Hk| |..].
Qed.

(** ** Outbox, timers, signals and history *)

Lemma pg_InsertOutboxMessage msg w :
  wp (InsertOutboxMessage msg)
    (post (λ id w', id = nextOutboxID (db w) + 1 ∧ ∃ m i,
             OutboxMessage.ID m = id ∧
             OutboxMessage.AggregateID m = NewOutboxMessage.AggregateID msg ∧
             OutboxMessage.ShardID m = NewOutboxMessage.ShardID msg ∧
             OutboxMessage.StreamName m = NewOutboxMessage.StreamName msg ∧
             OutboxMessage.Status m = OutboxPending ∧
             (let p := NewOutboxMessage.Payload msg in
              OutboxMessage.Payload m = TaskPayload.mk (TaskPayload.TaskAttemptID p)
                (TaskPayload.StepID p) (TaskPayload.WorkflowRunID p) (TaskPayload.StepName p)
                (TaskPayload.TaskType p) i (TaskPayload.AttemptNumber p)
                (TaskPayload.IdempotencyKey p) (TaskPayload.TimeoutSeconds p)) ∧
             db w' = set_outbox (insert id m) id (db w)) any_error) w.
Proof.
  simpl. unfold Postgres.InsertOutboxMessage.
  apply wp_pure; [by auto with pure|done|]. intros ? _.
  apply wp_pure; [by auto with pure|done|]. intros ? ->%int4_Ok.
  apply wp_pure; [by auto with pure|done|]. intros ? ->%text_Ok.
  apply wp_pure; [by auto with pure|done|]. intros p Hp. apply check_Some in Hp.
  unfold mbind, GoM_bind, wp. simpl.
  match goal with |- context [Postgres.insert_row ?t ?st ?k ?v ?c ?w0] =>
    pose proof (wp_insert t st k v c (λ x w', x = v ∧ w' = mkWorld (st (insert k v) (db w0)) (tick w0))
      any_error w0) as Hi end.
  unfold wp in Hi. destruct (Postgres.insert_row _ _ _ _ _ _) as [[m|e] w1]; simpl in *; [|done].
  destruct Hi as [-> ->]; [done..|]. split; [done|].
  eexists (OutboxMessage.mk (nextOutboxID (db w) + 1) _ (NewOutboxMessage.AggregateID msg)
    (NewOutboxMessage.ShardID msg) (NewOutboxMessage.StreamName msg) p OutboxPending 0 _ None),
    (TaskPayload.Input p). split_and!; [done..| |reflexivity]. simpl.
  destruct (jsonb (Postgres.marshal_payload _)) as [j|]; simpl in Hp; [|done].
  destruct j as [| | | | | |kvs]; simpl in Hp; try discriminate Hp.
  destruct (find _ kvs) as [[k i]|]; simpl in Hp; [|done]. by injection Hp as <-.
Qed.

Lemma pg_MarkOutboxPublished k w : rows_keyed (db w) →
  wp (MarkOutboxPublished k)
    (post (λ _ w', match outbox (db w) !! k with
                   | Some m => ∃ n, db w' = set_outbox (insert k (Memory.outbox_published m n))
                                              (nextOutboxID (db w)) (db w)
                   | None => db w' = db w
                   end) (untouched w)) w.
Proof.
  intros Hk. simpl. unfold Postgres.MarkOutboxPublished. apply wp_tick, wp_bind.
  apply (wp_update_key outbox Postgres.set_outbox_rows OutboxMessage.ID k);
    [apply set_outbox_rows_ext|apply same_outbox_rows|exact (rk_outbox _ Hk)|by intros v ?%Z.eqb_eq|..];
    cbn [db tick].
  - intros m Hm _. apply wp_ret. simpl. rewrite Hm. by eexists.
  - intros Hno. apply wp_ret. simpl. destruct (outbox (db w) !! k) as [m|] eqn:Hm; [|done].
    specialize (Hno m eq_refl). by rewrite (rk_outbox _ Hk _ _ Hm), Z.eqb_refl in Hno.
Qed.

Lemma pg_InsertTimer nt w :
  wp (InsertTimer nt)
    (post (λ t w', (∃ k, (tick w ≤ k < tick w')%nat ∧ Timer.ID t = uuid_New k) ∧
             Timer.WorkflowRunID t = NewTimer.WorkflowRunID nt ∧
             Timer.StepID t = NewTimer.StepID nt ∧ Timer.Kind t = NewTimer.Kind nt ∧
             Timer.Status t = TimerPending ∧
             db w' = set_timers (insert (Timer.ID t) t) (db w)) any_error) w.
Proof.
  simpl. unfold Postgres.InsertTimer. cbv zeta. head.
  apply wp_pure; [destruct (NewTimer.StepID nt); [by auto with pure|done]|done|intros _ _].
  apply wp_insert; [failure|]. intros _ _. simpl. split_and!; [|done..]. exists (tick w). split; [lia|done].
Qed.

Lemma pg_FireTimerCAS tid w : rows_keyed (db w) →
  wp (FireTimerCAS tid)
    (post (λ r w',
             if r.2 : bool then ∃ t n, timers (db w) !! tid = Some t ∧ Timer.Status t = TimerPending ∧
               r.1 = Some (Memory.timer_with t TimerFired (Some n)) ∧
               db w' = set_timers (insert tid (Memory.timer_with t TimerFired (Some n))) (db w)
             else (∀ t, timers (db w) !! tid = Some t → Timer.Status t ≠ TimerPending) ∧
                  db w' = db w) any_error) w.
Proof.
  intros Hk. simpl. unfold Postgres.FireTimerCAS. apply wp_tick, wp_bind.
  apply (wp_update_key timers set_timers Timer.ID tid);
    [apply set_timers_ext|apply same_timers|exact (rk_timers _ Hk)|by intros v [?%N.eqb_eq _]%andb_true_iff|..];
    cbn [db tick].
  - intros t Ht [_ Hp%bool_decide_eq_true]%andb_true_iff. apply wp_ret. simpl. by eexists t, _.
  - intros Hno. apply wp_ret. simpl. split; [|done]. intros t Ht Hp. specialize (Hno t Ht).
    by rewrite (rk_timers _ Hk _ _ Ht), N.eqb_refl, bool_decide_eq_true_2 in Hno.
Qed.

Lemma pg_InsertSignal rid name payload w :
  wp (InsertSignal rid name payload)
    (post (λ sig w', Signal.SignalName sig = name ∧ Signal.WorkflowRunID sig = rid ∧
             Signal.Processed sig = false ∧
             db w' = set_signals (insert (Signal.ID sig) sig) (db w)) any_error) w.
Proof. simpl. unfold Postgres.InsertSignal. cbv zeta. head. apply wp_insert; [failure|]. by intros _ _. Qed.

Lemma pg_AppendHistory rid ev p w r : rows_keyed (db w) → runs (db w) !! rid = Some r →
  wp (AppendHistory rid ev p)
    (post (λ h w', HistoryEvent.Seq h = WorkflowRun.HistorySeq r + 1 ∧
             db w' = set_history (λ m, <[rid := default [] (m !! rid) ++ [h]]> m)
                       (set_runs (insert rid (Memory.run_bump_seq r)) (db w))) (untouched w)) w.
Proof.
  intros Hk Hr. simpl. unfold Postgres.AppendHistory. cbv zeta. head. apply wp_bind.
  apply (wp_update_key runs set_runs WorkflowRun.ID rid);
    [apply set_runs_ext|apply same_runs|exact (rk_runs _ Hk)|by intros v ?%N.eqb_eq|..]; cbn [db tick].
  - intros r' Hr' _. rewrite Hr in Hr'. injection Hr' as <-. by split.
  - intros Hno. specialize (Hno r Hr). by rewrite (rk_runs _ Hk _ _ Hr), N.eqb_refl in Hno.
Qed.

(** ** The steps of a new run *)

Lemma pg_CreateStep rid out ns w : jsonb_documented →
  wp (Postgres.CreateStep rid out ns)
    (post (λ out' w', ∃ s k, out' = out ++ [s] ∧ row_for column rid ns s ∧ Step.ID s = uuid_New k ∧
             (tick w ≤ k < tick w')%nat ∧ db w' = set_steps (insert (Step.ID s) s) (db w)) any_error) w.
Proof.
  intros Hdoc. unfold Postgres.CreateStep. cbv zeta. head.
  match goal with H : column (Some (Text (JArr _))) ?b, Hs : Postgres.scan_depends_on ?b _ = (Ok ?deps, _) |- _ =>
    assert (deps = NewStep.DependsOn ns) as -> end.
  { match goal with H : column (Some (Text (JArr _))) _ |- _ => destruct H as (j & j' & [= <-] & Hj & ->) end.
    apply Hdoc, (Jsonb.stored_strings (Some (NewStep.DependsOn ns))) in Hj. subst j'.
    match goal with Hs : Postgres.scan_depends_on _ _ = _ |- _ =>
      unfold Postgres.scan_depends_on in Hs; rewrite Workflowdsl.dec_strings_marshal in Hs;
      by injection Hs as <- end. }
  apply wp_bind, wp_insert; [failure|]. intros _ _. apply wp_ret. simpl.
  eexists _, (tick w). split_and!; [done|by split|done|lia|lia|done].
Qed.

Lemma pg_CreateSteps rid nss w : jsonb_documented →
  wp (CreateSteps rid nss)
    (post (λ l w', Forall2 (row_for column rid) nss l ∧
             (∃ ks, Step.ID <$> l = uuid_New <$> ks ∧ NoDup ks ∧
                    Forall (λ k, tick w ≤ k < tick w')%nat ks) ∧
             db w' = set_steps (insert_rows l) (db w)) any_error) w.
Proof.
  intros Hdoc. simpl. unfold Postgres.CreateSteps.
  apply (wp_mono _ (post (λ l w', Forall2 (row_for column rid) ([] ++ nss) l ∧
    (∃ ks, Step.ID <$> l = uuid_New <$> ks ∧ NoDup ks ∧ Forall (λ k, tick w ≤ k < tick w')%nat ks) ∧
    db w' = set_steps (insert_rows l) (db w) ∧ (tick w ≤ tick w')%nat) any_error)).
  - apply (wp_foldM_prefix (λ pre l w', Forall2 (row_for column rid) pre l ∧
      (∃ ks, Step.ID <$> l = uuid_New <$> ks ∧ NoDup ks ∧ Forall (λ k, tick w ≤ k < tick w')%nat ks) ∧
      db w' = set_steps (insert_rows l) (db w) ∧ (tick w ≤ tick w')%nat)).
    + split_and!; [constructor|exists []; by split_and!; constructor| |done]. by destruct (db w).
    + intros pre ns rest l w1 _ (Hrows & (ks & Hids & Hnd & Hall) & Hdb & Ht).
      eapply wp_mono; [by apply pg_CreateStep|]. intros [l'|e] w2; simpl; [|done].
      intros (s & k & -> & Hrow & Hid & Hk & Hdb2). split_and!; [by apply Forall2_app; [|constructor]| | |lia].
      * exists (ks ++ [k]). rewrite !fmap_app, Hids. simpl. rewrite Hid. split_and!; [done| |].
        -- apply NoDup_app. split_and!; [done| |apply NoDup_singleton].
           intros i Hi ->%list_elem_of_singleton. rewrite Forall_forall in Hall. specialize (Hall k Hi). lia.
        -- apply Forall_app. split; [|constructor; [lia|constructor]].
           eapply Forall_impl; [exact Hall|]. simpl. lia.
      * rewrite Hdb2, Hdb. unfold set_steps, insert_rows. simpl. by rewrite foldl_snoc.
  - intros [l|e] w'; simpl; [|done]. naive_solver.
Qed.

(** ** The clock, reads and transactions *)

Lemma steady_pure {A} (m : GoM World A) : pure m → steady m.
Proof. intros Hp w. rewrite Hp. lia. Qed.
Lemma steady_wrapped {A} (m : GoM World A) : steady m → steady (Postgres.wrapped m).
Proof. intros Hm w. unfold Postgres.wrapped. specialize (Hm w). by destruct (m w) as [[a|e] w1]. Qed.
Lemma steady_select {K V} `{Countable K} (table : Tables → gmap K V) p : steady (Postgres.select table p).
Proof. unfold Postgres.select, Memory.range_values. steady. Qed.
#[local] Hint Resolve steady_select steady_wrapped : steady.
#[local] Hint Extern 3 (steady _) => apply steady_pure; by auto with pure : steady.
Lemma steady_insert {K V} `{Countable K} (table : Tables → gmap K V) set_table k v clash :
  (∀ f d, nextOutboxID (set_table f d) = nextOutboxID d) → steady (Postgres.insert_row table set_table k v clash).
Proof.
  intros Hs. unfold Postgres.insert_row. apply steady_bind; [apply steady_gets|]. intros d.
  destruct (_ || _); [apply steady_fail|]. apply steady_bind; [|intros ?; apply steady_ret].
  apply steady_set_db. intros d'. by rewrite Hs.
Qed.
Lemma steady_update {K V} `{Countable K} (table : Tables → gmap K V) set_table p f :
  (∀ f d, nextOutboxID (set_table f d) = nextOutboxID d) → steady (Postgres.update table set_table p f).
Proof.
  intros Hs. unfold Postgres.update. apply steady_bind; [apply steady_select|]. intros d.
  apply steady_bind; [|intros ?; apply steady_ret]. apply steady_set_db. intros d'. by rewrite Hs.
Qed.

Lemma steady_first_row {V} (l : list V) : steady (Postgres.first_row l).
Proof. destruct l; steady. Qed.
Lemma steady_limit_to {V} n (l : list V) : steady (Postgres.limit_to n l).
Proof. unfold Postgres.limit_to. steady. Qed.
#[local] Hint Resolve steady_first_row steady_limit_to : steady.
#[local] Hint Extern 1 (steady (Postgres.update _ _ _ _)) => apply steady_update; done : steady.
#[local] Hint Extern 1 (steady (Postgres.insert_row _ _ _ _ _)) => apply steady_insert; done : steady.

(** Drawing the next outbox id. *)
Lemma steady_next {A} (f : Tables → GoM World A) : (∀ d, steady (f d)) →
  steady (d ← gets db; _ ← set_db (λ d', set_outbox (λ m, m) (nextOutboxID d + 1) d'); f d).
Proof.
  intros Hf w. unfold mbind, GoM_bind. simpl. specialize (Hf (db w)
    (mkWorld (set_outbox (λ m, m) (nextOutboxID (db w) + 1) (db w)) (tick w))). simpl in Hf. lia.
Qed.

Lemma pg_steady {A} (m : GoM World A) : is_query m → steady m.
Proof.
  destruct 1 as [| | | | | | | | | | | | | | | | | | | | |A m []]; simpl;
    unfold Postgres.CreateWorkflowDefinition, Postgres.GetWorkflowDefinition,
    Postgres.GetLatestWorkflowDefinition, Postgres.ListWorkflowDefinitions, Postgres.ListWorkflowRuns,
    Postgres.ListTaskAttemptsForStep, Postgres.FetchAndLockPendingOutbox,
    Postgres.ListDueTimers, Postgres.ListHistory, Postgres.CreateWorkflowRun, Postgres.GetWorkflowRun,
    Postgres.ListRunningRunsForShards, Postgres.UpdateWorkflowRunStatus, Postgres.CreateSteps,
    Postgres.CreateStep, Postgres.GetSteps, Postgres.GetStep, Postgres.UpdateStepStatus,
    Postgres.CreateTaskAttempt, Postgres.ClaimTaskAttempt, Postgres.HeartbeatTaskAttempt,
    Postgres.CompleteTaskAttempt, Postgres.GetTaskAttempt, Postgres.ReapExpiredAttempts,
    Postgres.MarkOutboxPublished, Postgres.InsertTimer, Postgres.FireTimerCAS,
    Postgres.CancelTimersForRun, Postgres.InsertSignal, Postgres.ListUnprocessedSignals,
    Postgres.MarkSignalProcessed, Postgres.AppendHistory;
    try solve [repeat first [apply steady_wrapped | steady_step]].
  unfold Postgres.InsertOutboxMessage.
  do 4 (apply steady_bind; [by auto with steady|intros ?]). apply (steady_next (λ d, _)).
  intros ?. cbv zeta. repeat steady_step.
Qed.

(** A program that leaves the tables alone. *)
Definition reads {A} (m : GoM World A) : Prop := ∀ w, db (m w).2 = db w.

Lemma reads_seq {A B} (m : GoM World A) (f : A → GoM World B) :
  reads m → (∀ a, reads (f a)) → reads (m ≫= f).
Proof.
  intros Hm Hf w. unfold mbind, GoM_bind. specialize (Hm w). destruct (m w) as [[a|e] w1]; [|done].
  by rewrite Hf.
Qed.
Lemma reads_pure {A} (m : GoM World A) : pure m → reads m.
Proof. intros Hp w. by rewrite Hp. Qed.
Lemma reads_wrapped {A} (m : GoM World A) : reads m → reads (Postgres.wrapped m).
Proof. intros Hm w. unfold Postgres.wrapped. specialize (Hm w). by destruct (m w) as [[a|e] w1]. Qed.
Lemma reads_select {K V} `{Countable K} (table : Tables → gmap K V) p : reads (Postgres.select table p).
Proof. done. Qed.
Lemma reads_first_row {V} (l : list V) : reads (Postgres.first_row l).
Proof. by destruct l. Qed.
Lemma reads_limit_to {V} n (l : list V) : reads (Postgres.limit_to n l).
Proof. unfold Postgres.limit_to. intros w. by destruct (n <? 0). Qed.

Ltac reads_step :=
  match goal with
  | |- reads (Postgres.wrapped _) => apply reads_wrapped
  | |- reads (let _ := _ in _) => cbv zeta
  | |- reads (if ?b then _ else _) => destruct b
  | |- reads (_ ≫= _) => apply reads_seq; [|intros ?]
  | |- reads (Postgres.first_row _) => apply reads_first_row
  | |- reads (Postgres.limit_to _ _) => apply reads_limit_to
  | |- reads _ => first [apply reads_pure; by auto with pure | by intros ?]
  end.

Lemma pg_read {A} (m : GoM World A) w : is_read m → db (m w).2 = db w.
Proof.
  intros Hr. cut (reads m); [done|]. clear w. destruct Hr; simpl;
    unfold Postgres.ListWorkflowDefinitions, Postgres.GetWorkflowRun, Postgres.ListWorkflowRuns,
      Postgres.ListRunningRunsForShards, Postgres.GetSteps, Postgres.GetStep, Postgres.GetTaskAttempt,
      Postgres.ListTaskAttemptsForStep, Postgres.FetchAndLockPendingOutbox, Postgres.ListDueTimers,
      Postgres.ListHistory; repeat reads_step.
Qed.

Lemma pg_WithTx {A} (fn : GoM World A) w :
  WithTx fn w = fn w ∧ (True → ∃ a, (fn w).1 = Ok a) ∨
  True ∧ (∃ e, (WithTx fn w).1 = Err e) ∧
    ((WithTx fn w).2 = (fn w).2 ∧ (∃ a, (fn w).1 = Ok a) ∨ undone w (fn w).2 (WithTx fn w).2).
Proof.
  simpl. unfold Postgres.WithTx. destruct (fn w) as [[a|e] w1]; simpl; [left; split; [done|eauto]|].
  right. split_and!; [done|eauto|]. right. exists (nextOutboxID (db w1)). simpl. auto.
Qed.

Lemma pg_CancelTimersForRun rid w :
  wp (CancelTimersForRun rid)
    (post (λ _ w', db w' = set_timers (fmap (Memory.cancel_timer rid)) (db w)) any_error) w.
Proof.
  simpl. unfold Postgres.CancelTimersForRun, Postgres.update. apply wp_bind, wp_bind, wp_select.
  intros l _. done.
Qed.

Lemma pg_MarkSignalProcessed id w :
  wp (MarkSignalProcessed id) (post (λ _ w', ∃ g, db w' = set_signals g (db w)) any_error) w.
Proof.
  simpl. unfold Postgres.MarkSignalProcessed, Postgres.update. apply wp_bind, wp_bind, wp_select.
  intros l _. by eexists.
Qed.

(** The PostgreSQL store obeys the laws. *)
#[refine] Definition postgres_laws (Hdoc : jsonb_documented) : StoreLaws Postgres.postgres_store :=
  {| may_fail := True; stored := column |}.
Proof.
  - intros b b' (j & j' & [= ->] & _ & ->). done.
  - intros d j b' Hv Hi Hn Hj (j1 & j' & [= <-] & Hj' & ->).
    eapply Jsonb.stored_definition; [done..|by apply Hdoc].
  - intros A m. apply pg_steady.
  - intros A m w. apply pg_read.
  - intros A fn w. apply pg_WithTx.
  - apply pg_CreateWorkflowDefinition.
  - apply pg_GetWorkflowDefinition.
  - apply pg_GetLatestWorkflowDefinition.
  - apply pg_CreateWorkflowRun.
  - apply pg_GetWorkflowRun.
  - done.
  - apply pg_UpdateWorkflowRunStatus.
  - intros rid nss w. by apply pg_CreateSteps.
  - apply pg_GetSteps.
  - apply pg_GetStep.
  - apply pg_UpdateStepStatus.
  - apply pg_CreateTaskAttempt.
  - apply pg_ClaimTaskAttempt.
  - apply pg_HeartbeatTaskAttempt.
  - apply pg_CompleteTaskAttempt.
  - apply pg_ReapExpiredAttempts.
  - apply pg_InsertOutboxMessage.
  - apply pg_MarkOutboxPublished.
  - apply pg_InsertTimer.
  - apply pg_FireTimerCAS.
  - apply pg_CancelTimersForRun.
  - apply pg_InsertSignal.
  - done.
  - apply pg_MarkSignalProcessed.
  - apply pg_AppendHistory.
Defined.
End laws.
End PostgresLaws.
