(* ===== verification/Faults.v ===== *)
(** A PostgreSQL server behind a connection that fails: any statement may be refused, a
    transaction may fail to begin or to commit, and the answer to a commit that happened
    may be lost.  The store built this way still obeys the laws of Contract.v, so the
    guarantees proved of the engine hold whatever fails and whenever.

    The failures are an oracle indexed by the clock of the world, and a failed statement
    takes a tick: a repeated statement may succeed.  After a failed statement PostgreSQL
    refuses the rest of the transaction; here the rest may also succeed, which only adds
    executions.  A statement outside a transaction that fails has had no effect: the loss
    of its answer alone is not modelled. *)

From stdpp Require Import gmap strings list.
From S2P Require Import Prelude GoLib Json Types MemStore Dsl Engine Lifecycle LifecycleInv.
From S2P Require Import Worlds Contract Postgres.
Open Scope Z_scope.

Class Faults := {
  (** The statement sent at this tick fails, and so does a BEGIN. *)
  fails : nat → bool;
  (** The COMMIT sent at this tick fails and is rolled back. *)
  commit_fails : nat → bool;
  (** The COMMIT sent at this tick happens and its answer is lost. *)
  answer_lost : nat → bool
}.

Module Faults.
Import Lifecycle LifecycleInv Worlds Contract.

Definition ConnectionError : error := Errorf "connection failed".

Section store.
Context {E : Env} {F : Faults} (St : Store).

Definition attempt {A} (m : GoM World A) : GoM World A :=
  λ w, if fails (tick w) then (Err ConnectionError, mkWorld (db w) (S (tick w))) else m w.

Definition faulty_queries : Queries := {|
  CreateWorkflowDefinition n v d := attempt (CreateWorkflowDefinition n v d);
  GetWorkflowDefinition n v := attempt (GetWorkflowDefinition n v);
  GetLatestWorkflowDefinition n := attempt (GetLatestWorkflowDefinition n);
  ListWorkflowDefinitions := attempt ListWorkflowDefinitions;
  CreateWorkflowRun i d n v s b := attempt (CreateWorkflowRun i d n v s b);
  GetWorkflowRun i := attempt (GetWorkflowRun i);
  ListWorkflowRuns f := attempt (ListWorkflowRuns f);
  ListRunningRunsForShards l := attempt (ListRunningRunsForShards l);
  UpdateWorkflowRunStatus i ex nx o e := attempt (UpdateWorkflowRunStatus i ex nx o e);
  CreateSteps i l := attempt (CreateSteps i l);
  GetSteps i := attempt (GetSteps i);
  GetStep i := attempt (GetStep i);
  UpdateStepStatus i ex nx o e b := attempt (UpdateStepStatus i ex nx o e b);
  CreateTaskAttempt s r n q := attempt (CreateTaskAttempt s r n q);
  ClaimTaskAttempt i k w l := attempt (ClaimTaskAttempt i k w l);
  HeartbeatTaskAttempt i w l := attempt (HeartbeatTaskAttempt i w l);
  CompleteTaskAttempt i w s r e := attempt (CompleteTaskAttempt i w s r e);
  ReapExpiredAttempts l := attempt (ReapExpiredAttempts l);
  GetTaskAttempt i := attempt (GetTaskAttempt i);
  ListTaskAttemptsForStep i := attempt (ListTaskAttemptsForStep i);
  InsertOutboxMessage m := attempt (InsertOutboxMessage m);
  FetchAndLockPendingOutbox l n := attempt (FetchAndLockPendingOutbox l n);
  MarkOutboxPublished k := attempt (MarkOutboxPublished k);
  InsertTimer t := attempt (InsertTimer t);
  ListDueTimers l n := attempt (ListDueTimers l n);
  FireTimerCAS t := attempt (FireTimerCAS t);
  CancelTimersForRun r := attempt (CancelTimersForRun r);
  InsertSignal r n p := attempt (InsertSignal r n p);
  ListUnprocessedSignals r := attempt (ListUnprocessedSignals r);
  MarkSignalProcessed i := attempt (MarkSignalProcessed i);
  AppendHistory r e p := attempt (AppendHistory r e p);
  ListHistory r := attempt (ListHistory r)
|}.

(** BEGIN, the body, and COMMIT or ROLLBACK. *)
Definition faulty_WithTx {A} (fn : GoM World A) : GoM World A :=
  λ w, if fails (tick w) then (Err ConnectionError, mkWorld (db w) (S (tick w)))
       else match WithTx fn w with
            | (Ok a, w1) =>
                if commit_fails (tick w1)
                then (Err ConnectionError,
                      mkWorld (Postgres.rolled_back (db w) (db w1)) (S (tick w1)))
                else if answer_lost (tick w1) then (Err ConnectionError, w1)
                else (Ok a, w1)
            | r => r
            end.

Definition faulty_store : Store := {| store_queries := faulty_queries; Types.WithTx := @faulty_WithTx |}.

(** * The laws *)

Context {L : StoreLaws St} (Hmay : may_fail).

Lemma wp_faulty {A} (m : GoM World A) Q (R R' : error → World → Prop) w :
  wp m (post Q R') w → (∀ e w', R' e w' → R e w') → (∀ e w', db w' = db w → R e w') →
  wp (attempt m) (post Q R) w.
Proof.
  intros Hm HR Hf. unfold wp, attempt in *. destruct (fails (tick w)); [by apply Hf|].
  destruct (m w) as [[a|e] w1]; [done|by apply HR].
Qed.

Lemma attempt_steady {A} (m : GoM World A) : steady m → steady (attempt m).
Proof. intros Hm w. unfold attempt. destruct (fails (tick w)); [simpl; lia|apply Hm]. Qed.

Lemma attempt_read {A} (m : GoM World A) w : db (m w).2 = db w → db (attempt m w).2 = db w.
Proof. unfold attempt. by destruct (fails (tick w)). Qed.

Lemma faulty_read {A} (m : GoM World A) :
  @is_read faulty_queries A m → ∃ m', m = attempt m' ∧ @is_read (@store_queries St) A m'.
Proof. intros []; eexists; (split; [reflexivity|constructor]). Qed.

Lemma faulty_query {A} (m : GoM World A) :
  @is_query faulty_queries A m → ∃ m', m = attempt m' ∧ @is_query (@store_queries St) A m'.
Proof.
  intros [| | | | | | | | | | | | | | | | | | | | |B m' Hr];
    [eexists; (split; [reflexivity|constructor])..|].
  destruct (faulty_read _ Hr) as (m1 & -> & ?). exists m1. split; [done|by constructor].
Qed.

Lemma faulty_tx {A} (fn : GoM World A) w :
  faulty_WithTx fn w = fn w ∧ (True → ∃ a, (fn w).1 = Ok a) ∨
  True ∧ (∃ e, (faulty_WithTx fn w).1 = Err e) ∧
    ((faulty_WithTx fn w).2 = (fn w).2 ∧ (∃ a, (fn w).1 = Ok a) ∨
     undone w (fn w).2 (faulty_WithTx fn w).2).
Proof.
  unfold faulty_WithTx. destruct (fails (tick w)).
  { right. split_and!; [done|eauto|]. right. exists (nextOutboxID (db w)). simpl.
    split_and!; [auto|left; lia|]. by destruct (db w). }
  destruct (law_WithTx fn w) as [[-> Hok]|(_ & [e He] & Hw)].
  - destruct (Hok Hmay) as [a Ha]. destruct (fn w) as [r w1]; simpl in *; subst r.
    destruct (commit_fails _); [|destruct (answer_lost _)]; simpl; [right..|left; eauto].
    + split_and!; [done|eauto|]. right. exists (nextOutboxID (db w1)). simpl. auto.
    + split_and!; [done|eauto|]. left. eauto.
  - destruct (WithTx fn w) as [r w1]; simpl in *; subst r. right. split_and!; [done|eauto|done].
Qed.

(** A store that may fail obeys the laws behind a failing connection too. *)
#[refine] Definition faulty_laws : StoreLaws faulty_store :=
  {| may_fail := True; stored := stored |}.
Proof.
  - apply law_marshal.
  - apply law_decode.
  - intros A m (m' & -> & Hq)%faulty_query. by apply attempt_steady, law_steady.
  - intros A m w (m' & -> & Hr)%faulty_read. by apply attempt_read, law_read.
  - intros A fn w. apply faulty_tx.
  - intros. eapply wp_faulty; [apply law_CreateWorkflowDefinition|naive_solver..].
  - intros. eapply wp_faulty; [by apply law_GetWorkflowDefinition|naive_solver..].
  - intros. eapply wp_faulty; [by apply law_GetLatestWorkflowDefinition|naive_solver..].
  - intros. by eapply wp_faulty; [apply law_CreateWorkflowRun|..].
  - intros. eapply wp_faulty; [by apply law_GetWorkflowRun|naive_solver..].
  - intros. eapply wp_faulty; [by apply law_ListRunningRunsForShards|naive_solver..].
  - intros. by eapply wp_faulty; [by apply law_UpdateWorkflowRunStatus|..].
  - intros. by eapply wp_faulty; [apply law_CreateSteps|..].
  - intros. by eapply wp_faulty; [apply law_GetSteps|..].
  - intros. eapply wp_faulty; [by apply law_GetStep|naive_solver..].
  - intros. eapply wp_faulty; [by apply law_UpdateStepStatus|naive_solver..].
  - intros. by eapply wp_faulty; [apply law_CreateTaskAttempt|..].
  - intros. eapply wp_faulty; [by apply law_ClaimTaskAttempt|naive_solver..].
  - intros. eapply wp_faulty; [by apply law_HeartbeatTaskAttempt|naive_solver..].
  - intros. by eapply wp_faulty; [by apply law_CompleteTaskAttempt|..].
  - intros. eapply wp_faulty; [by apply law_ReapExpiredAttempts|naive_solver..].
  - intros. by eapply wp_faulty; [apply law_InsertOutboxMessage|..].
  - intros. eapply wp_faulty; [by apply law_MarkOutboxPublished|naive_solver..].
  - intros. by eapply wp_faulty; [apply law_InsertTimer|..].
  - intros. by eapply wp_faulty; [by apply law_FireTimerCAS|..].
  - intros. by eapply wp_faulty; [apply law_CancelTimersForRun|..].
  - intros. by eapply wp_faulty; [apply law_InsertSignal|..].
  - intros. by eapply wp_faulty; [apply law_ListUnprocessedSignals|..].
  - intros. by eapply wp_faulty; [apply law_MarkSignalProcessed|..].
  - intros. eapply wp_faulty; [by apply law_AppendHistory|naive_solver..].
Defined.
End store.
End Faults.
