(* ===== verification/Production.v ===== *)
(** The server as it is deployed: the HTTP and gRPC handlers and the background loops
    (Serving.v) over the PostgreSQL store (Postgres.v) behind a connection that may fail at
    any statement (Faults.v).  What the theorems about reachable states say of this
    configuration, in terms of sequences of events only. *)

From stdpp Require Import gmap strings list relations.
From S2P Require Import Prelude GoLib Json Types MemStore Dsl Engine Lifecycle.
From S2P Require Import LifecycleInv Worlds Contract MemSpec Reconcile EngineSpec EngineOps RunCreate.
From S2P Require Import System Liveness Demo Services Grpc Http ApiSpec Serving.
From S2P Require Import Postgres PostgresLaws Jsonb Faults.
Open Scope Z_scope.

Module Production.
Import Lifecycle LifecycleInv Worlds Contract EngineOps System Demo Serving PostgresLaws.

(** * Sound tables *)

(** What makes the tables of a scheduler right, on their own. *)
Record sound (d : Tables) : Prop := {
  (** A step has started only after everything it depends on has completed. *)
  sd_deps : ∀ id s dep, steps d !! id = Some s → started (Step.Status s) = true →
    dep ∈ Step.DependsOn s → ∃ id' p, steps d !! id' = Some p ∧ Step.StepName p = dep ∧
      Step.WorkflowRunID p = Step.WorkflowRunID s ∧ Step.Status p = StepCompleted;
  (** It is tried no more often than allowed, and its attempts are numbered 1, 2, ... *)
  sd_budget : ∀ id s, steps d !! id = Some s → 0 ≤ Step.AttemptCount s ≤ Step.MaxAttempts s;
  sd_numbered : ∀ id a, attempts d !! id = Some a → ∃ s, steps d !! TaskAttempt.StepID a = Some s ∧
    1 ≤ TaskAttempt.AttemptNumber a ≤ Step.AttemptCount s;
  sd_distinct : ∀ id a id' a', attempts d !! id = Some a → attempts d !! id' = Some a' →
    TaskAttempt.StepID a = TaskAttempt.StepID a' →
    TaskAttempt.AttemptNumber a = TaskAttempt.AttemptNumber a' → id = id';
  (** Every attempt is announced to the workers by exactly one outbox row. *)
  sd_announced : ∀ id a, attempts d !! id = Some a →
    exists! k, ∃ m, outbox d !! k = Some m ∧ announces m a;
  (** A finished run has only finished steps, a completed one only completed steps. *)
  sd_verdict : ∀ rid r id s, runs d !! rid = Some r → steps d !! id = Some s →
    Step.WorkflowRunID s = rid → RunTerminal (WorkflowRun.Status r) = true →
    StepTerminal (Step.Status s) = true ∧
    (WorkflowRun.Status r = RunCompleted → Step.Status s = StepCompleted);
  (** The history of a run is numbered without gaps. *)
  sd_history : ∀ rid r, runs d !! rid = Some r →
    HistoryEvent.Seq <$> default [] (history d !! rid) =
      Z.of_nat <$> seq 1 (Z.to_nat (WorkflowRun.HistorySeq r))
}.

(** What an execution may not take back. *)
Record settled (d d' : Tables) : Prop := {
  st_steps : ∀ id s, steps d !! id = Some s → StepTerminal (Step.Status s) = true →
    steps d' !! id = Some s;
  st_runs : ∀ id r, runs d !! id = Some r → RunTerminal (WorkflowRun.Status r) = true →
    ∃ n, WorkflowRun.HistorySeq r ≤ n ∧ runs d' !! id = Some (run_with_seq r n);
  st_attempts : ∀ id a, attempts d !! id = Some a → live (TaskAttempt.Status a) = false →
    attempts d' !! id = Some a;
  st_history : ∀ id l, history d !! id = Some l → ∃ l', history d' !! id = Some (l ++ l')
}.

Lemma Inv_sound d o f : Inv (mkCfg d o f) → sound d.
Proof.
  intros Hinv. pose proof (inv_steps _ Hinv) as Hs. pose proof (inv_att _ Hinv) as Ha.
  pose proof (inv_out _ Hinv) as Ho. simpl in *. split.
  - intros id s dep Hid Hst Hd. destruct (si_deps _ Hs id s Hid Hst dep Hd) as (i & p & Hp & Hr & Hn & Hc).
    apply bool_decide_eq_true in Hc. eauto 7.
  - intros id s Hid. pose proof (si_count _ Hs id s Hid) as Hc. pose proof (si_max _ Hs id s Hid) as Hm.
    unfold count_ok in Hc. destruct (Step.Status s); lia.
  - intros id a Hid. destruct (ai_step _ _ _ Ha id a Hid) as (s & ? & _ & ?). eauto.
  - intros id a id' a' H1 H2 E1 E2. eapply (ai_uniq _ _ _ Ha); eauto.
  - intros id a Hid. destruct (oi_complete _ _ _ Ho id a Hid) as (k & m & Hm & Eagg).
    destruct (oi_sound _ _ _ Ho k m Hm) as (b & Hb & Han). rewrite Eagg, Hid in Hb. injection Hb as <-.
    exists k. split; [eauto|]. intros k' (m' & Hm' & Han').
    eapply (oi_uniq _ _ _ Ho); eauto. rewrite Eagg, <-(ai_key _ _ _ Ha id a Hid). symmetry. apply Han'.
  - intros rid r id s Hr Hid Hrun Ht. pose proof (ri_verdict _ _ (inv_runs _ Hinv) rid r Hr) as Hv. simpl in Hv.
    destruct (WorkflowRun.Status r); simpl in *; try done; (split; [|try done]).
    all: try (destruct Hv as [Hv _]); pose proof (Hv id s Hid Hrun) as Hx; simpl in Hx; rewrite ?Hx; done.
  - intros rid r Hr. exact (proj1 (hi_seq _ _ (inv_hist _ Hinv) rid r Hr)).
Qed.

Lemma evolves_settled d d' : evolves d d' → settled d d'.
Proof.
  intros [H1 H2 H3 _ H5]. split.
  - intros id s Hs Ht. destruct (H1 id s Hs) as (s' & -> & Hev). f_equal. by apply Hev.
  - intros id r Hr Ht. destruct (H2 id r Hr) as (r' & -> & Hev).
    destruct (re_final _ _ Hev Ht) as [Hle Er]. eexists. split; [exact Hle|]. by f_equal.
  - intros id a Ha Hl. destruct (H3 id a Ha) as (a' & -> & Hev). f_equal. by apply Hev.
  - intros id l Hl. destruct (H5 id l Hl) as (l' & -> & [k ->]). eauto.
Qed.

Definition production_store {E : Env} {P : Pg} {F : Faults} : Store :=
  Faults.faulty_store Postgres.postgres_store.

Section production.
Context {E : Env} {P : Pg} {F : Faults} {C : Http.Codec}.

Definition production_laws (Hdoc : jsonb_documented) : StoreLaws production_store :=
  Faults.faulty_laws Postgres.postgres_store (L := postgres_laws Hdoc) I.

#[local] Existing Instance production_store.

(** C1.  The deployed server is right whatever fails: over PostgreSQL, with statements,
    transactions and commits failing at any time and answers to commits lost, after any
    sequence of HTTP requests, RPCs and iterations of the background loops the tables are
    sound (no step started before its dependencies completed, none tried more often than
    allowed, every attempt announced exactly once, every verdict on a run right, histories
    without gaps), and whatever happens afterwards, finished steps and attempts keep
    their rows, finished runs theirs but for the number of the last history event, and
    histories only grow. *)
Theorem production_sound {Q} (Publish : string → TaskPayload.t → GoM Q string) evs evs' :
  uuid_unique → jsonb_documented →
  let w := serve_all Publish evs init.1 in
  let w' := serve_all Publish evs' w in
  sound (db w) ∧ sound (db w') ∧ settled (db w) (db w').
Proof.
  intros Hu Hdoc w w'. pose (L := production_laws Hdoc).
  destruct (serve_all_simulated Hu Publish evs init.1 [] (rtc_refl _ _)) as (fl & Hs & _).
  destruct (serve_all_simulated Hu Publish evs' w (fl ++ []) Hs) as (fl' & Hs' & _).
  pose proof (reachable_trans _ _ Hs Hs') as Hr'. split_and!.
  - exact (Inv_sound _ _ _ (reachable_Inv Hu _ Hs)).
  - exact (Inv_sound _ _ _ (reachable_Inv Hu _ Hr')).
  - apply evolves_settled. exact (steps_evolve Hu _ _ Hs Hs').
Qed.
End production.

(** * An execution *)

(** PostgreSQL keeps JSON documents in normal form. *)
Definition demo_pg : Pg := {|
  jsonb j := Some (Jsonb.normalise j);
  text_ok _ := true;
  text_le a b := true;
  timestamptz t := t;
  interval_seconds z := z * 1000000000;
  history_serial := Z.of_nat
|}.

Lemma demo_documented : jsonb_documented (P := demo_pg).
Proof. intros j j' [= <-]. apply Jsonb.normalise_same. Defined.

(** The second statement and one commit fail, and the answer to another commit is lost. *)
Definition demo_faults : Faults := {|
  fails n := bool_decide (n ∈ [2%nat]);
  commit_fails n := (33 <=? n)%nat && (n <=? 60)%nat;
  answer_lost n := (61 <=? n)%nat
|}.

Section demo_production.
#[local] Existing Instances demo_pg demo_faults production_store ApiSpec.demo_codec.

Definition post (r : Http.route) : @event unit :=
  ServeHTTP None None "k" [] (Http.Request.mk false "" "Bearer k" r).
Definition etl_json : bytes := default (Malformed "") (Text <$> Workflowdsl.ToJSON etl).
Definition define : @event unit := post (Http.PostDefinitions (inr etl_json)).
Definition launch : @event unit :=
  post (Http.PostRuns (inr (JObj [("name", JStr "etl"); ("version", JInt 0)]))).

Definition key : option (string → list string) := Some (λ _, ["Bearer k"]).
Definition claim : @event unit :=
  ClaimTask "k" key 30 (Grpc.ClaimTaskRequest.mk "17" "18" "w1").
Definition report : @event unit :=
  ReportResult "k" key (Grpc.ReportResultRequest.mk "17" "w1" true (Text (JObj [])) "").
Definition demo_events : list (@event unit) := [define; define; launch; launch; claim].

(** The second registration meets a failed statement and the second launch a failed
    commit; the first result is recorded although its answer is lost, and reporting it
    again changes nothing. *)
Lemma production_sound_witness :
  let w := serve_all (λ _ _, mret "0") demo_events init.1 in
  let w' := serve_all (λ _ _, mret "0") [report; report] w in
  size (runs (db w)) = 1%nat ∧
  (Step.Status <$> steps (db w') !! 7%N, Step.Status <$> steps (db w') !! 9%N) =
    (Some StepCompleted, Some StepQueued) ∧
  sound (db w) ∧ sound (db w') ∧ settled (db w) (db w').
Proof.
  cbv zeta. split; [vm_compute; reflexivity|]. split; [vm_compute; reflexivity|].
  exact (production_sound (λ _ _, mret "0") demo_events [report; report] demo_unique demo_documented).
Defined.
End demo_production.
End Production.
