(* ===== verification/Concurrency.v ===== *)
(** Transactions of PostgreSQL that overlap.  [pool.Begin] (internal/store/postgres/postgres.go)
    opens transactions at the default isolation level, READ COMMITTED: a statement sees what
    other transactions have committed before it, also after the transaction has begun.

    Of the interleavings this allows, the one below runs another transaction as a whole
    between the reads and the writes of [CancelRun], where no row is locked yet. *)

From stdpp Require Import gmap strings list relations.
From S2P Require Import Prelude GoLib Json Types MemStore Dsl Engine Lifecycle.
From S2P Require Import LifecycleInv Worlds Contract MemSpec Reconcile EngineSpec EngineOps RunCreate.
From S2P Require Import System Liveness Demo Services Grpc Http ApiSpec Serving.
From S2P Require Import Postgres PostgresLaws Jsonb Faults Production.
Open Scope Z_scope.

Module Concurrency.
Import Worlds System Demo Serving Production.

Section cancel.
Context `{Env} `{!Store}.

(** [CancelRun] with [other] committed after its second read. *)
Definition CancelRun_between (other : World → World) (runID : uuid) : GoM World unit :=
  WithTx (
    run ← GetWorkflowRun runID;
    if RunTerminal (WorkflowRun.Status run) then mret tt
    else
      steps ← GetSteps runID;
      _ ← modify other;
      _ ← foldM (λ _ s,
            if StepTerminal (Step.Status s) then mret tt
            else _ ← UpdateStepStatus (Step.ID s) [Step.Status s] StepCancelled None None false;
                 mret tt) tt steps;
      _ ← CancelTimersForRun runID;
      _ ← UpdateWorkflowRunStatus runID [RunPending; RunRunning] RunCancelled None None;
      _ ← AppendHistory runID "run_cancelled" None;
      mret tt).

(** With nothing in between it is [CancelRun]. *)
Lemma CancelRun_alone runID : CancelRun_between (λ w, w) runID = Engine.CancelRun runID.
Proof. reflexivity. Qed.
End cancel.

Definition no_faults : Faults := {|
  fails _ := false; commit_fails _ := false; answer_lost _ := false
|}.

Section race.
#[local] Existing Instances demo_pg no_faults production_store ApiSpec.demo_codec.

(** Run 4 of the example workflow is under way: [fetch] (step 6) is being executed, [store]
    (step 8) depends on it. *)
Definition under_way : World := serve_all (λ _ _, mret "0")
  [define; launch; ClaimTask "k" key 30 (Grpc.ClaimTaskRequest.mk "16" "17" "w1")] init.1.

(** Meanwhile the worker reports the result of [fetch]. *)
Definition fetch_reported : World → World :=
  λ w, (Engine.HandleTaskResult 16 "w1" true (Some (Text (JObj []))) None w).2.

Definition raced : World := (CancelRun_between fetch_reported 4 under_way).2.

(** C40.  Cancelling a run can miss a step: [CancelRun] reads the steps, and then updates each
    only if it still has the status that was read, without looking at the answer.  If, over
    PostgreSQL, a result is reported in between, the step it makes startable is dispatched, the
    cancellation passes over it and succeeds, and the run is CANCELLED with a QUEUED step and
    a QUEUED attempt: no longer a sound state, although the state before was, and
    re-evaluating the run changes nothing. *)
Theorem cancel_misses_step :
  sound (db under_way) ∧
  CancelRun_between fetch_reported 4 under_way = (Ok tt, raced) ∧
  WorkflowRun.Status <$> runs (db raced) !! 4%N = Some RunCancelled ∧
  (λ s, (Step.StepName s, Step.Status s)) <$> steps (db raced) !! 8%N = Some ("store", StepQueued) ∧
  (∃ id a, attempts (db raced) !! id = Some a ∧ TaskAttempt.StepID a = 8%N ∧ TaskAttempt.Status a = AttemptQueued) ∧
  ¬ sound (db raced) ∧
  db (Engine.Reconcile 4 raced).2 = db raced.
Proof.
  split.
  { destruct (serve_all_simulated (L := production_laws demo_documented) demo_unique (Q := unit) (λ _ _, mret "0")
      [define; launch; ClaimTask "k" key 30 (Grpc.ClaimTaskRequest.mk "16" "17" "w1")] init.1 [] (rtc_refl _ _))
      as (fl & Hs & _).
    exact (Inv_sound _ _ _ (reachable_Inv (L := production_laws demo_documented) demo_unique _ Hs)). }
  split; [vm_compute; reflexivity|]. split; [vm_compute; reflexivity|]. split; [vm_compute; reflexivity|].
  split.
  { destruct (attempts (db raced) !! 55%N) as [a|] eqn:Ha; [|vm_compute in Ha; discriminate].
    exists 55%N, a. split; [exact Ha|]. vm_compute in Ha. injection Ha as <-. split; reflexivity. }
  split; [|vm_compute; reflexivity].
  intros Hs. destruct (runs (db raced) !! 4%N) as [r|] eqn:Hr; [|vm_compute in Hr; discriminate].
  destruct (steps (db raced) !! 8%N) as [st|] eqn:Hst; [|vm_compute in Hst; discriminate].
  destruct (sd_verdict _ Hs 4%N r 8%N st Hr Hst) as [Ht _].
  - vm_compute in Hst. injection Hst as <-. reflexivity.
  - vm_compute in Hr. injection Hr as <-. reflexivity.
  - vm_compute in Hst. injection Hst as <-. discriminate Ht.
Qed.
End race.
End Concurrency.
