(* ===== verification/Migrations.v ===== *)
(** internal/store/postgres/postgres.go: [New] and [runMigrations], the schema updates
    a server applies before it starts.

    The files are embedded in the program; what a file does to the schema is SQL and an
    argument, [exec].  Every call of the database can fail, and its answer can get lost
    after it took effect; one server migrates at a time. *)

From stdpp Require Import gmap strings list sorting.
From Stdlib Require Import String.
From S2P Require Import Prelude.

Module Migrations.

(** What became of a call: answered, failed without effect, or carried out with the answer
    lost. *)
Inductive fate := Answered | Refused | Unanswered.

Definition name_le (a b : string) : Prop := String.leb a b = true.
#[export] Instance name_le_dec a b : Decision (name_le a b).
Proof. unfold name_le. apply _. Defined.
#[export] Instance name_le_total : Total name_le.
Proof. intros a b. apply String.leb_total. Qed.

(** [strings.HasSuffix] *)
Definition HasSuffix (s ending : string) : bool :=
  bool_decide (String.list_ascii_of_string ending `suffix_of` String.list_ascii_of_string s).

Section migrations.
Context {Schema : Type} (exec : string → Schema → option Schema).
Context (files : gmap string string) (answer : nat → fate).

(** The schema, and the file names recorded in schema_migrations. *)
Record Database := mkDatabase { schema : Schema; recorded : gset string }.

(** The database, and the number of calls made so far. *)
Abbreviation state := (Database * nat)%type.

Definition ErrConn : error := Errorf "connection lost".
Definition ErrSQL : error := Errorf "statement failed".

(** A statement outside a transaction, and COMMIT. *)
Definition statement (f : Database → option Database) : GoM state unit := λ '(d, n),
  match answer n, f d with
  | Answered, Some d' => (Ok tt, (d', S n))
  | Answered, None => (Err ErrSQL, (d, S n))
  | Unanswered, Some d' => (Err ErrConn, (d', S n))
  | _, _ => (Err ErrConn, (d, S n))
  end.

(** A statement inside a transaction: it sees and changes the transaction's copy [d].  After
    an error the transaction is rolled back. *)
Definition in_tx (f : Database → option Database) (d : Database) : GoM state Database := λ '(s, n),
  match answer n, f d with
  | Answered, Some d' => (Ok d', (s, S n))
  | Answered, None => (Err ErrSQL, (s, S n))
  | _, _ => (Err ErrConn, (s, S n))
  end.

(** SELECT EXISTS(... WHERE filename = $1) *)
Definition already_applied (name : string) : GoM state bool := λ '(d, n),
  match answer n with
  | Answered => (Ok (bool_decide (name ∈ recorded d)), (d, S n))
  | _ => (Err ErrConn, (d, S n))
  end.

Definition run_file (sql : string) (d : Database) : option Database :=
  s ← exec sql (schema d); Some (mkDatabase s (recorded d)).

(** INSERT INTO schema_migrations; filename is the primary key. *)
Definition record_file (name : string) (d : Database) : option Database :=
  if bool_decide (name ∈ recorded d) then None
  else Some (mkDatabase (schema d) ({[name]} ∪ recorded d)).

(** One iteration of the loop. *)
Definition migrate_one (_ : unit) (name : string) : GoM state unit :=
  already ← already_applied name;
  if already : bool then mret tt
  else
    match files !! name with
    | None => fail (Errorf "file does not exist")
    | Some sql =>
        _ ← statement Some;
        d ← gets fst;
        d ← in_tx (run_file sql) d;
        d ← in_tx (record_file name) d;
        statement (λ _, Some d)
    end.

Definition names : list string :=
  merge_sort name_le (List.filter (λ n, HasSuffix n ".sql") (map_to_list files).*1).

Definition runMigrations : GoM state unit :=
  _ ← statement Some;
  foldM migrate_one tt names.

(** [fmt.Errorf("postgres: ...: %w", err)] *)
Definition wrap {A} (msg : string) (m : GoM state A) : GoM state A := λ s,
  match m s with (Err e, s') => (Err (Wrapf msg e), s') | r => r end.

(** [New]: [connect] is the error of [pgxpool.New], if any. *)
Definition New (connect : option error) : GoM state unit :=
  match connect with
  | Some e => fail (Wrapf "postgres: connect" e)
  | None =>
      _ ← wrap "postgres: ping" (statement Some);
      wrap "postgres: migrate" runMigrations
  end.

(** * Every run makes progress along one sequence *)

(** A file applied and recorded, all or nothing. *)
Definition apply_file (d : Database) (name : string) : option Database :=
  sql ← files !! name; s ← exec sql (schema d); Some (mkDatabase s ({[name]} ∪ recorded d)).

Fixpoint apply_files (l : list string) (d : Database) : option Database :=
  match l with [] => Some d | n :: l => d' ← apply_file d n; apply_files l d' end.

(** The files still to be applied, in order. *)
Definition pending_in (l : list string) (d : Database) : list string :=
  List.filter (λ n, bool_decide (n ∉ recorded d)) l.
Definition pending (d : Database) : list string := pending_in names d.

Lemma names_nodup : NoDup names.
Proof.
  unfold names. rewrite merge_sort_Permutation. apply NoDup_ListNoDup, List.NoDup_filter, NoDup_ListNoDup.
  apply NoDup_fst_map_to_list.
Qed.

Lemma names_sorted : Sorted name_le names.
Proof. apply Sorted_merge_sort, _. Qed.

(** What one iteration may do: nothing, or the whole file. *)
Lemma migrate_one_spec name d n r d' n' :
  migrate_one tt name (d, n) = (r, (d', n')) →
  (d' = d ∧ (r = Ok tt → name ∈ recorded d)) ∨ ((name ∉ recorded d) ∧ apply_file d name = Some d').
Proof.
  unfold migrate_one, already_applied, statement, in_tx, apply_file, run_file, record_file,
    mbind, GoM_bind, gets, mret, GoM_ret, fail, option_bind.
  destruct (answer n); [|naive_solver..].
  case_bool_decide as Hin; [naive_solver|]. destruct (files !! name) as [sql|]; [|naive_solver].
  destruct (answer (S n)); [|naive_solver..]. simpl.
  destruct (answer (S (S n))); destruct (exec sql (schema d)) as [s|]; [|naive_solver..]. simpl.
  rewrite bool_decide_eq_false_2 by done.
  destruct (answer (S (S (S n)))); [|naive_solver..].
  destruct (answer (S (S (S (S n))))); naive_solver.
Qed.

Lemma pending_skip l d d' name :
  name ∉ l → recorded d' = {[name]} ∪ recorded d → pending_in l d' = pending_in l d.
Proof.
  intros Hn Hr. unfold pending_in. induction l as [|x l IH]; [done|]. simpl.
  apply not_elem_of_cons in Hn as [Hx Hn]. rewrite IH by done.
  by rewrite (bool_decide_ext (x ∉ recorded d') (x ∉ recorded d)) by (rewrite Hr; set_solver).
Qed.

Lemma apply_file_recorded d name d' :
  apply_file d name = Some d' → recorded d' = {[name]} ∪ recorded d.
Proof.
  unfold apply_file. destruct (files !! name) as [sql|]; [|done]. simpl.
  destruct (exec sql (schema d)); [|done]. by intros [= <-].
Qed.

Lemma apply_files_mono l d d' : apply_files l d = Some d' → recorded d ⊆ recorded d'.
Proof.
  revert d. induction l as [|x l IH]; intros d; simpl; [by intros [= ->]|].
  destruct (apply_file d x) as [d1|] eqn:Ea; [|done]. apply apply_file_recorded in Ea.
  simpl. intros Hl%IH. set_solver.
Qed.

Lemma pending_cons name l d :
  pending_in (name :: l) d = if bool_decide (name ∉ recorded d) then name :: pending_in l d else pending_in l d.
Proof. done. Qed.
Lemma pending_old name l d : name ∈ recorded d → pending_in (name :: l) d = pending_in l d.
Proof. intros Hin. rewrite pending_cons, bool_decide_eq_false_2; naive_solver. Qed.

Lemma loop_spec l d n r d' n' : NoDup l →
  foldM migrate_one tt l (d, n) = (r, (d', n')) →
  ∃ applied, pending_in l d = applied ++ pending_in l d' ∧ apply_files applied d = Some d' ∧
    (r = Ok tt → pending_in l d' = []).
Proof.
  revert d n. induction l as [|name l IH]; intros d n Hnd.
  { cbn. intros [= <- <- <-]. by exists []. }
  apply NoDup_cons in Hnd as [Hnin Hnd]. cbn [foldM]. unfold mbind, GoM_bind.
  destruct (migrate_one tt name (d, n)) as [r1 [d1 n1]] eqn:Em. apply migrate_one_spec in Em.
  destruct Em as [[-> Hok]|[Hno Happ]].
  - destruct r1 as [[]|e]; [|intros [= <- <- <-]; exists []; done].
    specialize (Hok eq_refl). intros (l1 & E1 & E2 & E3)%IH; [|done].
    exists l1. pose proof (apply_files_mono _ _ _ E2). rewrite !pending_old by set_solver. done.
  - pose proof (apply_file_recorded _ _ _ Happ) as Hrec. rewrite (pending_cons name l d), bool_decide_eq_true_2 by done.
    rewrite <-(pending_skip l d d1 name Hnin Hrec).
    assert (name ∈ recorded d1) as Hin1 by (rewrite Hrec; set_solver).
    destruct r1 as [[]|e].
    + intros (l1 & E1 & E2 & E3)%IH; [|done]. exists (name :: l1). pose proof (apply_files_mono _ _ _ E2).
      rewrite pending_old by set_solver. simpl. rewrite Happ, E1. done.
    + intros [= <- <- <-]. exists [name]. rewrite pending_old by done. simpl. by rewrite Happ.
Qed.

Lemma runMigrations_spec d n r d' n' :
  runMigrations (d, n) = (r, (d', n')) →
  Sorted name_le names ∧
  ∃ applied, pending d = applied ++ pending d' ∧ apply_files applied d = Some d' ∧
    (r = Ok tt → pending d' = []).
Proof.
  intros Hrun. split; [apply names_sorted|]. unfold runMigrations, statement, mbind, GoM_bind in Hrun.
  destruct (answer n); [by eapply loop_spec, Hrun; apply names_nodup| |];
    injection Hrun as <- <- <-; by exists [].
Qed.

(** A store is handed out only on a fully migrated database. *)
Lemma New_migrated connect d n d' n' : New connect (d, n) = (Ok tt, (d', n')) → pending d' = [].
Proof.
  unfold New, wrap. destruct connect; [done|]. unfold mbind, GoM_bind.
  destruct (statement Some (d, n)) as [[[]|e] [d1 n1]]; [|done].
  destruct (runMigrations (d1, n1)) as [[[]|e] [d2 n2]] eqn:Hrun; [|done]. intros [= <- <-].
  destruct (runMigrations_spec _ _ _ _ _ Hrun) as (_ & ? & _ & _ & Hp). by apply Hp.
Qed.

(** C36.  Migrations converge: whatever fails, [runMigrations] moves the database along one
    fixed sequence, the unrecorded files in the order of their names.  It leaves the
    database after some beginning of that sequence, each file applied and recorded as a
    whole or not at all, so that the next run continues with exactly the rest; and when it
    reports success nothing is left.  Hence [New] hands out a store only on a fully
    migrated database. *)
Theorem migrations_converge d n r d' n' :
  runMigrations (d, n) = (r, (d', n')) →
  Sorted name_le names ∧
  (∃ applied, pending d = applied ++ pending d' ∧ apply_files applied d = Some d' ∧
     (r = Ok tt → pending d' = [])) ∧
  ∀ connect d n d' n', New connect (d, n) = (Ok tt, (d', n')) → pending d' = [].
Proof.
  intros Hrun. destruct (runMigrations_spec _ _ _ _ _ Hrun) as [Hs Hp]. split_and!; [done..|].
  intros. by eapply New_migrated.
Qed.
End migrations.

(** Three files, the first already applied, and a connection that breaks at the commit of the
    second. *)
Definition demo_files : gmap string string :=
  {["0001_init.sql" := "a"; "0002_index.sql" := "b"; "0003_more.sql" := "c"; "README.md" := "x"]}.

Definition demo_exec (sql : string) (s : list string) : option (list string) := Some (s ++ [sql]).

Lemma migrations_converge_witness :
  Sorted name_le (names demo_files) ∧
  ∃ applied, pending demo_files (mkDatabase ["a"%string] {["0001_init.sql"%string]}) =
      applied ++ pending demo_files
        (mkDatabase ["a"; "b"]%string {["0002_index.sql"; "0001_init.sql"]}%string) ∧
    apply_files demo_exec demo_files applied (mkDatabase ["a"%string] {["0001_init.sql"%string]}) =
      Some (mkDatabase ["a"; "b"]%string {["0002_index.sql"; "0001_init.sql"]}%string) ∧
    (Err (A:=unit) ErrConn = Ok tt →
       pending demo_files (mkDatabase ["a"; "b"]%string {["0002_index.sql"; "0001_init.sql"]}%string) = []).
Proof.
  destruct (migrations_converge demo_exec demo_files (λ k, if decide (k = 6) then Unanswered else Answered)
           (mkDatabase ["a"%string] {["0001_init.sql"%string]}) 0 (Err ErrConn)
           (mkDatabase ["a"; "b"]%string {["0002_index.sql"; "0001_init.sql"]}%string) 7)
    as (Hs & Happ & _); [vm_compute; reflexivity|split; assumption].
Defined.
End Migrations.
