(* ===== verification/Streams.v ===== *)
(** internal/queue/redisstream: the task queue on Redis Streams consumer groups.

    Redis is not part of the source: [RedisStream] is what the queue uses of it, for one
    stream and its one group ("workers"), and the laws are the documented behaviour of XADD,
    XGROUP CREATE, XREADGROUP, XAUTOCLAIM and XACK.  [list_stream] is an implementation of
    the laws.  As in Worker.v the network may lose a command, or its reply.  One iteration
    of a loop is one definition; the send of a message into the channel of [Consume] either
    happens or the loop ends because the context was cancelled. *)

From stdpp Require Import gmap strings list relations pretty.
From S2P Require Import Prelude GoLib Types Grpc Worker.
Open Scope Z_scope.

(** The values of an entry, seen through [json.Unmarshal] as in Worker.v. *)
Abbreviation values_of := (gmap string (option TaskPayload.t)).

(** What a client can find out about the stream: the time in milliseconds, the entries, and
    for the group (if it exists) the last id delivered and the pending entries, each with
    its consumer and the time of its last delivery. *)
Record view := mkView {
  clock : Z;
  entries : gmap Z values_of;
  group : option (Z * gmap Z (string * Z))
}.

Definition busy : string := "BUSYGROUP Consumer Group name already exists".

(** [l] are entries of [m]; afterwards they are pending for [c] since [t]. *)
Definition deliver (c : string) (t : Z) (l : list (Z * values_of)) (pel : gmap Z (string * Z))
    : gmap Z (string * Z) :=
  foldr (λ e, insert e.1 (c, t)) pel l.

(** Entry [i] has been pending for at least [idle]. *)
Definition idle_entry (v : view) (pel : gmap Z (string * Z)) (idle i : Z) : Prop :=
  is_Some (entries v !! i) ∧ ∃ c t, pel !! i = Some (c, t) ∧ t + idle ≤ clock v.

(** A group created at the id [start] considers the entries up to [s] delivered: "0" is
    before every entry, "$" after all there are; [entry_id] writes ids in full. *)
Definition starts (entry_id : Z → string) (start : string) (v : view) (s : Z) : Prop :=
  start = "0" ∧ s = 0 ∨
  start = "$" ∧ (∀ i, is_Some (entries v !! i) → i ≤ s) ∨
  start = entry_id s ∧ is_Some (entries v !! s).

Class RedisStream := {
  rstate : Type;
  look : rstate → view;
  entry_id : Z → string;
  entry_id_inj : Inj (=) (=) entry_id;
  entry_id_0 : entry_id 0 = "0-0";
  entry_id_full i : entry_id i ≠ "0";

  XADD : values_of → rstate → string * rstate;
  (** XGROUP CREATE at an id, with MKSTREAM; the error of the server, if any. *)
  XGROUP_CREATE : string → rstate → option string * rstate;
  (** [None]: an error, such as NOGROUP, or no new entry ([redis.Nil]). *)
  XREADGROUP : string → nat → rstate → option (list (Z * values_of)) * rstate;
  XAUTOCLAIM : string → Z → string → nat → rstate → option (list (Z * values_of) * string) * rstate;
  XACK : string → rstate → Z * rstate;
  elapses : rstate → rstate → Prop;

  XADD_spec v r : let '(id, r') := XADD v r in
    ∃ i, id = entry_id i ∧ 0 < i ∧ entries (look r) !! i = None ∧
      (∀ last pel, group (look r) = Some (last, pel) → last < i) ∧
      look r' = mkView (clock (look r)) (<[i := v]> (entries (look r))) (group (look r));
  XGROUP_CREATE_spec start r : let '(e, r') := XGROUP_CREATE start r in
    match group (look r), e with
    | Some _, _ => e = Some busy ∧ look r' = look r
    | None, None => ∃ s, starts entry_id start (look r) s ∧
        look r' = mkView (clock (look r)) (entries (look r)) (Some (s, ∅))
    | None, Some _ => look r' = look r
    end;
  (** New entries in the order of their ids, without gaps. *)
  XREADGROUP_spec c n r : let '(o, r') := XREADGROUP c n r in
    match o, group (look r) with
    | Some l, Some (last, pel) => ∃ last', last ≤ last' ∧
        (∀ i v, (i, v) ∈ l ↔ last < i ≤ last' ∧ entries (look r) !! i = Some v) ∧
        look r' = mkView (clock (look r)) (entries (look r))
                    (Some (last', deliver c (clock (look r)) l pel))
    | Some _, None => False
    | None, _ => look r' = look r
    end;
  (** A part of the pending entries, from the cursor on: those idle long enough change hands,
      and the scan continues at the returned cursor, which is 0-0 at the end. *)
  XAUTOCLAIM_spec c idle s n r : let '(o, r') := XAUTOCLAIM c idle (entry_id s) n r in
    match o, group (look r) with
    | Some (l, next), Some (last, pel) =>
        (∀ i v, (i, v) ∈ l → idle_entry (look r) pel idle i ∧ entries (look r) !! i = Some v) ∧
        (∃ s', next = entry_id s' ∧
           ((s' = 0 ∧ ∀ i, s ≤ i → idle_entry (look r) pel idle i → i ∈ l.*1) ∨
            (s < s' ∧ s' ≠ 0 ∧ ∀ i, s ≤ i < s' → idle_entry (look r) pel idle i → i ∈ l.*1))) ∧
        look r' = mkView (clock (look r)) (entries (look r))
                    (Some (last, deliver c (clock (look r)) l pel))
    | Some _, None => False
    | None, _ => look r' = look r
    end;
  XACK_spec id r : let '(_, r') := XACK id r in
    match group (look r) with
    | Some (last, pel) => ∃ pel',
        look r' = mkView (clock (look r)) (entries (look r)) (Some (last, pel')) ∧
        ∀ i, pel' !! i = if bool_decide (entry_id i = id) then None else pel !! i
    | None => look r' = look r
    end;
  elapses_spec r r' : elapses r r' →
    clock (look r) ≤ clock (look r') ∧ entries (look r') = entries (look r) ∧
    group (look r') = group (look r)
}.

(** * An implementation of the laws

    The ids are 1-1, 1-2, ...; a read returns all new entries, and a claim scans all pending
    ones. *)

Definition seq_id (z : Z) : string := if decide (z = 0) then "0-0" else "1-" +:+ pretty z.

#[export] Instance seq_id_inj : Inj (=) (=) seq_id.
Proof.
  intros a b. unfold seq_id. destruct (decide (a = 0)) as [->|], (decide (b = 0)) as [->|]; try done.
  intros Hp. simplify_eq/=. by apply (inj pretty).
Qed.

Definition top (v : view) : Z :=
  foldr Z.max (match group v with Some (last, _) => Z.max 0 last | None => 0 end) (map_to_list (entries v)).*1.

Lemma foldr_max_ge z l : z ≤ foldr Z.max z l.
Proof. induction l as [|x l IH]; simpl; lia. Qed.
Lemma foldr_max_elem z l x : x ∈ l → x ≤ foldr Z.max z l.
Proof. induction 1 as [|x y l _ IH]; simpl; lia. Qed.

Lemma top_entry v i x : entries v !! i = Some x → i ≤ top v.
Proof.
  intros Hx. apply foldr_max_elem, list_elem_of_fmap. exists (i, x). split; [done|].
  by apply elem_of_map_to_list.
Qed.
Lemma top_last v last pel : group v = Some (last, pel) → last ≤ top v.
Proof.
  intros Hg. unfold top. rewrite Hg.
  pose proof (foldr_max_ge (Z.max 0 last) (map_to_list (entries v)).*1). lia.
Qed.
Lemma top_pos v : 0 ≤ top v.
Proof.
  unfold top. destruct (group v) as [[last pel]|];
    [pose proof (foldr_max_ge (Z.max 0 last) (map_to_list (entries v)).*1); lia|apply foldr_max_ge].
Qed.

(** Where a group created at [start] begins. *)
Definition start_of (start : string) (v : view) : option Z :=
  if bool_decide (start = "0") then Some 0
  else if bool_decide (start = "$") then Some (top v)
  else fst <$> find (λ e, bool_decide (seq_id e.1 = start)) (map_to_list (entries v)).

Lemma start_of_starts start v s : start_of start v = Some s → starts seq_id start v s.
Proof.
  unfold start_of. case_bool_decide as E0; [intros [= <-]; by left|].
  case_bool_decide as E1.
  { intros [= <-]. right; left. split; [done|]. intros i [x Hx]. by eapply top_entry. }
  destruct (find _ _) as [[i x]|] eqn:Ef; [|done]. intros [= <-]. right; right.
  apply find_some in Ef as [Hin%list_elem_of_In Hid]. apply bool_decide_eq_true in Hid.
  apply elem_of_map_to_list in Hin. simpl in *. split; [done|by eexists].
Qed.

Definition new_entries (last : Z) (v : view) : list (Z * values_of) :=
  List.filter (λ e, last <? e.1) (map_to_list (entries v)).

Definition idle_now (v : view) (pel : gmap Z (string * Z)) (idle : Z) (e : Z * values_of) : bool :=
  match pel !! e.1 with Some (_, t) => t + idle <=? clock v | None => false end.

Lemma elem_of_idle v pel idle i x :
  (i, x) ∈ List.filter (idle_now v pel idle) (map_to_list (entries v)) ↔
  entries v !! i = Some x ∧ idle_entry v pel idle i.
Proof.
  rewrite list_elem_of_In, filter_In, <-list_elem_of_In, elem_of_map_to_list.
  unfold idle_now, idle_entry. simpl. split; intros [Hx Hi]; (split; [done|]).
  - destruct (pel !! i) as [[c t]|]; [|done]. split; [done|]. exists c, t. split; [done|lia].
  - destruct Hi as (_ & c & t & -> & ?). lia.
Qed.

#[refine] Definition list_stream : RedisStream := {|
  rstate := view;
  look := id;
  entry_id := seq_id;
  XADD x v := (seq_id (top v + 1), mkView (clock v) (<[top v + 1 := x]> (entries v)) (group v));
  XGROUP_CREATE start v := match group v, start_of start v with
    | Some _, _ => (Some busy, v)
    | None, Some s => (None, mkView (clock v) (entries v) (Some (s, ∅)))
    | None, None => (Some "ERR Invalid stream ID specified as stream command argument", v)
    end;
  XREADGROUP c n v := match group v with
    | Some (last, pel) =>
        (Some (new_entries last v),
         mkView (clock v) (entries v) (Some (top v, deliver c (clock v) (new_entries last v) pel)))
    | None => (None, v)
    end;
  XAUTOCLAIM c idle cursor n v := match group v with
    | Some (last, pel) =>
        let l := List.filter (idle_now v pel idle) (map_to_list (entries v)) in
        (Some (l, seq_id 0),
         mkView (clock v) (entries v) (Some (last, deliver c (clock v) l pel)))
    | None => (None, v)
    end;
  XACK i v := match group v with
    | Some (last, pel) => (1, mkView (clock v) (entries v)
        (Some (last, filter (λ p : Z * (string * Z), seq_id p.1 ≠ i) pel)))
    | None => (0, v)
    end;
  elapses v v' := clock v ≤ clock v' ∧ entries v' = entries v ∧ group v' = group v
|}.
Proof.
  - done.
  - intros i. unfold seq_id. by destruct (decide (i = 0)).
  - intros x v. simpl. exists (top v + 1). pose proof (top_pos v). split_and!; [done|lia| | |done].
    + destruct (entries v !! (top v + 1)) eqn:Ex; [|done]. apply top_entry in Ex. lia.
    + intros last pel Hg. apply top_last in Hg. lia.
  - intros start v. simpl. destruct (group v); [done|].
    destruct (start_of start v) as [s|] eqn:Es; [|done]. exists s. split; [by apply start_of_starts|done].
  - intros c n v. simpl. destruct (group v) as [[last pel]|] eqn:Eg; [|done]. exists (top v). split_and!; [|intros i x|done].
    + by eapply top_last.
    + unfold new_entries. rewrite list_elem_of_In, filter_In, <-list_elem_of_In, elem_of_map_to_list. simpl.
      split; [intros [Hx ?]; pose proof (top_entry _ _ _ Hx); split; [lia|done]|intros [? Hx]; split; [done|lia]].
  - intros c idle s n v. simpl. destruct (group v) as [[last pel]|] eqn:Eg; [|done]. split_and!; [| |done].
    + intros i x Hx%elem_of_idle. naive_solver.
    + exists 0. split; [done|]. left. split; [done|]. intros i _ Hid. destruct Hid as [[x Hx] Hid].
      apply list_elem_of_fmap. exists (i, x). split; [done|]. by apply elem_of_idle.
  - intros i v. simpl. destruct (group v) as [[last pel]|]; [|done]. eexists.
    split; [done|]. intros j. rewrite map_lookup_filter. case_bool_decide as Hj.
    + destruct (pel !! j) as [x|]; simpl; [|done]. by rewrite option_guard_False by (intros Hn; by apply Hn).
    + destruct (pel !! j) as [x|]; simpl; [|done]. by rewrite option_guard_True.
  - done.
Defined.

Module Redisstream.
Import Worker.

(** [strings.Contains] *)
Fixpoint Contains (s sub : string) : bool :=
  String.prefix sub s || match s with EmptyString => false | String.String _ s' => Contains s' sub end.

Section queue.
Context `{RedisStream}.

Definition EnsureGroup (f : fate) : GoM rstate unit :=
  res ← catch (send f (XGROUP_CREATE "0"));
  let err := match res with Err e => Some e | Ok msg => Errorf <$> msg end in
  match err with
  | Some e => if Contains (error_String e) "BUSYGROUP" then mret tt
              else fail (Wrapf "redisstream: ensure group" e)
  | None => mret tt
  end.

Definition Publish (f : fate) (payload : option TaskPayload.t) : GoM rstate string :=
  res ← catch (send f (XADD {["payload" := payload]}));
  match res with Ok id => mret id | Err e => fail (Wrapf "redisstream: publish" e) end.

Definition Ack (f : fate) (id : string) : GoM rstate unit :=
  res ← catch (send f (XACK id));
  match res with Ok _ => mret tt | Err e => fail (Wrapf "redisstream: ack" e) end.

Definition toMessage (stream : string) (m : Z * values_of) : Message.t :=
  Message.mk (entry_id m.1) stream (default None (m.2 !! "payload")) 1.

(** One iteration of [readLoop]; [sent] of the messages reach the channel before the context
    is cancelled, all of them if it is not.  Errors are logged. *)
Definition read_once (stream consumer : string) (f : fate) (sent : nat) : GoM rstate (list Message.t) :=
  res ← catch (send f (XREADGROUP consumer 16));
  mret (match res with
        | Ok (Some l) => take sent (toMessage stream <$> l)
        | _ => []
        end).

(** Where [reclaimLoop] starts. *)
Definition cursor0 : string := "0-0".

(** One iteration of [reclaimLoop]: the new cursor and the messages sent. *)
Definition reclaim_once (stream consumer : string) (idleTimeout : Z) (f : fate) (sent : nat)
    (cursor : string) : GoM rstate (string * list Message.t) :=
  res ← catch (send f (XAUTOCLAIM consumer idleTimeout cursor 32));
  mret (match res with
        | Ok (Some (l, next)) => (next, take sent (toMessage stream <$> l))
        | _ => (cursor, [])
        end).

(** * What happens to the stream *)

(** One event that is not a claim, with the ids it acknowledges. *)
Inductive plain : rstate → list string → rstate → Prop :=
| E_time r r' : elapses r r' → plain r [] r'
| E_group f r : plain r [] (EnsureGroup f r).2
| E_publish f p r : plain r [] (Publish f p r).2
| E_read stream c f n r : plain r [] (read_once stream c f n r).2
| E_ack f id r : plain r [id] (Ack f id r).2.

Inductive event : rstate → list string → rstate → Prop :=
| E_plain r acks r' : plain r acks r' → event r acks r'
| E_reclaim stream c idle f n s r : event r [] (reclaim_once stream c idle f n (entry_id s) r).2.

Inductive trace : rstate → list string → rstate → Prop :=
| trace_nil r : trace r [] r
| trace_cons r acks r1 acks' r2 : event r acks r1 → trace r1 acks' r2 → trace r (acks ++ acks') r2.

Lemma deliver_lookup c t l pel i :
  deliver c t l pel !! i = if bool_decide (i ∈ l.*1) then Some (c, t) else pel !! i.
Proof.
  unfold deliver. induction l as [|[j v] l IH]; [done|]. simpl. destruct (decide (i = j)) as [->|Hne].
  - rewrite lookup_insert_eq, bool_decide_eq_true_2; [done|constructor].
  - rewrite lookup_insert_ne, IH by done. case_bool_decide as Hin; case_bool_decide as Hin'; try done.
    + destruct Hin'. by constructor.
    + apply elem_of_cons in Hin' as [?|?]; done.
Qed.

(** ** The effect of an event on the state of Redis is that of at most one command *)

Lemma EnsureGroup_state f r (P : rstate → Prop) : P r → P (XGROUP_CREATE "0" r).2 → P (EnsureGroup f r).2.
Proof.
  intros H0 H1. pose proof (send_state f (XGROUP_CREATE "0") r P H0 H1) as Hs.
  unfold EnsureGroup, mbind, GoM_bind, catch. destruct (send f (XGROUP_CREATE "0") r) as [res r'].
  destruct res as [[msg|]|e]; simpl in *; [|done|]; by destruct (Contains _ _).
Qed.

Lemma Publish_state f p r (P : rstate → Prop) :
  P r → P (XADD {["payload" := p]} r).2 → P (Publish f p r).2.
Proof.
  intros H0 H1. pose proof (send_state f (XADD {["payload" := p]}) r P H0 H1) as Hs.
  unfold Publish, mbind, GoM_bind, catch. by destruct (send f (XADD {["payload" := p]}) r) as [[] r'].
Qed.

Lemma Ack_state f id r (P : rstate → Prop) : P r → P (XACK id r).2 → P (Ack f id r).2.
Proof.
  intros H0 H1. pose proof (send_state f (XACK id) r P H0 H1) as Hs.
  unfold Ack, mbind, GoM_bind, catch. by destruct (send f (XACK id) r) as [[] r'].
Qed.

Lemma read_state stream c f n r (P : rstate → Prop) :
  P r → P (XREADGROUP c 16 r).2 → P (read_once stream c f n r).2.
Proof.
  intros H0 H1. pose proof (send_state f (XREADGROUP c 16) r P H0 H1) as Hs.
  unfold read_once, mbind, GoM_bind, catch. by destruct (send f (XREADGROUP c 16) r) as [res r'].
Qed.

Lemma reclaim_state stream c idle f n cur r (P : rstate → Prop) :
  P r → P (XAUTOCLAIM c idle cur 32 r).2 → P (reclaim_once stream c idle f n cur r).2.
Proof.
  intros H0 H1. pose proof (send_state f (XAUTOCLAIM c idle cur 32) r P H0 H1) as Hs.
  unfold reclaim_once, mbind, GoM_bind, catch. by destruct (send f (XAUTOCLAIM c idle cur 32) r) as [res r'].
Qed.

(** * No message is lost *)

(** The entry [i] with the values [x] is in the stream: the group, or the one that is yet to be
    created, has not delivered it, or it is pending, or its id is among [acks]. *)
Definition safe (i : Z) (x : values_of) (acks : list string) (r : rstate) : Prop :=
  entries (look r) !! i = Some x ∧ 0 < i ∧
  match group (look r) with
  | None => True
  | Some (last, pel) => last < i ∨ is_Some (pel !! i) ∨ entry_id i ∈ acks
  end.

Section entry.
Context (i : Z) (x : values_of) (acks : list string).
Abbreviation Safe := (safe i x acks).

Lemma safe_look r r' : look r' = look r → Safe r → Safe r'.
Proof. unfold safe. by intros ->. Qed.

Lemma safe_group r : Safe r → Safe (XGROUP_CREATE "0" r).2.
Proof.
  intros Hs. pose proof (XGROUP_CREATE_spec "0" r) as Hg. destruct (XGROUP_CREATE "0" r) as [e r']. simpl.
  destruct (group (look r)) as [[last pel]|] eqn:Eg; [by eapply safe_look, Hs; destruct Hg|].
  destruct e as [msg|]; [by eapply safe_look, Hs|]. destruct Hg as (s & Hst & Hv).
  destruct Hst as [[_ ->]|[[? _]|[He _]]]; [|done|by destruct (entry_id_full s)].
  destruct Hs as (Hx & Hi & _). unfold safe. rewrite Hv. simpl. by auto.
Qed.

Lemma safe_publish v r : Safe r → Safe (XADD v r).2.
Proof.
  intros (Hx & Hi & Hg). pose proof (XADD_spec v r) as Hr. destruct (XADD v r) as [id r'].
  destruct Hr as (j & _ & _ & Hf & _ & Hv). unfold safe. simpl. rewrite Hv. simpl.
  rewrite lookup_insert_ne by congruence. done.
Qed.

(** A delivery of the entries [l] to [c] moves the entry on. *)
Lemma safe_deliver c t l last pel :
  last < i ∨ is_Some (pel !! i) ∨ entry_id i ∈ acks →
  last < i ∨ is_Some (deliver c t l pel !! i) ∨ entry_id i ∈ acks.
Proof.
  intros [?|[[y Hy]|?]]; [by auto| |by auto]. right; left. rewrite deliver_lookup, Hy.
  by case_bool_decide; eexists.
Qed.

Lemma safe_read c n r : Safe r → Safe (XREADGROUP c n r).2.
Proof.
  intros Hs. pose proof (XREADGROUP_spec c n r) as Hr. destruct (XREADGROUP c n r) as [[l|] r']; simpl.
  2: by eapply safe_look, Hs; destruct (group (look r)) as [[]|].
  destruct Hs as (Hx & Hi & Hg). destruct (group (look r)) as [[last pel]|]; [|done].
  destruct Hr as (last' & Hle & Hl & Hv). unfold safe. rewrite Hv. simpl. split_and!; [done..|].
  destruct (decide (last < i)) as [Hlt|Hge]; [|destruct (safe_deliver c (clock (look r)) l last pel Hg); auto; lia].
  destruct (decide (last' < i)); [by left|right; left].
  rewrite deliver_lookup, bool_decide_eq_true_2; [by eexists|].
  apply list_elem_of_fmap. exists (i, x). split; [done|]. apply Hl. split; [lia|done].
Qed.

Lemma safe_claim c idle s n r : Safe r → Safe (XAUTOCLAIM c idle (entry_id s) n r).2.
Proof.
  intros Hs. pose proof (XAUTOCLAIM_spec c idle s n r) as Hr.
  destruct (XAUTOCLAIM c idle (entry_id s) n r) as [[[l next]|] r']; simpl.
  2: by eapply safe_look, Hs; destruct (group (look r)) as [[]|].
  destruct Hs as (Hx & Hi & Hg). destruct (group (look r)) as [[last pel]|]; [|done].
  destruct Hr as (_ & _ & Hv). unfold safe. rewrite Hv. simpl. split_and!; [done..|]. by apply safe_deliver.
Qed.
End entry.

Lemma safe_ack i x acks id r : safe i x acks r → safe i x (acks ++ [id]) (XACK id r).2.
Proof.
  intros (Hx & Hi & Hg). pose proof (XACK_spec id r) as Hr. destruct (XACK id r) as [n r'].
  unfold safe. simpl. destruct (group (look r)) as [[last pel]|] eqn:Eg.
  - destruct Hr as (pel' & -> & Hp). simpl. split_and!; [done..|]. rewrite Hp. case_bool_decide as Hid.
    + right; right. rewrite Hid. apply elem_of_app. right. constructor.
    + destruct Hg as [?|[?|?]]; [by auto..|]. right; right. apply elem_of_app. by left.
  - rewrite Hr, Eg. done.
Qed.

Lemma safe_more i x acks acks' r : safe i x acks r → safe i x (acks ++ acks') r.
Proof.
  intros (Hx & Hi & Hg). split_and!; [done..|]. destruct (group (look r)) as [[last pel]|]; [|done].
  rewrite elem_of_app. tauto.
Qed.

Lemma event_safe i x acks r a r' : event r a r' → safe i x acks r → safe i x (acks ++ a) r'.
Proof.
  intros He Hs. destruct He as [r a r' [r0 r1 He|f r0|f p r0|st c f n r0|f id r0]|st c idle f n s r];
    [rewrite app_nil_r..| |rewrite app_nil_r].
  - destruct (elapses_spec _ _ He) as (_ & Ee & Eg). unfold safe. by rewrite Ee, Eg.
  - apply EnsureGroup_state; [done|by apply safe_group].
  - apply Publish_state; [done|by apply safe_publish].
  - apply read_state; [done|by apply safe_read].
  - apply Ack_state; [by apply safe_more|by apply safe_ack].
  - apply reclaim_state; [done|by apply safe_claim].
Qed.

Lemma trace_safe i x acks r a r' : trace r a r' → safe i x acks r → safe i x (acks ++ a) r'.
Proof.
  intros Ht. revert acks. induction Ht as [r|r a1 r1 a2 r2 He _ IH]; intros acks Hs; [by rewrite app_nil_r|].
  rewrite app_assoc. apply IH. by eapply event_safe.
Qed.

Lemma publish_safe f p r id r' : Publish f p r = (Ok id, r') →
  ∃ i, id = entry_id i ∧ safe i {["payload" := p]} [] r'.
Proof.
  unfold Publish, mbind, GoM_bind, catch, send. pose proof (XADD_spec {["payload" := p]} r) as Hr.
  destruct (XADD {["payload" := p]} r) as [id' r1]. destruct f; simpl; [|done..]. intros [= -> ->].
  destruct Hr as (i & -> & Hi & Hf & Hlast & Hv). exists i. split; [done|]. unfold safe. rewrite Hv. simpl.
  rewrite lookup_insert_eq. split_and!; [done..|].
  destruct (group (look r)) as [[last pel]|]; [|done]. left. by apply (Hlast last pel).
Qed.

(** C37.  No task is lost: whatever the state of Redis, with or without the group, once
    [Publish] has answered with an id, and whatever is then published, read, reclaimed and
    acknowledged by whichever consumers, the group being created by [EnsureGroup] at any time
    and the network losing any commands and replies, the message is in the stream under that id
    with its payload; and once the group exists the message is waiting for its first
    delivery, or pending for some consumer, or some consumer has acknowledged it since. *)
Theorem never_lost f p r id r1 acks r2 :
  Publish f p r = (Ok id, r1) → trace r1 acks r2 →
  ∃ i, id = entry_id i ∧ entries (look r2) !! i = Some {["payload" := p]} ∧
    ∀ last pel, group (look r2) = Some (last, pel) → last < i ∨ is_Some (pel !! i) ∨ id ∈ acks.
Proof.
  intros Hp Ht. destruct (publish_safe _ _ _ _ _ Hp) as (i & -> & Hs). exists i. split; [done|].
  destruct (trace_safe _ _ _ _ _ _ Ht Hs) as (Hx & _ & Hg). split; [done|].
  intros last pel Eg. rewrite Eg in Hg. exact Hg.
Qed.

(** * Messages of a crashed consumer *)

(** A claim that is not lost on its way back and whose consumer is not stopped before it has
    sent the messages. *)
Definition attended (c : string) (idle : Z) (f : fate) (n : nat) (cur : string) (r : rstate) : Prop :=
  f ≠ ReplyLost ∧ ∀ l next, (XAUTOCLAIM c idle cur 32 r).1 = Some (l, next) → (length l ≤ n)%nat.

(** The loop of one consumer with its cursor; everything else happens in between.  The labels
    are the ids acknowledged, and the messages sent into the channel of a consumer that has
    reclaimed them. *)
Inductive round (stream c : string) (idle : Z) :
    string * rstate → list string * list Message.t → string * rstate → Prop :=
| R_tick f n cur r cur' ms r' : attended c idle f n cur r →
    reclaim_once stream c idle f n cur r = (Ok (cur', ms), r') →
    round stream c idle (cur, r) ([], ms) (cur', r')
| R_elsewhere c' idle' f n s cur r cur' ms r' : attended c' idle' f n (entry_id s) r →
    reclaim_once stream c' idle' f n (entry_id s) r = (Ok (cur', ms), r') →
    round stream c idle (cur, r) ([], ms) (cur, r')
| R_plain acks cur r r' : plain r acks r' → round stream c idle (cur, r) (acks, []) (cur, r').

Inductive rounds (stream c : string) (idle : Z) :
    string * rstate → list string * list Message.t → string * rstate → Prop :=
| rounds_nil st : rounds stream c idle st ([], []) st
| rounds_cons st a ms st1 a' ms' st2 : round stream c idle st (a, ms) st1 →
    rounds stream c idle st1 (a', ms') st2 → rounds stream c idle st (a ++ a', ms ++ ms') st2.

Section reclaimed.
Context (stream c : string) (idle t0 i : Z) (x : values_of) (owner : string) (t : Z).
Context (Ht0 : t + idle ≤ t0).

Definition handled (a : list string) (ms : list Message.t) : Prop :=
  toMessage stream (i, x) ∈ ms ∨ entry_id i ∈ a.

Lemma handled_l a ms a' ms' : handled a ms → handled (a ++ a') (ms ++ ms').
Proof. unfold handled. rewrite !elem_of_app. tauto. Qed.
Lemma handled_r a ms a' ms' : handled a' ms' → handled (a ++ a') (ms ++ ms').
Proof. unfold handled. rewrite !elem_of_app. tauto. Qed.

(** The entry is pending since [t]. *)
Definition pending (r : rstate) : Prop :=
  ∃ last pel, group (look r) = Some (last, pel) ∧ i ≤ last ∧ t0 ≤ clock (look r) ∧
    entries (look r) !! i = Some x ∧ pel !! i = Some (owner, t).

Lemma pending_look r r' : look r' = look r → pending r → pending r'.
Proof. unfold pending. by intros ->. Qed.

Lemma pending_plain r a r' : plain r a r' → pending r → pending r' ∨ entry_id i ∈ a.
Proof.
  intros He Hp. destruct He as [r r' He|f r|f p r|st c' f n r|f id r].
  - left. destruct (elapses_spec _ _ He) as (Hc & Ee & Eg). destruct Hp as (last & pel & H1 & H2 & H3 & H4).
    exists last, pel. rewrite Ee, Eg. split_and!; [done|done|lia|apply H4..].
  - left. apply EnsureGroup_state; [done|]. pose proof (XGROUP_CREATE_spec "0" r) as Hg.
    destruct (XGROUP_CREATE "0" r) as [e r']. eapply pending_look, Hp.
    destruct Hp as (last & pel & Eg & _). rewrite Eg in Hg. apply Hg.
  - left. apply Publish_state; [done|]. pose proof (XADD_spec {["payload" := p]} r) as Hr.
    destruct (XADD {["payload" := p]} r) as [id r']. destruct Hr as (j & _ & _ & Hf & _ & Hv).
    destruct Hp as (last & pel & H1 & H2 & H3 & H4 & H5). exists last, pel. simpl. rewrite Hv. simpl.
    rewrite lookup_insert_ne by congruence. done.
  - left. apply read_state; [done|]. pose proof (XREADGROUP_spec c' 16 r) as Hr.
    destruct (XREADGROUP c' 16 r) as [[l|] r']; simpl.
    2: by eapply pending_look, Hp; destruct (group (look r)) as [[]|].
    destruct Hp as (last & pel & H1 & H2 & H3 & H4 & H5). rewrite H1 in Hr.
    destruct Hr as (last' & Hle & Hl & Hv). exists last', (deliver c' (clock (look r)) l pel). rewrite Hv. simpl.
    split_and!; [done|lia|done|done|]. rewrite deliver_lookup, bool_decide_eq_false_2; [done|].
    intros ([j y] & -> & Hj)%list_elem_of_fmap. apply Hl in Hj. simpl in *. lia.
  - destruct (decide (entry_id i = id)) as [<-|Hne]; [right; constructor|left].
    apply Ack_state; [done|]. pose proof (XACK_spec id r) as Hr. destruct (XACK id r) as [n r'].
    destruct Hp as (last & pel & H1 & H2 & H3 & H4 & H5). rewrite H1 in Hr. destruct Hr as (pel' & Hv & Hpel).
    exists last, pel'. simpl. rewrite Hv. simpl. split_and!; [done..|]. by rewrite Hpel, bool_decide_eq_false_2.
Qed.

(** A claim sends the entry on, or leaves it and its cursor does not pass it. *)
Lemma pending_claim c' idle' f n s r cur' ms r' :
  attended c' idle' f n (entry_id s) r →
  reclaim_once stream c' idle' f n (entry_id s) r = (Ok (cur', ms), r') → pending r →
  toMessage stream (i, x) ∈ ms ∨
  pending r' ∧ (s ≤ i → t + idle' ≤ t0 → ∃ s', cur' = entry_id s' ∧ s' ≤ i ∧
    (f = Delivered → (XAUTOCLAIM c' idle' (entry_id s) 32 r).1 = None ∨ s' ≠ 0)).
Proof.
  intros [Hf Hn] Hrec Hp. revert Hrec. unfold reclaim_once, mbind, GoM_bind, catch, send.
  destruct f; [|intros [= <- <- <-]; right; split; [done|]; intros; by exists s|done].
  pose proof (XAUTOCLAIM_spec c' idle' s 32 r) as Hr.
  destruct (XAUTOCLAIM c' idle' (entry_id s) 32 r) as [[[l next]|] r1]; intros [= <- <- <-].
  2: { right. split; [|by intros; exists s; auto].
       by eapply pending_look, Hp; destruct (group (look r)) as [[]|]. }
  specialize (Hn l next eq_refl). destruct Hp as (last & pel & H1 & H2 & H3 & H4 & H5).
  rewrite H1 in Hr. destruct Hr as (Hl & (s' & -> & Hnext) & Hv).
  destruct (decide (i ∈ l.*1)) as [Hin|Hout]; [left|right].
  - rewrite take_ge by (by rewrite length_fmap). apply list_elem_of_fmap. exists (i, x). split; [done|].
    apply list_elem_of_fmap in Hin as ([j y] & -> & Hj). destruct (Hl j y Hj) as [_ Hy]. simpl in *. congruence.
  - split.
    + exists last, (deliver c' (clock (look r)) l pel). rewrite Hv. simpl. split_and!; [done..|].
      by rewrite deliver_lookup, bool_decide_eq_false_2.
    + intros Hs Hidle. exists s'. split; [done|].
      assert (idle_entry (look r) pel idle' i) as Hid.
      { split; [by eexists|]. exists owner, t. split; [done|lia]. }
      destruct Hnext as [[-> Hall]|(Hlt & Hne & Hall)]; [by destruct Hout; apply Hall|].
      split; [|by auto]. destruct (decide (i < s')); [|lia]. destruct Hout. apply Hall; [lia|done].
Qed.

(** The entry is waiting at or beyond the cursor, unless it was handled. *)
Definition scanning (a : list string) (ms : list Message.t) (st : string * rstate) : Prop :=
  (∃ s, st.1 = entry_id s) ∧
  (handled a ms ∨ pending st.2 ∧ ∃ s, st.1 = entry_id s ∧ s ≤ i).

Lemma claim_cursor c' idle' f n s r cur' ms r' :
  reclaim_once stream c' idle' f n (entry_id s) r = (Ok (cur', ms), r') → ∃ s', cur' = entry_id s'.
Proof.
  unfold reclaim_once, mbind, GoM_bind, catch, send. pose proof (XAUTOCLAIM_spec c' idle' s 32 r) as Hr.
  destruct f; [|intros [= <- <- <-]; by exists s|intros [= <- <- <-]; by exists s].
  destruct (XAUTOCLAIM c' idle' (entry_id s) 32 r) as [[[l next]|] r1]; intros [= <- <- <-]; [|by exists s].
  destruct (group (look r)) as [[last pel]|]; [|done]. destruct Hr as (_ & (s' & -> & _) & _). by exists s'.
Qed.

Lemma scanning_round a0 ms0 st a ms st' :
  round stream c idle st (a, ms) st' → scanning a0 ms0 st → scanning (a0 ++ a) (ms0 ++ ms) st'.
Proof.
  intros Hr [[s Hcur] Hsc]. inversion Hr as [f n cur r cur' ms' r' Hat Hrec|c' idle' f n s1 cur r cur' ms' r' Hat Hrec
    |acks cur r r' Hpl]; subst; simpl in *; subst; (split; simpl; [by eauto using claim_cursor|]);
    (destruct Hsc as [Hh|(Hp & s0 & Es%entry_id_inj & Hle)]; [left; by apply handled_l|]); subst s0.
  - destruct (pending_claim _ _ _ _ _ _ _ _ _ Hat Hrec Hp) as [Hm|[Hp' Hc]]; [left; apply handled_r; by left|right].
    split; [done|]. destruct (Hc Hle Ht0) as (s' & -> & Hs' & _). by exists s'.
  - destruct (pending_claim _ _ _ _ _ _ _ _ _ Hat Hrec Hp) as [Hm|[Hp' _]]; [left; apply handled_r; by left|right].
    split; [done|by exists s].
  - destruct (pending_plain _ _ _ Hpl Hp) as [Hp'|Ha]; [right; split; [done|by exists s]|].
    left. apply handled_r. by right.
Qed.

Lemma scanning_rounds a0 ms0 st l st' :
  rounds stream c idle st l st' → scanning a0 ms0 st → scanning (a0 ++ l.1) (ms0 ++ l.2) st'.
Proof.
  intros Hr. revert a0 ms0. induction Hr as [st|st a ms st1 a' ms' st2 H1 _ IH]; intros a0 ms0 Hsc; simpl.
  - by rewrite !app_nil_r.
  - rewrite !app_assoc. apply IH. by eapply scanning_round.
Qed.
End reclaimed.

(** C38.  A message of a crashed consumer is delivered again.  Take an entry that has been
    pending for the idle timeout when the reclaim loop of some consumer starts a pass over the
    pending entries.  When that pass is complete (Redis answers the cursor 0-0), a consumer
    has acknowledged the entry, or the message of the entry has been sent into the channel of a
    consumer, this one or another that reclaimed it, since the pass began; whatever is published,
    read, acknowledged and reclaimed in the meantime, provided that during the pass no reply to
    a claim is lost and no consumer is stopped between a claim and the sending of its messages. *)
Theorem redelivered stream c idle i x owner t last pel r a ms cur r1 l n ms' r2 :
  0 ≤ i ≤ last → group (look r) = Some (last, pel) → entries (look r) !! i = Some x →
  pel !! i = Some (owner, t) → t + idle ≤ clock (look r) →
  rounds stream c idle (cursor0, r) (a, ms) (cur, r1) →
  (XAUTOCLAIM c idle cur 32 r1).1 = Some (l, cursor0) → (length l ≤ n)%nat →
  reclaim_once stream c idle Delivered n cur r1 = (Ok (cursor0, ms'), r2) →
  toMessage stream (i, x) ∈ ms ++ ms' ∨ entry_id i ∈ a.
Proof.
  intros [Hi Hlast] Hg Hx Hp Ht Hround Hreply Hn Htick.
  assert (scanning stream (clock (look r)) i x owner t [] [] (cursor0, r)) as Hsc.
  { split; [exists 0; by rewrite entry_id_0|right]. split; [exists last, pel; by split_and!|].
    exists 0. by rewrite entry_id_0. }
  destruct (scanning_rounds _ _ _ _ _ _ _ _ Ht _ _ _ _ _ Hround Hsc) as [[s Hs] Hend]. simpl in *. subst cur.
  destruct Hend as [[?|?]|(Hp1 & s0 & Es%entry_id_inj & Hle)]; [rewrite elem_of_app; by auto|by auto|subst s0].
  destruct (pending_claim stream (clock (look r)) i x owner t c idle Delivered n s r1 cursor0 ms' r2)
    as [Hm|[_ Hc]]; [|done..| |].
  - split; [done|]. intros l0 next E. rewrite Hreply in E. by simplify_eq.
  - left. apply elem_of_app. by right.
  - destruct (Hc Hle Ht) as (s' & E0 & _ & Hne). destruct (Hne eq_refl) as [E|E]; [congruence|].
    destruct E. apply entry_id_inj. by rewrite entry_id_0, <-E0.
Qed.
End queue.

(** ** Two tasks, the first being worked on by a worker that died *)

Definition demo_stream : view :=
  mkView 20000 {[1 := {["payload" := None]}; 2 := {["payload" := None]}]} (Some (1, {[1 := ("w1", 3000)]})).

Definition reclaimed_stream : view :=
  mkView 20000 {[1 := {["payload" := None]}; 2 := {["payload" := None]}]} (Some (1, {[1 := ("w2", 20000)]})).

(** A task is published before there is a group; then a consumer comes and reads it. *)
Lemma never_lost_witness :
  let r2 := (read_once (H := list_stream) "s" "w1" Delivered 64
              (EnsureGroup (H := list_stream) Delivered (mkView 0 {[1 := {["payload" := None]}]} None)).2).2 in
  ∃ last pel, group r2 = Some (last, pel) ∧ (last < 1 ∨ is_Some (pel !! 1) ∨ seq_id 1 ∈ @nil string).
Proof.
  cbv zeta.
  destruct (@never_lost list_stream Delivered None (mkView 0 ∅ None) "1-1"
    (mkView 0 {[1 := {["payload" := None]}]} None) ([] ++ [] ++ [])
    (read_once (H := list_stream) "s" "w1" Delivered 64
      (EnsureGroup (H := list_stream) Delivered (mkView 0 {[1 := {["payload" := None]}]} None)).2).2)
    as (i & Hid & _ & Hg).
  - vm_compute. reflexivity.
  - eapply trace_cons; [apply E_plain, E_group|]. eapply trace_cons; [apply E_plain, E_read|apply trace_nil].
  - change "1-1" with (seq_id 1) in Hid. apply seq_id_inj in Hid. subst i.
    eexists _, _. split; [reflexivity|]. apply Hg. reflexivity.
Defined.

Lemma redelivered_witness :
  toMessage (H := list_stream) "s" (1, {["payload" := None]}) ∈ [] ++ [Message.mk "1-1" "s" None 1] ∨
  seq_id 1 ∈ @nil string.
Proof.
  apply (@redelivered list_stream "s" "w2" 15000 1 {["payload" := None]} "w1" 3000 1 {[1 := ("w1", 3000)]}
    demo_stream [] [] "0-0" demo_stream [(1, {["payload" := None]})] 64 [Message.mk "1-1" "s" None 1]
    reclaimed_stream).
  - split; discriminate.
  - reflexivity.
  - reflexivity.
  - reflexivity.
  - vm_compute. discriminate.
  - apply rounds_nil.
  - vm_compute. reflexivity.
  - vm_compute. lia.
  - vm_compute. reflexivity.
Defined.

(** * The channel of [Consume] *)

(** The context, the channel, and the messages a loop has fetched and not yet sent. *)
Record consumption := mkConsumption {
  cancelled : bool; closed : bool; buffer : list Message.t; fetched : list Message.t
}.

Definition capacity : nat := 64.

(** [None] is a panic: a select whose send case names a closed channel may choose it. *)
Inductive consume_step : consumption → option consumption → Prop :=
| C_cancel cl b l : consume_step (mkConsumption false cl b l) (Some (mkConsumption true cl b l))
| C_close b l : consume_step (mkConsumption true false b l) (Some (mkConsumption true true b l))
| C_receive x cl m b l : consume_step (mkConsumption x cl (m :: b) l) (Some (mkConsumption x cl b l))
| C_fetch cl b l : consume_step (mkConsumption false cl b []) (Some (mkConsumption false cl b l))
| C_send x b m l : (length b < capacity)%nat →
    consume_step (mkConsumption x false b (m :: l)) (Some (mkConsumption x false (b ++ [m]) l))
| C_stop cl b m l : consume_step (mkConsumption true cl b (m :: l)) (Some (mkConsumption true cl b []))
| C_panic x b m l : consume_step (mkConsumption x true b (m :: l)) None.

Definition consume_start : consumption := mkConsumption false false [] [].

Lemma closed_cancelled c :
  rtc (λ c c', consume_step c (Some c')) consume_start c → closed c = true → cancelled c = true.
Proof.
  intros Hr. assert (closed consume_start = true → cancelled consume_start = true) as H0 by done.
  revert H0. induction Hr as [|c c' c'' Hs _ IH]; [done|]. intros Hc. apply IH. inversion Hs; subst; auto.
Qed.

(** Shutting down a consumer can panic: the channel is closed by a goroutine of its own
    once the context is cancelled, and a loop that is about to send then may choose to send
    on the closed channel.  Without a cancellation this does not happen. *)
Theorem shutdown_can_panic :
  (∃ c, rtc (λ c c', consume_step c (Some c')) consume_start c ∧ consume_step c None) ∧
  ∀ c, rtc (λ c c', consume_step c (Some c')) consume_start c → consume_step c None → cancelled c = true.
Proof.
  split.
  - exists (mkConsumption true true [] [Message.mk "1-1" "s" None 1]). split; [|apply C_panic].
    eapply rtc_l; [apply C_fetch|]. eapply rtc_l; [apply C_cancel|]. apply rtc_once, C_close.
  - intros c Hr Hp. apply closed_cancelled; [done|]. by inversion Hp.
Qed.
End Redisstream.
