(* ===== verification/Membership.v ===== *)
(** Who is alive: the cluster membership of internal/scheduler (heartbeats and
    [liveMembers]) and the worker registry of internal/workers, both kept in Redis sorted
    sets whose scores are the times of the last heartbeats.

    Redis is not part of the source: [RedisKeys] is what the code uses of it, and the laws
    are the documented behaviour of ZADD, ZREMRANGEBYSCORE, ZRANGE, SET with a time to
    live, EXPIRE and GET; a TxPipeline runs its commands in one piece.  [gmap_keys] is an
    implementation of the laws.  The stored [Info] is seen through [json.Unmarshal]
    ([None] if it does not decode).  Times are milliseconds; [t] is [time.Now()]. *)

From stdpp Require Import gmap strings list sorting.
From S2P Require Import Prelude GoLib Json Types Engine Scheduler Grpc Http Worker.
Open Scope Z_scope.

Class RedisKeys := {
  kstate : Type;
  kclock : kstate → Z;
  (** The sorted set under a key. *)
  scores : kstate → string → gmap string Z;
  (** The value under a key that has not expired, and when it will. *)
  stored : kstate → string → option (option Http.Info.t * Z);

  ZADD : string → string → Z → kstate → unit * kstate;
  (** ZREMRANGEBYSCORE key -inf (cutoff *)
  ZREMRANGEBYSCORE : string → Z → kstate → unit * kstate;
  (** ZRANGE key cutoff +inf BYSCORE, and ZRANGE key 0 -1 *)
  ZRANGEBYSCORE : string → Z → kstate → list string;
  ZRANGE : string → kstate → list string;
  SETEX : string → option Http.Info.t → Z → kstate → unit * kstate;
  EXPIRE : string → Z → kstate → unit * kstate;
  GET : string → kstate → option (option Http.Info.t);

  ZADD_spec k m s r : let r' := (ZADD k m s r).2 in
    kclock r' = kclock r ∧ (∀ k', stored r' k' = stored r k') ∧
    ∀ k', scores r' k' = if bool_decide (k' = k) then <[m := s]> (scores r k) else scores r k';
  ZREMRANGEBYSCORE_spec k cutoff r : let r' := (ZREMRANGEBYSCORE k cutoff r).2 in
    kclock r' = kclock r ∧ (∀ k', stored r' k' = stored r k') ∧
    ∀ k' m, scores r' k' !! m =
      match scores r k' !! m with
      | Some s => if bool_decide (k' = k) && (s <? cutoff) then None else Some s
      | None => None
      end;
  ZRANGEBYSCORE_spec k cutoff r m :
    m ∈ ZRANGEBYSCORE k cutoff r ↔ ∃ s, scores r k !! m = Some s ∧ cutoff ≤ s;
  ZRANGE_spec k r m : m ∈ ZRANGE k r ↔ is_Some (scores r k !! m);
  SETEX_spec k v ttl r : 0 < ttl → let r' := (SETEX k v ttl r).2 in
    kclock r' = kclock r ∧ (∀ k', scores r' k' = scores r k') ∧
    ∀ k', stored r' k' = if bool_decide (k' = k) then Some (v, kclock r + ttl) else stored r k';
  EXPIRE_spec k ttl r : 0 < ttl → let r' := (EXPIRE k ttl r).2 in
    kclock r' = kclock r ∧ (∀ k', scores r' k' = scores r k') ∧
    ∀ k', stored r' k' =
      if bool_decide (k' = k) then (λ p, (p.1, kclock r + ttl)) <$> stored r k else stored r k';
  GET_spec k r : GET k r = fst <$> stored r k
}.

(** * An implementation of the laws *)

Record keys := mkKeys {
  k_clock : Z; k_sets : gmap string (gmap string Z); k_values : gmap string (option Http.Info.t * Z)
}.

Definition k_scores (r : keys) (k : string) : gmap string Z := default ∅ (k_sets r !! k).
Definition k_stored (r : keys) (k : string) : option (option Http.Info.t * Z) :=
  match k_values r !! k with
  | Some (v, exp) => if k_clock r <? exp then Some (v, exp) else None
  | None => None
  end.

#[refine] Definition gmap_keys : RedisKeys := {|
  kstate := keys;
  kclock := k_clock;
  scores := k_scores;
  stored := k_stored;
  ZADD k m s r := (tt, mkKeys (k_clock r) (<[k := <[m := s]> (k_scores r k)]> (k_sets r)) (k_values r));
  ZREMRANGEBYSCORE k cutoff r :=
    (tt, mkKeys (k_clock r) (<[k := filter (λ p, cutoff ≤ p.2) (k_scores r k)]> (k_sets r)) (k_values r));
  ZRANGEBYSCORE k cutoff r := (map_to_list (filter (λ p, cutoff ≤ p.2) (k_scores r k))).*1;
  ZRANGE k r := (map_to_list (k_scores r k)).*1;
  SETEX k v ttl r := (tt, mkKeys (k_clock r) (k_sets r) (<[k := (v, k_clock r + ttl)]> (k_values r)));
  EXPIRE k ttl r := match k_stored r k with
    | Some (v, _) => (tt, mkKeys (k_clock r) (k_sets r) (<[k := (v, k_clock r + ttl)]> (k_values r)))
    | None => (tt, r)
    end;
  GET k r := fst <$> k_stored r k
|}.
Proof.
  - intros k m s r. simpl. split_and!; [done..|]. intros k'. unfold k_scores at 1. simpl.
    case_bool_decide as Hk; [subst; by rewrite lookup_insert_eq|by rewrite lookup_insert_ne].
  - intros k cutoff r. simpl. split_and!; [done..|]. intros k' m. unfold k_scores at 1. simpl.
    case_bool_decide as Hk; [subst; rewrite lookup_insert_eq|rewrite lookup_insert_ne by done]; simpl.
    + rewrite map_lookup_filter. destruct (k_scores r k !! m) as [s|]; simpl; [|done].
      destruct (Z.ltb_spec s cutoff); [rewrite option_guard_False by (simpl; lia)|rewrite option_guard_True]; done.
    + fold (k_scores r k'). by destruct (k_scores r k' !! m).
  - intros k cutoff r m. rewrite list_elem_of_fmap. split.
    + intros ([m' s] & -> & Hm). apply elem_of_map_to_list, map_lookup_filter_Some in Hm. naive_solver.
    + intros (s & Hm & Hs). exists (m, s). split; [done|]. by apply elem_of_map_to_list, map_lookup_filter_Some.
  - intros k r m. rewrite list_elem_of_fmap. split.
    + intros ([m' s] & -> & Hm). apply elem_of_map_to_list in Hm. by eexists.
    + intros [s Hm]. exists (m, s). split; [done|]. by apply elem_of_map_to_list.
  - intros k v ttl r Ht. simpl. split_and!; [done..|]. intros k'. unfold k_stored. simpl.
    case_bool_decide as Hk; [subst; rewrite lookup_insert_eq|by rewrite lookup_insert_ne].
    by rewrite (proj2 (Z.ltb_lt _ _)) by lia.
  - intros k ttl r Ht. simpl. destruct (k_stored r k) as [[v exp]|] eqn:Es; simpl; (split_and!; [done..|]).
    + intros k'. unfold k_stored. simpl.
      case_bool_decide as Hk; [subst; rewrite lookup_insert_eq|by rewrite lookup_insert_ne].
      by rewrite (proj2 (Z.ltb_lt _ _)) by lia.
    + intros k'. case_bool_decide; congruence.
  - done.
Defined.

Module Membership.
Import Worker.

(** * internal/scheduler: cluster members *)

Definition membersKey : string := "orchestrator:members".
Definition staleAfter : Z := 12000.

Section members.
Context `{RedisKeys}.

(** A failing heartbeat is logged. *)
Definition heartbeat (nodeID : string) (f : fate) (t : Z) : GoM kstate unit :=
  _ ← catch (send f (ZADD membersKey nodeID t)); mret tt.

Definition liveMembers (f1 f2 : fate) (t : Z) : GoM kstate (list string) :=
  let cutoff := t - staleAfter in
  _ ← catch (send f1 (ZREMRANGEBYSCORE membersKey cutoff));
  send f2 (λ r, (ZRANGEBYSCORE membersKey cutoff r, r)).

(** [publishShardMap] on the members found. *)
Definition publish (f1 f2 : fate) (t : Z) : GoM kstate (option bytes) :=
  ms ← catch (liveMembers f1 f2 t);
  mret (Scheduler.publishShardMap (match ms with Ok ms => Some ms | Err _ => None end)).

(** ** The set of recent heartbeats *)

Inductive activity :=
| Beat (node : string) (f : fate) (t : Z)
| Listing (f1 f2 : fate) (t : Z).

Definition act (a : activity) (r : kstate) : kstate :=
  match a with
  | Beat node f t => (heartbeat node f t r).2
  | Listing f1 f2 t => (liveMembers f1 f2 t r).2
  end.

Definition time_of (a : activity) : Z := match a with Beat _ _ t | Listing _ _ t => t end.

Definition reached (f : fate) : bool := match f with RequestLost => false | _ => true end.

(** The time of the last heartbeat of [node] that reached Redis. *)
Fixpoint last_beat (node : string) (l : list activity) (acc : option Z) : option Z :=
  match l with
  | [] => acc
  | Beat n f t :: l =>
      last_beat node l (if bool_decide (n = node) && reached f then Some t else acc)
  | Listing _ _ _ :: l => last_beat node l acc
  end.

(** The sorted set agrees with the heartbeats [beat] as far as recent ones go. *)
Definition recent (now : Z) (beat : string → option Z) (r : kstate) : Prop :=
  ∀ node s, now - staleAfter ≤ s → scores r membersKey !! node = Some s ↔ beat node = Some s.

Lemma heartbeat_scores node f t r :
  scores (heartbeat node f t r).2 membersKey =
    if reached f then <[node := t]> (scores r membersKey) else scores r membersKey.
Proof.
  destruct (ZADD_spec membersKey node t r) as (_ & _ & Hs). specialize (Hs membersKey).
  rewrite bool_decide_eq_true_2 in Hs by done.
  unfold heartbeat, mbind, GoM_bind, catch, send. destruct f; simpl; [|done|done].
  by destruct (ZADD membersKey node t r).
Qed.

Lemma prune_scores f t r node :
  let r' := (send f (ZREMRANGEBYSCORE membersKey (t - staleAfter)) r).2 in
  scores r' membersKey !! node = scores r membersKey !! node ∨
  (scores r' membersKey !! node = None ∧ ∃ s, scores r membersKey !! node = Some s ∧ s < t - staleAfter).
Proof.
  intros r'. unfold r'. clear r'. pattern (send f (ZREMRANGEBYSCORE membersKey (t - staleAfter)) r).2.
  apply send_state; [by left|].
  destruct (ZREMRANGEBYSCORE_spec membersKey (t - staleAfter) r) as (_ & _ & Hs). rewrite Hs.
  rewrite bool_decide_eq_true_2 by done. destruct (scores r membersKey !! node) as [s|]; [|by left].
  simpl. destruct (Z.ltb_spec s (t - staleAfter)); [right; split; [done|by exists s]|by left].
Qed.

Lemma liveMembers_scores f1 f2 t r :
  scores (liveMembers f1 f2 t r).2 membersKey =
    scores (send f1 (ZREMRANGEBYSCORE membersKey (t - staleAfter)) r).2 membersKey.
Proof.
  unfold liveMembers, mbind, GoM_bind, catch.
  destruct (send f1 (ZREMRANGEBYSCORE membersKey (t - staleAfter)) r) as [e r1]. by destruct f2.
Qed.

Lemma prune_recent now beat f t r r' : t ≤ now → recent now beat r →
  scores r' membersKey = scores (send f (ZREMRANGEBYSCORE membersKey (t - staleAfter)) r).2 membersKey →
  recent now beat r'.
Proof.
  intros Ht Hr Heq node s Hs. rewrite Heq, <-(Hr node s Hs).
  destruct (prune_scores f t r node) as [->|(-> & s' & -> & ?)]; [done|].
  split; [done|]. intros [= ->]. lia.
Qed.

Lemma recent_act now beat a r : time_of a ≤ now → recent now beat r →
  recent now (λ node, last_beat node [a] (beat node)) (act a r).
Proof.
  intros Ht Hr. destruct a as [n f t|f1 f2 t]; simpl in *.
  - intros node s Hs. rewrite heartbeat_scores. specialize (Hr node s Hs). destruct (reached f).
    + case_bool_decide as Hn; simpl; [subst; by rewrite lookup_insert_eq|by rewrite lookup_insert_ne].
    + by rewrite andb_false_r.
  - by eapply prune_recent; [..|apply liveMembers_scores].
Qed.

Lemma recent_all now l beat r : Forall (λ a, time_of a ≤ now) l → recent now beat r →
  recent now (λ node, last_beat node l (beat node)) (foldl (flip act) r l).
Proof.
  revert beat r. induction l as [|a l IH]; intros beat r Hl Hr; [done|].
  apply Forall_cons in Hl as [Ha Hl]. simpl.
  pose proof (IH _ _ Hl (recent_act now beat a r Ha Hr)) as Hx. intros node s Hs. rewrite (Hx node s Hs).
  by destruct a.
Qed.

(** The members of the cluster are the nodes heard of lately: after any heartbeats and
    listings by any nodes, with any losses, [liveMembers] answers exactly the nodes whose
    last heartbeat that reached Redis is at most [staleAfter] old; so from a shard map
    published then, only such a node takes shards. *)
Theorem live_members_exact l now f r0 ms r' :
  scores r0 membersKey = ∅ → Forall (λ a, time_of a ≤ now) l →
  liveMembers f Delivered now (foldl (flip act) r0 l) = (Ok ms, r') →
  (∀ node, node ∈ ms ↔ ∃ t, last_beat node l None = Some t ∧ now - staleAfter ≤ t) ∧
  ∀ raw s i, Scheduler.publishShardMap (Some ms) = Some raw → Scheduler.takes raw s i →
    ∃ t, last_beat (Scheduler.nodeID s) l None = Some t ∧ now - staleAfter ≤ t.
Proof.
  intros H0 Hl Hlive. set (r := foldl (flip act) r0 l) in *.
  assert (recent now (λ node, last_beat node l None) r) as Hr.
  { apply (recent_all now l (λ _, None)); [done|]. intros node s _. rewrite H0. by rewrite lookup_empty. }
  assert (∀ node, node ∈ ms ↔ ∃ t, last_beat node l None = Some t ∧ now - staleAfter ≤ t) as Hms.
  { intros node. set (r1 := (send f (ZREMRANGEBYSCORE membersKey (now - staleAfter)) r).2).
    assert (ms = ZRANGEBYSCORE membersKey (now - staleAfter) r1) as ->.
    { revert Hlive. unfold r1, liveMembers, mbind, GoM_bind, catch.
      destruct (send f _ r) as [e r2]. simpl. by intros [= <- _]. }
    rewrite ZRANGEBYSCORE_spec. pose proof (prune_recent now _ f now r r1 (Z.le_refl _) Hr eq_refl) as Hr1.
    split; intros (t & Hx & Ht); exists t; (split; [by apply (Hr1 node t Ht)|done]). }
  split; [done|]. intros raw s i Hraw Htake. apply Hms. by eapply Scheduler.takes_member.
Qed.
End members.

Section demo.
#[local] Existing Instance gmap_keys.

(** Node b was last heard of twelve seconds ago, node a longer ago. *)
Definition demo_history : list activity :=
  [Beat "a" Delivered 1000; Beat "b" ReplyLost 1500; Listing Delivered Delivered 2000;
   Beat "a" RequestLost 9000; Beat "b" Delivered 3000].

Lemma live_members_exact_witness :
  ("b" ∈ ["b"] ↔ ∃ t, last_beat "b" demo_history None = Some t ∧ 15000 - staleAfter ≤ t) ∧
  ("a" ∈ ["b"] ↔ ∃ t, last_beat "a" demo_history None = Some t ∧ 15000 - staleAfter ≤ t).
Proof.
  destruct (@live_members_exact gmap_keys demo_history 15000 Delivered (mkKeys 0 ∅ ∅) ["b"]
    (mkKeys 0 {[membersKey := {["b" := 3000]}]} ∅)) as [Hms _].
  - reflexivity.
  - repeat constructor; discriminate.
  - vm_compute. reflexivity.
  - split; [exact (Hms "b")|exact (Hms "a")].
Defined.
End demo.

(** * internal/workers: the registry *)

Module Registry.

Definition membersKey : string := "orchestrator:workers".
Definition infoPrefix : string := "orchestrator:worker:".
Definition ttl : Z := 15000.

Section registry.
Context `{RedisKeys}.

Definition Register (f : fate) (t : Z) (workerID : string) (queues : list string) (capacity : Z)
    : GoM kstate unit :=
  let info := Http.Info.mk workerID queues capacity t in
  send f (λ r, ZADD membersKey workerID t (SETEX (infoPrefix +:+ workerID) (Some info) ttl r).2).

Definition Heartbeat (f : fate) (t : Z) (workerID : string) : GoM kstate unit :=
  send f (λ r, ZADD membersKey workerID t (EXPIRE (infoPrefix +:+ workerID) ttl r).2).

(** The loop body of [List]; a reply that is missing or does not decode is skipped. *)
Definition list_one (f : string → fate) (out : list Http.Info.t) (id : string)
    : GoM kstate (list Http.Info.t) :=
  raw ← catch (send (f id) (λ r, (GET (infoPrefix +:+ id) r, r)));
  mret (match raw with Ok (Some (Some info)) => out ++ [info] | _ => out end).

Definition List (f1 f2 : fate) (f : string → fate) (t : Z) : GoM kstate (list Http.Info.t) :=
  let cutoff := t - ttl in
  _ ← catch (send f1 (ZREMRANGEBYSCORE membersKey cutoff));
  ids ← send f2 (λ r, (ZRANGE membersKey r, r));
  foldM (list_one f) [] ids.

Lemma list_loop out ids r : foldM (list_one (λ _, Delivered)) out ids r =
  (Ok (out ++ omap (λ id, mjoin (GET (infoPrefix +:+ id) r)) ids), r).
Proof.
  revert out. induction ids as [|id ids IH]; intros out; [by rewrite app_nil_r|].
  cbn [foldM]. unfold mbind, GoM_bind, list_one, mbind, GoM_bind, catch, send, mret, GoM_ret. cbn.
  rewrite IH. destruct (GET (infoPrefix +:+ id) r) as [[info|]|]; simpl; [by rewrite <-app_assoc|done..].
Qed.

(** The information of worker [id] is there. *)
Definition known (r : kstate) (id : string) (info : Http.Info.t) : Prop :=
  ∃ exp, stored r (infoPrefix +:+ id) = Some (Some info, exp).

Lemma List_spec t r out r' : List Delivered Delivered (λ _, Delivered) t r = (Ok out, r') →
  ∀ info, info ∈ out ↔ ∃ id s, scores r membersKey !! id = Some s ∧ t - ttl ≤ s ∧ known r id info.
Proof.
  intros Hl info. unfold List, mbind, GoM_bind, catch, send in Hl.
  pose proof (ZREMRANGEBYSCORE_spec membersKey (t - ttl) r) as Hz.
  destruct (ZREMRANGEBYSCORE membersKey (t - ttl) r) as [u r1]. destruct Hz as (_ & Hst & Hsc). simpl in *.
  rewrite list_loop in Hl. injection Hl as <- <-. simpl. rewrite list_elem_of_omap.
  unfold known. setoid_rewrite ZRANGE_spec. setoid_rewrite GET_spec. setoid_rewrite Hst.
  assert (∀ id, is_Some (scores r1 membersKey !! id) ↔ ∃ s, scores r membersKey !! id = Some s ∧ t - ttl ≤ s) as Hin.
  { intros id. rewrite Hsc, bool_decide_eq_true_2 by done. destruct (scores r membersKey !! id) as [s|]; simpl.
    - destruct (Z.ltb_spec s (t - ttl)); split; [by intros []|intros (? & [= <-] & ?); lia|by exists s|by eexists].
    - split; [by intros []|by intros (? & ? & _)]. }
  split.
  - intros (id & (s & Hs & Ht)%Hin & Hg). exists id, s. split_and!; [done..|].
    destruct (stored r (infoPrefix +:+ id)) as [[o exp]|]; simpl in Hg; [|done]. subst o. by exists exp.
  - intros (id & s & Hs & Ht & exp & Hk). exists id. rewrite Hk. split; [apply Hin; by exists s|done].
Qed.

Lemma Heartbeat_unknown f t id id' r :
  stored r (infoPrefix +:+ id) = None → stored (Heartbeat f t id' r).2 (infoPrefix +:+ id) = None.
Proof.
  intros Hn. unfold Heartbeat.
  apply (send_state f _ r (λ r', stored r' (infoPrefix +:+ id) = None)); [done|].
  destruct (ZADD_spec membersKey id' t (EXPIRE (infoPrefix +:+ id') ttl r).2) as (_ & -> & _).
  destruct (EXPIRE_spec (infoPrefix +:+ id') ttl r) as (_ & _ & ->); [done|].
  case_bool_decide as Heq; [|done]. by rewrite <-Heq, Hn.
Qed.

(** The registry shows exactly the workers heard of within [ttl] whose information is
    still stored.  A heartbeat does not restore information that has expired: whatever
    heartbeats follow, the worker is not shown until it registers again, although the
    comment of [List] promises every worker that sent a heartbeat in time. *)
Theorem registry_lists beats t r out r' :
  let r1 := foldl (λ r '(f, t, id), (Heartbeat f t id r).2) r beats in
  List Delivered Delivered (λ _, Delivered) t r1 = (Ok out, r') →
  (∀ info, info ∈ out ↔ ∃ id s, scores r1 membersKey !! id = Some s ∧ t - ttl ≤ s ∧ known r1 id info) ∧
  ∀ id, stored r (infoPrefix +:+ id) = None → ∀ info, ¬ known r1 id info.
Proof.
  intros r1 Hl. split; [by eapply List_spec|]. intros id Hn.
  assert (stored r1 (infoPrefix +:+ id) = None) as Hn1; [|intros info [exp Hk]; congruence].
  unfold r1. clear -Hn. revert r Hn. induction beats as [|[[f t] id'] beats IH]; intros r Hn; [done|].
  simpl. by apply IH, Heartbeat_unknown.
Qed.
End registry.

Section demo.
#[local] Existing Instance gmap_keys.

(** The information of w2 has expired; w1 and w2 send heartbeats. *)
Definition demo_workers : keys :=
  mkKeys 30000 ∅ {[infoPrefix +:+ "w1" := (Some (Http.Info.mk "w1" [] 4 20000), 35000);
                   infoPrefix +:+ "w2" := (Some (Http.Info.mk "w2" [] 4 10000), 25000)]}.

Lemma registry_lists_witness :
  ¬ known (foldl (λ r '(f, t, id), (Heartbeat f t id r).2) demo_workers
    [(Delivered, 30000, "w1"); (Delivered, 30001, "w2")]) "w2" (Http.Info.mk "w2" [] 4 10000).
Proof.
  apply (@registry_lists gmap_keys [(Delivered, 30000, "w1"); (Delivered, 30001, "w2")] 31000 demo_workers
    [Http.Info.mk "w1" [] 4 20000]
    (mkKeys 30000 {[membersKey := {["w1" := 30000; "w2" := 30001]}]}
       {[infoPrefix +:+ "w1" := (Some (Http.Info.mk "w1" [] 4 20000), 45000);
         infoPrefix +:+ "w2" := (Some (Http.Info.mk "w2" [] 4 10000), 25000)]})).
  - vm_compute. reflexivity.
  - vm_compute. reflexivity.
Defined.
End demo.
End Registry.
End Membership.
