(* ===== verification/Loops.v ===== *)
(** The loops around the iterations of Services.v, Scheduler.v, Lock.v and Membership.v: each
    is a [for] with a [select] on the end of its context and on a ticker
    (internal/outbox, internal/timers, internal/leases, internal/scheduler).

    A list of wake-ups says what the [select] chose each time, and what others did to the
    shared state while the loop slept; the theorems hold for every such list.  Shown here:
    the loops stay within the system, repeated relay iterations empty the outbox in order,
    and a leader that shuts down gives up its lock. *)

From stdpp Require Import gmap strings list relations sorting.
From S2P Require Import Prelude GoLib Json Types MemStore Dsl Engine Lifecycle.
From S2P Require Import LifecycleInv Worlds Contract MemSpec EngineOps System Demo Scheduler.
From S2P Require Import Services Serving RelaySpec Worker Lock Membership.
Open Scope Z_scope.

Module Loops.
Import Lifecycle LifecycleInv Worlds Contract MemSpec EngineOps System Demo Services Serving RelaySpec.
Import Worker.

(** * A loop with a ticker *)

(** [Tick x] comes with what the outside answers during the iteration. *)
Inductive wake (S X : Type) :=
| Tick (x : X)
| Elsewhere (f : S → S)
| Cancelled.
Arguments Tick {S X} _.
Arguments Elsewhere {S X} _.
Arguments Cancelled {S X}.

(** An iteration that fails is logged; the result says whether the loop has returned. *)
Fixpoint ticker_loop {S X} (iterate : X → GoM S unit) (exit : GoM S unit) (l : list (wake S X))
    : GoM S bool :=
  match l with
  | [] => mret false
  | Tick x :: l' => _ ← catch (iterate x); ticker_loop iterate exit l'
  | Elsewhere f :: l' => _ ← modify f; ticker_loop iterate exit l'
  | Cancelled :: _ => _ ← catch exit; mret true
  end.

Section loops.
Context `{Env} `{!Store}.

(** ** internal/outbox/relay.go, internal/timers/poller.go, internal/leases/reaper.go *)

Definition relay_Run {Q} (Publish : string → TaskPayload.t → GoM Q string) (rollback : bool) (batch : Z)
    (l : list (wake (World * Q) (option (option (list Z))))) : GoM (World * Q) bool :=
  ticker_loop (λ ShardIDs, _ ← relay_tick Publish rollback ShardIDs batch; mret tt) (mret tt) l.

Definition poller_Run (batch : Z) (l : list (wake World (option (option (list Z))))) : GoM World bool :=
  ticker_loop (λ ShardIDs, poller_tick ShardIDs batch) (mret tt) l.

Definition reaper_Run (batch : Z) (l : list (wake World unit)) : GoM World bool :=
  ticker_loop (λ _, _ ← Engine.ReapExpiredLeases batch; mret tt) (mret tt) l.
End loops.

(** ** internal/scheduler/scheduler.go *)

(** A node: its scheduler, Redis, and the shard maps it has written. *)
Record Node `{Redis} := mkNode {
  node : Scheduler.Scheduler;
  redis : rstate;
  maps : list bytes
}.
#[global] Arguments mkNode {_} _ _ _.
#[global] Arguments node {_} _.
#[global] Arguments redis {_} _.
#[global] Arguments maps {_} _.

Section scheduler_loops.
Context `{Redis} `{RedisKeys}.

Definition heartbeatLoop (nodeID : string) (f : fate) (t : Z) (l : list (wake kstate (fate * Z)))
    : GoM kstate bool :=
  _ ← Membership.heartbeat nodeID f t;
  ticker_loop (λ x, Membership.heartbeat nodeID x.1 x.2) (mret tt) l.

(** What an iteration of [leaderLoop] meets: the fate of the two commands of [TryAcquire] and
    what happens to Redis between them; what happens to it from then on until the shard map is
    written; the answer of [liveMembers]. *)
Record leader_env := mkLeaderEnv {
  le_set : fate;
  le_mid : rstate → rstate;
  le_renew : fate;
  le_meanwhile : rstate → rstate;
  le_members : option (list string)
}.

(** The election, and for its winner the publication, in separate commands. *)
Definition leader_iteration (x : leader_env) : GoM Node unit :=
  λ n, let '(s, ok, r) := Redislock.elect (le_set x) (le_mid x) (le_renew x) (node n) (redis n) in
       (Ok tt, if ok : bool then
                 mkNode s (le_meanwhile x r) (maps n ++ option_list (Scheduler.publishShardMap (le_members x)))
               else mkNode s r (maps n)).

Definition step_down (f : fate) : GoM Node unit :=
  λ n, if Scheduler.isLeader (node n) then
         let '(res, r) := Redislock.Release
           (Redislock.New Redislock.leaderKey (Scheduler.nodeID (node n)) Redislock.leaderTTL) f (redis n) in
         (res, mkNode (node n) r (maps n))
       else (Ok tt, n).

Definition leaderLoop (f : fate) (l : list (wake Node leader_env)) : GoM Node bool :=
  ticker_loop leader_iteration (step_down f) l.

Definition shardMapRefreshLoop (l : list (wake Scheduler.Scheduler (option bytes)))
    : GoM Scheduler.Scheduler bool :=
  ticker_loop (λ reply s, (Ok tt, Scheduler.refreshOwnedShards reply s)) (mret tt) l.
End scheduler_loops.

(** * Invariants of loops *)

Lemma drop_state {S A} (m : GoM S A) s : (@mbind (GoM S) _ A unit (λ _, mret tt) m s).2 = (m s).2.
Proof. unfold mbind, GoM_bind. by destruct (m s) as [[] ?]. Qed.

Lemma ticker_loop_tick {S X} (iterate : X → GoM S unit) exit x l s :
  ticker_loop iterate exit (Tick x :: l) s = ticker_loop iterate exit l (iterate x s).2.
Proof. simpl. unfold mbind, GoM_bind, catch. by destruct (iterate x s). Qed.

(** What every iteration, everyone else and the exit keep, the loop keeps. *)
Lemma ticker_loop_inv {S X} (P : S → Prop) (iterate : X → GoM S unit) exit l s :
  (∀ x s, Tick x ∈ l → P s → P (iterate x s).2) → (∀ f s, Elsewhere f ∈ l → P s → P (f s)) →
  (∀ s, P s → P (exit s).2) → P s → P (ticker_loop iterate exit l s).2.
Proof.
  intros Hi He Hx. revert s. induction l as [|[x|f|] l IH]; intros s Hs; simpl; [done|..].
  - unfold mbind, GoM_bind, catch. pose proof (Hi x s ltac:(by left) Hs) as Hp.
    destruct (iterate x s) as [r s']. apply IH; [..|done]; intros; [apply Hi|apply He]; by try right.
  - unfold mbind, GoM_bind, modify. apply IH; [..|by apply He; [left|]]; intros; [apply Hi|apply He]; by try right.
  - unfold mbind, GoM_bind, catch. pose proof (Hx s Hs). by destruct (exit s).
Qed.

(** A loop returns exactly when its context ends, whatever its iterations answer. *)
Lemma ticker_loop_returns {S X} (iterate : X → GoM S unit) exit l s :
  (ticker_loop iterate exit l s).1 = Ok (existsb (λ e, match e with Cancelled => true | _ => false end) l).
Proof.
  revert s. induction l as [|[x|f|] l IH]; intros s; simpl; [done|..];
    unfold mbind, GoM_bind, catch, modify; [destruct (iterate x s)|..|by destruct (exit s)]; apply IH.
Qed.

(** * The loops of the server stay within the system *)

Section within.
Context {E : Env} {St : Store} {L : StoreLaws St}.
Hypothesis Hu : uuid_unique.

(** Some state of the system has these tables. *)
Definition runs_within (w : World) : Prop := ∃ fl, reachable (w, fl).

Lemma within_relay {Q} (Publish : string → TaskPayload.t → GoM Q string) rollback shards batch s :
  runs_within s.1 → runs_within (relay_tick Publish rollback shards batch s).2.1.
Proof.
  intros [fl Hr]. exists fl. destruct s as [w q]. eapply reachable_trans; [exact Hr|apply sim_relay].
Qed.

Lemma within_simulated {A} (m : GoM World A) w : simulated m → runs_within w → runs_within (m w).2.
Proof. intros Hm [fl Hr]. exists fl. eapply reachable_trans; [exact Hr|apply Hm]. Qed.

Lemma within_reap batch w : runs_within w → runs_within (Engine.ReapExpiredLeases batch w).2.
Proof.
  intros [fl Hr]. destruct (sim_Reap Hu batch w fl Hr) as (lost & Hs & _).
  exists (lost ++ fl). by eapply reachable_trans.
Qed.

(** Whatever the other parts of the system do while the loops sleep, as long as it keeps
    to the system, the three loops keep to it too. *)
Lemma loops_within {Q} (Publish : string → TaskPayload.t → GoM Q string) rollback batch :
  (∀ l s, (∀ f s, Elsewhere f ∈ l → runs_within s.1 → runs_within (f s).1) → runs_within s.1 →
     runs_within (relay_Run Publish rollback batch l s).2.1) ∧
  (∀ l w, (∀ f w, Elsewhere f ∈ l → runs_within w → runs_within (f w)) → runs_within w →
     runs_within (poller_Run batch l w).2) ∧
  (∀ l w, (∀ f w, Elsewhere f ∈ l → runs_within w → runs_within (f w)) → runs_within w →
     runs_within (reaper_Run batch l w).2).
Proof.
  unfold relay_Run, poller_Run, reaper_Run. split_and!; intros l s He Hs.
  - apply (ticker_loop_inv (λ s, runs_within s.1)); [|done..]. intros x s1 _ Hs1.
    rewrite drop_state. by apply within_relay.
  - apply ticker_loop_inv; [|done..]. intros x w _. apply within_simulated, sim_poller.
  - apply ticker_loop_inv; [|done..]. intros x w _ Hw. rewrite drop_state. by apply within_reap.
Qed.
End within.

(** * The relay empties the outbox *)

(** Rows that became PUBLISHED are not owed any more. *)
Lemma marked_owed shards rows d d' k m :
  (∀ x, x ∈ rows → outbox d !! OutboxMessage.ID x = Some x) → marked rows d d' →
  outbox d' !! k = Some m → owed_row shards m = true →
  outbox d !! k = Some m ∧ k ∉ OutboxMessage.ID <$> rows.
Proof.
  intros Hr Hm Hk Ho. assert (k ∉ OutboxMessage.ID <$> rows) as Hnot.
  { intros (x & -> & Hx)%list_elem_of_fmap. destruct (mk_row _ _ _ Hm x Hx) as [n Hn].
    rewrite Hn in Hk. by injection Hk as <-. }
  split; [|done]. by rewrite <-(mk_other _ _ _ Hm k Hnot).
Qed.

Definition outbox_keyed (d : Tables) : Prop := ∀ k m, outbox d !! k = Some m → OutboxMessage.ID m = k.

Lemma marked_keyed rows d d' : outbox_keyed d → marked rows d d' → outbox_keyed d'.
Proof.
  intros Hk Hm k m Hd. destruct (decide (k ∈ OutboxMessage.ID <$> rows)) as [Hin|Hnot].
  - apply list_elem_of_fmap in Hin as (x & -> & Hx). destruct (mk_row _ _ _ Hm x Hx) as [n Hn].
    rewrite Hn in Hd. by injection Hd as <-.
  - apply Hk. by rewrite <-(mk_other _ _ _ Hm k Hnot).
Qed.

Section two_batches.
Context (shards : option (list Z)) (b1 b2 : Z) (rows1 rows2 : list OutboxMessage.t) (d d1 : Tables).
Hypothesis Hb : 0 ≤ b1 ∧ 0 ≤ b2.
Hypothesis Hk : outbox_keyed d.
Hypothesis H1 : batch_of shards b1 (outbox d) rows1.
Hypothesis Hm : marked rows1 d d1.
Hypothesis H2 : batch_of shards b2 (outbox d1) rows2.

Lemma second_row m : m ∈ rows2 →
  outbox d !! OutboxMessage.ID m = Some m ∧ owed_row shards m = true ∧
  OutboxMessage.ID m ∉ OutboxMessage.ID <$> rows1.
Proof.
  intros Hin. destruct (ba_row _ _ _ _ H2 m Hin) as [Hd Ho].
  destruct (marked_owed shards rows1 d d1 (OutboxMessage.ID m) m) as [? ?]; [by apply H1|done..].
Qed.

(** A row owed before is in the first batch, or still owed. *)
Lemma owed_split k m : outbox d !! k = Some m → owed_row shards m = true →
  m ∈ rows1 ∨ outbox d1 !! k = Some m.
Proof.
  intros Hd Ho. destruct (decide (k ∈ OutboxMessage.ID <$> rows1)) as [Hin|Hnot]; [left|right].
  - apply list_elem_of_fmap in Hin as (x & -> & Hx). destruct (ba_row _ _ _ _ H1 x Hx). by simplify_eq.
  - by rewrite (mk_other _ _ _ Hm k Hnot).
Qed.

Lemma first_before_second m1 m2 : m1 ∈ rows1 → m2 ∈ rows2 → row_le m1 m2.
Proof.
  intros Hm1 Hm2. destruct (second_row m2 Hm2) as (Hd & Ho & Hnot). unfold row_le.
  destruct (Z.lt_trichotomy (OutboxMessage.ID m1) (OutboxMessage.ID m2)) as [?|[E|Hlt]]; [done|..].
  - destruct Hnot. rewrite <-E. by apply list_elem_of_fmap_2.
  - destruct Hnot. apply list_elem_of_fmap_2. by eapply (ba_oldest _ _ _ _ H1).
Qed.

(** Two batches, one after the other, are one larger batch. *)
Lemma batch_app : batch_of shards (b1 + b2) (outbox d) (rows1 ++ rows2).
Proof.
  pose proof (ba_bound _ _ _ _ H1). pose proof (ba_bound _ _ _ _ H2). split.
  - intros m [Hin|Hin]%elem_of_app; [by apply H1|]. by destruct (second_row m Hin) as (? & ? & _).
  - apply StronglySorted_app_2; [exact first_before_second|by eapply ba_sorted..].
  - rewrite length_app. lia.
  - rewrite length_app. intros Hlen k m Hd Ho. apply elem_of_app.
    destruct (owed_split k m Hd Ho) as [?|Hd1]; [by left|].
    destruct (decide (Z.of_nat (length rows1) < b1)) as [Hlt|Hge].
    + left. by eapply (ba_all _ _ _ _ H1).
    + right. eapply (ba_all _ _ _ _ H2); [lia|done..].
  - intros k m m' Hin Hd Ho Hle. apply elem_of_app.
    destruct (owed_split k m' Hd Ho) as [?|Hd1]; [by left|].
    apply elem_of_app in Hin as [Hin|Hin]; [left; by eapply (ba_oldest _ _ _ _ H1)|].
    right. by eapply (ba_oldest _ _ _ _ H2).
Qed.
End two_batches.

Lemma marked_app rows1 rows2 d d1 d2 :
  marked rows1 d d1 → marked rows2 d1 d2 →
  (∀ m, m ∈ rows1 → OutboxMessage.ID m ∉ OutboxMessage.ID <$> rows2) → marked (rows1 ++ rows2) d d2.
Proof.
  intros [R1 O1 E1] [R2 O2 E2] Hd. split.
  - intros m [Hm|Hm]%elem_of_app; [|by apply R2]. rewrite O2 by by apply Hd. by apply R1.
  - intros k. rewrite fmap_app. intros [Hk1 Hk2]%not_elem_of_app. by rewrite O2, O1.
  - rewrite E2, E1. done.
Qed.

(** All rows owed are in a batch that has room for them. *)
Lemma batch_complete shards b ob rows :
  (∀ k m, ob !! k = Some m → OutboxMessage.ID m = k) → batch_of shards b ob rows →
  Z.of_nat (size (filter (λ p, owed_row shards p.2 = true) ob)) ≤ b →
  ∀ k m, ob !! k = Some m → owed_row shards m = true → m ∈ rows.
Proof.
  intros Hk Hb Hsize k m Hm Ho.
  destruct (decide (Z.of_nat (length rows) < b)) as [Hlt|Hge]; [by eapply (ba_all _ _ _ _ Hb)|].
  set (owed := filter _ ob) in Hsize.
  assert (list_to_set (OutboxMessage.ID <$> rows) ⊆@{gset Z} dom owed) as Hsub.
  { intros i Hi. apply elem_of_list_to_set, list_elem_of_fmap in Hi as (x & -> & Hx).
    destruct (ba_row _ _ _ _ Hb x Hx). apply elem_of_dom. exists x. by apply map_lookup_filter_Some. }
  assert (size (list_to_set (C := gset Z) (OutboxMessage.ID <$> rows)) = length rows) as Hlen.
  { rewrite size_list_to_set by apply rows_nodup, Hb. apply length_fmap. }
  assert (k ∈@{gset Z} list_to_set (OutboxMessage.ID <$> rows)) as Hin.
  { rewrite (set_subseteq_size_eq _ _ Hsub) by (rewrite Hlen, size_dom; lia).
    apply elem_of_dom. exists m. by apply map_lookup_filter_Some. }
  apply elem_of_list_to_set, list_elem_of_fmap in Hin as (x & -> & Hx).
  destruct (ba_row _ _ _ _ Hb x Hx). by simplify_eq.
Qed.

Section relaying.
Context {E : Env}.
#[local] Existing Instances Memory.memory_store MemSpec.memory_laws.
Context {Q : Type} (Publish : string → TaskPayload.t → GoM Q string).
Hypothesis Haccepts : ∀ stream p q, ∃ id q', Publish stream p q = (Ok id, q').

Lemma sent_app rows1 rows2 q q1 q2 :
  sent Publish rows1 q q1 → sent Publish rows2 q1 q2 → sent Publish (rows1 ++ rows2) q q2.
Proof. induction 1; simpl; [done|]. intros. econstructor; eauto. Qed.

Lemma relay_runs rollback shards batch k : 0 ≤ batch → ∀ w q,
  outbox_keyed (db w) → let s' := (relay_Run Publish rollback batch (replicate k (Tick shards)) (w, q)).2 in
  ∃ rows, batch_of (current_shards shards) (Z.of_nat k * batch) (outbox (db w)) rows ∧
    sent Publish rows q s'.2 ∧ marked rows (db w) (db s'.1).
Proof.
  intros Hb. induction k as [|k IH]; intros w q Hk.
  { exists []. split_and!; [|constructor|apply marked_nil]. split; [by intros m ?%elem_of_nil|constructor|simpl; lia|simpl; lia|].
    intros k m m' ?%elem_of_nil. done. }
  unfold relay_Run in *. cbn [replicate]. rewrite ticker_loop_tick, drop_state.
  destruct (relay_tick Publish rollback shards batch (w, q)) as [r [w1 q1]] eqn:Ht.
  destruct (relay_tick_spec Publish _ _ _ _ _ _ _ _ Hk Ht) as (rows1 & Hb1 & Hr).
  destruct r as [n|e]; simpl in Hr.
  2: { destruct Hr as (? & row & ? & q2 & _ & _ & Hp & _).
       destruct (Haccepts (OutboxMessage.StreamName row) (OutboxMessage.Payload row) q2) as (? & ? & ?).
       congruence. }
  destruct Hr as (_ & Hs1 & Hm1). destruct (IH w1 q1) as (rows2 & Hb2 & Hs2 & Hm2); [by eapply marked_keyed|].
  exists (rows1 ++ rows2). replace (Z.of_nat (S k) * batch) with (batch + Z.of_nat k * batch) by lia.
  split_and!; [apply (batch_app _ _ _ _ _ (db w) (db w1)); [nia|assumption..]|by eapply sent_app|].
  apply (marked_app _ _ _ (db w1)); [done..|]. intros m Hm (x & E1 & Hx)%list_elem_of_fmap.
  destruct (second_row _ _ _ _ _ _ _ Hb1 Hm1 Hb2 x Hx) as (_ & _ & Hnot).
  apply Hnot. rewrite <-E1. by apply list_elem_of_fmap_2.
Qed.

(** C25.  The relay loop empties the outbox.  Over the in-memory store and a queue that accepts
    every message, while nothing else happens to the store, [k] iterations with batch size [b] send the
    [k * b] oldest PENDING rows of the relay's shards, each once, in the order they were
    written, and mark exactly these; so when there are at most [k * b] of them, none is
    left. *)
Theorem relay_drains (Hu : uuid_unique) rollback shards batch k w fl q :
  reachable (w, fl) → 0 ≤ batch →
  let s' := (relay_Run Publish rollback batch (replicate k (Tick shards)) (w, q)).2 in
  let owed d := filter (λ p, owed_row (current_shards shards) p.2 = true) (outbox d) in
  (∃ rows, batch_of (current_shards shards) (Z.of_nat k * batch) (outbox (db w)) rows ∧
     sent Publish rows q s'.2 ∧ marked rows (db w) (db s'.1)) ∧
  (Z.of_nat (size (owed (db w))) ≤ Z.of_nat k * batch → owed (db s'.1) = ∅).
Proof.
  intros Hr Hb s' owed.
  assert (outbox_keyed (db w)) as Hk
    by exact (λ k m Hm, proj1 (oi_key _ _ _ (inv_out _ (reachable_Inv Hu _ Hr)) k m Hm)).
  destruct (relay_runs rollback shards batch k Hb w q Hk) as (rows & Hrows & Hs & Hm).
  split; [by exists rows|]. intros Hsize. apply map_empty_filter_2. intros i m Hi Ho. simpl in Ho.
  destruct (marked_owed _ rows _ _ i m (λ x Hx, proj1 (ba_row _ _ _ _ Hrows x Hx)) Hm Hi Ho) as [Hd Hnot].
  destruct Hnot. rewrite <-(Hk i m Hd). apply list_elem_of_fmap_2.
  eapply (batch_complete _ _ _ _ Hk Hrows Hsize i m Hd Ho).
Qed.
End relaying.

Section demo_loops.
#[local] Existing Instances Memory.memory_store MemSpec.memory_laws.

(** Two runs are created; the relay, one row at a time, sends both tasks. *)
Lemma relay_drains_witness :
  let w := at_ (created ++ [Create "etl" 0 None]) in
  map_Forall (λ _ m, OutboxMessage.Status m = OutboxPublished)
    (outbox (db (relay_Run demo_queue true 1 (replicate 2 (Tick None)) (w, [])).2.1)).
Proof.
  cbv zeta.
  assert (reachable (at_ (created ++ [Create "etl" 0 None]), [])) as Hr.
  { apply run_all_reachable; [|apply rtc_refl]. apply etl_valid. repeat constructor. }
  pose proof (relay_drains demo_queue ltac:(intros; eexists _, _; reflexivity) demo_unique true None 1 2
    _ [] [] Hr ltac:(lia)) as [_ H].
  assert (owed_none := H ltac:(vm_compute; discriminate)). clear H Hr.
  intros i m Hi. destruct (OutboxMessage.Status m) eqn:Est; [|reflexivity].
  exfalso. refine (map_empty_filter_1 _ _ owed_none i m Hi _).
  unfold owed_row. simpl. rewrite Est. reflexivity.
Defined.
End demo_loops.

(** * A leader that shuts down *)

Section leader.
Context `{Redis}.
Import Redislock.

Definition lost_reply (f : fate) : bool := match f with ReplyLost => true | _ => false end.

(** The node holds the lock only if it believes it leads. *)
Definition honest (n : Node) : Prop :=
  Scheduler.isLeader (node n) = false → Lock.GET leaderKey (redis n) ≠ Some (Scheduler.nodeID (node n)).

(** Others do not acquire the lock in the name of the node [me]. *)
Definition not_for (me : string) (f : rstate → rstate) : Prop :=
  ∀ r, Lock.GET leaderKey (f r) = Some me → Lock.GET leaderKey r = Some me.

Lemma renew_false me f r : lost_reply f = false →
  let '(res, r') := Renew (New leaderKey me leaderTTL) f r in
  match res with
  | Ok true => True
  | Ok false => Lock.GET leaderKey r' ≠ Some me
  | Err _ => r' = r
  end.
Proof.
  intros Hf. unfold Renew, mbind, GoM_bind. cbn [key holderID ttl New].
  destruct f; simpl; [|done..]. unfold renewScript. case_bool_decide as Hh; [|done].
  pose proof (PEXPIRE_spec r leaderKey leaderTTL ltac:(done)) as Hp.
  rewrite Lock.GET_spec in Hh. destruct (PEXPIRE leaderKey leaderTTL r) as [n r2]. destruct Hp as (_ & _ & Hp).
  destruct (Lock.live r leaderKey) as [[v exp]|]; [|done]. by destruct Hp as [-> _].
Qed.

Lemma honest_tick x n :
  lost_reply (le_set x) = false → lost_reply (le_renew x) = false →
  not_for (Scheduler.nodeID (node n)) (le_mid x) → honest n → honest (leader_iteration x n).2.
Proof.
  destruct x as [f1 mid f2 after members]. simpl. intros L1 L2 Hmid Hn. destruct n as [s r ms].
  unfold leader_iteration, elect. simpl in *. set (me := Scheduler.nodeID s) in *.
  unfold TryAcquire, mbind, GoM_bind, modify. cbn [key holderID ttl New].
  destruct f1; simpl; [|done..].
  pose proof (SetNX_spec r leaderKey me leaderTTL ltac:(done)) as Hs.
  destruct (SetNX leaderKey me leaderTTL r) as [[] r1]; [done|]. destruct Hs as (_ & _ & Hl).
  assert (Lock.GET leaderKey r1 = Lock.GET leaderKey r) as Eg.
  { rewrite !Lock.GET_spec. destruct (Lock.live r leaderKey); [by destruct Hl as [_ ->]|by destruct Hl]. }
  pose proof (renew_false me f2 (mid r1) L2) as Hr.
  destruct (Renew _ f2 (mid r1)) as [[[]|e] r2]; [done|by intros _|]. subst r2.
  unfold honest in *. simpl in *. intros Hlead Hg. apply Hn; [done|]. by rewrite <-Eg; apply Hmid.
Qed.

Lemma cancelled_released l n : honest n →
  let n' := (ticker_loop leader_iteration (step_down Delivered) (Cancelled :: l) n).2 in
  Lock.GET leaderKey (redis n') ≠ Some (Scheduler.nodeID (node n')).
Proof.
  intros Hn. simpl. unfold mbind, GoM_bind, catch, step_down.
  destruct (Scheduler.isLeader (node n)) eqn:El; simpl; [|by apply Hn].
  unfold Release, mbind, GoM_bind. simpl. unfold releaseScript. case_bool_decide as Hh; simpl; [|done].
  pose proof (Lock.DEL_spec (redis n) leaderKey) as Hd. destruct (Lock.DEL leaderKey (redis n)) as [k r]. simpl.
  destruct Hd as (_ & Hd & _). by rewrite Lock.GET_spec, Hd.
Qed.

(** A leader that shuts down gives up its lock at once, so that the next node need not wait
    for it to expire: when the loop of a node ends, its release reaches Redis and no reply
    of Redis was lost before, the lock is not held by this node, whatever the loop did and
    whatever the others did to Redis, as long as nobody else acquires the lock under its name. *)
Theorem leader_steps_down me l n :
  Scheduler.nodeID (node n) = me → honest n →
  (∀ x, Tick x ∈ l → lost_reply (le_set x) = false ∧ lost_reply (le_renew x) = false ∧ not_for me (le_mid x)) →
  (∀ f n, Elsewhere f ∈ l → node (f n) = node n ∧
     (Lock.GET leaderKey (redis (f n)) = Some me → Lock.GET leaderKey (redis n) = Some me)) →
  let n' := (leaderLoop Delivered (l ++ [Cancelled]) n).2 in
  (leaderLoop Delivered (l ++ [Cancelled]) n).1 = Ok true ∧
  Lock.GET leaderKey (redis n') ≠ Some (Scheduler.nodeID (node n')).
Proof.
  intros Hme Hn Hl He. unfold leaderLoop. cbv zeta. split.
  { rewrite ticker_loop_returns, existsb_app. simpl. by rewrite orb_true_r. }
  revert n Hme Hn. induction l as [|[x|f|] l IH]; intros n Hme Hn.
  - by apply cancelled_released.
  - cbn [app]. rewrite ticker_loop_tick. destruct (Hl x ltac:(set_solver)) as (L1 & L2 & Hmid).
    apply IH; [set_solver..| |].
    + rewrite <-Hme. unfold leader_iteration, elect. destruct (TryAcquire _ _ _ _ _) as [[[]|e] r]; done.
    + apply honest_tick; [done..|by rewrite Hme|done].
  - destruct (He f n ltac:(set_solver)) as [En Eg].
    apply IH; [set_solver..|by rewrite En|]. unfold honest in *. rewrite En, Hme in *.
    intros Hlead Hg. by apply Hn; [|apply Eg].
  - by apply cancelled_released.
Qed.
End leader.

(** Nothing to others, everything delivered. *)
Definition undisturbed `{Redis} (members : option (list string)) : leader_env :=
  mkLeaderEnv Delivered id Delivered id members.

Lemma leader_steps_down_witness :
  let r := @mkG 0 ∅ in
  let n' := (@leaderLoop gmap_redis Delivered ([Tick (@undisturbed gmap_redis None)] ++ [Cancelled])
              (@mkNode gmap_redis (Scheduler.New "a") r [])).2 in
  @Lock.GET gmap_redis Redislock.leaderKey (@redis gmap_redis n') ≠ Some "a".
Proof.
  cbv zeta.
  refine (proj2 (@leader_steps_down gmap_redis "a" [Tick (@undisturbed gmap_redis None)]
    (@mkNode gmap_redis (Scheduler.New "a") (mkG 0 ∅) []) _ _ _ _)).
  - reflexivity.
  - intros _. discriminate.
  - intros x Hin. apply list_elem_of_singleton in Hin. injection Hin as ->. split_and!; [reflexivity..|].
    intros r Hr. exact Hr.
  - intros f n Hin. apply list_elem_of_singleton in Hin. discriminate Hin.
Defined.

(** A leader that is held up between its election and its publication writes the shard map
    while another node leads: the lock does not make the leader the only writer. *)
Section stalled.
#[local] Existing Instance gmap_redis.

(** Node [a] is held up for 20 s, and [b] is elected in between. *)
Definition overtaken : leader_env :=
  mkLeaderEnv Delivered id Delivered
    (λ r, (Redislock.elect Delivered id Delivered (Scheduler.New "b") (mkG (g_clock r + 20000) (g_map r))).2)
    (Some ["a"]).

Theorem stalled_leader_publishes :
  let n' := (leader_iteration overtaken (mkNode (Scheduler.New "a") (mkG 0 ∅) [])).2 in
  maps n' = option_list (Scheduler.publishShardMap (Some ["a"])) ∧ length (maps n') = 1%nat ∧
  Lock.GET Redislock.leaderKey (redis n') = Some "b".
Proof. split_and!; reflexivity. Qed.
End stalled.
End Loops.
